(* ===== verification/_CoqProject ===== *)
-Q . S2P
Prelude.v
Machine.v
Fairness.v
Monitor.v
MonitorTheory.v
MonitorFair.v
MonitorDrain.v
RWLock.v
SharedMutex.v
SharedMutexBits.v
SharedTimedMutexProofs.v
SharedTimedMutexProps.v
SharedMutexFair.v
ReaderPreferringProofs.v
ReaderPreferringProps.v
Atomics.v
DList.v
WaitQueue.v
WaitQueueProofs.v
WaitQueueProps.v
Semaphore.v
SimpleSemaphore.v
SimpleSemaphoreProofs.v
SimpleSemaphoreProps.v
QueuedSemaphore.v
QueuedSemaphoreProofs.v
QueuedSemaphoreUniform.v
QueuedSemaphoreProps.v
QueuedSemaphoreFair.v
AdapterProps.v
LRUCache.v
LRUCacheProofs.v
BlockingLRUCache.v
LRUCacheKeeps.v
LRUCacheProps.v
Latch.v
LatchProofs.v
LatchProps.v
SpinLock.v
SpinLockProofs.v
SpinLockProps.v
SpinLockFair.v
Guarded.v
Locks.v
LRUCacheLocked.v
Executor.v
ExecutorProofs.v
ExecutorTasks.v
ExecutorSettles.v
ExecutorFair.v
ExecutorProps.v
SharedLock.v
SharedLockProofs.v
SharedLockProps.v
ScopeGuard.v
ScopeGuardProps.v
Invoke.v
InvokeProps.v
RValueWrapper.v
RValueWrapperProps.v
MakeUnique.v
PThread.v
PThreadProps.v
PThreadLocalPtr.v
PThreadLocalPtrProps.v
