(* ===== verification/Prelude.v ===== *)
(** * concurrency-cpp11, verified: prelude and guide to the development

    The library under [src/] is a set of C++11 headers: shared mutexes,
    semaphores, a thread pool, a latch, spin locks, wrappers for pthread
    objects, an LRU cache and scope guards.  This development models them and
    proves that they do what they promise, in every interleaving of any number
    of threads.  This page is the guide; the rest of this file holds machine
    integers, sums over threads and shared tactics.

    ** How concurrency is modelled

    [Machine] has executable transition systems: a component is a function
    [step : S -> E -> option S], an event names the thread that moves and the
    choices of the scheduler, a schedule is a list of events, and [run]
    evaluates it; the theorems quantify over all schedules.

    [Atomics] gives the atomic objects of the lock-free classes with the
    memory orders of the sources: the history of an object is a list of
    messages, a load may return an old one, a release write carries the view
    of its thread and an acquire read takes it over, and a read-modify-write
    is adjacent to what it read.  The sources have no relaxed atomic access;
    [unordered] is for the ordinary data a lock protects.  The thread pool and the semaphores use their atomics with
    the default, sequentially consistent, order, and change them under the
    mutex: there, and for everything a mutex protects, memory is sequentially
    consistent.

    [Monitor] gives the semantics of [std::mutex], [std::unique_lock] and
    [std::condition_variable] for classes written as monitors: a method is cut
    where another thread can interleave (lock, wait, unlock, notify), each
    segment between two cuts is a function on the shared state, waits can be
    woken spuriously, a timed wait can expire at any moment (a deadline is not
    a value), and [notify_one] wakes whomever the scheduler picks.
    [MonitorTheory] proves the rules used by every client once: invariants by
    thread, no lost wake-up, who owns the mutex, and what a thread that locks
    a mutex it owns blocks.  [MonitorDrain] proves that a class comes to rest
    when it is left alone, with a bound on the number of steps: a client of it
    says how many segments the shared state and the position of each thread
    are still good for, and how many notifications a segment sends (its
    [account]), and the theorem adds it up.  [LeavesOnce] is the account of the
    classes whose methods leave the mutex once.

    [Fairness] has infinite executions of a machine, and [MonitorFair] those of
    a monitor in which every thread that is due moves in the end.

    ** The parts and their files

    - concurrency/shared_mutex.h.  [RWLock]: the promise of the
      SharedTimedMutex concept (operations, contract of the callers, the
      abstract readers-writer lock, the interface [SharedMutex] and, proved
      against it, the refinement).  [SharedMutex]: [SharedTimedMutex] and
      [ReaderPreferringSharedTimedMutex], segment by segment, on the packed
      word of [W >= 32] bits; [SharedMutexBits] the word's masks.
      [SharedTimedMutexProofs], [SharedTimedMutexProps]: mutual exclusion, the
      exact content of the word, refinement of the abstract lock, no lost
      wake-up, no deadlock or livelock.  [SharedMutexFair]: in fair executions
      a writer that has entered comes to own the mutex.  [ReaderPreferringProofs],
      [ReaderPreferringProps]: the same interface for the other class.
      [SharedLock], [SharedLockProofs], [SharedLockProps]: the lock objects;
      ownership is neither leaked nor returned twice, and the mutex is called
      within its contract.
    - concurrency/semaphore.h.  [DList]: doubly linked segments.  [WaitQueue],
      [WaitQueueProofs], [WaitQueueProps]: the queue of waiting nodes with its
      free list, on an explicit heap, refines a list; its loops end.
      [Semaphore]: the interface of both semaphores with its laws, and the
      client classes [SemaphoreGuard] and [SemaphoreTimedLockableAdapter].
      [SimpleSemaphore], [SimpleSemaphoreProofs], [SimpleSemaphoreProps].
      [QueuedSemaphore], [QueuedSemaphoreProofs], [QueuedSemaphoreUniform],
      [QueuedSemaphoreProps]: the books balance, the queue is the line of
      waiting threads, no overtaking, coming to rest, with no thread asleep
      that could be served when all requests are equal, and the executions
      that strand a waiter when they are not.  [QueuedSemaphoreFair]: fair
      infinite executions with equal requests, where everybody is served.
      [AdapterProps]: over either semaphore the adapter is, member by member, a
      lock with as many slots as the permits hold requests.
    - concurrency/executor.h.  [Executor]: workers, task queue, shutdown,
      waiting for termination, destructor.  [ExecutorProofs]: the worker array
      and the active count.  [ExecutorTasks]: the history of each task.
      [ExecutorSettles]: the account of the pool for [MonitorDrain], and what
      it means to stand still.  [ExecutorFair]: fair infinite executions, where
      every task has its turn and its future its result.  [ExecutorProps]: no
      task is lost, duplicated or reordered, the pool comes to rest with every
      accepted task called or no worker left, termination is announced, and
      the deadlock of [await_termination_until].
    - concurrency/latch.h, concurrency/spin_lock.h.  [Atomics]; [Latch],
      [LatchProofs], [LatchProps] and [SpinLock], [SpinLockProofs],
      [SpinLockProps]: machines of their own with one event per access to an
      atomic, because these classes race outside any mutex.  The properties
      include that the memory orders suffice: who owns a spin lock, or has
      waited for a latch, has seen the accesses that the lock or the latch
      orders before it.  [SpinLockFair] proves that, if scheduler, memory and
      owners are fair, every thread in [lock] of [FairSpinLock] gets the lock.
    - util/lru_cache.h.  [LRUCache], [LRUCacheProofs], [LRUCacheKeeps],
      [LRUCacheProps]: the hash map whose entries are chained in order of use
      refines a bounded list, and returns what was stored as long as its
      capacity allows; [BlockingLRUCache]: its locked version on the machine of
      [Monitor] is linearizable.  The type of its mutex is a template
      parameter: [Guarded] has the interface of the locks ([Lock] and
      [LockLaws]: mutual exclusion, and that [unlock] synchronizes with the
      next [lock]) and a class whose methods work on ordinary data under a
      [lock_guard], access by access, on the memory of [Atomics], where the
      accesses of different threads interleave as far as the lock lets them;
      [LRUCacheLocked] writes the methods of the cache as such sequences of
      accesses and proves it linearizable, and free of data races, over any
      lock that keeps the laws; [Locks] proves them of [SpinLock],
      [FairSpinLock] and a model of [std::mutex].
    - util/bits/.  [ScopeGuard], [ScopeGuardProps]; [Invoke], [InvokeProps]:
      overload resolution against [INVOKE] of C++17, [noexcept], and the timer;
      [RValueWrapper], [RValueWrapperProps]: the types [rval] deduces, and the
      objects it moves; [MakeUnique]: the overloads of [make_unique] against
      C++14.
    - pthread_wrapper/.  [PThread], [PThreadProps], [PThreadLocalPtr],
      [PThreadLocalPtrProps].  The pthread functions are not part of the
      library: they are the parameters of classes, and what POSIX documents of
      them is a class of laws with a concrete instance.

    The definitions of a component and the proofs about it are in different
    files; the files named [...Props] hold the properties, each with a doc
    comment that starts with its number, and after them the concrete runs that
    show the hypotheses can be met.

    ** Bounds and fuel

    Integers are [Z] with the wrap-around of their width written out: [int]
    and [unsigned] 32 bits, [size_t] and [ptrdiff_t] 64, [uint_fast32_t] a
    parameter [W >= 32], [uint_fast16_t] a parameter [w >= 16].  The hypotheses
    on sizes are those of the code: fewer than [2^31 - 1] threads where a reader
    count of 31 bits could fill, permits that fit an [int], fewer than [2^62]
    waiting threads before the queue's capacity overflows, at most [2^32]
    threads on a ticket lock.  The loops with fuel are [num_waiting_nodes] and
    the destructor of the queue (any fuel above the number of nodes is enough,
    [wq_loops]) and the retry loop of the pthread wrapper
    ([psm_meets_concept] says after how many calls it returns).

    ** Abstractions to know about

    In the thread pool, [L] bounds the number of workers ever started (a
    failure to start a thread terminates the program, so every execution is a
    run for some [L]); a callable, which is called at most once, is the value
    it returns or the exception it throws; [join] of a worker that has left the
    array takes no time; ids of workers are left out.  In the caches, a pointer
    to a pair is the pair's key, and [Hash] and [Eql] are key equality; under a
    lock of [Guarded] the cache is one object of the memory.  Allocation does
    not fail.

    The language rules for templates appear where the code depends on them: a
    type is what the conditions of the overloads look at, and an overload set
    is resolved by its viable members.

    ** Not modelled

    The tests, [util.h] (it only includes), and three members that no program
    can call because their templates cannot be instantiated:
    [try_acquire_until] of [QueuedSemaphore] (both overloads) and the overload
    of [make_cached_thread_pool] that takes a duration.  A failing allocation
    and an exception from a user's copy or move constructor are outside the
    model.

    ** What is left to do

    The lock type as a parameter of the semaphores, whose condition variable is
    tied to it; the seq_cst atomics of the thread pool on the memory of
    [Atomics]. *)

From stdpp Require Export prelude gmap fin_maps.
From Stdlib Require Export ZArith Lia.

#[export] Set Default Goal Selector "!".

Declare Scope conc_scope.
Delimit Scope conc_scope with conc.

(** ** Machine integers *)

(** Reduction to a [w]-bit unsigned / two's complement signed integer. *)
Definition wrap_u (w z : Z) : Z := (z mod 2 ^ w)%Z.
Definition wrap_s (w z : Z) : Z := ((z + 2 ^ (w - 1)) mod 2 ^ w - 2 ^ (w - 1))%Z.

(** The conversions the sources rely on: [(int) u], [(unsigned) i]. *)
Abbreviation int_of := (wrap_s 32).
Abbreviation uint_of := (wrap_u 32).
Definition INT_MAX : Z := 2147483647.
Definition INT_MIN : Z := -2147483648.

Section integers.
Local Open Scope Z_scope.

Lemma wrap_u_range w z : 0 <= w -> 0 <= wrap_u w z < 2 ^ w.
Proof. intros Hw. apply Z.mod_pos_bound, Z.pow_pos_nonneg; lia. Qed.

Lemma wrap_u_small w z : 0 <= z < 2 ^ w -> wrap_u w z = z.
Proof. apply Z.mod_small. Qed.

Lemma wrap_s_small w z : 0 < w -> - 2 ^ (w - 1) <= z < 2 ^ (w - 1) -> wrap_s w z = z.
Proof.
  intros Hw Hz. unfold wrap_s.
  assert (2 ^ w = 2 * 2 ^ (w - 1)) as Hp.
  { rewrite <- Z.pow_succ_r by lia. f_equal. lia. }
  rewrite Z.mod_small; lia.
Qed.

Lemma wrap_s_range w z : 0 < w -> - 2 ^ (w - 1) <= wrap_s w z < 2 ^ (w - 1).
Proof.
  intros Hw. unfold wrap_s.
  assert (2 ^ w = 2 * 2 ^ (w - 1)) as Hp.
  { rewrite <- Z.pow_succ_r by lia. f_equal. lia. }
  pose proof (Z.mod_pos_bound (z + 2 ^ (w - 1)) (2 ^ w)) as Hb.
  assert (0 < 2 ^ (w - 1)) by (apply Z.pow_pos_nonneg; lia). lia.
Qed.

(** Wrapping is reduction modulo [2^w]: it can be postponed past sums. *)
Lemma wrap_s_mod w z : 0 < w -> wrap_s w z mod 2 ^ w = z mod 2 ^ w.
Proof.
  intros Hw. unfold wrap_s. rewrite Zminus_mod_idemp_l. f_equal. lia.
Qed.

Lemma wrap_s_eq w y z : 0 < w -> y mod 2 ^ w = z mod 2 ^ w -> wrap_s w y = wrap_s w z.
Proof.
  intros Hw Hm. unfold wrap_s. f_equal.
  rewrite <- Zplus_mod_idemp_l, Hm, Zplus_mod_idemp_l. done.
Qed.

Lemma wrap_s_add_l w y z : 0 < w -> wrap_s w (wrap_s w y + z) = wrap_s w (y + z).
Proof.
  intros Hw. apply wrap_s_eq; [done|].
  rewrite <- Zplus_mod_idemp_l, wrap_s_mod, Zplus_mod_idemp_l by done. done.
Qed.

Lemma int_small z : INT_MIN <= z <= INT_MAX -> int_of z = z.
Proof. unfold INT_MIN, INT_MAX. intros. apply wrap_s_small; lia. Qed.

Lemma int_range z : INT_MIN <= int_of z <= INT_MAX.
Proof.
  pose proof (wrap_s_range 32 z ltac:(lia)) as Hr.
  change (2 ^ (32 - 1)) with 2147483648 in Hr. unfold INT_MIN, INT_MAX. lia.
Qed.

Lemma uint_small z : 0 <= z < 2 ^ 32 -> uint_of z = z.
Proof. apply wrap_u_small. Qed.
End integers.

(** ** Sums over finite maps of threads *)

(** Threads are named by numbers; a map from threads to anything can be
    summed, which counts (with 0/1 weights) or totals (permits held). *)
Abbreviation tid := nat.

Definition sumz {A} (f : A -> Z) (m : gmap tid A) : Z :=
  map_fold (fun _ x acc => (f x + acc)%Z) 0%Z m.

Section sums.
Context {A : Type} (f : A -> Z).
Implicit Types (m : gmap tid A) (k : tid) (x y : A).
Local Open Scope Z_scope.

Lemma sumz_empty : sumz f ∅ = 0.
Proof. apply map_fold_empty. Qed.

Lemma sumz_insert_None m k x : m !! k = None -> sumz f (<[k:=x]> m) = f x + sumz f m.
Proof.
  intros Hk. unfold sumz. rewrite map_fold_insert_L; [done| |done].
  intros. lia.
Qed.

Lemma sumz_delete m k x : m !! k = Some x -> sumz f m = f x + sumz f (delete k m).
Proof.
  intros Hk. rewrite <- (insert_delete_id m k x) at 1 by done.
  apply sumz_insert_None, lookup_delete_eq.
Qed.

Lemma sumz_insert m k x y :
  m !! k = Some x -> sumz f (<[k:=y]> m) = sumz f m - f x + f y.
Proof.
  intros Hk. rewrite (sumz_delete m k x) by done.
  rewrite <- insert_delete_eq, sumz_insert_None by apply lookup_delete_eq. lia.
Qed.

Lemma sumz_nonneg m : (forall k x, m !! k = Some x -> 0 <= f x) -> 0 <= sumz f m.
Proof.
  induction m as [|k x m Hk IH] using map_ind; intros Hf.
  { rewrite sumz_empty. lia. }
  rewrite sumz_insert_None by done.
  assert (0 <= f x) by (apply (Hf k); apply lookup_insert_eq).
  assert (0 <= sumz f m); [|lia].
  apply IH. intros k' x' Hx'. apply (Hf k').
  rewrite lookup_insert_ne by congruence. done.
Qed.

Lemma sumz_ge_one m k x :
  (forall k x, m !! k = Some x -> 0 <= f x) -> m !! k = Some x -> f x <= sumz f m.
Proof.
  intros Hf Hk. rewrite (sumz_delete m k x) by done.
  assert (0 <= sumz f (delete k m)); [|lia].
  apply sumz_nonneg. intros k' x' [_ Hx']%lookup_delete_Some. by eapply Hf.
Qed.

Lemma sumz_ge_two m k1 k2 x1 x2 :
  (forall k x, m !! k = Some x -> 0 <= f x) ->
  m !! k1 = Some x1 -> m !! k2 = Some x2 -> k1 <> k2 -> f x1 + f x2 <= sumz f m.
Proof.
  intros Hf H1 H2 Hne. rewrite (sumz_delete m k1 x1) by done.
  assert (f x2 <= sumz f (delete k1 m)); [|lia].
  rewrite (sumz_delete (delete k1 m) k2 x2) by (by rewrite lookup_delete_ne).
  assert (0 <= sumz f (delete k2 (delete k1 m))); [|lia].
  apply sumz_nonneg. intros k x [_ [_ Hx]%lookup_delete_Some]%lookup_delete_Some.
  by eapply Hf.
Qed.

Lemma sumz_pos_inv m : 0 < sumz f m -> exists k x, m !! k = Some x /\ 0 < f x.
Proof.
  induction m as [|k x m Hk IH] using map_ind.
  { rewrite sumz_empty. lia. }
  rewrite sumz_insert_None by done. intros Hs.
  destruct (decide (0 < f x)) as [Hx|Hx].
  { exists k, x. split; [apply lookup_insert_eq|done]. }
  destruct IH as (k' & x' & Hk' & Hx'); [lia|].
  exists k', x'. split; [|done]. rewrite lookup_insert_ne; congruence.
Qed.

Lemma sumz_zero m : (forall k x, m !! k = Some x -> f x = 0) -> sumz f m = 0.
Proof.
  induction m as [|k x m Hk IH] using map_ind; intros Hf.
  { apply sumz_empty. }
  rewrite sumz_insert_None by done.
  rewrite (Hf k x) by apply lookup_insert_eq.
  rewrite IH; [done|]. intros k' x' Hx'. apply (Hf k').
  rewrite lookup_insert_ne by congruence. done.
Qed.

Lemma sumz_le_size m c :
  (forall k x, m !! k = Some x -> f x <= c) -> sumz f m <= c * Z.of_nat (size m).
Proof.
  induction m as [|k x m Hk IH] using map_ind; intros Hf.
  { rewrite sumz_empty, map_size_empty. lia. }
  rewrite sumz_insert_None, map_size_insert_None by done.
  assert (f x <= c) by (apply (Hf k), lookup_insert_eq).
  assert (sumz f m <= c * Z.of_nat (size m)); [|lia].
  apply IH. intros k' x' Hx'. apply (Hf k').
  rewrite lookup_insert_ne by congruence. done.
Qed.
End sums.

Section two_sums.
Context {A B : Type} (f : A -> Z) (g : B -> Z).

Local Open Scope Z_scope.

(** Two maps with the same keys, related point by point. *)
Lemma sumz_shift (m1 : gmap tid A) (m2 : gmap tid B) d :
  0 <= d -> dom m1 = dom m2 ->
  (forall k x y, m1 !! k = Some x -> m2 !! k = Some y -> g y <= f x + d) ->
  sumz g m2 <= sumz f m1 + d * Z.of_nat (size m2).
Proof.
  intros Hd. revert m1. induction m2 as [|k y m2 Hk IH] using map_ind; intros m1 Hdom Hf.
  { rewrite dom_empty_L in Hdom. apply dom_empty_inv_L in Hdom as ->. rewrite !sumz_empty. lia. }
  assert (exists x, m1 !! k = Some x) as [x Hx].
  { apply elem_of_dom. rewrite Hdom, dom_insert_L. set_solver. }
  rewrite (sumz_delete f m1 k x), sumz_insert_None, map_size_insert_None by done.
  assert (g y <= f x + d) by (apply (Hf k); [done|apply lookup_insert_eq]).
  assert (sumz g m2 <= sumz f (delete k m1) + d * Z.of_nat (size m2)); [|lia].
  apply IH.
  - rewrite dom_delete_L, Hdom, dom_insert_L.
    apply not_elem_of_dom in Hk. set_solver.
  - intros k' x' y' [Hne Hx']%lookup_delete_Some Hy'. apply (Hf k'); [done|].
    by rewrite lookup_insert_ne.
Qed.

(** The same with [t] losing [d] and no other key gaining. *)
Lemma sumz_lose (m1 : gmap tid A) (m2 : gmap tid B) t x y d :
  dom m1 = dom m2 -> m1 !! t = Some x -> m2 !! t = Some y -> g y + d <= f x ->
  (forall k x y, k <> t -> m1 !! k = Some x -> m2 !! k = Some y -> g y <= f x) ->
  sumz g m2 + d <= sumz f m1.
Proof.
  intros Hdom Hx Hy Hd Hf. rewrite (sumz_delete f m1 t x), (sumz_delete g m2 t y) by done.
  assert (sumz g (delete t m2) <= sumz f (delete t m1) + 0 * Z.of_nat (size (delete t m2))); [|lia].
  apply sumz_shift; [lia|by rewrite !dom_delete_L, Hdom|].
  intros k x' y' [Hne Hx']%lookup_delete_Some [_ Hy']%lookup_delete_Some. rewrite Z.add_0_r. by apply (Hf k).
Qed.
End two_sums.


Create HintDb conc.

(** ** Tactics *)

(** Destructs every option/boolean test in a hypothesis about an executable
    step and keeps the surviving case. *)
Ltac inv_step H :=
  repeat (case_match; simplify_eq/=; try discriminate H).

Ltac split_and_all := repeat match goal with |- _ /\ _ => split end.
