(* ===== verification/Machine.v ===== *)
(** * Executable transition systems

    Every concurrent component of the library is modelled by a function
    [step : S -> E -> option S]: an event names the thread that moves and the
    nondeterministic choices it makes, so a schedule is a list of events and
    a concrete interleaving is evaluated by [run].  This file holds the
    notions all the components share: runs, reachability, invariants by rule
    induction, and forward simulation of one machine by another. *)

From S2P Require Import Prelude.

Section machine.
Context {S E : Type} (step : S -> E -> option S).

(** The state after a schedule, [None] if some event was not enabled. *)
Fixpoint run (s : S) (es : list E) : option S :=
  match es with
  | [] => Some s
  | e :: es => s' ← step s e; run s' es
  end.

(** [steps s s']: some schedule leads from [s] to [s']. *)
Inductive steps (s : S) : S -> Prop :=
| steps_refl : steps s s
| steps_snoc s1 e s2 : steps s s1 -> step s1 e = Some s2 -> steps s s2.

Lemma run_app s es1 es2 : run s (es1 ++ es2) = s' ← run s es1; run s' es2.
Proof.
  revert s. induction es1 as [|e es1 IH]; intros s; simpl; [done|].
  destruct (step s e) as [s'|]; simpl; [apply IH|done].
Qed.

Lemma steps_trans s1 s2 s3 : steps s1 s2 -> steps s2 s3 -> steps s1 s3.
Proof. intros H12 H23. induction H23; eauto using steps. Qed.

Lemma run_steps s es s' : run s es = Some s' -> steps s s'.
Proof.
  revert s. induction es as [|e es IH]; intros s; simpl.
  { intros [= <-]. constructor. }
  destruct (step s e) as [s1|] eqn:He; simpl; [|done].
  intros Hr. eapply steps_trans; [|by apply IH].
  eapply steps_snoc; [constructor|done].
Qed.

Lemma steps_run s s' : steps s s' -> exists es, run s es = Some s'.
Proof.
  induction 1 as [|s1 e s2 _ [es Hes] Hstep]; [by exists []|].
  exists (es ++ [e]). rewrite run_app, Hes. simpl. by rewrite Hstep.
Qed.

(** Invariants: true at the start and kept by every event. *)
Lemma steps_invariant (I : S -> Prop) s s' :
  I s -> (forall s1 e s2, I s1 -> step s1 e = Some s2 -> I s2) ->
  steps s s' -> I s'.
Proof. intros H0 HI. induction 1; eauto. Qed.

Lemma run_invariant (I : S -> Prop) s es s' :
  I s -> (forall s1 e s2, I s1 -> step s1 e = Some s2 -> I s2) ->
  run s es = Some s' -> I s'.
Proof. intros H0 HI Hr. eapply steps_invariant; eauto using run_steps. Qed.
End machine.

(** ** Forward simulation

    Each concrete event is matched by at most one abstract event (its
    linearisation point when there is one). *)
Section simulation.
Context {S E A L : Type} (step : S -> E -> option S) (astep : A -> L -> option A).
Context (label : S -> E -> option L) (R : S -> A -> Prop).

(** The abstract events of a concrete schedule, in order. *)
Fixpoint labels (s : S) (es : list E) : list L :=
  match es with
  | [] => []
  | e :: es =>
      option_list (label s e) ++
      match step s e with Some s' => labels s' es | None => [] end
  end.

Context (simulate : forall s a e s', R s a -> step s e = Some s' ->
  match label s e with
  | None => R s' a
  | Some l => exists a', astep a l = Some a' /\ R s' a'
  end).

Lemma simulation_run s a es s' :
  R s a -> run step s es = Some s' ->
  exists a', run astep a (labels s es) = Some a' /\ R s' a'.
Proof.
  revert s a. induction es as [|e es IH]; intros s a HR; simpl.
  { intros [= <-]. by exists a. }
  destruct (step s e) as [s1|] eqn:He; simpl; [|done]. intros Hrun.
  pose proof (simulate s a e s1 HR He) as Hsim.
  destruct (label s e) as [l|]; simpl.
  - destruct Hsim as (a1 & Ha1 & HR1). rewrite Ha1. simpl. eauto.
  - eauto.
Qed.
End simulation.

#[export] Hint Constructors steps : conc.
#[export] Hint Resolve run_steps steps_trans : conc.

(** Evaluating a concrete run: a decidable fact of the state it reaches. *)
Lemma evaluate {A} (P : A -> Prop) `{!forall a, Decision (P a)} (o : option A) :
  match o with Some a => bool_decide (P a) | None => false end = true ->
  exists a, o = Some a /\ P a.
Proof. destruct o as [a|]; [|done]. intros Ha%bool_decide_eq_true. by exists a. Qed.

Ltac evaluates :=
  match goal with
  | |- exists m, ?o = Some m /\ @?P m => apply (evaluate P o); vm_compute; reflexivity
  end.

(** Names the state a concrete run reaches, and a fact about it. *)
Tactic Notation "reach" constr(r) "with" constr(P) "as" ident(m) ident(Hrun) ident(Hm) :=
  assert (exists m, r = Some m /\ P m) as (m & Hrun & Hm);
  [apply (evaluate P r); vm_compute; reflexivity|].
