(* ===== verification/Fairness.v ===== *)
(** * Infinite executions

    For liveness under fairness: an execution of a machine of [Machine] is a
    sequence of states with what happens at each of them, an event or, when
    everybody is done or waits, nothing. *)

From S2P Require Import Prelude Machine.

Section execution.
Context {S E : Type} (step : S -> E -> option S).
Implicit Types (σ : nat -> S) (ev : nat -> option E) (n m k : nat).

(** What follows [s] when [o] happens. *)
Definition next_is (s : S) (o : option E) (s' : S) : Prop :=
  match o with Some e => step s e = Some s' | None => s' = s end.

Record execution (s0 : S) σ ev : Prop := {
  ex_start : σ 0 = s0;
  ex_next n : next_is (σ n) (ev n) (σ (1 + n));
}.

#[local] Instance occurs_dec (Q : E -> Prop) `{!forall e, Decision (Q e)} (o : option E) :
  Decision (exists e, o = Some e /\ Q e).
Proof.
  destruct o as [e|]; [|right; naive_solver]. destruct (decide (Q e)); [left; eauto|right; naive_solver].
Defined.

(** What an event that is not in [avoid] keeps holds as long as there is none. *)
Lemma as_long_as s0 σ ev (P : S -> Prop) (avoid : E -> Prop) n m :
  execution s0 σ ev -> n <= m -> P (σ n) ->
  (forall s e s', P s -> step s e = Some s' -> ~ avoid e -> P s') ->
  (forall k e, n <= k < m -> ev k = Some e -> ~ avoid e) -> P (σ m).
Proof.
  intros Hex Hle Hn Hstep Hno. induction Hle as [|m Hle IH]; [done|].
  assert (P (σ m)) as Hm by (apply IH; intros k e Hk; apply Hno; lia).
  pose proof (ex_next _ _ _ Hex m) as Hnext. unfold next_is in Hnext. simpl in Hnext.
  destruct (ev m) as [e|] eqn:He; [|by rewrite Hnext]. eapply Hstep; [done|done|]. apply (Hno m); [lia|done].
Qed.

Lemma always s0 σ ev (P : S -> Prop) n :
  execution s0 σ ev -> P s0 -> (forall s e s', P s -> step s e = Some s' -> P s') -> P (σ n).
Proof.
  intros Hex H0 Hstep. eapply (as_long_as s0 σ ev P (fun _ => False) 0 n); [done|lia| |eauto|naive_solver].
  by rewrite (ex_start _ _ _ Hex).
Qed.

Lemma execution_steps s0 σ ev n : execution s0 σ ev -> steps step s0 (σ n).
Proof.
  intros Hex. apply (always s0 σ ev (steps step s0) n Hex); [constructor|]. intros s e s' Hs He. by eapply steps_snoc.
Qed.

(** What happens at some time happens for a first time. *)
Lemma first_event ev (Q : E -> Prop) `{!forall e, Decision (Q e)} n :
  (exists m e, n <= m /\ ev m = Some e /\ Q e) ->
  exists m e, n <= m /\ ev m = Some e /\ Q e /\ forall k e', n <= k < m -> ev k = Some e' -> ~ Q e'.
Proof.
  intros (m & e & Hle & Hm & He). remember (m - n) as d eqn:Hd. revert n Hle Hd.
  induction d as [|d IH]; intros n Hle Hd; [exists m, e; split_and!; [done|done|done|lia]|].
  destruct (decide (exists e', ev n = Some e' /\ Q e')) as [(e' & Hn & He')|Hq].
  { exists n, e'. split_and!; [done|done|done|lia]. }
  destruct (IH (1 + n)) as (m' & e' & Hle' & Hm' & He' & Hno); [lia|lia|]. exists m', e'. split_and!; [lia|done|done|].
  intros k e0 Hk Hev. destruct (decide (k = n)) as [->|]; [|eapply Hno; [|done]; lia]. intros H0. apply Hq. by exists e0.
Qed.

(** A run after which nothing happens any more. *)
Definition visited (s0 : S) (es : list E) n : S := default s0 (run step s0 (take n es)).

Lemma finite_execution s0 es s : run step s0 es = Some s -> execution s0 (visited s0 es) (fun n => es !! n).
Proof.
  intros Hr. split; [done|]. intros n. unfold next_is, visited. simpl (1 + n).
  rewrite <- (take_drop n es), run_app in Hr. destruct (run step s0 (take n es)) as [s1|] eqn:H1; simpl in Hr; [|done].
  destruct (es !! n) as [e|] eqn:He.
  - rewrite (take_S_r _ _ _ He), run_app, H1. simpl. rewrite (drop_S _ _ _ He) in Hr. simpl in Hr.
    by destruct (step s1 e).
  - apply lookup_ge_None in He. rewrite !take_ge in * by lia. by rewrite H1.
Qed.
End execution.
