(* ===== verification/Monitor.v ===== *)
(** * Mutexes and condition variables

    The classes of [concurrency/] protect their state with one mutex and block
    on condition variables.  This file gives the semantics of [std::mutex],
    [std::unique_lock], [std::condition_variable] (or their [_any] versions)
    that those classes are written against, as one executable machine,
    parameterised by the code of the class.

    A method is cut at the places where another thread can interleave: the
    acquisition of the mutex, each [cv.wait], each release, each notification
    made after the release, and, on request ([Hold]), a place inside the
    critical section.  What lies between two cuts is one segment of code, a
    function on the shared state. *)

From S2P Require Import Prelude Machine.

Section code.
Context {St Op Pt Cv Rt : Type}.

Inductive notify :=
| NotifyOne (c : Cv)
| NotifyAll (c : Cv).

(** What follows a release of the mutex, after the notifications: the
    method returns, or runs some code and locks the mutex again. *)
Inductive next :=
| Return (r : Rt)
| Again (p : Pt).

(** How a critical segment ends. *)
Inductive exit :=
| Wait (c : Cv) (timed : bool) (p : Pt)   (** [c.wait(lock)], [c.wait_until(lock, t)] *)
| Hold (p : Pt)                           (** go on at [p], still owning the mutex *)
| Leave (ns : list notify) (k : next)     (** unlock, then notify, then [k] *)
| Relock (p : Pt).                        (** lock the mutex already owned *)

(** How a method begins, after its unlocked prologue. *)
Inductive entry :=
| Direct (r : Rt)                         (** returns without locking *)
| Blocking (p : Pt)                       (** [unique_lock lock(mtx)] *)
| Trying (p : Pt) (r : Rt).               (** [unique_lock lock(mtx, try_to_lock)];
                                        [r] is returned when not owned *)

(** The code of a class: the unlocked prologue of each operation, its
    critical segments (the boolean says that the wait before the segment
    reported a timeout; the list is what is notified under the lock) and
    the unlocked code before a re-acquisition.  [None] is undefined
    behaviour or a failed assertion. *)
Record code := mkCode {
  enter : Op -> St -> option (St * entry);
  body : Op -> Pt -> bool -> St -> option (St * list notify * exit);
  outside : Op -> Pt -> St -> option St;
}.

(** Where a thread is. *)
Inductive pc :=
| Idle (last : option Rt)
| Wanting (op : Op) (p : Pt) (timedout : bool)
| TryWanting (op : Op) (p : Pt) (r : Rt)
| Running (op : Op) (p : Pt) (timedout : bool)
| Waiting (c : Cv) (timed : bool) (op : Op) (p : Pt)
| Posting (ns : list notify) (op : Op) (k : next).
End code.

Arguments notify Cv : clear implicits.
Arguments next Pt Rt : clear implicits.
Arguments exit Pt Cv Rt : clear implicits.
Arguments entry Pt Rt : clear implicits.
Arguments code St Op Pt Cv Rt : clear implicits.
Arguments pc Op Pt Cv Rt : clear implicits.

#[export] Instance notify_eq_dec `{EqDecision Cv} : EqDecision (notify Cv).
Proof. solve_decision. Defined.
#[export] Instance next_eq_dec `{EqDecision Pt, EqDecision Rt} : EqDecision (next Pt Rt).
Proof. solve_decision. Defined.
#[export] Instance pc_eq_dec `{EqDecision Op, EqDecision Pt, EqDecision Cv, EqDecision Rt} :
  EqDecision (pc Op Pt Cv Rt).
Proof. solve_decision. Defined.

Section monitor.
Context {St Op Pt Cv Rt H : Type} `{!EqDecision Cv}.

(** The clients of the class.  Each thread has a mode, what it holds as far
    as the class is concerned; [may_call] is the documented precondition of
    an operation and [settle] what the end of a critical segment means for
    the thread that ran it. *)
Record client := mkClient {
  may_call : tid -> H -> St -> Op -> bool;
  settle : Op -> Pt -> exit Pt Cv Rt -> H -> H;
}.

Record thread := mkThread { mode : H; at_pc : pc Op Pt Cv Rt }.

Record state := mkState {
  shared : St;
  owner : option tid;
  threads : gmap tid thread;
}.

Inductive event :=
| Invoke (t : tid) (op : Op)               (** a call by an idle client thread *)
| Acquire (t : tid)                        (** the mutex is handed to [t] *)
| TryFail (t : tid)                        (** [try_to_lock] does not get the mutex *)
| Exec (t : tid) (picks : list (option tid)) (** [t] runs its critical segment *)
| Notify (t : tid) (pick : option tid)     (** [t] makes its next notification *)
| Finish (t : tid)                         (** [t] returns, or goes back to lock *)
| Spurious (t : tid)                       (** a spurious wake-up *)
| Timeout (t : tid).                       (** a timed wait expires *)

Context (cd : code St Op Pt Cv Rt) (cl : client).

Definition wake_pc (c : Cv) (q : pc Op Pt Cv Rt) : pc Op Pt Cv Rt :=
  match q with
  | Waiting c' _ op p => if decide (c = c') then Wanting op p false else q
  | _ => q
  end.

Definition wake (c : Cv) (th : thread) : thread :=
  mkThread (mode th) (wake_pc c (at_pc th)).

Definition sleeps_on (c : Cv) (th : thread) : bool :=
  match at_pc th with
  | Waiting c' _ _ _ => bool_decide (c = c')
  | _ => false
  end.

(** A notification: [notify_all] wakes every waiter, [notify_one] the one
    the scheduler picked; it may pick nobody only if nobody waits. *)
Definition deliver (n : notify Cv) (pick : option tid) (ths : gmap tid thread)
  : option (gmap tid thread) :=
  match n with
  | NotifyAll c => Some (wake c <$> ths)
  | NotifyOne c =>
      match pick with
      | Some w =>
          th ← ths !! w;
          if sleeps_on c th then Some (<[w := wake c th]> ths) else None
      | None =>
          if decide (map_Forall (fun _ th => sleeps_on c th = false) ths)
          then Some ths else None
      end
  end.

Fixpoint deliver_all (ns : list (notify Cv)) (picks : list (option tid))
  (ths : gmap tid thread) : option (gmap tid thread) :=
  match ns with
  | [] => Some ths
  | n :: ns =>
      ths' ← deliver n (default None (head picks)) ths;
      deliver_all ns (tail picks) ths'
  end.

Definition entry_pc (op : Op) (en : entry Pt Rt) : pc Op Pt Cv Rt :=
  match en with
  | Direct r => Idle (Some r)
  | Blocking p => Wanting op p false
  | Trying p r => TryWanting op p r
  end.

Definition exit_pc (op : Op) (ex : exit Pt Cv Rt) : pc Op Pt Cv Rt :=
  match ex with
  | Wait c timed p => Waiting c timed op p
  | Hold p => Running op p false
  | Leave ns k => Posting ns op k
  | Relock p => Wanting op p false
  end.

(** Who owns the mutex after a segment of [t]. *)
Definition exit_owner (t : tid) (ex : exit Pt Cv Rt) : option tid :=
  match ex with
  | Wait _ _ _ | Leave _ _ => None
  | Hold _ | Relock _ => Some t
  end.

Definition set_pc (m : state) (t : tid) (th : thread) (q : pc Op Pt Cv Rt) : state :=
  mkState (shared m) (owner m) (<[t := mkThread (mode th) q]> (threads m)).

Definition step_invoke (m : state) (t : tid) (th : thread) (op : Op) : option state :=
  match at_pc th with
  | Idle _ =>
      if may_call cl t (mode th) (shared m) op then
        '(s, en) ← enter cd op (shared m);
        Some (mkState s (owner m)
          (<[t := mkThread (mode th) (entry_pc op en)]> (threads m)))
      else None
  | _ => None
  end.

Definition step_acquire (m : state) (t : tid) (th : thread) : option state :=
  match owner m with
  | Some _ => None
  | None =>
      match at_pc th with
      | Wanting op p b =>
          Some (mkState (shared m) (Some t)
            (<[t := mkThread (mode th) (Running op p b)]> (threads m)))
      | TryWanting op p _ =>
          Some (mkState (shared m) (Some t)
            (<[t := mkThread (mode th) (Running op p false)]> (threads m)))
      | _ => None
      end
  end.

Definition step_exec (m : state) (t : tid) (th : thread) (picks : list (option tid))
  : option state :=
  match at_pc th with
  | Running op p b =>
      '(s, ns, ex) ← body cd op p b (shared m);
      ths ← deliver_all ns picks (threads m);
      Some (mkState s (exit_owner t ex)
        (<[t := mkThread (settle cl op p ex (mode th)) (exit_pc op ex)]> ths))
  | _ => None
  end.

Definition step_notify (m : state) (t : tid) (th : thread) (pick : option tid)
  : option state :=
  match at_pc th with
  | Posting (n :: ns) op k =>
      ths ← deliver n pick (threads m);
      Some (mkState (shared m) (owner m)
      (<[t := mkThread (mode th) (Posting ns op k)]> ths))
  | _ => None
  end.

Definition step_finish (m : state) (t : tid) (th : thread) : option state :=
  match at_pc th with
  | Posting [] op (Return r) => Some (set_pc m t th (Idle (Some r)))
  | Posting [] op (Again p) =>
      s ← outside cd op p (shared m);
      Some (mkState s (owner m)
        (<[t := mkThread (mode th) (Wanting op p false)]> (threads m)))
  | _ => None
  end.

Definition step (m : state) (e : event) : option state :=
  match e with
  | Invoke t op => th ← threads m !! t; step_invoke m t th op
  | Acquire t => th ← threads m !! t; step_acquire m t th
  | Exec t picks => th ← threads m !! t; step_exec m t th picks
  | Notify t pick => th ← threads m !! t; step_notify m t th pick
  | Finish t => th ← threads m !! t; step_finish m t th
  | TryFail t =>
      th ← threads m !! t;
      match at_pc th with
      | TryWanting op p r => Some (set_pc m t th (Idle (Some r)))
      | _ => None
      end
  | Spurious t =>
      th ← threads m !! t;
      match at_pc th with
      | Waiting c _ op p => Some (set_pc m t th (Wanting op p false))
      | _ => None
      end
  | Timeout t =>
      th ← threads m !! t;
      match at_pc th with
      | Waiting c true op p => Some (set_pc m t th (Wanting op p true))
      | _ => None
      end
  end.

(** Start: the state built by the constructor, and idle client threads. *)
Definition start (s : St) (hs : gmap tid H) : state :=
  mkState s None ((fun h => mkThread h (Idle None)) <$> hs).

Definition modes (m : state) : gmap tid H := mode <$> threads m.
End monitor.

Arguments client St Op Pt Cv Rt H : clear implicits.
Arguments thread Op Pt Cv Rt H : clear implicits.
Arguments state St Op Pt Cv Rt H : clear implicits.
Arguments event Op : clear implicits.

#[export] Instance thread_eq_dec
    `{EqDecision Op, EqDecision Pt, EqDecision Cv, EqDecision Rt, EqDecision H} :
  EqDecision (thread Op Pt Cv Rt H).
Proof. solve_decision. Defined.
