(* ===== verification/MonitorTheory.v ===== *)
(** * Theory of the monitor machine

    What every class built on a mutex and condition variables inherits:
    mutual exclusion of critical segments, the monitor invariant rule (an
    invariant kept by every segment holds in every reachable state, and no
    segment is undefined), and the notification rule (a thread stays asleep
    only if its wait condition still justifies it or a notification for it is
    under way). *)

From S2P Require Import Prelude Machine Monitor.

Section theory.
Context {St Op Pt Cv Rt H : Type} `{!EqDecision Cv}.
Context (cd : code St Op Pt Cv Rt) (cl : client St Op Pt Cv Rt H).
Implicit Types (m : state St Op Pt Cv Rt H) (th : thread Op Pt Cv Rt H).
Implicit Types (ths : gmap tid (thread Op Pt Cv Rt H)) (t : tid).

(** ** Notifications only move sleepers to the mutex queue *)

Definition woken (th th' : thread Op Pt Cv Rt H) : Prop :=
  mode th' = mode th /\
  (at_pc th' = at_pc th \/
   exists c timed op p, at_pc th = Waiting c timed op p /\ at_pc th' = Wanting op p false).

Lemma woken_refl th : woken th th.
Proof. split; auto. Qed.

Lemma woken_wake c th : woken th (wake c th).
Proof.
  split; [done|]. unfold wake; simpl.
  destruct (at_pc th) as [| | | |c' timed op p|]; simpl; auto.
  case_decide; [right; by repeat eexists|by left].
Qed.

Lemma woken_trans th1 th2 th3 : woken th1 th2 -> woken th2 th3 -> woken th1 th3.
Proof.
  intros [Hm1 H1] [Hm2 H2]. split; [congruence|].
  destruct H1 as [H1|(c&b&op&p&H1&H1')], H2 as [H2|(c'&b'&op'&p'&H2&H2')].
  - left. congruence.
  - right. exists c', b', op', p'. split; congruence.
  - right. exists c, b, op, p. split; congruence.
  - congruence.
Qed.

Lemma deliver_lookup n pick ths ths' t th' :
  deliver n pick ths = Some ths' -> ths' !! t = Some th' ->
  exists th, ths !! t = Some th /\ woken th th'.
Proof.
  destruct n as [c|c]; simpl.
  - destruct pick as [w|].
    + destruct (ths !! w) as [thw|] eqn:Hw; simpl; [|done].
      destruct (sleeps_on c thw); [|done]. intros [= <-].
      destruct (decide (w = t)) as [->|Hne].
      * rewrite lookup_insert_eq. intros [= <-]. eauto using woken_wake.
      * rewrite lookup_insert_ne by done. eauto using woken_refl.
    + case_decide; [|done]. intros [= <-]. eauto using woken_refl.
  - intros [= <-]. rewrite lookup_fmap. intros (th & Hth & ->)%fmap_Some.
    eauto using woken_wake.
Qed.

Lemma deliver_modes n pick ths ths' :
  deliver n pick ths = Some ths' -> mode <$> ths' = mode <$> ths.
Proof.
  destruct n as [c|c]; simpl.
  - destruct pick as [w|].
    + destruct (ths !! w) as [thw|] eqn:Hw; simpl; [|done].
      destruct (sleeps_on c thw); [|done]. intros [= <-].
      rewrite fmap_insert. apply insert_id. by rewrite lookup_fmap, Hw.
    + case_decide; [|done]. by intros [= <-].
  - intros [= <-]. rewrite <- map_fmap_compose. by apply map_fmap_ext.
Qed.

Lemma deliver_all_lookup ns picks ths ths' t th' :
  deliver_all ns picks ths = Some ths' -> ths' !! t = Some th' ->
  exists th, ths !! t = Some th /\ woken th th'.
Proof.
  revert picks ths. induction ns as [|n ns IH]; intros picks ths; simpl.
  { intros [= <-]. eauto using woken_refl. }
  destruct (deliver n _ ths) as [ths1|] eqn:Hd; simpl; [|done]. intros Hds Ht.
  destruct (IH _ _ Hds Ht) as (th1 & Hth1 & Hw1).
  destruct (deliver_lookup _ _ _ _ _ _ Hd Hth1) as (th & Hth & Hw).
  eauto using woken_trans.
Qed.

Lemma deliver_all_modes ns picks ths ths' :
  deliver_all ns picks ths = Some ths' -> mode <$> ths' = mode <$> ths.
Proof.
  revert picks ths. induction ns as [|n ns IH]; intros picks ths; simpl.
  { by intros [= <-]. }
  destruct (deliver n _ ths) as [ths1|] eqn:Hd; simpl; [|done]. intros Hds.
  rewrite (IH _ _ Hds). eauto using deliver_modes.
Qed.

(** A thread that is not asleep is untouched. *)
Lemma wake_awake c th : (forall c tm op p, at_pc th <> Waiting c tm op p) -> wake c th = th.
Proof. destruct th as [h [| | | |c' tm op p|]]; try done. intros Hq. by destruct (Hq c' tm op p). Qed.

Lemma deliver_awake n pick ths ths' t th :
  deliver n pick ths = Some ths' -> (forall c tm op p, at_pc th <> Waiting c tm op p) ->
  ths !! t = Some th -> ths' !! t = Some th.
Proof.
  intros Hd Hq Ht. destruct n as [c|c]; simpl in Hd.
  - destruct pick as [w|].
    + destruct (ths !! w) as [thw|] eqn:Hw; simpl in Hd; [|done].
      destruct (sleeps_on c thw) eqn:Hs; simplify_eq.
      rewrite lookup_insert_ne; [done|]. intros ->. rewrite Hw in Ht. injection Ht as ->.
      unfold sleeps_on in Hs. destruct (at_pc th) as [| | | |c' tm op p|] eqn:Hpc; try done.
      by destruct (Hq c' tm op p).
    + case_decide; by simplify_eq.
  - simplify_eq. rewrite lookup_fmap, Ht. simpl. by rewrite wake_awake.
Qed.

Lemma deliver_all_awake ns picks ths ths' t th :
  deliver_all ns picks ths = Some ths' -> (forall c tm op p, at_pc th <> Waiting c tm op p) ->
  ths !! t = Some th -> ths' !! t = Some th.
Proof.
  revert picks ths. induction ns as [|n ns IH]; intros picks ths; simpl; [by intros [= <-]|].
  destruct (deliver n _ ths) as [ths1|] eqn:Hd; simpl; [|done]. intros.
  eapply IH; eauto using deliver_awake.
Qed.

(** Every thread survives a notification. *)
Lemma deliver_back n pick ths ths' t th :
  deliver n pick ths = Some ths' -> ths !! t = Some th -> exists th', ths' !! t = Some th' /\ woken th th'.
Proof.
  intros Hd Ht. destruct n as [c|c]; simpl in Hd.
  - destruct pick as [w|].
    + destruct (ths !! w) as [thw|] eqn:Hw; simpl in Hd; [|done].
      destruct (sleeps_on c thw); simplify_eq. destruct (decide (w = t)) as [->|Hne].
      * rewrite lookup_insert_eq. simplify_eq. eauto using woken_wake.
      * rewrite lookup_insert_ne by done. eauto using woken_refl.
    + case_decide; simplify_eq. eauto using woken_refl.
  - simplify_eq. rewrite lookup_fmap, Ht. simpl. eauto using woken_wake.
Qed.

Lemma deliver_all_back ns picks ths ths' t th :
  deliver_all ns picks ths = Some ths' -> ths !! t = Some th -> exists th', ths' !! t = Some th' /\ woken th th'.
Proof.
  revert picks ths th. induction ns as [|n ns IH]; intros picks ths th; simpl.
  { intros [= <-]. eauto using woken_refl. }
  destruct (deliver n _ ths) as [ths1|] eqn:Hd; simpl; [|done]. intros Hds Ht.
  destruct (deliver_back _ _ _ _ _ _ Hd Ht) as (th1 & Hth1 & Hw1).
  destruct (IH _ _ _ Hds Hth1) as (th' & Hth' & Hw'). eauto using woken_trans.
Qed.

(** Some choice of the scheduler is always possible. *)
Lemma deliver_exists n ths : exists pick ths', deliver n pick ths = Some ths'.
Proof.
  destruct n as [c|c]; [|by exists None; eexists].
  destruct (decide (map_Forall (fun _ th => sleeps_on c th = false) ths)) as [|Hn].
  { exists None, ths. unfold deliver. by case_decide. }
  apply map_not_Forall in Hn as (w & th & Hw & Hs); [|apply _].
  exists (Some w), (<[w := wake c th]> ths). unfold deliver. rewrite Hw. simpl.
  by destruct (sleeps_on c th).
Qed.

Lemma deliver_all_exists ns ths : exists picks ths', deliver_all ns picks ths = Some ths'.
Proof.
  revert ths. induction ns as [|n ns IH]; intros ths; [by exists []; eauto|].
  destruct (deliver_exists n ths) as (pick & ths1 & Hd).
  destruct (IH ths1) as (picks & ths2 & Hds).
  exists (pick :: picks), ths2. simpl. rewrite Hd. done.
Qed.

(** ** Mutual exclusion *)

Definition running (th : thread Op Pt Cv Rt H) : Prop :=
  exists op p b, at_pc th = Running op p b.

Definition owned m : Prop :=
  forall t th, threads m !! t = Some th -> running th -> owner m = Some t.

Lemma woken_running th th' : woken th th' -> running th' -> running th.
Proof.
  intros [_ [Heq|(c&b&op&p&_&Heq)]] (op'&p'&b'&Hr); [|congruence].
  exists op', p', b'. congruence.
Qed.

Lemma modes_set ths t th q :
  ths !! t = Some th -> mode <$> <[t := mkThread (mode th) q]> ths = mode <$> ths.
Proof. intros Ht. rewrite fmap_insert. apply insert_id. by rewrite lookup_fmap, Ht. Qed.
End theory.

(** ** The step relation

    [fires m e m'] lists the ways an event can fire, one rule per kind of
    step; it is what proofs about the machine do their case analysis on. *)
Section fires.
Context {St Op Pt Cv Rt H : Type} `{!EqDecision Cv}.
Context (cd : code St Op Pt Cv Rt) (cl : client St Op Pt Cv Rt H).
Implicit Types (m : state St Op Pt Cv Rt H).

(** Moves of one thread that touch neither the shared state nor the mutex. *)
Inductive moves : pc Op Pt Cv Rt -> pc Op Pt Cv Rt -> Prop :=
| mv_try_fail op p r : moves (TryWanting op p r) (Idle (Some r))
| mv_spurious c timed op p : moves (Waiting c timed op p) (Wanting op p false)
| mv_timeout c op p : moves (Waiting c true op p) (Wanting op p true)
| mv_return op r : moves (Posting [] op (Return r)) (Idle (Some r)).

(** The thread of an event. *)
Definition actor (e : event Op) : tid :=
  match e with
  | Invoke t _ | Acquire t | TryFail t | Exec t _ | Notify t _ | Finish t | Spurious t | Timeout t => t
  end.

Inductive fires m : event Op -> state St Op Pt Cv Rt H -> Prop :=
| fires_invoke t th last op s en :
  threads m !! t = Some th -> at_pc th = Idle last ->
  may_call cl t (mode th) (shared m) op = true ->
  enter cd op (shared m) = Some (s, en) ->
  fires m (Invoke t op) (mkState s (owner m)
    (<[t := mkThread (mode th) (entry_pc op en)]> (threads m)))
| fires_acquire t th op p b :
  threads m !! t = Some th ->
  at_pc th = Wanting op p b \/ (exists r, at_pc th = TryWanting op p r /\ b = false) ->
  owner m = None ->
  fires m (Acquire t) (mkState (shared m) (Some t)
    (<[t := mkThread (mode th) (Running op p b)]> (threads m)))
| fires_exec t th op p b picks s ns ex ths :
  threads m !! t = Some th -> at_pc th = Running op p b ->
  body cd op p b (shared m) = Some (s, ns, ex) ->
  deliver_all ns picks (threads m) = Some ths ->
  fires m (Exec t picks) (mkState s (exit_owner t ex)
    (<[t := mkThread (settle cl op p ex (mode th)) (exit_pc op ex)]> ths))
| fires_notify t th n ns op k pick ths :
  threads m !! t = Some th -> at_pc th = Posting (n :: ns) op k ->
  deliver n pick (threads m) = Some ths ->
  fires m (Notify t pick) (mkState (shared m) (owner m)
    (<[t := mkThread (mode th) (Posting ns op k)]> ths))
| fires_again t th op p s :
  threads m !! t = Some th -> at_pc th = Posting [] op (Again p) ->
  outside cd op p (shared m) = Some s ->
  fires m (Finish t) (mkState s (owner m)
    (<[t := mkThread (mode th) (Wanting op p false)]> (threads m)))
| fires_move e t th q :
  threads m !! t = Some th -> moves (at_pc th) q ->
  (e = Spurious t \/ e = Timeout t \/ exists r, q = Idle r) -> actor e = t ->
  fires m e (mkState (shared m) (owner m) (<[t := mkThread (mode th) q]> (threads m))).

Lemma step_fires m e m' : step cd cl m e = Some m' -> fires m e m'.
Proof.
  destruct e as [t op|t|t|t picks|t pick|t|t|t]; simpl;
    destruct (threads m !! t) as [[h q]|] eqn:Ht; simpl; try done;
    unfold step_invoke, step_acquire, step_exec, step_notify, step_finish, set_pc;
    simpl; destruct q as [last|op' p b|op' p r|op' p b|c timed op' p|ns op' k];
    try done; try (by destruct (owner m)).
  - destruct (may_call _ _ _ _ _) eqn:Hmay; [|done].
    destruct (enter cd op _) as [[s en]|] eqn:Hen; simpl; [|done].
    intros [= <-]. by eapply (fires_invoke m t (mkThread h (Idle last))).
  - destruct (owner m) eqn:Ho; [done|]. intros [= <-].
    eapply (fires_acquire m t (mkThread h (Wanting op' p b))); eauto.
  - destruct (owner m) eqn:Ho; [done|]. intros [= <-].
    eapply (fires_acquire m t (mkThread h (TryWanting op' p r))); eauto.
  - intros [= <-]. eapply (fires_move m _ t (mkThread h _)); [done|constructor|eauto|done].
  - destruct (body _ _ _ _ _) as [[[s ns] ex]|] eqn:Hb; simpl; [|done].
    destruct (deliver_all ns picks _) as [ths|] eqn:Hd; simpl; [|done].
    intros [= <-]. by eapply (fires_exec m t (mkThread h (Running op' p b))).
  - destruct ns as [|n ns]; [done|].
    destruct (deliver n pick _) as [ths|] eqn:Hd; simpl; [|done].
    intros [= <-]. by eapply (fires_notify m t (mkThread h _)).
  - destruct ns as [|n ns]; [|done]. destruct k as [r|p].
    + intros [= <-]. eapply (fires_move m _ t (mkThread h _)); [done|constructor|eauto|done].
    + destruct (outside _ _ _ _) as [s|] eqn:Hout; simpl; [|done].
      intros [= <-]. by eapply (fires_again m t (mkThread h _)).
  - intros [= <-]. eapply (fires_move m _ t (mkThread h _)); [done|constructor|eauto|done].
  - destruct timed; [|done]. intros [= <-].
    eapply (fires_move m _ t (mkThread h _)); [done|constructor|eauto|done].
Qed.
End fires.

(** Splits on whether the thread looked up is the one that moved. *)
Ltac thread_at t t' H :=
  destruct (decide (t = t')) as [->|?];
  [ rewrite lookup_insert_eq in H; injection H as <-
  | rewrite lookup_insert_ne in H by done ].

(** Modes change only at the end of a critical segment, and only for the
    thread that ran it. *)
Section modes.
Context {St Op Pt Cv Rt H : Type} `{!EqDecision Cv}.
Context (cd : code St Op Pt Cv Rt) (cl : client St Op Pt Cv Rt H).
Implicit Types (m : state St Op Pt Cv Rt H).

Lemma modes_lookup m t th : threads m !! t = Some th -> modes m !! t = Some (mode th).
Proof. intros Ht. unfold modes. by rewrite lookup_fmap, Ht. Qed.

Lemma modes_lookup_inv m t h :
  modes m !! t = Some h -> exists th, threads m !! t = Some th /\ mode th = h.
Proof. unfold modes. rewrite lookup_fmap. intros (th & -> & ->)%fmap_Some. eauto. Qed.

Inductive mode_change m m' : event Op -> Prop :=
| same_modes e : modes m' = modes m -> mode_change m m' e
| exec_modes t picks th op p b s ns ex :
  threads m !! t = Some th -> at_pc th = Running op p b ->
  body cd op p b (shared m) = Some (s, ns, ex) ->
  modes m' = <[t := settle cl op p ex (mode th)]> (modes m) ->
  mode_change m m' (Exec t picks).

Lemma step_modes m e m' : step cd cl m e = Some m' -> mode_change m m' e.
Proof.
  intros Hstep%step_fires. destruct Hstep as [| |t th op p b picks s ns ex ths Ht Hpc Hb Hd
    |t th n ns op k pick ths Ht Hpc Hd| |];
    try (apply same_modes; unfold modes; simpl; by rewrite modes_set).
  - eapply exec_modes; [done..|]. unfold modes. simpl.
    by rewrite fmap_insert, (deliver_all_modes _ _ _ _ Hd).
  - apply same_modes. unfold modes. simpl.
    rewrite fmap_insert, (deliver_modes _ _ _ _ Hd). simpl. apply insert_id.
      by rewrite lookup_fmap, Ht.
Qed.

(** No thread appears or disappears. *)
Lemma steps_dom s hs m : steps (step cd cl) (start s hs) m -> dom (modes m) = dom hs.
Proof.
  intros Hm. eapply (steps_invariant _ (fun m => dom (modes m) = dom hs)); [| |exact Hm].
  - unfold modes, start. simpl. by rewrite !dom_fmap_L.
  - intros m1 e m2 <- [e' ->|t picks th op p b s' ns ex Ht _ _ ->]%step_modes; [done|].
    apply dom_insert_lookup_L. rewrite (modes_lookup _ _ _ Ht). by eexists.
Qed.

Lemma steps_size s hs m : steps (step cd cl) (start s hs) m -> size (modes m) = size hs.
Proof. intros Hm%steps_dom. by rewrite <- !size_dom, Hm. Qed.
End modes.

(** ** Mutual exclusion of critical segments *)
Section exclusion.
Context {St Op Pt Cv Rt H : Type} `{!EqDecision Cv}.
Context (cd : code St Op Pt Cv Rt) (cl : client St Op Pt Cv Rt H).
Implicit Types (m : state St Op Pt Cv Rt H).

Lemma moves_running (q q' : pc Op Pt Cv Rt) :
  moves q q' -> forall op p b, q' <> Running op p b.
Proof. destruct 1; naive_solver. Qed.

Lemma owned_step m e m' : owned m -> step cd cl m e = Some m' -> owned m'.
Proof.
  intros Hown Hstep%step_fires t' th' Ht' Hrun.
  destruct Hstep as [t th last op s en Ht Hpc _ _|t th op p b Ht Hpc Ho
    |t th op p b picks s ns ex ths Ht Hpc Hb Hd|t th n ns op k pick ths Ht Hpc Hd
    |t th op p s Ht Hpc Hs|e t th q Ht Hmv]; simpl in *; thread_at t t' Ht'.
  - destruct Hrun as (?&?&?&Hr); simpl in Hr. by destruct en.
  - by eapply Hown.
  - done.
  - specialize (Hown t' th' Ht' Hrun). congruence.
  - destruct Hrun as (?&?&?&Hr); simpl in Hr. by destruct ex.
  - destruct (deliver_all_lookup _ _ _ _ _ _ Hd Ht') as (th0 & Hth0 & Hw).
    specialize (Hown t' th0 Hth0 (woken_running _ _ Hw Hrun)) as Ho'.
    assert (owner m = Some t) as Ho by (eapply Hown; [done|]; by do 3 eexists).
    congruence.
  - destruct Hrun as (?&?&?&Hr); done.
  - destruct (deliver_lookup _ _ _ _ _ _ Hd Ht') as (th0 & Hth0 & Hw).
    eapply Hown; [done|]. by eapply woken_running.
  - destruct Hrun as (?&?&?&Hr); done.
  - by eapply Hown.
  - destruct Hrun as (?&?&?&Hr). by destruct (moves_running _ _ Hmv _ _ _ Hr).
  - by eapply Hown.
Qed.

Lemma owned_start s (hs : gmap tid H) : 
  owned (start s hs : state St Op Pt Cv Rt H).
Proof.
  intros t th Ht (?&?&?&Hr). simpl in Ht.
  rewrite lookup_fmap in Ht. apply fmap_Some in Ht as (h & _ & ->). done.
Qed.

Lemma mutual_exclusion s hs m t1 t2 th1 th2 :
  steps (step cd cl) (start s hs) m ->
  threads m !! t1 = Some th1 -> threads m !! t2 = Some th2 ->
  running th1 -> running th2 -> t1 = t2.
Proof.
  intros Hm H1 H2 R1 R2.
  assert (owned m) as Hown.
  { eapply steps_invariant; [apply owned_start| |done]. intros; by eapply owned_step. }
  pose proof (Hown _ _ H1 R1). pose proof (Hown _ _ H2 R2). congruence.
Qed.

(** A thread that waits for the mutex it owns waits for ever, and so does
    everybody else. *)
Definition wedged m t : Prop :=
  owned m /\ owner m = Some t /\
  exists th op p b, threads m !! t = Some th /\ at_pc th = Wanting op p b.

Lemma wedged_step m t e m' : wedged m t -> step cd cl m e = Some m' -> wedged m' t.
Proof.
  intros (Hown & Ho & th & op & p & b & Ht & Hpc) Hstep.
  split; [by eapply owned_step|]. apply step_fires in Hstep.
  destruct Hstep as [u thu last o s en Hu Hpcu _ _|u thu o q bu Hu Hpcu Hfree
    |u thu o q bu picks s ns ex ths Hu Hpcu Hb Hd|u thu n ns o k pick ths Hu Hpcu Hd
    |u thu o q s Hu Hpcu Hs|e u thu q Hu Hmv]; simpl; try congruence.
  - split; [done|]. exists th, op, p, b. rewrite lookup_insert_ne; [done|]. intros ->. congruence.
  - assert (owner m = Some u) as Hou by (eapply Hown; [done|by do 3 eexists]).
    simplify_eq. congruence.
  - split; [done|]. exists th, op, p, b. rewrite lookup_insert_ne by (intros ->; congruence).
    split; [|done]. eapply deliver_awake; [done| |done]. congruence.
  - split; [done|]. exists th, op, p, b. rewrite lookup_insert_ne; [done|]. intros ->. congruence.
  - split; [done|]. exists th, op, p, b. rewrite lookup_insert_ne; [done|]. intros ->.
    simplify_eq. rewrite Hpc in Hmv. by inversion Hmv.
Qed.

Lemma wedged_forever m t m' : wedged m t -> steps (step cd cl) m m' -> wedged m' t.
Proof.
  intros Hw. apply (steps_invariant _ (fun m => wedged m t)); [done|]. intros; by eapply wedged_step.
Qed.

Lemma owned_reachable s hs m : steps (step cd cl) (start s hs) m -> owned m.
Proof. apply steps_invariant; [apply owned_start|]. intros; by eapply owned_step. Qed.
End exclusion.

(** ** The monitor invariant rule

    [I] relates the shared state to the modes of the threads; [allowed] says
    at which points a thread of a mode can be, [asleep] on which condition
    variables it can wait and where it resumes. *)
Section rule.
Context {St Op Pt Cv Rt H : Type} `{!EqDecision Cv}.
Context (cd : code St Op Pt Cv Rt) (cl : client St Op Pt Cv Rt H).
Context (I : St -> gmap tid H -> Prop).
Context (allowed : H -> Op -> Pt -> Prop) (asleep : H -> Cv -> Op -> Pt -> Prop).
Implicit Types (m : state St Op Pt Cv Rt H) (h : H) (hs : gmap tid H).

Definition entry_ok h op (en : entry Pt Rt) : Prop :=
  match en with
  | Direct _ => True
  | Blocking p | Trying p _ => allowed h op p
  end.

Definition next_ok h op (k : next Pt Rt) : Prop :=
  match k with Return _ => True | Again p => allowed h op p end.

Definition exit_ok h op (ex : exit Pt Cv Rt) : Prop :=
  match ex with
  | Wait c _ p => asleep h c op p
  | Hold p | Relock p => allowed h op p
  | Leave _ k => next_ok h op k
  end.

Definition pc_ok h (q : pc Op Pt Cv Rt) : Prop :=
  match q with
  | Idle _ => True
  | Wanting op p _ | TryWanting op p _ | Running op p _ => allowed h op p
  | Waiting c _ op p => asleep h c op p
  | Posting _ op k => next_ok h op k
  end.

(** What the code of a class has to satisfy. *)
Class MonitorOk : Prop := {
  asleep_allowed h c op p : asleep h c op p -> allowed h op p;
  enter_ok t h s hs op :
  I s hs -> hs !! t = Some h -> may_call cl t h s op = true ->
  exists s' en, enter cd op s = Some (s', en) /\ I s' hs /\ entry_ok h op en;
  body_ok t h s hs op p b :
  I s hs -> hs !! t = Some h -> allowed h op p ->
  exists s' ns ex, body cd op p b s = Some (s', ns, ex) /\
  I s' (<[t := settle cl op p ex h]> hs) /\ exit_ok (settle cl op p ex h) op ex;
  outside_ok t h s hs op p :
  I s hs -> hs !! t = Some h -> allowed h op p ->
  exists s', outside cd op p s = Some s' /\ I s' hs;
}.

(** The same for the segments that are defined: partial correctness. *)
Class MonitorSafe : Prop := {
  safe_asleep h c op p : asleep h c op p -> allowed h op p;
  safe_enter t h s hs op s' en :
    I s hs -> hs !! t = Some h -> may_call cl t h s op = true ->
    enter cd op s = Some (s', en) -> I s' hs /\ entry_ok h op en;
  safe_body t h s hs op p b s' ns ex :
    I s hs -> hs !! t = Some h -> allowed h op p ->
    body cd op p b s = Some (s', ns, ex) ->
    I s' (<[t := settle cl op p ex h]> hs) /\ exit_ok (settle cl op p ex h) op ex;
  safe_outside t h s hs op p s' :
    I s hs -> hs !! t = Some h -> allowed h op p -> outside cd op p s = Some s' -> I s' hs;
}.

#[export] Instance monitor_ok_safe : MonitorOk -> MonitorSafe.
Proof.
  intros [Ha He Hb Ho]. split; [done|..].
  - intros t h s hs op s' en HI Ht Hmay Hen.
    destruct (He _ _ _ _ _ HI Ht Hmay) as (s1 & en1 & Hen1 & ?). by simplify_eq.
  - intros t h s hs op p b s' ns ex HI Ht Hal Hbody.
    destruct (Hb _ _ _ _ _ _ b HI Ht Hal) as (s1 & ns1 & ex1 & Hb1 & ?). by simplify_eq.
  - intros t h s hs op p s' HI Ht Hal Hout.
    destruct (Ho _ _ _ _ _ _ HI Ht Hal) as (s1 & Ho1 & ?). by simplify_eq.
Qed.

Context `{!MonitorSafe}.

Definition monitor_inv m : Prop :=
  I (shared m) (modes m) /\
  forall t th, threads m !! t = Some th -> pc_ok (mode th) (at_pc th).

Lemma pc_ok_woken th th' : woken th th' -> pc_ok (mode th) (at_pc th) -> pc_ok (mode th') (at_pc th').
Proof.
  intros [-> [->|(c&b&op&p&Hq&->)]]; [done|]. rewrite Hq. apply safe_asleep.
Qed.

Lemma pc_ok_moves h q q' : moves q q' -> pc_ok h q -> pc_ok h q'.
Proof. destruct 1; simpl; eauto using safe_asleep. Qed.

Lemma monitor_inv_step m e m' :
  monitor_inv m -> step cd cl m e = Some m' -> monitor_inv m'.
Proof.
  intros [HI Hpcs] Hstep%step_fires. unfold monitor_inv, modes.
  destruct Hstep as [t th last op s en Ht Hpc Hmay Hen|t th op p b Ht Hpc Ho
    |t th op p b picks s ns ex ths Ht Hpc Hb Hd|t th n ns op k pick ths Ht Hpc Hd
    |t th op p s Ht Hpc Hs|e t th q Ht Hmv]; simpl in *;
    pose proof (Hpcs _ _ Ht) as Hok; pose proof (modes_lookup _ _ _ Ht) as Hm.
  - destruct (safe_enter _ _ _ _ _ _ _ HI Hm Hmay Hen) as (HI' & Heok).
    rewrite modes_set by done. split; [done|]. intros t' th' Ht'.
    thread_at t t' Ht'; [|by eapply Hpcs]. simpl. by destruct en.
  - rewrite modes_set by done. split; [done|]. intros t' th' Ht'.
    thread_at t t' Ht'; [|by eapply Hpcs]. simpl.
    destruct Hpc as [Hpc|(r & Hpc & ->)]; by rewrite Hpc in Hok.
  - rewrite Hpc in Hok. simpl in Hok.
    destruct (safe_body _ _ _ _ _ _ b _ _ _ HI Hm Hok Hb) as (HI' & Hex).
    rewrite fmap_insert, (deliver_all_modes _ _ _ _ Hd).
    split; [done|]. intros t' th' Ht'. thread_at t t' Ht'; [by destruct ex|].
    destruct (deliver_all_lookup _ _ _ _ _ _ Hd Ht') as (th0 & Hth0 & Hw).
    eapply pc_ok_woken; [done|]. by eapply Hpcs.
  - rewrite fmap_insert, (deliver_modes _ _ _ _ Hd). simpl.
    rewrite insert_id by done. split; [done|]. intros t' th' Ht'.
    rewrite Hpc in Hok. thread_at t t' Ht'; [done|].
    destruct (deliver_lookup _ _ _ _ _ _ Hd Ht') as (th0 & Hth0 & Hw).
    eapply pc_ok_woken; [done|]. by eapply Hpcs.
  - rewrite Hpc in Hok. simpl in Hok.
    pose proof (safe_outside _ _ _ _ _ _ _ HI Hm Hok Hs) as HI'.
    rewrite modes_set by done. split; [done|]. intros t' th' Ht'.
    thread_at t t' Ht'; [done|by eapply Hpcs].
  - rewrite modes_set by done. split; [done|]. intros t' th' Ht'.
    thread_at t t' Ht'; [by eapply pc_ok_moves|by eapply Hpcs].
Qed.

Lemma modes_start s hs : 
  modes (start s hs : state St Op Pt Cv Rt H) = hs.
Proof. unfold modes, start. simpl. rewrite <- map_fmap_compose. apply map_fmap_id. Qed.

Theorem safe_invariant s hs m :
  I s hs -> steps (step cd cl) (start s hs) m -> monitor_inv m.
Proof.
  intros HI Hm. eapply steps_invariant; [| |done].
  - split; [by rewrite modes_start|]. simpl. intros t th Ht.
    rewrite lookup_fmap in Ht. apply fmap_Some in Ht as (h & _ & ->). done.
  - intros; by eapply monitor_inv_step.
Qed.

End rule.

Section total.
Context {St Op Pt Cv Rt H : Type} `{!EqDecision Cv}.
Context (cd : code St Op Pt Cv Rt) (cl : client St Op Pt Cv Rt H).
Context (I : St -> gmap tid H -> Prop).
Context (allowed : H -> Op -> Pt -> Prop) (asleep : H -> Cv -> Op -> Pt -> Prop).
Context `{!MonitorOk cd cl I allowed asleep}.
Implicit Types (m : state St Op Pt Cv Rt H) (hs : gmap tid H).

Theorem monitor_invariant s hs m :
  I s hs -> steps (step cd cl) (start s hs) m -> monitor_inv I allowed asleep m.
Proof. apply safe_invariant. apply _. Qed.

(** No undefined behaviour: a thread that owns the mutex can always run its
    segment. *)
Lemma exec_enabled m t th :
  monitor_inv I allowed asleep m -> threads m !! t = Some th -> running th ->
  exists picks m', step cd cl m (Exec t picks) = Some m'.
Proof.
  intros [HIm Hpcs] Ht (op & p & b & Hpc).
  pose proof (Hpcs _ _ Ht) as Hok. rewrite Hpc in Hok.
  destruct (body_ok cd cl I allowed asleep _ _ _ _ _ _ b HIm (modes_lookup _ _ _ Ht) Hok)
    as (s' & ns & ex & Hb & _).
  destruct (deliver_all_exists ns (threads m)) as (picks & ths & Hd).
  exists picks. eexists. simpl. rewrite Ht. simpl. unfold step_exec.
  rewrite Hpc, Hb. simpl. by rewrite Hd.
Qed.

Theorem exec_defined s hs m t th :
  I s hs -> steps (step cd cl) (start s hs) m ->
  threads m !! t = Some th -> running th ->
  exists picks m', step cd cl m (Exec t picks) = Some m'.
Proof. intros HI Hm. by apply exec_enabled, (monitor_invariant s hs). Qed.
End total.

(** What holds of threads outside their critical segments: a condition
    [resting] on the modes of threads that left the monitor (or have not
    entered it), and one on the notifications they have yet to make. *)
Section resting.
Context {St Op Pt Cv Rt H : Type} `{!EqDecision Cv}.
Context (cd : code St Op Pt Cv Rt) (cl : client St Op Pt Cv Rt H).
Context (I : St -> gmap tid H -> Prop).
Context (allowed : H -> Op -> Pt -> Prop) (asleep : H -> Cv -> Op -> Pt -> Prop).
Context `{!MonitorSafe cd cl I allowed asleep}.
Context (resting : H -> Prop) (quiet : notify Cv -> Prop).
Implicit Types (m : state St Op Pt Cv Rt H).
Context (leaves : forall t h s hs op p b s' ns ns' k,
  I s hs -> hs !! t = Some h -> allowed h op p ->
  body cd op p b s = Some (s', ns, Leave ns' k) ->
  resting (settle cl op p (Leave ns' k) h) /\ Forall quiet ns').

Definition rests (th : thread Op Pt Cv Rt H) : Prop :=
  match at_pc th with
  | Idle _ | TryWanting _ _ _ => resting (mode th)
  | Posting ns _ _ => resting (mode th) /\ Forall quiet ns
  | _ => True
  end.

Definition all_rest m : Prop := forall t th, threads m !! t = Some th -> rests th.

Lemma rests_woken th th' : woken th th' -> rests th -> rests th'.
Proof.
  unfold rests. intros [-> [-> |(c&b&op&p&Hq&->)]]; [done|]. by rewrite Hq.
Qed.

Lemma all_rest_step m e m' :
  monitor_inv I allowed asleep m -> all_rest m -> step cd cl m e = Some m' -> all_rest m'.
Proof.
  intros [HI Hpcs] Hr Hstep%step_fires t' th' Ht'.
  destruct Hstep as [t th last op s en Ht Hpc Hmay Hen|t th op p b Ht Hpc Ho
    |t th op p b picks s ns ex ths Ht Hpc Hb Hd|t th n ns op k pick ths Ht Hpc Hd
    |t th op p s Ht Hpc Hs|e t th q Ht Hmv]; simpl in *;
    pose proof (Hr _ _ Ht) as Hrt; thread_at t t' Ht'; try (by eapply Hr).
  - unfold rests in *. rewrite Hpc in Hrt. by destruct en.
  - done.
  - pose proof (Hpcs _ _ Ht) as Hok. rewrite Hpc in Hok. destruct ex; try done.
    by apply (leaves t' (mode th) (shared m) (modes m) op p b s ns);
      [|apply modes_lookup| |].
  - destruct (deliver_all_lookup _ _ _ _ _ _ Hd Ht') as (th0 & Hth0 & Hw).
    eapply rests_woken; [done|]. by eapply Hr.
  - unfold rests in *. rewrite Hpc in Hrt. destruct Hrt as [? Hq].
    split; [done|]. by apply Forall_cons in Hq as [_ Hq].
  - destruct (deliver_lookup _ _ _ _ _ _ Hd Ht') as (th0 & Hth0 & Hw).
    eapply rests_woken; [done|]. by eapply Hr.
  - done.
  - unfold rests in *. destruct Hmv; simpl in *; tauto.
Qed.

Theorem always_rests s hs m :
  I s hs -> map_Forall (fun _ h => resting h) hs ->
  steps (step cd cl) (start s hs) m -> all_rest m.
Proof.
  intros HI Hhs Hm.
  cut (monitor_inv I allowed asleep m /\ all_rest m); [naive_solver|].
  eapply (steps_invariant _ (fun m => monitor_inv I allowed asleep m /\ all_rest m));
    [| |exact Hm].
  - split; [apply (safe_invariant cd cl I allowed asleep s hs _ HI), steps_refl|].
    intros t th Ht. simpl in Ht. apply lookup_fmap_Some in Ht as (h & <- & Hh).
    by apply (Hhs t h).
  - intros m1 e m2 [Hi Ha] Hs.
    split; [by eapply monitor_inv_step|by eapply all_rest_step].
Qed.
End resting.

(** A fact about the set of threads, which never changes, can be added to the
    invariant. *)
Section bounded.
Context {St Op Pt Cv Rt H : Type} `{!EqDecision Cv}.
Context (cd : code St Op Pt Cv Rt) (cl : client St Op Pt Cv Rt H).
Context (I : St -> gmap tid H -> Prop) (P : gset tid -> Prop).
Context (allowed : H -> Op -> Pt -> Prop) (asleep : H -> Cv -> Op -> Pt -> Prop).

Definition with_dom (s : St) (hs : gmap tid H) : Prop := I s hs /\ P (dom hs).

#[export] Instance monitor_ok_with_dom :
  MonitorOk cd cl I allowed asleep -> MonitorOk cd cl with_dom allowed asleep.
Proof.
  intros [Ha He Hb Ho]. split; [apply Ha|..].
  - intros t h s hs op [HI HP] Ht Hmay.
    destruct (He _ _ _ _ _ HI Ht Hmay) as (s' & en & ? & ? & ?).
    exists s', en. by repeat split.
  - intros t h s hs op p b [HI HP] Ht Hal.
    destruct (Hb _ _ _ _ _ _ b HI Ht Hal) as (s' & ns & ex & ? & ? & ?).
    exists s', ns, ex. repeat split; [done..| |done].
    rewrite dom_insert_lookup_L; [done|by eexists].
  - intros t h s hs op p [HI HP] Ht Hal.
    destruct (Ho _ _ _ _ _ _ HI Ht Hal) as (s' & ? & ?).
    exists s'. by repeat split.
Qed.
End bounded.

(** ** The notification rule

    [blocked c op p s] says that a thread waiting on [c] to resume [op] at [p]
    would only wait again in state [s].  Each segment has to notify the
    threads it unblocks, under the lock or after the release; [solo c] marks
    the condition variables on which at most one thread waits, for which
    [notify_one] is as good as [notify_all]. *)
Section notification.
Context {St Op Pt Cv Rt H : Type} `{!EqDecision Cv}.
Context (cd : code St Op Pt Cv Rt) (cl : client St Op Pt Cv Rt H).
Context (I : St -> gmap tid H -> Prop).
Context (allowed : H -> Op -> Pt -> Prop) (asleep : H -> Cv -> Op -> Pt -> Prop).
Context (blocked : Cv -> Op -> Pt -> St -> Prop) (solo : Cv -> bool).
Implicit Types (m : state St Op Pt Cv Rt H) (h : H) (hs : gmap tid H).
Implicit Types (ths : gmap tid (thread Op Pt Cv Rt H)) (c : Cv).

Definition announces (ns : list (notify Cv)) c : Prop :=
  NotifyAll c ∈ ns \/ (solo c = true /\ NotifyOne c ∈ ns).

Definition posts (ex : exit Pt Cv Rt) : list (notify Cv) :=
  match ex with Leave ns _ => ns | _ => [] end.

(** Some thread has yet to make a notification that will reach [c]. *)
Definition posted m c : Prop :=
  exists t th ns op k,
  threads m !! t = Some th /\ at_pc th = Posting ns op k /\ announces ns c.

Class NotifyOk : Prop := {
  notify_enter t h s hs op s' en t' h' c op' p' :
  I s hs -> hs !! t = Some h -> may_call cl t h s op = true ->
  enter cd op s = Some (s', en) -> hs !! t' = Some h' ->
  asleep h' c op' p' -> blocked c op' p' s -> blocked c op' p' s';
  notify_outside t h s hs op p s' t' h' c op' p' :
  I s hs -> hs !! t = Some h -> allowed h op p -> outside cd op p s = Some s' ->
  hs !! t' = Some h' -> asleep h' c op' p' -> blocked c op' p' s -> blocked c op' p' s';
  notify_body t h s hs op p b s' ns ex t' h' c op' p' :
  I s hs -> hs !! t = Some h -> allowed h op p ->
  body cd op p b s = Some (s', ns, ex) -> t' <> t -> hs !! t' = Some h' ->
  asleep h' c op' p' -> blocked c op' p' s ->
  blocked c op' p' s' \/ announces (ns ++ posts ex) c;
  notify_wait t h s hs op p b s' ns c timed p' :
  I s hs -> hs !! t = Some h -> allowed h op p ->
  body cd op p b s = Some (s', ns, Wait c timed p') -> blocked c op p' s';
  notify_solo s hs c t1 t2 h1 h2 op1 op2 p1 p2 :
  I s hs -> solo c = true -> hs !! t1 = Some h1 -> hs !! t2 = Some h2 ->
  asleep h1 c op1 p1 -> asleep h2 c op2 p2 -> t1 = t2;
}.

Definition sleeper ths c t : Prop :=
  exists th timed op p, ths !! t = Some th /\ at_pc th = Waiting c timed op p.

Definition lone ths c : Prop :=
  solo c = true -> forall t1 t2, sleeper ths c t1 -> sleeper ths c t2 -> t1 = t2.

(** A thread still asleep after a notification was asleep before it. *)
Lemma deliver_sleeper n pick ths ths' c t :
  deliver n pick ths = Some ths' -> sleeper ths' c t -> sleeper ths c t.
Proof.
  intros Hd (th' & timed & op & p & Ht & Hpc).
  destruct (deliver_lookup _ _ _ _ _ _ Hd Ht) as (th & Hth & _ & Hw).
  exists th, timed, op, p. split; [done|]. naive_solver congruence.
Qed.

Lemma deliver_lone n pick ths ths' c :
  deliver n pick ths = Some ths' -> lone ths c -> lone ths' c.
Proof. intros Hd Hl Hs t1 t2 H1 H2. apply Hl; eauto using deliver_sleeper. Qed.

Lemma deliver_wakes n pick ths ths' c t :
  lone ths c -> deliver n pick ths = Some ths' -> announces [n] c -> ~ sleeper ths' c t.
Proof.
  intros Hl Hd Hann Hsl. pose proof (deliver_sleeper _ _ _ _ _ _ Hd Hsl) as Hsl0.
  destruct Hsl as (th' & timed & op & p & Ht & Hpc).
  destruct Hann as [<-%list_elem_of_singleton|[Hs <-%list_elem_of_singleton]]; simpl in Hd.
  - simplify_eq. rewrite lookup_fmap in Ht. apply fmap_Some in Ht as (th & _ & ->).
    unfold wake in Hpc. simpl in Hpc. destruct (at_pc th); simpl in Hpc; try done.
    by case_decide; simplify_eq.
  - destruct pick as [w|].
    + destruct (ths !! w) as [thw|] eqn:Hw; simpl in Hd; [|done].
      destruct (sleeps_on c thw) eqn:Hso; [|done]. simplify_eq.
      unfold sleeps_on in Hso. destruct (at_pc thw) as [| | | |c' tm' op' p'|] eqn:Hq; try done.
      apply bool_decide_eq_true in Hso as <-.
      assert (w = t) as ->. { apply (Hl Hs); [|done]. by do 4 eexists. }
      rewrite lookup_insert_eq in Ht. simplify_eq.
      unfold wake in Hpc. simpl in Hpc. rewrite Hq in Hpc. simpl in Hpc.
      by rewrite decide_True in Hpc.
    + case_decide as Hall; [|done]. simplify_eq.
      destruct Hsl0 as (th & tm' & op' & p' & Hth & Hq).
      specialize (Hall _ _ Hth). simpl in Hall. unfold sleeps_on in Hall.
      rewrite Hq, bool_decide_true in Hall; done.
Qed.

Lemma announces_cons n ns c : announces (n :: ns) c <-> announces [n] c \/ announces ns c.
Proof. unfold announces. set_solver. Qed.

Lemma announces_app ns1 ns2 c :
  announces (ns1 ++ ns2) c <-> announces ns1 c \/ announces ns2 c.
Proof. unfold announces. set_solver. Qed.

Lemma deliver_all_wakes ns picks ths ths' c t :
  lone ths c -> deliver_all ns picks ths = Some ths' ->
  sleeper ths' c t -> sleeper ths c t /\ ~ announces ns c.
Proof.
  revert picks ths. induction ns as [|n ns IH]; intros picks ths Hl; simpl.
  { intros [= <-] Hsl. split; [done|]. unfold announces. set_solver. }
  destruct (deliver n _ ths) as [ths1|] eqn:Hd; simpl; [|done]. intros Hds Hsl.
  destruct (IH _ _ (deliver_lone _ _ _ _ _ Hd Hl) Hds Hsl) as [Hsl1 Hna].
  split; [by eapply deliver_sleeper|].
  rewrite announces_cons. intros [Ha|Ha]; [|done].
  by eapply deliver_wakes in Hsl1.
Qed.

(** Every sleeper has a reason to sleep or is about to be notified. *)
Definition attended m : Prop :=
  forall t th c timed op p, threads m !! t = Some th ->
  at_pc th = Waiting c timed op p -> blocked c op p (shared m) \/ posted m c.

Context `{!MonitorSafe cd cl I allowed asleep, !NotifyOk}.

Lemma inv_lone m c : monitor_inv I allowed asleep m -> lone (threads m) c.
Proof.
  intros [HI Hpcs] Hs t1 t2 (th1&?&op1&p1&H1&Hq1) (th2&?&op2&p2&H2&Hq2).
  pose proof (Hpcs _ _ H1) as Ha1. pose proof (Hpcs _ _ H2) as Ha2.
  rewrite Hq1 in Ha1. rewrite Hq2 in Ha2. simpl in *.
  eapply notify_solo; eauto using modes_lookup.
Qed.

(** A poster other than the thread that moves keeps its notification. *)
Lemma posted_frame m t th' ths c s o :
  (forall t' th, t' <> t -> threads m !! t' = Some th -> (forall c tm op p, at_pc th <> Waiting c tm op p) ->
   ths !! t' = Some th) ->
  (forall th ns op k, threads m !! t = Some th -> at_pc th = Posting ns op k ->
   ~ announces ns c) ->
  posted m c -> posted (mkState s o (<[t := th']> ths)) c.
Proof.
  intros Hsame Ht (t' & th & ns & op & k & Hth & Hq & Ha).
  destruct (decide (t' = t)) as [->|Hne]; [by destruct (Ht _ _ _ _ Hth Hq)|].
  exists t', th, ns, op, k. simpl. rewrite lookup_insert_ne by done.
  split; [|done]. apply Hsame; [done..|]. congruence.
Qed.

Lemma attended_release m t th op p b picks s ns ex ths :
  monitor_inv I allowed asleep m -> attended m ->
  threads m !! t = Some th -> at_pc th = Running op p b ->
  body cd op p b (shared m) = Some (s, ns, ex) -> deliver_all ns picks (threads m) = Some ths ->
  attended (mkState s (exit_owner t ex)
    (<[t := mkThread (settle cl op p ex (mode th)) (exit_pc op ex)]> ths)).
Proof.
  intros Hinv Hatt Ht Hpc Hb Hd t' th' c timed op' p' Ht' Hpc'. pose proof Hinv as [HI Hpcs].
  pose proof (Hpcs _ _ Ht) as Hok. pose proof (modes_lookup _ _ _ Ht) as Hm. simpl in *.
  rewrite Hpc in Hok. simpl in Hok. thread_at t t' Ht'.
  { left. simpl in Hpc'. destruct ex; simpl in Hpc'; simplify_eq. exact (notify_wait _ _ _ _ _ _ _ _ _ _ _ _ HI Hm Hok Hb). }
  destruct (deliver_all_wakes _ _ _ _ c t' (inv_lone _ _ Hinv) Hd) as [Hsl Hna].
  { by do 4 eexists. }
  destruct Hsl as (th0 & tm0 & op0 & p0 & Hth0 & Hq0).
  assert (op0 = op' /\ p0 = p') as [-> ->].
  { destruct (deliver_all_lookup _ _ _ _ _ _ Hd Ht') as (th1 & Hth1 & _ & Hw).
    simplify_eq. destruct Hw as [Hw|(?&?&?&?&?&Hw)]; [|congruence].
    rewrite Hq0, Hpc' in Hw. by simplify_eq. }
  pose proof (Hpcs _ _ Hth0) as Ha. rewrite Hq0 in Ha. simpl in Ha.
  destruct (Hatt _ _ _ _ _ _ Hth0 Hq0) as [Hbl|Hp].
  + destruct (notify_body t _ _ _ _ _ _ _ _ _ t' _ c op' p' HI Hm Hok Hb ltac:(done)
      (modes_lookup _ _ _ Hth0) Ha Hbl) as [Hbl'|[Han|Han]%announces_app];
      [by left|done|]. right. destruct ex as [| |nts k|]; simpl in Han;
      try (by destruct Han as [Han|[_ Han]]; apply elem_of_nil in Han).
    exists t. do 4 eexists. simpl. rewrite lookup_insert_eq. done.
  + right. eapply posted_frame; [|naive_solver congruence|done].
    intros. by eapply deliver_all_awake.
Qed.

Lemma attended_notify m t th n ns op k pick ths :
  monitor_inv I allowed asleep m -> attended m ->
  threads m !! t = Some th -> at_pc th = Posting (n :: ns) op k -> deliver n pick (threads m) = Some ths ->
  attended (mkState (shared m) (owner m) (<[t := mkThread (mode th) (Posting ns op k)]> ths)).
Proof.
  intros Hinv Hatt Ht Hpc Hd t' th' c timed op' p' Ht' Hpc'. simpl in *.
  thread_at t t' Ht'; [done|].
  assert (sleeper ths c t') as Hsl by (by do 4 eexists).
  destruct (deliver_lookup _ _ _ _ _ _ Hd Ht') as (th0 & Hth0 & _ & [Hw|Hw]);
    [|naive_solver congruence].
  rewrite Hpc' in Hw. symmetry in Hw.
  destruct (Hatt _ _ _ _ _ _ Hth0 Hw) as [Hbl|Hp]; [by left|]. right.
  destruct Hp as (t1 & th1 & ns1 & op1 & k1 & Hth1 & Hq1 & Han).
  destruct (decide (t1 = t)) as [->|Hne].
  + simplify_eq. rewrite Hpc in Hq1. simplify_eq.
    apply announces_cons in Han as [Han|Han].
    { by destruct (deliver_wakes _ _ _ _ _ t' (inv_lone _ _ Hinv) Hd Han). }
    exists t. do 4 eexists. simpl. rewrite lookup_insert_eq. done.
  + exists t1, th1, ns1, op1, k1. simpl. rewrite lookup_insert_ne by done.
    split; [|done]. eapply deliver_awake; [done| |done]. congruence.
Qed.

Lemma attended_step m e m' :
  monitor_inv I allowed asleep m -> attended m -> step cd cl m e = Some m' -> attended m'.
Proof.
  intros Hinv Hatt Hstep%step_fires t' th' c timed op' p' Ht' Hpc'.
  pose proof Hinv as [HI Hpcs].
  destruct Hstep as [t th last op s en Ht Hpc Hmay Hen|t th op p b Ht Hpc Ho
    |t th op p b picks s ns ex ths Ht Hpc Hb Hd|t th n ns op k pick ths Ht Hpc Hd
    |t th op p s Ht Hpc Hs|e t th q Ht Hmv]; simpl in *;
    pose proof (Hpcs _ _ Ht) as Hok; pose proof (modes_lookup _ _ _ Ht) as Hm.
  - thread_at t t' Ht'; [by destruct en|].
    pose proof (Hpcs _ _ Ht') as Ha. rewrite Hpc' in Ha. simpl in Ha.
    destruct (Hatt _ _ _ _ _ _ Ht' Hpc') as [Hbl|Hp].
    + left. by eapply (notify_enter t _ _ _ _ _ _ t'); eauto using modes_lookup.
    + right. eapply posted_frame; [eauto|naive_solver congruence|done].
  - thread_at t t' Ht'; [done|].
    destruct (Hatt _ _ _ _ _ _ Ht' Hpc') as [Hbl|Hp]; [by left|].
    right. eapply posted_frame; [eauto|naive_solver congruence|done].
  - by eapply (attended_release m t th op p b picks s ns ex ths Hinv Hatt Ht Hpc Hb Hd t').
  - by eapply (attended_notify m t th n ns op k pick ths Hinv Hatt Ht Hpc Hd t').
  - rewrite Hpc in Hok. simpl in Hok. thread_at t t' Ht'; [done|].
    pose proof (Hpcs _ _ Ht') as Ha. rewrite Hpc' in Ha. simpl in Ha.
    destruct (Hatt _ _ _ _ _ _ Ht' Hpc') as [Hbl|Hp].
    + left. by eapply (notify_outside t _ _ _ _ _ _ t'); eauto using modes_lookup.
    + right. eapply posted_frame; [eauto| |done].
      intros ? ns0 ? ? ? Hq0 [Hin|[_ Hin]]; simplify_eq; rewrite Hpc in Hq0; simplify_eq;
        by apply elem_of_nil in Hin.
  - thread_at t t' Ht'; [by destruct Hmv|].
    destruct (Hatt _ _ _ _ _ _ Ht' Hpc') as [Hbl|Hp]; [by left|].
    right. eapply posted_frame; [eauto| |done].
    intros ? ns0 ? ? ? Hq0 [Hin|[_ Hin]]; simplify_eq; rewrite Hq0 in Hmv; inversion Hmv; subst;
      by apply elem_of_nil in Hin.
Qed.

Theorem no_lost_wakeup s hs m :
  I s hs -> steps (step cd cl) (start s hs) m -> attended m.
Proof.
  intros HI Hm.
  cut (monitor_inv I allowed asleep m /\ attended m); [naive_solver|].
  eapply (steps_invariant _ (fun m => monitor_inv I allowed asleep m /\ attended m));
    [| |exact Hm].
  - split; [apply (safe_invariant cd cl I allowed asleep s hs _ HI), steps_refl|].
    intros t th c timed op p Ht Hpc. simpl in Ht.
    rewrite lookup_fmap in Ht. apply fmap_Some in Ht as (h & _ & ->). done.
  - intros m1 e m2 [Hi Ha] Hs.
    split; [by eapply monitor_inv_step|by eapply attended_step].
Qed.
End notification.

(** ** Quiescence

    Every thread is outside the class or asleep: nothing more happens until a
    thread calls again, a timed wait expires or a wake-up is spurious. *)
Section quiescence.
Context {St Op Pt Cv Rt H : Type}.
Implicit Types (m : state St Op Pt Cv Rt H).

Definition still (q : pc Op Pt Cv Rt) : bool :=
  match q with Idle _ | Waiting _ _ _ _ => true | _ => false end.

Definition quiescent m : bool :=
  bool_decide (map_Forall (fun _ th => still (at_pc th) = true) (threads m)).

(** Then no notification is on its way. *)
Lemma quiescent_unposted solo m c : quiescent m = true -> ~ posted solo m c.
Proof.
  intros Hq%bool_decide_eq_true (t & th & ns & op & k & Ht & Hpc & _).
  specialize (Hq t th Ht). simpl in Hq. by rewrite Hpc in Hq.
Qed.

Lemma quiescent_still m t th : quiescent m = true -> threads m !! t = Some th -> still (at_pc th) = true.
Proof. intros Hq%bool_decide_eq_true Ht. by apply (Hq t th). Qed.
End quiescence.
