(* ===== verification/MonitorFair.v ===== *)
(** * Monitors under a fair scheduler

    Infinite executions of the machine of [Monitor] in which every thread that
    is due moves in the end: threads inside a method are due unless they sleep
    in a wait, and so may be others, by a condition of the class.  For the
    mutex this is strong fairness: it is handed to everybody who wants it. *)

From S2P Require Import Prelude Machine Monitor MonitorTheory Fairness.

Section fair.
Context {St Op Pt Cv Rt H : Type} `{!EqDecision Cv}.
Context (cd : code St Op Pt Cv Rt) (cl : client St Op Pt Cv Rt H).
Abbreviation mstate := (state St Op Pt Cv Rt H).
Implicit Types (m : mstate) (e : event Op) (th : thread Op Pt Cv Rt H).
Implicit Types (σ : nat -> mstate) (ev : nat -> option (event Op)).

Definition sleeping (q : pc Op Pt Cv Rt) : bool := match q with Waiting _ _ _ _ => true | _ => false end.

(** In a method, and not in a wait. *)
Definition inside (q : pc Op Pt Cv Rt) : bool := match q with Idle _ | Waiting _ _ _ _ => false | _ => true end.

(** What a thread that does not sleep does depends on its own events. *)
Lemma others_keep m e m' t th :
  step cd cl m e = Some m' -> threads m !! t = Some th -> sleeping (at_pc th) = false -> actor e <> t ->
  threads m' !! t = Some th.
Proof.
  intros Hstep%step_fires Ht Hs Hne.
  assert (forall c tm op p, at_pc th <> Waiting c tm op p) as Haw by (intros c tm op p Hq; by rewrite Hq in Hs).
  destruct Hstep as [u thu last op s en Hu|u thu op p b Hu|u thu op p b picks s ns ex ths Hu Hpc Hb Hd
    |u thu n ns op k pick ths Hu Hpc Hd|u thu op p s Hu|e u thu q Hu Hmv _ Hact]; simpl in *; subst;
    rewrite lookup_insert_ne by done; try done.
  - by eapply deliver_all_awake.
  - by eapply deliver_awake.
Qed.

(** Who is due: the threads in a method that do not sleep, and the idle threads
    that are to call another. *)
Context (calls : mstate -> tid -> H -> bool).

Definition due m (t : tid) : bool :=
  match threads m !! t with
  | Some th => inside (at_pc th) || match at_pc th with Idle _ => calls m t (mode th) | _ => false end
  | None => false
  end.

Definition fair σ ev : Prop :=
  forall n t, due (σ n) t = true -> exists k e, n <= k /\ ev k = Some e /\ actor e = t.

Lemma due_awake m t th :
  threads m !! t = Some th -> due m t = true -> sleeping (at_pc th) = false.
Proof. unfold due. intros ->. by destruct (at_pc th). Qed.

Lemma due_inside m t th : threads m !! t = Some th -> inside (at_pc th) = true -> due m t = true.
Proof. unfold due. by intros -> ->. Qed.

(** The next own event of a thread that is due; what the others keep still holds. *)
Lemma next_keeping (P : mstate -> Prop) s0 σ ev n t th :
  execution (step cd cl) s0 σ ev -> fair σ ev -> threads (σ n) !! t = Some th -> due (σ n) t = true ->
  P (σ n) -> (forall m e m', P m -> step cd cl m e = Some m' -> actor e <> t -> P m') ->
  exists k e, n <= k /\ actor e = t /\ threads (σ k) !! t = Some th /\ P (σ k) /\ step cd cl (σ k) e = Some (σ (S k)).
Proof.
  intros Hex Hfair Ht Hdue HP Hkeep. pose proof (due_awake _ _ _ Ht Hdue) as Hs.
  destruct (first_event ev (fun e => actor e = t) n (Hfair n t Hdue)) as (k & e & Hle & Hk & He & Hno).
  destruct (as_long_as (step cd cl) s0 σ ev (fun s => threads s !! t = Some th /\ P s) (fun e => actor e = t) n k) as [Htk HPk];
    try done.
  { intros s e' s' [Hth Hs'] Hstep Hne. split; [by eapply others_keep|by eapply Hkeep]. }
  exists k, e. split_and!; [done..|].
  pose proof (ex_next _ _ _ _ Hex k) as Hnext. unfold next_is in Hnext. by rewrite Hk in Hnext.
Qed.

Lemma next_own s0 σ ev n t th :
  execution (step cd cl) s0 σ ev -> fair σ ev -> threads (σ n) !! t = Some th -> due (σ n) t = true ->
  exists k e, n <= k /\ actor e = t /\ threads (σ k) !! t = Some th /\ step cd cl (σ k) e = Some (σ (S k)).
Proof.
  intros Hex Hfair Ht Hdue. destruct (next_keeping (fun _ => True) s0 σ ev n t th) as (k & e & ? & ? & ? & _ & ?); try done.
  by exists k, e.
Qed.

(** The next own event of the owner of the lock is its critical segment ... *)
Lemma next_exec (P : mstate -> Prop) s0 σ ev n t th op p b :
  execution (step cd cl) s0 σ ev -> fair σ ev -> threads (σ n) !! t = Some th -> at_pc th = Running op p b ->
  P (σ n) -> (forall m e m', P m -> step cd cl m e = Some m' -> actor e <> t -> P m') ->
  exists k picks, n <= k /\ threads (σ k) !! t = Some th /\ P (σ k) /\ step cd cl (σ k) (Exec t picks) = Some (σ (S k)).
Proof.
  intros Hex Hfair Ht Hpc HP Hkeep.
  destruct (next_keeping P s0 σ ev n t th Hex Hfair Ht) as (k & e & Hle & Ha & Htk & HPk & Hstep); [|done|done|].
  { eapply due_inside; [exact Ht|]. by rewrite Hpc. }
  destruct e as [u o|u|u|u picks|u pick|u|u|u]; simpl in Ha; subst u; pose proof Hstep as Hs; simpl in Hs; rewrite Htk in Hs;
    simpl in Hs; unfold step_invoke, step_acquire, step_notify, step_finish in Hs; rewrite ?Hpc in Hs; try done;
    try (by destruct (owner (σ k))).
  by exists k, picks.
Qed.

(** ... and that of a thread that wants the lock gives it the lock. *)
Lemma next_lock (P : mstate -> Prop) s0 σ ev n t th op p b :
  execution (step cd cl) s0 σ ev -> fair σ ev -> threads (σ n) !! t = Some th -> at_pc th = Wanting op p b ->
  P (σ n) -> (forall m e m', P m -> step cd cl m e = Some m' -> e = Acquire t -> P m') ->
  (forall m e m', P m -> step cd cl m e = Some m' -> actor e <> t -> P m') ->
  exists k, n <= k /\ threads (σ k) !! t = Some (mkThread (mode th) (Running op p b)) /\ P (σ k).
Proof.
  intros Hex Hfair Ht Hpc HP Hown Hkeep.
  destruct (next_keeping P s0 σ ev n t th Hex Hfair Ht) as (k & e & Hle & Ha & Htk & HPk & Hstep); [|done|done|].
  { eapply due_inside; [exact Ht|]. by rewrite Hpc. }
  exists (S k). split; [lia|].
  destruct e as [u o|u|u|u picks|u pick|u|u|u]; simpl in Ha; subst u; pose proof Hstep as Hs; simpl in Hs; rewrite Htk in Hs;
    simpl in Hs; unfold step_invoke, step_acquire, step_exec, step_notify, step_finish in Hs; rewrite ?Hpc in Hs; try done.
  destruct (owner (σ k)); [done|]. injection Hs as Hs.
  split; [rewrite <- Hs; simpl; by rewrite lookup_insert_eq|]. by eapply Hown.
Qed.

(** The own events a thread is from the end of its critical segment, or from
    that of its next call. *)
Definition way_out (q : pc Op Pt Cv Rt) : nat :=
  match q with
  | Running _ _ _ => 1
  | Wanting _ _ _ => 2
  | Idle _ => 3
  | Posting ns _ (Again _) => 3 + length ns
  | Posting ns _ (Return _) => 4 + length ns
  | TryWanting _ _ _ => 6
  | Waiting _ _ _ _ => 0
  end.

Lemma own_moves m e m' t th :
  step cd cl m e = Some m' -> threads m !! t = Some th -> sleeping (at_pc th) = false -> actor e = t ->
  (forall picks, e <> Exec t picks) ->
  (forall op s en, may_call cl t (mode th) (shared m) op = true -> enter cd op (shared m) = Some (s, en) ->
     exists p, en = Blocking p) ->
  exists th', threads m' !! t = Some th' /\ mode th' = mode th /\ way_out (at_pc th') < way_out (at_pc th).
Proof.
  intros Hstep%step_fires Ht Hs Ha Hne Hen.
  destruct Hstep as [u thu last op s en Hu Hpc Hmay He|u thu op p b Hu Hpc|u thu op p b picks s ns ex ths Hu Hpc Hb Hd
    |u thu n ns op k pick ths Hu Hpc Hd|u thu op p s Hu Hpc|e u thu q Hu Hmv _ Hact]; simpl in *; subst;
    (assert (thu = th) as -> by congruence); try (eexists; rewrite lookup_insert_eq; split; [done|]; split; [done|]; simpl).
  - destruct (Hen _ _ _ Hmay He) as [p ->]. rewrite Hpc. simpl. lia.
  - destruct Hpc as [-> |(r & -> & _)]; simpl; lia.
  - by destruct (Hne picks).
  - rewrite Hpc. destruct k; simpl; lia.
  - rewrite Hpc. simpl. lia.
  - destruct Hmv; simpl in *; try done; lia.
Qed.

(** A notification that reaches a sleeper is made in the end. *)
Lemma posting_wakes (solo : Cv -> bool) c t b s0 σ ev n u thu ns op k :
  execution (step cd cl) s0 σ ev -> fair σ ev -> (forall i, lone solo (threads (σ i)) c) ->
  threads (σ n) !! u = Some thu -> at_pc thu = Posting ns op k -> announces solo ns c -> length ns <= b ->
  exists i, n <= i /\ ~ sleeper (threads (σ i)) c t.
Proof.
  intros Hex Hfair Hlone. revert n thu ns. induction b as [b IH] using lt_wf_ind. intros n thu ns Hu Hpc Hann Hlen.
  destruct (next_own s0 σ ev n u thu Hex Hfair Hu) as (i & e & Hle & Ha & Hui & Hstep).
  { eapply due_inside; [exact Hu|]. by rewrite Hpc. }
  apply step_fires in Hstep. remember (σ (S i)) as m' eqn:Hm'.
  destruct Hstep as [t1 th last o s en Ht|t1 th o p b1 Ht Hpc1|t1 th o p b1 picks s ns1 ex ths Ht
    |t1 th n1 ns1 o k1 pick ths Ht Hpc1 Hd|t1 th o p s Ht Hpc1|e t1 th q Ht Hmv _ Hact]; simpl in Ha; subst;
    (assert (th = thu) as -> by congruence); try congruence.
  - destruct Hpc1 as [|(? & ? & _)]; congruence.
  - rewrite Hpc in Hpc1. injection Hpc1 as -> -> ->. 
    assert (announces solo [n1] c \/ announces solo ns1 c) as [Hann'|Hann'] by (unfold announces in Hann |- *; set_solver).
    + exists (S i). split; [lia|]. intros Hsl. apply (deliver_wakes (fun _ (_ : Op) (_ : Pt) (_ : St) => True) solo _ _ _ _ c t (Hlone i) Hd Hann').
      rewrite <- Hm' in Hsl. destruct Hsl as (th' & tm & o' & p' & Hth' & Hpc'). simpl in Hth'.
      apply lookup_insert_Some in Hth' as [[_ <-]|[_ Hth']]; [done|]. by do 4 eexists.
    + destruct (IH (length ns1) ltac:(simpl in Hlen; lia) (S i) (mkThread (mode thu) (Posting ns1 o k1)) ns1) as (j & Hj & Hsl);
        [|done|done|done|exists j; split; [lia|done]]. rewrite <- Hm'. simpl. by rewrite lookup_insert_eq.
  - rewrite Hpc in Hpc1. injection Hpc1 as -> _ _. unfold announces in Hann. set_solver.
  - rewrite Hpc in Hmv. inversion Hmv; subst. unfold announces in Hann. set_solver.
Qed.

(** A finite run, where everybody who is due still moves, is fair. *)
Definition settled (s0 : mstate) (es : list (event Op)) : bool :=
  forallb (fun n =>
    let m := visited (step cd cl) s0 es n in
    forallb (fun t => implb (due m t) (existsb (fun e => actor e =? t) (drop n es))) (elements (dom (threads m))))
  (seq 0 (S (length es))).

Lemma finite_fair s0 es : settled s0 es = true -> fair (visited (step cd cl) s0 es) (fun n => es !! n).
Proof.
  intros Hs n t Hdue.
  assert (forall k, k <= length es -> due (visited (step cd cl) s0 es k) t = true ->
    exists i e, k <= i /\ es !! i = Some e /\ actor e = t) as Hall.
  { intros k Hk Hd. unfold settled in Hs. rewrite forallb_forall in Hs. specialize (Hs k).
    rewrite forallb_forall in Hs. specialize (Hs ltac:(apply list_elem_of_In, elem_of_seq; lia) t).
    rewrite Hd in Hs. unfold due in Hd.
    destruct (threads (visited (step cd cl) s0 es k) !! t) as [th|] eqn:Ht; [|done].
    specialize (Hs ltac:(apply list_elem_of_In, elem_of_elements, elem_of_dom; by eexists)).
    apply existsb_exists in Hs as (e & He & Ha%Nat.eqb_eq).
    apply list_elem_of_In, list_elem_of_lookup in He as [i Hi]. rewrite lookup_drop in Hi.
    exists (k + i), e. split_and!; [lia|done|done]. }
  destruct (Nat.le_gt_cases n (length es)) as [Hle|Hgt]; [by apply Hall|].
  assert (visited (step cd cl) s0 es n = visited (step cd cl) s0 es (length es)) as Heq
    by (unfold visited; by rewrite !take_ge by lia).
  rewrite Heq in Hdue. destruct (Hall (length es) ltac:(lia) Hdue) as (i & e & Hi & He & _).
  apply lookup_lt_Some in He. lia.
Qed.
End fair.
