(* ===== verification/MonitorDrain.v ===== *)
(** * Monitors come to rest

    Left alone (no further call, no timeout, no spurious wake-up), a class
    finishes what it is doing: every schedule of its threads is bounded, and
    until all of them have returned or sleep one of them can move.  The bound
    is an account: the shared state and the position of every thread are worth
    so many critical segments, and each segment that does not merely go back to
    sleep is paid for. *)

From S2P Require Import Prelude Machine Monitor MonitorTheory.

(** What a segment may cost: the notifications after a release, the segments
    the shared state, a thread at a point of an operation, and an idle thread
    are good for; the operations threads begin of their own accord, and those
    the callers keep to. *)
Record account (St Op Pt H : Type) := mkAccount {
  notes : nat;
  pot : St -> Z;
  due : Op -> Pt -> Z;
  idle_due : H -> Z;
  starts : Op -> bool;
  welcome : Op -> bool;
}.
Arguments mkAccount {St Op Pt H}.
Arguments notes {St Op Pt H}.
Arguments pot {St Op Pt H}.
Arguments due {St Op Pt H}.
Arguments idle_due {St Op Pt H}.
Arguments starts {St Op Pt H}.
Arguments welcome {St Op Pt H}.

(** One segment for each thread inside: a class whose methods leave at once. *)
Definition one_segment {St Op Pt H} (c : nat) : account St Op Pt H :=
  mkAccount c (fun _ => 0%Z) (fun _ _ => 1%Z) (fun _ => 0%Z) (fun _ => false) (fun _ => true).

Section drain.
Context {St Op Pt Cv Rt H : Type} `{!EqDecision Cv}.
Context (cd : code St Op Pt Cv Rt) (cl : client St Op Pt Cv Rt H).
Context (I : St -> gmap tid H -> Prop).
Context (allowed : H -> Op -> Pt -> Prop) (asleep : H -> Cv -> Op -> Pt -> Prop).
Context (A : account St Op Pt H).
Implicit Types (m : state St Op Pt Cv Rt H) (ths : gmap tid (thread Op Pt Cv Rt H)).
Implicit Types (th : thread Op Pt Cv Rt H).
Local Open Scope Z_scope.

(** ** The rules of the account *)

(** What is due after a segment, by a thread whose mode is now [h]. *)
Definition due_after (h : H) (op : Op) (ex : exit Pt Cv Rt) : Z :=
  match ex with
  | Wait _ _ p | Hold p | Relock p | Leave _ (Again p) => due A op p
  | Leave _ (Return _) => idle_due A h
  end.

(** How a segment may end: in a wait that notified nobody, or one segment
    poorer; it never locks the mutex it owns. *)
Definition pays (before after : Z) (ns : list (notify Cv)) (ex : exit Pt Cv Rt) : Prop :=
  match ex with
  | Wait _ _ _ => ns = [] /\ after <= before \/ after < before
  | Hold _ => after < before
  | Leave ns' _ => (length ns' <= notes A)%nat /\ after < before
  | Relock _ => False
  end.

Class Settles : Prop := {
  pot_nonneg s : 0 <= pot A s;
  due_nonneg op p : 0 <= due A op p;
  idle_nonneg h : 0 <= idle_due A h;
  start_pays t h s hs op s' en :
    I s hs -> hs !! t = Some h -> may_call cl t h s op = true -> starts A op = true ->
    enter cd op s = Some (s', en) ->
    exists p, en = Blocking p /\ pot A s' + due A op p < pot A s + idle_due A h;
  outside_pays s hs t h op p s' :
    I s hs -> hs !! t = Some h -> allowed h op p -> outside cd op p s = Some s' -> pot A s' <= pot A s;
  body_pays t h s hs op p b s' ns ex :
    I s hs -> hs !! t = Some h -> allowed h op p -> welcome A op = true ->
    body cd op p b s = Some (s', ns, ex) ->
    pays (pot A s + due A op p) (pot A s' + due_after (settle cl op p ex h) op ex) ns ex;
}.

(** The events of threads that are inside the class, or enter unasked. *)
Definition internal (e : event Op) : bool :=
  match e with
  | Acquire _ | TryFail _ | Exec _ _ | Notify _ _ | Finish _ => true
  | Invoke _ op => starts A op
  | Spurious _ | Timeout _ => false
  end.

Definition welcome_event (e : event Op) : bool :=
  match e with Invoke _ op => welcome A op | _ => true end.

(** ** The account of a state *)

(** Segments a thread is still good for. *)
Definition owes th : Z :=
  match at_pc th with
  | Idle _ | Posting _ _ (Return _) => idle_due A (mode th)
  | TryWanting op p _ => due A op p + idle_due A (mode th)
  | Wanting op p _ | Running op p _ | Waiting _ _ op p | Posting _ op (Again p) => due A op p
  end.

(** Steps it takes before its next segment, in a system of [N] threads: a
    notification can send all of them back to the mutex. *)
Definition small (N : Z) (q : pc Op Pt Cv Rt) : Z :=
  match q with
  | Idle _ | Waiting _ _ _ _ => 0
  | Running _ _ _ => 1
  | Wanting _ _ _ | TryWanting _ _ _ => 2
  | Posting ns _ (Return _) => (2 * N + 1) * Z.of_nat (length ns) + 1
  | Posting ns _ (Again _) => (2 * N + 1) * Z.of_nat (length ns) + 3
  end.

(** Steps a segment is worth. *)
Definition price (N : Z) : Z := (2 * N + 1) * Z.of_nat (notes A) + 2 * N + 4.

Definition rank (N : Z) th : Z := price N * owes th + small N (at_pc th).
Definition total (N : Z) ths : Z := sumz (rank N) ths.
Definition work m : Z :=
  let N := Z.of_nat (size (threads m)) in price N * pot A (shared m) + total N (threads m).

Lemma price_pos N : 0 <= N -> 0 < price N.
Proof. unfold price. nia. Qed.

Lemma woken_rank N th th' : woken th th' -> rank N th' <= rank N th + 2.
Proof.
  destruct th as [h q], th' as [h' q']. unfold rank, owes. simpl.
  intros [Hm [Hq|(c&b&op&p&Hq&Hq')]]; simpl in *; subst; simpl; lia.
Qed.

Lemma total_woken N ths ths' :
  mode <$> ths' = mode <$> ths ->
  (forall t th', ths' !! t = Some th' -> exists th, ths !! t = Some th /\ woken th th') ->
  total N ths' <= total N ths + 2 * Z.of_nat (size ths).
Proof.
  intros Hmodes Hw.
  assert (dom ths = dom ths') as Hdom by (by rewrite <- (dom_fmap_L mode ths), <- Hmodes, dom_fmap_L).
  assert (size ths = size ths') as -> by (by rewrite <- !size_dom, Hdom).
  apply sumz_shift; [lia|done|]. intros t th th' Ht Ht'.
  destruct (Hw t th' Ht') as (th0 & Ht0 & Hwoken). rewrite Ht in Ht0. injection Ht0 as <-.
  by apply woken_rank.
Qed.

Lemma total_insert N ths t th th' :
  ths !! t = Some th -> total N (<[t := th']> ths) = total N ths - rank N th + rank N th'.
Proof. intros Ht. unfold total. by rewrite (sumz_insert _ ths t th). Qed.

Lemma size_woken ths ths' : mode <$> ths' = mode <$> ths -> size ths' = size ths.
Proof. intros Hm. by rewrite <- (map_size_fmap mode ths'), Hm, map_size_fmap. Qed.

(** ** The owner runs, and the operations under way are welcome *)

Definition pc_op (q : pc Op Pt Cv Rt) : option Op :=
  match q with
  | Idle _ => None
  | Wanting op _ _ | TryWanting op _ _ | Running op _ _ | Waiting _ _ op _ | Posting _ op _ => Some op
  end.

Definition expected (q : pc Op Pt Cv Rt) : Prop := forall op, pc_op q = Some op -> welcome A op = true.

Record tidy m : Prop := {
  tidy_owner u : owner m = Some u -> exists th, threads m !! u = Some th /\ running th;
  tidy_ops t th : threads m !! t = Some th -> expected (at_pc th);
}.

Context `{!MonitorSafe cd cl I allowed asleep, !Settles}.

Lemma owes_nonneg th : 0 <= owes th.
Proof.
  pose proof (idle_nonneg (mode th)). unfold owes.
  destruct (at_pc th) as [|op p b|op p r|op p b|c tm op p|ns op [r|p]]; try done;
    pose proof (due_nonneg op p); lia.
Qed.

Lemma total_nonneg N ths : 0 <= N -> 0 <= total N ths.
Proof.
  intros HN. apply sumz_nonneg. intros t th _. unfold rank.
  pose proof (owes_nonneg th). pose proof (price_pos N HN).
  assert (0 <= small N (at_pc th)) by (destruct (at_pc th) as [| | | | |ns op []]; simpl; nia). nia.
Qed.

Lemma work_nonneg m : 0 <= work m.
Proof.
  unfold work. set (N := Z.of_nat _). pose proof (total_nonneg N (threads m) ltac:(lia)).
  pose proof (price_pos N ltac:(lia)). pose proof (pot_nonneg (shared m)). nia.
Qed.

Lemma body_paid m t th op p b s ns ex :
  monitor_inv I allowed asleep m -> tidy m -> threads m !! t = Some th -> at_pc th = Running op p b ->
  body cd op p b (shared m) = Some (s, ns, ex) ->
  pays (pot A (shared m) + due A op p) (pot A s + due_after (settle cl op p ex (mode th)) op ex) ns ex.
Proof.
  intros [HI Hpcs] Htidy Ht Hpc Hb. pose proof (Hpcs _ _ Ht) as Hok. rewrite Hpc in Hok.
  pose proof (tidy_ops _ Htidy _ _ Ht) as Hop. rewrite Hpc in Hop.
  exact (body_pays t (mode th) _ _ _ _ _ _ _ _ HI (modes_lookup _ _ _ Ht) Hok (Hop _ eq_refl) Hb).
Qed.

(** A running thread is not the one that moves otherwise. *)
Lemma running_other m t th u :
  threads m !! t = Some th -> ~ running th ->
  (exists thu, threads m !! u = Some thu /\ running thu) -> t <> u.
Proof. intros Ht Hn (thu & Hu & Hr) ->. naive_solver. Qed.

Lemma tidy_owner_step m e m' :
  monitor_inv I allowed asleep m -> tidy m -> step cd cl m e = Some m' ->
  forall u, owner m' = Some u -> exists th, threads m' !! u = Some th /\ running th.
Proof.
  intros Hinv Htidy Hstep%step_fires u Hu. pose proof Htidy as [Hown _].
  assert (Hkeep : forall t th th', threads m !! t = Some th -> ~ running th -> owner m = Some u ->
    exists thu, <[t := th']> (threads m) !! u = Some thu /\ running thu).
  { intros t th th' Ht Hn Ho. pose proof (running_other m t th u Ht Hn (Hown u Ho)).
    rewrite lookup_insert_ne by done. by apply Hown. }
  destruct Hstep as [t th last op s en Ht Hpc _ _|t th op p b Ht Hpc Ho
    |t th op p b picks s ns ex ths Ht Hpc Hb Hd|t th n ns op k pick ths Ht Hpc Hd
    |t th op p s Ht Hpc Hs|e t th q Ht Hmv]; simpl in *.
  - eapply Hkeep; [done| |done]. intros (?&?&?&?). congruence.
  - injection Hu as <-. eexists. rewrite lookup_insert_eq. split; [done|]. by do 3 eexists.
  - pose proof (body_paid _ _ _ _ _ _ _ _ _ Hinv Htidy Ht Hpc Hb) as Hpay.
    destruct ex as [|p'| |]; try done. injection Hu as <-.
    eexists. rewrite lookup_insert_eq. split; [done|]. by do 3 eexists.
  - destruct (Hown u Hu) as (thu & Htu & Hr). exists thu. split; [|done].
    rewrite lookup_insert_ne.
    + eapply deliver_awake; [done| |done]. destruct Hr as (?&?&?&Hr). by rewrite Hr.
    + eapply running_other; [done| |by exists thu]. intros (?&?&?&?). congruence.
  - eapply Hkeep; [done| |done]. intros (?&?&?&?). congruence.
  - eapply Hkeep; [done| |done]. intros (?&?&?&Hr). rewrite Hr in Hmv. inversion Hmv.
Qed.

Lemma expected_woken th th' : woken th th' -> expected (at_pc th) -> expected (at_pc th').
Proof. intros [_ [-> |(c&b&op&p&->&->)]] He; [done|]. intros op' Hop. by apply He. Qed.

Lemma tidy_step m e m' :
  monitor_inv I allowed asleep m -> tidy m -> welcome_event e = true ->
  step cd cl m e = Some m' -> tidy m'.
Proof.
  intros Hinv Htidy He Hstep. split; [by eapply tidy_owner_step|].
  destruct Htidy as [_ Hops]. intros t' th' Ht'. apply step_fires in Hstep.
  destruct Hstep as [t th last op s en Ht Hpc _ _|t th op p b Ht Hpc Ho
    |t th op p b picks s ns ex ths Ht Hpc Hb Hd|t th n ns op k pick ths Ht Hpc Hd
    |t th op p s Ht Hpc Hs|e t th q Ht Hmv _]; simpl in *; pose proof (Hops _ _ Ht) as Hop;
    thread_at t t' Ht'; try (by eapply Hops); simpl.
  - destruct en; intros o [= <-]; done.
  - intros o [= <-]. destruct Hpc as [Hpc|(r & Hpc & _)]; rewrite Hpc in Hop; by apply Hop.
  - intros o Ho. apply Hop. rewrite Hpc. by destruct ex.
  - destruct (deliver_all_lookup _ _ _ _ _ _ Hd Ht') as (th0 & Hth0 & Hw).
    eapply expected_woken; [done|]. by eapply Hops.
  - intros o [= <-]. apply Hop. by rewrite Hpc.
  - destruct (deliver_lookup _ _ _ _ _ _ Hd Ht') as (th0 & Hth0 & Hw).
    eapply expected_woken; [done|]. by eapply Hops.
  - intros o [= <-]. apply Hop. by rewrite Hpc.
  - intros o Ho. apply Hop. by destruct Hmv.
Qed.

(** ** Every internal step uses up work *)

(** A step of [t] in threads of which some may just have been woken. *)
Lemma work_spent m t th th' ths s o :
  threads m !! t = Some th -> ths !! t = Some th -> mode <$> ths = mode <$> threads m ->
  let N := Z.of_nat (size (threads m)) in
  total N ths + price N * pot A s + rank N th' < total N (threads m) + price N * pot A (shared m) + rank N th ->
  size (<[t := th']> ths) = size (threads m) /\ work (mkState s o (<[t := th']> ths)) < work m.
Proof.
  intros Ht Ht' Hm N Hlt. unfold work. simpl.
  assert (size (<[t := th']> ths) = size (threads m)) as Hsz.
  { rewrite map_size_insert_Some by (by exists th). by apply size_woken. }
  rewrite Hsz. split; [done|]. fold N. rewrite (total_insert N ths t th th' Ht'). lia.
Qed.

Lemma exec_spends N ths ths' th (h' : H) op p b s s' ns ex :
  0 <= N -> at_pc th = Running op p b -> total N ths' <= total N ths + 2 * N ->
  (ns = [] -> ths' = ths) ->
  pays (pot A s + due A op p) (pot A s' + due_after h' op ex) ns ex ->
  total N ths' + price N * pot A s' + rank N (mkThread h' (exit_pc op ex)) <
  total N ths + price N * pot A s + rank N th.
Proof.
  intros HN Hpc Htot Hnil Hpay. unfold rank, owes. rewrite Hpc. simpl.
  assert (Hbudget : forall ns' : list (notify Cv), (length ns' <= notes A)%nat ->
    (2 * N + 1) * Z.of_nat (length ns') + 2 * N + 4 <= price N) by (unfold price; nia).
  pose proof (Hbudget [] ltac:(simpl; lia)) as Hprice. simpl in Hprice.
  assert (Hless : forall d, d < pot A s + due A op p -> price N * d + price N <= price N * (pot A s + due A op p)) by nia.
  assert (Hsame : forall d, d <= pot A s + due A op p -> price N * d <= price N * (pot A s + due A op p)) by nia.
  revert Hbudget Hprice Hless Hsame. generalize (price N). intros P Hbudget Hprice Hless Hsame.
  destruct ex as [c tm p'|p'|ns' [r|p']|p']; simpl in *; try done.
  - destruct Hpay as [[Hns Hle]|Hlt]; [rewrite (Hnil Hns); specialize (Hsame _ Hle)|specialize (Hless _ Hlt)]; lia.
  - specialize (Hless _ Hpay). lia.
  - destruct Hpay as [Hl Hlt]. specialize (Hless _ Hlt). specialize (Hbudget _ Hl). lia.
  - destruct Hpay as [Hl Hlt]. specialize (Hless _ Hlt). specialize (Hbudget _ Hl). lia.
Qed.

Lemma internal_work m e m' :
  monitor_inv I allowed asleep m -> tidy m -> internal e = true -> step cd cl m e = Some m' ->
  size (threads m') = size (threads m) /\ work m' < work m.
Proof.
  intros Hinv Htidy He Hstep%step_fires. pose proof Hinv as [HI Hpcs].
  set (N := Z.of_nat (size (threads m))). pose proof (price_pos N ltac:(lia)) as HP.
  destruct Hstep as [t th last op s en Ht Hpc Hmay Hen|t th op p b Ht Hpc Ho
    |t th op p b picks s ns ex ths Ht Hpc Hb Hd|t th n ns op k pick ths Ht Hpc Hd
    |t th op p s Ht Hpc Hs|e t th q Ht Hmv Hq]; simpl in He;
    pose proof (modes_lookup _ _ _ Ht) as Hm.
  - destruct (start_pays t _ _ _ _ _ _ HI Hm Hmay He Hen) as (p & -> & Hpay).
    apply (work_spent m t th); [done..|]. fold N. unfold rank, owes. rewrite Hpc. simpl.
    unfold price in *. nia.
  - apply (work_spent m t th); [done..|]. fold N. unfold rank, owes. simpl.
    pose proof (idle_nonneg (mode th)). destruct Hpc as [-> | (r & -> & _)]; simpl; nia.
  - pose proof (body_paid _ _ _ _ _ _ _ _ _ Hinv Htidy Ht Hpc Hb) as Hpay.
    assert (Hthrun : ths !! t = Some th) by (eapply deliver_all_awake; [done|by rewrite Hpc|done]).
    pose proof (deliver_all_modes _ _ _ _ Hd) as Hms. apply (work_spent m t th); [done..|].
    eapply exec_spends; [lia|done| | |done].
    + apply (total_woken N); [done|]. intros t' th'. by apply deliver_all_lookup with (1 := Hd).
    + intros ->. simpl in Hd. by injection Hd.
  - assert (Hthrun : ths !! t = Some th) by (eapply deliver_awake; [done|by rewrite Hpc|done]).
    pose proof (deliver_modes _ _ _ _ Hd) as Hms. apply (work_spent m t th); [done..|]. fold N.
    pose proof (total_woken N _ _ Hms (fun t' th' => deliver_lookup _ _ _ _ t' th' Hd)) as Htot.
    fold N in Htot. unfold rank, owes. rewrite Hpc. simpl. destruct k; simpl; lia.
  - pose proof (Hpcs _ _ Ht) as Hok. rewrite Hpc in Hok. simpl in Hok.
    pose proof (outside_pays _ _ _ _ _ _ _ HI Hm Hok Hs).
    apply (work_spent m t th); [done..|]. fold N. unfold rank, owes. rewrite Hpc. simpl. nia.
  - destruct Hq as [->|[->|[r ->]]]; [done..|].
    apply (work_spent m t th); [done..|]. fold N. unfold rank, owes. simpl.
    inversion Hmv as [op p r' Hpc|c tm op p Hpc|c op p Hpc|op r' Hpc]; simpl; [|lia].
    pose proof (due_nonneg op p). nia.
Qed.

(** ** Until all threads have returned or sleep, one can move *)

(** Nobody is about to run into undefined behaviour. *)
Record defined m : Prop := {
  defined_body t th op p b : threads m !! t = Some th -> at_pc th = Running op p b ->
    is_Some (body cd op p b (shared m));
  defined_outside t th op p : threads m !! t = Some th -> at_pc th = Posting [] op (Again p) ->
    is_Some (outside cd op p (shared m));
}.

Lemma internal_enabled m :
  owned m -> tidy m -> defined m ->
  quiescent m = true \/ exists e m', internal e = true /\ step cd cl m e = Some m'.
Proof.
  intros Hown [Howner _] [Hbody Hout].
  destruct (decide (map_Forall (fun _ th => still (at_pc th) = true) (threads m))) as [Hall|Hn];
    [left; by apply bool_decide_eq_true|right].
  destruct (owner m) as [u|] eqn:Ho.
  { destruct (Howner u eq_refl) as (th & Ht & op & p & b & Hpc).
    destruct (Hbody _ _ _ _ _ Ht Hpc) as [[[s ns] ex] Hb].
    destruct (deliver_all_exists ns (threads m)) as (picks & ths & Hd).
    exists (Exec u picks). eexists. split; [done|]. simpl. rewrite Ht. simpl.
    unfold step_exec. rewrite Hpc, Hb. simpl. by rewrite Hd. }
  apply map_not_Forall in Hn as (t & th & Ht & Hs); [|apply _].
  destruct (at_pc th) as [|op p b|op p r|op p b| |ns op k] eqn:Hpc; try done.
  1,2: exists (Acquire t); eexists; split; [done|]; simpl; rewrite Ht; simpl;
    unfold step_acquire; by rewrite Ho, Hpc.
  - assert (owner m = Some t); [|congruence]. eapply Hown; [done|]. by do 3 eexists.
  - destruct ns as [|n ns].
    + exists (Finish t). destruct k as [r|p].
      * eexists. split; [done|]. simpl. rewrite Ht. simpl. unfold step_finish. by rewrite Hpc.
      * destruct (Hout _ _ _ _ Ht Hpc) as [s Hs']. eexists. split; [done|]. simpl. rewrite Ht. simpl.
        unfold step_finish. by rewrite Hpc, Hs'.
    + destruct (deliver_exists n (threads m)) as (pick & ths & Hd).
      exists (Notify t pick). eexists. split; [done|]. simpl. rewrite Ht. simpl.
      unfold step_notify. by rewrite Hpc, Hd.
Qed.

(** ** The theorem *)

Record orderly m : Prop := {
  orderly_inv : monitor_inv I allowed asleep m;
  orderly_owned : owned m;
  orderly_tidy : tidy m;
}.

Lemma orderly_step m e m' :
  orderly m -> welcome_event e = true -> step cd cl m e = Some m' -> orderly m'.
Proof.
  intros [Hi Ho Ht] He Hs.
  split; [by eapply (monitor_inv_step cd cl I allowed asleep)|by eapply owned_step|by eapply tidy_step].
Qed.

Lemma orderly_run m es m' :
  orderly m -> Forall (fun e => welcome_event e = true) es -> run (step cd cl) m es = Some m' -> orderly m'.
Proof.
  intros Hm Hes. revert m Hm. induction Hes as [|e es He Hes IH]; intros m Hm Hrun; simpl in Hrun.
  { by injection Hrun as <-. }
  destruct (step cd cl m e) as [m1|] eqn:Hs; simpl in Hrun; [|done].
  eapply IH; [|done]. by eapply orderly_step.
Qed.

Lemma orderly_reachable s hs es m :
  I s hs -> Forall (fun e => welcome_event e = true) es ->
  run (step cd cl) (start s hs) es = Some m -> orderly m.
Proof.
  intros HI. apply orderly_run. split.
  - apply (safe_invariant cd cl I allowed asleep s hs); [done|apply steps_refl].
  - apply owned_start.
  - split; [done|]. intros t th Ht. simpl in Ht.
    by apply lookup_fmap_Some in Ht as (h & <- & _).
Qed.

(** No schedule of the threads inside is longer than the work left. *)
Theorem monitor_settles m es m' :
  orderly m -> Forall (fun e => internal e = true /\ welcome_event e = true) es ->
  run (step cd cl) m es = Some m' -> Z.of_nat (length es) <= work m /\ orderly m'.
Proof.
  intros Hm Hes Hrun. revert m Hm Hrun. induction Hes as [|e es [He Hwel] Hes IH]; intros m Hm Hrun; simpl in Hrun.
  - injection Hrun as <-. split; [apply work_nonneg|done].
  - destruct (step cd cl m e) as [m1|] eqn:Hs; simpl in Hrun; [|done].
    destruct (internal_work m e m1 (orderly_inv _ Hm) (orderly_tidy _ Hm) He Hs) as [_ Hw].
    destruct (IH m1 (orderly_step _ _ _ Hm Hwel Hs) Hrun) as [Hl Hend]. split; [|done].
    simpl length. lia.
Qed.

(** Classes whose segments are total have nothing undefined. *)
Lemma total_defined m : MonitorOk cd cl I allowed asleep -> orderly m -> defined m.
Proof.
  intros Hok [[HI Hpcs] _ _]. split.
  - intros t th op p b Ht Hpc. pose proof (Hpcs _ _ Ht) as Ha. rewrite Hpc in Ha.
    destruct (body_ok cd cl I allowed asleep _ _ _ _ _ _ b HI (modes_lookup _ _ _ Ht) Ha)
      as (s & ns & ex & -> & _). by eexists.
  - intros t th op p Ht Hpc. pose proof (Hpcs _ _ Ht) as Ha. rewrite Hpc in Ha.
    destruct (outside_ok cd cl I allowed asleep _ _ _ _ _ _ HI (modes_lookup _ _ _ Ht) Ha)
      as (s & -> & _). by eexists.
Qed.
End drain.

(** ** Methods that leave at once *)
Section once.
Context {St Op Pt Cv Rt H : Type} `{!EqDecision Cv}.
Context (cd : code St Op Pt Cv Rt) (cl : client St Op Pt Cv Rt H).
Context (I : St -> gmap tid H -> Prop).
Context (allowed : H -> Op -> Pt -> Prop) (asleep : H -> Cv -> Op -> Pt -> Prop) (c : nat).
Implicit Types (m : state St Op Pt Cv Rt H).
Local Open Scope Z_scope.

(** A segment ends in a wait, with nothing notified, or the method leaves for
    good, with at most [c] notifications still to make. *)
Class LeavesOnce : Prop := leaves_once t h s hs op p b s' ns ex :
  I s hs -> hs !! t = Some h -> allowed h op p -> body cd op p b s = Some (s', ns, ex) ->
  match ex with
  | Wait _ _ _ => ns = []
  | Leave ns' (Return _) => (length ns' <= c)%nat
  | _ => False
  end.

Context `{!MonitorOk cd cl I allowed asleep, !LeavesOnce}.

Abbreviation once := (one_segment c : account St Op Pt H).

#[export] Instance once_settles : Settles cd cl I allowed once.
Proof.
  split; try done. intros t h s hs op p b s' ns ex HI Ht Hal _ Hb.
  pose proof (leaves_once _ _ _ _ _ _ _ _ _ _ HI Ht Hal Hb) as Hex.
  destruct ex as [| |ns' [r|p']|]; simpl in *; try done. by left.
Qed.

Lemma once_welcome (es : list (event Op)) : Forall (fun e => welcome_event once e = true) es.
Proof. apply Forall_forall. by intros []. Qed.

Lemma once_orderly s hs es m :
  I s hs -> run (step cd cl) (start s hs) es = Some m -> orderly I allowed asleep once m.
Proof. intros HI. by apply (orderly_reachable cd cl I allowed asleep once), once_welcome. Qed.

(** Left alone, such a class never runs longer than [work], and where it stops
    a thread can move or all have returned or sleep. *)
Theorem once_settled m es m' :
  orderly I allowed asleep once m -> Forall (fun e => internal once e = true) es ->
  run (step cd cl) m es = Some m' ->
  Z.of_nat (length es) <= work once m /\
  (quiescent m' = true \/ exists e m'', internal once e = true /\ step cd cl m' e = Some m'').
Proof.
  intros Hm Hes Hrun.
  destruct (monitor_settles cd cl I allowed asleep once m es m' Hm) as [Hl Hm']; [|done|].
  { eapply Forall_impl; [exact Hes|]. intros e He. split; [done|]. by destruct e. }
  split; [done|]. apply (internal_enabled cd cl once); [apply Hm'|apply Hm'|].
  by apply (total_defined cd cl I allowed asleep once).
Qed.
End once.
