(* ===== verification/RWLock.v ===== *)
(** * The SharedTimedMutex concept

    [SharedTimedMutex] and [ReaderPreferringSharedTimedMutex]
    (concurrency/shared_mutex.h) have the same member functions and promise
    the same thing to their clients.  This file states that promise: the
    operations, the contract of the callers, the abstract readers-writer lock,
    and the interface [SharedMutex] an implementation discharges.  The
    refinement of the abstract lock is proved once, against the interface. *)

From S2P Require Import Prelude Machine Monitor MonitorTheory.

Module RW.

(** The member functions both classes share.  A deadline is not a value of
    the model: a timed wait can expire at any moment, so [try_lock_for d] is
    [try_lock_until] of some deadline. *)
Inductive op :=
| lock | unlock | try_lock | try_lock_until
| lock_shared | unlock_shared | try_lock_shared | try_lock_shared_until.

Inductive ret := Void | Bool (b : bool).

(** What a thread holds: nothing, shared ownership, the writer mark without
    exclusive ownership yet, exclusive ownership. *)
Inductive hold := Free | Shared | Entered | Exclusive.

#[export] Instance op_eq_dec : EqDecision op.
Proof. solve_decision. Defined.
#[export] Instance hold_eq_dec : EqDecision hold.
Proof. solve_decision. Defined.

(** The contract: a thread locks only while it owns nothing and unlocks what
    it owns. *)
Definition required (o : op) : hold :=
  match o with
  | unlock => Exclusive
  | unlock_shared => Shared
  | _ => Free
  end.

(** Ownership after [o] returned [r]. *)
Definition after (o : op) (r : ret) : hold :=
  match o, r with
  | lock, _ => Exclusive
  | (try_lock | try_lock_until), Bool true => Exclusive
  | lock_shared, _ => Shared
  | (try_lock_shared | try_lock_shared_until), Bool true => Shared
  | _, _ => Free
  end.

(** Weights that count shared owners and writers. *)
Definition reading (h : hold) : Z := match h with Shared => 1 | _ => 0 end.
Definition writing (h : hold) : Z :=
  match h with Entered | Exclusive => 1 | _ => 0 end.

Section client.
Context {St Pt Cv : Type} (gate : Cv -> bool).

(** [gate c]: a thread that waits on [c] has entered as the writer. *)
Definition settle (o : op) (_ : Pt) (ex : exit Pt Cv ret) (h : hold) : hold :=
  match ex with
  | Wait c _ _ => if gate c then Entered else Free
  | Leave _ (Return r) => after o r
  | _ => h
  end.

Definition callers : client St op Pt Cv ret hold :=
  mkClient (fun _ h _ o => bool_decide (h = required o)) settle.
End client.

(** ** The abstract readers-writer lock *)

Record spec := mkSpec { writer : option tid; readers : gset tid }.

Inductive label := AcquireX (t : tid) | ReleaseX (t : tid) | AcquireS (t : tid) | ReleaseS (t : tid).

Definition spec_step (a : spec) (l : label) : option spec :=
  match l with
  | AcquireX t =>
      if decide (writer a = None /\ readers a = ∅) then Some (mkSpec (Some t) ∅) else None
  | ReleaseX t =>
      if decide (writer a = Some t) then Some (mkSpec None (readers a)) else None
  | AcquireS t =>
      if decide (writer a = None /\ t ∉ readers a)
      then Some (mkSpec None ({[t]} ∪ readers a)) else None
  | ReleaseS t =>
      if decide (t ∈ readers a) then Some (mkSpec (writer a) (readers a ∖ {[t]})) else None
  end.

(** The abstract event of a change of ownership. *)
Definition change (t : tid) (h h' : hold) : option label :=
  match h, h' with
  | (Free | Entered), Exclusive => Some (AcquireX t)
  | Exclusive, Free => Some (ReleaseX t)
  | Free, Shared => Some (AcquireS t)
  | Shared, Free => Some (ReleaseS t)
  | _, _ => None
  end.

Lemma change_some t h h' l :
  change t h h' = Some l ->
  (l = AcquireX t /\ h' = Exclusive /\ h <> Exclusive /\ h <> Shared) \/
  (l = AcquireS t /\ h' = Shared /\ h <> Exclusive /\ h <> Shared) \/
  (l = ReleaseX t /\ h = Exclusive /\ h' <> Exclusive /\ h' <> Shared) \/
  (l = ReleaseS t /\ h = Shared /\ h' <> Exclusive /\ h' <> Shared).
Proof. destruct h, h'; simpl; intros [= <-]; naive_solver. Qed.

(** [owns hs a]: the abstract lock has the owners the modes say. *)
Definition owns (hs : gmap tid hold) (a : spec) : Prop :=
  (forall t, writer a = Some t <-> hs !! t = Some Exclusive) /\
  (forall t, t ∈ readers a <-> hs !! t = Some Shared).

(** An exclusive owner is the only owner. *)
Definition sole (hs : gmap tid hold) : Prop :=
  forall t1 t2 h2, hs !! t1 = Some Exclusive -> hs !! t2 = Some h2 ->
    h2 = Exclusive \/ h2 = Shared -> t1 = t2.

(** Somebody owns the mutex. *)
Definition in_use (hs : gmap tid hold) : Prop :=
  exists t h, hs !! t = Some h /\ (h = Shared \/ h = Exclusive).

Section changes.
Context (hs : gmap tid hold) (a : spec) (t : tid) (h h' : hold).
Context (Hown : owns hs a) (Hsole : sole (<[t := h']> hs)) (Ht : hs !! t = Some h).

Lemma owns_update a' :
  (forall t2, t2 <> t -> writer a' = Some t2 <-> writer a = Some t2) ->
  (forall t2, t2 <> t -> t2 ∈ readers a' <-> t2 ∈ readers a) ->
  (writer a' = Some t <-> h' = Exclusive) -> (t ∈ readers a' <-> h' = Shared) ->
  owns (<[t := h']> hs) a'.
Proof.
  destruct Hown as [Hw Hr]. intros HW HR Hwt Hrt.
  split; intros t2; destruct (decide (t2 = t)) as [->|Hne].
  - rewrite lookup_insert_eq, Hwt. naive_solver.
  - rewrite lookup_insert_ne, HW by done. apply Hw.
  - rewrite lookup_insert_eq, Hrt. naive_solver.
  - rewrite lookup_insert_ne, HR by done. apply Hr.
Qed.

Lemma writer_self : writer a = Some t <-> h = Exclusive.
Proof. rewrite (proj1 Hown), Ht. naive_solver. Qed.

Lemma reader_self : t ∈ readers a <-> h = Shared.
Proof. rewrite (proj2 Hown), Ht. naive_solver. Qed.

(** Whoever owns after the change finds no exclusive owner before it. *)
Lemma no_writer : h' = Exclusive \/ h' = Shared -> h <> Exclusive -> writer a = None.
Proof.
  intros Hh' Hh. destruct (writer a) as [t2|] eqn:Hwa; [|done]. exfalso.
  assert (t2 <> t) as Hne by (intros ->; by apply Hh, writer_self).
  apply Hne. apply (Hsole t2 t h').
  - rewrite lookup_insert_ne by done. by apply Hown.
  - by rewrite lookup_insert_eq.
  - done.
Qed.

Lemma no_reader : h' = Exclusive -> h <> Shared -> readers a = ∅.
Proof.
  intros Hh' Hh. apply set_eq. intros t2. split; [|set_solver]. intros Hin. exfalso.
  assert (t2 <> t) as Hne by (intros ->; by apply Hh, reader_self).
  apply Hne. symmetry. apply (Hsole t t2 Shared); [|rewrite lookup_insert_ne by done|by right].
  - by rewrite lookup_insert_eq, Hh'.
  - by apply Hown.
Qed.

Lemma unchanged :
  (h' = Exclusive <-> h = Exclusive) -> (h' = Shared <-> h = Shared) ->
  owns (<[t := h']> hs) a.
Proof.
  intros HX HS. apply owns_update; [done..| |]; [rewrite HX; apply writer_self|].
  rewrite HS. apply reader_self.
Qed.

Lemma acquire_exclusive :
  h' = Exclusive -> h <> Exclusive -> h <> Shared ->
  exists a', spec_step a (AcquireX t) = Some a' /\ owns (<[t := h']> hs) a'.
Proof.
  intros Hh' HX HS. pose proof (no_writer (or_introl Hh') HX) as Hw.
  pose proof (no_reader Hh' HS) as Hr.
  exists (mkSpec (Some t) ∅). simpl. rewrite decide_True by done. split; [done|].
  apply owns_update; simpl; rewrite ?Hw, ?Hr; naive_solver set_solver.
Qed.

Lemma acquire_shared :
  h' = Shared -> h <> Exclusive -> h <> Shared ->
  exists a', spec_step a (AcquireS t) = Some a' /\ owns (<[t := h']> hs) a'.
Proof.
  intros Hh' HX HS. pose proof (no_writer (or_intror Hh') HX) as Hw.
  exists (mkSpec None ({[t]} ∪ readers a)). simpl.
  rewrite decide_True by (split; [done|]; by rewrite reader_self). split; [done|].
  apply owns_update; simpl; rewrite ?Hw; naive_solver set_solver.
Qed.

Lemma release_exclusive :
  h = Exclusive -> h' <> Exclusive -> h' <> Shared ->
  exists a', spec_step a (ReleaseX t) = Some a' /\ owns (<[t := h']> hs) a'.
Proof.
  intros Hh HX HS. pose proof (proj2 writer_self Hh) as Hw.
  exists (mkSpec None (readers a)). simpl. rewrite decide_True by done. split; [done|].
  apply owns_update; simpl; rewrite ?Hw, ?reader_self; naive_solver.
Qed.

Lemma release_shared :
  h = Shared -> h' <> Exclusive -> h' <> Shared ->
  exists a', spec_step a (ReleaseS t) = Some a' /\ owns (<[t := h']> hs) a'.
Proof.
  intros Hh HX HS. pose proof (proj2 reader_self Hh) as Hr.
  exists (mkSpec (writer a) (readers a ∖ {[t]})). simpl.
  rewrite decide_True by done. split; [done|].
  apply owns_update; simpl; rewrite ?writer_self; [done|set_solver|naive_solver|set_solver].
Qed.

Lemma change_simulated :
  h = h' \/ is_Some (change t h h') \/
  (h <> Exclusive /\ h <> Shared /\ h' <> Exclusive /\ h' <> Shared) ->
  match change t h h' with
  | None => owns (<[t := h']> hs) a
  | Some l => exists a', spec_step a l = Some a' /\ owns (<[t := h']> hs) a'
  end.
Proof.
  intros Hch. destruct (change t h h') as [l|] eqn:Hl.
  - destruct (change_some _ _ _ _ Hl) as [(->&?&?&?)|[(->&?&?&?)|[(->&?&?&?)|(->&?&?&?)]]];
      auto using acquire_exclusive, acquire_shared, release_exclusive, release_shared.
  - destruct Hch as [Heq|[[? ?]|(?&?&?&?)]]; [apply unchanged; by rewrite Heq|done|].
    apply unchanged; naive_solver.
Qed.
End changes.

(** ** The interface of an implementation *)

Class SharedMutex (St Pt Cv : Type) `{!EqDecision Cv} := {
  sm_code : code St op Pt Cv ret;
  sm_init : St;
  sm_gate : Cv -> bool;
  sm_inv : St -> gmap tid hold -> Prop;
  sm_allowed : hold -> op -> Pt -> Prop;
  sm_asleep : hold -> Cv -> op -> Pt -> Prop;
}.

(** Its laws: the class keeps its invariant; the invariant lets an exclusive
    owner be the only owner; an operation runs on behalf of a thread in the
    mode it requires (or a writer that has entered). *)
Class SharedMutexLaws (St Pt Cv : Type) `{!EqDecision Cv, !SharedMutex St Pt Cv} : Prop := {
  sm_ok :: MonitorOk sm_code (callers sm_gate) sm_inv sm_allowed sm_asleep;
  sm_initial hs : map_Forall (fun _ h => h = Free) hs -> sm_inv sm_init hs;
  sm_exclusion s hs : sm_inv s hs -> sole hs;
  sm_mode h o p : sm_allowed h o p -> h = required o \/ (h = Entered /\ required o = Free);
  sm_settle h o p b s s' ns ex :
    sm_allowed h o p -> body sm_code o p b s = Some (s', ns, ex) ->
    match ex with
    | Leave _ (Return r) => h = Entered -> after o r = Exclusive \/ after o r = Free
    | Wait _ _ _ => required o = Free
    | _ => True
    end;
}.

Ltac pick_change :=
  simpl; first [ left; reflexivity | right; left; eexists; reflexivity
        | right; right; repeat split; discriminate ].

Section refinement.
Context {St Pt Cv : Type} `{!EqDecision Cv, !SharedMutex St Pt Cv, !SharedMutexLaws St Pt Cv}.

(** The end of a segment is one of the changes of the abstract lock. *)
Lemma settle_change t h o p b s s' ns ex :
  sm_allowed h o p -> body sm_code o p b s = Some (s', ns, ex) ->
  let h' := settle sm_gate o p ex h in
  h = h' \/ is_Some (change t h h') \/
  (h <> Exclusive /\ h <> Shared /\ h' <> Exclusive /\ h' <> Shared).
Proof.
  intros Hal Hb. pose proof (sm_mode _ _ _ Hal) as Hh. pose proof (sm_settle _ _ _ _ _ _ _ _ Hal Hb) as He.
  destruct ex as [c tm p'| |nts [r|p']|]; simpl in *; [|by left| |by left..].
  - rewrite He in Hh. destruct Hh as [->|[-> _]]; destruct (sm_gate c); pick_change.
  - destruct Hh as [->|[-> Ho]].
    + destruct o; simpl; destruct r as [|[]]; pick_change.
    + destruct (He eq_refl) as [->| ->]; pick_change.
Qed.

Abbreviation mstate := (state St op Pt Cv ret hold).

Definition sm_step : mstate -> event op -> option mstate := step sm_code (callers sm_gate).
Definition sm_start (hs : gmap tid hold) : mstate := start sm_init hs.

Definition idle_clients (hs : gmap tid hold) : Prop := map_Forall (fun _ h => h = Free) hs.

Lemma sm_invariant hs m :
  idle_clients hs -> steps sm_step (sm_start hs) m ->
  monitor_inv sm_inv sm_allowed sm_asleep m.
Proof. intros Hhs. apply monitor_invariant; [apply _|]. by apply sm_initial. Qed.

(** Which thread changes what it owns at an event, if any. *)
Definition sm_label (m : mstate) (e : event op) : option label :=
  match e with
  | Exec t _ =>
      h ← modes m !! t; m' ← sm_step m e; h' ← modes m' !! t; change t h h'
  | _ => None
  end.

(** The abstract lock a state of the implementation stands for. *)
Definition represents (m : mstate) (a : spec) : Prop :=
  monitor_inv sm_inv sm_allowed sm_asleep m /\ owns (modes m) a.

Lemma represents_start hs :
  idle_clients hs -> represents (sm_start hs) (mkSpec None ∅).
Proof.
  intros Hhs. split; [by eapply sm_invariant; [|constructor]|].
  unfold sm_start. rewrite modes_start. simpl.
  split; intros t; (split; [set_solver|]); intros Ht; by specialize (Hhs _ _ Ht).
Qed.

Lemma represents_step m a e m' :
  represents m a -> sm_step m e = Some m' ->
  match sm_label m e with
  | None => represents m' a
  | Some l => exists a', spec_step a l = Some a' /\ represents m' a'
  end.
Proof.
  intros [Hinv Hown] Hstep.
  assert (Hinv' : monitor_inv sm_inv sm_allowed sm_asleep m') by exact (monitor_inv_step _ _ _ _ _ _ _ _ Hinv Hstep).
  destruct (step_modes _ _ _ _ _ Hstep) as [e Hm'|t picks th op p b s ns ex Ht Hpc Hb Hm'].
  - assert (sm_label m e = None) as ->.
    { destruct e as [| | |t picks| | | |]; try done. unfold sm_label. rewrite Hstep.
      destruct (modes m !! t) as [h|] eqn:Ht; [|done]. simpl.
      rewrite Hm', Ht. simpl. by destruct h. }
    split; [done|]. by rewrite Hm'.
  - simpl in Hm'. pose proof (modes_lookup _ _ _ Ht) as Hm.
    assert (sm_label m (Exec t picks) = change t (mode th) (settle sm_gate op p ex (mode th)))
      as ->.
    { unfold sm_label. rewrite Hm, Hstep. simpl. by rewrite Hm', lookup_insert_eq. }
    assert (sole (modes m')) by (eapply sm_exclusion, Hinv').
    pose proof (proj2 Hinv _ _ Ht) as Hok. rewrite Hpc in Hok. simpl in Hok.
    pose proof (change_simulated (modes m) a t (mode th) (settle sm_gate op p ex (mode th)))
      as Hsim.
    rewrite <- Hm' in Hsim.
    specialize (Hsim Hown ltac:(done) Hm (settle_change t _ _ _ _ _ _ _ _ Hok Hb)).
    destruct (change _ _ _); [|by split].
    destruct Hsim as (a' & Ha' & Ho'). exists a'. done.
Qed.

(** Every run of an implementation is, event by event, a run of the
    abstract readers-writer lock. *)
Theorem refines hs es m :
  idle_clients hs -> run sm_step (sm_start hs) es = Some m ->
  exists a, run spec_step (mkSpec None ∅) (labels sm_step sm_label (sm_start hs) es) = Some a /\
  represents m a.
Proof.
  intros Hhs Hrun. eapply (simulation_run _ _ _ represents);
    [apply represents_step|by apply represents_start|done].
Qed.
End refinement.

End RW.
