(* ===== verification/SharedMutex.v ===== *)
(** * concurrency/shared_mutex.h: the two shared mutexes

    Both classes pack a writer mark and a reader count into one
    [uint_fast32_t].  Its width is implementation defined, at least 32: it is
    the parameter [W] of the definitions. *)

From S2P Require Import Prelude Machine Monitor MonitorTheory RWLock.

(** ** The packed word *)

(** A word seen as a condition: [if (x)], [while (x)]. *)
Definition truth (z : Z) : bool := negb (z =? 0)%Z.

(** [~x] on a [W]-bit unsigned word. *)
Definition bnot (W x : Z) : Z := wrap_u W (Z.lnot x).

(** [pack b n]: the word with writer mark [b] and [n] readers. *)
Definition pack (b n : Z) : Z := (2147483648 * b + n)%Z.

Module SharedTimedMutex.
Import RW.

(** [1U << 31] and the mask of the bits below. *)
Definition WRITER_ENTERED_MASK : Z := uint_of (Z.shiftl 1 31).
Definition NUM_READER_MASK : Z := WRITER_ENTERED_MASK - 1.

Inductive cv := rgate | wgate.

(** The wait points: after [mtx] is locked, after a wake-up at either gate. *)
Inductive point := at_start | at_rgate | at_wgate.

#[export] Instance cv_eq_dec : EqDecision cv.
Proof. solve_decision. Defined.
#[export] Instance point_eq_dec : EqDecision point.
Proof. solve_decision. Defined.

Abbreviation segment := (option (Z * list (notify cv) * exit point cv ret)).

(** A segment that stores [s], releases the mutex, notifies [ns] and returns [r]. *)
Definition return_ (s : Z) (ns : list (notify cv)) (r : ret) : segment :=
  Some (s, [], Leave ns (Return r)).
Definition wait_at (s : Z) (c : cv) (timed : bool) (p : point) : segment :=
  Some (s, [], Wait c timed p).

Section code.
Context (W : Z).
Implicit Types (state : Z) (timedout : bool).

(** [lock()]: the loop at [wgate], then the loop at [rgate]. *)
Definition lock_wgate state : segment :=
  if truth (Z.land state NUM_READER_MASK) then wait_at state wgate false at_wgate
  else return_ state [] Void.

Definition lock_rgate state : segment :=
  if truth (Z.land state WRITER_ENTERED_MASK) then wait_at state rgate false at_rgate
  else lock_wgate (Z.lor state WRITER_ENTERED_MASK).

Definition unlock_body state : segment :=
  return_ (Z.land state (bnot W WRITER_ENTERED_MASK)) [NotifyAll rgate] Void.

Definition try_lock_body state : segment :=
  if (state =? 0)%Z then return_ WRITER_ENTERED_MASK [] (Bool true)
  else return_ state [] (Bool false).

(** [try_lock_until()]: each [wait_until] with a predicate re-checks the
    predicate when it wakes, and gives up if it is false after a timeout. *)
Definition try_lock_until_wgate timedout state : segment :=
  if negb (truth (Z.land state NUM_READER_MASK)) then return_ state [] (Bool true)
  else if timedout then
    return_ (Z.land state (bnot W WRITER_ENTERED_MASK)) [NotifyAll rgate] (Bool false)
  else wait_at state wgate true at_wgate.

Definition try_lock_until_rgate timedout state : segment :=
  if negb (truth (Z.land state WRITER_ENTERED_MASK)) then
    try_lock_until_wgate false (Z.lor state WRITER_ENTERED_MASK)
  else if timedout then return_ state [] (Bool false)
  else wait_at state rgate true at_rgate.

(** The condition under which readers are kept out. *)
Definition no_room state : bool :=
  truth (Z.land state WRITER_ENTERED_MASK)
  || (Z.land state NUM_READER_MASK =? NUM_READER_MASK)%Z.

Definition lock_shared_body state : segment :=
  if no_room state then wait_at state rgate false at_rgate
  else return_ (wrap_u W (state + 1)) [] Void.

Definition unlock_shared_body state : segment :=
  let state := wrap_u W (state - 1) in
  let num_readers_left := Z.land state NUM_READER_MASK in
  if truth (Z.land state WRITER_ENTERED_MASK) && (num_readers_left =? 0)%Z then
    return_ state [NotifyOne wgate] Void
  else if (num_readers_left =? NUM_READER_MASK - 1)%Z then
    return_ state [NotifyOne rgate] Void
  else return_ state [] Void.

Definition try_lock_shared_body state : segment :=
  if negb (truth (Z.land state WRITER_ENTERED_MASK))
   && negb (Z.land state NUM_READER_MASK =? NUM_READER_MASK)%Z
  then return_ (wrap_u W (state + 1)) [] (Bool true)
  else return_ state [] (Bool false).

Definition try_lock_shared_until_body timedout state : segment :=
  if negb (truth (Z.land state WRITER_ENTERED_MASK))
   && negb (Z.land state NUM_READER_MASK =? NUM_READER_MASK)%Z
  then return_ (wrap_u W (state + 1)) [] (Bool true)
  else if timedout then return_ state [] (Bool false)
  else wait_at state rgate true at_rgate.

Definition enter_ (o : op) (state : Z) : option (Z * entry point ret) :=
  Some (state,
  match o with
  | try_lock | try_lock_shared => Trying at_start (Bool false)
  | _ => Blocking at_start
  end).

Definition body_ (o : op) (p : point) timedout state : segment :=
  match o, p with
  | lock, at_wgate => lock_wgate state
  | lock, _ => lock_rgate state
  | unlock, _ => unlock_body state
  | try_lock, _ => try_lock_body state
  | try_lock_until, at_wgate => try_lock_until_wgate timedout state
  | try_lock_until, _ => try_lock_until_rgate timedout state
  | lock_shared, _ => lock_shared_body state
  | unlock_shared, _ => unlock_shared_body state
  | try_lock_shared, _ => try_lock_shared_body state
  | try_lock_shared_until, _ => try_lock_shared_until_body timedout state
  end.

Definition the_code : code Z op point cv ret :=
  mkCode enter_ body_ (fun _ _ state => Some state).
End code.

(** The relative-deadline versions forward to the absolute ones. *)
Definition try_lock_for : op := try_lock_until.
Definition try_lock_shared_for : op := try_lock_shared_until.

(** A thread that waits at [wgate] is the one writer that passed [rgate]. *)
Definition gate (c : cv) : bool := match c with rgate => false | wgate => true end.

Definition init : Z := 0.
End SharedTimedMutex.

Module ReaderPreferring.
Import RW.

Definition WRITER_ACTIVE_MASK : Z := uint_of (Z.shiftl 1 31).
Definition NUM_READER_MASK : Z := WRITER_ACTIVE_MASK - 1.

(** One condition variable, [cv], hence one wait point. *)
Inductive cv_name := cv.
Inductive point := at_start | at_cv.

#[export] Instance cv_eq_dec : EqDecision cv_name.
Proof. solve_decision. Defined.

Abbreviation segment := (option (Z * list (notify cv_name) * exit point cv_name ret)).

Definition return_ (s : Z) (ns : list (notify cv_name)) (r : ret) : segment :=
  Some (s, [], Leave ns (Return r)).
Definition wait_at (s : Z) (timed : bool) : segment := Some (s, [], Wait cv timed at_cv).

Section code.
Context (W : Z).
Implicit Types (state : Z) (timedout : bool).

Definition lock_body state : segment :=
  if truth state then wait_at state false else return_ WRITER_ACTIVE_MASK [] Void.

Definition unlock_body (_ : Z) : segment := return_ 0 [NotifyAll cv] Void.

Definition try_lock_body state : segment :=
  if (state =? 0)%Z then return_ WRITER_ACTIVE_MASK [] (Bool true)
  else return_ state [] (Bool false).

Definition try_lock_until_body timedout state : segment :=
  if (state =? 0)%Z then return_ WRITER_ACTIVE_MASK [] (Bool true)
  else if timedout then return_ state [] (Bool false)
  else wait_at state true.

Definition lock_shared_body state : segment :=
  if truth (Z.land state WRITER_ACTIVE_MASK)
   || (Z.land state NUM_READER_MASK =? NUM_READER_MASK)%Z
  then wait_at state false
  else return_ (wrap_u W (state + 1)) [] Void.

Definition unlock_shared_body state : segment :=
  let state := wrap_u W (state - 1) in
  if (state =? 0)%Z then return_ state [NotifyAll cv] Void
  else return_ state [] Void.

Definition try_lock_shared_body state : segment :=
  if negb (truth (Z.land state WRITER_ACTIVE_MASK))
   && negb (Z.land state NUM_READER_MASK =? NUM_READER_MASK)%Z
  then return_ (wrap_u W (state + 1)) [] (Bool true)
  else return_ state [] (Bool false).

Definition try_lock_shared_until_body timedout state : segment :=
  if negb (truth (Z.land state WRITER_ACTIVE_MASK))
   && negb (Z.land state NUM_READER_MASK =? NUM_READER_MASK)%Z
  then return_ (wrap_u W (state + 1)) [] (Bool true)
  else if timedout then return_ state [] (Bool false)
  else wait_at state true.

Definition enter_ (o : op) (state : Z) : option (Z * entry point ret) :=
  Some (state,
  match o with
  | try_lock | try_lock_shared => Trying at_start (Bool false)
  | _ => Blocking at_start
  end).

Definition body_ (o : op) (_ : point) timedout state : segment :=
  match o with
  | lock => lock_body state
  | unlock => unlock_body state
  | try_lock => try_lock_body state
  | try_lock_until => try_lock_until_body timedout state
  | lock_shared => lock_shared_body state
  | unlock_shared => unlock_shared_body state
  | try_lock_shared => try_lock_shared_body state
  | try_lock_shared_until => try_lock_shared_until_body timedout state
  end.

Definition the_code : code Z op point cv_name ret :=
  mkCode enter_ body_ (fun _ _ state => Some state).
End code.

Definition try_lock_for : op := try_lock_until.
Definition try_lock_shared_for : op := try_lock_shared_until.

(** No thread is marked as a writer before it owns the mutex. *)
Definition gate (_ : cv_name) : bool := false.

Definition init : Z := 0.
End ReaderPreferring.
