(* ===== verification/SharedMutexBits.v ===== *)
(** * The packed word of the shared mutexes: bit-level lemmas

    [pack b n] is the word with writer mark [b] (0 or 1) and [n] readers; the
    masks, the complement and the increments of the sources act on it as
    expected, at any width [W >= 32].  The second part is the invariant both
    classes keep: the word packs the numbers of writers and readers. *)

From S2P Require Import Prelude RWLock SharedMutex.

Import RW.

Local Open Scope Z_scope.

Definition MASK : Z := 2147483647.

(** The words the classes can hold. *)
Definition packed (b n : Z) : Prop := (b = 0 \/ b = 1) /\ 0 <= n <= MASK.

Lemma land_mask n : 0 <= n <= MASK -> Z.land n MASK = n.
Proof.
  intros Hn. change MASK with (Z.ones 31). unfold MASK in Hn.
  rewrite Z.land_ones by lia. apply Z.mod_small. lia.
Qed.

Lemma land_low_mark n : 0 <= n <= MASK -> Z.land n 2147483648 = 0.
Proof.
  intros Hn. rewrite <- (land_mask n) by done. rewrite <- Z.land_assoc.
  change (Z.land MASK 2147483648) with 0. apply Z.land_0_r.
Qed.

Lemma pack_lor n : 0 <= n <= MASK -> pack 1 n = Z.lor n 2147483648.
Proof.
  intros Hn. unfold pack. rewrite <- Z.lxor_lor by (by apply land_low_mark).
  rewrite <- Z.add_nocarry_lxor by (by apply land_low_mark). lia.
Qed.

Section packed.
Context (b n : Z) (Hp : packed b n).

Lemma pack_mark : Z.land (pack b n) 2147483648 = 2147483648 * b.
Proof.
  destruct Hp as [[-> | ->] Hn].
  - unfold pack. rewrite Z.mul_0_r, Z.add_0_l. by apply land_low_mark.
  - rewrite pack_lor, Z.land_lor_distr_l, land_low_mark by done. done.
Qed.

Lemma pack_readers : Z.land (pack b n) MASK = n.
Proof.
  destruct Hp as [[-> | ->] Hn].
  - unfold pack. rewrite Z.mul_0_r, Z.add_0_l. by apply land_mask.
  - rewrite pack_lor, Z.land_lor_distr_l, land_mask by done.
    change (Z.land 2147483648 MASK) with 0. apply Z.lor_0_r.
Qed.

Lemma pack_clear W : 32 <= W -> Z.land (pack b n) (bnot W 2147483648) = pack 0 n.
Proof.
  intros HW. unfold bnot, wrap_u. rewrite <- Z.land_ones by lia.
  rewrite Z.land_assoc, <- Z.ldiff_land.
  assert (Z.ldiff (pack b n) 2147483648 = n) as ->.
  { destruct Hp as [[-> | ->] Hn].
    - unfold pack. rewrite Z.mul_0_r, Z.add_0_l.
      rewrite <- (Z.lor_ldiff_and n 2147483648) at 2.
      rewrite (land_low_mark n) by done. by rewrite Z.lor_0_r.
    - rewrite pack_lor, Z.ldiff_land, Z.land_lor_distr_l by done.
      rewrite Z.land_lnot_diag, Z.lor_0_r, <- Z.ldiff_land.
      rewrite <- (Z.lor_ldiff_and n 2147483648) at 2.
      rewrite (land_low_mark n) by done. by rewrite Z.lor_0_r. }
  rewrite Z.land_ones by lia. destruct Hp as [_ Hn]. unfold MASK in Hn.
  rewrite Z.mod_small; [unfold pack; lia|].
  assert (2 ^ 32 <= 2 ^ W) by (apply Z.pow_le_mono_r; lia). lia.
Qed.

Lemma pack_incr W : 32 <= W -> n < MASK -> wrap_u W (pack b n + 1) = pack b (n + 1).
Proof.
  intros HW Hlt. destruct Hp as [Hb Hn]. unfold MASK in *.
  assert (2 ^ 32 <= 2 ^ W) by (apply Z.pow_le_mono_r; lia).
  rewrite wrap_u_small; unfold pack; lia.
Qed.

Lemma pack_decr W : 32 <= W -> 0 < n -> wrap_u W (pack b n - 1) = pack b (n - 1).
Proof.
  intros HW Hlt. destruct Hp as [Hb Hn]. unfold MASK in *.
  assert (2 ^ 32 <= 2 ^ W) by (apply Z.pow_le_mono_r; lia).
  rewrite wrap_u_small; unfold pack; lia.
Qed.
End packed.

Lemma pack_set n : 0 <= n <= MASK -> Z.lor (pack 0 n) 2147483648 = pack 1 n.
Proof. intros Hn. rewrite pack_lor by done. unfold pack. f_equal; lia. Qed.

Lemma pack_zero b n : packed b n -> (pack b n =? 0) = (b =? 0) && (n =? 0).
Proof. unfold packed, pack, MASK. lia. Qed.

Lemma pack_inj b n b' n' : packed b n -> packed b' n' -> pack b n = pack b' n' -> b = b' /\ n = n'.
Proof. unfold packed, pack, MASK. lia. Qed.

(** The constants of both classes. *)
Lemma stm_writer_mask : SharedTimedMutex.WRITER_ENTERED_MASK = 2147483648.
Proof. done. Qed.
Lemma stm_reader_mask : SharedTimedMutex.NUM_READER_MASK = MASK.
Proof. done. Qed.
Lemma rp_writer_mask : ReaderPreferring.WRITER_ACTIVE_MASK = 2147483648.
Proof. done. Qed.
Lemma rp_reader_mask : ReaderPreferring.NUM_READER_MASK = MASK.
Proof. done. Qed.

Lemma truth_zero : truth 0 = false.
Proof. done. Qed.

Lemma truth_mark b n : packed b n -> truth (Z.land (pack b n) 2147483648) = (b =? 1).
Proof. intros Hp. rewrite pack_mark by done. destruct Hp as [[-> | ->] _]; done. Qed.

Lemma truth_readers b n : packed b n -> truth (Z.land (pack b n) MASK) = (0 <? n).
Proof. intros Hp. rewrite pack_readers by done. destruct Hp as [_ ?]. unfold truth. lia. Qed.

Create HintDb pack.
#[export] Hint Rewrite stm_writer_mask stm_reader_mask rp_writer_mask rp_reader_mask
  truth_zero : pack.
#[export] Hint Rewrite truth_mark truth_readers pack_zero using assumption : pack.
#[export] Hint Rewrite pack_set pack_clear using first [assumption | unfold packed, MASK in *; lia] : pack.
#[export] Hint Rewrite pack_readers using assumption : pack_word.

Lemma packed_mark b n b' : packed b n -> b' = 0 \/ b' = 1 -> packed b' n.
Proof. by intros [_ ?] ?. Qed.

(** ** The counts the word packs *)

Lemma writing_nonneg h : 0 <= writing h <= 1.
Proof. destruct h; simpl; lia. Qed.
Lemma reading_nonneg h : 0 <= reading h <= 1.
Proof. destruct h; simpl; lia. Qed.

(** The numbers of writers (entered or exclusive) and readers. *)
Abbreviation writers hs := (sumz writing hs).
Abbreviation nreaders hs := (sumz reading hs).

(** The word packs the two counts; exclusive ownership excludes readers. *)
Definition inv (s : Z) (hs : gmap tid hold) : Prop :=
  s = pack (writers hs) (nreaders hs) /\ packed (writers hs) (nreaders hs) /\
  forall t, hs !! t = Some Exclusive -> nreaders hs = 0.

Section counts.
Context (s : Z) (hs : gmap tid hold) (Hinv : inv s hs).

Lemma writing_le t h : hs !! t = Some h -> writing h <= writers hs.
Proof. intros Ht. eapply sumz_ge_one; [|done]. intros. apply writing_nonneg. Qed.

Lemma reading_le t h : hs !! t = Some h -> reading h <= nreaders hs.
Proof. intros Ht. eapply sumz_ge_one; [|done]. intros. apply reading_nonneg. Qed.

Lemma writer_unique t1 t2 h1 h2 :
  hs !! t1 = Some h1 -> hs !! t2 = Some h2 -> writing h1 = 1 -> writing h2 = 1 -> t1 = t2.
Proof.
  intros H1 H2 W1 W2. destruct (decide (t1 = t2)) as [|Hne]; [done|].
  destruct Hinv as (_ & [Hb _] & _).
  pose proof (sumz_ge_two writing hs t1 t2 h1 h2 (fun _ h _ => proj1 (writing_nonneg h)) H1 H2 Hne).
  lia.
Qed.

Lemma inv_sole : sole hs.
Proof.
  intros t1 t2 h2 H1 H2 [-> | ->]; [by eapply writer_unique|].
  destruct Hinv as (_ & _ & Hx). specialize (Hx _ H1).
  pose proof (reading_le _ _ H2). simpl in *. lia.
Qed.

Lemma inv_update s' t h h' :
  hs !! t = Some h ->
  s' = pack (writers hs - writing h + writing h') (nreaders hs - reading h + reading h') ->
  packed (writers hs - writing h + writing h') (nreaders hs - reading h + reading h') ->
  (h' = Exclusive -> nreaders hs - reading h + reading h' = 0) ->
  (forall t', t' <> t -> hs !! t' = Some Exclusive -> nreaders hs - reading h + reading h' = 0) ->
  inv s' (<[t := h']> hs).
Proof.
  intros Ht -> Hp Hx Hother. unfold inv. rewrite !(sumz_insert _ hs t h h') by done.
  split_and!; [done|done|]. intros t' Ht'.
  destruct (decide (t' = t)) as [->|Hne].
  - rewrite lookup_insert_eq in Ht'. injection Ht' as ->. by apply Hx.
  - rewrite lookup_insert_ne in Ht' by done. by eapply Hother.
Qed.

(** Writing back the same word while nobody's ownership changes. *)
Lemma inv_same t h : hs !! t = Some h -> inv s (<[t := h]> hs).
Proof. intros Ht. by rewrite insert_id. Qed.

Lemma exclusive_counts t : hs !! t = Some Exclusive -> writers hs = 1 /\ nreaders hs = 0.
Proof.
  intros Ht. destruct Hinv as (_ & [Hb _] & Hx). specialize (Hx _ Ht).
  pose proof (writing_le _ _ Ht). simpl in *. lia.
Qed.
End counts.

Ltac counts :=
  unfold packed, pack, MASK in *; simpl in *;
  first [ lia | discriminate
        | intros; match goal with
          | Hi : inv ?s ?hs, Hx : ?hs !! _ = Some Exclusive |- _ =>
              destruct (exclusive_counts s hs Hi _ Hx); simpl in *; lia
          end
        | idtac ].

(** Fewer threads than the reader count can hold. *)
Definition few (ts : gset tid) : Prop := Z.of_nat (size ts) < MASK.

Lemma few_readers (s : Z) hs : few (dom hs) -> nreaders hs < MASK.
Proof.
  intros Hfew. unfold few in Hfew. rewrite size_dom in Hfew.
  pose proof (sumz_le_size reading hs 1 (fun _ h _ => proj2 (reading_nonneg h))). lia.
Qed.

Lemma readers_in_use hs : 0 < nreaders hs -> in_use hs.
Proof.
  intros (t & h & Ht & Hh)%sumz_pos_inv. exists t, h. split; [done|]. destruct h; simpl in Hh; try lia. by left.
Qed.

(** A writer is marked: it owns the mutex, or it has only entered. *)
Lemma writers_in_use hs :
  0 < writers hs -> in_use hs \/ exists t, hs !! t = Some Entered.
Proof.
  intros (t & h & Ht & Hh)%sumz_pos_inv. destruct h; simpl in Hh; try lia; [right; by exists t|left].
  exists t, Exclusive. naive_solver.
Qed.
