(* ===== verification/SharedTimedMutexProofs.v ===== *)
(** * SharedTimedMutex: correctness

    The word always packs the writer mark and the exact number of shared
    owners; an exclusive owner is alone; the class discharges the
    [SharedMutex] interface, so it refines the abstract readers-writer lock;
    no waiter is forgotten; a writer that has entered keeps new readers out. *)

From S2P Require Import Prelude Machine Monitor MonitorTheory RWLock.
From S2P Require Import SharedMutex SharedMutexBits.

Import RW SharedTimedMutex.
Local Open Scope Z_scope.

Definition allowed (h : hold) (o : op) (p : point) : Prop :=
  match p with
  | at_wgate => h = Entered /\ (o = lock \/ o = try_lock_until)
  | _ => h = required o
  end.

Definition asleep (h : hold) (c : cv) (o : op) (p : point) : Prop :=
  match c, p with
  | rgate, at_rgate =>
      h = Free /\ (o = lock \/ o = try_lock_until \/ o = lock_shared \/ o = try_lock_shared_until)
  | wgate, at_wgate => h = Entered /\ (o = lock \/ o = try_lock_until)
  | _, _ => False
  end.

(** One segment run by [t] in mode [h]: it returns, its word packs the new
    counts, and it ends where a thread of the new mode may be. *)
Definition keeps (hs : gmap tid hold) (t : tid) (h : hold) (o : op) (p : point)
    (r : option (Z * list (notify cv) * exit point cv ret)) : Prop :=
  exists s' ns ex, r = Some (s', ns, ex) /\
    inv s' (<[t := settle gate o p ex h]> hs) /\
    exit_ok allowed asleep (settle gate o p ex h) o ex.

(** Computes a segment on the packed word: the masks act as they should. *)
Ltac on_word Hinv :=
  let Hp := fresh "Hp" in let Hs := fresh "Hs" in
  pose proof Hinv as (Hs & Hp & _); rewrite Hs;
  pose proof (packed_mark _ _ 0 Hp (or_introl eq_refl));
  pose proof (packed_mark _ _ 1 Hp (or_intror eq_refl));
  autorewrite with pack; autorewrite with pack_word.

(** The segment ends with the counts [inv_update] asks for. *)
Ltac ends_with :=
  unfold return_, wait_at; do 3 eexists; split; [reflexivity|];
  split; [simpl; first [match goal with Hs : _ = pack _ _ |- _ => rewrite <- Hs; by eapply inv_same end
                       | eapply inv_update; [eassumption..| | | |]; counts]
         |simpl; auto 10].

Section segments.
Context (W : Z) (HW : 32 <= W) (hs : gmap tid hold) (s : Z) (Hinv : inv s hs) (t : tid).

(** The thread owns the writer mark, or nobody does and it takes it. *)
Definition marking (h : hold) : Prop :=
  hs !! t = Some h /\ (h = Free \/ h = Entered) /\ writers hs - writing h = 0.

Lemma marking_free : hs !! t = Some Free -> writers hs <> 1 -> marking Free /\ writers hs = 0.
Proof.
  intros Ht Hne. destruct Hinv as (_ & [Hb _] & _). unfold marking. simpl.
  split_and!; auto; lia.
Qed.

Lemma marking_entered : hs !! t = Some Entered -> marking Entered /\ writers hs = 1.
Proof.
  intros Ht. destruct Hinv as (_ & [Hb _] & _).
  pose proof (writing_le hs _ _ Ht). unfold marking. simpl in *. split_and!; auto; lia.
Qed.

Lemma lock_wgate_keeps h p :
  marking h -> keeps hs t h lock p (lock_wgate (pack 1 (nreaders hs))).
Proof.
  intros (Ht & Hh & Hw). pose proof Hinv as (_ & Hp & _).
  pose proof (packed_mark _ _ 1 Hp (or_intror eq_refl)).
  unfold lock_wgate. autorewrite with pack.
  destruct (Z.ltb_spec 0 (nreaders hs)); destruct Hh as [-> | ->]; ends_with.
Qed.

Lemma lock_rgate_keeps p : hs !! t = Some Free -> keeps hs t Free lock p (lock_rgate s).
Proof.
  intros Ht. unfold lock_rgate. on_word Hinv.
  destruct (Z.eqb_spec (writers hs) 1) as [|Hne]; [ends_with|].
  destruct (marking_free Ht Hne) as [Hm Hw]. rewrite Hw.
  autorewrite with pack. by apply lock_wgate_keeps.
Qed.

Lemma try_lock_until_wgate_keeps h p b :
  marking h -> keeps hs t h try_lock_until p (try_lock_until_wgate W b (pack 1 (nreaders hs))).
Proof.
  intros (Ht & Hh & Hw). pose proof Hinv as (_ & Hp & _).
  pose proof (packed_mark _ _ 1 Hp (or_intror eq_refl)).
  unfold try_lock_until_wgate. autorewrite with pack.
  destruct (Z.ltb_spec 0 (nreaders hs)), b; simpl; destruct Hh as [-> | ->]; ends_with.
Qed.

Lemma try_lock_until_rgate_keeps p b :
  hs !! t = Some Free -> keeps hs t Free try_lock_until p (try_lock_until_rgate W b s).
Proof.
  intros Ht. unfold try_lock_until_rgate. on_word Hinv.
  destruct (Z.eqb_spec (writers hs) 1) as [|Hne]; simpl; [destruct b; ends_with|].
  destruct (marking_free Ht Hne) as [Hm Hw]. rewrite Hw.
  autorewrite with pack. by apply try_lock_until_wgate_keeps.
Qed.

Lemma unlock_keeps p :
  hs !! t = Some Exclusive -> keeps hs t Exclusive unlock p (unlock_body W s).
Proof.
  intros Ht. destruct (exclusive_counts _ _ Hinv _ Ht).
  unfold unlock_body. on_word Hinv. ends_with.
Qed.

Lemma try_lock_keeps p : hs !! t = Some Free -> keeps hs t Free try_lock p (try_lock_body s).
Proof.
  intros Ht. unfold try_lock_body. on_word Hinv.
  destruct (Z.eqb_spec (writers hs) 0), (Z.eqb_spec (nreaders hs) 0); simpl; ends_with.
Qed.

(** The reader side. *)
Lemma readers_admitted :
  hs !! t = Some Free -> writers hs <> 1 -> nreaders hs <> MASK ->
  inv (wrap_u W (s + 1)) (<[t := Shared]> hs).
Proof.
  intros Ht Hw Hr. pose proof Hinv as (Hs & Hp & _). pose proof Hp as [Hb Hn].
  rewrite Hs, pack_incr by (done || lia).
  eapply inv_update; [done..| | | |]; counts.
Qed.

Lemma no_room_spec :
  no_room s = true <-> (writers hs = 1 \/ nreaders hs = MASK).
Proof. unfold no_room. on_word Hinv. rewrite orb_true_iff. lia. Qed.

Lemma lock_shared_keeps p :
  hs !! t = Some Free -> keeps hs t Free lock_shared p (lock_shared_body W s).
Proof.
  intros Ht. unfold lock_shared_body.
  destruct (no_room s) eqn:Hroom.
  - pose proof Hinv as (Hs & _). rewrite Hs. ends_with.
  - assert (~ (writers hs = 1 \/ nreaders hs = MASK)) by (rewrite <- no_room_spec; congruence).
    do 3 eexists. split; [reflexivity|]. simpl.
    split; [|done]. apply readers_admitted; tauto.
Qed.

Lemma admitted_spec :
  negb (truth (Z.land s WRITER_ENTERED_MASK))
  && negb (Z.land s NUM_READER_MASK =? NUM_READER_MASK) = negb (no_room s).
Proof. unfold no_room. by rewrite negb_orb. Qed.

Lemma try_lock_shared_keeps p :
  hs !! t = Some Free -> keeps hs t Free try_lock_shared p (try_lock_shared_body W s).
Proof.
  intros Ht. unfold try_lock_shared_body. rewrite admitted_spec.
  destruct (no_room s) eqn:Hroom; simpl.
  - pose proof Hinv as (Hs & _). rewrite Hs. ends_with.
  - assert (~ (writers hs = 1 \/ nreaders hs = MASK)) by (rewrite <- no_room_spec; congruence).
    do 3 eexists. split; [reflexivity|]. simpl.
    split; [|done]. apply readers_admitted; tauto.
Qed.

Lemma try_lock_shared_until_keeps p b :
  hs !! t = Some Free ->
  keeps hs t Free try_lock_shared_until p (try_lock_shared_until_body W b s).
Proof.
  intros Ht. unfold try_lock_shared_until_body. rewrite admitted_spec.
  destruct (no_room s) eqn:Hroom; simpl.
  - pose proof Hinv as (Hs & _). rewrite Hs. destruct b; ends_with.
  - assert (~ (writers hs = 1 \/ nreaders hs = MASK)) by (rewrite <- no_room_spec; congruence).
    do 3 eexists. split; [reflexivity|]. simpl.
    split; [|done]. apply readers_admitted; tauto.
Qed.

Lemma shared_counts : hs !! t = Some Shared -> 1 <= nreaders hs.
Proof. intros Ht. pose proof (reading_le hs _ _ Ht). simpl in *. lia. Qed.

Lemma unlock_shared_word :
  hs !! t = Some Shared -> wrap_u W (s - 1) = pack (writers hs) (nreaders hs - 1) /\
  packed (writers hs) (nreaders hs - 1).
Proof.
  intros Ht. pose proof (shared_counts Ht). pose proof Hinv as (Hs & Hp & _).
  rewrite Hs, pack_decr by (done || lia). split; [done|]. counts.
Qed.

Lemma unlock_shared_keeps p :
  hs !! t = Some Shared -> keeps hs t Shared unlock_shared p (unlock_shared_body W s).
Proof.
  intros Ht. destruct (unlock_shared_word Ht) as [Hword Hp].
  assert (inv (pack (writers hs) (nreaders hs - 1)) (<[t := Free]> hs)).
  { eapply inv_update; [done..| | | |]; counts. }
  unfold unlock_shared_body. rewrite Hword.
  autorewrite with pack. autorewrite with pack_word. unfold return_.
  destruct ((writers hs =? 1) && (nreaders hs - 1 =? 0));
    [|destruct (nreaders hs - 1 =? MASK - 1)];
    (do 3 eexists; split; [reflexivity|]; simpl; auto).
Qed.
End segments.

(** ** The class satisfies the interface *)
Section instance.
Context (W : Z) (HW : 32 <= W).

Lemma stm_body_keeps hs s t h o p b :
  inv s hs -> hs !! t = Some h -> allowed h o p -> keeps hs t h o p (body_ W o p b s).
Proof.
  intros Hinv Ht Hal.
  assert (p <> at_wgate -> h = required o) as Hreq by (destruct p; simpl in Hal; tauto).
  destruct (decide (p = at_wgate)) as [->|Hp].
  - destruct Hal as [-> [-> | ->]]; destruct (marking_entered hs s Hinv t Ht) as [Hm Hw];
      pose proof Hinv as (Hs & _); rewrite Hw in Hs; rewrite Hs; simpl;
      [by eapply lock_wgate_keeps|by eapply try_lock_until_wgate_keeps].
  - specialize (Hreq Hp). subst h.
    destruct o, p; simpl in *; try done;
      eauto using lock_rgate_keeps, unlock_keeps, try_lock_keeps, try_lock_until_rgate_keeps,
      lock_shared_keeps, unlock_shared_keeps, try_lock_shared_keeps, try_lock_shared_until_keeps.
Qed.

#[export] Instance shared_timed_mutex : SharedMutex Z point cv := {
  sm_code := the_code W;
  sm_init := init;
  sm_gate := gate;
  sm_inv := inv;
  sm_allowed := allowed;
  sm_asleep := asleep;
}.

#[export] Instance monitor_ok : MonitorOk (the_code W) (callers gate) inv allowed asleep.
Proof.
  split.
  - intros h c o p. destruct c, p; simpl; try tauto.
    intros [-> [-> | [-> | [-> | ->]]]]; done.
  - intros t h s hs o Hinv Ht Hmay. apply bool_decide_eq_true in Hmay as ->.
    do 2 eexists. split; [done|]. split; [done|]. by destruct o.
  - intros t h s hs o p b Hinv Ht Hal. by apply stm_body_keeps.
  - intros t h s hs o p Hinv Ht Hal. by exists s.
Qed.

Lemma inv_start hs : map_Forall (fun _ h => h = Free) hs -> inv init hs.
Proof.
  intros Hhs. unfold inv.
  rewrite (sumz_zero writing), (sumz_zero reading) by (by intros k h ->%Hhs).
  split_and!; [done|unfold packed, MASK; lia|done].
Qed.

(** How a segment of a writer that has entered can end. *)
Lemma entered_ends o p r :
  allowed Entered o p -> after o r = Exclusive \/ after o r = Free.
Proof. destruct p; simpl; [by destruct o..|]. intros [_ [-> | ->]]; destruct r as [|[]]; auto. Qed.

Lemma wait_required h o p b s s' ns c timed p' :
  allowed h o p -> body_ W o p b s = Some (s', ns, Wait c timed p') -> required o = Free.
Proof.
  destruct o; try done; simpl; intros _.
  unfold unlock_shared_body, return_. by repeat case_match.
Qed.

#[export] Instance shared_timed_mutex_laws : SharedMutexLaws Z point cv.
Proof.
  split.
  - apply monitor_ok.
  - apply inv_start.
  - intros s hs. apply inv_sole.
  - intros h o p. destruct p; simpl; [by left..|]. intros [-> [-> | ->]]; by right.
  - intros h o p b s s' ns ex Hal Hb.
    destruct ex as [c tm p'|p'|nts [r|p']|p']; try done.
    + exact (wait_required _ _ _ _ _ _ _ _ _ _ Hal Hb).
    + intros ->. exact (entered_ends _ _ r Hal).
Qed.
End instance.

(** ** No waiter is forgotten *)
Section waiting.
Context (W : Z) (HW : 32 <= W).

(** Why a waiter would wait again: a writer has entered, there is no room
    for a reader, readers are left. *)
Definition blocked (c : cv) (o : op) (_ : point) (s : Z) : Prop :=
  match c, o with
  | wgate, _ => truth (Z.land s NUM_READER_MASK) = true
  | rgate, (lock_shared | try_lock_shared_until) => no_room s = true
  | rgate, _ => truth (Z.land s WRITER_ENTERED_MASK) = true
  end.

Lemma stm_few_readers s hs : with_dom inv few s hs -> nreaders hs < MASK.
Proof. intros [Hi Hf]. by eapply (SharedMutexBits.few_readers s). Qed.

Lemma stm_blocked_counts c o p s hs :
  with_dom inv few s hs ->
  blocked c o p s <-> match c with rgate => writers hs = 1 | wgate => 0 < nreaders hs end.
Proof.
  intros Hi. pose proof (stm_few_readers _ _ Hi) as Hfew. destruct Hi as [Hinv _].
  pose proof (no_room_spec hs s Hinv) as Hroom.
  assert (truth (Z.land s WRITER_ENTERED_MASK) = true <-> writers hs = 1) as Hmark.
  { on_word Hinv. lia. }
  destruct c; [destruct o; simpl; rewrite ?Hmark, ?Hroom; lia|].
  simpl. on_word Hinv. lia.
Qed.

(** Whoever takes the writer mark away announces it at [rgate]. *)
Lemma mark_dropped h o p b s s' ns ex :
  allowed h o p -> body_ W o p b s = Some (s', ns, ex) ->
  writing h = 1 -> writing (settle gate o p ex h) = 0 ->
  NotifyAll rgate ∈ ns ++ posts ex.
Proof.
  intros Hal Hb Hh Hh'.
  destruct (decide (p = at_wgate)) as [->|Hp].
  - destruct Hal as [-> [-> | ->]]; simpl in Hb; revert Hb;
      unfold lock_wgate, try_lock_until_wgate, return_, wait_at;
      repeat case_match; intros; simplify_eq/=; set_solver.
  - assert (h = required o) as -> by (destruct p; simpl in Hal; tauto).
    destruct o; try done. simpl in Hb. unfold unlock_body, return_ in Hb.
    simplify_eq/=. set_solver.
Qed.

(** The last reader to leave wakes the writer that has entered. *)
Lemma last_reader s hs t p b s' ns ex :
  inv s hs -> hs !! t = Some Shared -> writers hs = 1 -> nreaders hs = 1 ->
  body_ W unlock_shared p b s = Some (s', ns, ex) -> NotifyOne wgate ∈ ns ++ posts ex.
Proof.
  intros Hinv Ht Hw Hn. simpl. destruct (unlock_shared_word W HW hs s Hinv t Ht) as [Hword Hp].
  unfold unlock_shared_body. rewrite Hword. autorewrite with pack. autorewrite with pack_word.
  rewrite Hw, Hn. simpl. intros [= <- <- <-]. simpl. set_solver.
Qed.

Lemma allowed_reader h o p : allowed h o p -> reading h = 1 -> h = Shared /\ o = unlock_shared.
Proof. destruct p; simpl; [intros ->; by destruct o..|]. by intros [-> _]. Qed.

#[export] Instance notify_ok :
  NotifyOk (the_code W) (callers gate) (with_dom inv few) allowed asleep blocked gate.
Proof.
  split.
  - intros t h s hs o s' en t' h' c o' p' _ _ _ [= <- <-]. done.
  - intros t h s hs o p s' t' h' c o' p' _ _ _ [= <-]. done.
  - intros t h s hs o p b s' ns ex t' h' c o' p' Hi Ht Hal Hb Hne Ht' Hsl Hbl.
    destruct (monitor_ok_with_dom _ _ _ few _ _ (monitor_ok W HW)) as [_ _ Hbody _].
    destruct (Hbody t h s hs o p b Hi Ht Hal) as (s1 & ns1 & ex1 & Hb1 & Hi1 & _).
    rewrite Hb in Hb1. injection Hb1 as <- <- <-. simpl in Hi1.
    rewrite (stm_blocked_counts _ _ _ _ _ Hi) in Hbl.
    rewrite (stm_blocked_counts _ _ _ _ _ Hi1).
    rewrite !(sumz_insert _ hs t h _) by done.
    pose proof (writing_nonneg h). pose proof (writing_nonneg (settle gate o p ex h)).
    pose proof (reading_nonneg h). pose proof (reading_nonneg (settle gate o p ex h)).
    destruct c.
    + pose proof (writing_le hs _ _ Ht).
      destruct (decide (writing h = 1 /\ writing (settle gate o p ex h) = 0)) as [[Hone Hzero]|].
      { right. left. exact (mark_dropped _ _ _ _ _ _ _ _ Hal Hb Hone Hzero). }
      left. destruct Hi1 as [(_ & [Hb1 _] & _) _].
      rewrite (sumz_insert _ hs t h _) in Hb1 by done. lia.
    + destruct (decide (nreaders hs - reading h + reading (settle gate o p ex h) = 0));
        [|left; pose proof (reading_le hs _ _ Ht); lia].
      right. right. split; [done|].
      destruct (allowed_reader h o p Hal) as [-> ->]; [lia|].
      destruct p'; simpl in Hsl; try done. destruct Hsl as [-> _].
      destruct Hi as [Hinv _].
      apply (last_reader s hs t p b s' ns ex Hinv Ht); [| |exact Hb].
      * destruct (marking_entered hs s Hinv t' Ht') as [_ Hw]. done.
      * simpl in *. lia.
  - intros t h s hs o p b s' ns c timed p' _ _ _ Hb. simpl in Hb.
    destruct o, p; simpl in Hb; revert Hb;
      unfold lock_rgate, lock_wgate, try_lock_until_rgate, try_lock_until_wgate,
      lock_shared_body, try_lock_shared_until_body, unlock_shared_body, try_lock_shared_body,
      try_lock_body, return_, wait_at; try rewrite admitted_spec;
      repeat case_match; intros; simplify_eq/=; try done; by apply negb_false_iff.
  - intros s hs c t1 t2 h1 h2 o1 o2 p1 p2 [Hinv _] Hsolo H1 H2 Hs1 Hs2.
    destruct c; [done|]. destruct p1, p2; simpl in *; try done.
    destruct Hs1 as [-> _], Hs2 as [-> _]. by eapply (writer_unique s hs Hinv).
Qed.
End waiting.
