(* ===== verification/SharedTimedMutexProps.v ===== *)
(** * SharedTimedMutex: the properties

    What the class promises to its clients, in every interleaving of any
    number of threads that keep to the contract of [RWLock]. *)

From S2P Require Import Prelude Machine Monitor MonitorTheory MonitorDrain RWLock.
From S2P Require Import SharedMutex SharedMutexBits SharedTimedMutexProofs.

Import RW SharedTimedMutex.
Local Open Scope Z_scope.

(** The machine of the class: [W]-bit words, clients [hs]. *)
Abbreviation stm_step W := (step (the_code W) (callers gate)).
Abbreviation stm_start hs := (start init hs).

(** Each method makes at most one notification. *)
Definition leaving : account Z op point hold := one_segment 1.

Section helpers.
Context (W : Z) (HW : 32 <= W).

Lemma stm_reachable_inv hs es m :
  idle_clients hs -> run (stm_step W) (stm_start hs) es = Some m ->
  monitor_inv inv allowed asleep m.
Proof.
  intros Hhs Hrun%run_steps. pose proof (monitor_ok W HW) as Hok.
  eapply monitor_invariant; [exact Hok|by apply inv_start|done].
Qed.

(** A thread that owns nothing gains nothing while a writer has entered. *)
Lemma free_stays hs t o p b s s' ns ex :
  inv s hs -> hs !! t = Some Free -> writers hs = 1 -> allowed Free o p ->
  body_ W o p b s = Some (s', ns, ex) -> settle gate o p ex Free = Free.
Proof.
  intros Hinv Ht Hw Hal Hb.
  destruct (stm_body_keeps W HW hs s t Free o p b Hinv Ht Hal) as (s1 & ns1 & ex1 & Hb1 & Hi1 & _).
  rewrite Hb in Hb1. injection Hb1 as <- <- <-.
  destruct Hi1 as (_ & [Hb1 _] & _). rewrite (sumz_insert _ hs t Free _), Hw in Hb1 by done.
  assert (no_room s = true) as Hroom by (rewrite (no_room_spec hs s Hinv); by left).
  destruct (settle gate o p ex Free) eqn:Hset; simpl in Hb1; try done; try lia.
  exfalso. destruct o, p; simpl in Hal; try done; try (by destruct Hal); simpl in Hb; revert Hb;
    unfold lock_rgate, lock_wgate, try_lock_body, try_lock_until_rgate, try_lock_until_wgate,
    lock_shared_body, try_lock_shared_body, try_lock_shared_until_body, return_, wait_at;
    rewrite ?admitted_spec, ?Hroom; simpl; repeat case_match; intros; simplify_eq/=.
Qed.

(** No method of the class notifies before it waits or locks the mutex twice. *)
#[export] Instance stm_leaves_once I : LeavesOnce (the_code W) I allowed 1.
Proof.
  intros t h s hs o p b s' ns ex _ _ _ Hb. destruct o, p; simpl in Hb; revert Hb;
    unfold lock_rgate, lock_wgate, try_lock_body, try_lock_until_rgate, try_lock_until_wgate,
    unlock_body, unlock_shared_body, lock_shared_body, try_lock_shared_body,
    try_lock_shared_until_body, return_, wait_at;
    repeat case_match; intros; simplify_eq/=; try done; lia.
Qed.

Section quiet.
Context (hs : gmap tid hold) (m : state Z op point cv ret hold).
Context (Hhs : idle_clients hs) (Hfew : few (dom hs)).
Context (Hrun : steps (stm_step W) (stm_start hs) m).

Lemma stm_attended : attended blocked gate m.
Proof.
  pose proof (monitor_ok_with_dom _ _ _ few _ _ (monitor_ok W HW)) as Hok.
  pose proof (notify_ok W HW) as Hnok.
  apply (no_lost_wakeup (the_code W) (callers gate) (with_dom inv few) allowed asleep
    blocked gate init hs m); [split; [by apply inv_start|done]|done].
Qed.

Lemma stm_counts : with_dom inv few (shared m) (modes m).
Proof.
  pose proof (monitor_ok_with_dom _ _ _ few _ _ (monitor_ok W HW)) as Hok.
  apply (safe_invariant (the_code W) (callers gate) (with_dom inv few) allowed asleep init hs m);
    [split; [by apply inv_start|done]|done].
Qed.

(** A thread that has left the class is not marked as entered, *)
Lemma stm_rests : all_rest (fun h => h <> Entered) (fun _ => True) m.
Proof.
  pose proof (monitor_ok W HW) as Hok.
  eapply (always_rests (the_code W) (callers gate) inv allowed asleep); [|by apply inv_start| |exact Hrun].
  - intros t1 h s hs1 o p b s' ns ns' k HI1 Ht1 Hal1 Hb. split; [|by apply Forall_true].
    pose proof (leaves_once _ _ _ _ t1 h s hs1 o p b s' ns _ HI1 Ht1 Hal1 Hb).
    destruct k as [r|p']; [by destruct o, r as [|[]]|done].
  - by intros t1 h ->%Hhs.
Qed.

(** so the writer that has entered is asleep at [wgate] when all activity has
    ended. *)
Lemma entered_waits t :
  quiescent m = true -> modes m !! t = Some Entered ->
  exists th timed o p, threads m !! t = Some th /\ at_pc th = Waiting wgate timed o p.
Proof.
  intros Hq Ht. pose proof (monitor_ok W HW) as Hok. pose proof stm_rests as Hrest.
  destruct (monitor_invariant (the_code W) (callers gate) inv allowed asleep init hs m (inv_start hs Hhs) Hrun) as [_ Hpcs].
  apply modes_lookup_inv in Ht as (th & Hth & Hmode).
  pose proof (quiescent_still _ _ _ Hq Hth) as Hs. pose proof (Hrest _ _ Hth) as Hr.
  pose proof (Hpcs _ _ Hth) as Hp. unfold rests in Hr. destruct (at_pc th) eqn:Hpc; try done.
  destruct c; [|by do 4 eexists]. simpl in Hp. destruct p; try done.
  destruct Hp as [Hfree _]. congruence.
Qed.

(** Once all activity has ended, threads sleep only while some thread owns
    the mutex. *)
Lemma sleeps_in_use t th c timed o p :
  quiescent m = true -> threads m !! t = Some th -> at_pc th = Waiting c timed o p ->
  in_use (modes m).
Proof.
  intros Hq Ht Hpc.
  assert (Hsleeps : forall t th c timed o p, threads m !! t = Some th ->
    at_pc th = Waiting c timed o p -> blocked c o p (shared m)).
  { intros t1 th1 c1 tm1 o1 p1 Ht1 Hpc1.
    destruct (stm_attended _ _ _ _ _ _ Ht1 Hpc1) as [|Hpost]; [done|].
    by destruct (quiescent_unposted _ _ _ Hq Hpost). }
  pose proof (Hsleeps _ _ _ _ _ _ Ht Hpc) as Hbl.
  rewrite (stm_blocked_counts _ _ _ _ _ stm_counts) in Hbl. destruct c; [|by apply readers_in_use].
  destruct (writers_in_use (modes m)) as [|[t' Ht']]; [lia|done|].
  destruct (entered_waits t' Hq Ht') as (th' & timed' & o' & p' & Hth' & Hpc').
  pose proof (Hsleeps _ _ _ _ _ _ Hth' Hpc') as Hbl'.
  rewrite (stm_blocked_counts _ _ _ _ _ stm_counts) in Hbl'. by apply readers_in_use.
Qed.
End quiet.
End helpers.

(** C2: mutual exclusion. In every reachable state of every interleaving, a
    thread that owns the mutex exclusively is the only owner: no other thread
    owns it exclusively or shared. *)
Theorem stm_exclusion W hs es m t1 t2 h2 :
  32 <= W -> idle_clients hs -> run (stm_step W) (stm_start hs) es = Some m ->
  modes m !! t1 = Some Exclusive -> modes m !! t2 = Some h2 ->
  h2 = Exclusive \/ h2 = Shared -> t1 = t2.
Proof.
  intros HW Hhs Hrun. destruct (stm_reachable_inv W HW _ _ _ Hhs Hrun) as [Hinv _].
  by apply (inv_sole _ _ Hinv).
Qed.

(** C12: the packed word is exact. In every reachable state the word is
    [2^31 * w + r], where [r] is the number of shared owners and [w] is 1 when
    a thread owns the mutex exclusively or has entered as the writer, and 0
    otherwise; the reader count stays within its 31 bits and never wraps. *)
Theorem stm_word W hs es m :
  32 <= W -> idle_clients hs -> run (stm_step W) (stm_start hs) es = Some m ->
  shared m = 2147483648 * sumz writing (modes m) + sumz reading (modes m) /\
  0 <= sumz writing (modes m) <= 1 /\ 0 <= sumz reading (modes m) <= 2147483647.
Proof.
  intros HW Hhs Hrun. destruct (stm_reachable_inv W HW _ _ _ Hhs Hrun) as [(Hs & Hp & _) _].
  unfold packed, pack, MASK in *. lia.
Qed.

(** C1: refinement. The sequence of acquisitions and releases of any run is a
    run of the abstract readers-writer lock of [RWLock] (a writer enters an
    unowned lock, readers enter a lock without writer, only owners leave), and
    the abstract owners are the concrete ones. *)
Theorem stm_refines_rwlock W hs es m :
  32 <= W -> idle_clients hs -> run (stm_step W) (stm_start hs) es = Some m ->
  exists a,
    run spec_step (mkSpec None ∅)
      (labels (stm_step W) (sm_label (SharedMutex0 := shared_timed_mutex W)) (stm_start hs) es) = Some a /\
    (forall t, writer a = Some t <-> modes m !! t = Some Exclusive) /\
    (forall t, t ∈ readers a <-> modes m !! t = Some Shared).
Proof.
  intros HW Hhs Hrun.
  destruct (refines (SharedMutexLaws0 := shared_timed_mutex_laws W HW) hs es m Hhs Hrun)
    as (a & Ha & _ & Hown).
  by exists a.
Qed.

(** C3: no lost wake-up. With fewer than [2^31 - 1] threads, in every reachable
    state a thread asleep at [rgate] or [wgate] either still has a reason to
    wait (a writer has entered; readers are left) or some thread is about to
    make a notification that reaches it. So once all activity has ended,
    threads sleep only while some thread owns the mutex. *)
Theorem stm_no_lost_wakeup W hs es m t th c timed o p :
  32 <= W -> idle_clients hs -> few (dom hs) ->
  run (stm_step W) (stm_start hs) es = Some m ->
  threads m !! t = Some th -> at_pc th = Waiting c timed o p ->
  (blocked c o p (shared m) \/ posted gate m c) /\
  (quiescent m = true -> in_use (modes m)).
Proof.
  intros HW Hhs Hfew Hrun%run_steps Ht Hpc.
  split; [by apply (stm_attended W HW hs m Hhs Hfew Hrun _ _ _ _ _ _ Ht Hpc)|].
  intros Hq. by apply (sleeps_in_use W HW hs m Hhs Hfew Hrun t th c timed o p).
Qed.

(** C4: the mutex comes to rest. From any reachable state, a schedule without
    further calls, timeouts and spurious wake-ups is never longer than [work]
    (a number that depends on the state alone); and where it stops, a thread
    can still move, or every thread has returned or is asleep at a gate, with
    a reason to wait there, while some thread owns the mutex. So no thread is
    stuck on the inner mutex or inside a critical section: there is no
    deadlock and no livelock. *)
Theorem stm_settles W hs es m es' m' :
  32 <= W -> idle_clients hs -> few (dom hs) ->
  run (stm_step W) (stm_start hs) es = Some m ->
  Forall (fun e => internal leaving e = true) es' -> run (stm_step W) m es' = Some m' ->
  Z.of_nat (length es') <= work leaving m /\
  ((exists e m'', internal leaving e = true /\ stm_step W m' e = Some m'') \/
   forall t th, threads m' !! t = Some th ->
     match at_pc th with
     | Idle _ => True
     | Waiting c _ o p => blocked c o p (shared m') /\ in_use (modes m')
     | _ => False
     end).
Proof.
  intros HW Hhs Hfew Hrun Hint Hrun'.
  pose proof (monitor_ok W HW) as Hok. pose proof (stm_leaves_once W inv) as Honce.
  pose proof (once_orderly _ _ _ _ _ 1 init hs es m (inv_start hs Hhs) Hrun) as Hord.
  destruct (once_settled _ _ _ _ _ 1 m es' m' Hord Hint Hrun') as [Hl [Hq|Hmore]];
    (split; [done|]); [right|by left]. intros t th Ht.
  pose proof (quiescent_still _ _ _ Hq Ht) as Hstill.
  assert (steps (stm_step W) (stm_start hs) m') as Hall by (eapply steps_trans; by eapply run_steps).
  destruct (at_pc th) as [r| | | |c timed o p|] eqn:Hpc; try done.
  split; [|by apply (sleeps_in_use W HW hs m' Hhs Hfew) with t th c timed o p].
  destruct (stm_attended W HW hs m' Hhs Hfew Hall _ _ _ _ _ _ Ht Hpc) as [|Hpost]; [done|].
  by destruct (quiescent_unposted _ _ _ Hq Hpost).
Qed.

(** While a writer has entered, no step gives ownership, or the writer mark,
    to a thread that owns nothing. *)
Lemma writer_not_overtaken W hs es m e m' t t' :
  32 <= W -> idle_clients hs -> run (stm_step W) (stm_start hs) es = Some m ->
  modes m !! t = Some Entered -> stm_step W m e = Some m' ->
  modes m !! t' = Some Free -> modes m' !! t' = Some Free.
Proof.
  intros HW Hhs Hrun Ht Hstep Ht'.
  destruct (stm_reachable_inv W HW _ _ _ Hhs Hrun) as [Hinv Hpcs].
  destruct (step_modes _ _ _ _ _ Hstep) as [e Hm'|t1 picks th o p b s ns ex Ht1 Hpc Hb Hm'];
    rewrite Hm'; [done|].
  destruct (decide (t1 = t')) as [->|Hne]; [|by rewrite lookup_insert_ne].
  rewrite lookup_insert_eq. f_equal.
  pose proof (modes_lookup _ _ _ Ht1) as Hth. rewrite Ht' in Hth. injection Hth as Hth.
  pose proof (Hpcs _ _ Ht1) as Hok. rewrite Hpc, <- Hth in Hok. rewrite <- Hth.
  destruct (marking_entered _ _ Hinv _ Ht) as [_ Hw].
  by eapply (free_stays W HW (modes m) t' o p b).
Qed.

(** When no reader is left, the segment of a writer woken at [wgate] ends with
    exclusive ownership. *)
Lemma writer_admitted W hs es m t th o b picks m' :
  32 <= W -> idle_clients hs -> run (stm_step W) (stm_start hs) es = Some m ->
  threads m !! t = Some th -> at_pc th = Running o at_wgate b ->
  sumz reading (modes m) = 0 -> stm_step W m (Exec t picks) = Some m' ->
  modes m' !! t = Some Exclusive.
Proof.
  intros HW Hhs Hrun Ht Hpc Hn Hstep.
  destruct (stm_reachable_inv W HW _ _ _ Hhs Hrun) as [Hinv Hpcs].
  pose proof (Hpcs _ _ Ht) as Hok. rewrite Hpc in Hok. destruct Hok as [Hmode Ho].
  simpl in Hstep. rewrite Ht in Hstep. simpl in Hstep. unfold step_exec in Hstep.
  rewrite Hpc in Hstep. pose proof Hinv as (Hs & Hp & _).
  assert (truth (Z.land (shared m) NUM_READER_MASK) = false) as Hnone.
  { on_word Hinv. by rewrite Hn. }
  assert (exists s, body (the_code W) o at_wgate b (shared m) = Some (s, [], Leave [] (Return (if decide (o = lock) then Void else Bool true)))) as [s Hb].
  { destruct Ho as [-> | ->]; simpl; unfold lock_wgate, try_lock_until_wgate; rewrite Hnone;
      by eexists. }
  rewrite Hb in Hstep. simpl in Hstep. injection Hstep as <-.
  unfold modes. simpl. rewrite lookup_fmap, lookup_insert_eq. simpl.
  by destruct Ho as [-> | ->].
Qed.

(** Writers are not starved. While a writer has entered, no step gives
    ownership (or the writer mark) to a thread that owns nothing, so the
    readers it waits for can only become fewer; and once none is left, the
    segment of the writer, woken at [wgate] by a notification, a spurious
    wake-up or a timeout, ends with exclusive ownership. *)
Theorem stm_writer_not_starved W hs es m t :
  32 <= W -> idle_clients hs -> run (stm_step W) (stm_start hs) es = Some m ->
  modes m !! t = Some Entered ->
  (forall e m' t', stm_step W m e = Some m' ->
    modes m !! t' = Some Free -> modes m' !! t' = Some Free) /\
  (forall th o b picks m', threads m !! t = Some th -> at_pc th = Running o at_wgate b ->
    sumz reading (modes m) = 0 -> stm_step W m (Exec t picks) = Some m' ->
    modes m' !! t = Some Exclusive).
Proof.
  intros HW Hhs Hrun Ht. split.
  - intros e m' t' Hstep Ht'. by apply (writer_not_overtaken W hs es m e m' t t').
  - intros th o b picks m' Hth Hpc Hn Hstep. by apply (writer_admitted W hs es m t th o b picks m').
Qed.

(** ** A concrete interleaving

    Thread 0 reads, thread 1 enters as the writer and waits at [wgate],
    thread 2 waits at [rgate]; then 0 leaves and 1 is let in. *)
Definition clients : gmap tid hold := {[ 0%nat := Free; 1%nat := Free; 2%nat := Free ]}.

Definition queue_up : list (event op) :=
  [Invoke 0%nat lock_shared; Acquire 0%nat; Exec 0%nat []; Finish 0%nat;
   Invoke 1%nat lock; Acquire 1%nat; Exec 1%nat [];
   Invoke 2%nat lock_shared; Acquire 2%nat; Exec 2%nat []].

Definition hand_over : list (event op) :=
  queue_up ++ [Invoke 0%nat unlock_shared; Acquire 0%nat; Exec 0%nat [];
               Notify 0%nat (Some 1%nat); Finish 0%nat; Acquire 1%nat].

Definition written : list (event op) := hand_over ++ [Exec 1%nat []; Finish 1%nat].

Lemma clients_idle : idle_clients clients.
Proof. unfold idle_clients. apply (bool_decide_eq_true_1 _). vm_compute. reflexivity. Qed.

Lemma clients_few : few (dom clients).
Proof. by vm_compute. Qed.

Lemma stm_exclusion_witness :
  exists m, run (stm_step 64) (stm_start clients) written = Some m /\
    modes m !! 1%nat = Some Exclusive /\
    forall t2 h2, modes m !! t2 = Some h2 -> h2 = Exclusive \/ h2 = Shared -> 1%nat = t2.
Proof.
  eexists. split; [vm_compute; reflexivity|]. split; [vm_compute; reflexivity|].
  intros t2 h2. apply (stm_exclusion 64 clients written);
    [lia|apply clients_idle|vm_compute; reflexivity|vm_compute; reflexivity].
Defined.

Lemma stm_word_witness :
  exists m, run (stm_step 32) (stm_start clients) queue_up = Some m /\
    shared m = 2147483649 /\
    shared m = 2147483648 * sumz writing (modes m) + sumz reading (modes m).
Proof.
  eexists. split; [vm_compute; reflexivity|]. split; [vm_compute; reflexivity|].
  apply (stm_word 32 clients queue_up); [lia|apply clients_idle|vm_compute; reflexivity].
Defined.

Lemma stm_refines_rwlock_witness :
  exists m, run (stm_step 64) (stm_start clients) written = Some m /\
    exists a, run spec_step (mkSpec None ∅) [AcquireS 0%nat; ReleaseS 0%nat; AcquireX 1%nat] = Some a /\
    (forall t, writer a = Some t <-> modes m !! t = Some Exclusive).
Proof.
  eexists. split; [vm_compute; reflexivity|].
  destruct (stm_refines_rwlock 64 clients written _ ltac:(lia) clients_idle
    ltac:(vm_compute; reflexivity)) as (a & Ha & Hw & _).
  exists a. split; [|exact Hw]. rewrite <- Ha. vm_compute. reflexivity.
Defined.

Lemma stm_no_lost_wakeup_witness :
  exists m th, run (stm_step 64) (stm_start clients) queue_up = Some m /\
    threads m !! 2%nat = Some th /\ at_pc th = Waiting rgate false lock_shared at_rgate /\
    (blocked rgate lock_shared at_rgate (shared m) \/ posted gate m rgate) /\
    (quiescent m = true -> in_use (modes m)).
Proof.
  eexists _, _. split; [vm_compute; reflexivity|].
  split; [vm_compute; reflexivity|]. split; [vm_compute; reflexivity|].
  eapply (stm_no_lost_wakeup 64 clients queue_up _ 2%nat);
    [lia|apply clients_idle|apply clients_few|vm_compute; reflexivity
    |vm_compute; reflexivity|vm_compute; reflexivity].
Defined.

(** The writer leaves; the reader that waited at [rgate] gets in. *)
Definition leave : list (event op) := [Invoke 1%nat unlock; Acquire 1%nat; Exec 1%nat []].
Definition settle_down : list (event op) :=
  [Notify 1%nat None; Finish 1%nat; Acquire 2%nat; Exec 2%nat []; Finish 2%nat].

Lemma stm_settles_witness :
  exists m m', run (stm_step 64) (stm_start clients) (written ++ leave) = Some m /\
    run (stm_step 64) m settle_down = Some m' /\ work leaving m = 25 /\
    Z.of_nat (length settle_down) <= work leaving m /\
    ((exists e m'', internal leaving e = true /\ stm_step 64 m' e = Some m'') \/
     forall t th, threads m' !! t = Some th ->
       match at_pc th with
       | Idle _ => True
       | Waiting c _ o p => blocked c o p (shared m') /\ in_use (modes m')
       | _ => False
       end).
Proof.
  eexists _, _. split; [vm_compute; reflexivity|]. split; [vm_compute; reflexivity|].
  split; [vm_compute; reflexivity|].
  eapply (stm_settles 64 clients (written ++ leave) _ settle_down);
    [lia|apply clients_idle|apply clients_few|vm_compute; reflexivity
    |repeat constructor|vm_compute; reflexivity].
Defined.

Lemma stm_writer_not_starved_witness :
  (exists m m', run (stm_step 64) (stm_start clients) (queue_up ++ [Spurious 2%nat; Acquire 2%nat]) = Some m /\
    modes m !! 1%nat = Some Entered /\ stm_step 64 m (Exec 2%nat []) = Some m' /\
    modes m' !! 2%nat = Some Free) /\
  (exists m m', run (stm_step 64) (stm_start clients) hand_over = Some m /\
    sumz reading (modes m) = 0 /\ stm_step 64 m (Exec 1%nat []) = Some m' /\
    modes m' !! 1%nat = Some Exclusive).
Proof.
  split.
  - eexists _, _. split; [vm_compute; reflexivity|].
    split; [vm_compute; reflexivity|]. split; [vm_compute; reflexivity|].
    destruct (stm_writer_not_starved 64 clients (queue_up ++ [Spurious 2%nat; Acquire 2%nat]) _ 1%nat
      ltac:(lia) clients_idle ltac:(vm_compute; reflexivity) ltac:(vm_compute; reflexivity)) as [Hno _].
    eapply (Hno (Exec 2%nat []) _ 2%nat); vm_compute; reflexivity.
  - eexists _, _. split; [vm_compute; reflexivity|].
    split; [vm_compute; reflexivity|]. split; [vm_compute; reflexivity|].
    destruct (stm_writer_not_starved 64 clients hand_over _ 1%nat
      ltac:(lia) clients_idle ltac:(vm_compute; reflexivity) ltac:(vm_compute; reflexivity)) as [_ Hin].
    eapply (Hin _ lock false []); vm_compute; reflexivity.
Defined.
