(* ===== verification/SharedMutexFair.v ===== *)
(** * SharedTimedMutex under a fair scheduler: a writer that has entered owns

    Owners unlock in the end, and whoever can move moves.  While a writer has
    entered, nobody else gains anything, so the readers become fewer; the last
    one notifies the writer, which then owns the mutex. *)

From S2P Require Import Prelude Machine Fairness Monitor MonitorTheory MonitorDrain MonitorFair RWLock.
From S2P Require Import SharedMutex SharedMutexBits SharedTimedMutexProofs SharedTimedMutexProps.

Import RW SharedTimedMutex.
Local Open Scope Z_scope.

Abbreviation mutex_state := (state Z op point cv ret hold).

(** Owners call again: by the contract, their unlock. *)
Definition owners_call (_ : mutex_state) (_ : tid) (h : hold) : bool :=
  match h with Shared | Exclusive => true | _ => false end.

(** [try_lock_until] is about to return false. *)
Definition gave_up (t : tid) (m : mutex_state) : Prop :=
  exists th ns, threads m !! t = Some th /\ at_pc th = Posting ns try_lock_until (Return (Bool false)).

Section fair.
Context (W : Z) (HW : 32 <= W).
Implicit Types (m : mutex_state) (e : event op) (t u : tid).

Abbreviation mutex_step := (stm_step W).
Abbreviation ok := (monitor_inv inv allowed asleep).

(** ** One event *)

(** What can happen to a writer that has entered. *)
Lemma entered_step m e m' t :
  ok m -> modes m !! t = Some Entered -> mutex_step m e = Some m' ->
  nreaders (modes m') <= nreaders (modes m) /\
  (forall u, modes m !! u = Some Free -> modes m' !! u = Some Free) /\
  (modes m' !! t = Some Entered \/ modes m' !! t = Some Exclusive \/ gave_up t m').
Proof.
  intros [Hinv Hpcs] Ht Hstep. destruct (marking_entered _ _ Hinv _ Ht) as [_ Hw].
  destruct (step_modes _ _ _ _ _ Hstep) as [e Hm'|t1 picks th o p b s ns ex Ht1 Hpc Hb Hm']; rewrite Hm'.
  { split_and!; [lia|done|by left]. }
  pose proof (Hpcs _ _ Ht1) as Hok. rewrite Hpc in Hok. simpl in Hok. pose proof (modes_lookup _ _ _ Ht1) as Hm1.
  destruct (decide (t1 = t)) as [->|Hne].
  - rewrite Ht in Hm1. injection Hm1 as Hm1. rewrite <- Hm1 in *. rewrite !(sumz_insert _ _ t Entered) by done.
    destruct p; simpl in Hok; try (by destruct o). destruct Hok as [_ Ho].
    rewrite lookup_insert_eq.
    assert (forall u h, modes m !! u = Some Free -> <[t := h]> (modes m) !! u = Some Free) as Hother.
    { intros u h Hu. rewrite lookup_insert_ne; [done|]. intros ->. congruence. }
    simpl in Hstep. rewrite Ht1 in Hstep. simpl in Hstep. unfold step_exec in Hstep. rewrite Hpc, Hb in Hstep.
    simpl in Hstep. destruct (deliver_all ns picks (threads m)) as [ths|]; simpl in Hstep; [|done].
    injection Hstep as <-. simpl in Hb.
    destruct Ho as [-> | ->]; simpl in Hb; unfold lock_wgate, try_lock_until_wgate, wait_at, return_ in Hb;
      repeat case_match; simplify_eq/=; split_and!; eauto; try lia.
    right. right. eexists. eexists. simpl. by rewrite lookup_insert_eq.
  - rewrite lookup_insert_ne by done.
    assert (forall h', (mode th = Free -> h' = Free) -> reading h' <= reading (mode th) ->
      nreaders (<[t1 := h']> (modes m)) <= nreaders (modes m) /\
      (forall u, modes m !! u = Some Free -> <[t1 := h']> (modes m) !! u = Some Free)) as Hframe.
    { intros h' Hfree Hr. rewrite (sumz_insert _ _ t1 (mode th)) by done. split; [lia|]. intros u Hu.
      destruct (decide (u = t1)) as [->|]; [|by rewrite lookup_insert_ne].
      rewrite lookup_insert_eq. f_equal. apply Hfree. congruence. }
    assert (mode th = Free \/ mode th = Shared) as Hcase.
    { pose proof (writer_unique _ _ Hinv t1 t _ _ Hm1 Ht) as Huniq. simpl in Huniq.
      destruct (mode th); [by left|by right|..]; by destruct (Hne (Huniq eq_refl eq_refl)). }
    destruct Hcase as [Hh|Hh]; rewrite Hh in *.
    + pose proof (free_stays W HW (modes m) t1 o p b _ _ _ _ Hinv Hm1 Hw Hok Hb) as Hset.
      simpl. rewrite Hset. destruct (Hframe Free) as [? ?]; [done|done|]. split_and!; [done|done|by left].
    + destruct (Hframe (settle gate o p ex Shared)) as [? ?]; [done| |split_and!; [done|done|by left]].
      destruct (settle gate o p ex Shared); simpl; lia.
Qed.

(** An own event of a reader: it has left, or is nearer to leaving. *)
Lemma reader_step m e m' u th :
  ok m -> threads m !! u = Some th -> mode th = Shared -> actor e = u -> mutex_step m e = Some m' ->
  nreaders (modes m') < nreaders (modes m) \/
  exists th', threads m' !! u = Some th' /\ mode th' = Shared /\ (way_out (at_pc th') < way_out (at_pc th))%nat.
Proof.
  intros [Hinv Hpcs] Hu Hm Ha Hstep. pose proof (Hpcs _ _ Hu) as Hok. rewrite Hm in Hok.
  assert ((exists picks, e = Exec u picks) \/ forall picks, e <> Exec u picks) as [[picks ->]|Hne].
  { destruct e; try (right; intros; discriminate). simpl in Ha. subst. left. by eexists. }
  - left. simpl in Hstep. rewrite Hu in Hstep. simpl in Hstep. unfold step_exec in Hstep.
    destruct (at_pc th) as [| | |o p b| |]; try done. simpl in Hok.
    assert (o = unlock_shared) as -> by (destruct p; simpl in Hok; try (by destruct Hok); by destruct o).
    destruct (body (the_code W) unlock_shared p b (shared m)) as [[[s ns] ex]|] eqn:Hb; simpl in Hstep; [|done].
    destruct (deliver_all ns picks (threads m)) as [ths|] eqn:Hd; simpl in Hstep; [|done]. injection Hstep as <-.
    unfold modes. simpl. apply deliver_all_modes in Hd. rewrite fmap_insert, Hd. fold (modes m). simpl.
    apply modes_lookup in Hu. rewrite (sumz_insert _ _ _ _ _ Hu), Hm. simpl.
    simpl in Hb. unfold unlock_shared_body, return_ in Hb. repeat case_match; simplify_eq/=; lia.
  - right. destruct (own_moves (the_code W) (callers gate) m e m' u th Hstep Hu) as (th' & Hu' & Hm' & Hlt); try done.
    + destruct (at_pc th) as [| | | |c tm o p|]; try done. simpl in Hok. destruct c, p; try done; by destruct Hok.
    + intros o s en Hmay He. simpl in Hmay, He. apply bool_decide_eq_true in Hmay. rewrite Hm in Hmay.
      injection He as <- <-. destruct o; try done. by eexists.
    + exists th'. split_and!; [done|congruence|done].
Qed.

(** ** Fair executions *)

Section execution.
Context (hs : gmap tid hold) (σ : nat -> mutex_state) (ev : nat -> option (event op)).
Context (Hhs : idle_clients hs) (Hfew : few (dom hs)).
Context (Hex : execution mutex_step (stm_start hs) σ ev) (Hfair : fair owners_call σ ev).
Implicit Types (n i j k : nat).

Lemma mutex_reached k : steps mutex_step (stm_start hs) (σ k).
Proof. by apply (execution_steps _ _ _ ev). Qed.

Lemma ok_at k : ok (σ k).
Proof.
  pose proof (monitor_ok W HW) as Hok. eapply monitor_invariant; [exact Hok|by apply inv_start|apply mutex_reached].
Qed.

Section writer.
Context (t : tid).

Definition entered_at k : Prop := modes (σ k) !! t = Some Entered.
Definition outcome k : Prop := modes (σ k) !! t = Some Exclusive \/ gave_up t (σ k).
Definition stays n j : Prop := (n <= j)%nat /\ forall i, (n <= i <= j)%nat -> entered_at i.
Definition settled_from n : Prop :=
  exists j, (n <= j)%nat /\ outcome j /\ forall i, (n <= i < j)%nat -> entered_at i.

Lemma stays_next n j :
  stays n j -> settled_from n \/ stays n (S j) /\ nreaders (modes (σ (S j))) <= nreaders (modes (σ j)).
Proof.
  intros [Hle Hst]. pose proof (ex_next _ _ _ _ Hex j) as Hnext. unfold next_is in Hnext. simpl in Hnext.
  assert (forall P : Prop, (entered_at (S j) -> P) -> entered_at (S j) -> stays n (S j) /\ P) as Hgo.
  { intros P HP He. split; [|by apply HP]. split; [lia|]. intros i Hi.
    destruct (decide (i = S j)) as [->|]; [done|apply Hst; lia]. }
  destruct (ev j) as [e|].
  - destruct (entered_step _ _ _ t (ok_at j) (Hst j ltac:(lia)) Hnext) as (Hn & _ & [He|Ho]).
    + right. by apply Hgo.
    + left. exists (S j). split; [lia|]. split; [done|]. intros i Hi. apply Hst. lia.
  - right. rewrite Hnext. apply Hgo; [done|]. unfold entered_at. rewrite Hnext. apply Hst. lia.
Qed.

Lemma stays_until n j :
  entered_at n -> (n <= j)%nat -> settled_from n \/ stays n j /\ nreaders (modes (σ j)) <= nreaders (modes (σ n)).
Proof.
  intros He. induction 1 as [|j Hle [IH|[IH Hn]]]; [|by left|].
  - right. split; [|lia]. split; [done|]. intros i Hi. by replace i with n by lia.
  - destruct (stays_next n j IH) as [|[Hs Hn']]; [by left|right]. split; [done|lia].
Qed.

Lemma settled_later n j : stays n j -> settled_from j -> settled_from n.
Proof.
  intros [Hle Hst] (i & Hi & Ho & Hall). exists i. split; [lia|]. split; [done|]. intros k Hk.
  destruct (Nat.le_gt_cases k j); [apply Hst; lia|apply Hall; lia].
Qed.

(** The readers leave, one after the other. *)
Lemma reader_leaves b n u th :
  entered_at n -> threads (σ n) !! u = Some th -> mode th = Shared -> (way_out (at_pc th) <= b)%nat ->
  settled_from n \/ exists j, stays n j /\ nreaders (modes (σ j)) < nreaders (modes (σ n)).
Proof.
  revert n th. induction b as [b IH] using lt_wf_ind. intros n th He Hu Hm Hway.
  destruct (next_own (the_code W) (callers gate) owners_call _ σ ev n u th Hex Hfair Hu) as (j & e & Hle & Ha & Huj & Hstep).
  { destruct (ok_at n) as [_ Hpcs]. pose proof (Hpcs _ _ Hu) as Hok. unfold due. rewrite Hu, Hm in *.
    destruct (at_pc th) as [| | | |c tm o p|]; try done. simpl in Hok. destruct c, p; simpl in Hok; try done; by destruct Hok. }
  destruct (stays_until n j He Hle) as [|[Hst Hn]]; [by left|].
  destruct (stays_next n j Hst) as [|[Hst' Hn']]; [by left|].
  destruct (reader_step _ _ _ u th (ok_at j) Huj Hm Ha Hstep) as [Hlt|(th' & Hu' & Hm' & Hlt)].
  - right. exists (S j). split; [done|lia].
  - destruct Hst' as [Hle' Hst'].
    destruct (IH (way_out (at_pc th')) ltac:(lia) (S j) th') as [Hset|(k & [Hlek Hk] & Hnk)]; [by apply Hst'|done..|left|right].
    + by apply (settled_later n (S j)).
    + exists k. split; [|lia]. split; [lia|]. intros i Hi.
      destruct (Nat.le_gt_cases i (S j)); [apply Hst'; lia|apply Hk; lia].
Qed.

Lemma readers_gone b n :
  entered_at n -> nreaders (modes (σ n)) <= Z.of_nat b ->
  settled_from n \/ exists j, stays n j /\ nreaders (modes (σ j)) = 0.
Proof.
  revert n. induction b as [|b IH]; intros n He Hb.
  - right. exists n. split; [split; [done|]; intros i Hi; by replace i with n by lia|].
    assert (0 <= nreaders (modes (σ n))); [|lia]. apply sumz_nonneg. intros ? ? _. apply reading_nonneg.
  - destruct (decide (nreaders (modes (σ n)) <= Z.of_nat b)) as [|Hmore]; [by apply IH|].
    destruct (readers_in_use (modes (σ n))) as (u & h & Hu & Hh); [lia|].
    assert (h = Shared) as ->.
    { destruct Hh as [|Hh]; [done|]. subst h. destruct (ok_at n) as [Hinv _].
      destruct (exclusive_counts _ _ Hinv _ Hu). lia. }
    apply modes_lookup_inv in Hu as (th & Hu & Hm).
    destruct (reader_leaves _ n u th He Hu Hm (Nat.le_refl _)) as [|(j & Hst & Hlt)]; [by left|].
    destruct (IH j) as [Hset|(k & [Hlek Hk] & Hnk)]; [apply Hst; split; [apply Hst|done]|lia|left|right].
    + by apply (settled_later n j).
    + exists k. split; [|done]. destruct Hst as [Hle Hst]. split; [lia|]. intros i Hi.
      destruct (Nat.le_gt_cases i j); [apply Hst; lia|apply Hk; lia].
Qed.

(** Without readers the writer enters as soon as it runs. *)
Lemma nobody_reads n j : entered_at n -> nreaders (modes (σ n)) = 0 -> (n <= j)%nat ->
  settled_from n \/ stays n j /\ nreaders (modes (σ j)) = 0.
Proof.
  intros He Hn Hle. destruct (stays_until n j He Hle) as [|[Hs Hj]]; [by left|right]. split; [done|].
  assert (0 <= nreaders (modes (σ j))); [|lia]. apply sumz_nonneg. intros ? ? _. apply reading_nonneg.
Qed.

Lemma at_gate n th : entered_at n -> threads (σ n) !! t = Some th ->
  (exists o b, at_pc th = Wanting o at_wgate b \/ at_pc th = Running o at_wgate b) \/ sleeper (threads (σ n)) wgate t.
Proof.
  intros He Ht. destruct (ok_at n) as [_ Hpcs]. pose proof (Hpcs _ _ Ht) as Hok.
  pose proof (modes_lookup _ _ _ Ht) as Hm. unfold entered_at in He. rewrite Hm in He. injection He as He.
  pose proof (stm_rests W HW hs (σ n) Hhs (mutex_reached n) _ _ Ht) as Hr. unfold rests in Hr. rewrite He in Hok, Hr.
  destruct (at_pc th) as [|o p b| |o p b|c tm o p|] eqn:Hpc; try done; try (by destruct Hr).
  - left. exists o, b. left. simpl in Hok. destruct p; simpl in Hok; [by destruct o..|done].
  - left. exists o, b. right. simpl in Hok. destruct p; simpl in Hok; [by destruct o..|done].
  - right. exists th, tm, o, p. split; [done|]. simpl in Hok. destruct c, p; simpl in Hok; try done. by destruct Hok.
Qed.

Lemma runs_enters n th o b :
  entered_at n -> nreaders (modes (σ n)) = 0 -> threads (σ n) !! t = Some th -> at_pc th = Running o at_wgate b ->
  settled_from n.
Proof.
  intros He Hn Ht Hpc.
  destruct (next_exec (the_code W) (callers gate) owners_call (fun _ => True) _ σ ev n t th o at_wgate b Hex Hfair Ht Hpc)
    as (j & picks & Hle & Htj & _ & Hstep); [done..|].
  destruct (nobody_reads n j He Hn Hle) as [|[Hst Hj]]; [done|].
  exists (S j). split; [lia|]. split; [|intros i Hi; apply Hst; lia]. left.
  destruct (steps_run _ _ _ (mutex_reached j)) as [es Hes]. by apply (writer_admitted W hs es (σ j) t th o b picks).
Qed.

Lemma awake_enters n th o b :
  entered_at n -> nreaders (modes (σ n)) = 0 -> threads (σ n) !! t = Some th ->
  at_pc th = Wanting o at_wgate b \/ at_pc th = Running o at_wgate b -> settled_from n.
Proof.
  intros He Hn Ht [Hpc|Hpc]; [|by eapply runs_enters].
  destruct (next_lock (the_code W) (callers gate) owners_call (fun _ => True) _ σ ev n t th o at_wgate b Hex Hfair Ht Hpc)
    as (j & Hle & Htj & _); [done..|].
  destruct (nobody_reads n j He Hn Hle) as [|[Hst Hj]]; [done|].
  assert (entered_at j) as Hej by (apply Hst; lia).
  apply (settled_later n j Hst), (runs_enters j _ o b Hej Hj Htj eq_refl).
Qed.

Lemma gate_lone i : lone gate (threads (σ i)) wgate.
Proof.
  intros _ t1 t2 (th1 & tm1 & o1 & p1 & H1 & Hp1) (th2 & tm2 & o2 & p2 & H2 & Hp2). destruct (ok_at i) as [Hinv Hpcs].
  pose proof (Hpcs _ _ H1) as Hok1. pose proof (Hpcs _ _ H2) as Hok2. rewrite Hp1 in Hok1. rewrite Hp2 in Hok2.
  simpl in Hok1, Hok2. destruct p1, p2; simpl in Hok1, Hok2; try done. destruct Hok1 as [Hm1 _], Hok2 as [Hm2 _].
  apply (writer_unique _ _ Hinv t1 t2 Entered Entered); [|by rewrite <- Hm2; apply modes_lookup|done|done].
  rewrite <- Hm1. by apply modes_lookup.
Qed.

Lemma empty_enters n : entered_at n -> nreaders (modes (σ n)) = 0 -> settled_from n.
Proof.
  intros He Hn. pose proof He as (th & Ht & _)%modes_lookup_inv.
  destruct (at_gate n th He Ht) as [(o & b & Hpc)|(th' & tm & o & p & Ht' & Hpc)]; [by eapply awake_enters|].
  assert (th' = th) as -> by congruence. pose proof (stm_counts W HW hs (σ n) Hhs Hfew (mutex_reached n)) as Hcounts.
  destruct (stm_attended W HW hs (σ n) Hhs Hfew (mutex_reached n) _ _ _ _ _ _ Ht Hpc) as [Hbl|(u & thu & ns & ou & k & Hu & Hpu & Hann)].
  { apply (stm_blocked_counts _ _ _ _ _ Hcounts) in Hbl. simpl in Hbl. lia. }
  destruct (posting_wakes (the_code W) (callers gate) owners_call gate wgate t _ _ σ ev n u thu ns ou k Hex Hfair
    gate_lone Hu Hpu Hann (Nat.le_refl _)) as (i & Hi & Hawake).
  destruct (nobody_reads n i He Hn Hi) as [|[Hst Hni]]; [done|]. apply (settled_later n i Hst).
  assert (entered_at i) as Hei by (apply Hst; lia). pose proof Hei as (thi & Hti & _)%modes_lookup_inv.
  destruct (at_gate i thi Hei Hti) as [(oi & bi & Hpi)|]; [by eapply awake_enters|done].
Qed.

Lemma writer_settles n : entered_at n -> settled_from n.
Proof.
  intros He. destruct (readers_gone (Z.to_nat (nreaders (modes (σ n)))) n He) as [|(j & Hst & Hj)]; [lia|done|].
  apply (settled_later n j Hst), empty_enters; [|done]. destruct Hst as [Hle Hst]. apply Hst. lia.
Qed.

Lemma keeps_free n u : entered_at n -> modes (σ n) !! u = Some Free -> modes (σ (S n)) !! u = Some Free.
Proof.
  intros He Hu. pose proof (ex_next _ _ _ _ Hex n) as Hnext. unfold next_is in Hnext. simpl in Hnext.
  destruct (ev n) as [e|]; [|by rewrite Hnext]. by apply (entered_step _ _ _ t (ok_at n) He Hnext).
Qed.
End writer.
End execution.
End fair.

(** C26: a writer that has entered comes to own the mutex. In every infinite
    execution in which whoever can move moves in the end and owners unlock in
    the end, a thread that has entered as the writer owns the mutex
    exclusively in the end, or gives up by the timeout of [try_lock_until],
    however often other threads call; and until then no thread that owns
    nothing gains ownership or the writer mark. *)
Theorem stm_writer_enters W hs (σ : nat -> mutex_state) (ev : nat -> option (event op)) n t :
  32 <= W -> idle_clients hs -> few (dom hs) -> execution (stm_step W) (stm_start hs) σ ev -> fair owners_call σ ev ->
  modes (σ n) !! t = Some Entered ->
  exists j, (n <= j)%nat /\ (modes (σ j) !! t = Some Exclusive \/ gave_up t (σ j)) /\
    forall i u, (n <= i < j)%nat -> modes (σ i) !! u = Some Free -> modes (σ (S i)) !! u = Some Free.
Proof.
  intros HW Hhs Hfew Hex Hfair He. destruct (writer_settles W HW hs σ ev Hhs Hfew Hex Hfair t n He) as (j & Hle & Ho & Hst).
  exists j. split; [done|]. split; [done|]. intros i u Hi. apply (keeps_free W HW hs σ ev Hhs Hex t i u). by apply Hst.
Qed.

(** Thread 0 reads; thread 1 enters and waits; thread 2 wants to read; 0 leaves,
    1 gets in, leaves, and 2 reads. *)
Definition served : list (event op) :=
  written ++ leave ++ settle_down ++
  [Invoke 2%nat unlock_shared; Acquire 2%nat; Exec 2%nat []; Finish 2%nat].

Lemma stm_writer_enters_witness :
  exists σ ev j, execution (stm_step 64) (stm_start clients) σ ev /\ fair owners_call σ ev /\
    modes (σ 7%nat) !! 1%nat = Some Entered /\ (7 <= j)%nat /\
    (modes (σ j) !! 1%nat = Some Exclusive \/ gave_up 1%nat (σ j)).
Proof.
  assert (exists m, run (stm_step 64) (stm_start clients) served = Some m) as [m Hrun] by (eexists; vm_compute; reflexivity).
  assert (settled (the_code 64) (callers gate) owners_call (stm_start clients) served = true) as Hset by (vm_compute; reflexivity).
  assert (modes (visited (stm_step 64) (stm_start clients) served 7) !! 1%nat = Some Entered) as He by (vm_compute; reflexivity).
  pose proof (finite_execution _ _ _ _ Hrun) as Hex. pose proof (finite_fair _ _ _ _ _ Hset) as Hfair.
  destruct (stm_writer_enters 64 clients _ _ 7 1%nat ltac:(lia) clients_idle clients_few Hex Hfair He) as (j & Hj & Ho & _).
  do 2 eexists. exists j. split_and!; [exact Hex|exact Hfair|exact He|exact Hj|exact Ho].
Defined.
