(* ===== verification/ReaderPreferringProofs.v ===== *)
(** * ReaderPreferringSharedTimedMutex: correctness

    The same word invariant as [SharedTimedMutex] (a writer is only marked
    once it owns the mutex), the [SharedMutex] interface, and the notification
    rule for its single condition variable. *)

From S2P Require Import Prelude Machine Monitor MonitorTheory RWLock.
From S2P Require Import SharedMutex SharedMutexBits.

Import RW ReaderPreferring.
Local Open Scope Z_scope.

(** No thread is ever marked without owning the mutex. *)
Definition rp_inv (s : Z) (hs : gmap tid hold) : Prop :=
  inv s hs /\ forall t, hs !! t <> Some Entered.

Definition allowed (h : hold) (o : op) (_ : point) : Prop := h = required o.

Definition asleep (h : hold) (_ : cv_name) (o : op) (p : point) : Prop :=
  h = Free /\ p = at_cv /\
  (o = lock \/ o = try_lock_until \/ o = lock_shared \/ o = try_lock_shared_until).

Definition keeps (hs : gmap tid hold) (t : tid) (h : hold) (o : op) (p : point)
    (r : option (Z * list (notify cv_name) * exit point cv_name ret)) : Prop :=
  exists s' ns ex, r = Some (s', ns, ex) /\
    rp_inv s' (<[t := settle gate o p ex h]> hs) /\
    exit_ok allowed asleep (settle gate o p ex h) o ex.

(** The word is zero exactly when nobody owns the mutex. *)
Lemma word_zero s hs : inv s hs -> (s =? 0) = (writers hs =? 0) && (nreaders hs =? 0).
Proof. intros (-> & Hp & _). by apply pack_zero. Qed.

Section segments.
Context (W : Z) (HW : 32 <= W) (hs : gmap tid hold) (s : Z) (Hinv : rp_inv s hs) (t : tid).

(** A segment that gives [t] mode [h'] and leaves the other modes alone. *)
Lemma rp_update s' h h' :
  hs !! t = Some h -> h' <> Entered ->
  s' = pack (writers hs - writing h + writing h') (nreaders hs - reading h + reading h') ->
  packed (writers hs - writing h + writing h') (nreaders hs - reading h + reading h') ->
  (h' = Exclusive -> nreaders hs - reading h + reading h' = 0) ->
  (forall t', t' <> t -> hs !! t' = Some Exclusive -> nreaders hs - reading h + reading h' = 0) ->
  rp_inv s' (<[t := h']> hs).
Proof.
  destruct Hinv as [Hi Hne]. intros. split; [by eapply inv_update|].
  intros t2. destruct (decide (t2 = t)) as [->|]; [rewrite lookup_insert_eq; congruence|].
  by rewrite lookup_insert_ne.
Qed.

Lemma rp_same h : hs !! t = Some h -> rp_inv s (<[t := h]> hs).
Proof. intros Ht. by rewrite insert_id. Qed.

Lemma taken :
  hs !! t = Some Free -> (s =? 0) = true ->
  rp_inv WRITER_ACTIVE_MASK (<[t := Exclusive]> hs).
Proof.
  destruct Hinv as [Hi _]. rewrite (word_zero s hs Hi). intros Ht [Hw Hr]%andb_true_iff.
  apply Z.eqb_eq in Hw, Hr.
  eapply rp_update; [done|done|..]; simpl; rewrite ?Hw, ?Hr; [done|unfold packed, MASK; lia|lia|lia].
Qed.

Lemma dropped :
  hs !! t = Some Exclusive -> rp_inv 0 (<[t := Free]> hs).
Proof.
  destruct Hinv as [Hi _]. intros Ht. destruct (exclusive_counts s hs Hi _ Ht) as [Hw Hr].
  eapply rp_update; [done|done|..]; simpl; rewrite ?Hw, ?Hr; [done|unfold packed, MASK; lia|lia|lia].
Qed.

Definition full : bool :=
  truth (Z.land s WRITER_ACTIVE_MASK) || (Z.land s NUM_READER_MASK =? NUM_READER_MASK).

Lemma full_spec : full = true <-> writers hs = 1 \/ nreaders hs = MASK.
Proof.
  destruct Hinv as [(Hs & Hp & _) _]. unfold full. rewrite Hs.
  autorewrite with pack. autorewrite with pack_word. rewrite orb_true_iff. lia.
Qed.

Lemma not_full_spec :
  negb (truth (Z.land s WRITER_ACTIVE_MASK)) && negb (Z.land s NUM_READER_MASK =? NUM_READER_MASK)
  = negb full.
Proof. unfold full. by rewrite negb_orb. Qed.

Lemma admitted :
  hs !! t = Some Free -> full = false -> rp_inv (wrap_u W (s + 1)) (<[t := Shared]> hs).
Proof.
  intros Ht Hf. assert (~ (writers hs = 1 \/ nreaders hs = MASK)) as Hn.
  { rewrite <- full_spec. congruence. }
  destruct Hinv as [Hi _]. pose proof Hi as (Hs & Hp & _). pose proof Hp as [Hb Hr].
  rewrite Hs, pack_incr by (done || lia).
  eapply rp_update; [done|done|..]; counts.
Qed.

Lemma left :
  hs !! t = Some Shared -> rp_inv (wrap_u W (s - 1)) (<[t := Free]> hs).
Proof.
  intros Ht. destruct Hinv as [Hi _]. pose proof Hi as (Hs & Hp & _).
  pose proof (reading_le hs _ _ Ht). simpl in *.
  rewrite Hs, pack_decr by (done || lia).
  eapply rp_update; [done|done|..]; counts.
Qed.

Lemma rp_body_keeps h o p b :
  hs !! t = Some h -> allowed h o p -> keeps hs t h o p (body_ W o p b s).
Proof.
  intros Ht ->. unfold keeps. destruct o; simpl in *;
    unfold lock_body, unlock_body, try_lock_body, try_lock_until_body, lock_shared_body,
    unlock_shared_body, try_lock_shared_body, try_lock_shared_until_body, return_, wait_at;
    rewrite ?not_full_spec; fold full;
    repeat case_match; (do 3 eexists; split; [reflexivity|]; split; [simpl|simpl; unfold asleep; tauto]);
    eauto using rp_same, dropped, left.
  1-3: by apply taken; [|first [done | by apply negb_false_iff]].
  all: apply admitted; first [done | by apply negb_true_iff].
Qed.
End segments.

(** ** The class satisfies the interface *)
Section instance.
Context (W : Z) (HW : 32 <= W).

#[export] Instance reader_preferring : SharedMutex Z point cv_name := {
  sm_code := the_code W;
  sm_init := init;
  sm_gate := gate;
  sm_inv := rp_inv;
  sm_allowed := allowed;
  sm_asleep := asleep;
}.

#[export] Instance rp_monitor_ok :
  MonitorOk (the_code W) (callers gate) rp_inv allowed asleep.
Proof.
  split.
  - by intros h c o p (-> & _ & [-> | [-> | [-> | ->]]]).
  - intros t h s hs o Hinv Ht Hmay. apply bool_decide_eq_true in Hmay as ->.
    do 2 eexists. split; [done|]. split; [done|]. by destruct o.
  - intros t h s hs o p b Hinv Ht Hal. by apply rp_body_keeps.
  - intros t h s hs o p Hinv Ht Hal. by exists s.
Qed.

Lemma rp_inv_start hs : idle_clients hs -> rp_inv init hs.
Proof.
  intros Hhs. split; [|by intros t Ht%Hhs]. unfold inv.
  rewrite (sumz_zero writing), (sumz_zero reading) by (by intros k h ->%Hhs).
  split_and!; [done|unfold packed, MASK; lia|done].
Qed.

Lemma rp_wait_required o p b s s' ns c timed p' :
  body_ W o p b s = Some (s', ns, Wait c timed p') -> required o = Free.
Proof.
  destruct o; try done; simpl. unfold unlock_shared_body, return_. by case_match.
Qed.

#[export] Instance reader_preferring_laws : SharedMutexLaws Z point cv_name.
Proof.
  split.
  - apply rp_monitor_ok.
  - apply rp_inv_start.
  - intros s hs [Hi _]. by eapply inv_sole.
  - intros h o p ->. by left.
  - intros h o p b s s' ns ex Hal Hb. destruct ex as [c tm p'|p'|nts [r|p']|p']; try done.
    + exact (rp_wait_required _ _ _ _ _ _ _ _ _ Hb).
    + unfold allowed in Hal. simpl in Hal. intros ->. by destruct o.
Qed.
End instance.

(** ** No waiter is forgotten *)
Section waiting.
Context (W : Z) (HW : 32 <= W).

(** Why a waiter would wait again: somebody owns the mutex; for a reader, a
    writer does or there is no room. *)
Definition blocked (_ : cv_name) (o : op) (_ : point) (s : Z) : Prop :=
  match o with
  | lock_shared | try_lock_shared_until => full s = true
  | _ => s <> 0
  end.

Definition solo (_ : cv_name) : bool := false.

Lemma rp_few_readers s hs : with_dom rp_inv few s hs -> nreaders hs < MASK.
Proof. intros [[Hi _] Hf]. by eapply (SharedMutexBits.few_readers s). Qed.

Lemma rp_blocked_counts c o p s hs :
  with_dom rp_inv few s hs ->
  blocked c o p s <->
  match o with
  | lock_shared | try_lock_shared_until => writers hs = 1
  | _ => writers hs + nreaders hs <> 0
  end.
Proof.
  intros Hi. pose proof (rp_few_readers _ _ Hi). destruct Hi as [Hi _].
  pose proof (full_spec hs s Hi) as Hfull. pose proof (word_zero s hs (proj1 Hi)).
  destruct Hi as [(_ & [Hb Hr] & _) _]. destruct o; simpl; rewrite ?Hfull; lia.
Qed.

(** Whoever leaves the mutex to nobody announces it. *)
Lemma rp_announce hs t h o p b s s' ns ex :
  rp_inv s hs -> hs !! t = Some h -> allowed h o p ->
  body_ W o p b s = Some (s', ns, ex) ->
  writing h = 1 \/ (reading h = 1 /\ writers hs = 0 /\ nreaders hs = 1) ->
  NotifyAll cv ∈ ns ++ posts ex.
Proof.
  intros Hinv Ht -> Hb Hh. destruct o; simpl in Hh; try lia.
  - simpl in Hb. injection Hb as <- <- <-. simpl. set_solver.
  - simpl in Hb. unfold unlock_shared_body, return_ in Hb.
    destruct Hh as [?|(_ & Hw & Hn)]; [done|].
    destruct Hinv as [(Hs & _) _]. rewrite Hw, Hn in Hs. rewrite Hs in Hb.
    assert (wrap_u W (pack 0 1 - 1) = 0) as Hz.
    { rewrite (pack_decr 0 1) by (unfold packed, MASK; lia). done. }
    rewrite Hz in Hb. simpl in Hb. injection Hb as <- <- <-. simpl. set_solver.
Qed.

#[export] Instance rp_notify_ok :
  NotifyOk (the_code W) (callers gate) (with_dom rp_inv few) allowed asleep blocked solo.
Proof.
  split.
  - intros t h s hs o s' en t' h' c o' p' _ _ _ [= <- <-]. done.
  - intros t h s hs o p s' t' h' c o' p' _ _ _ [= <-]. done.
  - intros t h s hs o p b s' ns ex t' h' c o' p' Hi Ht Hal Hb Hne Ht' Hsl Hbl.
    destruct (monitor_ok_with_dom _ _ _ few _ _ (rp_monitor_ok W HW)) as [_ _ Hbody _].
    destruct (Hbody t h s hs o p b Hi Ht Hal) as (s1 & ns1 & ex1 & Hb1 & Hi1 & _).
    rewrite Hb in Hb1. injection Hb1 as <- <- <-. simpl in Hi1.
    rewrite (rp_blocked_counts _ _ _ _ _ Hi) in Hbl.
    rewrite (rp_blocked_counts _ _ _ _ _ Hi1).
    destruct (decide (writing h = 1 \/ (reading h = 1 /\ writers hs = 0 /\ nreaders hs = 1)))
      as [Hlast|Hlast].
    { right. left. destruct c. exact (rp_announce _ _ _ _ _ _ _ _ _ _ (proj1 Hi) Ht Hal Hb Hlast). }
    left. destruct Hi1 as [[(_ & [Hb1 Hr1] & _) _] _].
    rewrite !(sumz_insert _ hs t h _) in * by done.
    pose proof (writing_nonneg h). pose proof (writing_nonneg (settle gate o p ex h)).
    pose proof (reading_nonneg h). pose proof (reading_nonneg (settle gate o p ex h)).
    destruct Hi as [[(_ & [Hb2 Hr2] & _) _] _].
    pose proof (writing_le hs _ _ Ht). pose proof (reading_le hs _ _ Ht).
    destruct o'; lia.
  - intros t h s hs o p b s' ns c timed p' _ _ _ Hb. simpl in Hb.
    destruct o, p; simpl in Hb; revert Hb;
      unfold lock_body, unlock_body, try_lock_body, try_lock_until_body, lock_shared_body,
      unlock_shared_body, try_lock_shared_body, try_lock_shared_until_body, return_, wait_at;
      rewrite ?not_full_spec; fold (full s);
      repeat case_match; intros; simplify_eq/=; try done;
      first [by apply Z.eqb_neq | by apply negb_false_iff | by apply Z.eqb_neq, negb_true_iff].
  - done.
Qed.
End waiting.
