(* ===== verification/ReaderPreferringProps.v ===== *)
(** * ReaderPreferringSharedTimedMutex: the properties *)

From S2P Require Import Prelude Machine Monitor MonitorTheory MonitorDrain RWLock.
From S2P Require Import SharedMutex SharedMutexBits ReaderPreferringProofs.

Import RW ReaderPreferring.
Local Open Scope Z_scope.

Abbreviation rp_step W := (step (the_code W) (callers gate)).
Abbreviation rp_start hs := (start init hs).

Lemma rp_reachable_inv W hs es m :
  32 <= W -> idle_clients hs -> run (rp_step W) (rp_start hs) es = Some m ->
  monitor_inv rp_inv allowed asleep m.
Proof.
  intros HW Hhs Hrun%run_steps. pose proof (rp_monitor_ok W HW) as Hok.
  eapply monitor_invariant; [exact Hok|by apply rp_inv_start|done].
Qed.

(** Mutual exclusion and exact word of the reader-preferring class. In
    every reachable state an exclusive owner is the only owner, and the word is
    [2^31 * w + r] with [w] the number (0 or 1) of exclusive owners and [r] the
    number of shared owners; so the word is zero exactly when nobody owns the
    mutex. *)
Theorem rp_exclusion W hs es m :
  32 <= W -> idle_clients hs -> run (rp_step W) (rp_start hs) es = Some m ->
  (forall t1 t2 h2, modes m !! t1 = Some Exclusive -> modes m !! t2 = Some h2 ->
     h2 = Exclusive \/ h2 = Shared -> t1 = t2) /\
  shared m = 2147483648 * sumz writing (modes m) + sumz reading (modes m) /\
  (shared m = 0 <-> forall t h, modes m !! t = Some h -> h = Free).
Proof.
  intros HW Hhs Hrun. destruct (rp_reachable_inv W hs es m HW Hhs Hrun) as [[Hinv Hne] _].
  split; [by apply (inv_sole _ _ Hinv)|]. pose proof Hinv as (Hs & Hp & _). split; [done|].
  pose proof (word_zero _ _ Hinv) as Hz. split.
  - intros H0 t h Ht.
    pose proof (writing_le (modes m) t h Ht). pose proof (reading_le (modes m) t h Ht).
    destruct h; simpl in *; [done|lia|by destruct (Hne t)|lia].
  - intros Hall. apply Z.eqb_eq. rewrite Hz.
    by rewrite (sumz_zero writing), (sumz_zero reading) by (by intros k h ->%Hall).
Qed.

(** C27: refinement. Every run of the reader-preferring class is a run of the
    same abstract readers-writer lock that [SharedTimedMutex] refines. *)
Theorem rp_refines_rwlock W hs es m :
  32 <= W -> idle_clients hs -> run (rp_step W) (rp_start hs) es = Some m ->
  exists a,
    run spec_step (mkSpec None ∅)
      (labels (rp_step W) (sm_label (SharedMutex0 := reader_preferring W)) (rp_start hs) es) = Some a /\
    (forall t, writer a = Some t <-> modes m !! t = Some Exclusive) /\
    (forall t, t ∈ readers a <-> modes m !! t = Some Shared).
Proof.
  intros HW Hhs Hrun.
  destruct (refines (SharedMutexLaws0 := reader_preferring_laws W HW) hs es m Hhs Hrun)
    as (a & Ha & _ & Hown).
  by exists a.
Qed.

(** No lost wake-up in the reader-preferring class. With fewer than
    [2^31 - 1] threads, a thread asleep on the condition variable either still
    has a reason to wait (for a writer: somebody owns the mutex; for a reader:
    a writer does) or a [notify_all] is about to reach it. So once all activity
    has ended, threads sleep only while some thread owns the mutex. *)
Lemma rp_no_lost_wakeup W hs m t th c timed o p :
  32 <= W -> idle_clients hs -> few (dom hs) ->
  steps (rp_step W) (rp_start hs) m ->
  threads m !! t = Some th -> at_pc th = Waiting c timed o p ->
  (blocked c o p (shared m) \/ posted solo m c) /\
  (quiescent m = true -> in_use (modes m)).
Proof.
  intros HW Hhs Hfew Hrun Ht Hpc.
  pose proof (monitor_ok_with_dom _ _ _ few _ _ (rp_monitor_ok W HW)) as Hok.
  pose proof (rp_notify_ok W HW) as Hnok.
  assert (with_dom rp_inv few init hs) as H0 by (split; [by apply rp_inv_start|done]).
  pose proof (no_lost_wakeup (the_code W) (callers gate) (with_dom rp_inv few) allowed asleep
    blocked solo init hs m H0 Hrun _ _ _ _ _ _ Ht Hpc) as Hatt.
  split; [done|]. intros Hq. destruct Hatt as [Hbl|Hpost]; [|by destruct (quiescent_unposted _ _ _ Hq Hpost)].
  destruct (safe_invariant _ _ _ _ _ _ _ _ H0 Hrun) as [Hi _].
  rewrite (rp_blocked_counts _ _ _ _ _ Hi) in Hbl. destruct Hi as [[Hinv Hne] _].
  pose proof Hinv as (_ & [Hw Hr] & _).
  assert (0 < writers (modes m) \/ 0 < nreaders (modes m)) as [Hn|Hn] by (destruct o; lia).
  - destruct (writers_in_use _ Hn) as [|[t' Ht']]; [done|]. by destruct (Hne t').
  - by apply readers_in_use.
Qed.

(** Each method leaves once, with at most the one [notify_all]. *)
Definition leaving : account Z op point hold := one_segment 1.

#[export] Instance rp_leaves_once W I : LeavesOnce (the_code W) I allowed 1.
Proof.
  intros t h s hs o p b s' ns ex _ _ _ Hb. destruct o, p; simpl in Hb; revert Hb;
    unfold lock_body, unlock_body, try_lock_body, try_lock_until_body, lock_shared_body,
    unlock_shared_body, try_lock_shared_body, try_lock_shared_until_body, return_, wait_at;
    repeat case_match; intros; simplify_eq/=; try done; lia.
Qed.

(** C28: the reader-preferring mutex comes to rest. From any reachable state
    of fewer than [2^31 - 1] threads, a schedule without further calls,
    timeouts and spurious wake-ups is never longer than [work]; and where it
    stops, a thread can still move, or every thread has returned or is asleep
    on the condition variable, with a reason to wait, while some thread owns
    the mutex: nobody is stuck elsewhere, and no wake-up is lost. *)
Theorem rp_settles W hs es m es' m' :
  32 <= W -> idle_clients hs -> few (dom hs) ->
  run (rp_step W) (rp_start hs) es = Some m ->
  Forall (fun e => internal leaving e = true) es' -> run (rp_step W) m es' = Some m' ->
  Z.of_nat (length es') <= work leaving m /\
  ((exists e m'', internal leaving e = true /\ rp_step W m' e = Some m'') \/
   forall t th, threads m' !! t = Some th ->
     match at_pc th with
     | Idle _ => True
     | Waiting c _ o p => blocked c o p (shared m') /\ in_use (modes m')
     | _ => False
     end).
Proof.
  intros HW Hhs Hfew Hrun Hint Hrun'.
  pose proof (rp_monitor_ok W HW) as Hok. pose proof (rp_leaves_once W rp_inv) as Honce.
  pose proof (once_orderly _ _ _ _ _ 1 init hs es m (rp_inv_start hs Hhs) Hrun) as Hord.
  destruct (once_settled _ _ _ _ _ 1 m es' m' Hord Hint Hrun') as [Hl [Hq|Hmore]];
    (split; [done|]); [right|by left]. intros t th Ht.
  pose proof (quiescent_still _ _ _ Hq Ht) as Hstill.
  assert (steps (rp_step W) (rp_start hs) m') as Hall by (eapply steps_trans; by eapply run_steps).
  destruct (at_pc th) as [r| | | |c timed o p|] eqn:Hpc; try done.
  destruct (rp_no_lost_wakeup W hs m' t th c timed o p HW Hhs Hfew Hall Ht Hpc) as [[|Hpost] Huse]; [by split; [|apply Huse]|].
  by destruct (quiescent_unposted _ _ _ Hq Hpost).
Qed.

(** ** A concrete interleaving

    Thread 0 reads, thread 1 waits to write, thread 2 reads past it; then both
    readers leave. *)
Definition clients : gmap tid hold := {[ 0%nat := Free; 1%nat := Free; 2%nat := Free ]}.

Definition two_readers : list (event op) :=
  [Invoke 0%nat lock_shared; Acquire 0%nat; Exec 0%nat []; Finish 0%nat;
   Invoke 1%nat lock; Acquire 1%nat; Exec 1%nat [];
   Invoke 2%nat lock_shared; Acquire 2%nat; Exec 2%nat []; Finish 2%nat].

Definition both_leave : list (event op) :=
  two_readers ++
  [Invoke 0%nat unlock_shared; Acquire 0%nat; Exec 0%nat []; Finish 0%nat;
   Invoke 2%nat unlock_shared; Acquire 2%nat; Exec 2%nat []].

Lemma rp_clients_idle : idle_clients clients.
Proof. unfold idle_clients. apply (bool_decide_eq_true_1 _). vm_compute. reflexivity. Qed.

Lemma rp_clients_few : few (dom clients).
Proof. by vm_compute. Qed.

Lemma rp_exclusion_witness :
  exists m, run (rp_step 64) (rp_start clients) two_readers = Some m /\ shared m = 2 /\
    shared m = 2147483648 * sumz writing (modes m) + sumz reading (modes m).
Proof.
  eexists. split; [vm_compute; reflexivity|]. split; [vm_compute; reflexivity|].
  apply (rp_exclusion 64 clients two_readers); [lia|apply rp_clients_idle|vm_compute; reflexivity].
Defined.

Lemma rp_refines_rwlock_witness :
  exists m, run (rp_step 64) (rp_start clients) both_leave = Some m /\
    exists a, run spec_step (mkSpec None ∅)
      [AcquireS 0%nat; AcquireS 2%nat; ReleaseS 0%nat; ReleaseS 2%nat] = Some a /\
    (forall t, t ∈ readers a <-> modes m !! t = Some Shared).
Proof.
  eexists. split; [vm_compute; reflexivity|].
  destruct (rp_refines_rwlock 64 clients both_leave _ ltac:(lia) rp_clients_idle
    ltac:(vm_compute; reflexivity)) as (a & Ha & _ & Hr).
  exists a. split; [|exact Hr]. rewrite <- Ha. vm_compute. reflexivity.
Defined.

(** The writer is woken and gets the mutex. *)
Definition writer_in : list (event op) :=
  [Notify 2%nat None; Finish 2%nat; Acquire 1%nat; Exec 1%nat []; Finish 1%nat].

Lemma rp_settles_witness :
  exists m m', run (rp_step 64) (rp_start clients) both_leave = Some m /\
    run (rp_step 64) m writer_in = Some m' /\ work leaving m = 25 /\
    Z.of_nat (length writer_in) <= work leaving m /\
    ((exists e m'', internal leaving e = true /\ rp_step 64 m' e = Some m'') \/
     forall t th, threads m' !! t = Some th ->
       match at_pc th with
       | Idle _ => True
       | Waiting c _ o p => blocked c o p (shared m') /\ in_use (modes m')
       | _ => False
       end).
Proof.
  eexists _, _. split; [vm_compute; reflexivity|]. split; [vm_compute; reflexivity|].
  split; [vm_compute; reflexivity|].
  eapply (rp_settles 64 clients both_leave _ writer_in);
    [lia|apply rp_clients_idle|apply rp_clients_few|vm_compute; reflexivity
    |repeat constructor|vm_compute; reflexivity].
Defined.
