(* ===== verification/Atomics.v ===== *)
(** * Atomic objects and memory orders

    The lock-free classes order their accesses with [std::memory_order], so
    they are modelled on a memory where a load need not return the latest
    value.  Each write to an atomic object is a message with an identity; the
    history of the object lists its messages in modification order.  The view
    of a thread is the set of the identities (of messages and of accesses to
    ordinary data) that it has seen: a release write carries the view of its
    thread, an acquire read takes it over.  An access cannot go back behind a
    message its thread has seen, and a read-modify-write is placed right
    after the message it read, with nothing ever between the two. *)

From S2P Require Import Prelude.

(** [unordered] is for ordinary data: an access that orders nothing. *)
Inductive memory_order := unordered | acquire | release | acq_rel.

Definition acquires (o : memory_order) : bool := match o with acquire | acq_rel => true | _ => false end.
Definition releases (o : memory_order) : bool := match o with release | acq_rel => true | _ => false end.

#[export] Instance memory_order_eq_dec : EqDecision memory_order.
Proof. solve_decision. Defined.

Abbreviation view := (gset nat).

Section atomic.
Context {A : Type}.
Implicit Types (V : view) (o : memory_order).

(** [attached] marks the write of a read-modify-write. *)
Record message := mkMessage { ident : nat; value : A; carries : view; attached : bool }.
Implicit Types (x y : message) (h : list message) (i : nat).

(** The initial value, which every thread has seen. *)
Definition initial (v : A) : list message := [mkMessage 0 v ∅ false].

Definition unseen V h : bool := forallb (fun x => bool_decide (ident x ∉ V)) h.

(** A message can be placed at [i]: nothing there is attached to what precedes. *)
Definition vacant h i : bool := match h !! i with Some x => negb (attached x) | None => true end.

(** The view of a thread that has read [x]. *)
Definition learn o x V : view := {[ident x]} ∪ (if acquires o then carries x else ∅) ∪ V.

(** [load]: the message at [i], if no later one has been seen. *)
Definition load o h i V : option (A * view) :=
  x ← h !! i;
  if unseen V (drop (S i) h) then Some (value x, learn o x V) else None.

(** [store]: a new message at [i]. *)
Definition store o h i (new : nat) (v : A) V : option (list message * view) :=
  if (i <=? length h)%nat && unseen V (drop i h) && vacant h i then
    let V := {[new]} ∪ V in
    Some (take i h ++ mkMessage new v (if releases o then V else ∅) false :: drop i h, V)
  else None.

(** [fetch_add] and the like: the message at [i] is read, its successor
    written, which carries on what the message carried. *)
Definition rmw o (f : A -> A) h i (new : nat) V : option (A * list message * view) :=
  x ← h !! i;
  if unseen V (drop (S i) h) && vacant h (S i) then
    let V := {[new]} ∪ learn o x V in
    Some (value x,
      take (S i) h ++ mkMessage new (f (value x)) (carries x ∪ (if releases o then V else ∅)) true :: drop (S i) h,
      V)
  else None.

(** ** Lemmas *)

Lemma unseen_spec V h : unseen V h = true <-> forall x, x ∈ h -> ident x ∉ V.
Proof.
  unfold unseen. rewrite forallb_forall. split; intros Hall x Hx.
  - apply (bool_decide_eq_true_1 _), Hall. by apply list_elem_of_In.
  - apply bool_decide_eq_true_2, Hall. by apply list_elem_of_In.
Qed.

(** A message that has been seen is not behind an access. *)
Lemma unseen_drop V h i k x :
  unseen V (drop i h) = true -> h !! k = Some x -> ident x ∈ V -> (k < i)%nat.
Proof.
  intros Hun Hk Hx. destruct (Nat.lt_ge_cases k i) as [|Hge]; [done|exfalso].
  rewrite unseen_spec in Hun. apply (Hun x); [|done].
  apply list_elem_of_lookup. exists (k - i)%nat. rewrite lookup_drop, <- Hk. f_equal. lia.
Qed.

Lemma learn_sub o x V : V ⊆ learn o x V.
Proof. unfold learn. set_solver. Qed.

Lemma learn_ident o x V : ident x ∈ learn o x V.
Proof. unfold learn. set_solver. Qed.

Lemma learn_carries o x V : acquires o = true -> carries x ⊆ learn o x V.
Proof. unfold learn. intros ->. set_solver. Qed.

Lemma load_spec o h i V v V' :
  load o h i V = Some (v, V') <->
  exists x, h !! i = Some x /\ unseen V (drop (S i) h) = true /\ v = value x /\ V' = learn o x V.
Proof.
  unfold load. destruct (h !! i) as [x|]; simpl; [|naive_solver].
  case_match; naive_solver.
Qed.

Lemma store_spec o h i new v V h' V' :
  store o h i new v V = Some (h', V') ->
  (i <= length h)%nat /\ unseen V (drop i h) = true /\ vacant h i = true /\
  h' = take i h ++ mkMessage new v (if releases o then {[new]} ∪ V else ∅) false :: drop i h /\
  V' = {[new]} ∪ V.
Proof.
  unfold store. destruct (Nat.leb_spec i (length h)); simpl; [|done].
  destruct (unseen V _); simpl; [|done]. destruct (vacant h i); simpl; [|done]. by intros [= <- <-].
Qed.

Lemma rmw_spec o f h i new V v h' V' :
  rmw o f h i new V = Some (v, h', V') ->
  exists x, h !! i = Some x /\ unseen V (drop (S i) h) = true /\ vacant h (S i) = true /\ v = value x /\
    V' = {[new]} ∪ learn o x V /\
    h' = take (S i) h ++
      mkMessage new (f (value x)) (carries x ∪ (if releases o then V' else ∅)) true :: drop (S i) h.
Proof.
  unfold rmw. destruct (h !! i) as [x|]; simpl; [|done].
  destruct (unseen V _); simpl; [|done]. destruct (vacant h (S i)); simpl; [|done].
  intros [= <- <- <-]. by exists x.
Qed.

(** Nobody forgets. *)
Lemma load_grows o h i V v V' : load o h i V = Some (v, V') -> V ⊆ V'.
Proof. intros (x & _ & _ & _ & ->)%load_spec. apply learn_sub. Qed.

Lemma store_grows o h i new v V h' V' : store o h i new v V = Some (h', V') -> V ⊆ V'.
Proof. intros (_ & _ & _ & _ & ->)%store_spec. set_solver. Qed.

Lemma rmw_grows o f h i new V v h' V' : rmw o f h i new V = Some (v, h', V') -> V ⊆ V'.
Proof. intros (x & _ & _ & _ & _ & -> & _)%rmw_spec. pose proof (learn_sub o x V). set_solver. Qed.

(** The latest message can always be read, and something put behind it. *)
Lemma load_latest o h V x : last h = Some x -> load o h (pred (length h)) V = Some (value x, learn o x V).
Proof.
  rewrite last_lookup. intros Hx. apply load_spec. exists x. split_and!; try done.
  assert (0 < length h)%nat by (destruct h; simpl; [done|lia]).
  by rewrite drop_ge by lia.
Qed.

Lemma rmw_latest o f h new V x :
  last h = Some x ->
  rmw o f h (pred (length h)) new V =
    Some (value x, h ++ [mkMessage new (f (value x)) (carries x ∪ (if releases o then {[new]} ∪ learn o x V else ∅)) true],
      {[new]} ∪ learn o x V).
Proof.
  rewrite last_lookup. intros Hx. assert (0 < length h)%nat by (destruct h; simpl; [done|lia]).
  unfold rmw. rewrite Hx. simpl. unfold vacant. rewrite Nat.succ_pred by lia.
  rewrite drop_ge, lookup_ge_None_2, take_ge by lia. done.
Qed.

(** ** Objects that are only read, and changed by read-modify-writes *)

Definition chained h : Prop := forall i x, h !! S i = Some x -> attached x = true.

Lemma chained_initial v : chained (initial v).
Proof. by intros i x. Qed.

Lemma chained_vacant h i x : chained h -> h !! i = Some x -> vacant h (S i) = true -> last h = Some x /\ S i = length h.
Proof.
  intros Hc Hi Hv. unfold vacant in Hv. pose proof (lookup_lt_Some _ _ _ Hi).
  destruct (h !! S i) as [y|] eqn:Hy; [by rewrite (Hc _ _ Hy) in Hv|].
  apply lookup_ge_None in Hy. assert (S i = length h) as Hl by lia. split; [|done].
  rewrite last_lookup, <- Hl. done.
Qed.

(** They are changed at the end only. *)
Lemma chained_rmw o f h i new V v h' V' :
  chained h -> rmw o f h i new V = Some (v, h', V') ->
  exists x, last h = Some x /\ S i = length h /\ v = value x /\ V' = {[new]} ∪ learn o x V /\
    h' = h ++ [mkMessage new (f v) (carries x ∪ (if releases o then V' else ∅)) true] /\ chained h'.
Proof.
  intros Hc Hr. apply rmw_spec in Hr as (x & Hi & _ & Hv & -> & -> & ->).
  destruct (chained_vacant _ _ _ Hc Hi Hv) as [Hl Hlen]. exists x.
  rewrite Hlen, take_ge, drop_ge by lia. split_and!; try done.
  intros k y Hy. apply lookup_app_Some in Hy as [Hy|[_ Hy]]; [by eapply Hc|].
  apply list_lookup_singleton_Some in Hy as [_ <-]. done.
Qed.
End atomic.

Arguments message A : clear implicits.

#[export] Instance message_eq_dec `{EqDecision A} : EqDecision (message A).
Proof. solve_decision. Defined.

(** ** Threads *)
Section threads.
Context {Pc : Type}.

(** Where a thread is, and what it has seen. *)
Record thread := mkThread { at_pc : Pc; seen : view }.

(** An access of a thread to ordinary data is no race with [accesses] made
    before if the thread has seen them all. *)
Definition race_free (accesses : view) (th : thread) : bool := bool_decide (accesses ⊆ seen th).

(** A thread accesses ordinary data. *)
Definition touch (new : nat) (th : thread) : thread := mkThread (at_pc th) ({[new]} ∪ seen th).
End threads.
Arguments thread Pc : clear implicits.

#[export] Instance thread_eq_dec `{EqDecision Pc} : EqDecision (thread Pc).
Proof. solve_decision. Defined.
