(* ===== verification/DList.v ===== *)
(** * Intrusive doubly linked lists

    The waiting queue of the fair semaphore and the recency list of the LRU
    cache are chains of nodes that hold each other's addresses.  A heap of
    nodes is seen here through [g], the previous and next pointers of each
    address; [dseg] says that a list of addresses is chained both ways. *)

From S2P Require Import Prelude.

Section dlist.
Context {L : Type}.
Implicit Types (g : L -> option (option L * option L)) (x y : L) (l : list L) (p n : option L).

(** The first / last address of [l], or a default when [l] is empty. *)
Definition first l n : option L := match l with [] => n | x :: _ => Some x end.
Definition final l p : option L := match last l with Some x => Some x | None => p end.

(** [dseg g p l n]: the nodes of [l] are chained in order; [p] precedes the
    first and [n] follows the last. *)
Fixpoint dseg g p l n : Prop :=
  match l with
  | [] => True
  | x :: l => g x = Some (p, first l n) /\ dseg g (Some x) l n
  end.

(** A whole list, with its head and tail pointers. *)
Definition dlist g (hd tl : option L) l : Prop :=
  hd = head l /\ tl = last l /\ NoDup l /\ dseg g None l None.

Lemma first_app l1 l2 n : first (l1 ++ l2) n = first l1 (first l2 n).
Proof. by destruct l1. Qed.

Lemma final_cons x l p : final (x :: l) p = final l (Some x).
Proof. unfold final. rewrite last_cons. by destruct (last l). Qed.

Lemma final_snoc l x p : final (l ++ [x]) p = Some x.
Proof. unfold final. by rewrite last_snoc. Qed.

Lemma first_head l : first l None = head l.
Proof. by destruct l. Qed.

Lemma final_last l : final l None = last l.
Proof. unfold final. by destruct (last l). Qed.

Lemma dseg_app g p l1 l2 n :
  dseg g p (l1 ++ l2) n <-> dseg g p l1 (first l2 n) /\ dseg g (final l1 p) l2 n.
Proof.
  revert p. induction l1 as [|x l1 IH]; intros p; simpl; [tauto|].
  rewrite first_app, IH, final_cons. tauto.
Qed.

(** Only the nodes of the segment matter. *)
Lemma dseg_ext g g' p l n :
  (forall x, x ∈ l -> g' x = g x) -> dseg g p l n -> dseg g' p l n.
Proof.
  revert p. induction l as [|x l IH]; intros p; simpl; [done|].
  intros Hg [Hx Hl]. rewrite Hg by set_solver. split; [done|].
  apply IH; [|done]. set_solver.
Qed.

(** Relinking an end of a segment. *)
Lemma dseg_relink_last g g' p l x n n' :
  (forall y, y ∈ l -> g' y = g y) -> g' x = Some (final l p, n') ->
  dseg g p (l ++ [x]) n -> dseg g' p (l ++ [x]) n'.
Proof.
  intros Hl Hx. rewrite !dseg_app. simpl. intros (Hseg & _ & _).
  split; [by eapply dseg_ext|]. by rewrite Hx.
Qed.

Lemma dseg_relink_first g g' p p' x l n :
  (forall y, y ∈ l -> g' y = g y) -> g' x = Some (p', first l n) ->
  dseg g p (x :: l) n -> dseg g' p' (x :: l) n.
Proof. intros Hl Hx [_ Hseg]. split; [done|]. by eapply dseg_ext. Qed.

(** The links of a node inside a segment. *)
Lemma dseg_middle g p l1 x l2 n :
  dseg g p (l1 ++ x :: l2) n -> g x = Some (final l1 p, first l2 n).
Proof. rewrite dseg_app. simpl. tauto. Qed.

Lemma dseg_lookup g p l n x : dseg g p l n -> x ∈ l -> is_Some (g x).
Proof.
  intros Hl (l1 & l2 & ->)%list_elem_of_split. apply dseg_middle in Hl. by eexists.
Qed.

(** Relinking the end of a segment, node by node. *)
Lemma dseg_new_last `{!EqDecision L} g g' p l n n' :
  NoDup l -> dseg g p l n ->
  (forall y q r, y ∈ l -> g y = Some (q, r) ->
   g' y = Some (q, if decide (last l = Some y) then n' else r)) ->
  dseg g' p l n'.
Proof.
  intros Hnd Hseg Hg. destruct l as [|x l _] using rev_ind; [done|].
  eapply dseg_relink_last; [| |done].
  - intros y Hy. destruct (dseg_lookup g p (l ++ [x]) n y) as [[q r] Hy']; [done|set_solver|].
    rewrite Hy', (Hg y q r) by set_solver. rewrite last_snoc, decide_False; [done|].
    intros [= ->]. apply NoDup_app in Hnd as (_ & Hd & _). by eapply Hd; [done|set_solver].
  - apply dseg_middle in Hseg. simpl in Hseg.
    rewrite (Hg x (final l p) n) by (done || set_solver). by rewrite last_snoc, decide_True.
Qed.

Lemma dseg_new_first `{!EqDecision L} g g' p p' l n :
  NoDup l -> dseg g p l n ->
  (forall y q r, y ∈ l -> g y = Some (q, r) ->
   g' y = Some (if decide (head l = Some y) then p' else q, r)) ->
  dseg g' p' l n.
Proof.
  intros Hnd Hseg Hg. destruct l as [|x l]; [done|].
  apply NoDup_cons in Hnd as [Hx Hnd]. pose proof Hseg as [Hgx Hl].
  eapply dseg_relink_first; [| |done].
  - intros y Hy. destruct (dseg_lookup g (Some x) l n y) as [[q r] Hy']; [done..|].
    rewrite Hy', (Hg y q r) by set_solver. rewrite decide_False; [done|].
    intros [= ->]. done.
  - rewrite (Hg x p (first l n)) by (done || set_solver). by rewrite decide_True.
Qed.

(** Unlinking [x]: its neighbours are made to point at each other and the
    other links stay. *)
Definition unlinked `{!EqDecision L} l1 l2 (y : L) (lk : option L * option L) : option L * option L :=
  (if decide (head l2 = Some y) then last l1 else lk.1,
   if decide (last l1 = Some y) then head l2 else lk.2).

Lemma dseg_unlink `{!EqDecision L} g g' l1 x l2 :
  NoDup (l1 ++ x :: l2) -> dseg g None (l1 ++ x :: l2) None ->
  (forall y lk, y ∈ l1 ++ l2 -> g y = Some lk -> g' y = Some (unlinked l1 l2 y lk)) ->
  dseg g' None (l1 ++ l2) None.
Proof.
  intros Hnd Hseg Hg. rewrite dseg_app in *. destruct Hseg as (Hl1 & _ & Hl2).
  apply NoDup_app in Hnd as (Hnd1 & Hdisj & [Hx2 Hnd2]%NoDup_cons).
  rewrite first_head, final_last. split.
  - eapply dseg_new_last; [done..|]. intros y q r Hy Hgy.
    rewrite (Hg y (q, r)) by (done || set_solver). unfold unlinked. simpl.
    rewrite (decide_False (P := head l2 = Some y)); [done|].
    intros Hh. apply (Hdisj y Hy). destruct l2; simplify_eq/=. set_solver.
  - eapply dseg_new_first; [done..|]. intros y q r Hy Hgy.
    rewrite (Hg y (q, r)) by (done || set_solver). unfold unlinked. simpl.
    rewrite (decide_False (P := last l1 = Some y)); [done|].
    intros Hh%last_Some_elem_of. apply (Hdisj y Hh). set_solver.
Qed.

(** Linking a new node at the front or at the back. *)
Lemma dseg_push_front `{!EqDecision L} g g' x l :
  NoDup l -> dseg g None l None -> g' x = Some (None, head l) ->
  (forall y q r, y ∈ l -> g y = Some (q, r) ->
   g' y = Some (if decide (head l = Some y) then Some x else q, r)) ->
  dseg g' None (x :: l) None.
Proof.
  intros Hnd Hseg Hx Hg. simpl. rewrite first_head. split; [done|].
  by eapply dseg_new_first.
Qed.

Lemma dseg_push_back `{!EqDecision L} g g' x l :
  NoDup l -> dseg g None l None -> g' x = Some (last l, None) ->
  (forall y q r, y ∈ l -> g y = Some (q, r) ->
   g' y = Some (q, if decide (last l = Some y) then Some x else r)) ->
  dseg g' None (l ++ [x]) None.
Proof.
  intros Hnd Hseg Hx Hg. rewrite dseg_app. simpl. rewrite final_last.
  split; [|done]. by eapply dseg_new_last.
Qed.

(** The chain from a head pointer is unique. *)
Lemma dseg_functional g p l1 l2 :
  dseg g p l1 None -> dseg g p l2 None -> head l1 = head l2 -> l1 = l2.
Proof.
  revert p l2. induction l1 as [|x l1 IH]; intros p [|y l2]; simpl; try done.
  intros [Hx Hl1] [Hy Hl2] [= ->]. f_equal. rewrite Hx in Hy. injection Hy as Hf.
  rewrite !first_head in Hf. by apply (IH (Some y)).
Qed.
End dlist.

(** ** Writing through a pointer that may be null *)

Section alter_at.
Context {K A : Type} `{Countable K}.

Definition alter_at (f : A -> A) (o : option K) (m : gmap K A) : gmap K A :=
  match o with Some p => alter f p m | None => m end.

Lemma lookup_alter_at f o (m : gmap K A) x :
  alter_at f o m !! x = (if decide (o = Some x) then f <$> m !! x else m !! x).
Proof.
  destruct o as [p|]; simpl; [rewrite lookup_alter|].
  all: repeat case_decide; naive_solver.
Qed.

Lemma alter_at_is_Some f o (m : gmap K A) x : is_Some (alter_at f o m !! x) <-> is_Some (m !! x).
Proof. rewrite lookup_alter_at. case_decide; [apply fmap_is_Some|done]. Qed.
End alter_at.
