(* ===== verification/WaitQueue.v ===== *)
(** * concurrency/semaphore.h: the waiting queue of QueuedSemaphore

    [WaitQueue] is a doubly linked list of waiting nodes with a free list of
    cached nodes.  Nodes live in a heap indexed by address; an operation is
    [None] when it would dereference a null or unknown pointer. *)

From S2P Require Import Prelude DList.

Abbreviation loc := nat.

(** [struct WaitNode]; its condition variable is identified with its address. *)
Record WaitNode := mkNode {
  wakeable : bool;
  prev : option loc;
  next : option loc;
}.

(** [class WaitQueue], with the heap of the nodes it allocated and the next
    address the allocator returns. *)
Record WaitQueue := mkQueue {
  nodes : gmap loc WaitNode;
  brk : loc;
  head_ : option loc;
  tail_ : option loc;
  cache_head : option loc;
  cur_queue_capacity : Z;
}.

Definition set_wakeable (b : bool) (n : WaitNode) := mkNode b (prev n) (next n).
Definition set_prev (p : option loc) (n : WaitNode) := mkNode (wakeable n) p (next n).
Definition set_next (p : option loc) (n : WaitNode) := mkNode (wakeable n) (prev n) p.

Definition set_nodes (m : gmap loc WaitNode) (q : WaitQueue) :=
  mkQueue m (brk q) (head_ q) (tail_ q) (cache_head q) (cur_queue_capacity q).
Definition set_head (p : option loc) (q : WaitQueue) :=
  mkQueue (nodes q) (brk q) p (tail_ q) (cache_head q) (cur_queue_capacity q).
Definition set_tail (p : option loc) (q : WaitQueue) :=
  mkQueue (nodes q) (brk q) (head_ q) p (cache_head q) (cur_queue_capacity q).
Definition set_cache_head (p : option loc) (q : WaitQueue) :=
  mkQueue (nodes q) (brk q) (head_ q) (tail_ q) p (cur_queue_capacity q).
Definition set_capacity (c : Z) (q : WaitQueue) :=
  mkQueue (nodes q) (brk q) (head_ q) (tail_ q) (cache_head q) c.

(** [n->field = v]. *)
Definition upd (q : WaitQueue) (n : loc) (f : WaitNode -> WaitNode) : option WaitQueue :=
  nd ← nodes q !! n; Some (set_nodes (<[n := f nd]> (nodes q)) q).

(** One iteration of [alloc_cache]: [new WaitNode()], linked at the front of
    the free list. *)
Definition alloc_node (q : WaitQueue) : WaitQueue :=
  let cur := brk q in
  mkQueue (<[cur := mkNode false None (cache_head q)]> (nodes q)) (S cur)
    (head_ q) (tail_ q) (Some cur) (cur_queue_capacity q).

Definition alloc_cache (q : WaitQueue) : WaitQueue :=
  Nat.iter (Z.to_nat (cur_queue_capacity q)) alloc_node q.

(** The constructor: [head], [tail], [cache_head] null, capacity 256. *)
Definition new_queue : WaitQueue := alloc_cache (mkQueue ∅ 0 None None None 256).

(** [cur_queue_capacity <<= 1] on a 64-bit [size_t]. *)
Definition double_capacity (q : WaitQueue) : WaitQueue :=
  set_capacity (wrap_u 64 (Z.shiftl (cur_queue_capacity q) 1)) q.

Definition enqueue (q : WaitQueue) : option (WaitQueue * loc) :=
  let q := match cache_head q with
           | None => double_capacity (alloc_cache q)
           | Some _ => q
           end in
  cur ← cache_head q;
  nd ← nodes q !! cur;
  let q := set_cache_head (next nd) q in
  q ← upd q cur (set_wakeable false);
  q ← upd q cur (set_next None);
  match tail_ q with
  | None => Some (set_tail (Some cur) (set_head (Some cur) q), cur)
  | Some tl =>
      q ← upd q tl (set_next (Some cur));
      q ← upd q cur (set_prev (Some tl));
      Some (set_tail (Some cur) q, cur)
  end.

(** The first half of [remove]: the queue's end pointers, from [node->prev]
    and [node->next]. *)
Definition fix_ends (q : WaitQueue) (n : loc) (nd : WaitNode) : WaitQueue :=
  let q := if decide (head_ q = Some n /\ head_ q = tail_ q)
           then set_tail None (set_head None q) else q in
  let q := if decide (head_ q = Some n) then set_head (next nd) q else q in
  if decide (tail_ q = Some n) then set_tail (prev nd) q else q.

Definition remove (q : WaitQueue) (node : option loc) : option WaitQueue :=
  match node with
  | None => Some q
  | Some n =>
      nd ← nodes q !! n;
      let q := fix_ends q n nd in
      q ← match prev nd with
          | Some p => upd q p (set_next (next nd))
          | None => Some q
          end;
      nd ← nodes q !! n;
      q ← match next nd with
          | Some x => upd q x (set_prev (prev nd))
          | None => Some q
          end;
      q ← upd q n (set_prev None);
      q ← upd q n (set_next (cache_head q));
      Some (set_cache_head (Some n) q)
  end.

Definition dequeue (q : WaitQueue) : option WaitQueue := remove q (head_ q).

(** [wake_head]: marks the head; the caller's [notify_all] on its condition
    variable is returned as the address to notify. *)
Definition wake_head (q : WaitQueue) : option (WaitQueue * option loc) :=
  match head_ q with
  | None => Some (q, None)
  | Some h => q ← upd q h (set_wakeable true); Some (q, Some h)
  end.

Definition is_empty (q : WaitQueue) : bool := bool_decide (head_ q = None).

(** [ctr += 1] on an [int]: undefined when it overflows. *)
Definition int_incr (ctr : Z) : option Z := if (ctr <? INT_MAX)%Z then Some (ctr + 1)%Z else None.

(** The counting loop, with fuel for the number of iterations. *)
Fixpoint count_from (fuel : nat) (q : WaitQueue) (p : option loc) (ctr : Z) : option Z :=
  match p, fuel with
  | None, _ => Some ctr
  | Some n, S fuel => ctr ← int_incr ctr; nd ← nodes q !! n; count_from fuel q (next nd) ctr
  | Some _, O => None
  end.

Definition num_waiting_nodes (fuel : nat) (q : WaitQueue) : option Z :=
  match head_ q with
  | None => Some 0%Z
  | Some h => count_from fuel q (Some h) 0
  end.

(** The destructor: both lists are deleted node by node; deleting a node that
    is not allocated is [None]. *)
Fixpoint delete_list (fuel : nat) (m : gmap loc WaitNode) (p : option loc)
    : option (gmap loc WaitNode) :=
  match p, fuel with
  | None, _ => Some m
  | Some n, S fuel => nd ← m !! n; delete_list fuel (delete n m) (next nd)
  | Some _, O => None
  end.

Definition destroy (fuel : nat) (q : WaitQueue) : option (gmap loc WaitNode) :=
  m ← delete_list fuel (nodes q) (head_ q);
  delete_list fuel m (cache_head q).

(** ** What a queue represents *)

Definition links (m : gmap loc WaitNode) (n : loc) : option (option loc * option loc) :=
  (fun nd => (prev nd, next nd)) <$> m !! n.

(** The free list: forward links, no backward ones. *)
Fixpoint free_list (m : gmap loc WaitNode) (l : list loc) : Prop :=
  match l with
  | [] => True
  | x :: l => links m x = Some (None, head l) /\ free_list m l
  end.

(** [shape q l c]: the nodes [l] wait, in order; the nodes [c] are cached;
    there are no others. *)
Record shape (q : WaitQueue) (l c : list loc) : Prop := {
  shape_head : head_ q = head l;
  shape_tail : tail_ q = last l;
  shape_cache : cache_head q = head c;
  shape_nodup : NoDup (l ++ c);
  shape_queue : dseg (links (nodes q)) None l None;
  shape_free : free_list (nodes q) c;
  shape_dom : forall x, is_Some (nodes q !! x) <-> x ∈ l ++ c;
  shape_brk : forall x, x ∈ l ++ c -> x < brk q;
}.

(** The capacity field is the number of nodes, which never falls below the
    first allocation. *)
Definition represents (q : WaitQueue) (l c : list loc) : Prop :=
  shape q l c /\ cur_queue_capacity q = Z.of_nat (length (l ++ c)) /\
  (256 <= cur_queue_capacity q)%Z.

(** Whether the node at [n] is marked to wake. *)
Definition wakeable_at (q : WaitQueue) (n : loc) : bool :=
  match nodes q !! n with Some nd => wakeable nd | None => false end.

(** ** What the queue promises the semaphore

    A list of waiting nodes with their marks, in order of arrival. *)

Inductive queue_op := Enqueue | Dequeue | Remove (n : loc) | WakeHead.

(** One operation; the address is the new node, or the node notified. *)
Definition exec_op (o : queue_op) (q : WaitQueue) : option (WaitQueue * option loc) :=
  match o with
  | Enqueue => r ← enqueue q; Some (r.1, Some r.2)
  | Dequeue => q ← dequeue q; Some (q, None)
  | Remove n => q ← remove q (Some n); Some (q, None)
  | WakeHead => wake_head q
  end.

Inductive queue_spec : list (loc * bool) -> queue_op -> option loc -> list (loc * bool) -> Prop :=
| spec_enqueue l x : x ∉ l.*1 -> queue_spec l Enqueue (Some x) (l ++ [(x, false)])
| spec_dequeue_nil : queue_spec [] Dequeue None []
| spec_dequeue n b l : queue_spec ((n, b) :: l) Dequeue None l
| spec_remove l1 n b l2 : queue_spec (l1 ++ (n, b) :: l2) (Remove n) None (l1 ++ l2)
| spec_wake_nil : queue_spec [] WakeHead None []
| spec_wake n b l : queue_spec ((n, b) :: l) WakeHead (Some n) ((n, true) :: l).

(** A queue that holds this list. *)
Definition holds_list (q : WaitQueue) (l : list (loc * bool)) : Prop :=
  (exists c, represents q l.*1 c) /\ Forall (fun nb => wakeable_at q nb.1 = nb.2) l.

(** Only a waiting node may be removed, and fewer than 2^62 threads wait. *)
Definition may_exec (o : queue_op) (l : list (loc * bool)) : Prop :=
  match o with
  | Remove n => n ∈ l.*1
  | Enqueue => (Z.of_nat (length l) < 2 ^ 62)%Z
  | _ => True
  end.
