(* ===== verification/WaitQueueProofs.v ===== *)
(** * The waiting queue implements a FIFO list with removal

    Helper lemmas on the heap, then one lemma per operation: what each does to
    the lists a queue represents. *)

From S2P Require Import Prelude DList WaitQueue.

(** ** Heap updates through optional pointers *)

Lemma upd_spec q n f :
  is_Some (nodes q !! n) -> upd q n f = Some (set_nodes (alter f n (nodes q)) q).
Proof. intros [nd Hn]. unfold upd. by rewrite Hn, (alter_alt_Some _ _ _ _ Hn). Qed.

Lemma upd_at_spec q o f :
  (forall p, o = Some p -> is_Some (nodes q !! p)) ->
  match o with Some p => upd q p f | None => Some q end
  = Some (set_nodes (alter_at f o (nodes q)) q).
Proof.
  intros Ho. destruct o as [p|]; simpl; [by apply upd_spec, Ho|]. by destruct q.
Qed.

Lemma links_is_Some m x : is_Some (links m x) <-> is_Some (m !! x).
Proof. unfold links. apply fmap_is_Some. Qed.

Lemma links_lookup m x p n : links m x = Some (p, n) -> exists w, m !! x = Some (mkNode w p n).
Proof.
  unfold links. intros ([w p' n'] & Hx & [= -> ->])%fmap_Some. by exists w.
Qed.

Lemma free_list_ext m m' c :
  (forall x, x ∈ c -> links m' x = links m x) -> free_list m c -> free_list m' c.
Proof.
  induction c as [|x c IH]; simpl; [done|]. intros Hm [Hx Hc].
  rewrite Hm by set_solver. split; [done|]. apply IH; [set_solver|done].
Qed.

Lemma shape_waiting q l1 n l2 c :
  shape q (l1 ++ n :: l2) c ->
  exists w, nodes q !! n = Some (mkNode w (last l1) (head l2)).
Proof.
  intros H. pose proof (dseg_middle _ _ _ _ _ _ (shape_queue _ _ _ H)) as Hn.
  rewrite final_last, first_head in Hn. by apply links_lookup.
Qed.

Lemma shape_is_Some q l c x : shape q l c -> x ∈ l -> is_Some (nodes q !! x).
Proof. intros H Hx. apply (shape_dom _ _ _ H). set_solver. Qed.

(** ** Allocation *)

Lemma alloc_node_shape q l c : shape q l c -> shape (alloc_node q) l (brk q :: c).
Proof.
  intros [Hh Ht Hc Hnd Hq Hf Hd Hb].
  assert (Hn : nodes q !! brk q = None).
  { apply eq_None_not_Some. intros Hs. apply Hd, Hb in Hs. lia. }
  assert (Hne : forall x, x ∈ l ++ c -> brk q <> x) by (intros x Hx%Hb; lia).
  assert (Hl : forall x, x ∈ l ++ c ->
    links (<[brk q := mkNode false None (cache_head q)]> (nodes q)) x = links (nodes q) x).
  { intros x Hx. unfold links. by rewrite lookup_insert_ne by auto. }
  split; simpl; try done.
  - apply NoDup_app in Hnd as (Hl1 & Hdisj & Hc1). apply NoDup_app.
    split_and_all; [done| |].
    + intros x Hx [->|Hxc]%elem_of_cons; [|by eapply Hdisj].
      eapply Hne; [|done]. set_solver.
    + apply NoDup_cons. split; [|done]. intros Hx. eapply Hne; [|done]. set_solver.
  - eapply dseg_ext; [|done]. intros x Hx. apply Hl. set_solver.
  - split; [|eapply free_list_ext; [|done]; intros x Hx; apply Hl; set_solver].
    unfold links. rewrite lookup_insert_eq. simpl. by rewrite Hc.
  - intros x. rewrite lookup_insert_is_Some, Hd. set_unfold. destruct (decide (brk q = x)); naive_solver.
  - intros x Hx. assert (x = brk q \/ x ∈ l ++ c) as [->|Hx'%Hb] by set_solver; lia.
Qed.

Lemma alloc_nodes_shape k q l c :
  shape q l c ->
  exists c', length c' = k /\ shape (Nat.iter k alloc_node q) l (c' ++ c).
Proof.
  intros H. induction k as [|k (c' & Hk & IH)]; simpl; [by exists []|].
  eexists (_ :: c'). split; [by rewrite <- Hk|]. by apply alloc_node_shape.
Qed.

Lemma alloc_nodes_capacity k q :
  cur_queue_capacity (Nat.iter k alloc_node q) = cur_queue_capacity q.
Proof. by induction k. Qed.

Lemma alloc_cache_shape q l c :
  shape q l c ->
  exists c', length c' = Z.to_nat (cur_queue_capacity q) /\ shape (alloc_cache q) l (c' ++ c).
Proof. apply alloc_nodes_shape. Qed.

(** Allocation does not touch the nodes there are. *)
Lemma alloc_cache_wakeable q l c y :
  shape q l c -> y ∈ l -> wakeable_at (double_capacity (alloc_cache q)) y = wakeable_at q y.
Proof.
  intros H Hy. unfold alloc_cache.
  enough (exists c', wakeable_at (Nat.iter (Z.to_nat (cur_queue_capacity q)) alloc_node q) y
    = wakeable_at q y /\ shape (Nat.iter (Z.to_nat (cur_queue_capacity q)) alloc_node q) l c')
    as (? & ? & _) by done.
  induction (Z.to_nat (cur_queue_capacity q)) as [|k (c' & IH & Hs)]; simpl; [by exists c|].
  eexists. split; [|by apply alloc_node_shape]. rewrite <- IH. unfold wakeable_at. simpl.
  rewrite lookup_insert_ne; [done|]. intros <-.
  assert (brk (Nat.iter k alloc_node q) < brk (Nat.iter k alloc_node q)); [|lia].
  apply (shape_brk _ _ _ Hs). set_solver.
Qed.

Lemma new_queue_represents : exists c, represents new_queue [] c /\ length c = 256.
Proof.
  destruct (alloc_cache_shape (mkQueue ∅ 0 None None None 256) [] []) as (c & Hc & Hs).
  { split; simpl; try done.
    - apply NoDup_nil_2.
    - intros x. rewrite lookup_empty. split; [by intros []|set_solver].
    - set_solver. }
  rewrite app_nil_r in Hs. exists c. split; [|done]. split; [done|].
  unfold new_queue, alloc_cache. rewrite alloc_nodes_capacity. simpl in *. lia.
Qed.

(** Doubling, when the cache is empty. *)
Lemma double_represents q l :
  represents q l [] -> (Z.of_nat (length l) < 2 ^ 62)%Z ->
  exists x c, represents (double_capacity (alloc_cache q)) l (x :: c).
Proof.
  intros (Hs & Hcap & Hmin) Hlt. rewrite app_nil_r in Hcap.
  destruct (alloc_cache_shape q l [] Hs) as ([|x c] & Hc & Hs'); simpl in Hc; [lia|].
  rewrite app_nil_r in Hs'. exists x, c.
  assert (Hd : cur_queue_capacity (double_capacity (alloc_cache q))
               = (2 * Z.of_nat (length l))%Z).
  { unfold double_capacity, alloc_cache. simpl. rewrite alloc_nodes_capacity, Hcap.
    rewrite Z.shiftl_mul_pow2 by lia. rewrite wrap_u_small by lia. lia. }
  unfold represents. split_and_all.
  - by destruct Hs'; split.
  - rewrite Hd, length_app. simpl. lia.
  - lia.
Qed.

(** ** enqueue *)

Lemma shape_cached q l x c :
  shape q l (x :: c) -> exists w, nodes q !! x = Some (mkNode w None (head c)).
Proof. intros H. destruct (shape_free _ _ _ H) as [Hx _]. by apply links_lookup. Qed.

(** The heap after the links of [enqueue] are written. *)
Lemma enqueue_cached q l x c :
  shape q l (x :: c) ->
  exists q', enqueue q = Some (q', x) /\
    tail_ q' = Some x /\ head_ q' = head (l ++ [x]) /\ cache_head q' = head c /\
    brk q' = brk q /\ cur_queue_capacity q' = cur_queue_capacity q /\
    forall y, nodes q' !! y =
      if decide (y = x) then Some (mkNode false (last l) None)
      else if decide (last l = Some y) then set_next (Some x) <$> nodes q !! y
      else nodes q !! y.
Proof.
  intros H. destruct (shape_cached _ _ _ _ H) as [w Hx].
  pose proof (shape_nodup _ _ _ H) as (_ & Hdisj & _)%NoDup_app.
  destruct H as [Hh Ht Hc _ _ _ Hd _].
  unfold enqueue. rewrite Hc. simpl. rewrite Hc. simpl. rewrite Hx. simpl.
  rewrite upd_spec by (simpl; by rewrite Hx). simpl.
  rewrite upd_spec by (simpl; rewrite lookup_alter_eq, Hx; by eexists). simpl.
  rewrite Ht. destruct (last l) as [tl|] eqn:Hl.
  - assert (Htl : tl ∈ l) by (by apply last_Some_elem_of).
    assert (Hne : x <> tl) by (intros ->; apply (Hdisj tl Htl); set_solver).
    assert (is_Some (nodes q !! tl)) as [t Htl'] by (apply Hd; set_solver).
    rewrite upd_spec by (simpl; rewrite !lookup_alter_ne, Htl' by done; by eexists). simpl.
    rewrite upd_spec by (simpl; rewrite lookup_alter_ne, !lookup_alter_eq, Hx by done; by eexists).
    eexists. split; [reflexivity|]. simpl. split_and_all; try done.
    + destruct l; by simplify_eq/=.
    + intros y. rewrite !lookup_alter, Hx. repeat case_decide; simplify_eq/=; try done.
  - apply last_None in Hl as ->. eexists. split; [reflexivity|]. simpl. split_and_all; try done.
    intros y. rewrite !lookup_alter, Hx. repeat case_decide; by simplify_eq/=.
Qed.

(** [enqueue] appends a node of the cache, unmarked, and leaves the marks of
    the others. *)
Lemma enqueue_shape q l x c :
  shape q l (x :: c) ->
  exists q', enqueue q = Some (q', x) /\ shape q' (l ++ [x]) c /\
    cur_queue_capacity q' = cur_queue_capacity q /\
    wakeable_at q' x = false /\
    forall y, y <> x -> wakeable_at q' y = wakeable_at q y.
Proof.
  intros H. destruct (enqueue_cached _ _ _ _ H) as (q' & He & Ht & Hh & Hc & Hb & Hcap & Hm).
  exists q'. destruct H as [_ _ _ Hnd Hq Hf Hd Hbrk].
  pose proof Hnd as (Hnl & Hdisj & [Hxc Hnc]%NoDup_cons)%NoDup_app.
  assert (Hxl : x ∉ l) by (intros Hx; apply (Hdisj x Hx); set_solver).
  split_and_all; [done| |done| |].
  - split; try done.
    + by rewrite last_snoc.
    + rewrite <- app_assoc. done.
    + apply (dseg_push_back (links (nodes q))); [done..| |].
      * unfold links. by rewrite Hm, decide_True.
      * intros y p r Hy Hg. unfold links in *. rewrite Hm, decide_False by set_solver.
        apply fmap_Some in Hg as ([w p' r'] & Hg & [= -> ->]). rewrite Hg.
        by case_decide.
    + eapply free_list_ext; [|apply Hf]. intros y Hy. unfold links. rewrite Hm.
      rewrite decide_False by set_solver. rewrite decide_False; [done|].
      intros Hl%last_Some_elem_of. apply (Hdisj y Hl). set_solver.
    + intros y. rewrite Hm. rewrite <- app_assoc. simpl. rewrite <- Hd.
      case_decide as Hyx; [|case_decide; [by rewrite fmap_is_Some|done]].
      subst y. split; [|by eexists]. intros _. apply Hd. set_solver.
    + intros y Hy. rewrite Hb. apply Hbrk. set_solver.
  - unfold wakeable_at. by rewrite Hm, decide_True.
  - intros y Hy. unfold wakeable_at. rewrite Hm, decide_False by done.
    case_decide; [|done]. by destruct (nodes q !! y).
Qed.

Lemma enqueue_grows q :
  cache_head q = None -> cache_head (double_capacity (alloc_cache q)) <> None ->
  enqueue q = enqueue (double_capacity (alloc_cache q)).
Proof.
  intros Hc Hc'. unfold enqueue. rewrite Hc.
  destruct (cache_head (double_capacity (alloc_cache q))) eqn:E; [by rewrite E|done].
Qed.

Lemma enqueue_spec q l c :
  represents q l c -> (Z.of_nat (length l) < 2 ^ 62)%Z ->
  exists q' x c', enqueue q = Some (q', x) /\ represents q' (l ++ [x]) c' /\
    x ∉ l /\ wakeable_at q' x = false /\ forall y, y ∈ l -> wakeable_at q' y = wakeable_at q y.
Proof.
  intros H Hlt.
  assert (exists q1 x c1, represents q1 l (x :: c1) /\ enqueue q = enqueue q1 /\
    forall y, y ∈ l -> wakeable_at q1 y = wakeable_at q y) as (q1 & x & c1 & H1 & Heq & Hw).
  { destruct c as [|x c]; [|by exists q, x, c].
    destruct (double_represents q l H Hlt) as (x & c & H').
    eexists _, x, c. split; [done|]. destruct H as (H & _ & _). split.
    - apply enqueue_grows; [apply (shape_cache _ _ _ H)|].
      destruct H' as (H' & _). by rewrite (shape_cache _ _ _ H').
    - intros y Hy. by eapply alloc_cache_wakeable. }
  destruct H1 as (H1 & Hcap & Hmin).
  destruct (enqueue_shape q1 l x c1 H1) as (q' & He & Hs & Hcap' & Hx & Hy).
  assert (Hxl : x ∉ l).
  { apply shape_nodup, NoDup_app in H1 as (_ & Hd & _). intros Hx'. apply (Hd x Hx'). set_solver. }
  exists q', x, c1. rewrite Heq. unfold represents. split_and_all; try done.
  - rewrite Hcap', Hcap. f_equal. rewrite !length_app. simpl. lia.
  - by rewrite Hcap'.
  - intros y Hyl. rewrite Hy by (by intros ->). by apply Hw.
Qed.

(** ** remove *)

(** A node after its neighbour has been unlinked. *)
Definition unlink_node (l1 l2 : list loc) (y : loc) (nd : WaitNode) : WaitNode :=
  mkNode (wakeable nd) (if decide (head l2 = Some y) then last l1 else prev nd)
    (if decide (last l1 = Some y) then head l2 else next nd).

Lemma fix_ends_spec q l1 n l2 c nd :
  shape q (l1 ++ n :: l2) c -> prev nd = last l1 -> next nd = head l2 ->
  fix_ends q n nd = set_tail (last (l1 ++ l2)) (set_head (head (l1 ++ l2)) q).
Proof.
  intros H Hp Hn. pose proof (shape_nodup _ _ _ H) as (Hnd & _ & _)%NoDup_app.
  apply NoDup_app in Hnd as (Hnd1 & Hdisj & [Hn2 Hnd2]%NoDup_cons).
  assert (Hn1 : n ∉ l1) by (intros Hn1; apply (Hdisj n Hn1); set_solver).
  destruct H as [Hh Ht _ _ _ _ _ _]. rewrite last_app_cons in Ht.
  assert (Hhn : head (l1 ++ n :: l2) = Some n <-> l1 = []).
  { destruct l1; simpl; [done|]. set_solver. }
  assert (Htn : last (n :: l2) = Some n <-> l2 = []).
  { destruct l2; [done|]. rewrite last_cons_cons. split; [|done].
    by intros Hl%last_Some_elem_of. }
  assert (H1 : head_ q = Some n -> head (l1 ++ l2) = head l2).
  { rewrite Hh. by intros ->%Hhn. }
  assert (H2 : head_ q <> Some n -> head (l1 ++ l2) = head_ q).
  { rewrite Hh, Hhn. by destruct l1. }
  assert (H3 : tail_ q = Some n -> last (l1 ++ l2) = last l1).
  { rewrite Ht. intros ->%Htn. by rewrite app_nil_r. }
  assert (H4 : tail_ q <> Some n -> last (l1 ++ l2) = tail_ q).
  { rewrite Ht, Htn. destruct l2; [done|]. by rewrite !last_app_cons, last_cons_cons. }
  assert (H5 : head_ q = Some n /\ head_ q = tail_ q -> l1 ++ l2 = []).
  { rewrite Hh, Ht. intros [Hx Hy]. rewrite Hx in Hy. symmetry in Hy.
    apply Hhn in Hx as ->. by apply Htn in Hy as ->. }
  destruct q as [m br h t ch cap]. unfold fix_ends, set_tail, set_head. simpl in *.
  destruct (decide (h = Some n /\ h = t)) as [Hd|Hd]; simpl.
  { by rewrite H5 by done. }
  destruct (decide (h = Some n)) as [Hx|Hx]; simpl; destruct (decide (t = Some n)) as [Hy|Hy];
    simpl; try (exfalso; apply Hd; by rewrite Hx, Hy); f_equal; rewrite ?Hp, ?Hn; symmetry; auto.
Qed.

Lemma remove_unlinks q l1 n l2 c :
  shape q (l1 ++ n :: l2) c ->
  exists q' w, remove q (Some n) = Some q' /\
    head_ q' = head (l1 ++ l2) /\ tail_ q' = last (l1 ++ l2) /\ cache_head q' = Some n /\
    brk q' = brk q /\ cur_queue_capacity q' = cur_queue_capacity q /\
    nodes q !! n = Some (mkNode w (last l1) (head l2)) /\
    forall y, nodes q' !! y =
      if decide (y = n) then Some (mkNode w None (cache_head q))
      else unlink_node l1 l2 y <$> nodes q !! y.
Proof.
  intros H. destruct (shape_waiting _ _ _ _ _ H) as [w Hn].
  set (nd := mkNode w (last l1) (head l2)) in *.
  pose proof (fix_ends_spec q l1 n l2 c nd H eq_refl eq_refl) as Hends.
  pose proof (shape_nodup _ _ _ H) as (Hnd & _ & _)%NoDup_app.
  apply NoDup_app in Hnd as (Hnd1 & Hdisj & [Hn2 Hnd2]%NoDup_cons).
  assert (Hp : last l1 <> Some n).
  { intros Hl%last_Some_elem_of. apply (Hdisj n Hl). set_solver. }
  assert (Hx : head l2 <> Some n) by (destruct l2; set_solver).
  assert (Hin : forall p, last l1 = Some p \/ head l2 = Some p -> is_Some (nodes q !! p)).
  { intros p Hpx. eapply shape_is_Some; [done|].
    destruct Hpx as [Hl%last_Some_elem_of|Hl]; [set_solver|]. destruct l2; set_solver. }
  set (m1 := alter_at (set_next (head l2)) (last l1) (nodes q)).
  set (m2 := alter_at (set_prev (last l1)) (head l2) m1).
  assert (Hn1 : m1 !! n = Some nd) by (unfold m1; by rewrite lookup_alter_at, decide_False).
  assert (Hn2' : m2 !! n = Some nd) by (unfold m2; by rewrite lookup_alter_at, decide_False).
  eexists (mkQueue (alter (set_next (cache_head q)) n (alter (set_prev None) n m2))
    (brk q) _ _ (Some n) _), w. split_and_all; try reflexivity; [|done|].
  - unfold remove. rewrite Hn. simpl. fold nd. rewrite Hends.
    rewrite (upd_at_spec _ (prev nd)) by (simpl; auto). simpl. fold m1. rewrite Hn1. simpl.
    rewrite upd_at_spec; simpl.
    2: { intros p Hl. unfold m1. apply alter_at_is_Some. auto. }
    fold m2. rewrite upd_spec by (simpl; by rewrite Hn2'). simpl.
    rewrite upd_spec by (simpl; rewrite lookup_alter_eq, Hn2'; by eexists). reflexivity.
  - intros y. simpl. destruct (decide (y = n)) as [->|Hyn].
    { by rewrite !lookup_alter_eq, Hn2'. }
    rewrite !lookup_alter_ne by done. unfold m2, m1. rewrite !lookup_alter_at.
    unfold unlink_node. destruct (nodes q !! y) as [[]|]; simpl; repeat case_decide; done.
Qed.

(** [remove] of a waiting node: the others keep their order and their marks,
    the node goes to the front of the cache. *)
Lemma remove_spec q l1 n l2 c :
  represents q (l1 ++ n :: l2) c ->
  exists q', remove q (Some n) = Some q' /\ represents q' (l1 ++ l2) (n :: c) /\
    forall y, wakeable_at q' y = wakeable_at q y.
Proof.
  intros (H & Hcap & Hmin).
  destruct (remove_unlinks _ _ _ _ _ H) as (q' & w & Hr & Hh & Ht & Hc & Hb & Hcap' & Hn & Hm).
  exists q'. split; [done|]. destruct H as [_ _ Hch Hnd Hq Hf Hd Hbrk].
  assert (HP : (l1 ++ n :: l2) ++ c ≡ₚ (l1 ++ l2) ++ n :: c) by solve_Permutation.
  assert (Hnd' : NoDup ((l1 ++ l2) ++ n :: c)) by (by rewrite <- HP).
  pose proof Hnd' as (_ & Hdisj & [Hnc _]%NoDup_cons)%NoDup_app.
  apply NoDup_app in Hnd as (Hndl & Hdl & _).
  unfold represents. split; [split_and_all|].
  - split; try done.
    + eapply (dseg_unlink (links (nodes q))); [done..|]. intros y lk Hy Hg.
      unfold links in *. rewrite Hm, decide_False by (intros ->; eapply Hdisj; set_solver).
      apply fmap_Some in Hg as (nd & Hg & ->). by rewrite Hg.
    + split; [unfold links; by rewrite Hm, decide_True, Hch|].
      eapply free_list_ext; [|done]. intros y Hy. unfold links.
      rewrite Hm, decide_False by (by intros ->).
      destruct (nodes q !! y) as [nd|] eqn:Hy'; [|done]. simpl. do 2 f_equal; apply decide_False.
      * intros Hl. apply (Hdl y); [|done]. destruct l2; set_solver.
      * intros Hl%last_Some_elem_of. apply (Hdl y); set_solver.
    + intros y. rewrite Hm, <- HP, <- Hd. case_decide; [|by rewrite fmap_is_Some].
      subst y. rewrite Hn. split; by eexists.
    + intros y Hy. rewrite Hb. apply Hbrk. by rewrite HP.
  - by rewrite Hcap', Hcap, HP.
  - by rewrite Hcap'.
  - intros y. unfold wakeable_at. rewrite Hm. case_decide; [subst y|].
    + by rewrite Hn.
    + by destruct (nodes q !! y).
Qed.

Lemma dequeue_spec q n l c :
  represents q (n :: l) c ->
  exists q', dequeue q = Some q' /\ represents q' l (n :: c) /\
    forall y, wakeable_at q' y = wakeable_at q y.
Proof.
  intros H. unfold dequeue. destruct H as (Hs & Hc).
  rewrite (shape_head _ _ _ Hs). by apply (remove_spec q [] n l c).
Qed.

(** ** wake_head *)

(** [wake_head] marks the head and nothing else, and notifies its waiters. *)
Lemma wake_head_spec q n l c :
  represents q (n :: l) c ->
  exists q', wake_head q = Some (q', Some n) /\ represents q' (n :: l) c /\
    forall y, wakeable_at q' y = bool_decide (y = n) || wakeable_at q y.
Proof.
  intros (H & Hcap). pose proof (shape_is_Some _ _ _ n H ltac:(set_solver)) as Hn.
  unfold wake_head. rewrite (shape_head _ _ _ H). simpl. rewrite upd_spec by done. simpl.
  eexists. split; [reflexivity|].
  assert (Hl : forall y, links (alter (set_wakeable true) n (nodes q)) y = links (nodes q) y).
  { intros y. unfold links. rewrite lookup_alter. case_decide; [subst|done].
    by destruct (nodes q !! y). }
  split; [split; [|done]|].
  - destruct H as [Hh Ht Hc Hnd Hq Hf Hd Hb]. split; try done.
    + eapply dseg_ext; [|done]. intros y _. apply Hl.
    + eapply free_list_ext; [|done]. intros y _. apply Hl.
    + intros y. simpl. by rewrite lookup_alter_is_Some.
  - intros y. unfold wakeable_at. simpl. rewrite lookup_alter.
    destruct Hn as [nd Hn]. case_decide as Hy.
    + subst y. by rewrite Hn, bool_decide_true.
    + by rewrite bool_decide_false.
Qed.

Lemma wake_head_empty q c : represents q [] c -> wake_head q = Some (q, None).
Proof. intros (H & _). unfold wake_head. by rewrite (shape_head _ _ _ H). Qed.

(** ** Emptiness, counting, destruction *)

Lemma is_empty_spec q l c : represents q l c -> is_empty q = bool_decide (l = []).
Proof.
  intros (H & _). unfold is_empty. rewrite (shape_head _ _ _ H).
  apply bool_decide_ext. by destruct l.
Qed.

(** The count is exact as long as it fits an [int]; the loop overflows otherwise. *)
Definition counted (n : Z) : option Z := if (n <=? INT_MAX)%Z then Some n else None.

Lemma count_from_spec q l p fuel ctr :
  dseg (links (nodes q)) p l None -> length l < fuel -> (ctr <= INT_MAX)%Z ->
  count_from fuel q (head l) ctr = counted (ctr + Z.of_nat (length l)).
Proof.
  unfold counted. revert p fuel ctr. induction l as [|x l IH]; intros p fuel ctr Hs Hf Hc; simpl in *.
  { rewrite Z.add_0_r. destruct (Z.leb_spec ctr INT_MAX); [by destruct fuel|lia]. }
  destruct Hs as [Hx Hl]. apply links_lookup in Hx as [w Hx].
  destruct fuel as [|fuel]; [lia|]. simpl. unfold int_incr. destruct (Z.ltb_spec ctr INT_MAX); simpl.
  - rewrite Hx. simpl. rewrite first_head, (IH (Some x)) by (done || lia).
    by replace (ctr + 1 + Z.of_nat (length l))%Z with (ctr + Z.of_nat (S (length l)))%Z by lia.
  - destruct (Z.leb_spec (ctr + Z.of_nat (S (length l))) INT_MAX); [lia|done].
Qed.

Lemma num_waiting_nodes_spec q l c fuel :
  represents q l c -> length l < fuel ->
  num_waiting_nodes fuel q = counted (Z.of_nat (length l)).
Proof.
  intros (H & _) Hf. unfold num_waiting_nodes.
  pose proof (count_from_spec q l None fuel 0 (shape_queue _ _ _ H) Hf ltac:(by vm_compute)) as Hc.
  rewrite (shape_head _ _ _ H). by destruct l.
Qed.

(** Deleting a chain deletes exactly its nodes. *)
Definition without (m : gmap loc WaitNode) (l : list loc) : gmap loc WaitNode :=
  foldl (fun m x => delete x m) m l.

Lemma without_lookup m l y :
  without m l !! y = if decide (y ∈ l) then None else m !! y.
Proof.
  revert m. induction l as [|x l IH]; intros m; simpl; [done|].
  rewrite IH. destruct (decide (x = y)) as [->|Hxy].
  - rewrite lookup_delete_eq. repeat case_decide; set_solver.
  - rewrite lookup_delete_ne by done. repeat case_decide; set_solver.
Qed.

Lemma delete_list_spec l m fuel nx :
  NoDup l -> length l < fuel ->
  (forall l1 x l2, l = l1 ++ x :: l2 -> exists w p, m !! x = Some (mkNode w p (head l2))) ->
  nx = head l -> delete_list fuel m nx = Some (without m l).
Proof.
  revert m fuel nx. induction l as [|x l IH]; intros m fuel nx Hnd Hf Hm ->; simpl in *.
  { by destruct fuel. }
  destruct (Hm [] x l eq_refl) as (w & p & Hx). apply NoDup_cons in Hnd as [Hxl Hnd].
  destruct fuel as [|fuel]; [lia|]. simpl. rewrite Hx. simpl.
  apply IH; [done|lia| |done]. intros l1 y l2 ->. 
  destruct (Hm (x :: l1) y l2 eq_refl) as (w' & p' & Hy). exists w', p'.
  rewrite lookup_delete_ne; [done|]. intros ->. set_solver.
Qed.

Lemma free_list_middle m l1 x l2 :
  free_list m (l1 ++ x :: l2) -> links m x = Some (None, head l2).
Proof. induction l1 as [|y l1 IH]; simpl; [by intros []|]. intros [_ H]. by apply IH. Qed.

(** ** Marked lists *)

Lemma holds_list_intro q (l : list (loc * bool)) c :
  represents q l.*1 c -> (forall n b, (n, b) ∈ l -> wakeable_at q n = b) -> holds_list q l.
Proof. intros H Hw. split; [by exists c|]. apply Forall_forall. intros [n b]. apply Hw. Qed.

Lemma holds_list_marks q l n b : holds_list q l -> (n, b) ∈ l -> wakeable_at q n = b.
Proof. intros [_ Hw] Hn. by apply (proj1 (Forall_forall _ _) Hw (n, b)). Qed.

Lemma elem_of_fst (l : list (loc * bool)) n b : (n, b) ∈ l -> n ∈ l.*1.
Proof. intros Hn. by apply (list_elem_of_fmap_2 fst l (n, b)). Qed.

Lemma holds_list_nodup q (l : list (loc * bool)) : holds_list q l -> NoDup l.*1.
Proof. intros [[c [Hs _]] _]. by apply shape_nodup, NoDup_app in Hs as (Hs & _). Qed.

Lemma holds_list_functional q (l1 l2 : list (loc * bool)) :
  holds_list q l1 -> holds_list q l2 -> l1 = l2.
Proof.
  intros H1 H2. pose proof H1 as [[c1 [Hs1 _]] _]. pose proof H2 as [[c2 [Hs2 _]] _].
  assert (l1.*1 = l2.*1) as Hl.
  { eapply dseg_functional; [apply (shape_queue _ _ _ Hs1)|apply (shape_queue _ _ _ Hs2)|].
    by rewrite <- (shape_head _ _ _ Hs1), <- (shape_head _ _ _ Hs2). }
  clear Hs1 Hs2. assert (length l2 = length l1) as Hlen by (by rewrite <- (length_fmap fst l2), <- Hl, length_fmap).
  apply (list_eq_same_length _ _ (length l1)); [done|done|].
  intros i [n1 b1] [n2 b2] _ Hi1 Hi2.
  assert (n1 = n2) as ->.
  { assert (l1.*1 !! i = Some n1) as E1 by (by rewrite list_lookup_fmap, Hi1).
    assert (l2.*1 !! i = Some n2) as E2 by (by rewrite list_lookup_fmap, Hi2). congruence. }
  f_equal. apply list_elem_of_lookup_2 in Hi1, Hi2.
  by rewrite <- (holds_list_marks _ _ _ _ H1 Hi1), <- (holds_list_marks _ _ _ _ H2 Hi2).
Qed.

Definition mark_head (l : list (loc * bool)) : list (loc * bool) :=
  match l with [] => [] | (n, _) :: l => (n, true) :: l end.

Lemma mark_head_fst l : (mark_head l).*1 = l.*1.
Proof. by destruct l as [|[n b] l]. Qed.

Lemma enqueue_holds q l :
  holds_list q l -> (Z.of_nat (length l) < 2 ^ 62)%Z ->
  exists q' x, enqueue q = Some (q', x) /\ x ∉ l.*1 /\ holds_list q' (l ++ [(x, false)]).
Proof.
  intros Hq Hm. pose proof Hq as [[c Hc] _].
  destruct (enqueue_spec q l.*1 c Hc) as (q' & x & c' & He & Hr & Hx & Hwx & Hw).
  { by rewrite length_fmap. }
  exists q', x. split; [done|]. split; [done|]. apply (holds_list_intro _ _ c').
  - by rewrite fmap_app.
  - intros n b [Hn| [= -> ->]%list_elem_of_singleton]%elem_of_app; [|done].
    rewrite Hw by (by eapply elem_of_fst). by eapply holds_list_marks.
Qed.

Lemma remove_holds q l1 n b l2 :
  holds_list q (l1 ++ (n, b) :: l2) ->
  exists q', remove q (Some n) = Some q' /\ holds_list q' (l1 ++ l2).
Proof.
  intros Hq. pose proof Hq as [[c Hc] _]. rewrite fmap_app, fmap_cons in Hc.
  destruct (remove_spec _ _ _ _ _ Hc) as (q' & Hr & Hrep & Hw).
  exists q'. split; [done|]. apply (holds_list_intro _ _ (n :: c)).
  - by rewrite fmap_app.
  - intros n' b' Hn. rewrite Hw. eapply holds_list_marks; [done|]. set_solver.
Qed.

Lemma head_holds q l : holds_list q l -> head_ q = head l.*1.
Proof. intros [[c [Hs _]] _]. apply (shape_head _ _ _ Hs). Qed.

Lemma dequeue_empty q : holds_list q [] -> dequeue q = Some q.
Proof. intros Hq. unfold dequeue. by rewrite (head_holds q [] Hq). Qed.

Lemma dequeue_holds q n b l :
  holds_list q ((n, b) :: l) -> exists q', dequeue q = Some q' /\ holds_list q' l.
Proof.
  intros Hq. unfold dequeue. rewrite (head_holds _ _ Hq). by apply (remove_holds q [] n b l).
Qed.

Lemma wake_holds q l :
  holds_list q l -> exists q', wake_head q = Some (q', head l.*1) /\ holds_list q' (mark_head l).
Proof.
  intros Hq. pose proof Hq as [[c Hc] _]. destruct l as [|[n b] l].
  { exists q. split; [by eapply wake_head_empty|done]. }
  destruct (wake_head_spec _ _ _ _ Hc) as (q' & He & Hr & Hw).
  exists q'. split; [done|]. apply (holds_list_intro _ _ c); [done|]. intros n' b' Hn. rewrite Hw.
  apply elem_of_cons in Hn as [[= -> ->]|Hn]; [by rewrite bool_decide_true|].
  rewrite bool_decide_false.
  - eapply holds_list_marks; [done|]. set_solver.
  - intros ->. apply holds_list_nodup, NoDup_cons in Hq as [Hn' _].
    apply Hn'. by eapply elem_of_fst.
Qed.

Lemma is_empty_holds q l : holds_list q l -> is_empty q = bool_decide (l = []).
Proof.
  intros [[c Hc] _]. rewrite (is_empty_spec _ _ _ Hc). apply bool_decide_ext.
  by destruct l as [|[n b] l].
Qed.

Lemma new_queue_holds_nil : holds_list new_queue [].
Proof. destruct new_queue_represents as (c & H & _). split; [by exists c|done]. Qed.
