(* ===== verification/WaitQueueProps.v ===== *)
(** * Properties of the waiting queue *)

From S2P Require Import Prelude DList WaitQueue WaitQueueProofs.

(** C6: every operation of [WaitQueue] runs without dereferencing a null or
    freed pointer and does to the list of waiting nodes and their wake marks
    what a FIFO list with removal does: [enqueue] appends a fresh unmarked
    node, [dequeue] drops the first, [remove] drops the given node wherever
    it stands, [wake_head] marks the first and returns it for notification. *)
Theorem wq_refines q l o :
  holds_list q l -> may_exec o l ->
  exists q' r l', exec_op o q = Some (q', r) /\ queue_spec l o r l' /\ holds_list q' l'.
Proof.
  intros Hq Hm. destruct o as [| |n|]; cbn [exec_op].
  - destruct (enqueue_holds q l Hq Hm) as (q' & x & He & Hx & Hq').
    exists q', (Some x), (l ++ [(x, false)]). rewrite He. by split; [|split; [constructor|]].
  - destruct l as [|[n b] l].
    + exists q, None, []. by rewrite (dequeue_empty q Hq); split; [|split; [constructor|]].
    + destruct (dequeue_holds q n b l Hq) as (q' & Hd & Hq').
      exists q', None, l. rewrite Hd. by split; [|split; [constructor|]].
  - apply list_elem_of_fmap in Hm as ([n' b] & -> & (l1 & l2 & ->)%list_elem_of_split).
    destruct (remove_holds _ _ _ _ _ Hq) as (q' & Hr & Hq').
    exists q', None, (l1 ++ l2). cbn [fst]. rewrite Hr. by split; [|split; [constructor|]].
  - destruct (wake_holds q l Hq) as (q' & Hw & Hq').
    exists q', (head l.*1), (mark_head l). split; [done|]. split; [|done].
    destruct l as [|[n b] l]; constructor.
Qed.

Theorem wq_refines_witness :
  holds_list new_queue [] /\ may_exec Enqueue [] /\
  exists q' r l', exec_op Enqueue new_queue = Some (q', r) /\
    queue_spec [] Enqueue r l' /\ holds_list q' l'.
Proof.
  split; [apply new_queue_holds_nil|]. split; [reflexivity|].
  apply (wq_refines new_queue [] Enqueue); [apply new_queue_holds_nil|reflexivity].
Defined.

Lemma destroy_spec q l c fuel :
  shape q l c -> length (l ++ c) < fuel -> destroy fuel q = Some ∅.
Proof.
  intros H. rewrite length_app. intros Hf. unfold destroy.
  destruct H as [Hh Ht Hc Hnd Hq Hfr Hd _]. apply NoDup_app in Hnd as (Hndl & Hdisj & Hndc).
  rewrite (delete_list_spec l) by first [done | lia |
    intros l1 x l2 ->; apply dseg_middle, links_lookup in Hq as [w Hx];
    rewrite first_head in Hx; by eexists _, _]. simpl.
  rewrite (delete_list_spec c); [|done|lia| |done].
  - f_equal. apply map_eq. intros y. rewrite !without_lookup, lookup_empty.
    repeat case_decide; try done. apply eq_None_not_Some. intros Hs%Hd. set_solver.
  - intros l1 x l2 ->. apply free_list_middle, links_lookup in Hfr as [w Hx].
    eexists _, _. rewrite without_lookup, decide_False; [done|].
    intros Hx'. apply (Hdisj x Hx'). set_solver.
Qed.

(** C31: the loops of [WaitQueue] end. [num_waiting_nodes] returns the number
    of waiting nodes, as long as that fits an [int]; with more nodes its
    counter overflows, which is undefined. [is_empty] says that there are
    none. The destructor deletes every node the queue ever allocated, waiting
    or cached, exactly once (a second deletion would be undefined), and leaves
    nothing behind. *)
Theorem wq_loops q l c fuel :
  represents q l c -> length (l ++ c) < fuel ->
  ((Z.of_nat (length l) <= INT_MAX)%Z -> num_waiting_nodes fuel q = Some (Z.of_nat (length l))) /\
  ((INT_MAX < Z.of_nat (length l))%Z -> num_waiting_nodes fuel q = None) /\
  is_empty q = bool_decide (length l = 0) /\ destroy fuel q = Some ∅.
Proof.
  intros Hr Hf. pose proof Hf as Hf'. rewrite length_app in Hf'.
  pose proof (num_waiting_nodes_spec q l c fuel Hr ltac:(lia)) as Hn. unfold counted in Hn. split_and!.
  - intros ?. rewrite Hn. destruct (Z.leb_spec (Z.of_nat (length l)) INT_MAX); [done|lia].
  - intros ?. rewrite Hn. destruct (Z.leb_spec (Z.of_nat (length l)) INT_MAX); [lia|done].
  - rewrite (is_empty_spec _ _ _ Hr). apply bool_decide_ext.
    destruct l; simpl; [done|]. split; [by intros|lia].
  - destruct Hr as [H _]. by apply (destroy_spec q l c).
Qed.

(** Two threads have queued. *)
Definition two_waiting : option WaitQueue := q ← fst <$> enqueue new_queue; fst <$> enqueue q.

Theorem wq_loops_witness : exists q l c,
  two_waiting = Some q /\ represents q l c /\ length l = 2 /\
  num_waiting_nodes 257 q = Some 2%Z /\ is_empty q = false /\ destroy 257 q = Some ∅.
Proof.
  destruct (enqueue_holds new_queue [] new_queue_holds_nil ltac:(by vm_compute)) as (q1 & x & He1 & _ & H1).
  destruct (enqueue_holds q1 _ H1 ltac:(by vm_compute)) as (q & y & He & _ & (c & Hc) & _).
  assert (two_waiting = Some q) as Hq by (unfold two_waiting; rewrite He1; simpl; by rewrite He).
  assert (cur_queue_capacity <$> two_waiting = Some 256%Z) as Hcap by (vm_compute; reflexivity).
  rewrite Hq in Hcap. injection Hcap as Hcap. pose proof Hc as (_ & Hlen & _). rewrite Hcap in Hlen. cbn in Hlen.
  destruct (wq_loops q [x; y] c 257 Hc ltac:(cbn; lia)) as (Hn & _ & He' & Hd).
  exists q, [x; y], c. split; [exact Hq|]. split; [exact Hc|]. split; [reflexivity|].
  split; [exact (Hn ltac:(by vm_compute))|]. split; [exact He'|exact Hd].
Defined.
