(* ===== verification/Semaphore.v ===== *)
(** * The semaphore concept

    [SimpleSemaphore] and [QueuedSemaphore] (concurrency/semaphore.h) have the
    same member functions.  This file has the operations, the ledger of who
    acquired what, the contract of the callers, the interface [Semaphore] with
    its laws (the books balance, the count never goes below zero), and the two
    client classes, [SemaphoreGuard] and [SemaphoreTimedLockableAdapter],
    proved against the interface. *)

From S2P Require Import Prelude Machine Monitor MonitorTheory.

Module Sem.
Local Open Scope Z_scope.

(** The member functions; [n] is the [unsigned int request].  A deadline is
    not a value of the model: a timed wait can expire at any moment. *)
Inductive op :=
| acquire (n : Z) | release (n : Z) | try_acquire (n : Z)
| try_acquire_for (n : Z) | try_acquire_until (n : Z) | available_permits.

Inductive ret := Void | Bool (b : bool) | Int (z : Z).

#[export] Instance op_eq_dec : EqDecision op.
Proof. solve_decision. Defined.
#[export] Instance ret_eq_dec : EqDecision ret.
Proof. solve_decision. Defined.

(** The overloads without a request forward [1]. *)
Definition acquire1 : op := acquire 1.
Definition release1 : op := release 1.
Definition try_acquire1 : op := try_acquire 1.
Definition try_acquire_for1 : op := try_acquire_for 1.
Definition try_acquire_until1 : op := try_acquire_until 1.

(** The permits a thread holds after [o] returned [r]. *)
Definition balance (o : op) (r : ret) (h : Z) : Z :=
  match o, r with
  | acquire n, _ => h + n
  | (try_acquire n | try_acquire_for n | try_acquire_until n), Bool true => h + n
  | release n, _ => h - n
  | _, _ => h
  end.

(** Requests fit a positive [int]; a thread may release up to [K] permits it
    did not acquire, so [K = 0] is "release what you acquired".  Of the calls
    of [try_acquire_until] only those with request 1 are within it: the code
    ignores the request and takes one permit, so with any other request the
    ledger would count permits that were not taken. *)
Definition lawful (K : Z) (h : Z) (o : op) : bool :=
  match o with
  | acquire n | try_acquire n | try_acquire_for n => bool_decide (0 <= n <= INT_MAX)
  | try_acquire_until n => bool_decide (n = 1)
  | release n => bool_decide (0 <= n <= h + K)
  | available_permits => true
  end.

(** A contract may narrow [lawful] further. *)
Definition within (K : Z) (contract : Z -> op -> bool) : Prop :=
  forall h o, contract h o = true -> lawful K h o = true.

(** What each thread holds, never less than [-K]. *)
Definition overdraft (K : Z) {A} (held : A -> Z) (hs : gmap tid A) : Prop :=
  forall t h, hs !! t = Some h -> - K <= held h.

Lemma overdraft_sum K {A} (held : A -> Z) (hs : gmap tid A) :
  overdraft K held hs -> - sumz held hs <= K * Z.of_nat (size hs).
Proof.
  intros Hov. assert (sumz (fun h => - held h) hs <= K * Z.of_nat (size hs)).
  { apply sumz_le_size. intros t h Ht. specialize (Hov t h Ht). simpl in *. lia. }
  assert (sumz (fun h => - held h) hs = - sumz held hs) as <-; [|done].
  clear. induction hs as [|t h hs Ht IH] using map_ind.
  { by rewrite !sumz_empty. }
  rewrite !sumz_insert_None by done. lia.
Qed.

(** ** The ledger

    The count is the initial permits [P] less what the threads hold; it is
    not negative, and with overdrafts of at most [K] it cannot overflow. *)
Section ledger.
Context {A : Type} (K P : Z) (held : A -> Z).
Implicit Types (hs : gmap tid A).

Definition balanced (count : Z) hs : Prop :=
  count = P - sumz held hs /\ 0 <= count /\ overdraft K held hs /\
  P + K * Z.of_nat (size hs) <= INT_MAX.

Lemma balanced_range count hs : balanced count hs -> 0 <= count <= INT_MAX.
Proof. intros (Hc & H0 & Hov & Hb). apply overdraft_sum in Hov. lia. Qed.

(** A thread takes [d] permits, or gives back when [d] is negative. *)
Lemma balanced_update count hs t h h' d :
  balanced count hs -> hs !! t = Some h -> held h' = held h + d ->
  0 <= count - d -> - K <= held h + d ->
  balanced (int_of (count - d)) (<[t := h']> hs).
Proof.
  intros Hbal Ht Hh' Hd Hk. pose proof Hbal as (Hc & H0 & Hov & Hb).
  assert (sumz held (<[t := h']> hs) = sumz held hs + d) as Hsum.
  { rewrite (sumz_insert held hs t h) by done. lia. }
  assert (Hov' : overdraft K held (<[t := h']> hs)).
  { intros u hu. rewrite lookup_insert. case_decide; [intros [= <-]; lia|apply Hov]. }
  assert (size (<[t := h']> hs) = size hs) as Hsize by (apply map_size_insert_Some; by eexists).
  pose proof (overdraft_sum _ _ _ Hov') as Hs. rewrite Hsize in Hs.
  unfold balanced. rewrite Hsum, Hsize. rewrite Hsum in Hs.
  rewrite int_small by (unfold INT_MIN, INT_MAX in *; lia). split_and!; try done; lia.
Qed.

Lemma balanced_same count hs t h h' :
  balanced count hs -> hs !! t = Some h -> held h' = held h -> balanced count (<[t := h']> hs).
Proof.
  intros Hbal Ht Hh'. pose proof (balanced_range _ _ Hbal) as Hr.
  assert (- K <= held h) by (by apply (proj1 (proj2 (proj2 Hbal)) t h)).
  rewrite <- (int_small count) by (unfold INT_MIN; lia). replace count with (count - 0) by lia.
  apply (balanced_update _ _ _ h); [done..|lia|lia|lia].
Qed.

Lemma balanced_start hs : 0 <= P -> 0 <= K ->
  P + K * Z.of_nat (size hs) <= INT_MAX -> (forall t h, hs !! t = Some h -> held h = 0) ->
  balanced P hs.
Proof.
  intros HP HK Hb Hh. unfold balanced. rewrite sumz_zero by done. split_and!; try done; try lia.
  intros t h Ht. rewrite (Hh t h Ht). lia.
Qed.
End ledger.

(** ** The interface *)

Class Semaphore (St Pt Cv H : Type) `{!EqDecision Cv} := {
  sem_code : code St op Pt Cv ret;
  sem_client : (Z -> op -> bool) -> client St op Pt Cv ret H;
  sem_init : Z -> St;            (** the constructor *)
  permits_of : St -> Z;
  held : H -> Z;
  fresh : H;                     (** a thread that has done nothing yet *)
}.

(** Threads before the run: each may start with a surplus of at most [K]. *)
Definition newcomers `{Semaphore St Pt Cv H} (hs : gmap tid H) : Prop :=
  map_Forall (fun _ h => h = fresh) hs.

Class SemaphoreLaws (St Pt Cv H : Type) `{Semaphore St Pt Cv H} : Prop := {
  held_fresh : held fresh = 0;
  sem_calls contract t h s o :
    may_call (sem_client contract) t h s o = true -> contract (held h) o = true;
  sem_balances K contract P hs es m :
    within K contract -> 0 <= K -> 0 <= P -> P + K * Z.of_nat (size hs) <= INT_MAX ->
    (Z.of_nat (size hs) < 2 ^ 62) -> newcomers hs ->
    run (step sem_code (sem_client contract)) (start (sem_init P) hs) es = Some m ->
    permits_of (shared m) = P - sumz held (modes m) /\ 0 <= permits_of (shared m) /\
    overdraft K held (modes m);
  sem_keeps K contract P hs es m t th o p b :
    within K contract -> 0 <= K -> 0 <= P -> P + K * Z.of_nat (size hs) <= INT_MAX ->
    (Z.of_nat (size hs) < 2 ^ 62) -> newcomers hs ->
    run (step sem_code (sem_client contract)) (start (sem_init P) hs) es = Some m ->
    threads m !! t = Some th -> at_pc th = Running o p b -> contract (held (mode th)) o = true;
  sem_settles contract o p ex h :
    held (settle (sem_client contract) o p ex h) =
      match ex with Leave _ (Return r) => balance o r (held h) | _ => held h end;
  sem_refuses n p b s s' ns ns' :
    0 <= n <= INT_MAX -> 0 <= permits_of s <= INT_MAX ->
    body sem_code (try_acquire n) p b s = Some (s', ns, Leave ns' (Return (Bool false))) -> permits_of s < n;
}.
End Sem.

(** ** The clients of a semaphore *)

(** [SemaphoreTimedLockableAdapter]: each member forwards to the semaphore
    with the request fixed at construction. *)
Module Adapter.
Import Sem.
Local Open Scope Z_scope.

Inductive lockable := lock | unlock | try_lock | try_lock_for | try_lock_until.

#[export] Instance lockable_eq_dec : EqDecision lockable.
Proof. solve_decision. Defined.

Definition forward (request : Z) (l : lockable) : op :=
  match l with
  | lock => acquire request
  | unlock => release request
  | try_lock => try_acquire request
  | try_lock_for => try_acquire_for request
  | try_lock_until => try_acquire_until request
  end.

Definition all_lockable : list lockable := [lock; unlock; try_lock; try_lock_for; try_lock_until].

(** The users of an adapter call nothing but its members, lock when they own
    nothing, and unlock what they locked. *)
Definition lockable_lawful (request h : Z) (l : lockable) : bool :=
  match l with
  | unlock => bool_decide (h = request)
  | _ => bool_decide (h = 0)
  end.

(** The members that take what was asked for: [try_lock_until] takes one
    permit, so it is among them only when the request is 1. *)
Definition sound_member (request : Z) (l : lockable) : bool :=
  match l with try_lock_until => bool_decide (request = 1) | _ => true end.

Definition any_contract (request h : Z) (o : op) : bool :=
  existsb (fun l => bool_decide (forward request l = o) && lockable_lawful request h l) all_lockable.

Definition contract (request h : Z) (o : op) : bool :=
  existsb (fun l => bool_decide (forward request l = o) && (lockable_lawful request h l && sound_member request l))
    all_lockable.

Lemma adapter_contract_within request :
  0 <= request <= INT_MAX -> within 0 (contract request).
Proof.
  intros Hr h o Hc. unfold contract in Hc. apply existsb_exists in Hc as (l & _ & Hl).
  apply andb_prop in Hl as [Ho Hl]. apply bool_decide_eq_true in Ho as <-.
  apply andb_prop in Hl as [Hl Hm].
  destruct l; simpl in *; apply bool_decide_eq_true in Hl; try apply bool_decide_eq_true in Hm;
    apply bool_decide_eq_true; lia.
Qed.

Lemma contract_member request h o :
  contract request h o = true ->
  exists l, forward request l = o /\ lockable_lawful request h l = true /\ sound_member request l = true.
Proof.
  unfold contract. intros (l & _ & Hl)%existsb_exists. apply andb_prop in Hl as [Ho [Hl Hm]%andb_prop].
  exists l. by apply bool_decide_eq_true in Ho.
Qed.

(** The member a call of the semaphore was made for. *)
Definition member (request : Z) (o : op) : option lockable :=
  List.find (fun l => bool_decide (forward request l = o)) all_lockable.

Lemma forward_inj request l1 l2 : forward request l1 = forward request l2 -> l1 = l2.
Proof. by destruct l1, l2. Qed.

Lemma member_forward request l : member request (forward request l) = Some l.
Proof.
  unfold member. destruct (List.find _ _) as [l'|] eqn:Hf.
  - apply find_some in Hf as [_ Hf%bool_decide_eq_true]. by apply forward_inj in Hf as ->.
  - pose proof (find_none _ _ Hf l ltac:(destruct l; simpl; tauto)) as Hn. simpl in Hn. by rewrite bool_decide_true in Hn.
Qed.

(** ** What an adapter promises: a lock that [n] threads can own at a time *)

(** A thread takes the lock, gives it back, or is refused by [try_lock]. *)
Inductive label := Take (t : tid) | Give (t : tid) | Refuse (t : tid).

#[export] Instance label_eq_dec : EqDecision label.
Proof. solve_decision. Defined.

Definition slot_step (n : Z) (owners : gset tid) (lb : label) : option (gset tid) :=
  match lb with
  | Take t => if decide (t ∉ owners /\ Z.of_nat (size owners) < n) then Some ({[t]} ∪ owners) else None
  | Give t => if decide (t ∈ owners) then Some (owners ∖ {[t]}) else None
  | Refuse t => if decide (t ∉ owners /\ Z.of_nat (size owners) = n) then Some owners else None
  end.

(** What a member has done when it returns; a timed one that gives up has
    done nothing. *)
Definition verdict (t : tid) (l : lockable) (r : ret) : option label :=
  match l, r with
  | lock, _ => Some (Take t)
  | unlock, _ => Some (Give t)
  | _, Bool true => Some (Take t)
  | try_lock, Bool false => Some (Refuse t)
  | _, _ => None
  end.

Definition label_of `{Semaphore St Pt Cv H} (request : Z) (m : state St op Pt Cv ret H) (e : event op) : option label :=
  match e with
  | Exec t _ =>
      th ← threads m !! t;
      match at_pc th with
      | Running o p b =>
          '(_, _, ex) ← body sem_code o p b (shared m);
          l ← member request o;
          match ex with Leave _ (Return r) => verdict t l r | _ => None end
      | _ => None
      end
  | _ => None
  end.
End Adapter.

(** [SemaphoreGuard]: the constructor acquires, the destructor releases, and
    nothing else is called. *)
Module SemaphoreGuard.
Import Sem.
Local Open Scope Z_scope.

Definition constructor (request : Z) : op := acquire request.
Definition destructor (request : Z) : op := release request.

Definition contract (request h : Z) (o : op) : bool :=
  bool_decide (o = constructor request /\ h = 0) || bool_decide (o = destructor request /\ h = request).

Lemma guard_contract_within request : 0 <= request <= INT_MAX -> within 0 (contract request).
Proof.
  intros Hr h o [[-> ->]%bool_decide_eq_true|[-> ->]%bool_decide_eq_true]%orb_prop; simpl;
    apply bool_decide_eq_true; lia.
Qed.
End SemaphoreGuard.

(** Owners: threads that hold at least the request. *)
Section owners.
Import Sem.
Context {St Pt Cv H : Type} `{!EqDecision Cv, !Semaphore St Pt Cv H, !SemaphoreLaws St Pt Cv H}.
Local Open Scope Z_scope.

Definition owners (request : Z) (hs : gmap tid H) : Z :=
  sumz (fun h => if request <=? held h then 1 else 0) hs.

Lemma owners_bound request (hs : gmap tid H) :
  0 <= request -> overdraft 0 held hs -> request * owners request hs <= sumz held hs.
Proof.
  intros Hr Hov. unfold owners. revert Hov. induction hs as [|t h hs Ht IH] using map_ind.
  { rewrite !sumz_empty. lia. }
  intros Hov. rewrite !sumz_insert_None by done.
  assert (- 0 <= held h) by (apply (Hov t), lookup_insert_eq).
  assert (request * sumz (fun h => if request <=? held h then 1 else 0) hs <= sumz held hs).
  { apply IH. intros t' h' Ht'. apply (Hov t'). rewrite lookup_insert_ne by congruence. done. }
  destruct (Z.leb_spec request (held h)); lia.
Qed.

(** Clients whose contract keeps every thread at or above zero never hold
  more than the initial permits together. *)
Lemma owners_limit contract request P hs es m :
  within 0 contract -> 0 <= request -> 0 <= P <= INT_MAX -> Z.of_nat (size hs) < 2 ^ 62 ->
  newcomers hs -> run (step sem_code (sem_client contract)) (start (sem_init P) hs) es = Some m ->
  request * owners request (modes m) <= P.
Proof.
  intros Hw Hr HP Hs Hn Hrun.
  destruct (sem_balances 0 contract P hs es m) as (Hc & H0 & Hov); try done; try lia.
  pose proof (owners_bound request _ Hr Hov). lia.
Qed.
End owners.
