(* ===== verification/SimpleSemaphore.v ===== *)
(** * concurrency/semaphore.h: SimpleSemaphore

    The shared state is the [std::atomic_int count]; everything that writes
    it does so under [mtx]. *)

From S2P Require Import Prelude Machine Monitor MonitorTheory Semaphore.

Module SimpleSemaphore.
Import Sem.
Local Open Scope Z_scope.

Inductive cv_name := cv.

(** After [mtx] is locked; after a wake-up. *)
Inductive point := at_start | at_wait.

#[export] Instance cv_eq_dec : EqDecision cv_name.
Proof. solve_decision. Defined.
#[export] Instance point_eq_dec : EqDecision point.
Proof. solve_decision. Defined.

Abbreviation segment := (option (Z * list (notify cv_name) * exit point cv_name ret)).

Definition return_ (count : Z) (ns : list (notify cv_name)) (r : ret) : segment :=
  Some (count, [], Leave ns (Return r)).

(** [while (count < (int) request) cv.wait(ul); count -= request;] *)
Definition acquire_body (request count : Z) : segment :=
  if count <? int_of request then Some (count, [], Wait cv false at_wait)
  else return_ (int_of (count - request)) [] Void.

Definition release_body (request count : Z) : segment :=
  return_ (int_of (count + request)) [NotifyAll cv] Void.

Definition try_acquire_body (request count : Z) : segment :=
  if int_of request <=? count then return_ (int_of (count - request)) [] (Bool true)
  else return_ count [] (Bool false).

(** The private [try_acquire0]: a wait that timed out returns at once. *)
Definition try_acquire0 (permits : Z) (p : point) (timedout : bool) (count : Z) : segment :=
  if timedout && bool_decide (p = at_wait) then return_ count [] (Bool false)
  else if count <? int_of permits then Some (count, [], Wait cv true at_wait)
  else return_ (int_of (count - permits)) [] (Bool true).

Definition body_ (o : op) (p : point) (timedout : bool) (count : Z) : segment :=
  match o with
  | acquire n => acquire_body n count
  | release n => release_body n count
  | try_acquire n => try_acquire_body n count
  | try_acquire_for n => try_acquire0 n p timedout count
  | try_acquire_until n => try_acquire0 1 p timedout count (* passes [true] *)
  | available_permits => None
  end.

(** [available_permits] reads the atomic without locking. *)
Definition enter_ (o : op) (count : Z) : option (Z * entry point ret) :=
  Some (count, match o with
               | available_permits => Direct (Int count)
               | _ => Blocking at_start
               end).

Definition the_code : code Z op point cv_name ret :=
  mkCode enter_ body_ (fun _ _ count => Some count).

Definition settle (o : op) (p : point) (ex : exit point cv_name ret) (h : Z) : Z :=
  match ex with Leave _ (Return r) => balance o r h | _ => h end.

Definition clients (contract : Z -> op -> bool) : client Z op point cv_name ret Z :=
  mkClient (fun _ h _ o => contract h o) settle.

#[export] Instance simple_semaphore : Semaphore Z point cv_name Z := {
  sem_code := the_code;
  sem_client := clients;
  sem_init := fun initial_permits => initial_permits;
  permits_of := fun count => count;
  held := fun h => h;
  fresh := 0;
}.
End SimpleSemaphore.
