(* ===== verification/SimpleSemaphoreProofs.v ===== *)
(** * SimpleSemaphore: correctness

    The books balance: the count is the initial permits less what the threads
    hold, it never goes below zero and never wraps; no waiter whose request
    can be met is forgotten. *)

From S2P Require Import Prelude Machine Monitor MonitorTheory Semaphore SimpleSemaphore.

Import Sem SimpleSemaphore.
Local Open Scope Z_scope.

Section proofs.
Context (K P : Z) (contract : Z -> op -> bool).
Context (HK : 0 <= K) (HP : 0 <= P) (Hwithin : within K contract).

Definition allowed (h : Z) (o : op) (p : point) : Prop :=
  contract h o = true /\ o <> available_permits.

Definition asleep (h : Z) (c : cv_name) (o : op) (p : point) : Prop :=
  allowed h o p /\ p = at_wait.

Lemma body_balanced t h count hs o p b :
  balanced K P id count hs -> hs !! t = Some h -> allowed h o p ->
  exists s' ns ex, body_ o p b count = Some (s', ns, ex) /\
  balanced K P id s' (<[t := settle o p ex h]> hs) /\
  exit_ok (allowed) asleep (settle o p ex h) o ex.
Proof.
  intros Hbal Ht [Hcon Hop]. pose proof (Hwithin _ _ Hcon) as Hl.
  assert (Hsame := balanced_same K P id count hs t h h Hbal Ht eq_refl).
  assert (Hov : - K <= h) by (destruct Hbal as (_ & _ & Hov & _); by apply (Hov t h)).
  pose proof (balanced_range K P id count hs Hbal) as Hrange.
  destruct o as [n|n|n|n|n|]; simpl in Hl; try apply bool_decide_eq_true in Hl; try done; simpl;
    unfold acquire_body, release_body, try_acquire_body, try_acquire0, return_.
  1, 3, 4: rewrite (int_small n) by (unfold INT_MIN; lia).
  5: subst n; rewrite (int_small 1) by (unfold INT_MIN, INT_MAX; lia).
  all: repeat case_match; do 3 eexists; (split; [reflexivity|]); (split; [|done]); simpl; try done.
  all: try (apply (balanced_update K P id _ _ _ h); unfold id; lia || done).
  replace (count + n) with (count - - n) by lia. replace (h - n) with (h + - n) by lia.
  apply (balanced_update K P id _ _ _ h); unfold id; lia || done.
Qed.

#[export] Instance simple_monitor_ok :
  MonitorOk the_code (clients contract) (balanced K P id) (allowed) asleep.
Proof.
  split.
  - by intros h c o p [Ha _].
  - intros t h s hs o HI Ht Hmay. exists s, (match o with available_permits => Direct (Int s) | _ => Blocking at_start end).
    split; [done|]. split; [done|]. by destruct o.
  - intros. by apply body_balanced.
  - intros t h s hs o p HI Ht Ha. by exists s.
Qed.

Definition request_of (o : op) : Z :=
  match o with
  | acquire n | try_acquire_for n => n
  | _ => 1
  end.

(** A waiter has a reason to sleep while the count does not cover it. *)
Definition short (c : cv_name) (o : op) (p : point) (count : Z) : Prop := count < request_of o.

#[export] Instance simple_notify_ok :
  NotifyOk the_code (clients contract) (balanced K P id) (allowed) asleep
  short (fun _ => false).
Proof.
  split.
  - intros t h s hs o s' en t' h' c o' p' _ _ _ [= <- _]. done.
  - intros t h s hs o p s' t' h' c o' p' _ _ _ [= <-]. done.
  - intros t h s hs o p b s' ns ex t' h' [] o' p' Hbal Ht [Hcon Hop] Hb _ _ _ Hshort.
    pose proof (Hwithin _ _ Hcon) as Hl. unfold short in *.
    destruct o as [n|n|n|n|n|]; simpl in Hl; try apply bool_decide_eq_true in Hl; try done;
      simpl in Hb;
      unfold acquire_body, release_body, try_acquire_body, try_acquire0, return_ in Hb.
    all: pose proof (balanced_range K P id s hs Hbal) as Hrange.
    2: { simplify_eq. right. left. simpl. set_solver. }
    1-3: rewrite (int_small n) in Hb by (unfold INT_MIN; lia).
    4: subst n; rewrite (int_small 1) in Hb by (unfold INT_MIN, INT_MAX; lia).
    all: left; repeat case_match; simplify_eq; try done.
    all: rewrite int_small by (unfold INT_MIN, INT_MAX in *; lia); lia.
  - intros t h s hs o p b s' ns c timed p' Hbal Ht [Hcon Hop] Hb.
    pose proof (Hwithin _ _ Hcon) as Hl. unfold short.
    destruct o as [n|n|n|n|n|]; simpl in Hl; try apply bool_decide_eq_true in Hl; try done;
      simpl in Hb;
      unfold acquire_body, release_body, try_acquire_body, try_acquire0, return_ in Hb.
    all: simpl; repeat case_match; simplify_eq.
    1, 2: rewrite (int_small n) in * by (unfold INT_MIN; lia); lia.
    rewrite (int_small 1) in * by (unfold INT_MIN, INT_MAX; lia). lia.
  - done.
Qed.
End proofs.

(** Discharging the interface. *)
#[export] Instance simple_semaphore_laws : SemaphoreLaws Z point cv_name Z.
Proof.
  split.
  - done.
  - by intros contract t h s o Hmay.
  - intros K contract P hs es m Hw HK HP Hb _ Hnew Hrun%run_steps. simpl in *.
    pose proof (simple_monitor_ok K P contract Hw) as Hok.
    destruct (monitor_invariant the_code (clients contract) (balanced K P id)
      (allowed contract) (asleep contract) P hs m) as [(Hc & H0 & Hov & _) _]; [|done|by split_and!].
    by apply balanced_start.
  - intros K contract P hs es m t th o p b Hw HK HP Hb _ Hnew Hrun%run_steps Ht Hpc. simpl in *.
    pose proof (simple_monitor_ok K P contract Hw) as Hok.
    destruct (monitor_invariant the_code (clients contract) (balanced K P id)
      (allowed contract) (asleep contract) P hs m) as [_ Hpcs]; [by apply balanced_start|done|].
    specialize (Hpcs _ _ Ht). rewrite Hpc in Hpcs. apply Hpcs.
  - intros contract o p [| |ns [|]|] h; done.
  - intros n p b s s' ns ns' Hn _ Hb. simpl in *. unfold try_acquire_body, return_ in Hb.
    rewrite (int_small n) in Hb by (unfold INT_MIN; lia). destruct (Z.leb_spec n s); [done|lia].
Qed.
