(* ===== verification/SimpleSemaphoreProps.v ===== *)
(** * SimpleSemaphore and the semaphore clients: the properties

    In every interleaving of any number of threads that keep to the contract
    of [Semaphore]. *)

From S2P Require Import Prelude Machine Monitor MonitorTheory MonitorDrain.
From S2P Require Import Semaphore SimpleSemaphore SimpleSemaphoreProofs.

Import Sem SimpleSemaphore.
Local Open Scope Z_scope.

Abbreviation ss_step contract := (step the_code (clients contract)).

(** C24: the books balance. Whatever contract the callers keep within
    [lawful], in every reachable state the count is exactly the initial
    permits less the permits the threads hold, it is not negative, and it has
    not wrapped. *)
Theorem ss_books K contract P hs es m :
  within K contract -> 0 <= K -> 0 <= P -> P + K * Z.of_nat (size hs) <= INT_MAX ->
  Z.of_nat (size hs) < 2 ^ 62 -> newcomers hs ->
  run (ss_step contract) (start P hs) es = Some m ->
  shared m = P - sumz id (modes m) /\ 0 <= shared m <= INT_MAX.
Proof.
  intros Hw HK HP Hb Hs Hn Hrun.
  destruct (sem_balances K contract P hs es m Hw HK HP Hb Hs Hn Hrun) as (Hc & H0 & Hov).
  apply overdraft_sum in Hov.
  pose proof (steps_size _ _ _ _ _ (run_steps _ _ _ _ Hrun)) as Hsize.
  rewrite Hsize in Hov. simpl in *. split; [done|]. lia.
Qed.

(** No lost wake-up. A thread asleep on the condition variable asks for more
    than the count, or some thread has released and is about to call
    [notify_all]. *)
Lemma ss_no_lost_wakeup K contract P hs m t th timed o p :
  within K contract -> 0 <= K -> 0 <= P -> P + K * Z.of_nat (size hs) <= INT_MAX ->
  newcomers hs -> steps (ss_step contract) (start P hs) m ->
  threads m !! t = Some th -> at_pc th = Waiting cv timed o p ->
  shared m < request_of o \/ posted (fun _ => false) m cv.
Proof.
  intros Hw HK HP Hb Hn Hrun Ht Hpc.
  pose proof (simple_monitor_ok K P contract Hw) as Hok.
  pose proof (simple_notify_ok K P contract HK HP Hw) as Hnok.
  apply (no_lost_wakeup the_code (clients contract) (balanced K P id) (allowed contract)
    (asleep contract) short (fun _ => false) P hs m (balanced_start _ _ _ _ HP HK Hb Hn) Hrun
    _ _ _ _ _ _ Ht Hpc).
Qed.

(** Each method leaves once, [release] with its [notify_all]. *)
Definition leaving : account Z op point Z := one_segment 1.

#[export] Instance ss_leaves_once contract I : LeavesOnce the_code I (allowed contract) 1.
Proof.
  intros t h s hs o p b s' ns ex _ _ _ Hb. destruct o; simpl in Hb; revert Hb;
    unfold acquire_body, release_body, try_acquire_body, try_acquire0, return_;
    repeat case_match; intros; simplify_eq/=; try done; lia.
Qed.

(** C23: the semaphore comes to rest, and no wake-up is lost. From any
    reachable state, a schedule without further calls, timeouts and spurious
    wake-ups is never longer than [work]; and where it stops, a thread can
    still move, or every thread has returned or sleeps because it asks for
    more than the count. *)
Theorem ss_settles K contract P hs es m es' m' :
  within K contract -> 0 <= K -> 0 <= P -> P + K * Z.of_nat (size hs) <= INT_MAX ->
  newcomers hs -> run (ss_step contract) (start P hs) es = Some m ->
  Forall (fun e => internal leaving e = true) es' -> run (ss_step contract) m es' = Some m' ->
  Z.of_nat (length es') <= work leaving m /\
  ((exists e m'', internal leaving e = true /\ ss_step contract m' e = Some m'') \/
   forall t th, threads m' !! t = Some th ->
     match at_pc th with
     | Idle _ => True
     | Waiting cv _ o _ => shared m' < request_of o
     | _ => False
     end).
Proof.
  intros Hw HK HP Hb Hn Hrun Hint Hrun'.
  pose proof (simple_monitor_ok K P contract Hw) as Hok.
  pose proof (ss_leaves_once contract (balanced K P id)) as Honce.
  assert (balanced K P id P hs) as Hstart by (by apply balanced_start).
  pose proof (once_orderly _ _ _ _ _ 1 P hs es m Hstart Hrun) as Hord.
  destruct (once_settled _ _ _ _ _ 1 m es' m' Hord Hint Hrun') as [Hl [Hq|Hmore]];
    (split; [done|]); [right|by left]. intros t th Ht.
  pose proof (quiescent_still _ _ _ Hq Ht) as Hstill.
  destruct (at_pc th) as [r| | | |[] timed o p|] eqn:Hpc; try done.
  destruct (ss_no_lost_wakeup K contract P hs m' t th timed o p) as [|Hpost]; try done.
  - eapply steps_trans; by eapply run_steps.
  - by destruct (quiescent_unposted _ _ _ Hq Hpost).
Qed.

(** What one critical section does, on every branch: [acquire] takes the
    permits or waits with the count untouched; [try_acquire] says whether it
    took them; a timed acquisition that timed out takes nothing; [release]
    adds the permits and wakes every waiter. *)
Theorem ss_sections n count :
  0 <= n <= INT_MAX -> 0 <= count <= INT_MAX - n ->
  body_ (acquire n) at_start false count
    = (if n <=? count then return_ (count - n) [] Void else Some (count, [], Wait cv false at_wait)) /\
  body_ (try_acquire n) at_start false count
    = (if n <=? count then return_ (count - n) [] (Bool true) else return_ count [] (Bool false)) /\
  body_ (try_acquire_for n) at_wait true count = return_ count [] (Bool false) /\
  body_ (try_acquire_for n) at_wait false count
    = (if n <=? count then return_ (count - n) [] (Bool true) else Some (count, [], Wait cv true at_wait)) /\
  body_ (release n) at_start false count = return_ (count + n) [NotifyAll cv] Void.
Proof.
  intros Hn Hc. simpl. unfold acquire_body, try_acquire_body, try_acquire0, release_body. simpl.
  rewrite (int_small n), (int_small (count + n)) by (unfold INT_MIN, INT_MAX in *; lia).
  rewrite (Z.ltb_antisym n count).
  destruct (Z.leb_spec n count); simpl;
    rewrite ?(int_small (count - n)) by (unfold INT_MIN, INT_MAX in *; lia); done.
Qed.

(** ** Clients of any semaphore *)

(** [SemaphoreGuard] bounds the scopes. Threads that only enter and leave
    guarded scopes with request [r] on a semaphore of [P] permits are never
    inside more than [P / r] at a time. *)
Theorem guard_scopes {St Pt Cv H} `{EqDecision Cv} {S : Semaphore St Pt Cv H}
    (L : SemaphoreLaws St Pt Cv H) r P hs es m :
  1 <= r <= INT_MAX -> 0 <= P <= INT_MAX -> Z.of_nat (size hs) < 2 ^ 62 -> newcomers hs ->
  run (step sem_code (sem_client (SemaphoreGuard.contract r))) (start (sem_init P) hs) es = Some m ->
  owners r (modes m) <= P / r.
Proof.
  intros Hr HP Hs Hn Hrun. apply Z.div_le_lower_bound; [lia|].
  eapply owners_limit; try done; [apply SemaphoreGuard.guard_contract_within|]; lia.
Qed.

(** The request of [try_acquire_until(n, t)] is ignored: it passes
    [true], converted to 1, so from one permit a request for five succeeds and
    takes one. The adapter inherits it: [try_lock_until] of an adapter for
    five permits succeeds on a semaphore with one, and [unlock] then leaves
    five permits where there was one. *)
Theorem ss_until_ignores_request :
  (exists m, run (ss_step (fun _ _ => true)) (start 1 {[ 0%nat := 0 ]})
      [Invoke 0%nat (try_acquire_until 5); Acquire 0%nat; Exec 0%nat []; Finish 0%nat] = Some m /\
    shared m = 0 /\ at_pc <$> threads m !! 0%nat = Some (Idle (Some (Bool true)))) /\
  (exists m, run (ss_step (fun _ _ => true)) (start 1 {[ 0%nat := 0 ]})
      [Invoke 0%nat (Adapter.forward 5 Adapter.try_lock_until); Acquire 0%nat; Exec 0%nat []; Finish 0%nat;
       Invoke 0%nat (Adapter.forward 5 Adapter.unlock); Acquire 0%nat; Exec 0%nat [];
       Notify 0%nat None; Finish 0%nat] = Some m /\
    shared m = 5).
Proof. split; evaluates. Qed.

(** ** Concrete interleavings *)

Definition three : gmap tid Z := {[ 0%nat := 0; 1%nat := 0; 2%nat := 0 ]}.

(** Thread 0 takes the two permits, thread 1 waits for one, 0 gives both back. *)
Definition hand_back : list (event op) :=
  [Invoke 0%nat (acquire 2); Acquire 0%nat; Exec 0%nat []; Finish 0%nat;
   Invoke 1%nat acquire1; Acquire 1%nat; Exec 1%nat [];
   Invoke 0%nat (release 2); Acquire 0%nat; Exec 0%nat []].

Lemma three_newcomers : newcomers three.
Proof. unfold newcomers. apply (bool_decide_eq_true_1 _). vm_compute. reflexivity. Qed.

Lemma within_lawful K : within K (lawful K).
Proof. by intros h o. Qed.

Theorem ss_books_witness :
  exists m, run (ss_step (lawful 0)) (start 2 three) hand_back = Some m /\
    shared m = 2 /\ shared m = 2 - sumz id (modes m) /\ 0 <= shared m <= INT_MAX.
Proof.
  eexists. split; [vm_compute; reflexivity|]. split; [reflexivity|].
  apply (ss_books 0 (lawful 0) 2 three hand_back);
    [apply within_lawful|lia|lia|by vm_compute|by vm_compute|apply three_newcomers|vm_compute; reflexivity].
Defined.

(** Thread 1 is woken and gets its permit. *)
Definition handed : list (event op) :=
  [Notify 0%nat None; Finish 0%nat; Acquire 1%nat; Exec 1%nat []; Finish 1%nat].

Theorem ss_settles_witness :
  exists m m', run (ss_step (lawful 0)) (start 2 three) hand_back = Some m /\
    run (ss_step (lawful 0)) m handed = Some m' /\ shared m' = 1 /\
    Z.of_nat (length handed) <= work leaving m /\
    ((exists e m'', internal leaving e = true /\ ss_step (lawful 0) m' e = Some m'') \/
     forall t th, threads m' !! t = Some th ->
       match at_pc th with
       | Idle _ => True
       | Waiting cv _ o _ => shared m' < request_of o
       | _ => False
       end).
Proof.
  eexists _, _. split; [vm_compute; reflexivity|]. split; [vm_compute; reflexivity|].
  split; [vm_compute; reflexivity|].
  eapply (ss_settles 0 (lawful 0) 2 three hand_back _ handed);
    [apply within_lawful|lia|lia|by vm_compute|apply three_newcomers|vm_compute; reflexivity
    |repeat constructor|vm_compute; reflexivity].
Defined.

Theorem ss_sections_witness :
  0 <= 2 <= INT_MAX /\ 0 <= 3 <= INT_MAX - 2 /\
  body_ (acquire 2) at_start false 3 = return_ 1 [] Void.
Proof.
  split; [by vm_compute|]. split; [by vm_compute|].
  destruct (ss_sections 2 3) as [H _]; [by vm_compute|by vm_compute|exact H].
Defined.

Definition one_scope : list (event op) :=
  [Invoke 0%nat (SemaphoreGuard.constructor 2); Acquire 0%nat; Exec 0%nat []; Finish 0%nat;
   Invoke 1%nat (SemaphoreGuard.constructor 2); Acquire 1%nat; Exec 1%nat []].

Theorem guard_scopes_witness :
  exists m, run (ss_step (SemaphoreGuard.contract 2)) (start 3 three) one_scope = Some m /\
    owners 2 (modes m) = 1 /\ owners 2 (modes m) <= 3 / 2.
Proof.
  eexists. split; [vm_compute; reflexivity|]. split; [vm_compute; reflexivity|].
  apply (guard_scopes simple_semaphore_laws 2 3 three one_scope);
    [by vm_compute|by vm_compute|by vm_compute|apply three_newcomers|vm_compute; reflexivity].
Defined.
