(* ===== verification/QueuedSemaphore.v ===== *)
(** * concurrency/semaphore.h: QueuedSemaphore

    The shared state is the atomic [permits], the waiting queue and the
    multiset [request_record] of the requests of the waiting threads; all are
    written under [main_lock].  A waiting thread sleeps on the condition
    variable inside its own node, so the condition variables of the machine
    are the addresses of nodes. *)

From S2P Require Import Prelude Machine Monitor MonitorTheory Semaphore WaitQueue.

Module QueuedSemaphore.
Import Sem.
Local Open Scope Z_scope.

(** After [main_lock] is locked; while waiting with [wait_node]. *)
Inductive point := at_start | at_wait (wait_node : loc).

#[export] Instance point_eq_dec : EqDecision point.
Proof. solve_decision. Defined.

Record shared_state := mkShared {
  permits : Z;
  queue : WaitQueue;
  request_record : gmap Z nat;
}.

(** ** request_record, a [std::map<unsigned, size_t>] *)

Definition request_record_insert (request : Z) (rr : gmap Z nat) : gmap Z nat :=
  match rr !! request with
  | Some k => <[request := S k]> rr
  | None => <[request := 1%nat]> rr
  end.

Definition request_record_remove (request : Z) (rr : gmap Z nat) : gmap Z nat :=
  match rr !! request with
  | Some k => if (k =? 1)%nat then delete request rr else <[request := (k - 1)%nat]> rr
  | None => rr
  end.

(** The key [begin()] points to: the map is ordered by key. *)
Definition least_key (rr : gmap Z nat) : option Z :=
  map_fold (fun k _ acc => Some (match acc with Some k' => Z.min k k' | None => k end)) None rr.

(** The key, an [unsigned], is returned as [int]. *)
Definition request_record_min (rr : gmap Z nat) : Z :=
  match least_key rr with Some k => int_of k | None => 0 end.

(** ** The critical sections *)

Abbreviation segment := (option (shared_state * list (notify loc) * exit point loc ret)).

(** [if (permits >= request_record_min()) queue.wake_head();] *)
Definition wake_if_enough (s : shared_state) : option (shared_state * list (notify loc)) :=
  if request_record_min (request_record s) <=? permits s then
    '(q, n) ← wake_head (queue s);
    Some (mkShared (permits s) q (request_record s),
          match n with Some c => [NotifyAll c] | None => [] end)
  else Some (s, []).

(** The top of the waiting loop: [enqueue], then the predicated wait, which
    tests the mark before it blocks. *)
Definition wait_turn (timed : bool) (s : shared_state) : segment :=
  '(q, wait_node) ← enqueue (queue s);
  let s := mkShared (permits s) q (request_record s) in
  if wakeable_at q wait_node then Some (s, [], Hold (at_wait wait_node))
  else Some (s, [], Wait wait_node timed (at_wait wait_node)).

(** After the loop: the permits are taken and the signal passed on. *)
Definition take_permits (request : Z) (r : ret) (s : shared_state) : segment :=
  let s := mkShared (int_of (permits s - request)) (queue s)
             (request_record_remove request (request_record s)) in
  '(s, ns) ← wake_if_enough s;
  if permits s <? 0 then None (* std::terminate *)
  else Some (s, ns, Leave [] (Return r)).

Definition result (timed : bool) : ret := if timed then Bool true else Void.

(** [try_acquire0] from the lock to the first wait. *)
Definition try_acquire0_start (timed : bool) (request : Z) (s : shared_state) : segment :=
  if (int_of request <=? permits s) && is_empty (queue s) then
    Some (mkShared (int_of (permits s - request)) (queue s) (request_record s), [],
          Leave [] (Return (result timed)))
  else
    wait_turn timed (mkShared (permits s) (queue s) (request_record_insert request (request_record s))).

(** ... and after each wake-up: a marked thread leaves the queue and takes its
    permits or queues again; one that is not marked gives up after a timeout,
    and sleeps on otherwise. *)
Definition try_acquire0_wait (timed : bool) (request : Z) (wait_node : loc) (timedout : bool)
    (s : shared_state) : segment :=
  if wakeable_at (queue s) wait_node then
    q ← dequeue (queue s);
    let s := mkShared (permits s) q (request_record s) in
    if int_of request <=? permits s then take_permits request (result timed) s
    else wait_turn timed s
  else if timed && timedout then
    q ← remove (queue s) (Some wait_node);
    Some (mkShared (permits s) q (request_record s), [], Leave [] (Return (Bool false)))
  else Some (s, [], Wait wait_node timed (at_wait wait_node)).

Definition try_acquire0 (timed : bool) (request : Z) (p : point) (timedout : bool)
    (s : shared_state) : segment :=
  match p with
  | at_start => try_acquire0_start timed request s
  | at_wait wait_node => try_acquire0_wait timed request wait_node timedout s
  end.

Definition release_body (request : Z) (s : shared_state) : segment :=
  '(s, ns) ← wake_if_enough (mkShared (int_of (permits s + request)) (queue s) (request_record s));
  Some (s, ns, Leave [] (Return Void)).

(** [permits >= request] compares an [int] with an [unsigned]: the [int] is
    converted. *)
Definition try_acquire_body (request : Z) (s : shared_state) : segment :=
  if request <=? uint_of (permits s) then
    Some (mkShared (int_of (permits s - request)) (queue s) (request_record s), [],
          Leave [] (Return (Bool true)))
  else Some (s, [], Leave [] (Return (Bool false))).

(** [try_acquire_until] of this class cannot be instantiated (it passes two
    arguments to a function of three), so no program calls it. *)
Definition body_ (o : op) (p : point) (timedout : bool) (s : shared_state) : segment :=
  match o with
  | acquire n => try_acquire0 false n p timedout s
  | release n => release_body n s
  | try_acquire n => try_acquire_body n s
  | try_acquire_for n => try_acquire0 true n p timedout s
  | try_acquire_until _ | available_permits => None
  end.

Definition enter_ (o : op) (s : shared_state) : option (shared_state * entry point ret) :=
  match o with
  | available_permits => Some (s, Direct (Int (permits s)))
  | try_acquire_until _ => None
  | _ => Some (s, Blocking at_start)
  end.

Definition the_code : code shared_state op point loc ret :=
  mkCode enter_ body_ (fun _ _ s => Some s).

(** The constructor. *)
Definition construct (initial_permits : Z) : shared_state :=
  mkShared initial_permits new_queue ∅.

(** What a thread holds, and the node it waits with.  A thread that makes a
    call is not inside another one, so it waits with none. *)
Record ledger := mkLedger { holds : Z; waits_with : option loc }.

#[export] Instance ledger_eq_dec : EqDecision ledger.
Proof. solve_decision. Defined.

Definition settle (o : op) (p : point) (ex : exit point loc ret) (h : ledger) : ledger :=
  match ex with
  | Wait c _ _ => mkLedger (holds h) (Some c)
  | Leave _ (Return r) => mkLedger (balance o r (holds h)) None
  | Leave _ (Again _) => mkLedger (holds h) None
  | _ => h
  end.

Definition clients (contract : Z -> op -> bool) : client shared_state op point loc ret ledger :=
  mkClient (fun _ h _ o => contract (holds h) o && bool_decide (waits_with h = None)
                           && match o with try_acquire_until _ => false | _ => true end) settle.

#[export] Instance queued_semaphore : Semaphore shared_state point loc ledger := {
  sem_code := the_code;
  sem_client := clients;
  sem_init := construct;
  permits_of := permits;
  held := holds;
  fresh := mkLedger 0 None;
}.
End QueuedSemaphore.
