(* ===== verification/QueuedSemaphoreProofs.v ===== *)
(** * QueuedSemaphore: correctness

    The waiting queue holds exactly the nodes of the waiting threads, one
    each, and only its head can be marked, so a woken thread dequeues its own
    node; the books balance and the self-check of [try_acquire0] never fires. *)

From S2P Require Import Prelude Machine Monitor MonitorTheory.
From S2P Require Import Semaphore DList WaitQueue WaitQueueProofs QueuedSemaphore.

Import Sem QueuedSemaphore.
Local Open Scope Z_scope.

(** ** Whose nodes are in the queue *)

Definition waiting_with (hs : gmap tid ledger) (t : tid) (n : loc) : Prop :=
  exists h, hs !! t = Some h /\ waits_with h = Some n.

(** The nodes [ns] are those of the threads in [ok], one each. *)
Definition tracks (ok : tid -> Prop) (ns : list loc) (hs : gmap tid ledger) : Prop :=
  (forall n, n ∈ ns <-> exists u, ok u /\ waiting_with hs u n) /\
  (forall u v n, ok u -> ok v -> waiting_with hs u n -> waiting_with hs v n -> u = v).

Definition everyone (t : tid) : Prop := True.
Definition but (t u : tid) : Prop := u <> t.

Lemma waiting_with_insert hs t h u n :
  waiting_with (<[t := h]> hs) u n <->
  (u = t /\ waits_with h = Some n) \/ (u <> t /\ waiting_with hs u n).
Proof.
  unfold waiting_with. rewrite lookup_insert. case_decide as Ht.
  - subst u. naive_solver.
  - naive_solver.
Qed.

Lemma tracks_start hs t h ns :
  tracks everyone ns hs -> hs !! t = Some h -> waits_with h = None -> tracks (but t) ns hs.
Proof.
  intros [Hn Hu] Ht Hw. split; [|intros u v n _ _; by apply Hu].
  intros n. rewrite Hn. split; [|naive_solver]. intros (u & _ & Hwu).
  exists u. split; [|done]. intros ->. destruct Hwu as (h' & Ht' & Hw'). congruence.
Qed.

Lemma tracks_leave hs t h ns1 n ns2 :
  tracks everyone (ns1 ++ n :: ns2) hs -> NoDup (ns1 ++ n :: ns2) ->
  hs !! t = Some h -> waits_with h = Some n -> tracks (but t) (ns1 ++ ns2) hs.
Proof.
  intros [Hn Hu] Hnd Ht Hw.
  assert (Htn : waiting_with hs t n) by (by exists h).
  split; [|intros u v x _ _; by apply Hu].
  intros x. split.
  - intros Hx. assert (x <> n).
    { intros ->. rewrite <- (Permutation_middle ns1 ns2 n) in Hnd. apply NoDup_cons in Hnd as [? _]. done. }
    destruct (proj1 (Hn x)) as (u & _ & Hux); [set_solver|].
    exists u. split; [|done]. intros ->. destruct Hux as (h' & Ht' & Hw'). congruence.
  - intros (u & Hne & Hux). assert (x ∈ ns1 ++ n :: ns2) as Hx by (apply Hn; by exists u).
    assert (x <> n); [|set_solver]. intros ->. apply Hne. by apply (Hu u t n).
Qed.

Lemma tracks_rest hs t h' ns :
  tracks (but t) ns hs -> waits_with h' = None -> tracks everyone ns (<[t := h']> hs).
Proof.
  intros [Hn Hu] Hw. split.
  - intros n. rewrite Hn. setoid_rewrite waiting_with_insert. split.
    + intros (u & Hne & Hun). exists u. split; [done|]. by right.
    + intros (u & _ & [[-> Hw']|[Hne Hun]]); [congruence|]. by exists u.
  - intros u v n _ _. rewrite !waiting_with_insert.
    intros [[-> ?]|[? ?]] [[-> ?]|[? ?]]; try congruence. by apply (Hu u v n).
Qed.

Lemma tracks_join hs t h' ns x :
  tracks (but t) ns hs -> x ∉ ns -> waits_with h' = Some x ->
  tracks everyone (ns ++ [x]) (<[t := h']> hs).
Proof.
  intros [Hn Hu] Hx Hw. split.
  - intros n. rewrite elem_of_app, list_elem_of_singleton, Hn. setoid_rewrite waiting_with_insert.
    split.
    + intros [(u & Hne & Hun)| ->]; [exists u|exists t]; split; [done|by right|done|by left].
    + intros (u & _ & [[-> Hw']|[Hne Hun]]); [right; congruence|]. left. by exists u.
  - intros u v n _ _. rewrite !waiting_with_insert.
    intros [[-> Hn1]|[Hu1 Hun]] [[-> Hn2]|[Hv1 Hvn]]; try done.
    + exfalso. apply Hx. rewrite Hw in Hn1. injection Hn1 as ->. apply Hn. by exists v.
    + exfalso. apply Hx. rewrite Hw in Hn2. injection Hn2 as ->. apply Hn. by exists u.
    + by apply (Hu u v n).
Qed.

Lemma length_omap_le {A B} (f : A -> option B) l : (length (omap f l) <= length l)%nat.
Proof. induction l as [|x l IH]; csimpl; [done|]. destruct (f x); csimpl; lia. Qed.

(** No more nodes wait than there are threads. *)
Lemma tracks_length ok ns hs : tracks ok ns hs -> NoDup ns -> (length ns <= size hs)%nat.
Proof.
  intros [Hn _] Hnd. transitivity (length (omap waits_with (map_to_list hs).*2)).
  - apply submseteq_length, NoDup_submseteq; [done|]. intros n (u & _ & h & Hu & Hw)%Hn.
    apply list_elem_of_omap. exists h. split; [|done].
    apply list_elem_of_fmap. exists (u, h). split; [done|]. by apply elem_of_map_to_list.
  - etransitivity; [apply length_omap_le|]. rewrite length_fmap, length_map_to_list. done.
Qed.

(** ** What the pieces of the code do to a queue that holds [l] *)

Definition head_only (l : list (loc * bool)) : Prop := Forall (fun nb => nb.2 = false) (tail l).

Lemma head_only_snoc l x : head_only l -> head_only (l ++ [(x, false)]).
Proof.
  unfold head_only. destruct l as [|nb l]; simpl; [constructor|].
  intros Hl. apply Forall_app. split; [done|by constructor].
Qed.

Lemma head_only_mark l : head_only l -> head_only (mark_head l).
Proof. by destruct l as [|[n b] l]. Qed.

Lemma head_only_tail nb l : head_only (nb :: l) -> head_only l.
Proof. unfold head_only. simpl. destruct l; [done|]. by intros [_ Hl]%Forall_cons. Qed.

(** Only the head can be marked. *)
Lemma head_only_marked q l n :
  holds_list q l -> head_only l -> n ∈ l.*1 -> wakeable_at q n = true ->
  exists l', l = (n, true) :: l'.
Proof.
  intros Hq Hl Hn Hw. apply list_elem_of_fmap in Hn as ([n' b] & -> & Hn). simpl in *.
  rewrite (holds_list_marks _ _ _ _ Hq Hn) in Hw. subst b.
  destruct l as [|nb l]; [by apply elem_of_nil in Hn|].
  apply elem_of_cons in Hn as [<-|Hn]; [by exists l|].
  unfold head_only in Hl. simpl in Hl. rewrite Forall_forall in Hl. by specialize (Hl _ Hn).
Qed.

(** Does [wake_if_enough] signal?  And whom? *)
Definition enough (s : shared_state) : bool := request_record_min (request_record s) <=? permits s.

Definition signal (s : shared_state) (l : list (loc * bool)) : list (notify loc) :=
  if enough s then match head l.*1 with Some c => [NotifyAll c] | None => [] end else [].

Definition signalled (s : shared_state) (l : list (loc * bool)) : list (loc * bool) :=
  if enough s then mark_head l else l.

Lemma signalled_fst s l : (signalled s l).*1 = l.*1.
Proof. unfold signalled. case_match; [apply mark_head_fst|done]. Qed.

Lemma wake_if_enough_spec s l :
  holds_list (queue s) l ->
  exists q', wake_if_enough s = Some (mkShared (permits s) q' (request_record s), signal s l) /\
    holds_list q' (signalled s l).
Proof.
  intros Hq. unfold wake_if_enough, signal, signalled, enough. case_match.
  - destruct (wake_holds _ _ Hq) as (q' & Hw & Hq'). exists q'. rewrite Hw. done.
  - exists (queue s). by destruct s.
Qed.

(** [enqueue] hands out an unmarked node, so the wait always blocks. *)
Lemma wait_turn_spec timed s l :
  holds_list (queue s) l -> Z.of_nat (length l) < 2 ^ 62 ->
  exists q' x,
    wait_turn timed s = Some (mkShared (permits s) q' (request_record s), [], Wait x timed (at_wait x)) /\
    x ∉ l.*1 /\ holds_list q' (l ++ [(x, false)]).
Proof.
  intros Hq Hlen. destruct (enqueue_holds _ _ Hq Hlen) as (q' & x & He & Hx & Hq').
  exists q', x. unfold wait_turn. rewrite He. simpl.
  rewrite (holds_list_marks _ _ x false Hq') by set_solver. done.
Qed.

(** ** The invariant *)

Section invariant.
Context (K P : Z) (contract : Z -> op -> bool) (Hwithin : within K contract).
Implicit Types (hs : gmap tid ledger) (s : shared_state) (h : ledger).

Definition queue_inv s hs : Prop :=
  exists l, holds_list (queue s) l /\ tracks everyone l.*1 hs /\ head_only l.

Definition qinv s hs : Prop :=
  balanced K P holds (permits s) hs /\ Z.of_nat (size hs) < 2 ^ 62 /\ queue_inv s hs.

Definition allowed h (o : op) (p : point) : Prop :=
  contract (holds h) o = true /\
  match p with
  | at_start => waits_with h = None /\
      match o with try_acquire_until _ | available_permits => False | _ => True end
  | at_wait n => waits_with h = Some n /\
      match o with acquire _ | try_acquire_for _ => True | _ => False end
  end.

Definition asleep h (c : loc) (o : op) (p : point) : Prop := allowed h o p /\ p = at_wait c.

(** One segment of [t] in mode [h]. *)
Definition keeps hs t h o p (r : segment) : Prop :=
  exists s' ns ex, r = Some (s', ns, ex) /\
    qinv s' (<[t := settle o p ex h]> hs) /\ exit_ok allowed asleep (settle o p ex h) o ex.

Lemma size_same hs t h h' : hs !! t = Some h -> size (<[t := h']> hs) = size hs.
Proof. intros Ht. apply map_size_insert_Some. by eexists. Qed.

(** Returning with the queue [l] and [d] more permits in hand. *)
Lemma keeps_return hs t h o p s q rr l ns r d :
  balanced K P holds (permits s) hs -> Z.of_nat (size hs) < 2 ^ 62 -> hs !! t = Some h ->
  balance o r (holds h) = holds h + d -> 0 <= permits s - d -> - K <= holds h + d ->
  holds_list q l -> tracks (but t) l.*1 hs -> head_only l ->
  keeps hs t h o p (Some (mkShared (int_of (permits s - d)) q rr, ns, Leave [] (Return r))).
Proof.
  intros Hbal Hsize Ht Hr Hd Hk Hq Htr Hl. do 3 eexists. split; [done|]. split; [|done].
  simpl. split_and!.
  - by apply (balanced_update _ _ _ _ _ _ h).
  - by rewrite (size_same _ _ h).
  - exists l. split_and!; [done|by apply tracks_rest|done].
Qed.

(** Queueing (again). *)
Lemma keeps_wait_turn hs t h o p s l timed :
  balanced K P holds (permits s) hs -> Z.of_nat (size hs) < 2 ^ 62 -> hs !! t = Some h ->
  contract (holds h) o = true -> (exists n, o = acquire n \/ o = try_acquire_for n) ->
  holds_list (queue s) l -> tracks (but t) l.*1 hs -> head_only l ->
  keeps hs t h o p (wait_turn timed s).
Proof.
  intros Hbal Hsize Ht Hc Ho Hq Htr Hl.
  assert (Z.of_nat (length l) < 2 ^ 62) as Hlen.
  { pose proof (tracks_length _ _ _ Htr (holds_list_nodup _ _ Hq)) as Hle.
    rewrite length_fmap in Hle. lia. }
  destruct (wait_turn_spec timed s l Hq Hlen) as (q' & x & -> & Hx & Hq').
  do 3 eexists. split; [done|]. simpl. split; [split_and!|].
  - by apply (balanced_same _ _ _ _ _ _ h).
  - by rewrite (size_same _ _ h).
  - exists (l ++ [(x, false)]). split_and!; [done| |by apply head_only_snoc].
    rewrite fmap_app. by apply tracks_join.
  - unfold asleep, allowed. simpl. split_and!; try done. by destruct Ho as (n & [-> | ->]).
Qed.

Lemma qinv_sleeper s hs t h n l :
  holds_list (queue s) l -> tracks everyone l.*1 hs ->
  hs !! t = Some h -> waits_with h = Some n -> n ∈ l.*1.
Proof. intros Hq [Hn _] Ht Hw. apply Hn. exists t. split; [done|]. by exists h. Qed.

Lemma lawful_request z o n :
  contract z o = true -> (o = acquire n \/ o = try_acquire n \/ o = try_acquire_for n) ->
  0 <= n <= INT_MAX.
Proof.
  intros Hc Ho. pose proof (Hwithin _ _ Hc) as Hl.
  destruct Ho as [-> |[-> | ->]]; by apply bool_decide_eq_true in Hl.
Qed.

Definition timed_of (o : op) : bool := match o with try_acquire_for _ => true | _ => false end.
Definition request_of (o : op) : Z :=
  match o with acquire n | release n | try_acquire n | try_acquire_for n => n | _ => 1 end.

Definition queueing (o : op) : Prop := exists n, o = acquire n \/ o = try_acquire_for n.

Lemma overdraft_of s hs t h :
  balanced K P holds (permits s) hs -> hs !! t = Some h -> - K <= holds h.
Proof. intros (_ & _ & Hov & _) Ht. by apply (Hov t h). Qed.

Lemma balance_result o z : queueing o -> balance o (result (timed_of o)) z = z + request_of o.
Proof. by intros (n & [-> | ->]). Qed.

Lemma queueing_request z o : contract z o = true -> queueing o -> 0 <= request_of o <= INT_MAX.
Proof. intros Hc (n & Ho). destruct Ho as [-> | ->]; apply (lawful_request z _ n Hc); auto. Qed.

Lemma start_keeps hs t h s o p :
  qinv s hs -> hs !! t = Some h -> contract (holds h) o = true -> queueing o ->
  waits_with h = None ->
  keeps hs t h o p (try_acquire0_start (timed_of o) (request_of o) s).
Proof.
  intros (Hbal & Hsize & l & Hq & Htr & Hl) Ht Hc Ho Hw.
  pose proof (queueing_request _ _ Hc Ho) as Hn. pose proof (overdraft_of _ _ _ _ Hbal Ht).
  assert (Htr' : tracks (but t) l.*1 hs) by (by eapply tracks_start).
  unfold try_acquire0_start. rewrite (int_small (request_of o)) by (unfold INT_MIN; lia).
  destruct (Z.leb_spec (request_of o) (permits s)); simpl; [destruct (is_empty (queue s))|].
  - eapply keeps_return; try done; [by apply balance_result|lia|lia].
  - by eapply keeps_wait_turn.
  - by eapply keeps_wait_turn.
Qed.

(** A thread that has left the queue and finds enough permits. *)
Lemma take_keeps hs t h s o p l :
  balanced K P holds (permits s) hs -> Z.of_nat (size hs) < 2 ^ 62 -> hs !! t = Some h ->
  contract (holds h) o = true -> queueing o -> request_of o <= permits s ->
  holds_list (queue s) l -> tracks (but t) l.*1 hs -> head_only l ->
  keeps hs t h o p (take_permits (request_of o) (result (timed_of o)) s).
Proof.
  intros Hbal Hsize Ht Hc Ho Hle Hq Htr Hl.
  pose proof (queueing_request _ _ Hc Ho) as Hn. pose proof (overdraft_of _ _ _ _ Hbal Ht).
  pose proof (balanced_range _ _ _ _ _ Hbal) as Hrange.
  unfold take_permits. set (s1 := mkShared _ _ _).
  destruct (wake_if_enough_spec s1 l Hq) as (q' & -> & Hq'). simpl.
  rewrite int_small by (unfold INT_MIN; lia).
  destruct (Z.ltb_spec (permits s - request_of o) 0); [lia|].
  rewrite <- (int_small (permits s - request_of o)) by (unfold INT_MIN; lia).
  apply (keeps_return _ _ _ _ _ s _ _ (signalled s1 l)); try done; [by apply balance_result|lia| |].
  - by rewrite signalled_fst.
  - unfold signalled. case_match; [by apply head_only_mark|done].
Qed.

Lemma wait_keeps hs t h s o p n b :
  qinv s hs -> hs !! t = Some h -> contract (holds h) o = true -> queueing o ->
  waits_with h = Some n ->
  keeps hs t h o p (try_acquire0_wait (timed_of o) (request_of o) n b s).
Proof.
  intros Hinv Ht Hc Ho Hw. pose proof Hinv as (Hbal & Hsize & l & Hq & Htr & Hl).
  pose proof (queueing_request _ _ Hc Ho) as Hn. pose proof (overdraft_of _ _ _ _ Hbal Ht).
  pose proof (qinv_sleeper _ _ _ _ _ _ Hq Htr Ht Hw) as Hin.
  pose proof (holds_list_nodup _ _ Hq) as Hnd.
  unfold try_acquire0_wait. destruct (wakeable_at (queue s) n) eqn:Hmark.
  - destruct (head_only_marked _ _ _ Hq Hl Hin Hmark) as (l' & ->).
    destruct (dequeue_holds _ _ _ _ Hq) as (q' & -> & Hq'). simpl.
    assert (Htr' : tracks (but t) l'.*1 hs) by (by apply (tracks_leave _ _ h [] n)).
    apply head_only_tail in Hl.
    rewrite (int_small (request_of o)) by (unfold INT_MIN; lia).
    destruct (Z.leb_spec (request_of o) (permits s)).
    + by apply (take_keeps _ _ _ (mkShared _ _ _) _ _ l').
    + by apply (keeps_wait_turn _ _ _ _ _ (mkShared _ _ _) l').
  - destruct (timed_of o && b) eqn:Hto.
    + apply list_elem_of_fmap in Hin as ([n' m] & -> & (l1 & l2 & ->)%list_elem_of_split).
      destruct (remove_holds _ _ _ _ _ Hq) as (q' & Hr & Hq'). cbn [fst] in *. rewrite Hr. simpl.
      pose proof (balanced_range _ _ _ _ _ Hbal) as Hrange.
      rewrite <- (int_small (permits s)) by (unfold INT_MIN; lia).
      replace (permits s) with (permits s - 0) by lia.
      rewrite fmap_app, fmap_cons in Htr, Hnd.
      apply (keeps_return _ _ _ _ _ s _ _ (l1 ++ l2)); try done; try lia.
      * destruct Ho as (k & [-> | ->]); [done|simpl; lia].
      * rewrite fmap_app. by eapply tracks_leave.
      * clear -Hl. unfold head_only in *. destruct l1 as [|x l1]; simpl in *.
        -- destruct l2; [done|]. by apply Forall_cons in Hl as [_ Hl].
        -- apply Forall_app in Hl as [? Hl]. apply Forall_app. split; [done|].
           by apply Forall_cons in Hl as [_ Hl].
    + do 3 eexists. split; [done|]. simpl. rewrite <- Hw.
      replace (mkLedger (holds h) (waits_with h)) with h by (by destruct h).
      rewrite insert_id by done. split; [done|]. unfold asleep, allowed.
      split_and!; try done. by destruct Ho as (k & [-> | ->]).
Qed.

Lemma try_acquire_keeps hs t h s p n :
  qinv s hs -> hs !! t = Some h -> contract (holds h) (try_acquire n) = true ->
  waits_with h = None -> keeps hs t h (try_acquire n) p (try_acquire_body n s).
Proof.
  intros (Hbal & Hsize & l & Hq & Htr & Hl) Ht Hc Hw.
  pose proof (lawful_request _ _ n Hc ltac:(auto)) as Hn. pose proof (overdraft_of _ _ _ _ Hbal Ht).
  pose proof (balanced_range _ _ _ _ _ Hbal) as Hrange.
  assert (Htr' : tracks (but t) l.*1 hs) by (by eapply tracks_start).
  unfold try_acquire_body. rewrite uint_small by (unfold INT_MAX in *; lia).
  destruct (Z.leb_spec n (permits s)).
  - eapply keeps_return; try done; lia.
  - assert (Some (s, [], Leave [] (Return (Bool false)))
      = (Some (mkShared (int_of (permits s - 0)) (queue s) (request_record s), [],
               Leave [] (Return (Bool false))) : segment)) as ->.
    { rewrite Z.sub_0_r, int_small by (unfold INT_MIN; lia). by destruct s. }
    eapply keeps_return; try done; simpl; lia.
Qed.

Lemma release_keeps hs t h s p n :
  qinv s hs -> hs !! t = Some h -> contract (holds h) (release n) = true ->
  waits_with h = None -> keeps hs t h (release n) p (release_body n s).
Proof.
  intros (Hbal & Hsize & l & Hq & Htr & Hl) Ht Hc Hw.
  pose proof (Hwithin _ _ Hc) as Hn. apply bool_decide_eq_true in Hn.
  assert (Htr' : tracks (but t) l.*1 hs) by (by eapply tracks_start).
  unfold release_body. set (s1 := mkShared _ _ _).
  destruct (wake_if_enough_spec s1 l Hq) as (q' & -> & Hq'). simpl.
  assert (permits s + n = permits s - - n) as -> by lia.
  assert (0 <= permits s) by (apply Hbal).
  apply (keeps_return _ _ _ _ _ s _ _ (signalled s1 l)); try done; simpl; try lia.
  - by rewrite signalled_fst.
  - unfold signalled. case_match; [by apply head_only_mark|done].
Qed.

#[export] Instance queued_monitor_ok : MonitorOk the_code (clients contract) qinv allowed asleep.
Proof.
  split.
  - by intros h c o p [Ha _].
  - intros t h s hs o HI Ht Hmay. simpl in Hmay.
    apply andb_prop in Hmay as [[Hc Hw%bool_decide_eq_true]%andb_prop Ho].
    destruct o; try done; do 2 eexists; (split; [reflexivity|]); (split; [done|]); by simpl.
  - intros t h s hs o p b HI Ht [Hc Hp].
    destruct p as [|n]; destruct Hp as [Hw Ho].
    + destruct o as [n|n|n|n| |]; try done; simpl.
      * by apply (start_keeps hs t h s (acquire n)); [..|exists n; left|].
      * by apply release_keeps.
      * by apply try_acquire_keeps.
      * by apply (start_keeps hs t h s (try_acquire_for n)); [..|exists n; right|].
    + destruct o as [k| | |k| |]; try done; simpl.
      * by apply (wait_keeps hs t h s (acquire k)); [..|exists k; left|].
      * by apply (wait_keeps hs t h s (try_acquire_for k)); [..|exists k; right|].
  - intros t h s hs o p HI Ht Ha. by exists s.
Qed.

(** ** Marks are announced *)

(** Nodes unmarked in [l] stay unmarked, or their threads are notified. *)
Definition marks_kept (l : list (loc * bool)) (r : segment) : Prop :=
  forall s' ns ex, r = Some (s', ns, ex) ->
    (exists l', holds_list (queue s') l' /\
      forall c, (c, false) ∈ l -> (c, false) ∈ l' \/ NotifyAll c ∈ ns) /\
    (forall c timed p, ex = Wait c timed p -> wakeable_at (queue s') c = false).

Lemma signalled_marks s l c :
  (c, false) ∈ l -> (c, false) ∈ signalled s l \/ NotifyAll c ∈ signal s l.
Proof.
  unfold signalled, signal. intros Hc. destruct (enough s); [|by left].
  destruct l as [|[n b] l]; [by apply elem_of_nil in Hc|]. simpl.
  apply elem_of_cons in Hc as [[= <- <-]|Hc]; [right|left]; set_solver.
Qed.

Lemma marks_kept_return l z q rr ns ex l' :
  holds_list q l' -> (forall c, (c, false) ∈ l -> (c, false) ∈ l' \/ NotifyAll c ∈ ns) ->
  (forall c timed p, ex <> Wait c timed p) ->
  marks_kept l (Some (mkShared z q rr, ns, ex)).
Proof.
  intros Hq Hl Hex s' ns' ex' [= <- <- <-]. split; [by exists l'|].
  intros c timed p ->. by destruct (Hex c timed p).
Qed.

Lemma wait_turn_marks timed s l :
  holds_list (queue s) l -> Z.of_nat (length l) < 2 ^ 62 -> marks_kept l (wait_turn timed s).
Proof.
  intros Hq Hlen s' ns ex Hr. unfold wait_turn in Hr.
  destruct (enqueue (queue s)) as [[q' x]|] eqn:He; [|done]. simpl in Hr.
  destruct (enqueue_holds _ _ Hq Hlen) as (q1 & x1 & He1 & Hx & Hq').
  rewrite He in He1. injection He1 as <- <-.
  pose proof (holds_list_marks _ _ x false Hq' ltac:(set_solver)) as Hm. rewrite Hm in Hr.
  simplify_eq. split; [|by intros c timed' p [= <- _ _]].
  exists (l ++ [(x, false)]). split; [done|]. set_solver.
Qed.

Lemma take_marks request r s l :
  holds_list (queue s) l -> marks_kept l (take_permits request r s).
Proof.
  intros Hq. unfold take_permits. set (s1 := mkShared _ _ _).
  destruct (wake_if_enough_spec s1 l Hq) as (q' & -> & Hq'). simpl. case_match; [done|].
  eapply marks_kept_return; [done| |done]. intros c. apply signalled_marks.
Qed.

Lemma body_marks o p b s l (own : option loc) :
  holds_list (queue s) l -> Z.of_nat (length l) < 2 ^ 62 -> head_only l ->
  (forall n, p = at_wait n -> own = Some n /\ n ∈ l.*1) ->
  marks_kept (filter (fun nb => own <> Some nb.1) l) (body_ o p b s).
Proof.
  intros Hq Hlen Hl Hp.
  assert (Hsub : forall r, marks_kept l r -> marks_kept (filter (fun nb => own <> Some nb.1) l) r).
  { intros r Hr s' ns ex Heq. destruct (Hr s' ns ex Heq) as ((l' & Hq' & Hc) & Hw).
    split; [|done]. exists l'. split; [done|]. intros c [_ Hin]%list_elem_of_filter. auto. }
  assert (Hrel : forall n, marks_kept l (release_body n s)).
  { intros n. unfold release_body. set (s1 := mkShared _ _ _).
    destruct (wake_if_enough_spec s1 l Hq) as (q' & -> & Hq'). simpl.
    eapply marks_kept_return; [done| |done]. intros c. apply signalled_marks. }
  assert (Htry : forall n, marks_kept l (try_acquire_body n s)).
  { intros n. unfold try_acquire_body. destruct s. case_match; simpl in *;
      (eapply marks_kept_return; [done| |done]); auto. }
  assert (Hac : forall timed n, marks_kept (filter (fun nb => own <> Some nb.1) l)
                                  (try_acquire0 timed n p b s)).
  { intros timed n. destruct p as [|x]; simpl.
    - apply Hsub. unfold try_acquire0_start. case_match.
      + eapply marks_kept_return; [done| |done]. auto.
      + by apply wait_turn_marks.
    - destruct (Hp x eq_refl) as [-> Hin]. clear Hsub. unfold try_acquire0_wait.
      destruct (wakeable_at (queue s) x) eqn:Hm.
      + destruct (head_only_marked _ _ _ Hq Hl Hin Hm) as (l' & ->).
        destruct (dequeue_holds _ _ _ _ Hq) as (q' & -> & Hq'). simpl.
        assert (Hf : forall r, marks_kept l' r ->
          marks_kept (filter (fun nb => Some x <> Some nb.1) ((x, true) :: l')) r).
        { intros r Hr s' ns ex Heq. destruct (Hr s' ns ex Heq) as ((l2 & Hq2 & Hc) & Hw).
          split; [|done]. exists l2. split; [done|].
          intros c [Hne Hcin]%list_elem_of_filter. apply Hc. set_solver. }
        apply Hf. simpl in Hlen. case_match; [by apply take_marks|].
        apply wait_turn_marks; [done|lia].
      + case_match.
        * apply list_elem_of_fmap in Hin as ([n' m] & -> & (l1 & l2 & ->)%list_elem_of_split).
          destruct (remove_holds _ _ _ _ _ Hq) as (q' & Hr & Hq'). cbn [fst] in *. rewrite Hr. simpl.
          eapply marks_kept_return; [done| |done].
          intros c [Hne Hcin]%list_elem_of_filter. left. set_solver.
        * intros s' ns ex [= <- <- <-]. split; [|by intros c tm p [= <- _ _]].
          exists l. split; [done|]. intros c [_ Hc]%list_elem_of_filter. by left. }
  destruct o; simpl; auto; by intros s' ns ex.
Qed.

(** A sleeper is blocked while its node is unmarked. *)
Definition unmarked (c : loc) (o : op) (p : point) (s : shared_state) : Prop :=
  wakeable_at (queue s) c = false.

Lemma qinv_marks s hs t h o p :
  qinv s hs -> hs !! t = Some h -> allowed h o p ->
  exists l, holds_list (queue s) l /\ Z.of_nat (length l) < 2 ^ 62 /\ head_only l /\
    tracks everyone l.*1 hs /\
    (forall n, p = at_wait n -> waits_with h = Some n /\ n ∈ l.*1).
Proof.
  intros (_ & Hsize & l & Hq & Htr & Hl) Ht [_ Hp]. exists l.
  pose proof (tracks_length _ _ _ Htr (holds_list_nodup _ _ Hq)) as Hle.
  rewrite length_fmap in Hle. split_and!; try done; [lia|].
  intros n ->. destruct Hp as [Hw _]. split; [done|]. by eapply qinv_sleeper.
Qed.

#[export] Instance queued_notify_ok :
  NotifyOk the_code (clients contract) qinv allowed asleep unmarked (fun _ => false).
Proof.
  split; [| | | |done].
  - intros t h s hs o s' en t' h' c o' p' _ _ _ He _ _. unfold unmarked. simpl in He.
    by destruct o; simplify_eq/=.
  - intros t h s hs o p s' t' h' c o' p' _ _ _ [= <-]. done.
  - intros t h s hs o p b s' ns ex t' h' c o' p' HI Ht Ha Hb Hne Ht' [[_ Ha'] ->] Hm.
    destruct Ha' as [Hw' _].
    destruct (qinv_marks _ _ _ _ _ _ HI Ht Ha) as (l & Hq & Hlen & Hl & Htr & Hp).
    destruct (body_marks o p b s l (waits_with h) Hq Hlen Hl Hp s' ns ex Hb) as ((l' & Hq' & Hc) & _).
    assert (Hin : c ∈ l.*1) by (by eapply qinv_sleeper).
    apply list_elem_of_fmap in Hin as ([c' m] & -> & Hin). cbn [fst] in *.
    unfold unmarked in *. rewrite (holds_list_marks _ _ _ _ Hq Hin) in Hm. subst m.
    destruct (Hc c') as [Hc'|Hc'].
    + apply list_elem_of_filter. split; [|done]. simpl. intros Hw. apply Hne. symmetry.
      destruct Htr as [_ Hu]. by apply (Hu t t' c'); [..|exists h|exists h'].
    + left. by eapply holds_list_marks.
    + right. left. set_solver.
  - intros t h s hs o p b s' ns c timed p' HI Ht Ha Hb.
    destruct (qinv_marks _ _ _ _ _ _ HI Ht Ha) as (l & Hq & Hlen & Hl & Htr & Hp).
    destruct (body_marks o p b s l (waits_with h) Hq Hlen Hl Hp s' ns _ Hb) as (_ & Hw).
    by apply (Hw c timed p').
Qed.

(** ** The start, and threads at rest *)

Lemma qinv_start hs :
  0 <= P -> 0 <= K -> P + K * Z.of_nat (size hs) <= INT_MAX -> Z.of_nat (size hs) < 2 ^ 62 ->
  newcomers hs -> qinv (construct P) hs.
Proof.
  intros HP HK Hb Hs Hn. split_and!; [|done|].
  - apply balanced_start; try done. intros t h Ht. by rewrite (Hn t h Ht).
  - exists []. split_and!; [apply new_queue_holds_nil| |by constructor]. split.
    + intros n. split; [by intros ?%elem_of_nil|]. intros (u & _ & h & Hu & Hw).
      by rewrite (Hn u h Hu) in Hw.
    + intros u v n _ _ (h & Hu & Hw). by rewrite (Hn u h Hu) in Hw.
Qed.

(** Nothing is notified after a release of the lock. *)
Lemma leaves_quietly o p b s s' ns ns' k :
  body_ o p b s = Some (s', ns, Leave ns' k) -> ns' = [].
Proof.
  destruct o as [n|n|n|n|n|], p as [|x]; simpl; try done;
    unfold try_acquire0_start, try_acquire0_wait, release_body, try_acquire_body, take_permits, wait_turn;
    intros Hb;
    repeat first [progress (simplify_option_eq; simpl in *) | case_match]; done.
Qed.

Definition not_waiting h : Prop := waits_with h = None.

Lemma threads_rest hs m :
  qinv (construct P) hs -> newcomers hs ->
  steps (step the_code (clients contract)) (start (construct P) hs) m ->
  all_rest not_waiting (fun _ => False) m.
Proof.
  intros HI Hn Hm. eapply (always_rests the_code (clients contract) qinv allowed asleep); [|done| |done].
  - intros t h s hs' o p b s' ns ns' k _ _ _ Hb. apply leaves_quietly in Hb as ->.
    by destruct k.
  - intros t h Ht. by rewrite (Hn t h Ht).
Qed.
End invariant.

#[export] Instance queued_semaphore_laws : SemaphoreLaws shared_state point loc ledger.
Proof.
  split.
  - done.
  - intros contract t h s o Hmay. by apply andb_prop in Hmay as [[Hc _]%andb_prop _].
  - intros K contract P hs es m Hw HK HP Hb Hs Hnew Hrun%run_steps. simpl in *.
    pose proof (queued_monitor_ok K P contract Hw) as Hok.
    destruct (monitor_invariant the_code (clients contract) (qinv K P)
      (allowed contract) (asleep contract) (construct P) hs m) as [((Hc & H0 & Hov & _) & _) _];
      [by apply qinv_start|done|by split_and!].
  - intros K contract P hs es m t th o p b Hw HK HP Hb Hs Hnew Hrun%run_steps Ht Hpc. simpl in *.
    pose proof (queued_monitor_ok K P contract Hw) as Hok.
    destruct (monitor_invariant the_code (clients contract) (qinv K P)
      (allowed contract) (asleep contract) (construct P) hs m) as [_ Hpcs]; [by apply qinv_start|done|].
    specialize (Hpcs _ _ Ht). rewrite Hpc in Hpcs. apply Hpcs.
  - intros contract o p [| |ns [|]|] h; done.
  - intros n p b s s' ns ns' Hn Hs Hb. simpl in *. unfold try_acquire_body in Hb.
    rewrite uint_small in Hb by (unfold INT_MAX in *; lia). destruct (Z.leb_spec n (permits s)); [done|lia].
Qed.
