(* ===== verification/QueuedSemaphoreUniform.v ===== *)
(** * QueuedSemaphore when every request is the same

    When the clients only [acquire(r)] for one [r] and [release], the record
    of requests counts the queue exactly and the head is marked whenever the
    permits suffice: nobody is stranded. *)

From S2P Require Import Prelude Machine Monitor MonitorTheory.
From S2P Require Import Semaphore DList WaitQueue WaitQueueProofs QueuedSemaphore QueuedSemaphoreProofs.

Import Sem QueuedSemaphore.
Local Open Scope Z_scope.

(** Clients that acquire [r] at a time, without trying or timing out. *)
Definition uniform (K r : Z) (h : Z) (o : op) : bool :=
  match o with
  | acquire n => bool_decide (n = r)
  | release n => bool_decide (0 <= n <= h + K)
  | available_permits => true
  | _ => false
  end.

Lemma uniform_within K r : 0 <= r <= INT_MAX -> within K (uniform K r).
Proof.
  intros Hr h o. destruct o; simpl; try done.
  intros ->%bool_decide_eq_true. by apply bool_decide_eq_true.
Qed.

(** The record when [k] threads wait. *)
Definition tally (r : Z) (k : nat) : gmap Z nat := match k with O => ∅ | S _ => {[r := k]} end.

Section uniform.
Context (K P r : Z) (Hr : 1 <= r <= INT_MAX).
Implicit Types (s : shared_state) (l : list (loc * bool)).

Lemma insert_tally k : request_record_insert r (tally r k) = tally r (S k).
Proof.
  unfold request_record_insert. destruct k; simpl.
  - by rewrite lookup_empty.
  - by rewrite lookup_singleton_eq, insert_singleton_eq.
Qed.

Lemma remove_tally k : request_record_remove r (tally r (S k)) = tally r k.
Proof.
  unfold request_record_remove. simpl. rewrite lookup_singleton_eq. destruct k; simpl.
  - apply delete_singleton_eq.
  - by rewrite insert_singleton_eq.
Qed.

Lemma min_tally k : request_record_min (tally r k) = match k with O => 0 | S _ => r end.
Proof.
  destruct k; [done|]. unfold request_record_min, least_key. simpl.
  rewrite map_fold_singleton. apply int_small. unfold INT_MIN, INT_MAX in *. lia.
Qed.

#[local] Arguments tally : simpl never.

(** Whoever could be served first has been called. *)
Definition served (p : Z) l : Prop := l <> [] -> r <= p -> exists n l', l = (n, true) :: l'.

Definition exact s : Prop :=
  exists l, holds_list (queue s) l /\ request_record s = tally r (length l) /\ served (permits s) l.

Lemma exact_signalled s l :
  holds_list (queue s) l -> request_record s = tally r (length l) ->
  exists q', wake_if_enough s = Some (mkShared (permits s) q' (request_record s), signal s l) /\
    exact (mkShared (permits s) q' (request_record s)).
Proof.
  intros Hq Hrr. destruct (wake_if_enough_spec s l Hq) as (q' & Hw & Hq').
  exists q'. split; [done|]. exists (signalled s l). simpl. split; [done|].
  assert (length (signalled s l) = length l) as ->.
  { by rewrite <- (length_fmap fst), signalled_fst, length_fmap. }
  split; [done|]. unfold signalled, enough. rewrite Hrr, min_tally. unfold served.
  destruct l as [|[n b] l]; simpl; [by case_match|].
  destruct (Z.leb_spec r (permits s)); [by exists n, l|lia].
Qed.

Lemma exact_queue_up s l timed s' ns ex :
  holds_list (queue s) l -> Z.of_nat (length l) < 2 ^ 62 ->
  request_record s = tally r (S (length l)) ->
  (l = [] -> permits s < r) -> served (permits s) l ->
  wait_turn timed s = Some (s', ns, ex) -> exact s'.
Proof.
  intros Hq Hlen Hrr Hnil Hs Hw.
  destruct (wait_turn_spec timed s l Hq Hlen) as (q' & x & Heq & Hx & Hq').
  rewrite Heq in Hw. injection Hw as <- _ _.
  exists (l ++ [(x, false)]). simpl. split; [done|]. split.
  - rewrite Hrr, length_app, Nat.add_comm. done.
  - intros _ Hle. destruct l as [|nb l]; [specialize (Hnil eq_refl); lia|].
    destruct Hs as (n & l' & [= -> ->]); [done|done|]. by exists n, (l' ++ [(x, false)]).
Qed.

Lemma body_exact s l h o p b s' ns ex :
  exact s -> holds_list (queue s) l -> Z.of_nat (length l) < 2 ^ 62 -> head_only l ->
  (forall n, p = at_wait n -> n ∈ l.*1) ->
  uniform K r h o = true -> body_ o p b s = Some (s', ns, ex) -> exact s'.
Proof.
  intros (l0 & Hq0 & Hrr & Hs) Hq Hlen Hl Hp Hu Hb.
  pose proof (holds_list_functional _ _ _ Hq0 Hq) as ->.
  destruct o as [n|n| | | |]; simpl in Hu; try done; apply bool_decide_eq_true in Hu.
  - subst n. simpl in Hb. destruct p as [|x]; simpl in Hb.
    + unfold try_acquire0_start in Hb. rewrite (int_small r), (is_empty_holds _ _ Hq) in Hb
        by (unfold INT_MIN; lia).
      destruct (Z.leb_spec r (permits s)); simpl in Hb; [case_bool_decide as Hnil|].
      * injection Hb as <- _ _. exists l. split; [done|]. split; [done|]. subst l. by intros Hne.
      * eapply exact_queue_up; [| | | | |exact Hb]; simpl; try done.
        by rewrite Hrr, insert_tally.
      * eapply exact_queue_up; [| | | | |exact Hb]; simpl; try done.
        by rewrite Hrr, insert_tally.
    + unfold try_acquire0_wait in Hb. specialize (Hp x eq_refl).
      destruct (wakeable_at (queue s) x) eqn:Hm; [|by injection Hb as <- _ _; exists l].
      destruct (head_only_marked _ _ _ Hq Hl Hp Hm) as (l' & ->). simpl in Hlen, Hrr.
      destruct (dequeue_holds _ _ _ _ Hq) as (q' & Hd & Hq'). rewrite Hd in Hb. simpl in Hb.
      rewrite (int_small r) in Hb by (unfold INT_MIN; lia).
      destruct (Z.leb_spec r (permits s)).
      * unfold take_permits in Hb. simpl in Hb.
        destruct (exact_signalled (mkShared (int_of (permits s - r)) q'
          (request_record_remove r (request_record s))) l') as (q2 & Hw & He); [done| |].
        { simpl. by rewrite Hrr, remove_tally. }
        rewrite Hw in Hb. simpl in Hb. case_match; [done|]. by injection Hb as <- _ _.
      * eapply exact_queue_up; [| | | | |exact Hb]; simpl; try done; [lia|]. intros _ ?. lia.
  - simpl in Hb. unfold release_body in Hb.
    destruct (exact_signalled (mkShared (int_of (permits s + n)) (queue s) (request_record s)) l)
      as (q2 & Hw & He); [done|done|].
    rewrite Hw in Hb. simpl in Hb. by injection Hb as <- _ _.
Qed.

Definition uinv s (hs : gmap tid ledger) : Prop := qinv K P s hs /\ exact s.

(** Under any contract that keeps to requests of [r]. *)
Lemma exact_monitor_ok contract :
  (forall h o, contract h o = true -> uniform K r h o = true) ->
  MonitorOk the_code (clients contract) uinv (allowed contract) (asleep contract).
Proof.
  intros Huni.
  assert (within K contract) as Hwithin by (intros h o Hc; apply (uniform_within K r ltac:(lia)), Huni, Hc).
  pose proof (queued_monitor_ok K P contract Hwithin) as [Ha He Hb Ho].
  split; [apply Ha|..].
  - intros t h s hs o [HI Hx] Ht Hmay.
    destruct (He _ _ _ _ _ HI Ht Hmay) as (s' & en & Hen & HI' & Hok).
    exists s', en. split; [done|]. split; [split; [done|]|done]. simpl in Hen. by destruct o; simplify_eq/=.
  - intros t h s hs o p b [HI Hx] Ht Hal.
    destruct (Hb _ _ _ _ _ _ b HI Ht Hal) as (s' & ns & ex & Hbody & HI' & Hok).
    exists s', ns, ex. split; [done|]. split; [split; [done|]|done].
    destruct (qinv_marks _ _ _ _ _ _ _ _ _ HI Ht Hal) as (l & Hq & Hlen & Hl & _ & Hp).
    eapply (body_exact s l (holds h) o p b); try done; [|by apply Huni; destruct Hal].
    intros n Hn. by apply Hp.
  - intros t h s hs o p HI Ht Hal. by exists s.
Qed.

#[export] Instance uniform_monitor_ok :
  MonitorOk the_code (clients (uniform K r)) uinv (allowed (uniform K r)) (asleep (uniform K r)).
Proof. by apply exact_monitor_ok. Qed.

Lemma uinv_start (hs : gmap tid ledger) :
  0 <= P -> 0 <= K -> P + K * Z.of_nat (size hs) <= INT_MAX -> Z.of_nat (size hs) < 2 ^ 62 ->
  newcomers hs -> uinv (construct P) hs.
Proof.
  intros HP HK Hb Hs Hn. split; [by apply qinv_start|].
  exists []. split; [apply new_queue_holds_nil|]. by split; [|intros Hne].
Qed.
End uniform.
