(* ===== verification/QueuedSemaphoreProps.v ===== *)
(** * QueuedSemaphore: the properties

    What holds of every interleaving, what holds when all requests are equal,
    and the executions in which the class strands a waiter or breaks the order
    of arrival. *)

From S2P Require Import Prelude Machine Monitor MonitorTheory MonitorDrain.
From S2P Require Import Semaphore DList WaitQueue WaitQueueProofs QueuedSemaphore.
From S2P Require Import QueuedSemaphoreProofs QueuedSemaphoreUniform.

Import Sem QueuedSemaphore.
Local Open Scope Z_scope.

Abbreviation qs_state := (state shared_state op point loc ret ledger).
Abbreviation qs_step contract := (step the_code (clients contract)).
Abbreviation qs_start P hs := (start (construct P) hs).

(** The standing assumptions: the callers keep within [lawful K], and neither
    the permits nor the number of threads is near the end of its range. *)
Definition sound (K P : Z) (contract : Z -> op -> bool) (hs : gmap tid ledger) : Prop :=
  within K contract /\ 0 <= K /\ 0 <= P /\ P + K * Z.of_nat (size hs) <= INT_MAX /\
  Z.of_nat (size hs) < 2 ^ 62 /\ newcomers hs.

Section helpers.
Context (K P : Z) (contract : Z -> op -> bool) (hs : gmap tid ledger).
Context (Hsound : sound K P contract hs).

Lemma sound_start : qinv K P (construct P) hs.
Proof. destruct Hsound as (? & ? & ? & ? & ? & ?). by apply qinv_start. Qed.

Lemma sound_inv es m :
  run (qs_step contract) (qs_start P hs) es = Some m ->
  monitor_inv (qinv K P) (allowed contract) (asleep contract) m.
Proof.
  intros Hrun%run_steps. pose proof (queued_monitor_ok K P contract (proj1 Hsound)) as Hok.
  eapply monitor_invariant; [exact Hok|apply sound_start|done].
Qed.

Lemma sound_rest es m :
  run (qs_step contract) (qs_start P hs) es = Some m -> all_rest not_waiting (fun _ => False) m.
Proof.
  intros Hrun%run_steps. destruct Hsound as (Hw & ? & ? & ? & ? & ?).
  eapply (threads_rest K P contract Hw); [|done|done]. apply sound_start.
Qed.

Lemma no_posts es m c :
  run (qs_step contract) (qs_start P hs) es = Some m -> ~ posted (fun _ => false) m c.
Proof.
  intros Hrun (t & th & ns & o & k & Ht & Hpc & Ha).
  pose proof (sound_rest es m Hrun t th Ht) as Hr. unfold rests in Hr. rewrite Hpc in Hr.
  destruct Hr as [_ Hq]. destruct Ha as [Ha|[? _]]; [|done].
  rewrite Forall_forall in Hq. by apply (Hq _ Ha).
Qed.

Lemma sleeper_unmarked es m t th c timed o p :
  run (qs_step contract) (qs_start P hs) es = Some m -> threads m !! t = Some th ->
  at_pc th = Waiting c timed o p -> wakeable_at (queue (shared m)) c = false.
Proof.
  intros Hrun Ht Hpc. pose proof (queued_monitor_ok K P contract (proj1 Hsound)) as Hok.
  pose proof (queued_notify_ok K P contract (proj1 Hsound)) as Hnok.
  destruct (no_lost_wakeup the_code (clients contract) (qinv K P) (allowed contract)
    (asleep contract) unmarked (fun _ => false) (construct P) hs m sound_start
    (run_steps _ _ _ _ Hrun) t th c timed o p Ht Hpc) as [Hm|Hp]; [done|].
  by destruct (no_posts es m c Hrun).
Qed.
End helpers.

(** C8: the books balance and the self-check never fires. In every reachable
    state [permits] is the initial permits less what the threads hold and is
    not negative; and a thread that owns the lock can always run its segment,
    so neither [std::terminate] nor a null dereference is reached. *)
Theorem qs_books K P contract hs es m :
  sound K P contract hs -> run (qs_step contract) (qs_start P hs) es = Some m ->
  permits (shared m) = P - sumz holds (modes m) /\ 0 <= permits (shared m) <= INT_MAX /\
  forall t th o p b, threads m !! t = Some th -> at_pc th = Running o p b ->
    exists picks m', qs_step contract m (Exec t picks) = Some m'.
Proof.
  intros Hs Hrun. destruct (sound_inv K P contract hs Hs es m Hrun) as [(Hbal & _) _].
  split; [apply Hbal|]. split; [by eapply balanced_range|].
  intros t th o p b Ht Hpc. pose proof (queued_monitor_ok K P contract (proj1 Hs)) as Hok.
  eapply exec_defined; [exact Hok|by eapply sound_start|by eapply run_steps|done|].
  by exists o, p, b.
Qed.

(** C9: the queue is the line of waiting threads. In every reachable state
    there is a list of nodes, chained both ways from [head] to [tail], that
    holds exactly the nodes of the threads inside a waiting loop, one each; no
    node but the first is marked to wake; and every thread asleep sleeps on
    its own node, unmarked: a mark is never missed. *)
Theorem qs_queue K P contract hs es m :
  sound K P contract hs -> run (qs_step contract) (qs_start P hs) es = Some m ->
  exists l, holds_list (queue (shared m)) l /\ head_only l /\ NoDup l.*1 /\
    (forall n, n ∈ l.*1 <-> exists t h, modes m !! t = Some h /\ waits_with h = Some n) /\
    forall t th c timed o p, threads m !! t = Some th -> at_pc th = Waiting c timed o p ->
      waits_with (mode th) = Some c /\ (c, false) ∈ l.
Proof.
  intros Hs Hrun. destruct (sound_inv K P contract hs Hs es m Hrun) as [(_ & _ & l & Hq & Htr & Hl) Hpcs].
  exists l. split_and!; [done|done|by eapply holds_list_nodup| |].
  - intros n. rewrite (proj1 Htr n). split.
    + intros (t & _ & h & Ht & Hw). by exists t, h.
    + intros (t & h & Ht & Hw). exists t. split; [done|]. by exists h.
  - intros t th c timed o p Ht Hpc. pose proof (Hpcs _ _ Ht) as Hok. rewrite Hpc in Hok.
    destruct Hok as [[_ Hp] ->]. destruct Hp as [Hw _]. split; [done|].
    pose proof (qinv_sleeper _ _ _ _ _ _ Hq Htr (modes_lookup _ _ _ Ht) Hw) as Hin.
    apply list_elem_of_fmap in Hin as ([c' b] & -> & Hin). cbn [fst] in *.
    assert (b = false) as ->; [|done].
    rewrite <- (holds_list_marks _ _ _ _ Hq Hin). by eapply (sleeper_unmarked K P contract hs Hs).
Qed.

(** C14: the fair acquisitions do not overtake. When a critical section of
    [acquire] or [try_acquire_for] takes permits, either the thread had not
    queued and the queue was empty, or the thread was the head of the queue
    and had been marked. *)
Theorem qs_no_overtaking K P contract hs es m t th o p b picks m' :
  sound K P contract hs -> run (qs_step contract) (qs_start P hs) es = Some m ->
  threads m !! t = Some th -> at_pc th = Running o p b -> queueing o ->
  qs_step contract m (Exec t picks) = Some m' -> permits (shared m') <> permits (shared m) ->
  match p with
  | at_start => head_ (queue (shared m)) = None
  | at_wait n => head_ (queue (shared m)) = Some n /\ wakeable_at (queue (shared m)) n = true
  end.
Proof.
  intros Hs Hrun Ht Hpc Ho Hstep Hne.
  destruct (sound_inv K P contract hs Hs es m Hrun) as [HI Hpcs].
  pose proof (Hpcs _ _ Ht) as Hok. rewrite Hpc in Hok.
  destruct (qinv_marks _ _ _ _ _ _ _ _ _ HI (modes_lookup _ _ _ Ht) Hok) as (l & Hq & Hlen & Hl & _ & Hp).
  simpl in Hstep. rewrite Ht in Hstep. simpl in Hstep. unfold step_exec in Hstep. rewrite Hpc in Hstep.
  destruct (body (the_code) o p b (shared m)) as [[[s ns] ex]|] eqn:Hb; [|done]. simpl in Hstep.
  destruct (deliver_all ns picks (threads m)); simpl in Hstep; [|done]. injection Hstep as <-.
  simpl in Hne. assert (exists tm n, try_acquire0 tm n p b (shared m) = Some (s, ns, ex)) as (tm & n & Hb').
  { destruct Ho as (n & [-> | ->]); [by exists false, n|by exists true, n]. }
  clear Hb. assert (Hwt : forall s0, permits s0 = permits (shared m) ->
    wait_turn tm s0 = Some (s, ns, ex) -> False).
  { intros s0 Hp0 Hw. unfold wait_turn in Hw. apply Hne.
    destruct (enqueue (queue s0)) as [[q x]|]; simpl in Hw; [|done]. by case_match; simplify_eq/=. }
  destruct p as [|x]; simpl in Hb'.
  - unfold try_acquire0_start in Hb'. rewrite (is_empty_holds _ _ Hq) in Hb'.
    rewrite (head_holds _ _ Hq). case_bool_decide as Hnil; [by rewrite Hnil|].
    rewrite andb_false_r in Hb'. exfalso. by eapply Hwt; [|exact Hb'].
  - unfold try_acquire0_wait in Hb'. destruct (wakeable_at (queue (shared m)) x) eqn:Hm.
    + split; [|done]. destruct (Hp x eq_refl) as [_ Hin].
      destruct (head_only_marked _ _ _ Hq Hl Hin Hm) as (l' & ->). apply (head_holds _ _ Hq).
    + exfalso. apply Hne. case_match; [|by simplify_eq/=].
      destruct (remove (queue (shared m)) (Some x)); simpl in Hb'; by simplify_eq/=.
Qed.

(** If the clients only [acquire(r)] and [release], then whenever a thread
    sleeps while the permits cover a request, some thread that has been marked
    is awake on its way to take them. *)
Lemma qs_uniform_progress K P r hs es m t th c timed o p :
  1 <= r <= INT_MAX -> sound K P (uniform K r) hs ->
  run (qs_step (uniform K r)) (qs_start P hs) es = Some m ->
  threads m !! t = Some th -> at_pc th = Waiting c timed o p -> r <= permits (shared m) ->
  exists t' th' o' n b, threads m !! t' = Some th' /\ wakeable_at (queue (shared m)) n = true /\
    (at_pc th' = Wanting o' (at_wait n) b \/ at_pc th' = Running o' (at_wait n) b).
Proof.
  intros Hr Hs Hrun Ht Hpc Hle. pose proof Hs as (_ & HK & HP & Hb & Hsize & Hn).
  pose proof (uniform_monitor_ok K P r Hr) as Hok.
  destruct (monitor_invariant the_code (clients (uniform K r)) (uinv K P r) _ _ (construct P) hs m
    (uinv_start K P r hs HP HK Hb Hsize Hn) (run_steps _ _ _ _ Hrun)) as [[HI (l & Hq & _ & Hserved)] Hpcs].
  pose proof HI as (_ & _ & l0 & Hq0 & Htr & Hl).
  rewrite (holds_list_functional _ _ _ Hq0 Hq) in Htr, Hl. clear l0 Hq0.
  pose proof (Hpcs _ _ Ht) as Hpt. rewrite Hpc in Hpt. destruct Hpt as [[_ Hw] ->].
  destruct Hw as [Hw _].
  pose proof (qinv_sleeper _ _ _ _ _ _ Hq Htr (modes_lookup _ _ _ Ht) Hw) as Hin.
  destruct Hserved as (n & l' & ->); [by intros ->; apply elem_of_nil in Hin|done|].
  destruct (proj1 (proj1 Htr n)) as (t' & _ & h' & Ht' & Hw'); [by left|].
  apply modes_lookup_inv in Ht' as (th' & Ht' & <-).
  assert (Hmark : wakeable_at (queue (shared m)) n = true).
  { eapply holds_list_marks; [done|]. by left. }
  pose proof (sound_rest K P _ hs Hs es m Hrun t' th' Ht') as Hrest.
  pose proof (Hpcs _ _ Ht') as Hok'. unfold rests, not_waiting in Hrest.
  exists t', th'. destruct (at_pc th') as [|o' p' b|o' p' r'|o' p' b|c' tm o' p'|ns o' k] eqn:Hpc';
    try (by (congruence || destruct Hrest; congruence)).
  - destruct Hok' as [_ Hp']. destruct p' as [|n']; destruct Hp' as [Hp' _]; [congruence|].
    rewrite Hw' in Hp'. injection Hp' as <-. exists o', n, b. by split_and!; [| |left].
  - destruct Hok' as [_ Hp']. destruct p' as [|n']; destruct Hp' as [Hp' _]; [congruence|].
    rewrite Hw' in Hp'. injection Hp' as <-. exists o', n, b. by split_and!; [| |right].
  - destruct Hok' as [[_ Hp'] ->]. destruct Hp' as [Hp' _]. rewrite Hw' in Hp'. injection Hp' as <-.
    rewrite (sleeper_unmarked K P _ hs Hs es m t' th' n tm o' (at_wait n)) in Hmark; done.
Qed.

(** A segment ends in a wait with nothing notified, or the method returns. *)
Definition leaving : account shared_state op point ledger := one_segment 0.

Lemma wait_turn_blocks timed s l s' ns ex :
  holds_list (queue s) l -> Z.of_nat (length l) < 2 ^ 62 -> wait_turn timed s = Some (s', ns, ex) ->
  ns = [] /\ exists c p, ex = Wait c timed p.
Proof.
  intros Hq Hlen Hw. destruct (wait_turn_spec timed s l Hq Hlen) as (q' & x & Heq & _).
  rewrite Heq in Hw. injection Hw as <- <- <-. split; [done|]. by do 2 eexists.
Qed.

Lemma try_acquire0_blocks timed n p b s l s' ns ex :
  holds_list (queue s) l -> Z.of_nat (length l) < 2 ^ 62 -> head_only l ->
  (forall x, p = at_wait x -> x ∈ l.*1) -> try_acquire0 timed n p b s = Some (s', ns, ex) ->
  (exists r, ex = Leave [] (Return r)) \/ (ns = [] /\ exists c tm q, ex = Wait c tm q).
Proof.
  intros Hq Hlen Hl Hp Hb.
  assert (Hwt : forall s0 l0, holds_list (queue s0) l0 -> (length l0 <= length l)%nat ->
    wait_turn timed s0 = Some (s', ns, ex) -> ns = [] /\ exists c tm q, ex = Wait c tm q).
  { intros s0 l0 Hq0 Hl0 Hw. destruct (wait_turn_blocks _ _ l0 _ _ _ Hq0 ltac:(lia) Hw) as [? (c & q & ?)].
    split; [done|]. by exists c, timed, q. }
  destruct p as [|x]; simpl in Hb.
  - unfold try_acquire0_start in Hb. case_match; [left; simplify_eq; by eexists|right].
    by eapply (Hwt _ l); [| |exact Hb].
  - unfold try_acquire0_wait in Hb. destruct (wakeable_at (queue s) x) eqn:Hm.
    + destruct (head_only_marked _ _ _ Hq Hl (Hp x eq_refl) Hm) as (l' & ->).
      destruct (dequeue_holds _ _ _ _ Hq) as (q' & Hd & Hq'). rewrite Hd in Hb. simpl in Hb.
      case_match; [left|right; eapply (Hwt _ l'); [| |exact Hb]; [done|simpl; lia]].
      unfold take_permits in Hb. destruct (wake_if_enough _) as [[s1 ns1]|]; simpl in Hb; [|done].
      case_match; simplify_eq. by eexists.
    + case_match; [|right; simplify_eq; split; [done|by do 3 eexists]].
      destruct (remove _ _); simpl in Hb; simplify_eq. left. by eexists.
Qed.

#[export] Instance qs_leaves_once K P contract : LeavesOnce the_code (qinv K P) (allowed contract) 0.
Proof.
  intros t h s hs o p b s' ns ex HI Ht Hal Hb.
  destruct (qinv_marks _ _ _ _ _ _ _ _ _ HI Ht Hal) as (l & Hq & Hlen & Hl & _ & Hp).
  assert (Hac : forall tm n, try_acquire0 tm n p b s = Some (s', ns, ex) ->
    match ex with Wait _ _ _ => ns = [] | Leave ns' (Return _) => (length ns' <= 0)%nat | _ => False end).
  { intros tm n Htr. destruct (try_acquire0_blocks tm n p b s l s' ns ex) as [(r & ->)|[-> (c & tm' & q & ->)]];
      try done; try lia. intros x ->. by apply Hp. }
  destruct o as [n|n|n|n| |]; simpl in Hb; try done; try by eapply Hac.
  - unfold release_body in Hb. destruct (wake_if_enough _) as [[s1 ns1]|]; simpl in Hb; by simplify_eq.
  - unfold try_acquire_body in Hb. destruct (n <=? _); by simplify_eq.
Qed.

(** C22: the semaphore comes to rest. From any reachable state, a schedule
    without further calls, timeouts and spurious wake-ups is never longer than
    [work]; and where it stops, a thread can still move, or every thread has
    returned or sleeps on a node that is not marked. If moreover the clients
    only [acquire(r)] and [release], nobody then sleeps while the permits
    cover a request: with equal requests nobody is stranded. *)
Theorem qs_settles K P contract hs es m es' m' :
  sound K P contract hs -> run (qs_step contract) (qs_start P hs) es = Some m ->
  Forall (fun e => internal leaving e = true) es' -> run (qs_step contract) m es' = Some m' ->
  Z.of_nat (length es') <= work leaving m /\
  ((exists e m'', internal leaving e = true /\ qs_step contract m' e = Some m'') \/
   forall t th, threads m' !! t = Some th ->
     match at_pc th with
     | Idle _ => True
     | Waiting c _ _ _ =>
         wakeable_at (queue (shared m')) c = false /\
         forall r, 1 <= r <= INT_MAX -> contract = uniform K r -> permits (shared m') < r
     | _ => False
     end).
Proof.
  intros Hs Hrun Hint Hrun'. pose proof (queued_monitor_ok K P contract (proj1 Hs)) as Hok.
  pose proof (qs_leaves_once K P contract) as Honce.
  pose proof (once_orderly _ _ _ _ _ 0 _ hs es m (sound_start K P contract hs Hs) Hrun) as Hord.
  destruct (once_settled _ _ _ _ _ 0 m es' m' Hord Hint Hrun') as [Hl [Hq|Hmore]];
    (split; [done|]); [right|by left]. intros t th Ht.
  assert (Hall : run (qs_step contract) (qs_start P hs) (es ++ es') = Some m') by (by rewrite run_app, Hrun).
  pose proof (quiescent_still _ _ _ Hq Ht) as Hstill.
  destruct (at_pc th) as [v| | | |c tm o p|] eqn:Hpc; try done.
  split; [by eapply (sleeper_unmarked K P contract hs Hs)|].
  intros r Hr ->. destruct (Z.lt_ge_cases (permits (shared m')) r) as [|Hge]; [done|].
  destruct (qs_uniform_progress K P r hs (es ++ es') m' t th c tm o p Hr Hs Hall Ht Hpc Hge)
    as (t' & th' & o' & n & b & Ht' & _ & Hpc').
  pose proof (quiescent_still _ _ _ Hq Ht') as Hst. by destruct Hpc' as [Hpc'|Hpc']; rewrite Hpc' in Hst.
Qed.

(** ** Executions that go wrong *)

Definition three : gmap tid ledger :=
  {[ 0%nat := mkLedger 0 None; 1%nat := mkLedger 0 None; 2%nat := mkLedger 0 None ]}.

(** Thread 0 has the only permit; 1 waits for five, then 2 waits for one. *)
Definition line_up : list (event op) :=
  [Invoke 0%nat (acquire 1); Acquire 0%nat; Exec 0%nat []; Finish 0%nat;
   Invoke 1%nat (acquire 5); Acquire 1%nat; Exec 1%nat [];
   Invoke 2%nat (acquire 1); Acquire 2%nat; Exec 2%nat []].

Definition give_back : list (event op) :=
  [Invoke 0%nat (release 1); Acquire 0%nat; Exec 0%nat []; Finish 0%nat].

(** Two executions strand a waiter whose request is covered, with no
    thread left to wake it. First, mixed requests: the permit that is given
    back wakes the head, which needs five; it queues again behind thread 2 and
    passes no signal on. Second, a timeout: thread 1 waits with a deadline for
    three of two permits and thread 2, which needs two, queues behind it;
    thread 1 times out and leaves without waking thread 2, and its own request
    of three stays in [request_record]. *)
Theorem qs_strands :
  (exists m, run (qs_step (lawful 0)) (qs_start 1 three)
      (line_up ++ give_back ++ [Acquire 1%nat; Exec 1%nat []]) = Some m /\
    permits (shared m) = 1 /\ head_ (queue (shared m)) = Some 254%nat /\
    at_pc <$> threads m !! 2%nat = Some (Waiting 254%nat false (acquire 1) (at_wait 254%nat)) /\
    quiescent m = true) /\
  (exists m, run (qs_step (lawful 0)) (qs_start 2 three)
      [Invoke 1%nat (try_acquire_for 3); Acquire 1%nat; Exec 1%nat [];
       Invoke 2%nat (acquire 2); Acquire 2%nat; Exec 2%nat [];
       Timeout 1%nat; Acquire 1%nat; Exec 1%nat []; Finish 1%nat] = Some m /\
    permits (shared m) = 2 /\ head_ (queue (shared m)) = Some 254%nat /\
    at_pc <$> threads m !! 2%nat = Some (Waiting 254%nat false (acquire 2) (at_wait 254%nat)) /\
    request_record (shared m) !! 3 = Some 1%nat /\ quiescent m = true).
Proof. split; evaluates. Qed.

(** [try_acquire] succeeds on a semaphore constructed with a negative
    number of permits: the comparison is made on [unsigned int]. *)
Theorem qs_try_acquire_negative :
  exists m, run (qs_step (lawful 0)) (qs_start (-1) three)
      [Invoke 0%nat (try_acquire 1); Acquire 0%nat; Exec 0%nat []; Finish 0%nat] = Some m /\
    permits (shared m) = -2 /\ at_pc <$> threads m !! 0%nat = Some (Idle (Some (Bool true))).
Proof. evaluates. Qed.

(** ** Concrete interleavings *)

Lemma three_sound contract K P :
  within K contract -> 0 <= K -> 0 <= P -> P + K * 3 <= INT_MAX -> sound K P contract three.
Proof.
  intros Hw HK HP Hb. assert (size three = 3%nat) as Hs by (vm_compute; reflexivity).
  unfold sound. rewrite Hs. split_and!; [done|done|done|done|lia|].
  unfold newcomers. apply (bool_decide_eq_true_1 _). by vm_compute.
Qed.

Lemma lawful_sound : sound 0 1 (lawful 0) three.
Proof. apply three_sound; [by intros h o|lia|lia|by vm_compute]. Qed.

Theorem qs_books_witness :
  exists m, run (qs_step (lawful 0)) (qs_start 1 three) line_up = Some m /\
    permits (shared m) = 0 /\ permits (shared m) = 1 - sumz holds (modes m).
Proof.
  reach (run (qs_step (lawful 0)) (qs_start 1 three) line_up)
    with (fun m : qs_state => permits (shared m) = 0) as m Hrun Hm.
  exists m. split; [exact Hrun|]. split; [exact Hm|].
  apply (qs_books 0 1 (lawful 0) three line_up m lawful_sound Hrun).
Defined.

Theorem qs_queue_witness :
  exists m l, run (qs_step (lawful 0)) (qs_start 1 three) line_up = Some m /\
    head_ (queue (shared m)) = Some 255%nat /\ holds_list (queue (shared m)) l /\ head_only l.
Proof.
  reach (run (qs_step (lawful 0)) (qs_start 1 three) line_up)
    with (fun m : qs_state => head_ (queue (shared m)) = Some 255%nat) as m Hrun Hm.
  destruct (qs_queue 0 1 (lawful 0) three line_up m lawful_sound Hrun) as (l & Hq & Hl & _).
  exists m, l. split_and!; [exact Hrun|exact Hm|exact Hq|exact Hl].
Defined.

(** Two unit requests; the first is marked by the release. *)
Definition hand_over : list (event op) :=
  [Invoke 0%nat (acquire 1); Acquire 0%nat; Exec 0%nat []; Finish 0%nat;
   Invoke 1%nat (acquire 1); Acquire 1%nat; Exec 1%nat [];
   Invoke 2%nat (acquire 1); Acquire 2%nat; Exec 2%nat []] ++ give_back ++ [Acquire 1%nat].

(** Thread 1 owns the lock with one permit left, which its segment takes. *)
Definition about_to_take contract (m : qs_state) : Prop :=
  at_pc <$> threads m !! 1%nat = Some (Running (acquire 1) (at_wait 255%nat) false) /\
  at_pc <$> threads m !! 2%nat = Some (Waiting 254%nat false (acquire 1) (at_wait 254%nat)) /\
  permits (shared m) = 1 /\
  (fun m' => permits (shared m')) <$> qs_step contract m (Exec 1%nat []) = Some 0.

#[export] Instance about_to_take_dec contract m : Decision (about_to_take contract m).
Proof. unfold about_to_take. apply _. Defined.

Theorem qs_no_overtaking_witness :
  exists m, run (qs_step (lawful 0)) (qs_start 1 three) hand_over = Some m /\
    about_to_take (lawful 0) m /\
    head_ (queue (shared m)) = Some 255%nat /\ wakeable_at (queue (shared m)) 255%nat = true.
Proof.
  reach (run (qs_step (lawful 0)) (qs_start 1 three) hand_over)
    with (about_to_take (lawful 0)) as m Hrun Hm.
  exists m. split; [exact Hrun|]. split; [exact Hm|]. destruct Hm as (Hpc & _ & Hp & Hnext).
  apply fmap_Some in Hpc as (th & Ht & Hpc). apply fmap_Some in Hnext as (m' & Hstep & Hp').
  apply (qs_no_overtaking 0 1 (lawful 0) three hand_over m 1%nat th (acquire 1) (at_wait 255%nat) false [] m');
    [exact lawful_sound|exact Hrun|exact Ht|by symmetry|by exists 1; left|exact Hstep|lia].
Defined.

Lemma uniform_sound : sound 0 1 (uniform 0 1) three.
Proof. apply three_sound; [by apply uniform_within|lia|lia|by vm_compute]. Qed.

(** Thread 1 takes the permit; thread 2 sleeps on. *)
Theorem qs_settles_witness :
  exists m m', run (qs_step (uniform 0 1)) (qs_start 1 three) hand_over = Some m /\
    run (qs_step (uniform 0 1)) m [Exec 1%nat []; Finish 1%nat] = Some m' /\
    work leaving m = 21 /\ permits (shared m') = 0 /\
    ((exists e m'', internal leaving e = true /\ qs_step (uniform 0 1) m' e = Some m'') \/
     forall t th, threads m' !! t = Some th ->
       match at_pc th with
       | Idle _ => True
       | Waiting c _ _ _ =>
           wakeable_at (queue (shared m')) c = false /\
           forall r, 1 <= r <= INT_MAX -> uniform 0 1 = uniform 0 r -> permits (shared m') < r
       | _ => False
       end).
Proof.
  reach (run (qs_step (uniform 0 1)) (qs_start 1 three) hand_over)
    with (fun m : qs_state => work leaving m = 21 /\
      (fun m' : qs_state => permits (shared m')) <$>
        run (qs_step (uniform 0 1)) m [Exec 1%nat []; Finish 1%nat] = Some 0) as m Hrun Hm.
  destruct Hm as [Hm Hnext]. apply fmap_Some in Hnext as (m' & Hrun' & Hm').
  exists m, m'. split_and!; [exact Hrun|exact Hrun'|exact Hm|by symmetry|].
  assert (Hint : Forall (fun e : event op => internal leaving e = true) [Exec 1%nat []; Finish 1%nat])
    by (repeat constructor).
  destruct (qs_settles 0 1 (uniform 0 1) three hand_over m _ m' uniform_sound Hrun Hint Hrun') as [_ Hend].
  exact Hend.
Defined.
