(* ===== verification/QueuedSemaphoreFair.v ===== *)
(** * QueuedSemaphore is fair

    Clients take [r] permits and give them back before they take others.  In a
    fair infinite execution everybody who calls [acquire] is served: while the
    permits do not suffice somebody holds some and gives them back, which marks
    the head of the queue; a marked head finds the permits and leaves; and
    everybody behind it moves up, for who comes later queues behind. *)

From S2P Require Import Prelude Machine Fairness Monitor MonitorTheory MonitorFair.
From S2P Require Import Semaphore DList WaitQueue WaitQueueProofs QueuedSemaphore.
From S2P Require Import QueuedSemaphoreProofs QueuedSemaphoreUniform QueuedSemaphoreProps.

Import Sem QueuedSemaphore.
Local Open Scope Z_scope.

(** Clients that hold at most one request of [r]. *)
Definition turns (r h : Z) (o : op) : bool :=
  match o with
  | acquire n => bool_decide (n = r /\ h = 0)
  | release n => bool_decide (n = h /\ 0 < h)
  | _ => false
  end.

(** Who holds permits calls again: by the contract, [release]. *)
Definition holders_call (_ : qs_state) (_ : tid) (h : ledger) : bool := 0 <? holds h.

Section fair.
Context (P r : Z) (Hr : 1 <= r <= INT_MAX).
Implicit Types (s : shared_state) (l : list (loc * bool)) (x y : loc) (h : ledger).

Lemma turns_uniform z o : turns r z o = true -> uniform 0 r z o = true.
Proof.
  destruct o; simpl; try done; intros [? ?]%bool_decide_eq_true; apply bool_decide_eq_true; [done|lia].
Qed.

Lemma turns_within : within 0 (turns r).
Proof. intros z o Ho. apply (uniform_within 0 r ltac:(lia)), turns_uniform, Ho. Qed.

(** ** One critical section *)

(** A marked head will find its permits. *)
Definition trusted s l : Prop := match l with (_, true) :: _ => r <= permits s | _ => True end.
Definition marked l : Prop := match l with (_, true) :: _ => True | _ => False end.

(** What a critical section does to the line [l]. *)
Inductive turn (o : op) (p : point) l l' (ex : exit point loc ret) : Prop :=
| turn_now : o = acquire r -> p = at_start -> l = [] -> l' = [] -> ex = Leave [] (Return Void) -> turn o p l l' ex
| turn_queue x : o = acquire r -> p = at_start -> l' = l ++ [(x, false)] -> ex = Wait x false (at_wait x) -> turn o p l l' ex
| turn_take x l0 : o = acquire r -> p = at_wait x -> l = (x, true) :: l0 -> l'.*1 = l0.*1 ->
    ex = Leave [] (Return Void) -> turn o p l l' ex
| turn_sleep x : o = acquire r -> p = at_wait x -> (x, false) ∈ l -> l' = l -> ex = Wait x false (at_wait x) -> turn o p l l' ex
| turn_back : o = release r -> l'.*1 = l.*1 -> (l' <> [] -> marked l') -> ex = Leave [] (Return Void) -> turn o p l l' ex.

Lemma wait_turn_queues s l s' ns ex :
  holds_list (queue s) l -> Z.of_nat (length l) < 2 ^ 62 -> wait_turn false s = Some (s', ns, ex) ->
  exists x, holds_list (queue s') (l ++ [(x, false)]) /\ permits s' = permits s /\ ex = Wait x false (at_wait x).
Proof.
  intros Hq Hlen Hw. destruct (wait_turn_spec false s l Hq Hlen) as (q' & x & Heq & Hx & Hq').
  rewrite Heq in Hw. injection Hw as <- <- <-. by exists x.
Qed.

Lemma trusted_snoc s s' l x : trusted s l -> permits s' = permits s -> trusted s' (l ++ [(x, false)]).
Proof. unfold trusted. intros Hl ->. by destruct l as [|[? []] ?]. Qed.

Lemma acquire_turn s l s' ns ex p b :
  holds_list (queue s) l -> Z.of_nat (length l) < 2 ^ 62 -> head_only l -> trusted s l ->
  (forall x, p = at_wait x -> x ∈ l.*1) -> (exists k, request_record s = tally r k /\ k = length l) -> 
  try_acquire0 false r p b s = Some (s', ns, ex) ->
  exists l', holds_list (queue s') l' /\ trusted s' l' /\ turn (acquire r) p l l' ex.
Proof.
  intros Hq Hlen Hl Htr Hp (k & Hrr & ->) Hb. destruct p as [|x]; simpl in Hb.
  - unfold try_acquire0_start in Hb. rewrite (int_small r), (is_empty_holds _ _ Hq) in Hb by (unfold INT_MIN; lia).
    destruct ((r <=? permits s) && bool_decide (l = [])) eqn:Hnow.
    + apply andb_prop in Hnow as [_ Hnil%bool_decide_eq_true]. injection Hb as <- _ <-. subst l.
      exists []. split; [done|]. split; [done|]. by apply turn_now.
    + eapply wait_turn_queues in Hb as (x & Hq' & Hperm & ->); [|simpl; exact Hq|done].
      exists (l ++ [(x, false)]). split; [done|]. split; [by eapply trusted_snoc|]. by eapply turn_queue.
  - specialize (Hp x eq_refl). unfold try_acquire0_wait in Hb. destruct (wakeable_at (queue s) x) eqn:Hm.
    + destruct (head_only_marked _ _ _ Hq Hl Hp Hm) as (l0 & ->). simpl in Hlen, Htr. cbn [length] in Hrr.
      destruct (dequeue_holds _ _ _ _ Hq) as (q' & Hd & Hq'). rewrite Hd in Hb. simpl in Hb.
      rewrite (int_small r) in Hb by (unfold INT_MIN; lia). destruct (Z.leb_spec r (permits s)); [|lia].
      unfold take_permits in Hb. simpl in Hb.
      set (s1 := mkShared (int_of (permits s - r)) q' (request_record_remove r (request_record s))) in Hb.
      destruct (wake_if_enough_spec s1 l0 Hq') as (q2 & Hw & Hq2). rewrite Hw in Hb. simpl in Hb.
      destruct (int_of (permits s - r) <? 0); [done|]. injection Hb as <- _ <-. exists (signalled s1 l0). split; [done|].
      split; [|by eapply turn_take; [..|apply signalled_fst|done]].
      assert (forall n, (n, true) ∉ l0) as Hun.
      { intros n Hn. unfold head_only in Hl. simpl in Hl. rewrite Forall_forall in Hl. by specialize (Hl _ Hn). }
      unfold trusted, signalled, enough, s1. simpl. rewrite Hrr, remove_tally, min_tally by done.
      destruct l0 as [|[n []] l0]; simpl; [by destruct (0 <=? _)|by destruct (Hun n); left|].
      destruct (Z.leb_spec r (int_of (permits s - r))); simpl; done.
    + simpl in Hb. injection Hb as <- _ <-. exists l. split; [done|]. split; [done|].
      apply (turn_sleep _ _ _ _ _ x); try done. apply list_elem_of_fmap in Hp as ([n m] & -> & Hn).
      cbn [fst] in *. rewrite (holds_list_marks _ _ _ _ Hq Hn) in Hm. by subst m.
Qed.

(** ** One event *)

Abbreviation qmachine := qs_state.
Abbreviation qstep := (qs_step (turns r)).
Implicit Types (m : qmachine) (t u : tid) (e : event op).

(** The books are in order, [l] is the line, a marked head finds its permits,
    and nobody holds more than one request. *)
Record good m l : Prop := {
  gd_inv : monitor_inv (uinv 0 P r) (allowed (turns r)) (asleep (turns r)) m;
  gd_line : holds_list (queue (shared m)) l;
  gd_trust : trusted (shared m) l;
  gd_holds : forall t h, modes m !! t = Some h -> holds h = 0 \/ holds h = r;
}.

Definition waits m t x : Prop := exists h, modes m !! t = Some h /\ waits_with h = Some x.
Definition has m t : Prop := exists h, modes m !! t = Some h /\ holds h = r.

Lemma inv_keeps m e m' :
  monitor_inv (uinv 0 P r) (allowed (turns r)) (asleep (turns r)) m -> qstep m e = Some m' ->
  monitor_inv (uinv 0 P r) (allowed (turns r)) (asleep (turns r)) m'.
Proof.
  intros Hinv Hstep. pose proof (exact_monitor_ok 0 P r Hr (turns r) turns_uniform) as Hok.
  exact (monitor_inv_step _ _ _ _ _ _ _ _ Hinv Hstep).
Qed.

(** What the contract says of a thread in a critical section. *)
Lemma in_turn m l t th o p b :
  good m l -> threads m !! t = Some th -> at_pc th = Running o p b ->
  (o = acquire r /\ holds (mode th) = 0 /\
     match p with at_start => waits_with (mode th) = None | at_wait x => waits_with (mode th) = Some x end) \/
  (o = release r /\ holds (mode th) = r /\ p = at_start /\ waits_with (mode th) = None).
Proof.
  intros [[_ Hpcs] _ _ Hh] Ht Hpc. pose proof (Hpcs _ _ Ht) as Hok. rewrite Hpc in Hok. destruct Hok as [Hc Hp].
  destruct o as [n|n| | | |]; simpl in Hc; try done; apply bool_decide_eq_true in Hc as [Hn Hz].
  - left. subst n. split; [done|]. split; [done|]. by destruct p, Hp.
  - right. destruct (Hh t (mode th) (modes_lookup _ _ _ Ht)) as [|Hm]; [lia|]. rewrite Hm in Hn. subst n.
    split; [done|]. split; [done|]. by destruct p, Hp.
Qed.

Lemma good_exec m l t th o p b picks m' :
  good m l -> threads m !! t = Some th -> at_pc th = Running o p b -> qstep m (Exec t picks) = Some m' ->
  exists l' ex, good m' l' /\ turn o p l l' ex /\ modes m' = <[t := settle o p ex (mode th)]> (modes m).
Proof.
  intros Hg Ht Hpc Hstep. pose proof (in_turn m l t th o p b Hg Ht Hpc) as Hturn.
  pose proof (inv_keeps _ _ _ (gd_inv _ _ Hg) Hstep) as Hinv'. pose proof (modes_lookup _ _ _ Ht) as Hm.
  destruct Hg as [[[HI Hx] Hpcs] Hq Htr Hh]. pose proof (Hpcs _ _ Ht) as Hal. rewrite Hpc in Hal.
  destruct (qinv_marks _ _ _ _ _ _ _ _ _ HI Hm Hal) as (l1 & Hq1 & Hlen & Hl & _ & Hp).
  rewrite (holds_list_functional _ _ _ Hq1 Hq) in Hlen, Hl, Hp. clear l1 Hq1.
  simpl in Hstep. rewrite Ht in Hstep. simpl in Hstep. unfold step_exec in Hstep. rewrite Hpc in Hstep.
  destruct (body the_code o p b (shared m)) as [[[s ns] ex]|] eqn:Hb; simpl in Hstep; [|done].
  destruct (deliver_all ns picks (threads m)) as [ths|] eqn:Hd; simpl in Hstep; [|done]. injection Hstep as <-.
  assert (Hm' : forall ow, modes (mkState s ow
    (<[t := mkThread (settle o p ex (mode th)) (exit_pc o ex)]> ths)) = <[t := settle o p ex (mode th)]> (modes m)).
  { intros ow. unfold modes. simpl. rewrite fmap_insert. simpl. by rewrite (deliver_all_modes _ _ _ _ Hd). }
  assert (exists l', holds_list (queue s) l' /\ trusted s l' /\ turn o p l l' ex) as (l' & Hq' & Htr' & Htn).
  { destruct Hturn as [(-> & Hz & _)|(-> & Hz & -> & Hw)].
    - destruct Hx as (l1 & Hq1 & Hrr & _). rewrite (holds_list_functional _ _ _ Hq1 Hq) in Hrr. simpl in Hb.
      eapply acquire_turn; [exact Hq|exact Hlen|exact Hl|exact Htr| |by eexists|exact Hb].
      intros x Hpx. by apply Hp.
    - simpl in Hb. unfold release_body in Hb.
      destruct (wake_if_enough_spec (mkShared (int_of (permits (shared m) + r)) (queue (shared m)) (request_record (shared m)))
        l Hq) as (q' & Hw' & Hq'). rewrite Hw' in Hb. simpl in Hb. injection Hb as <- _ <-.
      destruct Hinv' as [[((Hbal' & _) & _) (l1 & Hq1 & _ & Hserved)] _]. simpl in Hq1, Hserved, Hbal'.
      rewrite (holds_list_functional _ _ _ Hq1 Hq') in Hserved. rewrite Hm' in Hbal'.
      destruct HI as ((Hbal & Hpos & _) & _). rewrite (sumz_insert _ _ _ _ _ Hm) in Hbal'. simpl in Hbal'.
      assert (r <= int_of (permits (shared m) + r)) as Hle by lia.
      eexists. split; [exact Hq'|]. assert (forall l1, served r (int_of (permits (shared m) + r)) l1 -> l1 <> [] -> marked l1) as Hmk.
      { intros l2 Hs Hne. destruct (Hs Hne Hle) as (n & l3 & ->). done. }
      split; [|apply turn_back; [done|apply signalled_fst|by apply Hmk|done]].
      unfold trusted. simpl. repeat case_match; done. }
  exists l', ex. split; [|split; [done|apply Hm']]. split; [done|done|done|].
  intros u h. rewrite Hm'. intros [[<- <-]|[_ Hu]]%lookup_insert_Some; [|by eapply Hh].
  destruct Hturn as [(-> & Hz & _)|(-> & Hz & _)]; destruct Htn; simplify_eq/=; rewrite ?Hz; lia.
Qed.

(** The other events touch neither the semaphore nor the ledgers. *)
Lemma good_same m l e m' :
  good m l -> qstep m e = Some m' -> (forall t picks, e <> Exec t picks) -> good m' l /\ modes m' = modes m.
Proof.
  intros Hg Hstep Hne. pose proof (inv_keeps _ _ _ (gd_inv _ _ Hg) Hstep) as Hinv'.
  assert (modes m' = modes m) as Hm.
  { destruct (step_modes _ _ _ _ _ Hstep) as [|t picks]; [done|]. by destruct (Hne t picks). }
  assert (shared m' = shared m) as Hs.
  { apply step_fires in Hstep. destruct Hstep as [t th last o s en Ht Hpc Hmay Hen| |t th o p b picks| |t th o p s Ht Hpc Hs|];
      simpl in *; try done.
    - destruct o; simpl in Hen; by simplify_eq.
    - by destruct (Hne t picks).
    - by injection Hs as ->. }
  split; [|done]. destruct Hg as [_ Hq Htr Hh]. split; [done|by rewrite Hs|by rewrite Hs|by rewrite Hm].
Qed.

Lemma waits_other m m' t u h x :
  modes m' = <[u := h]> (modes m) -> t <> u -> waits m t x -> waits m' t x.
Proof. intros Hm Hne (ht & Ht & Hw). exists ht. by rewrite Hm, lookup_insert_ne. Qed.

(** What an event does to the line: nothing, a thread more at its end, or the
    marked head leaves with its permits. *)
Lemma line_moves m l e m' :
  good m l -> qstep m e = Some m' -> exists l', good m' l' /\
    ((l.*1 `prefix_of` l'.*1 /\ (marked l -> marked l') /\ (forall t x, waits m t x -> waits m' t x)) \/
     (exists x l0, l = (x, true) :: l0 /\ l'.*1 = l0.*1 /\ waits m (actor e) x /\ has m' (actor e) /\
        forall t y, t <> actor e -> waits m t y -> waits m' t y)).
Proof.
  intros Hg Hstep.
  assert ((exists t picks, e = Exec t picks) \/ forall t picks, e <> Exec t picks) as [(t & picks & ->)|Hne].
  { destruct e; try (right; intros; discriminate). left. by do 2 eexists. }
  2:{ destruct (good_same m l e m' Hg Hstep Hne) as [Hg' Hm]. exists l. split; [done|]. left. split; [done|]. split; [done|].
      intros t x (h & Ht & Hw). exists h. by rewrite Hm. }
  pose proof Hstep as Hs. simpl in Hs. destruct (threads m !! t) as [th|] eqn:Ht; simpl in Hs; [|done].
  unfold step_exec in Hs. destruct (at_pc th) as [| | |o p b| |] eqn:Hpc; try done. clear Hs.
  destruct (good_exec m l t th o p b picks m' Hg Ht Hpc Hstep) as (l' & ex & Hg' & Htn & Hm). exists l'. split; [done|].
  pose proof (modes_lookup _ _ _ Ht) as Hmt. pose proof (in_turn m l t th o p b Hg Ht Hpc) as Hin.
  assert (Hidle : waits_with (mode th) = None -> forall u x, waits m u x -> waits m' u x).
  { intros Hw u x Hu. eapply waits_other; [exact Hm| |done]. intros ->. destruct Hu as (h & Hu & Hw').
    rewrite Hmt in Hu. congruence. }
  destruct Htn as [-> -> -> -> ->| x -> -> -> ->| x l0 -> -> -> Hl' ->| x -> -> Hx -> ->| -> Hl' Hmk ->];
    destruct Hin as [(? & Hz & Hw)|(? & Hz & ? & Hw)]; try done; simpl actor.
  - left. split; [done|]. split; [done|]. by apply Hidle.
  - left. rewrite fmap_app. split; [by apply prefix_app_r|]. split; [by destruct l as [|[? []] ?]|by apply Hidle].
  - right. exists x, l0. split_and!; [done|done|by exists (mode th)| |intros u y Hne; by eapply waits_other].
    exists (mkLedger (balance (acquire r) Void (holds (mode th))) None). rewrite Hm, lookup_insert_eq. split; [done|].
    simpl. lia.
  - left. split; [done|]. split; [done|]. intros u y Hu. destruct (decide (u = t)) as [->|]; [|by eapply waits_other].
    destruct Hu as (h & Hu & Hwu). rewrite Hmt in Hu. injection Hu as <-.
    eexists. rewrite Hm, lookup_insert_eq. split; [done|]. simpl. congruence.
  - left. rewrite Hl'. split; [done|]. split; [|by apply Hidle]. intros Hmark. apply Hmk. intros ->.
    by destruct l.
Qed.

(** A thread in line waits alone with its node. *)
Lemma waits_unique m l t u x : good m l -> waits m t x -> waits m u x -> t = u.
Proof.
  intros [[[(_ & _ & l0 & _ & [_ Hu] & _) _] _] _ _ _] Ht Hx. by apply (Hu t u x).
Qed.

Lemma waiter_of m l x : good m l -> x ∈ l.*1 -> exists u, waits m u x.
Proof.
  intros [[[(_ & _ & l0 & Hq0 & [Hn _] & _) _] _] Hq _ _] Hx.
  rewrite (holds_list_functional _ _ _ Hq0 Hq) in Hn. apply Hn in Hx as (u & _ & Hu). by exists u.
Qed.

Lemma good_nodup m l : good m l -> NoDup l.*1.
Proof. intros Hg. by eapply holds_list_nodup, Hg. Qed.

Lemma head_name l x l0 l' : l = (x, true) :: l0 -> l.*1 `prefix_of` l'.*1 -> marked l' -> exists l1, l' = (x, true) :: l1.
Proof.
  intros -> [k Hk] Hm. destruct l' as [|[y []] l1]; try done. simpl in Hk. injection Hk as -> _. by exists l1.
Qed.

(** While the head is not marked, the permits do not suffice: somebody has some. *)
Lemma holder_exists m l : r <= P -> good m l -> l <> [] -> ~ marked l -> exists v h, modes m !! v = Some h /\ holds h = r.
Proof.
  intros HP [[[((Hbal & _) & _) (l1 & Hq1 & _ & Hs)] _] Hq _ Hh] Hne Hm.
  rewrite (holds_list_functional _ _ _ Hq1 Hq) in Hs. simpl in Hs.
  destruct (Z.le_gt_cases r (permits (shared m))) as [Hle|Hlt].
  { destruct (Hs Hne Hle) as (y & l0 & ->). by destruct Hm. }
  destruct (sumz_pos_inv holds (modes m)) as (v & h & Hv & Hpos); [lia|].
  exists v, h. split; [done|]. destruct (Hh v h Hv); lia.
Qed.

(** A holder is in no wait, and due. *)
Lemma holder_due m l v th : good m l -> threads m !! v = Some th -> holds (mode th) = r -> due holders_call m v = true.
Proof.
  intros [[_ Hpcs] _ _ _] Hv Hr'. unfold due. rewrite Hv. pose proof (Hpcs _ _ Hv) as Hok.
  destruct (at_pc th) as [| | | |c tm o p|]; try done.
  - unfold holders_call. destruct (Z.ltb_spec 0 (holds (mode th))); [done|lia].
  - simpl in Hok. destruct Hok as [[Hc Hp] ->]. destruct Hp as [_ Ho]. destruct o; simpl in Hc; try done.
    apply bool_decide_eq_true in Hc. lia.
Qed.

(** An own event of a holder: it has given back, or is nearer to it. *)
Lemma holder_step m l v th e m' :
  good m l -> threads m !! v = Some th -> holds (mode th) = r -> actor e = v -> qstep m e = Some m' ->
  (exists l', good m' l' /\ (l' <> [] -> marked l')) \/
  exists th', threads m' !! v = Some th' /\ holds (mode th') = r /\ (way_out (at_pc th') < way_out (at_pc th))%nat.
Proof.
  intros Hg Hv Hh Ha Hstep.
  assert ((exists picks, e = Exec v picks) \/ forall picks, e <> Exec v picks) as [[picks ->]|Hne].
  { destruct e; try (right; intros; discriminate). simpl in Ha. subst. left. by eexists. }
  - left. pose proof Hstep as Hs. simpl in Hs. rewrite Hv in Hs. simpl in Hs. unfold step_exec in Hs.
    destruct (at_pc th) as [| | |o p b| |] eqn:Hpc; try done. clear Hs.
    destruct (good_exec m l v th o p b picks m' Hg Hv Hpc Hstep) as (l' & ex & Hg' & Htn & _). exists l'. split; [done|].
    destruct (in_turn m l v th o p b Hg Hv Hpc) as [(_ & ? & _)|(-> & _ & -> & _)]; [lia|]. by destruct Htn.
  - right. pose proof (holder_due m l v th Hg Hv Hh) as Hdue.
    destruct (own_moves the_code (clients (turns r)) m e m' v th Hstep Hv) as (th' & Hv' & Hm' & Hlt); try done.
    + eapply due_awake; [exact Hv|exact Hdue].
    + intros o s en Hmay He. simpl in Hmay, He. destruct o; simpl in Hmay, He; simplify_eq; by eexists.
    + exists th'. split; [done|]. split; [by rewrite Hm'|done].
Qed.

(** ** Fair executions *)

Section execution.
Context (hs : gmap tid ledger) (σ : nat -> qmachine) (ev : nat -> option (event op)).
Context (HP : r <= P) (Hsound : sound 0 P (turns r) hs).
Context (Hex : execution qstep (qs_start P hs) σ ev) (Hfair : fair holders_call σ ev).
Implicit Types (i j k n : nat).

Lemma run_to k : exists es, run qstep (qs_start P hs) es = Some (σ k).
Proof. apply steps_run. by apply (execution_steps _ _ _ ev). Qed.

Lemma good_at k : exists l, good (σ k) l.
Proof.
  apply (always qstep (qs_start P hs) σ ev (fun m => exists l, good m l) k Hex).
  - pose proof (exact_monitor_ok 0 P r Hr (turns r) turns_uniform) as Hok. destruct Hsound as (_ & HK & HP' & Hb & Hs & Hn).
    exists []. split; simpl; [|apply new_queue_holds_nil|done|].
    + by apply (monitor_invariant the_code (clients (turns r)) (uinv 0 P r) _ _ (construct P) hs _
        (uinv_start 0 P r hs HP' HK Hb Hs Hn)), steps_refl.
    + rewrite modes_start. intros t h Ht. left. by rewrite (Hn t h Ht).
  - intros m e m' (l & Hg) Hstep. destruct (line_moves m l e m' Hg Hstep) as (l' & Hg' & _). by exists l'.
Qed.

(** Who waits with a marked node is awake, at the top of the loop. *)
Lemma marked_awake k l u y l0 :
  good (σ k) l -> l = (y, true) :: l0 -> waits (σ k) u y ->
  exists th o b, threads (σ k) !! u = Some th /\
    (at_pc th = Wanting o (at_wait y) b \/ at_pc th = Running o (at_wait y) b).
Proof.
  intros Hg -> (h & Hu & Hw). apply modes_lookup_inv in Hu as (th & Hu & <-). exists th.
  destruct (run_to k) as [es Hes]. pose proof (sound_rest 0 P (turns r) hs Hsound es _ Hes u th Hu) as Hrest.
  destruct Hg as [[_ Hpcs] Hq _ _]. pose proof (Hpcs _ _ Hu) as Hok. unfold rests, not_waiting in Hrest.
  destruct (at_pc th) as [|o p b|o p v|o p b|c tm o p|ns o nx] eqn:Hpc; try (by (congruence || destruct Hrest; congruence)).
  - exists o, b. split; [done|]. left. destruct Hok as [_ Hp]. destruct p; destruct Hp as [Hp _]; congruence.
  - exists o, b. split; [done|]. right. destruct Hok as [_ Hp]. destruct p; destruct Hp as [Hp _]; congruence.
  - exfalso. destruct Hok as [[_ Hp] ->]. destruct Hp as [Hp _]. rewrite Hw in Hp. injection Hp as <-.
    pose proof (sleeper_unmarked 0 P _ hs Hsound es _ u th y tm o (at_wait y) Hes Hu Hpc) as Hm.
    rewrite (holds_list_marks _ _ y true Hq) in Hm; [done|by left].
Qed.

Section waiter.
Context (t : tid).

(** [t] waits with [x], and [i] threads are before it. *)
Definition ahead k x i : Prop := exists l, good (σ k) l /\ waits (σ k) t x /\ l.*1 !! i = Some x.
Definition nearer k x i : Prop := has (σ k) t \/ exists i', i = S i' /\ ahead k x i'.

Lemma ahead_next k x i : ahead k x i -> nearer (S k) x i \/ ahead (S k) x i.
Proof.
  intros (l & Hg & Hw & Hi). pose proof (ex_next _ _ _ _ Hex k) as Hnext. unfold next_is in Hnext. simpl in Hnext.
  destruct (ev k) as [e|]; [|right; exists l; by rewrite Hnext].
  destruct (line_moves _ l e _ Hg Hnext) as (l' & Hg' & [(Hp & _ & Hws)|(y & l0 & Hl & Hl' & Hwy & Hhas & Hws)]).
  - right. exists l'. split; [done|]. split; [by apply Hws|]. by eapply prefix_lookup_Some.
  - left. destruct i as [|i].
    + left. rewrite Hl in Hi. injection Hi as ->. by rewrite (waits_unique _ _ t (actor e) x Hg Hw Hwy).
    + right. exists i. split; [done|]. exists l'. split; [done|]. rewrite Hl in Hi. simpl in Hi.
      split; [|by rewrite Hl']. apply Hws; [|done]. intros ->. destruct Hw as (h1 & Hh1 & Hw1), Hwy as (h2 & Hh2 & Hw2).
      assert (x = y) as -> by congruence. pose proof (good_nodup _ _ Hg) as Hnd. rewrite Hl in Hnd.
      cbn in Hnd. apply NoDup_cons in Hnd as [Hnd _]. apply Hnd. apply list_elem_of_lookup_2 with i. done.
Qed.

Lemma ahead_until k j x i : ahead k x i -> (k <= j)%nat -> (exists n, (k <= n)%nat /\ nearer n x i) \/ ahead j x i.
Proof.
  intros Ha. induction 1 as [|j Hle [IH|IH]]; [by right|by left|].
  destruct (ahead_next j x i IH) as [|]; [left; exists (S j); split; [lia|done]|by right].
Qed.

(** A marked head leaves the line with its permits. *)
Definition called u y (m : qmachine) : Prop := exists l l0, good m l /\ l = (y, true) :: l0 /\ waits m u y.

Lemma called_keeps u y m e m' : called u y m -> qstep m e = Some m' -> actor e <> u -> called u y m'.
Proof.
  intros (l & l0 & Hg & Hl & Hw) Hstep Hne.
  destruct (line_moves m l e m' Hg Hstep) as (l' & Hg' & [(Hp & Hm & Hws)|(x & l1 & Hl1 & _ & Hwx & _)]).
  - assert (marked l') as Hm' by (apply Hm; by rewrite Hl). destruct (head_name l y l0 l' Hl Hp Hm') as [l1 ->].
    exists ((y, true) :: l1), l1. split; [done|]. split; [done|by apply Hws].
  - exfalso. apply Hne. rewrite Hl in Hl1. injection Hl1 as <- _. exact (waits_unique _ _ _ _ _ Hg Hwx Hw).
Qed.

Lemma running_leaves k x i u y th o b :
  ahead k x i -> called u y (σ k) -> threads (σ k) !! u = Some th -> at_pc th = Running o (at_wait y) b ->
  exists j, (k <= j)%nat /\ nearer j x i.
Proof.
  intros Ha Hc Hu Hpc.
  destruct (next_exec the_code (clients (turns r)) holders_call (called u y) _ σ ev k u th o (at_wait y) b Hex Hfair Hu Hpc Hc)
    as (j & picks & Hle & Huj & (l & l0 & Hg & Hl & Hw) & Hnext); [by intros; eapply called_keeps|].
  destruct (ahead_until k j x i Ha Hle) as [(n & Hn & Hnear)|Haj]; [by exists n|].
  destruct (ahead_next j x i Haj) as [Hnear|(l1 & Hg1 & _ & Hi1)]; [exists (S j); split; [lia|done]|exfalso].
  destruct Haj as (l2 & Hg2 & _ & Hi). rewrite (holds_list_functional _ _ _ (gd_line _ _ Hg2) (gd_line _ _ Hg)) in Hi.
  destruct (good_exec _ l u th o (at_wait y) b picks _ Hg Huj Hpc Hnext) as (l' & ex & Hg' & Htn & _).
  rewrite (holds_list_functional _ _ _ (gd_line _ _ Hg1) (gd_line _ _ Hg')) in Hi1.
  pose proof (good_nodup _ _ Hg) as Hnd. destruct (in_turn _ l u th o _ b Hg Huj Hpc) as [(-> & _)|(_ & _ & ? & _)]; [|done].
  destruct Htn as [_ ?|? _ ?|z l3 _ [= <-] Hl3 Hl' _|z _ [= <-] Hz _ _|?]; try done.
  - rewrite Hl' in Hi1. subst l. injection Hl3 as <-. simpl in Hnd, Hi. apply NoDup_cons in Hnd as [Hy Hnd]. destruct i as [|i].
    + injection Hi as <-. apply Hy. by eapply list_elem_of_lookup_2.
    + simpl in Hi. pose proof (NoDup_lookup _ _ _ _ Hnd Hi Hi1). lia.
  - pose proof (holds_list_marks _ _ _ _ (gd_line _ _ Hg) Hz) as Hm1.
    rewrite (holds_list_marks _ _ y true (gd_line _ _ Hg)) in Hm1; [done|]. rewrite Hl. by left.
Qed.

Lemma marked_nearer k x i l :
  ahead k x i -> good (σ k) l -> marked l -> exists j, (k <= j)%nat /\ nearer j x i.
Proof.
  intros Ha Hg Hm. destruct l as [|[y []] l0]; try done.
  destruct (waiter_of _ _ y Hg) as [u Hu]; [by left|].
  assert (called u y (σ k)) as Hc by (by eexists _, l0).
  destruct (marked_awake k _ u y l0 Hg eq_refl Hu) as (th & o & b & Ht & [Hpc|Hpc]);
    [|by eapply (running_leaves k x i u y)].
  destruct (next_lock the_code (clients (turns r)) holders_call (called u y) _ σ ev k u th o (at_wait y) b Hex Hfair Ht Hpc Hc)
    as (j & Hle & Huj & Hcj); [|by intros; eapply called_keeps|].
  { intros m e m' (l1 & l2 & Hg1 & Hl1 & h & Hh & Hwh) Hstep ->.
    destruct (good_same _ l1 (Acquire u) _ Hg1 Hstep ltac:(done)) as [Hg' Hm']. exists l1, l2. split; [done|]. split; [done|].
    exists h. by rewrite Hm'. }
  destruct (ahead_until k j x i Ha Hle) as [(n & Hn & Hnear)|Haj]; [by exists n|].
  destruct (running_leaves j x i u y _ o b Haj Hcj Huj ltac:(done)) as (n & Hn & Hnear). exists n. split; [lia|done].
Qed.

(** In the end [t] has one thread less before it. *)
Definition closer k x i : Prop := exists j, (k <= j)%nat /\ nearer j x i.

Lemma closer_later k j x i : (k <= j)%nat -> closer j x i -> closer k x i.
Proof. intros Hle (n & Hn & Hnear). exists n. split; [lia|done]. Qed.

(** A holder gives back, and the head is called. *)
Lemma holder_marks b k x i v th :
  ahead k x i -> threads (σ k) !! v = Some th -> holds (mode th) = r -> (way_out (at_pc th) <= b)%nat -> closer k x i.
Proof.
  revert k th. induction b as [b IH] using lt_wf_ind. intros k th Ha Hv Hh Hb. destruct (good_at k) as [l Hg].
  destruct (next_own the_code (clients (turns r)) holders_call _ σ ev k v th Hex Hfair Hv) as (j & e & Hle & Hact & Hvj & Hstep).
  { by eapply holder_due. }
  destruct (ahead_until k (S j) x i Ha ltac:(lia)) as [|Haj]; [done|]. apply (closer_later k (S j)); [lia|].
  destruct (good_at j) as [lj Hgj].
  destruct (holder_step _ lj v th e _ Hgj Hvj Hh Hact Hstep) as [(l' & Hg' & Hm)|(th' & Hv' & Hh' & Hlt)].
  - apply (marked_nearer (S j) x i l' Haj Hg'), Hm. intros ->. destruct Haj as (l1 & Hg1 & _ & Hi).
    by rewrite (holds_list_functional _ _ _ (gd_line _ _ Hg1) (gd_line _ _ Hg')) in Hi.
  - by apply (IH (way_out (at_pc th')) ltac:(lia) (S j) th').
Qed.

Lemma ahead_closer k x i : ahead k x i -> closer k x i.
Proof.
  intros Ha. pose proof Ha as (l & Hg & _ & Hi).
  assert (marked l \/ ~ marked l) as [Hm|Hm] by (destruct l as [|[y []] l0]; simpl; tauto).
  - by apply (marked_nearer k x i l).
  - destruct (holder_exists _ l HP Hg) as (v & h & Hv & Hh); [by intros ->|done|].
    apply modes_lookup_inv in Hv as (th & Hv & <-). by apply (holder_marks (way_out (at_pc th)) k x i v th).
Qed.

Lemma all_served i k x : ahead k x i -> exists j, (k <= j)%nat /\ has (σ j) t.
Proof.
  revert k. induction i as [|i IH]; intros k Ha; destruct (ahead_closer k x _ Ha) as (j & Hj & [Hh|(i' & ? & Ha')]); simplify_eq;
    try (by exists j).
  destruct (IH j Ha') as (n & Hn & Hh). exists n. split; [lia|done].
Qed.

(** Who is in the loop stands in line. *)
Lemma in_line k th o x :
  threads (σ k) !! t = Some th -> allowed (turns r) (mode th) o (at_wait x) -> exists i, ahead k x i.
Proof.
  intros Ht [_ [Hw _]]. destruct (good_at k) as [l Hg]. pose proof (modes_lookup _ _ _ Ht) as Hm.
  pose proof Hg as [[[(_ & _ & l0 & Hq0 & Htr & _) _] _] Hq _ _].
  pose proof (qinv_sleeper _ _ _ _ _ _ Hq0 Htr Hm Hw) as Hin. rewrite (holds_list_functional _ _ _ Hq0 Hq) in Hin.
  apply list_elem_of_lookup in Hin as [i Hi]. exists i, l. split; [done|]. split; [by exists (mode th)|done].
Qed.

(** A first segment takes the permits or joins the line. *)
Lemma arrives k th b :
  threads (σ k) !! t = Some th -> at_pc th = Running (acquire r) at_start b -> exists j, (k <= j)%nat /\ has (σ j) t.
Proof.
  intros Ht Hpc.
  destruct (next_exec the_code (clients (turns r)) holders_call (fun _ => True) _ σ ev k t th _ _ b Hex Hfair Ht Hpc)
    as (j & picks & Hle & Htj & _ & Hstep); [done..|].
  destruct (good_at j) as [l Hg].
  destruct (good_exec _ l t th _ _ b picks _ Hg Htj Hpc Hstep) as (l' & ex & Hg' & Htn & Hm).
  destruct (in_turn _ l t th _ _ b Hg Htj Hpc) as [(_ & Hz & _)|(? & _)]; [|done].
  destruct Htn as [_ _ _ _ ->| x _ _ Hl' ->| | |?]; try done.
  - exists (S j). split; [lia|]. eexists. rewrite Hm, lookup_insert_eq. split; [done|]. simpl. lia.
  - destruct (all_served (length l) (S j) x) as (n & Hn & Hh); [|exists n; split; [lia|done]].
    exists l'. split; [done|]. split; [eexists; rewrite Hm, lookup_insert_eq; by split|].
    rewrite Hl', fmap_app, lookup_app_r by (by rewrite length_fmap). by rewrite length_fmap, Nat.sub_diag.
Qed.

Lemma enters k th b :
  threads (σ k) !! t = Some th -> at_pc th = Wanting (acquire r) at_start b -> exists j, (k <= j)%nat /\ has (σ j) t.
Proof.
  intros Ht Hpc.
  destruct (next_lock the_code (clients (turns r)) holders_call (fun _ => True) _ σ ev k t th _ _ b Hex Hfair Ht Hpc)
    as (j & Hle & Htj & _); [done..|].
  destruct (arrives j _ b Htj eq_refl) as (n & Hn & Hh). exists n. split; [lia|done].
Qed.

(** The thread is inside [acquire] and has not got its permits. *)
Definition acquiring (q : pc op point loc ret) : bool :=
  match q with
  | Wanting (acquire _) _ _ | Running (acquire _) _ _ | Waiting _ _ (acquire _) _ => true
  | _ => false
  end.

Lemma acquiring_served k th :
  threads (σ k) !! t = Some th -> acquiring (at_pc th) = true -> exists j, (k <= j)%nat /\ has (σ j) t.
Proof.
  intros Ht Hac. destruct (good_at k) as [l [[_ Hpcs] _ _ _]]. pose proof (Hpcs _ _ Ht) as Hok.
  assert (forall z x, allowed (turns r) (mode th) (acquire z) (at_wait x) -> exists j, (k <= j)%nat /\ has (σ j) t) as Hwait.
  { intros z x Hal. destruct (in_line k th (acquire z) x Ht Hal) as [i Hi]. by eapply all_served. }
  assert (forall z, allowed (turns r) (mode th) (acquire z) at_start -> z = r) as Hreq.
  { intros z [Hc _]. by apply bool_decide_eq_true in Hc as [-> _]. }
  destruct (at_pc th) as [|[z| | | | |] [|x] b| |[z| | | | |] [|x] b|c tm [z| | | | |] p|] eqn:Hpc; simpl in Hok; try done;
    try (by eapply Hwait).
  - rewrite (Hreq z Hok) in Hpc. by eapply enters.
  - rewrite (Hreq z Hok) in Hpc. by eapply arrives.
  - destruct Hok as [Hal ->]. by eapply Hwait.
Qed.
End waiter.
End execution.
End fair.

(** C21: everybody is served. The clients take [r] permits at a time and give
    them back before they take others, and the semaphore was made with at
    least [r]. In every infinite execution in which whoever can move moves in
    the end and holders release in the end, every thread that is inside
    [acquire] holds its [r] permits in the end, however often the others come
    back: the queue starves nobody. *)
Theorem qs_fair P r hs (σ : nat -> qs_state) (ev : nat -> option (event op)) k t th :
  1 <= r <= INT_MAX -> r <= P -> sound 0 P (turns r) hs ->
  execution (qs_step (turns r)) (qs_start P hs) σ ev -> fair holders_call σ ev ->
  threads (σ k) !! t = Some th -> acquiring (at_pc th) = true ->
  exists j, (k <= j)%nat /\ holds <$> modes (σ j) !! t = Some r.
Proof.
  intros Hr HP Hs Hex Hfair Ht Hac.
  destruct (acquiring_served P r Hr hs σ ev HP Hs Hex Hfair t k th Ht Hac) as (j & Hj & h & Hh & <-).
  exists j. split; [done|]. by rewrite Hh.
Qed.

(** Thread 0 has the permit, 1 and 2 queue; each gives back in its turn. *)
Definition in_turns : list (event op) :=
  hand_over ++ [Exec 1%nat []; Finish 1%nat;
    Invoke 1%nat (release 1); Acquire 1%nat; Exec 1%nat []; Finish 1%nat;
    Acquire 2%nat; Exec 2%nat []; Finish 2%nat;
    Invoke 2%nat (release 1); Acquire 2%nat; Exec 2%nat []; Finish 2%nat].

Lemma qs_fair_witness :
  exists σ ev j, execution (qs_step (turns 1)) (qs_start 1 three) σ ev /\ fair holders_call σ ev /\
    at_pc <$> threads (σ 10%nat) !! 2%nat = Some (Waiting 254%nat false (acquire 1) (at_wait 254%nat)) /\
    (10 <= j)%nat /\ holds <$> modes (σ j) !! 2%nat = Some 1.
Proof.
  assert (exists m, run (qs_step (turns 1)) (qs_start 1 three) in_turns = Some m) as [m Hrun] by (eexists; vm_compute; reflexivity).
  assert (settled the_code (clients (turns 1)) holders_call (qs_start 1 three) in_turns = true) as Hset by (vm_compute; reflexivity).
  assert (at_pc <$> threads (visited (qs_step (turns 1)) (qs_start 1 three) in_turns 10) !! 2%nat =
    Some (Waiting 254%nat false (acquire 1) (at_wait 254%nat))) as Hw by (vm_compute; reflexivity).
  assert (1 <= 1 <= INT_MAX) as Hr by (unfold INT_MAX; lia).
  assert (sound 0 1 (turns 1) three) as Hs by (apply three_sound; [by apply turns_within|lia|lia|by vm_compute]).
  pose proof (finite_execution _ _ _ _ Hrun) as Hex. pose proof (finite_fair _ _ _ _ _ Hset) as Hfair.
  pose proof Hw as (th & Ht & Hpc)%fmap_Some.
  destruct (qs_fair 1 1 three _ _ 10 2%nat th Hr ltac:(lia) Hs Hex Hfair Ht) as (j & Hj & Hh);
    [by rewrite <- Hpc|].
  do 2 eexists. exists j. split_and!; [exact Hex|exact Hfair|exact Hw|exact Hj|exact Hh].
Defined.
