(* ===== verification/AdapterProps.v ===== *)
(** * SemaphoreTimedLockableAdapter: the properties

    On any semaphore that keeps the laws of [Semaphore], an adapter with
    request [r] is a lock with a slot for every [r] permits, member by member;
    and what becomes of it when [try_lock_until], which takes one permit
    whatever the request, is called too. *)

From S2P Require Import Prelude Machine Monitor MonitorTheory.
From S2P Require Import Semaphore SimpleSemaphore SimpleSemaphoreProofs.

Import Sem Adapter.
Local Open Scope Z_scope.

Section slots.
Context {St Pt Cv H : Type} `{!EqDecision Cv, !Semaphore St Pt Cv H, !SemaphoreLaws St Pt Cv H}.
Context (r P : Z) (hs : gmap tid H) (Hr : 1 <= r <= INT_MAX) (HP : 0 <= P <= INT_MAX).
Context (Hsize : Z.of_nat (size hs) < 2 ^ 62) (Hnew : newcomers hs).
Implicit Types (m : state St op Pt Cv ret H) (t : tid) (owners : gset tid).

Abbreviation machine := (state St op Pt Cv ret H).
Abbreviation users := (sem_client (H := H) (Adapter.contract r)).
Abbreviation astep := (step sem_code users).
Abbreviation astart := (start (sem_init P) hs).

(** Owners hold [r] permits, everybody else none. *)
Definition books (m : machine) (owners : gset tid) : Prop :=
  (exists es, run astep astart es = Some m) /\
  (forall t h, modes m !! t = Some h -> held h = if decide (t ∈ owners) then r else 0) /\
  sumz held (modes m) = r * Z.of_nat (size owners).

Lemma adapter_within : within 0 (Adapter.contract r).
Proof. apply adapter_contract_within. lia. Qed.

Lemma books_permits m owners : books m owners ->
  permits_of (shared m) = P - r * Z.of_nat (size owners) /\ 0 <= permits_of (shared m) <= INT_MAX.
Proof.
  intros ((es & Hrun) & _ & Hsum).
  destruct (sem_balances 0 (Adapter.contract r) P hs es m adapter_within) as (Hp & H0 & _); try done; lia.
Qed.

(** So there are never more than [P / r]. *)
Lemma books_size m owners : books m owners -> Z.of_nat (size owners) <= P / r.
Proof. intros Hb. destruct (books_permits m owners Hb). apply Z.div_le_lower_bound; lia. Qed.

Lemma size_without t owners :
  Z.of_nat (size owners) = Z.of_nat (size (owners ∖ {[t]})) + if decide (t ∈ owners) then 1 else 0.
Proof.
  case_decide as Hin.
  - rewrite (union_difference_singleton_L t owners Hin) at 1.
    rewrite size_union by (clear; set_solver). rewrite size_singleton. lia.
  - rewrite (difference_disjoint_L owners {[t]}) by (clear - Hin; set_solver). lia.
Qed.

(** One critical section moves [held] of its thread as its verdict says. *)
Lemma books_move m m' owners owners' t h h' :
  books m owners -> (exists es, run astep astart es = Some m') -> modes m !! t = Some h ->
  modes m' = <[t := h']> (modes m) -> owners' ∖ {[t]} = owners ∖ {[t]} ->
  held h' = (if decide (t ∈ owners') then r else 0) -> books m' owners'.
Proof.
  intros (_ & Hh & Hsum) Hrun Ht Hm Howners Hh'. split; [done|]. split.
  - intros u hu. rewrite Hm. intros [[<- <-]|[Hne Hu]]%lookup_insert_Some; [done|].
    rewrite (Hh u hu Hu). assert (u ∈ owners <-> u ∈ owners') as Hiff by (clear - Hne Howners; set_solver).
    repeat case_decide; tauto.
  - rewrite Hm, (sumz_insert held _ _ _ _ Ht), Hsum, Hh', (Hh t h Ht).
    pose proof (fun o => size_without t o) as Hsz.
    rewrite (Hsz owners), (Hsz owners'), Howners. repeat case_decide; lia.
Qed.

Lemma books_idle m m' owners :
  books m owners -> (exists es, run astep astart es = Some m') -> modes m' = modes m -> books m' owners.
Proof. intros (_ & Hh & Hsum) Hrun Hm. unfold books. by rewrite Hm. Qed.

(** A member returns: the verdict is a step of the slots. *)
Lemma member_returns m m' owners t h l v p ns :
  books m owners -> (exists es, run astep astart es = Some m') -> modes m !! t = Some h ->
  lockable_lawful r (held h) l = true ->
  modes m' = <[t := settle users (forward r l) p (Leave ns (Return v)) h]> (modes m) ->
  (l = try_lock -> v = Bool false -> permits_of (shared m) < r) ->
  match verdict t l v with
  | None => books m' owners
  | Some lb => exists owners', slot_step (P / r) owners lb = Some owners' /\ books m' owners'
  end.
Proof.
  intros Hb Hrun Ht Hl Hm Href. pose proof Hb as (_ & Hh & _). pose proof (Hh t h Ht) as Hht.
  pose proof (sem_settles (Adapter.contract r) (forward r l) p (Leave ns (Return v)) h) as Hset. simpl in Hset.
  set (h' := settle users (forward r l) p (Leave ns (Return v)) h) in *.
  assert (Htake : held h = 0 -> held h' = held h + r ->
    exists owners', slot_step (P / r) owners (Take t) = Some owners' /\ books m' owners').
  { intros H0 H1. assert (t ∉ owners) as Hno by (intros Hin; rewrite decide_True in Hht by done; lia).
    assert (books m' ({[t]} ∪ owners)) as Hb'.
    { apply (books_move m m' owners _ t h h' Hb Hrun Ht Hm); [clear; set_solver|]. rewrite decide_True by set_solver. lia. }
    exists ({[t]} ∪ owners). split; [|done]. simpl. apply books_size in Hb'.
    rewrite size_union, size_singleton in Hb' by set_solver. by rewrite decide_True by (split; [done|lia]). }
  assert (Hkeep : held h' = held h -> books m' owners).
  { intros Heq. apply (books_move m m' owners owners t h h' Hb Hrun Ht Hm); [done|]. by rewrite Heq. }
  destruct l; simpl in Hl; apply bool_decide_eq_true in Hl; simpl in Hset |- *.
  - by apply Htake.
  - assert (t ∈ owners) as Hin by (destruct (decide (t ∈ owners)); [done|lia]).
    rewrite decide_True by done. eexists. split; [done|].
    apply (books_move m m' owners _ t h h' Hb Hrun Ht Hm); [clear; set_solver|]. rewrite decide_False by set_solver. lia.
  - destruct v as [|[]|]; try (by apply Hkeep); [by apply Htake|].
    exists owners. split; [|by apply Hkeep]. simpl. rewrite decide_True; [done|].
    split; [intros Hin; rewrite decide_True in Hht by done; lia|].
    specialize (Href eq_refl eq_refl). destruct (books_permits m owners Hb) as [Hp _].
    pose proof (books_size m owners Hb). pose proof (Z.mul_div_le P r ltac:(lia)). nia.
  - destruct v as [|[]|]; try (by apply Hkeep). by apply Htake.
  - destruct v as [|[]|]; try (by apply Hkeep). by apply Htake.
Qed.

Lemma books_step m owners e m' :
  books m owners -> astep m e = Some m' ->
  match label_of r m e with
  | None => books m' owners
  | Some lb => exists owners', slot_step (P / r) owners lb = Some owners' /\ books m' owners'
  end.
Proof.
  intros Hb Hstep. pose proof Hb as ((es & Hrun) & Hh & Hsum).
  assert (exists es', run astep astart es' = Some m') as Hrun'.
  { exists (es ++ [e]). rewrite run_app, Hrun. simpl. by rewrite Hstep. }
  assert ((exists t picks, e = Exec t picks) \/ forall t picks, e <> Exec t picks) as [(t & picks & ->)|Hne].
  { destruct e; try (right; intros; discriminate). left. by do 2 eexists. }
  2:{ assert (label_of r m e = None) as -> by (destruct e; try done; by destruct (Hne t picks)).
      apply (books_idle m); [done|done|]. destruct (step_modes _ _ _ _ _ Hstep); [done|]. by destruct (Hne t picks). }
  simpl in Hstep |- *. destruct (threads m !! t) as [th|] eqn:Ht; simpl in Hstep |- *; [|done].
  unfold step_exec in Hstep. destruct (at_pc th) as [| | |o p b| |] eqn:Hpc; try done.
  destruct (body sem_code o p b (shared m)) as [[[s ns] ex]|] eqn:Hbody; simpl in Hstep |- *; [|done].
  destruct (deliver_all ns picks (threads m)) as [ths|] eqn:Hd; simpl in Hstep; [|done]. injection Hstep as <-.
  pose proof (modes_lookup _ _ _ Ht) as Hmt.
  set (m' := mkState _ _ _) in *. assert (modes m' = <[t := settle users o p ex (mode th)]> (modes m)) as Hm.
  { unfold m', modes. simpl. by rewrite fmap_insert, (deliver_all_modes _ _ _ _ Hd). }
  destruct (contract_member r (held (mode th)) o) as (l & <- & Hl & _).
  { eapply (sem_keeps 0); [apply adapter_within|..|exact Hrun|exact Ht|exact Hpc]; done || lia. }
  rewrite member_forward. simpl. destruct ex as [| |ns' [v|q]|];
    try (eapply books_move; [exact Hb|exact Hrun'|exact Hmt|exact Hm|done|]; rewrite sem_settles; by apply Hh).
  eapply member_returns; try done. intros -> ->. simpl in Hbody. eapply sem_refuses; [|by eapply books_permits|exact Hbody]. lia.
Qed.

Lemma books_start : books astart ∅.
Proof.
  split; [by exists []|]. rewrite modes_start. split.
  - intros t h Ht. rewrite (Hnew t h Ht). rewrite decide_False by set_solver. apply held_fresh.
  - rewrite size_empty, sumz_zero; [lia|]. intros t h Ht. rewrite (Hnew t h Ht). apply held_fresh.
Qed.

Lemma books_run es m :
  run astep astart es = Some m ->
  exists owners, run (slot_step (P / r)) ∅ (labels astep (label_of r) astart es) = Some owners /\ books m owners.
Proof. apply (simulation_run astep (slot_step (P / r)) (label_of r) books); [intros; by apply books_step|apply books_start]. Qed.
End slots.

Import SimpleSemaphore.

(** C38: [SemaphoreTimedLockableAdapter] is a lock with [P / r] slots. On any
    semaphore that keeps the laws and starts with [P] permits, let the users
    of an adapter with request [r] call its members, [try_lock_until] only if
    [r] is 1, each locking when it owns nothing and unlocking what it locked.
    Every interleaving is a run of a lock that [P / r] threads can own: [lock]
    and a successful [try_lock] or [try_lock_for] take a free slot, [unlock]
    gives it back, and [try_lock] is refused only when no slot is free; and
    the permits that are left are those of the free slots and the rest. With
    [try_lock_until] for [r = 2] that is lost on [SimpleSemaphore]: with one
    permit it makes its caller an owner where there is no slot, and [unlock]
    leaves two permits. *)
Theorem adapter_slots :
  (forall {St Pt Cv H} `{EqDecision Cv} {S : Semaphore St Pt Cv H} (L : SemaphoreLaws St Pt Cv H) r P hs es m,
     1 <= r <= INT_MAX -> 0 <= P <= INT_MAX -> Z.of_nat (size hs) < 2 ^ 62 -> newcomers hs ->
     run (step sem_code (sem_client (Adapter.contract r))) (start (sem_init P) hs) es = Some m ->
     exists owners,
       run (slot_step (P / r)) ∅
         (labels (step sem_code (sem_client (Adapter.contract r))) (label_of r) (start (sem_init P) hs) es) = Some owners /\
       (forall t h, modes m !! t = Some h -> held h = if decide (t ∈ owners) then r else 0) /\
       permits_of (shared m) = P - r * Z.of_nat (size owners) /\ Z.of_nat (size owners) <= P / r) /\
  (exists es m, run (step sem_code (sem_client (Adapter.any_contract 2))) (start (sem_init 1) {[0%nat := 0]}) es = Some m /\
     labels (step sem_code (sem_client (Adapter.any_contract 2))) (label_of 2) (start (sem_init 1) {[0%nat := 0]}) es =
       [Take 0%nat; Give 0%nat] /\
     run (slot_step (1 / 2)) ∅ [Take 0%nat] = None /\ permits_of (shared m) = 2).
Proof.
  split.
  - intros St Pt Cv H ? S L r P hs es m Hr HP Hs Hn Hrun.
    destruct (books_run r P hs Hr HP Hs Hn es m Hrun) as (owners & Ho & Hb). exists owners. split; [done|].
    pose proof Hb as (_ & Hh & _). split; [done|]. split; [by eapply books_permits|by eapply books_size].
  - exists [Invoke 0%nat (forward 2 try_lock_until); Acquire 0%nat; Exec 0%nat []; Finish 0%nat;
            Invoke 0%nat (forward 2 unlock); Acquire 0%nat; Exec 0%nat []]. evaluates.
Qed.

(** Thread 0 owns the lock's only slot; thread 1 is refused; 0 leaves. *)
Definition one_owner : list (event op) :=
  [Invoke 0%nat (forward 2 lock); Acquire 0%nat; Exec 0%nat []; Finish 0%nat;
   Invoke 1%nat (forward 2 try_lock); Acquire 1%nat; Exec 1%nat []; Finish 1%nat;
   Invoke 0%nat (forward 2 unlock); Acquire 0%nat; Exec 0%nat []].

Definition pair_of_users : gmap tid Z := {[ 0%nat := 0; 1%nat := 0 ]}.

Lemma adapter_slots_witness :
  exists m owners, run (step sem_code (sem_client (Adapter.contract 2))) (start (sem_init 3) pair_of_users) one_owner = Some m /\
    run (slot_step (3 / 2)) ∅ [Take 0%nat; Refuse 1%nat; Give 0%nat] = Some owners /\
    permits_of (shared m) = 3 - 2 * Z.of_nat (size owners).
Proof.
  assert (labels (step sem_code (sem_client (Adapter.contract 2))) (label_of 2) (start (sem_init 3) pair_of_users) one_owner =
    [Take 0%nat; Refuse 1%nat; Give 0%nat]) as Hl by (vm_compute; reflexivity).
  assert (newcomers pair_of_users) as Hn by (unfold newcomers; apply (bool_decide_eq_true_1 _); vm_compute; reflexivity).
  destruct (evaluate (fun _ => True) (run (step sem_code (sem_client (Adapter.contract 2))) (start (sem_init 3) pair_of_users)
    one_owner)) as (m & Hrun & _); [vm_compute; reflexivity|].
  destruct (proj1 adapter_slots Z point cv_name Z _ _ simple_semaphore_laws 2 3 pair_of_users one_owner m ltac:(by vm_compute)
    ltac:(by vm_compute) ltac:(by vm_compute) Hn Hrun) as (owners & Ho & _ & Hp & _).
  rewrite Hl in Ho. exists m, owners. split; [exact Hrun|]. split; [exact Ho|exact Hp].
Defined.
