(* ===== verification/LRUCache.v ===== *)
(** * util/lru_cache.h: LRUCache

    [mem] is the unordered map; the nodes of the recency list live inside it,
    so a pointer to a pair is modelled by the pair's key.  [Hash] and [Eql]
    are assumed to implement equality of keys.  An operation is [None] when
    it would dereference a null or dangling pointer or fail its assertion. *)

From S2P Require Import Prelude DList.

Section cache.
Context {K V : Type} `{Countable K}.

(** [struct Entry]. *)
Record Entry := mkEntry { value : V; parent : option K; child : option K }.

Record LRUCache := mkCache {
  mem : gmap K Entry;
  capacity : Z;
  lru_list_head : option K;
  lru_list_tail : option K;
}.

(** The constructor: the [size_t] argument is stored in a [uint32_t]. *)
Definition construct (capacity : Z) : LRUCache := mkCache ∅ (uint_of capacity) None None.

Definition set_mem (m : gmap K Entry) (c : LRUCache) :=
  mkCache m (capacity c) (lru_list_head c) (lru_list_tail c).
Definition set_head (p : option K) (c : LRUCache) :=
  mkCache (mem c) (capacity c) p (lru_list_tail c).
Definition set_tail (p : option K) (c : LRUCache) :=
  mkCache (mem c) (capacity c) (lru_list_head c) p.

Definition with_value (v : V) (e : Entry) := mkEntry v (parent e) (child e).
Definition with_parent (p : option K) (e : Entry) := mkEntry (value e) p (child e).
Definition with_child (p : option K) (e : Entry) := mkEntry (value e) (parent e) p.

(** [k->second.field = ...]. *)
Definition upd (c : LRUCache) (k : K) (f : Entry -> Entry) : option LRUCache :=
  e ← mem c !! k; Some (set_mem (<[k := f e]> (mem c)) c).

(** ** The private list operations *)

Definition list_insert_head (c : LRUCache) (e : K) : option LRUCache :=
  match lru_list_head c with
  | None =>
      let c := set_tail (Some e) (set_head (Some e) c) in
      c ← upd c e (with_parent None);
      upd c e (with_child None)
  | Some h =>
      c ← upd c e (with_parent None);
      c ← upd c e (with_child (Some h));
      c ← upd c h (with_parent (Some e));
      Some (set_head (Some e) c)
  end.

Definition list_release (c : LRUCache) (e : K) : option LRUCache :=
  n ← mem c !! e;
  c ← match parent n with
      | None => Some (set_head (child n) c)
      | Some p => upd c p (with_child (child n))
      end;
  n ← mem c !! e;
  match child n with
  | None => Some (set_tail (parent n) c)
  | Some x => upd c x (with_parent (parent n))
  end.

Definition list_move_to_head (c : LRUCache) (e : K) : option LRUCache :=
  c ← list_release c e; list_insert_head c e.

Definition erase_mem (c : LRUCache) (k : K) : LRUCache := set_mem (delete k (mem c)) c.

Definition gc1 (c : LRUCache) : option LRUCache :=
  e ← lru_list_tail c; (* the assertion *)
  c ← list_release c e;
  Some (erase_mem c e).

(** ** The public operations *)

Definition set (c : LRUCache) (k : K) (v : V) : option LRUCache :=
  match mem c !! k with
  | None =>
      let c := set_mem (<[k := mkEntry v None None]> (mem c)) c in
      c ← list_insert_head c k;
      if (capacity c <? Z.of_nat (size (mem c)))%Z then gc1 c else Some c
  | Some _ =>
      c ← upd c k (with_value v);
      list_move_to_head c k
  end.

(** [get] returns a pointer to the value: the key of its pair. *)
Definition get (c : LRUCache) (k : K) : option (LRUCache * option K) :=
  match mem c !! k with
  | None => Some (c, None)
  | Some _ => c ← list_move_to_head c k; Some (c, Some k)
  end.

(** [out_value] is the second result: [None] when [false] is returned. *)
Definition get_copy (c : LRUCache) (k : K) : option (LRUCache * option V) :=
  match mem c !! k with
  | None => Some (c, None)
  | Some _ => c ← list_move_to_head c k; e ← mem c !! k; Some (c, Some (value e))
  end.

Definition get_move (c : LRUCache) (k : K) : option (LRUCache * option V) :=
  match mem c !! k with
  | None => Some (c, None)
  | Some e => c ← list_release c k; Some (erase_mem c k, Some (value e))
  end.

(** [*value]: dereferencing the stored pointer is a parameter. *)
Definition get_copy_pointee {P} (deref : V -> option P) (c : LRUCache) (k : K)
    : option (LRUCache * option P) :=
  match mem c !! k with
  | None => Some (c, None)
  | Some _ => c ← list_move_to_head c k; e ← mem c !! k; p ← deref (value e); Some (c, Some p)
  end.

Definition has_key (c : LRUCache) (k : K) : bool := bool_decide (is_Some (mem c !! k)).

Definition erase (c : LRUCache) (k : K) : option (LRUCache * bool) :=
  match mem c !! k with
  | None => Some (c, false)
  | Some _ => c ← list_release c k; Some (erase_mem c k, true)
  end.

Definition clear (c : LRUCache) : LRUCache := set_tail None (set_head None (set_mem ∅ c)).

(** ** What the cache promises: a list of pairs, most recently used first *)

Definition drop_key (k : K) (l : list (K * V)) : list (K * V) := filter (fun kv => kv.1 <> k) l.

(** Moving a pair to the front, with a new value. *)
Definition touch (k : K) (v : V) (l : list (K * V)) : list (K * V) := (k, v) :: drop_key k l.

(** The value of a key. *)
Definition find (k : K) (l : list (K * V)) : option V := (list_to_map l : gmap K V) !! k.

(** A new pair pushes the last one out when the list would be too long. *)
Definition spec_set (cap : Z) (k : K) (v : V) (l : list (K * V)) : list (K * V) :=
  match find k l with
  | Some _ => touch k v l
  | None => if (cap <? Z.of_nat (S (length l)))%Z then removelast (touch k v l) else touch k v l
  end.

Definition spec_get (k : K) (l : list (K * V)) : list (K * V) * option V :=
  match find k l with
  | None => (l, None)
  | Some v => (touch k v l, Some v)
  end.

Definition spec_take (k : K) (l : list (K * V)) : list (K * V) * option V :=
  (drop_key k l, find k l).

(** The links and the values in the map. *)
Definition links (c : LRUCache) (k : K) : option (option K * option K) :=
  (fun e => (parent e, child e)) <$> mem c !! k.
Definition values (c : LRUCache) : gmap K V := value <$> mem c.

(** The keys [ks] are chained both ways from head to tail. *)
Definition chain (c : LRUCache) (ks : list K) : Prop :=
  dlist (links c) (lru_list_head c) (lru_list_tail c) ks.

(** [recent c l]: the pairs of [c] are those of [l], most recent first. *)
Definition recent (c : LRUCache) (l : list (K * V)) : Prop :=
  chain c l.*1 /\ values c = list_to_map l.
End cache.

Arguments Entry : clear implicits.
Arguments LRUCache K V {_ _}.

(** ** All operations together *)

Section ops.
Context {K V P : Type} `{Countable K} (deref : V -> option P).

Inductive op :=
| Set_ (k : K) (v : V) | Get (k : K) | GetCopy (k : K) | GetMove (k : K)
| GetCopyPointee (k : K) | HasKey (k : K) | Erase (k : K) | Clear.

Inductive ret :=
| RVoid | RPtr (p : option K) | RVal (v : option V) | RPointee (p : option P) | RBool (b : bool).

Definition exec (c : LRUCache K V) (o : op) : option (LRUCache K V * ret) :=
  match o with
  | Set_ k v => c ← set c k v; Some (c, RVoid)
  | Get k => '(c, p) ← get c k; Some (c, RPtr p)
  | GetCopy k => '(c, v) ← get_copy c k; Some (c, RVal v)
  | GetMove k => '(c, v) ← get_move c k; Some (c, RVal v)
  | GetCopyPointee k => '(c, p) ← get_copy_pointee deref c k; Some (c, RPointee p)
  | HasKey k => Some (c, RBool (has_key c k))
  | Erase k => '(c, b) ← erase c k; Some (c, RBool b)
  | Clear => Some (clear c, RVoid)
  end.

(** The specification; it is [None] only where a stored null is dereferenced. *)
Definition spec (cap : Z) (l : list (K * V)) (o : op) : option (list (K * V) * ret) :=
  match o with
  | Set_ k v => Some (spec_set cap k v l, RVoid)
  | Get k => let '(l, v) := spec_get k l in Some (l, RPtr (if v then Some k else None))
  | GetCopy k => let '(l, v) := spec_get k l in Some (l, RVal v)
  | GetMove k => let '(l, v) := spec_take k l in Some (l, RVal v)
  | GetCopyPointee k =>
      match spec_get k l with
      | (l, None) => Some (l, RPointee None)
      | (l, Some v) => p ← deref v; Some (l, RPointee (Some p))
      end
  | HasKey k => Some (l, RBool (if find k l then true else false))
  | Erase k => let '(l, v) := spec_take k l in Some (l, RBool (if v then true else false))
  | Clear => Some ([], RVoid)
  end.

Fixpoint exec_ops (c : LRUCache K V) (os : list op) : option (LRUCache K V * list ret) :=
  match os with
  | [] => Some (c, [])
  | o :: os => '(c, r) ← exec c o; '(c, rs) ← exec_ops c os; Some (c, r :: rs)
  end.

Fixpoint spec_ops (cap : Z) (l : list (K * V)) (os : list op) : option (list (K * V) * list ret) :=
  match os with
  | [] => Some (l, [])
  | o :: os => '(l, r) ← spec cap l o; '(l, rs) ← spec_ops cap l os; Some (l, r :: rs)
  end.
End ops.

Arguments op : clear implicits.
Arguments ret : clear implicits.
