(* ===== verification/LRUCacheProofs.v ===== *)
(** * LRUCache: the recency list

    The list operations keep the chain of keys and never touch the values;
    each public operation does to the list of pairs what its specification
    says. *)

From S2P Require Import Prelude DList LRUCache.

Section proofs.
Context {K V : Type} `{Countable K}.
Implicit Types (c : LRUCache K V) (k : K) (v : V) (ks : list K) (l : list (K * V)).

(** ** The heap *)

Lemma entry_upd_spec c k f : is_Some (mem c !! k) -> upd c k f = Some (set_mem (alter f k (mem c)) c).
Proof. intros [e He]. unfold upd. by rewrite He, (alter_alt_Some _ _ _ _ He). Qed.

(** Relinking does not change values. *)
Lemma values_alter (f : Entry K V -> Entry K V) k (m : gmap K (Entry K V)) :
  (forall e, value (f e) = value e) -> value <$> alter f k m = value <$> m.
Proof.
  intros Hf. apply map_eq. intros x. rewrite !lookup_fmap, lookup_alter.
  case_decide; [subst|done]. destruct (m !! x); simpl; by rewrite ?Hf.
Qed.

Lemma values_alter_at (f : Entry K V -> Entry K V) o (m : gmap K (Entry K V)) :
  (forall e, value (f e) = value e) -> value <$> alter_at f o m = value <$> m.
Proof. destruct o; [apply values_alter|done]. Qed.

Lemma entry_links_lookup c k p n :
  links c k = Some (p, n) -> exists v, mem c !! k = Some (mkEntry v p n).
Proof. unfold links. intros ([v p' n'] & He & [= -> ->])%fmap_Some. by exists v. Qed.

Lemma values_is_Some c k : is_Some (values c !! k) <-> is_Some (mem c !! k).
Proof. unfold values. rewrite lookup_fmap. apply fmap_is_Some. Qed.

Lemma chain_entry c ks1 k ks2 :
  chain c (ks1 ++ k :: ks2) -> exists v, mem c !! k = Some (mkEntry v (last ks1) (head ks2)).
Proof.
  intros (_ & _ & _ & Hs). apply dseg_middle in Hs.
  rewrite final_last, first_head in Hs. by apply entry_links_lookup.
Qed.

Lemma chain_is_Some c ks k : chain c ks -> k ∈ ks -> is_Some (mem c !! k).
Proof.
  intros Hc (ks1 & ks2 & ->)%list_elem_of_split.
  destruct (chain_entry _ _ _ _ Hc) as [v ->]. by eexists.
Qed.

(** ** list_release *)

(** The heap after the neighbours of [k] are joined. *)
Lemma release_links c ks1 k ks2 :
  chain c (ks1 ++ k :: ks2) ->
  list_release c k = Some (mkCache
    (alter_at (with_parent (last ks1)) (head ks2) (alter_at (with_child (head ks2)) (last ks1) (mem c)))
    (capacity c) (head (ks1 ++ ks2)) (last (ks1 ++ ks2))).
Proof.
  intros Hc. destruct (chain_entry _ _ _ _ Hc) as [v Hk].
  assert (Hin : forall x, last ks1 = Some x \/ head ks2 = Some x -> is_Some (mem c !! x)).
  { intros x Hx. eapply chain_is_Some; [done|].
    destruct Hx as [Hx%last_Some_elem_of|Hx]; [set_solver|]. destruct ks2; set_solver. }
  destruct Hc as (Hh & Ht & Hnd & _).
  pose proof Hnd as (_ & Hdisj & [Hk2 _]%NoDup_cons)%NoDup_app.
  assert (Hp : last ks1 <> Some k).
  { intros Hl%last_Some_elem_of. apply (Hdisj k Hl). set_solver. }
  unfold list_release. rewrite Hk. simpl.
  destruct c as [m cap h t]. simpl in *. subst h t.
  assert (Hm1 : alter_at (with_child (head ks2)) (last ks1) m !! k = Some (mkEntry v (last ks1) (head ks2))).
  { by rewrite lookup_alter_at, decide_False. }
  destruct ks1 as [|a ks1 _] using rev_ind.
  - simpl in *. rewrite Hk. simpl. destruct ks2 as [|b ks2]; simpl; [done|].
    rewrite entry_upd_spec by (simpl; auto). unfold set_mem. simpl. by rewrite ?last_cons_cons.
  - rewrite last_snoc in *. rewrite entry_upd_spec by (simpl; auto). simpl in *. rewrite Hm1. simpl.
    destruct ks2 as [|b ks2]; simpl.
    + unfold set_tail. simpl. rewrite app_nil_r, last_snoc. f_equal. f_equal. by destruct ks1.
    + rewrite entry_upd_spec; [|simpl; apply lookup_alter_is_Some; auto].
      unfold set_mem. simpl. rewrite !last_app_cons, ?last_cons_cons. f_equal. f_equal. by destruct ks1.
Qed.

Lemma release_spec c ks1 k ks2 :
  chain c (ks1 ++ k :: ks2) ->
  exists c', list_release c k = Some c' /\ chain c' (ks1 ++ ks2) /\ values c' = values c /\
    capacity c' = capacity c.
Proof.
  intros Hc. rewrite (release_links _ _ _ _ Hc). eexists. split; [reflexivity|].
  destruct Hc as (_ & _ & Hnd & Hs). split; [|split; [|done]].
  - split_and!; [done|done| |].
    + apply NoDup_app in Hnd as (Hn1 & Hd & [_ Hn2]%NoDup_cons). apply NoDup_app.
      split_and!; [done|set_solver|done].
    + eapply (dseg_unlink (links c)); [done..|]. intros y lk Hy Hlk. unfold links in *. simpl.
      rewrite !lookup_alter_at. apply fmap_Some in Hlk as ([v p n] & -> & ->).
      unfold unlinked. repeat case_decide; done.
  - unfold values. simpl. by rewrite !values_alter_at.
Qed.

(** ** list_insert_head *)

Lemma insert_head_spec c ks k :
  chain c ks -> k ∉ ks -> is_Some (mem c !! k) ->
  exists c', list_insert_head c k = Some c' /\ chain c' (k :: ks) /\ values c' = values c /\
    capacity c' = capacity c.
Proof.
  intros (Hh & Ht & Hnd & Hs) Hk He. unfold list_insert_head. rewrite Hh.
  destruct ks as [|h ks]; simpl.
  - rewrite entry_upd_spec by done. simpl. rewrite entry_upd_spec by (simpl; by apply lookup_alter_is_Some).
    eexists. split; [reflexivity|]. split; [|split; [|done]].
    + split_and!; try done; [apply NoDup_singleton|]. simpl. split; [|done].
      unfold links. simpl. rewrite !lookup_alter_eq. by destruct He as [e ->].
    + unfold values. simpl. by rewrite !values_alter.
  - assert (Hne : k <> h) by set_solver.
    assert (Heh : is_Some (mem c !! h)).
    { destruct (dseg_lookup _ _ _ _ h Hs) as [lk Hlk]; [set_solver|].
      unfold links in Hlk. apply fmap_Some in Hlk as (e & -> & _). by eexists. }
    rewrite entry_upd_spec by done. simpl. rewrite entry_upd_spec by (simpl; by apply lookup_alter_is_Some). simpl.
    rewrite entry_upd_spec by (simpl; by rewrite !lookup_alter_is_Some).
    eexists. split; [reflexivity|]. split; [|split; [|done]].
    + split_and!; [done|by rewrite last_cons_cons|by apply NoDup_cons|].
      apply (dseg_push_front (links c)); [done|done| |].
      * unfold links. simpl. rewrite lookup_alter_ne by done. rewrite !lookup_alter_eq.
        by destruct He as [e ->].
      * intros y q r Hy Hlk. unfold links in *. simpl.
        apply fmap_Some in Hlk as ([v p n] & Hlk & [= -> ->]).
        assert (k <> y) by (intros ->; done). destruct (decide (h = y)) as [->|Hhy].
        -- rewrite lookup_alter_eq, !lookup_alter_ne, Hlk by done. by rewrite decide_True.
        -- rewrite !lookup_alter_ne, Hlk by done. by rewrite decide_False by congruence.
    + unfold values. simpl. by rewrite !values_alter.
Qed.

Lemma move_to_head_spec c ks1 k ks2 :
  chain c (ks1 ++ k :: ks2) ->
  exists c', list_move_to_head c k = Some c' /\ chain c' (k :: ks1 ++ ks2) /\ values c' = values c /\
    capacity c' = capacity c.
Proof.
  intros Hc. destruct (release_spec _ _ _ _ Hc) as (c1 & Hr & Hc1 & Hv1 & Hcap1).
  destruct (insert_head_spec c1 (ks1 ++ ks2) k) as (c2 & Hi & Hc2 & Hv2 & Hcap2); [done| | |].
  - destruct Hc as (_ & _ & Hnd & _). rewrite <- Permutation_middle in Hnd.
    by apply NoDup_cons in Hnd as [? _].
  - apply values_is_Some. rewrite Hv1. apply values_is_Some. eapply chain_is_Some; [done|set_solver].
  - exists c2. unfold list_move_to_head. rewrite Hr. simpl. rewrite Hi. split; [done|].
    split; [done|]. by rewrite Hv2, Hcap2.
Qed.

(** ** Lists of pairs *)

Lemma drop_key_notin k l : k ∉ l.*1 -> drop_key k l = l.
Proof.
  unfold drop_key. induction l as [|[k' v'] l IH]; [done|]. rewrite fmap_cons. intros Hk.
  rewrite filter_cons_True by set_solver. rewrite IH; [done|set_solver].
Qed.

Lemma drop_key_middle k v l1 l2 :
  NoDup (l1 ++ (k, v) :: l2).*1 -> drop_key k (l1 ++ (k, v) :: l2) = l1 ++ l2.
Proof.
  rewrite fmap_app, fmap_cons. intros (_ & Hd & [Hk2 _]%NoDup_cons)%NoDup_app.
  unfold drop_key. rewrite filter_app, filter_cons_False by (simpl; naive_solver).
  fold (drop_key k l1) (drop_key k l2). rewrite !(drop_key_notin k); [done|done|]. intros Hk. apply (Hd k Hk). set_solver.
Qed.

Lemma elem_split l k : k ∈ l.*1 -> exists l1 v l2, l = l1 ++ (k, v) :: l2.
Proof.
  intros ([k' v] & -> & (l1 & l2 & ->)%list_elem_of_split)%list_elem_of_fmap. by exists l1, v, l2.
Qed.

Lemma map_drop_key k l : (list_to_map (drop_key k l) : gmap K V) = delete k (list_to_map l).
Proof.
  unfold drop_key. induction l as [|[k' v'] l IH]; simpl; [by rewrite delete_empty|].
  destruct (decide (k' = k)) as [->|Hne].
  - rewrite filter_cons_False by (simpl; naive_solver). by rewrite IH, delete_insert_eq.
  - rewrite filter_cons_True by done. simpl. by rewrite IH, delete_insert_ne.
Qed.

Lemma map_touch k v l : (list_to_map (touch k v l) : gmap K V) = <[k := v]> (list_to_map l).
Proof. unfold touch. simpl. by rewrite map_drop_key, insert_delete_eq. Qed.

Lemma find_in k l : is_Some (find k l) <-> k ∈ l.*1.
Proof.
  unfold find. rewrite <- not_eq_None_Some, <- not_elem_of_list_to_map.
  destruct (decide (k ∈ l.*1)); tauto.
Qed.

Lemma find_None k l : find k l = None <-> k ∉ l.*1.
Proof. unfold find. by rewrite <- not_elem_of_list_to_map. Qed.

(** ** The public operations *)

Lemma recent_find c l k : recent c l -> value <$> mem c !! k = find k l.
Proof. intros [_ Hv]. unfold find. rewrite <- Hv. unfold values. by rewrite lookup_fmap. Qed.

Lemma recent_nodup c l : recent c l -> NoDup l.*1.
Proof. by intros [(_ & _ & Hnd & _) _]. Qed.

Lemma recent_size c l : recent c l -> size (mem c) = length l.
Proof.
  intros Hc. rewrite <- (map_size_fmap value (mem c)). destruct Hc as [Hc Hv].
  fold (values c). rewrite Hv. apply map_size_list_to_map. apply Hc.
Qed.

Lemma move_recent c l k v :
  chain c l.*1 -> k ∈ l.*1 -> values c = <[k := v]> (list_to_map l) ->
  exists c', list_move_to_head c k = Some c' /\ recent c' (touch k v l) /\ capacity c' = capacity c.
Proof.
  intros Hc (l1 & w & l2 & ->)%elem_split Hv. pose proof Hc as (_ & _ & Hnd & _).
  rewrite fmap_app, fmap_cons in Hc. destruct (move_to_head_spec _ _ _ _ Hc) as (c' & Hm & Hc' & Hv' & Hcap).
  exists c'. split; [done|]. split; [|done]. split.
  - unfold touch. rewrite drop_key_middle by done. by rewrite fmap_cons, fmap_app.
  - by rewrite Hv', Hv, map_touch.
Qed.

Lemma chain_erase c ks k : chain c ks -> k ∉ ks -> chain (erase_mem c k) ks.
Proof.
  intros (Hh & Ht & Hnd & Hs) Hk. split_and!; [done..|].
  eapply dseg_ext; [|done]. intros x Hx. unfold links. simpl.
  by rewrite lookup_delete_ne by set_solver.
Qed.

Lemma release_recent c l k :
  recent c l -> k ∈ l.*1 ->
  exists c', list_release c k = Some c' /\ recent (erase_mem c' k) (drop_key k l) /\
    capacity c' = capacity c.
Proof.
  intros [Hc Hv] (l1 & w & l2 & ->)%elem_split. pose proof Hc as (_ & _ & Hnd & _).
  rewrite fmap_app, fmap_cons in Hc. destruct (release_spec _ _ _ _ Hc) as (c' & Hr & Hc' & Hv' & Hcap).
  exists c'. split; [done|]. split; [|done]. split.
  - rewrite drop_key_middle, fmap_app by done. apply chain_erase; [done|].
    destruct Hc as (_ & _ & Hn & _). rewrite <- Permutation_middle in Hn.
    by apply NoDup_cons in Hn as [? _].
  - rewrite map_drop_key, <- Hv, <- Hv'. unfold values. simpl. by rewrite fmap_delete.
Qed.

Lemma gc1_recent c l kv :
  recent c (l ++ [kv]) -> exists c', gc1 c = Some c' /\ recent c' l /\ capacity c' = capacity c.
Proof.
  intros Hc. destruct kv as [k v].
  destruct (release_recent c _ k Hc) as (c' & Hr & Hc' & Hcap); [rewrite fmap_app; set_solver|].
  exists (erase_mem c' k). unfold gc1. destruct Hc as [(_ & -> & Hnd & _) _].
  rewrite fmap_app. simpl. rewrite last_snoc. simpl. rewrite Hr. split; [done|]. split; [|done].
  by rewrite drop_key_middle, app_nil_r in Hc'.
Qed.

Lemma insert_new_recent c l k v :
  recent c l -> k ∉ l.*1 ->
  exists c', list_insert_head (set_mem (<[k := mkEntry v None None]> (mem c)) c) k = Some c' /\
    recent c' ((k, v) :: l) /\ capacity c' = capacity c.
Proof.
  intros [Hc Hv] Hk. set (c1 := set_mem _ c).
  assert (Hc1 : chain c1 l.*1).
  { destruct Hc as (Hh & Ht & Hnd & Hs). split_and!; [done..|].
    eapply dseg_ext; [|done]. intros x Hx. unfold links. simpl.
    by rewrite lookup_insert_ne by set_solver. }
  destruct (insert_head_spec c1 l.*1 k Hc1 Hk) as (c' & Hi & Hc' & Hv' & Hcap).
  { simpl. rewrite lookup_insert_eq. by eexists. }
  exists c'. split; [done|]. split; [|done]. split; [done|].
  rewrite Hv'. unfold values, c1. simpl. rewrite fmap_insert. simpl. by rewrite <- Hv.
Qed.

Lemma set_recent c l k v :
  recent c l ->
  exists c', set c k v = Some c' /\ recent c' (spec_set (capacity c) k v l) /\ capacity c' = capacity c.
Proof.
  intros Hc. unfold set, spec_set. pose proof (recent_find c l k Hc) as Hf.
  destruct (mem c !! k) as [e|] eqn:Hk; simpl in Hf; rewrite <- Hf.
  - rewrite entry_upd_spec by (by rewrite Hk). simpl. destruct Hc as [Hc Hv].
    apply (move_recent (set_mem (alter (with_value v) k (mem c)) c)).
    + destruct Hc as (Hh & Ht & Hnd & Hs). split_and!; [done..|].
      eapply dseg_ext; [|done]. intros x Hx. unfold links. simpl. rewrite lookup_alter.
      case_decide; [subst|done]. by destruct (mem c !! x).
    + apply find_in. rewrite <- Hf. by eexists.
    + rewrite <- Hv. unfold values. simpl. rewrite (alter_alt_Some _ _ _ _ Hk), fmap_insert. done.
  - assert (Hnk : k ∉ l.*1) by (by apply find_None).
    destruct (insert_new_recent c l k v Hc Hnk) as (c1 & Hi & Hc1 & Hcap).
    rewrite Hi. cbn [mbind option_bind].
    rewrite (recent_size _ _ Hc1), Hcap. cbn [length]. unfold touch. rewrite (drop_key_notin k l Hnk).
    destruct (_ <? _)%Z; [|by exists c1].
    destruct ((k, v) :: l) as [|kv l' _] eqn:Hl using rev_ind; [done|].
    rewrite removelast_last. destruct (gc1_recent c1 l' kv) as (c2 & Hg & Hc2 & Hcap2); [exact Hc1|].
    exists c2. by rewrite Hcap2.
Qed.

Lemma touch_found c l k v :
  recent c l -> find k l = Some v ->
  exists c', list_move_to_head c k = Some c' /\ recent c' (touch k v l) /\ capacity c' = capacity c.
Proof.
  intros [Hc Hv] Hf. apply move_recent; [done| |].
  - apply find_in. by eexists.
  - rewrite Hv. symmetry. by apply insert_id.
Qed.
End proofs.

Section ops.
Context {K V P : Type} `{Countable K} (deref : V -> option P).
Implicit Types (c : LRUCache K V) (l : list (K * V)).

(** One operation of the cache does what the specification says. *)
Lemma exec_recent c l o l' r :
  recent c l -> spec deref (capacity c) l o = Some (l', r) ->
  exists c', exec deref c o = Some (c', r) /\ recent c' l' /\ capacity c' = capacity c.
Proof.
  intros Hc Hs.
  assert (Hf : forall k, value <$> mem c !! k = find k l) by (intros k; by apply recent_find).
  destruct o as [k v|k|k|k|k|k|k|]; simpl in *; try specialize (Hf k).
  - destruct (set_recent c l k v Hc) as (c' & -> & Hc' & Hcap). simplify_eq/=. by exists c'.
  - unfold get. unfold spec_get in Hs. destruct (find k l) as [v|] eqn:Hk.
    + apply fmap_Some in Hf as (e & -> & _).
      destruct (touch_found c l k v Hc Hk) as (c' & -> & Hc' & Hcap). simplify_eq/=. by exists c'.
    + apply fmap_None in Hf as ->. simplify_eq/=. by exists c.
  - unfold get_copy. unfold spec_get in Hs. destruct (find k l) as [v|] eqn:Hk.
    + apply fmap_Some in Hf as (e & -> & _).
      destruct (touch_found c l k v Hc Hk) as (c' & -> & Hc' & Hcap). simplify_eq/=.
      pose proof (recent_find c' _ k Hc') as Hf'. unfold find in Hf'. rewrite map_touch, lookup_insert_eq in Hf'.
      apply fmap_Some in Hf' as (e' & -> & ->). by exists c'.
    + apply fmap_None in Hf as ->. simplify_eq/=. by exists c.
  - unfold get_move. destruct (find k l) as [v|] eqn:Hk.
    + apply fmap_Some in Hf as (e & -> & ->).
      destruct (release_recent c l k Hc) as (c' & -> & Hc' & Hcap); [apply find_in; by eexists|].
      simplify_eq/=. by exists (erase_mem c' k).
    + apply fmap_None in Hf as ->. simplify_eq/=. exists c. split; [done|]. split; [|done].
      by rewrite drop_key_notin by (by apply find_None).
  - unfold get_copy_pointee. unfold spec_get in Hs. destruct (find k l) as [v|] eqn:Hk.
    + apply fmap_Some in Hf as (e & -> & _).
      destruct (touch_found c l k v Hc Hk) as (c' & -> & Hc' & Hcap). simpl.
      pose proof (recent_find c' _ k Hc') as Hf'. unfold find in Hf'. rewrite map_touch, lookup_insert_eq in Hf'.
      apply fmap_Some in Hf' as (e' & -> & Hv'). simpl. rewrite <- Hv'.
      destruct (deref v) as [p|]; simplify_eq/=. by exists c'.
    + apply fmap_None in Hf as ->. simplify_eq/=. by exists c.
  - unfold has_key. exists c. destruct (find k l) as [v|] eqn:Hk; simplify_eq/=.
    + apply fmap_Some in Hf as (e & -> & _). by rewrite bool_decide_true by (by eexists).
    + apply fmap_None in Hf as ->. by rewrite bool_decide_false by (by intros []).
  - unfold erase. destruct (find k l) as [v|] eqn:Hk.
    + apply fmap_Some in Hf as (e & -> & ->).
      destruct (release_recent c l k Hc) as (c' & -> & Hc' & Hcap); [apply find_in; by eexists|].
      simplify_eq/=. by exists (erase_mem c' k).
    + apply fmap_None in Hf as ->. simplify_eq/=. exists c. split; [done|]. split; [|done].
      by rewrite drop_key_notin by (by apply find_None).
  - simplify_eq/=. exists (clear c). split; [done|]. split; [|done]. split; [|by unfold values; simpl; rewrite fmap_empty].
    split_and!; [done|done|apply NoDup_nil_2|done].
Qed.

Lemma construct_recent cap : recent (construct cap : LRUCache K V) [].
Proof.
  split; [|by unfold values; simpl; rewrite fmap_empty].
  split_and!; [done|done|apply NoDup_nil_2|done].
Qed.

(** The list never outgrows the capacity. *)
Lemma spec_length cap l o l' r :
  NoDup l.*1 -> (Z.of_nat (length l) <= cap)%Z -> spec deref cap l o = Some (l', r) ->
  (Z.of_nat (length l') <= cap)%Z.
Proof.
  intros Hnd Hl Hs.
  assert (Hdrop : forall k, (length (drop_key k l) <= length l)%nat).
  { intros k. unfold drop_key. apply length_filter. }
  assert (Htouch : forall k v, is_Some (find k l) -> (length (touch k v l) <= length l)%nat).
  { intros k v (l1 & w & l2 & ->)%find_in%elem_split. unfold touch. rewrite drop_key_middle by done.
    simpl. rewrite !length_app. simpl. lia. }
  destruct o as [k v|k|k|k|k|k|k|]; cbn [spec] in Hs; unfold spec_get, spec_take in Hs.
  - assert (l' = spec_set cap k v l) as -> by congruence. unfold spec_set. destruct (find k l) eqn:Hk.
    { specialize (Htouch k v ltac:(by eexists)). lia. }
    assert (length (touch k v l) = S (length l)) as Hlen.
    { unfold touch. by rewrite drop_key_notin by (by apply find_None). }
    destruct (Z.ltb_spec cap (Z.of_nat (S (length l)))); [|lia].
    destruct (touch k v l) as [|kv l2 _] using rev_ind; [done|].
    rewrite removelast_last. rewrite length_app in Hlen. simpl in Hlen. lia.
  - destruct (find k l) eqn:Hk; simplify_eq/=; [|done]. specialize (Htouch k v ltac:(by eexists)). lia.
  - destruct (find k l) eqn:Hk; simplify_eq/=; [|done]. specialize (Htouch k v ltac:(by eexists)). lia.
  - injection Hs as <- _. specialize (Hdrop k). lia.
  - destruct (find k l) eqn:Hk; simplify_eq/=; [|done]. destruct (deref v); simplify_eq/=.
    specialize (Htouch k v ltac:(by eexists)). lia.
  - by injection Hs as <- _.
  - injection Hs as <- _. specialize (Hdrop k). lia.
  - injection Hs as <- _. simpl. lia.
Qed.
End ops.

(** A sequence of operations. *)
Section sequences.
Context {K V P : Type} `{Countable K}.

Lemma ops_recent (deref : V -> option P) (os : list (op K V)) (c : LRUCache K V) l l' rs :
  recent c l -> (Z.of_nat (length l) <= capacity c)%Z ->
  spec_ops deref (capacity c) l os = Some (l', rs) ->
  exists c', exec_ops deref c os = Some (c', rs) /\ recent c' l' /\
    (Z.of_nat (length l') <= capacity c)%Z.
Proof.
  revert c l l' rs. induction os as [|o os IH]; intros c l l' rs Hc Hl Hs; simpl in Hs.
  { injection Hs as <- <-. by exists c. }
  destruct (spec deref (capacity c) l o) as [[l1 r]|] eqn:Ho; simpl in Hs; [|done].
  destruct (spec_ops deref (capacity c) l1 os) as [[l2 rs2]|] eqn:Hos; simpl in Hs; [|done].
  injection Hs as <- <-.
  destruct (exec_recent deref c l o l1 r Hc Ho) as (c1 & He & Hc1 & Hcap).
  pose proof (spec_length deref _ _ _ _ _ (recent_nodup _ _ Hc) Hl Ho) as Hl1.
  rewrite <- Hcap in Hos, Hl1. destruct (IH c1 l1 l2 rs2 Hc1 Hl1 Hos) as (c' & Hes & Hc' & Hl2).
  exists c'. simpl. rewrite He. simpl. rewrite Hes. by rewrite <- Hcap.
Qed.
End sequences.
