(* ===== verification/BlockingLRUCache.v ===== *)
(** * util/lru_cache.h: BlockingLRUCache

    Every method locks the mutex, forwards to the unsynchronised cache and
    unlocks: on the monitor machine each is one critical section. *)

From S2P Require Import Prelude DList Machine Monitor MonitorTheory LRUCache LRUCacheProofs.

Module BlockingLRUCache.
Section blocking.
Context {K V P : Type} `{Countable K} (deref : V -> option P).

(** No condition variable; the only point is the start of the section. *)
Inductive cv_name := .
Inductive point := at_start.

#[export] Instance cv_eq_dec : EqDecision cv_name.
Proof. solve_decision. Defined.

(** The members it has: [get] and [has_key] are not among them. *)
Definition offered (o : op K V) : bool :=
  match o with Get _ | HasKey _ => false | _ => true end.

Definition body_ (o : op K V) (p : point) (timedout : bool) (c : LRUCache K V)
    : option (LRUCache K V * list (notify cv_name) * exit point cv_name (ret K V P)) :=
  '(c, r) ← exec deref c o; Some (c, [], Leave [] (Return r)).

Definition the_code : code (LRUCache K V) (op K V) point cv_name (ret K V P) :=
  mkCode (fun _ c => Some (c, Blocking at_start)) body_ (fun _ _ c => Some c).

(** Any thread may call anything offered at any time. *)
Definition anyone : client (LRUCache K V) (op K V) point cv_name (ret K V P) unit :=
  mkClient (fun _ _ _ o => offered o) (fun _ _ _ h => h).

Abbreviation mstate := (state (LRUCache K V) (op K V) point cv_name (ret K V P) unit).

Definition mstep : mstate -> event (op K V) -> option mstate := step the_code anyone.

Definition mstart (cap : Z) (ts : gset tid) : mstate :=
  start (construct cap) (gset_to_gmap tt ts).

(** The calls in the order in which they own the mutex, with their results. *)
Definition effect (m : mstate) (e : event (op K V)) : option (tid * op K V * ret K V P) :=
  match e with
  | Exec t _ =>
      th ← threads m !! t;
      match at_pc th with
      | Running o p b => '(c, r) ← exec deref (shared m) o; Some (t, o, r)
      | _ => None
      end
  | _ => None
  end.

Definition history (m : mstate) (es : list (event (op K V))) : list (tid * op K V * ret K V P) :=
  labels mstep effect m es.

(** An operation that runs is one the specification allows. *)
Lemma exec_spec (c c' : LRUCache K V) l o r :
  recent c l -> exec deref c o = Some (c', r) ->
  exists l', spec deref (capacity c) l o = Some (l', r) /\ recent c' l' /\ capacity c' = capacity c.
Proof.
  intros Hc He. destruct (spec deref (capacity c) l o) as [[l' r']|] eqn:Hs.
  - destruct (exec_recent deref c l o l' r' Hc Hs) as (c1 & He1 & Hc1 & Hcap).
    rewrite He in He1. injection He1 as <- <-. by exists l'.
  - exfalso. destruct o as [k v|k|k|k|k|k|k|]; simpl in *; try done.
    + unfold spec_get in Hs. by destruct (find k l).
    + unfold spec_get in Hs. by destruct (find k l).
    + unfold get_copy_pointee in He. unfold spec_get in Hs.
      pose proof (recent_find c l k Hc) as Hf. destruct (find k l) as [v|] eqn:Hk; [|done].
      apply fmap_Some in Hf as (e & Hm & _). rewrite Hm in He.
      destruct (touch_found c l k v Hc Hk) as (c1 & Hmv & Hc1 & _). rewrite Hmv in He. simpl in He.
      pose proof (recent_find c1 _ k Hc1) as Hf1. unfold find in Hf1.
      rewrite map_touch, lookup_insert_eq in Hf1. apply fmap_Some in Hf1 as (e1 & Hm1 & Hv1).
      rewrite Hm1 in He. simpl in He. rewrite <- Hv1 in He. by destruct (deref v).
Qed.

Lemma step_linearizes m e m' l :
  recent (shared m) l -> mstep m e = Some m' ->
  match effect m e with
  | None => recent (shared m') l /\ capacity (shared m') = capacity (shared m)
  | Some (t, o, r) => exists l', spec deref (capacity (shared m)) l o = Some (l', r) /\
      recent (shared m') l' /\ capacity (shared m') = capacity (shared m)
  end.
Proof.
  intros Hc Hs. destruct e as [t o|t|t|t picks|t pick|t|t|t]; simpl in Hs |- *;
    unfold step_invoke, step_acquire, step_exec, step_notify, step_finish in Hs;
    destruct (threads m !! t) as [th|] eqn:Ht; simpl in Hs |- *; try done.
  4: { destruct (at_pc th) as [|o p r|o p r|o p b|c tm o p|ns o k]; try done. simpl in Hs.
       unfold body_ in Hs. destruct (exec deref (shared m) o) as [[c' r]|] eqn:He; [|done].
       simpl in Hs. injection Hs as <-. simpl. by eapply exec_spec. }
  all: repeat (case_match; simplify_eq/=; try done).
  destruct (deliver _ _ _); by simplify_eq/=.
Qed.

Lemma run_linearizes m es m' l :
  recent (shared m) l -> run mstep m es = Some m' ->
  exists l', spec_ops deref (capacity (shared m)) l (history m es).*1.*2 = Some (l', (history m es).*2) /\
    recent (shared m') l' /\ capacity (shared m') = capacity (shared m).
Proof.
  revert m l. induction es as [|e es IH]; intros m l Hc Hrun; simpl in Hrun.
  { injection Hrun as <-. by exists l. }
  unfold history. simpl. destruct (mstep m e) as [m1|] eqn:He; simpl in Hrun; [|done].
  pose proof (step_linearizes _ _ _ _ Hc He) as Hl. rewrite !fmap_app.
  destruct (effect m e) as [[[t o] r]|]; simpl.
  - destruct Hl as (l1 & Hs & Hc1 & Hcap1). rewrite Hs. simpl.
    destruct (IH m1 l1 Hc1 Hrun) as (l' & Hsp & Hc' & Hcap'). unfold history in Hsp.
    rewrite Hcap1 in Hsp. rewrite Hsp. simpl. exists l'. by rewrite Hcap', Hcap1.
  - destruct Hl as (Hc1 & Hcap1). destruct (IH m1 l Hc1 Hrun) as (l' & Hsp & Hc' & Hcap').
    unfold history in Hsp. rewrite Hcap1 in Hsp. exists l'. by rewrite Hcap', Hcap1.
Qed.
End blocking.
End BlockingLRUCache.
