(* ===== verification/LRUCacheKeeps.v ===== *)
(** * LRUCache: how long a key stays

    What is stored comes out again as long as fewer than [capacity] other keys
    have been used in between: a round trip on the recency list. *)

From S2P Require Import Prelude DList Machine LRUCache LRUCacheProofs BlockingLRUCache.

Section keeps.
Context {K V : Type} `{Countable K} (k : K) (v : V).
Implicit Types (l : list (K * V)) (o : op K V).

(** The operation stores nothing under [k] and does not remove it. *)
Definition keeps o : Prop :=
  match o with Set_ k' _ | GetMove k' | Erase k' => k' <> k | Clear => False | _ => True end.

(** The keys that an operation moves to the front. *)
Definition uses o : gset K :=
  match o with Set_ k' _ | Get k' | GetCopy k' | GetCopyPointee k' => {[k']} | _ => ∅ end.

Definition others_used (os : list (op K V)) : gset K := ⋃ (uses <$> os) ∖ {[k]}.

(** The pair is in the list, and what comes before it has been used. *)
Definition stays (U : gset K) l : Prop :=
  exists l1 l2, l = l1 ++ (k, v) :: l2 /\ NoDup l.*1 /\ list_to_set l1.*1 ⊆ U.

Lemma drop_key_nodup k' l : NoDup l.*1 -> NoDup (drop_key k' l).*1.
Proof. intros Hnd. eapply sublist_NoDup; [exact Hnd|]. apply fmap_sublist, sublist_filter. Qed.

Lemma drop_key_elem k' l x : x ∈ (drop_key k' l).*1 -> x ∈ l.*1 /\ x <> k'.
Proof.
  intros ([y w] & -> & Hy)%list_elem_of_fmap. unfold drop_key in Hy. apply list_elem_of_filter in Hy as [Hne Hy].
  split; [|done]. apply list_elem_of_fmap. by exists (y, w).
Qed.

Lemma touch_nodup k' w l : NoDup l.*1 -> NoDup (touch k' w l).*1.
Proof.
  intros Hnd. unfold touch. rewrite fmap_cons. apply NoDup_cons. split; [|by apply drop_key_nodup].
  intros [_ Hne]%drop_key_elem. done.
Qed.

Lemma stays_find U l : stays U l -> find k l = Some v.
Proof.
  intros (l1 & l2 & -> & Hnd & _). unfold find. apply elem_of_list_to_map_1; [done|]. set_solver.
Qed.

Lemma stays_drop U l k' : k' <> k -> stays U l -> stays U (drop_key k' l).
Proof.
  intros Hne (l1 & l2 & -> & Hnd & HU). exists (drop_key k' l1), (drop_key k' l2). split_and!.
  - unfold drop_key. by rewrite filter_app, filter_cons_True by done.
  - by apply drop_key_nodup.
  - intros x [Hx _]%elem_of_list_to_set%drop_key_elem. set_solver.
Qed.

Lemma stays_touch U l k' w : (k' = k -> w = v) -> {[k']} ∖ {[k]} ⊆ U -> stays U l -> stays U (touch k' w l).
Proof.
  intros Hw HU Hs. destruct (decide (k' = k)) as [->|Hne].
  - exists [], (drop_key k l). rewrite (Hw eq_refl). split_and!; [done| |set_solver].
    destruct Hs as (? & ? & -> & Hnd & _). by apply touch_nodup.
  - destruct (stays_drop U l k' Hne Hs) as (l1 & l2 & Hd & _ & Hl1). exists ((k', w) :: l1), l2.
    unfold touch. rewrite Hd. split_and!; [done| |set_solver]. rewrite <- Hd. fold (touch k' w l).
    destruct Hs as (? & ? & -> & Hnd & _). by apply touch_nodup.
Qed.

(** A new pair evicts it only when the others fill the cache. *)
Lemma stays_set U l cap k' w :
  k' <> k -> k' ∈ U -> k ∉ U -> (Z.of_nat (size U) < cap)%Z -> stays U l -> stays U (spec_set cap k' w l).
Proof.
  intros Hne HU HkU Hsz Hs.
  assert (stays U (touch k' w l)) as Ht by (apply stays_touch; [done|set_solver|done]).
  unfold spec_set. destruct (find k' l) eqn:Hf; [done|]. case_match eqn:Hcap; [|done].
  destruct Ht as (l1 & l2 & Htl & Hnd & Hl1). rewrite Htl in Hnd |- *.
  destruct l2 as [|kv l2 _] using rev_ind.
  - exfalso. apply Z.ltb_lt in Hcap. apply find_None in Hf. unfold touch in Htl. rewrite drop_key_notin in Htl by done.
    assert (Hlen : S (length l) = S (length l1)).
    { change (S (length l)) with (length ((k', w) :: l)). rewrite Htl, length_app. simpl. lia. }
    assert (Hl1n : size (list_to_set l1.*1 : gset K) = length l1).
    { rewrite fmap_app in Hnd. apply NoDup_app in Hnd as [Hnd _]. rewrite size_list_to_set by done. apply length_fmap. }
    pose proof (subseteq_size _ _ Hl1). lia.
  - rewrite app_comm_cons, app_assoc, removelast_last. exists l1, l2. split_and!; [done| |done].
    rewrite app_comm_cons, app_assoc, fmap_app in Hnd. by apply NoDup_app in Hnd as [Hnd _].
Qed.

(** The pair that is stored is in front. *)
Lemma stays_stored U l cap : NoDup l.*1 -> (0 < cap)%Z -> stays U (spec_set cap k v l).
Proof.
  intros Hnd Hcap. unfold spec_set. set (l' := touch k v l).
  assert (Hl' : NoDup l'.*1) by (by apply touch_nodup).
  assert (stays U l') as Ht by (exists [], (drop_key k l); split_and!; [done|done|set_solver]).
  destruct (find k l) eqn:Hf; [done|]. case_match eqn:Hc; [|done]. apply Z.ltb_lt in Hc. apply find_None in Hf.
  unfold l', touch in *. rewrite drop_key_notin in * by done.
  destruct l as [|kv l _] using rev_ind; [simpl in Hc; lia|].
  rewrite app_comm_cons, removelast_last. exists [], l. split_and!; [done| |set_solver].
  rewrite app_comm_cons, fmap_app in Hl'. by apply NoDup_app in Hl' as [Hl' _].
Qed.

Context {P : Type} (deref : V -> option P).

Lemma stays_spec U l cap o l' r :
  keeps o -> uses o ∖ {[k]} ⊆ U -> k ∉ U -> (Z.of_nat (size U) < cap)%Z ->
  stays U l -> spec deref cap l o = Some (l', r) -> stays U l'.
Proof.
  intros Hk HU HkU Hsz Hs He.
  assert (Hget : forall k', {[k']} ∖ {[k]} ⊆ U -> stays U (spec_get k' l).1).
  { intros k' Hk'. unfold spec_get. destruct (find k' l) as [w|] eqn:Hf; simpl; [|done].
    apply stays_touch; [|done|done]. intros ->. rewrite (stays_find _ _ Hs) in Hf. by injection Hf. }
  destruct o as [k' w|k'|k'|k'|k'|k'|k'|]; simpl in *.
  - injection He as <- <-. apply stays_set; [done|set_solver|done|done|done].
  - specialize (Hget k' HU). destruct (spec_get k' l). by injection He as <- <-.
  - specialize (Hget k' HU). destruct (spec_get k' l). by injection He as <- <-.
  - injection He as <- <-. by apply stays_drop.
  - specialize (Hget k' HU). destruct (spec_get k' l) as [l1 [w|]]; [|by injection He as <- <-].
    destruct (deref w); [|done]. by injection He as <- <-.
  - by injection He as <- <-.
  - injection He as <- <-. by apply stays_drop.
  - done.
Qed.

Lemma stays_ops U (c c' : LRUCache K V) l os rs :
  Forall keeps os -> ⋃ (uses <$> os) ∖ {[k]} ⊆ U -> k ∉ U -> (Z.of_nat (size U) < capacity c)%Z ->
  recent c l -> stays U l -> exec_ops deref c os = Some (c', rs) ->
  exists l', recent c' l' /\ stays U l'.
Proof.
  revert c l rs. induction os as [|o os IH]; intros c l rs Hk HU HkU Hsz Hc Hs He; simpl in He.
  { injection He as <- <-. by exists l. }
  apply Forall_cons in Hk as [Hk Hks]. rewrite fmap_cons, union_list_cons in HU.
  destruct (exec deref c o) as [[c1 r]|] eqn:Ho; simpl in He; [|done].
  destruct (exec_ops deref c1 os) as [[c2 rs2]|] eqn:Hos; simpl in He; [|done]. injection He as <- <-.
  destruct (BlockingLRUCache.exec_spec deref c c1 l o r Hc Ho) as (l1 & Hsp & Hc1 & Hcap).
  apply (IH c1 l1 rs2); [done|set_solver|done|by rewrite Hcap|done| |done].
  eapply stays_spec; [exact Hk|set_solver|done|exact Hsz|done|exact Hsp].
Qed.
End keeps.
