(* ===== verification/LRUCacheProps.v ===== *)
(** * LRUCache and BlockingLRUCache: the properties *)

From S2P Require Import Prelude DList Machine Monitor MonitorTheory.
From S2P Require Import LRUCache LRUCacheProofs BlockingLRUCache LRUCacheKeeps.

(** C7: LRUCache is a bounded recency list. Any sequence of operations on a
    new cache that the specification allows (every stored pointer that is
    dereferenced is non-null) runs without dereferencing a null or dangling
    link or failing the assertion of [gc1], returns what the specification
    returns, leaves the chain of entries equal to the list of pairs, most
    recently used first, and never holds more pairs than its capacity. *)
Theorem lru_refines {K V P} `{Countable K} (deref : V -> option P) cap (os : list (op K V)) l rs :
  spec_ops deref (uint_of cap) [] os = Some (l, rs) ->
  exists c, exec_ops deref (construct cap) os = Some (c, rs) /\ recent c l /\
    (Z.of_nat (size (mem c)) <= uint_of cap)%Z.
Proof.
  intros Hs. assert (0 <= uint_of cap)%Z by (apply wrap_u_range; lia).
  destruct (ops_recent deref os (construct cap) [] l rs) as (c & He & Hc & Hl);
    [apply construct_recent|done|done|].
  exists c. rewrite (recent_size _ _ Hc). done.
Qed.

(** Eviction. Storing a new key in a full cache forgets exactly the least
    recently used pair; every other pair keeps its value. *)
Theorem lru_evicts_oldest {K V} `{Countable K} (c : LRUCache K V) l k v k' v' :
  recent c (l ++ [(k', v')]) -> capacity c = Z.of_nat (S (length l)) -> mem c !! k = None ->
  exists c', set c k v = Some c' /\ values c' = <[k := v]> (delete k' (values c)) /\
    recent c' ((k, v) :: l).
Proof.
  intros Hc Hcap Hk. destruct (set_recent c _ k v Hc) as (c' & Hs & Hc' & _).
  pose proof (recent_find c _ k Hc) as Hf. rewrite Hk in Hf. symmetry in Hf. simpl in Hf.
  unfold spec_set in Hc'. rewrite Hf in Hc'. apply find_None in Hf.
  unfold touch in Hc'. rewrite drop_key_notin in Hc' by done.
  rewrite length_app, Hcap in Hc'.
  destruct (Z.ltb_spec (Z.of_nat (S (length l))) (Z.of_nat (S (length l + length [(k', v')]))));
    [|simpl in *; lia].
  change ((k, v) :: l ++ [(k', v')]) with (((k, v) :: l) ++ [(k', v')]) in Hc'.
  rewrite removelast_last in Hc'. exists c'. split; [done|]. split; [|done].
  destruct Hc' as [_ ->]. simpl. f_equal. pose proof (recent_nodup _ _ Hc) as Hnd.
  destruct Hc as [_ ->]. rewrite <- map_drop_key, drop_key_middle by done. by rewrite app_nil_r.
Qed.

(** C30: what is stored comes out again. After [set(k, v)] on any cache, a
    [get_copy(k)] returns [v] whatever operations come between, as long as they
    do not store, move out or erase [k] or clear the cache, and use fewer other
    keys than the cache has room for: no use of the links can make the cache
    forget a pair early. *)
Theorem lru_keeps {K V P} `{Countable K} (deref : V -> option P) (c : LRUCache K V) l k v os c' rs :
  recent c l -> Forall (keeps k) os -> (Z.of_nat (size (others_used k os)) < capacity c)%Z ->
  exec_ops deref c (Set_ k v :: os) = Some (c', rs) ->
  exists c'', exec deref c' (GetCopy k) = Some (c'', RVal (Some v)).
Proof.
  intros Hc Hk Hsz He. simpl in He. destruct (set_recent c l k v Hc) as (c1 & Hs & Hc1 & Hcap).
  rewrite Hs in He. simpl in He. destruct (exec_ops deref c1 os) as [[c2 rs2]|] eqn:Hos; simpl in He; [|done].
  injection He as <- <-.
  assert (stays k v (others_used k os) (spec_set (capacity c) k v l)) as Hst.
  { apply stays_stored; [by eapply recent_nodup|lia]. }
  destruct (stays_ops k v deref (others_used k os) c1 c2 (spec_set (capacity c) k v l) os rs2 Hk) as (l2 & Hc2 & Hst2);
    [done|unfold others_used; set_solver|by rewrite Hcap|done|done|done|].
  pose proof (stays_find _ _ _ _ Hst2) as Hf.
  destruct (exec_recent deref c2 l2 (GetCopy k) (touch k v l2) (RVal (Some v)) Hc2) as (c3 & He3 & _).
  { simpl. unfold spec_get. by rewrite Hf. }
  by exists c3.
Qed.

(** The capacity is truncated. The constructor stores its [size_t] in a
    [uint32_t]: a cache constructed with capacity 2^32 has capacity 0, and
    what is stored in it is gone. *)
Theorem lru_capacity_truncated :
  exists c, exec_ops (fun v : nat => Some v) (construct (2 ^ 32) : LRUCache nat nat)
      [Set_ 1 10; GetCopy 1] = Some (c, [RVoid; RVal None]) /\ capacity c = 0%Z.
Proof. eexists. split; [vm_compute; reflexivity|]. by vm_compute. Qed.

(** BlockingLRUCache over the mutex of [Monitor] is linearizable. In every interleaving of calls by
    any threads, the calls in the order in which they own the mutex, with
    their results, are a sequential execution of the recency-list
    specification, and the cache ends in the state that execution leaves. *)
Theorem blocking_linearizable {K V P} `{Countable K} (deref : V -> option P) cap ts es m :
  run (BlockingLRUCache.mstep deref) (BlockingLRUCache.mstart cap ts) es = Some m ->
  exists l,
    spec_ops deref (uint_of cap) []
      (BlockingLRUCache.history deref (BlockingLRUCache.mstart (K:=K) (V:=V) cap ts) es).*1.*2
    = Some (l, (BlockingLRUCache.history deref (BlockingLRUCache.mstart cap ts) es).*2) /\
    recent (shared m) l /\ (Z.of_nat (size (mem (shared m))) <= uint_of cap)%Z.
Proof.
  intros Hrun. pose proof (construct_recent (K := K) (V := V) cap) as Hc.
  destruct (BlockingLRUCache.run_linearizes deref (BlockingLRUCache.mstart cap ts) es m [] Hc Hrun)
    as (l & Hs & Hl & Hcap).
  exists l. split; [exact Hs|]. split; [done|]. rewrite (recent_size _ _ Hl).
  assert (0 <= uint_of cap)%Z by (apply wrap_u_range; lia).
  destruct (ops_recent deref (BlockingLRUCache.history deref (BlockingLRUCache.mstart cap ts) es).*1.*2
    (construct cap) [] l _ Hc ltac:(done) Hs) as (c & _ & _ & Hlen). done.
Qed.

(** ** Concrete executions *)

(** Capacity 2: 1 is used again, so storing 3 evicts 2. *)
Definition use_one : list (op nat nat) :=
  [Set_ 1 10; Set_ 2 20; GetCopy 1; Set_ 3 30; HasKey 2; Get 1; GetMove 3; Erase 3].

Definition results : list (ret nat nat nat) :=
  [RVoid; RVoid; RVal (Some 10); RVoid; RBool false; RPtr (Some 1); RVal (Some 30); RBool false].

Lemma lru_refines_witness : exists c,
  exec_ops (fun v : nat => Some v) (construct 2) use_one = Some (c, results) /\ recent c [(1, 10)].
Proof.
  assert (spec_ops (fun v : nat => Some v) (uint_of 2) [] use_one = Some ([(1, 10)], results)) as Hs
    by (vm_compute; reflexivity).
  destruct (lru_refines (fun v : nat => Some v) 2 use_one [(1, 10)] results Hs) as (c & He & Hc & _).
  exists c. split; [exact He|exact Hc].
Defined.

(** A full cache: 2 was stored after 1. *)
Definition full : LRUCache nat nat :=
  mkCache {[ 1 := mkEntry 10 (Some 2) None; 2 := mkEntry 20 None (Some 1) ]} 2 (Some 2) (Some 1).

Lemma full_recent : recent full ([(2, 20)] ++ [(1, 10)]).
Proof.
  split; [|vm_compute; reflexivity]. split; [vm_compute; reflexivity|]. split; [vm_compute; reflexivity|].
  split; [|by vm_compute].
  apply (bool_decide_eq_true_1 _). vm_compute. reflexivity.
Qed.

Lemma lru_evicts_oldest_witness : exists c',
  recent full ([(2, 20)] ++ [(1, 10)]) /\ set full 3 30 = Some c' /\ recent c' [(3, 30); (2, 20)].
Proof.
  destruct (lru_evicts_oldest full [(2, 20)] 3 30 1 10 full_recent) as (c' & Hs & _ & Hc');
    [reflexivity|vm_compute; reflexivity|].
  exists c'. split; [exact full_recent|]. split; [exact Hs|exact Hc'].
Defined.

(** The full cache stores 3, then uses one other key often. *)
Definition between : list (op nat nat) := [Set_ 4 40; Get 4; GetCopy 4; Erase 4; HasKey 3; Set_ 4 41; Get 3].

Lemma lru_keeps_witness : exists c' rs c'',
  recent full ([(2, 20)] ++ [(1, 10)]) /\
  exec_ops (fun v : nat => Some v) full (Set_ 3 30 :: between) = Some (c', rs) /\
  exec (fun v : nat => Some v) c' (GetCopy 3) = Some (c'', RVal (Some 30)).
Proof.
  destruct (evaluate (fun _ => True) (exec_ops (fun v : nat => Some v) full (Set_ 3 30 :: between)))
    as ([c' rs] & Hrun & _); [vm_compute; reflexivity|].
  destruct (lru_keeps (fun v : nat => Some v) full _ 3 30 between c' rs full_recent) as (c'' & Hg).
  - repeat constructor; simpl; lia.
  - vm_compute. reflexivity.
  - exact Hrun.
  - exists c', rs, c''. split; [exact full_recent|]. split; [exact Hrun|exact Hg].
Defined.

(** Two threads store and read through the same mutex. *)
Definition two_threads : list (event (op nat nat)) :=
  [Invoke 0 (Set_ 1 10); Invoke 1 (GetCopy 1); Acquire 1; Exec 1 []; Acquire 0; Exec 0 [];
   Finish 1; Finish 0].

Lemma blocking_linearizable_witness : exists m l,
  run (BlockingLRUCache.mstep (fun v : nat => Some v)) (BlockingLRUCache.mstart 2 {[0; 1]}) two_threads = Some m /\
  spec_ops (fun v : nat => Some v) (uint_of 2) [] [GetCopy 1; Set_ 1 10] = Some (l, [RVal None; RVoid]) /\
  recent (shared m) l.
Proof.
  assert (BlockingLRUCache.history (fun v : nat => Some v) (BlockingLRUCache.mstart 2 {[0; 1]}) two_threads
    = [(1, GetCopy 1, RVal None); (0, Set_ 1 10, RVoid)]) as Hh by (vm_compute; reflexivity).
  destruct (evaluate (fun _ => True) (run (BlockingLRUCache.mstep (fun v : nat => Some v))
    (BlockingLRUCache.mstart 2 {[0; 1]}) two_threads)) as (m & Hrun & _); [vm_compute; reflexivity|].
  destruct (blocking_linearizable (fun v : nat => Some v) 2 {[0; 1]} two_threads m Hrun) as (l & Hs & Hl & _).
  rewrite Hh in Hs. exists m, l. split; [exact Hrun|]. split; [exact Hs|exact Hl].
Defined.
