(* ===== verification/Latch.v ===== *)
(** * concurrency/latch.h: Latch

    The counter is an atomic that [count_down] changes without the mutex, so
    the interleavings that matter are finer than critical sections: a thread
    can count down between the predicate of [cv.wait] and the moment the
    waiter blocks.  The class therefore has a machine of its own, one event
    per access to shared state, on the memory of [Atomics]: a load of the
    counter can return an old value, and the mutex hands the view of each
    owner to the next.  Accesses to ordinary data are events too, so that what
    [wait] promises about them can be stated. *)

From S2P Require Import Prelude Machine Atomics.

Module Latch.
Local Open Scope Z_scope.

Inductive op := count_down_and_wait | count_down (n : Z) | is_ready | wait.

(** What the last call of a thread returned. *)
Inductive result := Counted | Ready (b : bool) | Waited.

(** The next action of a thread.  [w] says that the [count_down] is the one
    inside [count_down_and_wait], which goes on to [wait]. *)
Inductive pc :=
| Idle (last : option result)
| CdwSub              (** [count_down_and_wait]: counter seen positive; [fetch_sub(1)] next *)
| SyncLock (w : bool) (** [count_down]: [unique_lock lock(mtx)] *)
| SyncUnlock (w : bool)
| SyncNotify (w : bool)
| WaitLoad            (** [wait]: first load *)
| WaitLock
| WaitCheck           (** second load, under the lock *)
| WaitPred            (** the predicate of [cv.wait] *)
| WaitBlock           (** predicate false: unlock and block *)
| Asleep
| WaitRelock.         (** woken: lock again *)

#[export] Instance result_eq_dec : EqDecision result.
Proof. solve_decision. Defined.
#[export] Instance pc_eq_dec : EqDecision pc.
Proof. solve_decision. Defined.

(** [counter] is the member [value]; [released] is the view of the last owner
    of [mtx]; [arrived], for specification, what the threads had seen that
    counted down while the latch was closed. *)
Record state := mkState {
  counter : list (message Z);
  clock : nat;
  owner : option tid;
  released : view;
  arrived : view;
  threads : gmap tid (thread pc);
}.

Definition latest (m : state) : Z := default 0 (value <$> list.last (counter m)).

(** [std::ptrdiff_t] has 64 bits; [fetch_sub] wraps. *)
Definition PTRDIFF_MIN : Z := - 2 ^ 63.
Definition fetch_sub (n v : Z) : Z := wrap_s 64 (v - n).

(** The test of [count_down] on the old value. *)
Definition crosses (v n : Z) : bool := (0 <? v) && (v <=? n).

Definition after_count (w : bool) : pc := if w then WaitLoad else Idle (Some Counted).

Definition go (m : state) (t : tid) (p : pc) (V : view) : state :=
  mkState (counter m) (clock m) (owner m) (released m) (arrived m) (<[t := mkThread p V]> (threads m)).

(** [count_down(n)] up to the lock. *)
Definition do_count_down (m : state) (t : tid) (th : thread pc) (i : nat) (n : Z) (w : bool) : option state :=
  '(v, h, V) ← rmw acq_rel (fetch_sub n) (counter m) i (clock m) (seen th);
  Some (mkState h (S (clock m)) (owner m) (released m)
    (if 0 <? v then arrived m ∪ seen th else arrived m)
    (<[t := mkThread (if crosses v n then SyncLock w else after_count w) V]> (threads m))).

(** [value.load(acquire) <= 0], and what follows. *)
Definition check (m : state) (t : tid) (th : thread pc) (i : nat) (next : bool -> view -> state) : option state :=
  '(v, V) ← load acquire (counter m) i (seen th);
  Some (next (v <=? 0) V).

(** Locking [mtx] is possible when it is free. *)
Definition lock_then (m : state) (t : tid) (th : thread pc) (p : pc) : option state :=
  match owner m with
  | Some _ => None
  | None => Some (mkState (counter m) (clock m) (Some t) (released m) (arrived m)
      (<[t := mkThread p (released m ∪ seen th)]> (threads m)))
  end.

Definition unlock_then (m : state) (t : tid) (p : pc) (V : view) : state :=
  mkState (counter m) (clock m) None V (arrived m) (<[t := mkThread p V]> (threads m)).

Definition wake (th : thread pc) : thread pc :=
  mkThread (match at_pc th with Asleep => WaitRelock | p => p end) (seen th).

(** A call with its first access, at [i]. *)
Definition call (m : state) (t : tid) (th : thread pc) (o : op) (i : nat) : option state :=
  match o with
  | count_down_and_wait => check m t th i (fun b => go m t (if b then Idle (Some Waited) else CdwSub))
  | count_down n => do_count_down m t th i n false
  | is_ready => check m t th i (fun b => go m t (Idle (Some (Ready b))))
  | wait => Some (go m t WaitLoad (seen th))
  end.

Definition act (m : state) (t : tid) (th : thread pc) (i : nat) : option state :=
  match at_pc th with
  | Idle _ | Asleep => None
  | CdwSub => do_count_down m t th i 1 true
  | SyncLock w => lock_then m t th (SyncUnlock w)
  | SyncUnlock w => Some (unlock_then m t (SyncNotify w) (seen th))
  | SyncNotify w =>
      Some (mkState (counter m) (clock m) (owner m) (released m) (arrived m)
        (<[t := mkThread (after_count w) (seen th)]> (wake <$> threads m)))
  | WaitLoad => check m t th i (fun b => go m t (if b then Idle (Some Waited) else WaitLock))
  | WaitLock => lock_then m t th WaitCheck
  | WaitCheck =>
      check m t th i (fun b V => if b then unlock_then m t (Idle (Some Waited)) V else go m t WaitPred V)
  | WaitPred =>
      check m t th i (fun b V => if b then unlock_then m t (Idle (Some Waited)) V else go m t WaitBlock V)
  | WaitBlock => Some (unlock_then m t Asleep (seen th))
  | WaitRelock => lock_then m t th WaitPred
  end.

Inductive event :=
| Call (t : tid) (o : op) (i : nat)
| Act (t : tid) (i : nat)
| Spurious (t : tid)
| Access (t : tid).                (** a thread outside accesses ordinary data *)

(** The callers count down by a non-negative number and do not run the
    counter to the end of its 64 bits: they leave room for one more decrement
    of each thread, which may be inside [count_down_and_wait]. *)
Definition may_call (m : state) (o : op) : bool :=
  match o with
  | count_down n => (0 <=? n) && (PTRDIFF_MIN + Z.of_nat (size (threads m)) <=? latest m - n)
  | _ => true
  end.

Definition idle (p : pc) : bool := match p with Idle _ => true | _ => false end.

Definition step (m : state) (e : event) : option state :=
  match e with
  | Call t o i => th ← threads m !! t; if idle (at_pc th) && may_call m o then call m t th o i else None
  | Act t i => th ← threads m !! t; act m t th i
  | Spurious t =>
      th ← threads m !! t;
      if decide (at_pc th = Asleep) then Some (go m t WaitRelock (seen th)) else None
  | Access t =>
      th ← threads m !! t;
      if idle (at_pc th) then
        Some (mkState (counter m) (S (clock m)) (owner m) (released m) (arrived m)
          (<[t := touch (clock m) th]> (threads m)))
      else None
  end.

(** The constructor, which everybody has seen, and [ts] idle threads. *)
Definition start (v : Z) (ts : gset tid) : state :=
  mkState (initial v) 1 None {[0%nat]} ∅ (gset_to_gmap (mkThread (Idle None) {[0%nat]}) ts).
End Latch.
