(* ===== verification/LatchProofs.v ===== *)
(** * Latch: correctness

    The invariant behind the empty critical section of [count_down]: a thread
    that is asleep, or about to block, either may have to wait or will still
    be reached by the thread that opened the latch, although it may have read
    an old value of the counter; and behind its memory orders: whoever reads
    that the latch is open takes over what the arrivals had seen. *)

From S2P Require Import Prelude Machine Atomics Latch.

Import Latch.
Local Open Scope Z_scope.

(** ** The history of the counter *)

(** A view that includes a message of the open latch. *)
Definition aware (h : list (message Z)) (V : view) : bool :=
  existsb (fun x => (value x <=? 0) && bool_decide (ident x ∈ V)) h.

Lemma aware_spec h V : aware h V = true <-> exists x, x ∈ h /\ value x <= 0 /\ ident x ∈ V.
Proof.
  unfold aware. rewrite existsb_exists. split; intros (x & Hx & Hv).
  - apply andb_prop in Hv as [Hv%Z.leb_le Hi%(bool_decide_eq_true_1 _)]. exists x. by rewrite list_elem_of_In.
  - exists x. rewrite <- list_elem_of_In, (proj2 (Z.leb_le _ _)), bool_decide_eq_true_2 by naive_solver. by split.
Qed.

Lemma aware_mono h h' V V' : h ⊆ h' -> V ⊆ V' -> aware h V = true -> aware h' V' = true.
Proof. rewrite !aware_spec. intros Hh HV (x & Hx & Hv & Hi). exists x. split_and!; [by apply Hh|done|by apply HV]. Qed.

Definition antitone (h : list (message Z)) : Prop :=
  forall i j x y, (i <= j)%nat -> h !! i = Some x -> h !! j = Some y -> value y <= value x.

(** Once the latch is open, each message carries what the arrivals had seen. *)
Record history (h : list (message Z)) (v : Z) (arrived : view) : Prop := {
  hi_chained : chained h;
  hi_antitone : antitone h;
  hi_last : exists z, last h = Some z /\ value z = v /\ arrived ⊆ carries z;
  hi_open : forall x, x ∈ h -> value x <= 0 -> arrived ⊆ carries x;
}.

Lemma history_latest h v a x : history h v a -> x ∈ h -> v <= value x.
Proof.
  intros [_ Ha (z & Hz & <- & _) _] [i Hi]%list_elem_of_lookup. rewrite last_lookup in Hz.
  apply (Ha i (pred (length h)) x z); [|done|done]. apply lookup_lt_Some in Hi. lia.
Qed.

Lemma history_aware h v a V : history h v a -> aware h V = true -> v <= 0.
Proof. intros Hh (x & Hx & Hv & _)%aware_spec. pose proof (history_latest _ _ _ _ Hh Hx). lia. Qed.

(** A load by a thread that knows of the open latch says so. *)
Lemma load_aware o h v a i V r V' :
  history h v a -> load o h i V = Some (r, V') -> aware h V = true -> r <= 0.
Proof.
  intros Hh (x & Hx & Hun & -> & _)%load_spec (y & [j Hj]%list_elem_of_lookup & Hy & Hyi)%aware_spec.
  pose proof (unseen_drop _ _ _ _ _ Hun Hj Hyi). pose proof (hi_antitone _ _ _ Hh j i y x ltac:(lia) Hj Hx). lia.
Qed.

(** One that returns so makes its thread know. *)
Lemma load_opens h v a i V r V' :
  history h v a -> load acquire h i V = Some (r, V') ->
  V ⊆ V' /\ (r <= 0 -> aware h V' = true /\ a ⊆ V').
Proof.
  intros Hh (x & Hx & _ & -> & ->)%load_spec. split; [apply learn_sub|]. intros Hr.
  apply list_elem_of_lookup_2 in Hx. split.
  - apply aware_spec. exists x. split_and!; [done|done|apply learn_ident].
  - pose proof (hi_open _ _ _ Hh _ Hx Hr). pose proof (learn_carries acquire x V eq_refl). set_solver.
Qed.

(** A decrement that does not wrap. *)
Lemma history_sub h v a i k V n r h' V' :
  history h v a -> 0 <= n -> fetch_sub n v = v - n -> rmw acq_rel (fetch_sub n) h i k V = Some (r, h', V') ->
  r = v /\ V ⊆ V' /\ h ⊆ h' /\ history h' (v - n) (if 0 <? v then a ∪ V else a) /\
  default 0 (value <$> last h') = v - n /\ (v - n <= 0 -> aware h' V' = true).
Proof.
  intros [Hc Ha (z & Hz & <- & Hcz) Ho] Hn Hfs Hr.
  destruct (chained_rmw _ _ _ _ _ _ _ _ _ Hc Hr) as (x & Hx & _ & -> & HV & -> & Hc').
  rewrite Hz in Hx. injection Hx as <-. rewrite Hfs in *. simpl in *.
  assert (HsV : V ⊆ V') by (rewrite HV; pose proof (learn_sub acq_rel z V); set_solver).
  assert (Hnew : (if 0 <? value z then a ∪ V else a) ⊆ carries z ∪ V') by (case_match; set_solver).
  assert (Hall : forall x, x ∈ h -> value z <= value x).
  { intros x. apply (history_latest h (value z) a). split; [done|done|by exists z|done]. }
  split; [done|]. split; [done|]. split; [set_solver|]. split; [split; [done| | |]|].
  - intros i' j' x y Hij [Hi|[Hi Hx]]%lookup_app_Some [Hj|[Hj Hy]]%lookup_app_Some.
    + by eapply Ha.
    + apply list_lookup_singleton_Some in Hy as [_ <-]. simpl.
      pose proof (Hall x (list_elem_of_lookup_2 _ _ _ Hi)). lia.
    + apply lookup_lt_Some in Hj. lia.
    + apply list_lookup_singleton_Some in Hx as [_ <-]. by apply list_lookup_singleton_Some in Hy as [_ <-].
  - eexists. by rewrite last_snoc.
  - intros x [Hx|Hx%list_elem_of_singleton]%elem_of_app Hv; [|by subst x].
    specialize (Hall x Hx). rewrite (proj2 (Z.ltb_ge 0 (value z))) by lia. by apply Ho.
  - rewrite last_snoc. split; [done|]. intros Hv. apply aware_spec. eexists.
    split; [apply elem_of_app; right; by apply list_elem_of_singleton|]. simpl. split; [done|]. rewrite HV. set_solver.
Qed.

(** ** The invariant *)

(** The program points at which a thread owns the mutex. *)
Definition owns (p : pc) : bool :=
  match p with SyncUnlock _ | WaitCheck | WaitPred | WaitBlock => true | _ => false end.

(** A thread that opened the latch and has not notified yet; not unlocked;
    not locked. *)
Definition signaller (p : pc) : bool :=
  match p with SyncLock _ | SyncUnlock _ | SyncNotify _ => true | _ => false end.
Definition opener (p : pc) : bool := match p with SyncLock _ | SyncUnlock _ => true | _ => false end.
Definition syncing (p : pc) : bool := match p with SyncLock _ => true | _ => false end.

Definition someone (f : pc -> bool) (ths : gmap tid (thread pc)) : Prop :=
  exists t th, ths !! t = Some th /\ f (at_pc th) = true.

(** The decrement by [count_down_and_wait] that a thread may still make
    without having read that the latch is open. *)
Definition reserve (h : list (message Z)) (th : thread pc) : Z :=
  match at_pc th with CdwSub => 1 | _ => if aware h (seen th) then 0 else 1 end.

(** The owner that opens the latch publishes it with the mutex. *)
Definition published (m : state) : bool := aware (counter m) (released m).

(** What a point of a thread says about the rest of the state. *)
Definition point_ok (m : state) (th : thread pc) : Prop :=
  match at_pc th with
  | Asleep => 0 < latest m \/ someone signaller (threads m)
  | WaitBlock => 0 < latest m \/ someone syncing (threads m)
  | Idle (Some Waited) => aware (counter m) (seen th) = true /\ arrived m ⊆ seen th
  | SyncLock _ | SyncUnlock _ => aware (counter m) (seen th) = true
  | SyncNotify _ => aware (counter m) (seen th) = true /\ published m = true
  | _ => True
  end.

Record inv (m : state) : Prop := {
  inv_history : history (counter m) (latest m) (arrived m);
  inv_owner : forall t th, threads m !! t = Some th -> owns (at_pc th) = true ->
    owner m = Some t /\ released m ⊆ seen th;
  inv_owned : forall t, owner m = Some t -> exists th, threads m !! t = Some th /\ owns (at_pc th) = true;
  inv_open : latest m <= 0 -> published m = true \/ someone opener (threads m);
  inv_point : forall t th, threads m !! t = Some th -> point_ok m th;
  inv_range : PTRDIFF_MIN + sumz (reserve (counter m)) (threads m) <= latest m <= 2 ^ 63 - 1;
  inv_size : Z.of_nat (size (threads m)) < 2 ^ 62;
}.

Lemma reserve_range h th : 0 <= reserve h th <= 1.
Proof. unfold reserve. repeat case_match; lia. Qed.

Lemma reserve_bound h (ths : gmap tid (thread pc)) : 0 <= sumz (reserve h) ths <= Z.of_nat (size ths).
Proof.
  rewrite <- (Z.mul_1_l (Z.of_nat _)). split.
  - apply sumz_nonneg. intros t th _. apply reserve_range.
  - apply sumz_le_size. intros t th _. apply reserve_range.
Qed.

Lemma reserve_mono h h' p V V' : h ⊆ h' -> V ⊆ V' -> reserve h' (mkThread p V') <= reserve h (mkThread p V).
Proof.
  intros Hh HV. unfold reserve. simpl. destruct (aware h V) eqn:E.
  - by rewrite (aware_mono _ _ _ _ Hh HV E).
  - repeat case_match; lia.
Qed.

(** Witnesses of [someone] elsewhere survive a move of [t]. *)
Lemma someone_insert f (ths : gmap tid (thread pc)) t th th' :
  ths !! t = Some th -> (f (at_pc th) = true -> f (at_pc th') = true) ->
  someone f ths -> someone f (<[t := th']> ths).
Proof.
  intros Ht Hf (u & q & Hu & Hq). destruct (decide (u = t)) as [->|Hne].
  - exists t, th'. rewrite lookup_insert_eq. split; [done|]. apply Hf. congruence.
  - exists u, q. by rewrite lookup_insert_ne.
Qed.

Lemma someone_here f (ths : gmap tid (thread pc)) t th : f (at_pc th) = true -> someone f (<[t := th]> ths).
Proof. intros Hp. exists t, th. by rewrite lookup_insert_eq. Qed.

Lemma size_move (ths : gmap tid (thread pc)) t th th' : ths !! t = Some th -> size (<[t := th']> ths) = size ths.
Proof. intros Ht. apply map_size_insert_Some. by eexists. Qed.

Lemma dom_move (ths : gmap tid (thread pc)) t th th' : ths !! t = Some th -> dom ths = dom (<[t := th']> ths).
Proof. intros Ht. rewrite dom_insert_L. apply elem_of_dom_2 in Ht. set_solver. Qed.

(** What a point says survives the progress of the others. *)
Lemma point_ok_mono m m' th :
  inv m -> counter m ⊆ counter m' -> released m ⊆ released m' ->
  (0 < latest m -> 0 < latest m' \/ someone syncing (threads m')) ->
  (latest m <= 0 -> arrived m' = arrived m) ->
  (someone signaller (threads m) -> someone signaller (threads m')) ->
  (at_pc th = WaitBlock -> someone syncing (threads m) -> someone syncing (threads m')) ->
  point_ok m th -> point_ok m' th.
Proof.
  intros Hinv Hc Hr Hv Ha Hs Hy. assert (someone syncing (threads m') -> someone signaller (threads m')).
  { intros (u & q & Hu & Hq). exists u, q. split; [done|]. by destruct (at_pc q). }
  assert (Haw : forall V, aware (counter m) V = true -> aware (counter m') V = true).
  { intros V. by apply aware_mono. }
  assert (Hpub : published m = true -> published m' = true) by (by apply aware_mono).
  pose proof (history_aware _ _ _ (seen th) (inv_history _ Hinv)) as Hop.
  unfold point_ok. destruct (at_pc th) as [[[| |]|]| | | | | | | | | | |]; try done; try (by apply Haw).
  - intros [Hw Hd]. rewrite Ha by auto. auto.
  - intros [Hw Hp]. auto.
  - intros [Hp|Hp]; [auto|]. right. by apply Hy.
  - intros [Hp|Hp]; [|auto]. destruct (Hv Hp); auto.
Qed.

(** ** Preservation

    The owner of the mutex after a move of [t] from [p] to [p'], and the view
    that the mutex then has. *)
Definition owner_after (m : state) (t : tid) (p p' : pc) : option tid :=
  if owns p' then Some t else if owns p then None else owner m.
Definition released_after (m : state) (p p' : pc) (V : view) : view :=
  if owns p && negb (owns p') then V else released m.

(** A move of [t] that leaves the counter alone. *)
Definition moved (m : state) (t : tid) (th : thread pc) (p : pc) (V : view) (k : nat) : state :=
  mkState (counter m) k (owner_after m t (at_pc th) p) (released_after m (at_pc th) p V) (arrived m)
    (<[t := mkThread p V]> (threads m)).

Lemma released_grows m t th p V :
  inv m -> threads m !! t = Some th -> seen th ⊆ V -> released m ⊆ released_after m (at_pc th) p V.
Proof.
  intros Hinv Ht HV. unfold released_after. destruct (owns (at_pc th)) eqn:E; [|done].
  pose proof (proj2 (inv_owner _ Hinv _ _ Ht E)). destruct (owns p); simpl; [done|set_solver].
Qed.

(** While [t] moves, the other owner keeps the mutex. *)
Lemma move_owner m t th p V k :
  inv m -> threads m !! t = Some th -> seen th ⊆ V ->
  (owns p = true -> owns (at_pc th) = true \/ owner m = None /\ released m ⊆ V) ->
  let m' := moved m t th p V k in
  (forall u thu, threads m' !! u = Some thu -> owns (at_pc thu) = true -> owner m' = Some u /\ released m' ⊆ seen thu) /\
  (forall u, owner m' = Some u -> exists thu, threads m' !! u = Some thu /\ owns (at_pc thu) = true).
Proof.
  intros Hinv Ht HV Hlock. unfold moved, owner_after, released_after. simpl. split.
  - intros u thu [[<- <-]|[Hne Hu]]%lookup_insert_Some Hw; simpl in *.
    + rewrite Hw, andb_false_r. split; [done|]. destruct (Hlock Hw) as [Hp|[_ Hr]]; [|done].
      pose proof (proj2 (inv_owner _ Hinv _ _ Ht Hp)). set_solver.
    + destruct (inv_owner _ Hinv _ _ Hu Hw) as [Ho Hr].
      assert (owns (at_pc th) = false) as Hp.
      { destruct (owns (at_pc th)) eqn:E; [|done]. destruct (inv_owner _ Hinv _ _ Ht E). congruence. }
      rewrite Hp in *. destruct (owns p); [|done]. destruct (Hlock eq_refl) as [|[? _]]; congruence.
  - intros u. destruct (owns p) eqn:E.
    { intros [= <-]. exists (mkThread p V). by rewrite lookup_insert_eq. }
    destruct (owns (at_pc th)) eqn:E'; [done|]. intros (thu & Hu & Hw)%(inv_owned _ Hinv).
    exists thu. rewrite lookup_insert_ne; [done|]. congruence.
Qed.

Lemma reserve_move h th p V :
  seen th ⊆ V -> (p = CdwSub -> aware h (seen th) = false) -> reserve h (mkThread p V) <= reserve h th.
Proof.
  intros HV Hcd. pose proof (aware_mono h h (seen th) V ltac:(done) HV) as Hm.
  unfold reserve. simpl. destruct (decide (p = CdwSub)) as [->|Hne].
  - rewrite (Hcd eq_refl). by destruct (at_pc th).
  - assert (match p with CdwSub => 1 | _ => if aware h V then 0 else 1 end = if aware h V then 0 else 1) as ->
      by (by destruct p).
    destruct (aware h (seen th)); [rewrite Hm by done|]; repeat case_match; lia.
Qed.

Lemma move_inv m t th p V k :
  inv m -> threads m !! t = Some th -> seen th ⊆ V ->
  (signaller (at_pc th) = true -> signaller p = true) ->
  (opener (at_pc th) = true -> opener p = true \/ aware (counter m) V = true /\ owns (at_pc th) = true /\ owns p = false) ->
  (syncing (at_pc th) = true -> owner m = None) ->
  (p = CdwSub -> aware (counter m) (seen th) = false) ->
  (owns p = true -> owns (at_pc th) = true \/ owner m = None /\ released m ⊆ V) ->
  point_ok (moved m t th p V k) (mkThread p V) ->
  inv (moved m t th p V k).
Proof.
  intros Hinv Ht HV Hsig Hop Hsync Hcd Hlock Hok.
  pose proof (move_owner m t th p V k Hinv Ht HV Hlock) as [Ho Ho'].
  pose proof (released_grows m t th p V Hinv Ht HV) as Hrel.
  split; [by apply Hinv|exact Ho|exact Ho'| | | |].
  - intros Hl. destruct (inv_open _ Hinv Hl) as [Hpub|(u & thu & Hu & Hou)].
    { left. by apply (aware_mono (counter m) _ (released m)). }
    destruct (decide (u = t)) as [->|Hne].
    + rewrite Ht in Hu. injection Hu as <-. destruct (Hop Hou) as [Hp|(Haw & Hp & Hp')].
      { right. by apply someone_here. }
      left. unfold published, moved, released_after. simpl. by rewrite Hp, Hp'.
    + right. exists u, thu. simpl. by rewrite lookup_insert_ne.
  - intros u thu Hu. simpl in Hu. apply lookup_insert_Some in Hu as [[<- <-]|[Hne Hu]]; [done|].
    eapply (point_ok_mono m); [done|done|done|by left|done| | |by eapply inv_point]; simpl.
    + by apply someone_insert with th.
    + intros Hw. intros (v & thv & Hv & Hs). destruct (decide (v = t)) as [->|Hne'].
      * rewrite Ht in Hv. injection Hv as <-. pose proof (Hsync Hs) as Hn.
        assert (owns (at_pc thu) = true) as Hwu by (by rewrite Hw). destruct (inv_owner _ Hinv _ _ Hu Hwu). congruence.
      * exists v, thv. by rewrite lookup_insert_ne.
  - simpl. pose proof (inv_range _ Hinv). rewrite (sumz_insert _ _ t th) by done.
    pose proof (reserve_move (counter m) th p V HV Hcd). unfold latest in *. simpl in *. lia.
  - simpl. rewrite (size_move _ _ th) by done. by apply Hinv.
Qed.

(** A decrement by [n], from an idle thread or one that committed to it. *)
Definition may_count (m : state) (th : thread pc) (n : Z) : Prop :=
  (exists r, at_pc th = Idle r) /\ PTRDIFF_MIN + Z.of_nat (size (threads m)) <= latest m - n \/
  at_pc th = CdwSub /\ n = 1.

Lemma count_down_fits m t th n :
  inv m -> threads m !! t = Some th -> 0 <= n -> may_count m th n ->
  PTRDIFF_MIN <= latest m - n <= 2 ^ 63 - 1 /\ fetch_sub n (latest m) = latest m - n.
Proof.
  intros Hinv Ht Hn Hmay. pose proof (inv_range _ Hinv) as [Hr1 Hr2].
  assert (PTRDIFF_MIN <= latest m - n).
  { pose proof (reserve_bound (counter m) (threads m)). destruct Hmay as [[_ Hm]|[Hpc ->]]; [lia|].
    assert (reserve (counter m) th <= sumz (reserve (counter m)) (threads m)) as Hone.
    { apply (sumz_ge_one _ _ t); [|done]. intros u thu _. apply reserve_range. }
    unfold reserve at 1 in Hone. rewrite Hpc in Hone. unfold latest in *. lia. }
  split; [lia|]. apply wrap_s_small; [lia|]. change (64 - 1) with 63. unfold PTRDIFF_MIN in *. lia.
Qed.

(** What the reserves lose. *)
Lemma count_down_reserve m t th n h' V' p :
  inv m -> threads m !! t = Some th -> may_count m th n -> p <> CdwSub -> counter m ⊆ h' ->
  latest m - n <= 0 -> aware h' V' = true ->
  PTRDIFF_MIN + sumz (reserve h') (<[t := mkThread p V']> (threads m)) <= latest m - n.
Proof.
  intros Hinv Ht Hmay Hp Hh Hl Haw. pose proof (inv_range _ Hinv) as [Hr1 Hr2].
  assert (Hnew : reserve h' (mkThread p V') = 0) by (unfold reserve; simpl; rewrite Haw; by destruct p).
  destruct Hmay as [[_ Hm]|[Hpc ->]].
  - pose proof (reserve_bound h' (<[t := mkThread p V']> (threads m))) as [_ Hb].
    rewrite (size_move _ _ th) in Hb by done. lia.
  - assert (sumz (reserve h') (<[t := mkThread p V']> (threads m)) + 1 <= sumz (reserve (counter m)) (threads m)); [|lia].
    eapply sumz_lose; [by eapply dom_move|done|apply lookup_insert_eq| |].
    + rewrite Hnew. unfold reserve. by rewrite Hpc.
    + intros u [p1 V1] thu Hne Hu Hu'. rewrite lookup_insert_ne, Hu in Hu' by done. injection Hu' as <-.
      by apply reserve_mono.
Qed.

Lemma count_down_spec m t th i n w m' :
  inv m -> threads m !! t = Some th -> 0 <= n -> may_count m th n -> do_count_down m t th i n w = Some m' ->
  exists V', seen th ⊆ V' /\ counter m ⊆ counter m' /\ latest m' = latest m - n /\
    history (counter m') (latest m') (arrived m') /\ (latest m' <= 0 -> aware (counter m') V' = true) /\
    owner m' = owner m /\ released m' = released m /\
    arrived m' = (if 0 <? latest m then arrived m ∪ seen th else arrived m) /\
    threads m' = <[t := mkThread (if crosses (latest m) n then SyncLock w else after_count w) V']> (threads m).
Proof.
  intros Hinv Ht Hn Hmay Hs. unfold do_count_down in Hs.
  destruct (rmw acq_rel (fetch_sub n) (counter m) i (clock m) (seen th)) as [[[v h'] V']|] eqn:Hr; simpl in Hs; [|done].
  injection Hs as <-. destruct (count_down_fits m t th n Hinv Ht Hn Hmay) as [_ Hfs].
  destruct (history_sub _ _ _ _ _ _ _ _ _ _ (inv_history _ Hinv) Hn Hfs Hr) as (-> & HV & Hh & Hhist & Hl & Haw).
  change (latest (mkState h' (S (clock m)) (owner m) (released m)
    (if 0 <? latest m then arrived m ∪ seen th else arrived m)
    (<[t := mkThread (if crosses (latest m) n then SyncLock w else after_count w) V']> (threads m))))
    with (default 0 (value <$> list.last h')). rewrite Hl. simpl. by exists V'.
Qed.

Lemma count_down_inv m t th i n w m' :
  inv m -> threads m !! t = Some th -> 0 <= n -> may_count m th n -> do_count_down m t th i n w = Some m' -> inv m'.
Proof.
  intros Hinv Ht Hn Hmay Hs.
  destruct (count_down_spec _ _ _ _ _ _ _ Hinv Ht Hn Hmay Hs) as (V' & HV & Hh & Hl & Hhist & Haw & Ho & Hr & Ha & Hths).
  destruct (count_down_fits m t th n Hinv Ht Hn Hmay) as [Hfit _].
  set (p' := if crosses (latest m) n then SyncLock w else after_count w) in *.
  assert (Hp' : owns p' = false /\ p' <> CdwSub) by (unfold p', after_count; repeat case_match; done).
  assert (Hopn : owns (at_pc th) = false /\ signaller (at_pc th) = false).
  { destruct Hmay as [[[r ->] _]|[-> _]]; done. }
  destruct Hp' as [Hown Hcd], Hopn as [Hownp Hsig].
  assert (Hcross : 0 < latest m -> 0 < latest m' \/ someone syncing (threads m')).
  { intros Hv. destruct (decide (0 < latest m')); [by left|]. right. rewrite Hths. apply someone_here. simpl.
    unfold p', crosses. rewrite (proj2 (Z.ltb_lt _ _)), (proj2 (Z.leb_le _ _)) by lia. done. }
  assert (Hsome : forall f, f (at_pc th) = false -> someone f (threads m) -> someone f (threads m')).
  { intros f Hf. rewrite Hths. apply someone_insert with th; [done|congruence]. }
  assert (opener (at_pc th) = false /\ syncing (at_pc th) = false) as [Hnop Hnsy] by (revert Hsig; by destruct (at_pc th)).
  split; [done| | | | | |].
  - intros u thu. rewrite Hths, Ho, Hr. intros [[<- <-]|[_ Hu]]%lookup_insert_Some Hw; [simpl in Hw; congruence|].
    by apply Hinv.
  - rewrite Ho. intros u (q & Hq & Hw)%(inv_owned _ Hinv). exists q. rewrite Hths, lookup_insert_ne by congruence. done.
  - intros Hl'. destruct (decide (0 < latest m)) as [Hv|Hv].
    { destruct (Hcross Hv) as [|(u & thu & Hu & Hsu)]; [lia|]. right. exists u, thu. split; [done|].
      revert Hsu. by destruct (at_pc thu). }
    destruct (inv_open _ Hinv ltac:(lia)) as [Hp|Hp]; [|right; by apply Hsome, Hp].
    left. unfold published. rewrite Hr. by apply (aware_mono (counter m) _ (released m)).
  - intros u thu. rewrite Hths. intros [[<- <-]|[_ Hu]]%lookup_insert_Some.
    + unfold point_ok, p'. simpl. destruct (crosses (latest m) n) eqn:E; [|by destruct w].
      apply Haw. apply andb_prop in E as [_ E%Z.leb_le]. lia.
    + eapply (point_ok_mono m); [done|done|by rewrite Hr|done| | | |by eapply inv_point].
      * intros Hv. by rewrite Ha, (proj2 (Z.ltb_ge 0 (latest m)) Hv).
      * by apply Hsome.
      * intros _. by apply Hsome.
  - pose proof (inv_size _ Hinv). rewrite Hl. split; [|lia].
    destruct (decide (latest m' <= 0)) as [Hle|Hgt].
    + rewrite Hths. eapply count_down_reserve; try done; [lia|]. by apply Haw.
    + pose proof (reserve_bound (counter m') (threads m')) as [_ Hb]. rewrite Hths in Hb at 2.
      rewrite (size_move _ _ th) in Hb by done. unfold PTRDIFF_MIN. lia.
  - rewrite Hths, (size_move _ _ th) by done. by apply Hinv.
Qed.

(** [notify_all]: every sleeper wakes; those about to block do not exist. *)
Definition notified (m : state) (t : tid) (th : thread pc) (w : bool) : state :=
  mkState (counter m) (clock m) (owner m) (released m) (arrived m)
    (<[t := mkThread (after_count w) (seen th)]> (wake <$> threads m)).

Lemma notified_lookup m t th w u thu :
  threads (notified m t th w) !! u = Some thu ->
  u = t /\ thu = mkThread (after_count w) (seen th) \/ u <> t /\ exists q, threads m !! u = Some q /\ thu = wake q.
Proof.
  simpl. intros [[<- <-]|[Hne Hu]]%lookup_insert_Some; [by left|right]. split; [done|].
  apply lookup_fmap_Some in Hu as (q & <- & Hq). by exists q.
Qed.

Lemma notified_other m t th w u q :
  u <> t -> threads m !! u = Some q -> threads (notified m t th w) !! u = Some (wake q).
Proof. intros Hne Hu. simpl. by rewrite lookup_insert_ne, lookup_fmap, Hu. Qed.

Lemma notified_dom m t th w : threads m !! t = Some th -> dom (threads m) = dom (threads (notified m t th w)).
Proof. intros Ht. simpl. rewrite dom_insert_L, dom_fmap_L. apply elem_of_dom_2 in Ht. set_solver. Qed.

Lemma notify_inv m t th w :
  inv m -> threads m !! t = Some th -> at_pc th = SyncNotify w -> inv (notified m t th w).
Proof.
  intros Hinv Ht Hpc. pose proof (inv_point _ Hinv _ _ Ht) as Hok. unfold point_ok in Hok. rewrite Hpc in Hok.
  assert (Howns : forall q, owns (at_pc (wake q)) = owns (at_pc q)) by (intros [[] ?]; done).
  split; [by apply Hinv| | | | | |].
  - intros u thu [[-> ->]|(Hne & q & Hu & ->)]%notified_lookup Hw; [by destruct w|].
    rewrite Howns in Hw. exact (inv_owner _ Hinv _ _ Hu Hw).
  - intros u (q & Hq & Hw)%(inv_owned _ Hinv). exists (wake q). rewrite Howns. split; [|done].
    apply notified_other; [|done]. intros ->. rewrite Ht in Hq. injection Hq as <-. by rewrite Hpc in Hw.
  - intros _. left. by apply Hok.
  - intros u thu [[-> ->]|(Hne & q & Hu & ->)]%notified_lookup; [by destruct w|].
    pose proof (inv_point _ Hinv _ _ Hu) as Hq. destruct q as [[[[| |]|]| | | | | | | | | | |] Vq]; try done.
    destruct Hq as [Hq|(v & thv & Hv & Hs)]; [by left|right]. exists v, (wake thv). split.
    + apply notified_other; [|done]. intros ->. rewrite Ht in Hv. injection Hv as <-. by rewrite Hpc in Hs.
    + revert Hs. by destruct thv as [[] ?].
  - pose proof (inv_range _ Hinv) as Hr. change (latest (notified m t th w)) with (latest m).
    assert (sumz (reserve (counter m)) (threads (notified m t th w)) + 0 <= sumz (reserve (counter m)) (threads m));
      [|simpl in *; lia].
    eapply sumz_lose; [by apply notified_dom|done|apply lookup_insert_eq| |].
    + unfold reserve. simpl. rewrite Hpc. destruct w; simpl; lia.
    + intros u q thu Hne Hu [[-> ->]|(_ & q' & Hu' & ->)]%notified_lookup; [done|].
      simplify_eq. unfold reserve. destruct q as [[] ?]; simpl; lia.
  - rewrite <- size_dom, <- (notified_dom m t th w Ht), size_dom. by apply Hinv.
Qed.

(** The ways in which the program moves a thread. *)
Lemma go_moved m t th p V :
  inv m -> threads m !! t = Some th -> owns p = owns (at_pc th) -> go m t p V = moved m t th p V (clock m).
Proof.
  intros Hinv Ht Hp. unfold go, moved, owner_after, released_after. rewrite Hp.
  destruct (owns (at_pc th)) eqn:E; [|done]. by rewrite (proj1 (inv_owner _ Hinv _ _ Ht E)).
Qed.

Lemma lock_moved m t th p m' :
  owns p = true -> owns (at_pc th) = false -> lock_then m t th p = Some m' ->
  owner m = None /\ m' = moved m t th p (released m ∪ seen th) (clock m).
Proof.
  intros Hp Hp' Hs. unfold lock_then in Hs. destruct (owner m) eqn:Ho; [done|]. injection Hs as <-.
  split; [done|]. unfold moved, owner_after, released_after. by rewrite Hp, Hp'.
Qed.

Lemma unlock_moved m t th p V :
  owns p = false -> owns (at_pc th) = true -> unlock_then m t p V = moved m t th p V (clock m).
Proof. intros Hp Hp'. unfold unlock_then, moved, owner_after, released_after. by rewrite Hp, Hp'. Qed.

(** The owner that reads that the latch is closed: it has been opened by a
    thread that still has to take the mutex, if at all. *)
Lemma reads_closed m t th i v V :
  inv m -> threads m !! t = Some th -> owns (at_pc th) = true -> opener (at_pc th) = false ->
  load acquire (counter m) i (seen th) = Some (v, V) -> 0 < v ->
  0 < latest m \/ someone syncing (threads m).
Proof.
  intros Hinv Ht How Hop Hl Hv. destruct (decide (0 < latest m)) as [|Hlat]; [by left|right].
  destruct (inv_owner _ Hinv _ _ Ht How) as [Ho Hr].
  assert (aware (counter m) (seen th) = false) as Haw.
  { destruct (aware _ _) eqn:E; [|done]. pose proof (load_aware _ _ _ _ _ _ _ _ (inv_history _ Hinv) Hl E). lia. }
  destruct (inv_open _ Hinv ltac:(lia)) as [Hp|(u & thu & Hu & Hs)].
  - rewrite (aware_mono _ _ _ _ ltac:(done) Hr Hp) in Haw. done.
  - exists u, thu. split; [done|]. destruct (at_pc thu) eqn:E; try done.
    assert (owns (at_pc thu) = true) as Hwu by (by rewrite E). destruct (inv_owner _ Hinv _ _ Hu Hwu). congruence.
Qed.

(** A thread that only looks: from any point but those of a signaller, to
    one that says nothing. *)
Lemma look_inv m t th p V k :
  inv m -> threads m !! t = Some th -> seen th ⊆ V -> signaller (at_pc th) = false ->
  (p = CdwSub -> aware (counter m) (seen th) = false) ->
  (owns p = true -> owns (at_pc th) = true \/ owner m = None /\ released m ⊆ V) ->
  point_ok (moved m t th p V k) (mkThread p V) -> inv (moved m t th p V k).
Proof.
  intros Hinv Ht HV Hsig Hcd Hlock Hok.
  assert (opener (at_pc th) = false /\ syncing (at_pc th) = false) as [Hop Hsy] by (revert Hsig; by destruct (at_pc th)).
  apply move_inv; try done; congruence.
Qed.

(** [check] in one of the functions that loop on the counter. *)
Lemma check_inv m t th i m' opened closed nx :
  check m t th i nx = Some m' -> inv m -> threads m !! t = Some th -> signaller (at_pc th) = false ->
  owns opened = false -> (owns closed = true -> owns (at_pc th) = true) ->
  (forall b V, nx b V = moved m t th (if b : bool then opened else closed) V (clock m)) ->
  (forall V, aware (counter m) V = true -> arrived m ⊆ V -> point_ok (moved m t th opened V (clock m)) (mkThread opened V)) ->
  opened <> CdwSub ->
  (forall V, (owns (at_pc th) = true -> 0 < latest m \/ someone syncing (threads m)) ->
    point_ok (moved m t th closed V (clock m)) (mkThread closed V)) ->
  inv m'.
Proof.
  intros Hc Hinv Ht Hsig Hopd Hcl Hnx Hok Hcd Hok'. unfold check in Hc.
  destruct (load acquire (counter m) i (seen th)) as [[v V]|] eqn:Hl; simpl in Hc; [|done].
  injection Hc as <-. rewrite Hnx. destruct (load_opens _ _ _ _ _ _ _ (inv_history _ Hinv) Hl) as [HV Hopen].
  assert (Hop : opener (at_pc th) = false) by (revert Hsig; by destruct (at_pc th)).
  destruct (Z.leb_spec v 0) as [Hv|Hv]; apply look_inv; try done.
  - by rewrite Hopd.
  - by apply Hok; apply Hopen.
  - intros ->. destruct (aware _ (seen th)) eqn:E; [|done].
    pose proof (load_aware _ _ _ _ _ _ _ _ (inv_history _ Hinv) Hl E). lia.
  - intros Hw. left. by apply Hcl.
  - apply Hok'. intros How. by eapply (reads_closed m t th i v V).
Qed.

Lemma someone_moved f m t th p V k :
  threads m !! t = Some th -> f (at_pc th) = false ->
  someone f (threads m) -> someone f (threads (moved m t th p V k)).
Proof. intros Ht Hf. apply someone_insert with th; [done|congruence]. Qed.

Lemma act_inv m t th i m' : inv m -> threads m !! t = Some th -> act m t th i = Some m' -> inv m'.
Proof.
  intros Hinv Ht Ha. pose proof (inv_point _ Hinv _ _ Ht) as Hpt. unfold point_ok in Hpt.
  unfold act in Ha. destruct (at_pc th) as [r| |w|w|w| | | | | | |] eqn:Hpc; try done.
  - eapply (count_down_inv _ _ _ _ 1); [done|done|lia|by right|done].
  - apply (lock_moved m t th) in Ha as [Ho ->]; [|done|by rewrite Hpc].
    apply move_inv; rewrite ?Hpc; try done; [set_solver|by left|by right; set_solver|].
    unfold point_ok. simpl. eapply aware_mono; [done| |exact Hpt]. set_solver.
  - injection Ha as <-. rewrite (unlock_moved m t th) by (by rewrite ?Hpc).
    apply move_inv; rewrite ?Hpc; try done; [by right|].
    unfold point_ok, published, released_after. simpl. by rewrite Hpc.
  - injection Ha as <-. by apply notify_inv.
  - eapply (check_inv m t th i m' (Idle (Some Waited)) WaitLock); [exact Ha|..]; rewrite ?Hpc; try done.
    intros [] V; apply go_moved; by rewrite ?Hpc.
  - apply (lock_moved m t th) in Ha as [Ho ->]; [|done|by rewrite Hpc].
    apply look_inv; rewrite ?Hpc; try done; [set_solver|right; split; [done|set_solver]].
  - eapply (check_inv m t th i m' (Idle (Some Waited)) WaitPred); [exact Ha|..]; rewrite ?Hpc; try done.
    intros [] V; [apply unlock_moved|apply go_moved]; by rewrite ?Hpc.
  - eapply (check_inv m t th i m' (Idle (Some Waited)) WaitBlock); [exact Ha|..]; rewrite ?Hpc; try done.
    + intros [] V; [apply unlock_moved|apply go_moved]; by rewrite ?Hpc.
    + intros V Hcl. destruct (Hcl eq_refl) as [|Hs]; [by left|right].
      apply (someone_moved syncing m t th); [done|by rewrite Hpc|done].
  - injection Ha as <-. rewrite (unlock_moved m t th) by (by rewrite ?Hpc).
    apply look_inv; rewrite ?Hpc; try done. unfold point_ok. simpl.
    destruct Hpt as [|(u & thu & Hu & Hs)]; [by left|right].
    apply (someone_moved signaller m t th Asleep (seen th) (clock m)); [done|by rewrite Hpc|].
    exists u, thu. split; [done|]. revert Hs. by destruct (at_pc thu).
  - apply (lock_moved m t th) in Ha as [Ho ->]; [|done|by rewrite Hpc].
    apply look_inv; rewrite ?Hpc; try done; [set_solver|right; split; [done|set_solver]].
Qed.

(** An access to ordinary data, and a spurious wake-up, are moves too. *)
Lemma call_inv m t th o i m' r :
  inv m -> threads m !! t = Some th -> at_pc th = Idle r -> may_call m o = true -> call m t th o i = Some m' -> inv m'.
Proof.
  intros Hinv Ht Hpc Hmay Hc. destruct o as [|n| |]; simpl in *.
  - eapply (check_inv m t th i m' (Idle (Some Waited)) CdwSub); [exact Hc|..]; rewrite ?Hpc; try done.
    intros [] V; apply go_moved; by rewrite ?Hpc.
  - apply andb_prop in Hmay as [Hn%Z.leb_le Hm%Z.leb_le].
    eapply (count_down_inv _ _ _ _ n); [done|done|done|left; split; [by eexists|done]|done].
  - unfold check in Hc. destruct (load acquire (counter m) i (seen th)) as [[v V]|] eqn:Hl; simpl in Hc; [|done].
    injection Hc as <-. destruct (load_opens _ _ _ _ _ _ _ (inv_history _ Hinv) Hl) as [HV _].
    rewrite (go_moved m t th) by (by rewrite ?Hpc). by apply look_inv; rewrite ?Hpc.
  - injection Hc as <-. rewrite (go_moved m t th) by (by rewrite ?Hpc). by apply look_inv; rewrite ?Hpc.
Qed.

Lemma step_inv m e m' : inv m -> step m e = Some m' -> inv m'.
Proof.
  intros Hinv Hstep. destruct e as [t o i|t i|t|t]; simpl in Hstep;
    destruct (threads m !! t) as [th|] eqn:Ht; simpl in Hstep; try done.
  - destruct (idle (at_pc th)) eqn:Hi; [|done]. destruct (may_call m o) eqn:Hmay; [|done].
    destruct (at_pc th) eqn:Hpc; try done. eapply call_inv; [done|done|exact Hpc|exact Hmay|exact Hstep].
  - by eapply act_inv.
  - destruct (decide (at_pc th = Asleep)) as [Hpc|]; [|done]. injection Hstep as <-.
    rewrite (go_moved m t th) by (by rewrite ?Hpc). by apply look_inv; rewrite ?Hpc.
  - destruct (idle (at_pc th)) eqn:Hi; [|done]. destruct (at_pc th) as [r| | | | | | | | | | |] eqn:Hpc; try done.
    injection Hstep as <-.
    replace (mkState _ _ _ _ _ _) with (moved m t th (Idle r) ({[clock m]} ∪ seen th) (S (clock m))).
    2: { unfold moved, owner_after, released_after, touch. by rewrite Hpc. }
    pose proof (inv_point _ Hinv _ _ Ht) as Hpt. unfold point_ok in Hpt. rewrite Hpc in Hpt.
    apply look_inv; rewrite ?Hpc; try done; [set_solver|]. unfold point_ok. simpl.
    destruct r as [[| |]|]; try done. destruct Hpt as [Hw Ha]. split; [|set_solver].
    eapply aware_mono; [done| |exact Hw]. set_solver.
Qed.

(** The latch is constructed with room below for every thread. *)
Definition startable (v : Z) (ts : gset tid) : Prop :=
  PTRDIFF_MIN <= v <= 2 ^ 63 - 1 /\ Z.of_nat (size ts) < 2 ^ 62.

Lemma start_threads v ts t th : threads (start v ts) !! t = Some th -> th = mkThread (Idle None) {[0%nat]}.
Proof. simpl. by intros [_ <-]%lookup_gset_to_gmap_Some. Qed.

Lemma start_inv v ts : startable v ts -> inv (start v ts).
Proof.
  intros [Hv Hs]. assert (Hsize : size (threads (start v ts)) = size ts).
  { simpl. by rewrite <- size_dom, dom_gset_to_gmap. }
  assert (Haw : v <= 0 -> aware (initial v) {[0%nat]} = true).
  { intros Hv'. apply aware_spec. eexists. split; [by left|]. simpl. split; [done|set_solver]. }
  split; [split| | | | | |]; rewrite ?Hsize.
  - apply chained_initial.
  - intros [] [] x y Hij Hx Hy; simplify_eq/=; done.
  - eexists. by split.
  - intros x _ _. simpl. set_solver.
  - by intros t th ->%start_threads.
  - done.
  - intros Hv'. left. by apply Haw.
  - by intros t th ->%start_threads.
  - change (latest (start v ts)) with v. destruct (decide (0 < v)) as [Hp|Hn].
    + pose proof (reserve_bound (counter (start v ts)) (threads (start v ts))) as Hb. rewrite Hsize in Hb.
      unfold PTRDIFF_MIN in *. lia.
    + rewrite sumz_zero; [lia|]. intros t th ->%start_threads. change ((if aware (initial v) {[0%nat]} then 0 else 1) = 0). by rewrite Haw by lia.
  - done.
Qed.

Lemma latch_reachable_inv v ts es m : startable v ts -> run step (start v ts) es = Some m -> inv m.
Proof.
  intros Hv Hrun. eapply run_invariant; [by apply start_inv| |exact Hrun]. intros; by eapply step_inv.
Qed.
