(* ===== verification/LatchProps.v ===== *)
(** * Latch: the properties

    In every execution of the release and acquire memory of [Atomics]. *)

From S2P Require Import Prelude Machine Atomics Latch LatchProofs.

Import Latch.
Local Open Scope Z_scope.

(** ** Helpers: the opened latch drains

    How many more actions a thread can take once the latch is open, given
    what it knows, and what it will know when it has locked the mutex. *)
Definition rank (m : state) (th : thread pc) : Z :=
  let knows := aware (counter m) (seen th) in
  let will_know := knows || published m in
  match at_pc th with
  | Idle _ => 0
  | CdwSub => 2
  | SyncNotify _ => 2 | SyncUnlock _ => 3 | SyncLock _ => 4
  | Asleep => 2 | WaitBlock => 3
  | WaitPred => if knows then 1 else 4
  | WaitCheck => if knows then 1 else 5
  | WaitRelock => if will_know then 2 else 5
  | WaitLock => if will_know then 2 else 6
  | WaitLoad => if knows then 1 else 7
  end.

Definition work (m : state) : Z := sumz (rank m) (threads m).

Lemma rank_range m th : 0 <= rank m th <= 7.
Proof. unfold rank. repeat case_match; lia. Qed.

Lemma work_bound m : 0 <= work m <= 7 * Z.of_nat (size (threads m)).
Proof.
  split; [apply sumz_nonneg|apply sumz_le_size]; intros t th _; apply rank_range.
Qed.

Lemma rank_mono m m' th : counter m ⊆ counter m' -> released m ⊆ released m' -> rank m' th <= rank m th.
Proof.
  intros Hc Hr. unfold rank, published.
  pose proof (aware_mono _ _ (seen th) (seen th) Hc ltac:(done)) as Ha. pose proof (aware_mono _ _ _ _ Hc Hr) as Hp.
  destruct (aware (counter m) (seen th)), (aware (counter m) (released m));
    rewrite ?Ha, ?Hp, ?orb_true_r by done; simpl; repeat case_match; lia.
Qed.

(** One action of [t] that loses rank. *)
Lemma works m m' t th th' :
  threads m !! t = Some th -> threads m' = <[t := th']> (threads m) ->
  counter m ⊆ counter m' -> released m ⊆ released m' -> rank m' th' < rank m th -> work m' < work m.
Proof.
  intros Ht Ht' Hc Hr Hlt. unfold work. rewrite Ht'.
  assert (sumz (rank m') (<[t := th']> (threads m)) + 1 <= sumz (rank m) (threads m)); [|lia].
  eapply sumz_lose; [by eapply dom_move|done|apply lookup_insert_eq|lia|].
  intros u q thu Hne Hu Hu'. rewrite lookup_insert_ne, Hu in Hu' by done. injection Hu' as <-. by apply rank_mono.
Qed.

Lemma moved_works m t th p V k :
  inv m -> threads m !! t = Some th -> seen th ⊆ V ->
  rank (moved m t th p V k) (mkThread p V) < rank m th -> work (moved m t th p V k) < work m.
Proof.
  intros Hinv Ht HV Hlt. eapply works; [exact Ht|done|done| |exact Hlt].
  exact (released_grows m t th p V Hinv Ht HV).
Qed.

(** [check] by a thread that knows ends its call. *)
Lemma check_works m t th i m' p nx :
  check m t th i nx = Some m' -> inv m -> threads m !! t = Some th ->
  (forall b V, nx b V = moved m t th (if b : bool then Idle (Some Waited) else p) V (clock m)) ->
  0 < rank m th ->
  (aware (counter m) (seen th) = false -> forall V, rank (moved m t th p V (clock m)) (mkThread p V) < rank m th) ->
  work m' < work m.
Proof.
  intros Hc Hinv Ht Hnx Hpos Hp. unfold check in Hc.
  destruct (load acquire (counter m) i (seen th)) as [[v V]|] eqn:Hl; simpl in Hc; [|done]. injection Hc as <-.
  destruct (load_opens _ _ _ _ _ _ _ (inv_history _ Hinv) Hl) as [HV _]. rewrite Hnx.
  apply moved_works; [done|done|done|]. destruct (Z.leb_spec v 0) as [Hv|Hv]; [done|]. apply Hp.
  destruct (aware _ _) eqn:E; [|done]. pose proof (load_aware _ _ _ _ _ _ _ _ (inv_history _ Hinv) Hl E). lia.
Qed.

Lemma notify_works m t th w :
  inv m -> threads m !! t = Some th -> at_pc th = SyncNotify w -> work (notified m t th w) < work m.
Proof.
  intros Hinv Ht Hpc. pose proof (inv_point _ Hinv _ _ Ht) as Hok. unfold point_ok in Hok. rewrite Hpc in Hok.
  destruct Hok as [Haw Hpub]. unfold work.
  assert (sumz (rank (notified m t th w)) (threads (notified m t th w)) + 1 <= sumz (rank m) (threads m)); [|lia].
  eapply sumz_lose; [by apply notified_dom|done|apply lookup_insert_eq| |].
  - unfold rank. simpl. rewrite Hpc, Haw. destruct w; simpl; lia.
  - intros u q thu Hne Hu [[-> ->]|(_ & q' & Hu' & ->)]%notified_lookup; [done|]. simplify_eq.
    unfold rank, published in *. simpl in *. rewrite Hpub, orb_true_r. destruct q as [[] ?]; simpl; lia.
Qed.

(** After [lock] a thread knows what was published. *)
Lemma lock_works m t th p m' :
  lock_then m t th p = Some m' -> inv m -> threads m !! t = Some th ->
  owns p = true -> owns (at_pc th) = false ->
  (forall V, (aware (counter m) (seen th) || published m = true -> aware (counter m) V = true) ->
    rank (moved m t th p V (clock m)) (mkThread p V) < rank m th) ->
  work m' < work m.
Proof.
  intros Hl Hinv Ht Hp Hp' Hr. destruct (lock_moved m t th p m' Hp Hp' Hl) as [Ho ->].
  apply moved_works; [done|done|set_solver|]. apply Hr. intros [Haw|Hpub]%orb_prop.
  - eapply aware_mono; [done| |exact Haw]. set_solver.
  - eapply aware_mono; [done| |exact Hpub]. set_solver.
Qed.

Ltac ranks Hpc := unfold rank, published in *; simpl in *; rewrite Hpc; simpl.

Lemma act_works m t th i m' :
  inv m -> latest m <= 0 -> threads m !! t = Some th -> act m t th i = Some m' -> work m' < work m.
Proof.
  intros Hinv Hv Ht Ha. pose proof (inv_point _ Hinv _ _ Ht) as Hpt. unfold point_ok in Hpt.
  unfold act in Ha. destruct (at_pc th) as [r| |w|w|w| | | | | | |] eqn:Hpc; try done.
  - destruct (count_down_spec m t th i 1 true m') as (V' & HV & Hh & Hl & _ & Haw & Ho & Hr & _ & Hths);
      [done|done|lia|by right|done|].
    assert (crosses (latest m) 1 = false) as Hcr by (unfold crosses; by rewrite (proj2 (Z.ltb_ge 0 (latest m)) Hv)).
    eapply works; [exact Ht|exact Hths|done|by rewrite Hr|]. rewrite Hcr. ranks Hpc. rewrite Haw by lia. lia.
  - apply (lock_works m t th _ _ Ha); rewrite ?Hpc; try done. intros V Hk. by ranks Hpc.
  - injection Ha as <-. rewrite (unlock_moved m t th) by (by rewrite ?Hpc).
    apply moved_works; try done. by ranks Hpc.
  - injection Ha as <-. by apply notify_works.
  - apply (check_works m t th i m' WaitLock _ Ha); try done.
    + intros [] V; apply go_moved; by rewrite ?Hpc.
    + ranks Hpc. case_match; lia.
    + intros Haw V. ranks Hpc. rewrite Haw. case_match; lia.
  - apply (lock_works m t th _ _ Ha); rewrite ?Hpc; try done. intros V Hk. ranks Hpc.
    destruct (_ || _) eqn:E; [by rewrite Hk|case_match; lia].
  - apply (check_works m t th i m' WaitPred _ Ha); try done.
    + intros [] V; [apply unlock_moved|apply go_moved]; by rewrite ?Hpc.
    + ranks Hpc. case_match; lia.
    + intros Haw V. ranks Hpc. rewrite Haw. case_match; lia.
  - apply (check_works m t th i m' WaitBlock _ Ha); try done.
    + intros [] V; [apply unlock_moved|apply go_moved]; by rewrite ?Hpc.
    + ranks Hpc. case_match; lia.
    + intros Haw V. ranks Hpc. rewrite Haw. lia.
  - injection Ha as <-. rewrite (unlock_moved m t th) by (by rewrite ?Hpc).
    apply moved_works; try done. by ranks Hpc.
  - apply (lock_works m t th _ _ Ha); rewrite ?Hpc; try done. intros V Hk. ranks Hpc.
    destruct (_ || _) eqn:E; [by rewrite Hk|case_match; lia].
Qed.

Lemma act_open m t th i m' :
  inv m -> latest m <= 0 -> threads m !! t = Some th -> act m t th i = Some m' -> latest m' <= 0.
Proof.
  intros Hinv Hv Ht Ha. destruct (decide (at_pc th = CdwSub)) as [Hpc|Hpc].
  - unfold act in Ha. rewrite Hpc in Ha.
    destruct (count_down_spec m t th i 1 true m') as (_ & _ & _ & -> & _); [done|done|lia|by right|done|lia].
  - assert (counter m' = counter m) as Hc; [|unfold latest in *; by rewrite Hc].
    unfold act, check, lock_then in Ha. destruct (at_pc th); try done; try (destruct (owner m)); simplify_eq/=; try done.
    all: destruct (load _ _ _ _) as [[v V]|]; simpl in Ha; [|done]; injection Ha as <-; by case_match.
Qed.

(** While somebody is inside, somebody can act, and read the latest value. *)
Lemma act_enabled m :
  inv m -> latest m <= 0 ->
  (exists t i m', step m (Act t i) = Some m') \/ map_Forall (fun _ th => idle (at_pc th) = true) (threads m).
Proof.
  intros Hinv Hv. destruct (hi_last _ _ _ (inv_history _ Hinv)) as (z & Hz & _).
  assert (Hfree : forall t th, threads m !! t = Some th -> idle (at_pc th) = false -> at_pc th <> Asleep ->
    owner m = None \/ owns (at_pc th) = true -> exists t i m', step m (Act t i) = Some m').
  { intros t th Ht Hi Hs Ho. exists t, (pred (length (counter m))). simpl. rewrite Ht. simpl.
    unfold act, do_count_down, check, lock_then. rewrite (load_latest _ _ _ _ Hz), (rmw_latest _ _ _ _ _ _ Hz).
    destruct (at_pc th); try done; simpl; try (by eexists); destruct Ho as [->|]; try done; by eexists. }
  destruct (owner m) as [t|] eqn:Ho.
  { left. destruct (inv_owned _ Hinv t Ho) as (th & Ht & Hp).
    apply (Hfree t th Ht); [| |by right]; revert Hp; by destruct (at_pc th). }
  destruct (decide (map_Forall (fun _ th => idle (at_pc th) = true) (threads m))) as [Hall|Hnot]; [by right|left].
  apply map_not_Forall in Hnot as (t & th & Ht & Hp); [|apply _]. apply not_true_is_false in Hp.
  destruct (decide (at_pc th = Asleep)) as [Hs|Hs]; [|apply (Hfree t th Ht); auto].
  pose proof (inv_point _ Hinv _ _ Ht) as Hpt. unfold point_ok in Hpt. rewrite Hs in Hpt.
  destruct Hpt as [|(u & thu & Hu & Hsu)]; [lia|].
  apply (Hfree u thu Hu); [| |by left]; revert Hsu; by destruct (at_pc thu).
Qed.

Lemma drains k m :
  inv m -> latest m <= 0 -> work m < Z.of_nat k ->
  exists sched m', run step m (uncurry Act <$> sched) = Some m' /\
    map_Forall (fun _ th => idle (at_pc th) = true) (threads m').
Proof.
  revert m. induction k as [|k IH]; intros m Hinv Hv Hk.
  { pose proof (work_bound m). lia. }
  destruct (act_enabled m Hinv Hv) as [(t & i & m1 & Hs)|Hall]; [|by exists [], m].
  pose proof (step_inv _ _ _ Hinv Hs) as Hinv1. simpl in Hs.
  destruct (threads m !! t) as [th|] eqn:Ht; simpl in Hs; [|done].
  pose proof (act_works m t th i m1 Hinv Hv Ht Hs) as Hw.
  destruct (IH m1 Hinv1 (act_open _ _ _ _ _ Hinv Hv Ht Hs) ltac:(lia)) as (sched & m' & Hr & Hi).
  exists ((t, i) :: sched), m'. split; [|done]. simpl. rewrite Ht. simpl. by rewrite Hs.
Qed.

Lemma drains_within sched m m' :
  inv m -> latest m <= 0 -> run step m (uncurry Act <$> sched) = Some m' -> Z.of_nat (length sched) <= work m.
Proof.
  revert m. induction sched as [|[t i] sched IH]; intros m Hinv Hv Hr.
  { pose proof (work_bound m). simpl. lia. }
  simpl in Hr. destruct (threads m !! t) as [th|] eqn:Ht; simpl in Hr; [|done].
  destruct (act m t th i) as [m1|] eqn:Ha; simpl in Hr; [|done].
  pose proof (act_works m t th i m1 Hinv Hv Ht Ha) as Hw.
  specialize (IH m1 (act_inv _ _ _ _ _ Hinv Ht Ha) (act_open _ _ _ _ _ Hinv Hv Ht Ha) Hr). simpl. lia.
Qed.

(** ** The properties *)

(** C13: a latch holds its waiters exactly as long as it should, with the
    memory orders of the source. In every execution, a thread whose [wait] or
    [count_down_and_wait] has returned finds the counter at or below zero, then
    and in every later state until it makes another call, and has seen whatever
    the threads that counted the latch down had done before: its accesses to
    their data are no races. And a thread blocked in [wait], which may have
    read an old value, waits for a positive counter, or the thread that opened
    the latch is still on its way through the mutex to [notify_all]: no wake-up
    is lost. This is what the empty critical section of [count_down] is for. *)
Theorem latch_gate v ts es m t th :
  startable v ts -> run step (start v ts) es = Some m -> threads m !! t = Some th ->
  (at_pc th = Idle (Some Waited) -> latest m <= 0 /\ race_free (arrived m) th = true) /\
  (at_pc th = Asleep -> 0 < latest m \/ someone signaller (threads m)).
Proof.
  intros Hv Hrun Ht. pose proof (latch_reachable_inv _ _ _ _ Hv Hrun) as Hinv.
  pose proof (inv_point _ Hinv _ _ Ht) as Hp. unfold point_ok in Hp. split; intros Hpc; rewrite Hpc in Hp; [|done].
  destruct Hp as [Haw Ha]. split; [|by apply bool_decide_eq_true].
  exact (history_aware _ _ _ _ (inv_history _ Hinv) Haw).
Qed.

(** C29: an open latch releases everybody. Once the counter is at or below
    zero, some schedule without further calls takes every thread out of the
    class, and no schedule of that kind is longer than seven actions per
    thread, whatever values its loads return: neither the scheduler nor the
    memory can keep anyone inside. *)
Theorem latch_releases v ts es m :
  startable v ts -> run step (start v ts) es = Some m -> latest m <= 0 ->
  (exists sched m', run step m (uncurry Act <$> sched) = Some m' /\
    map_Forall (fun _ th => idle (at_pc th) = true) (threads m')) /\
  (forall sched m', run step m (uncurry Act <$> sched) = Some m' ->
    Z.of_nat (length sched) <= 7 * Z.of_nat (size (threads m))).
Proof.
  intros Hv Hrun Hval. pose proof (latch_reachable_inv _ _ _ _ Hv Hrun) as Hinv. pose proof (work_bound m). split.
  - apply (drains (Z.to_nat (work m + 1))); [done|done|]. lia.
  - intros sched m' Hr. pose proof (drains_within _ _ _ Hinv Hval Hr). lia.
Qed.

(** ** A concrete interleaving

    Thread 1 has locked the mutex when thread 0, after an access to its data,
    counts down to zero; both loads of thread 1 still return the old value and
    it goes to sleep; thread 0 waits for the mutex, and only then can notify. *)

Definition race : list event :=
  [Call 1%nat wait 0%nat; Act 1%nat 0%nat; Act 1%nat 0%nat; Access 0%nat; Call 0%nat (count_down 1) 0%nat;
   Act 1%nat 0%nat; Act 1%nat 0%nat; Act 1%nat 0%nat].

Definition finished : list event :=
  race ++ [Act 0%nat 0%nat; Act 0%nat 0%nat; Act 0%nat 0%nat; Act 1%nat 0%nat; Act 1%nat 1%nat].

Lemma two_startable : startable 1 {[ 0%nat; 1%nat ]}.
Proof. split; [by vm_compute|by vm_compute]. Qed.

Lemma latch_gate_witness :
  (exists m, run step (start 1 {[ 0%nat; 1%nat ]}) race = Some m /\ latest m = 0 /\
    (0 < latest m \/ someone signaller (threads m))) /\
  exists m th, run step (start 1 {[ 0%nat; 1%nat ]}) finished = Some m /\ threads m !! 1%nat = Some th /\
    arrived m = {[0%nat; 1%nat]} /\ at_pc th = Idle (Some Waited) /\
    latest m <= 0 /\ race_free (arrived m) th = true.
Proof.
  split.
  - reach (run step (start 1 {[ 0%nat; 1%nat ]}) race)
      with (fun m : state => latest m = 0 /\ at_pc <$> threads m !! 1%nat = Some Asleep) as m Hrun Hm.
    destruct Hm as [Hl Hpc]. apply fmap_Some in Hpc as (th & Ht & Hpc). symmetry in Hpc.
    exists m. split; [exact Hrun|]. split; [exact Hl|].
    exact (proj2 (latch_gate 1 {[ 0%nat; 1%nat ]} race m 1%nat th two_startable Hrun Ht) Hpc).
  - reach (run step (start 1 {[ 0%nat; 1%nat ]}) finished)
      with (fun m : state => arrived m = {[0%nat; 1%nat]} /\
        at_pc <$> threads m !! 1%nat = Some (Idle (Some Waited))) as m Hrun Hm.
    destruct Hm as [Ha Hpc]. apply fmap_Some in Hpc as (th & Ht & Hpc). symmetry in Hpc.
    exists m, th. split; [exact Hrun|]. split; [exact Ht|]. split; [exact Ha|]. split; [exact Hpc|].
    exact (proj1 (latch_gate 1 {[ 0%nat; 1%nat ]} finished m 1%nat th two_startable Hrun Ht) Hpc).
Defined.

Lemma latch_releases_witness :
  exists m, run step (start 1 {[ 0%nat; 1%nat ]}) race = Some m /\ latest m = 0 /\
    exists sched m', run step m (uncurry Act <$> sched) = Some m' /\
      map_Forall (fun _ th => idle (at_pc th) = true) (threads m').
Proof.
  reach (run step (start 1 {[ 0%nat; 1%nat ]}) race) with (fun m : state => latest m = 0) as m Hrun Hm.
  exists m. split; [exact Hrun|]. split; [exact Hm|].
  apply (latch_releases 1 {[ 0%nat; 1%nat ]} race m two_startable Hrun). rewrite Hm. apply Z.le_refl.
Defined.
