(* ===== verification/SpinLock.v ===== *)
(** * concurrency/spin_lock.h: SpinLock and FairSpinLock

    Each access to an atomic is one event, with the memory order of the
    source ([Atomics]); the event says which message it reads or where it
    writes.  The owner of a lock accesses the data the lock protects at any
    moment.  The busy-wait loops keep their [patience] counter, an
    [uint_fast16_t] of at least 16 bits; the yield is an event without
    effect. *)

From S2P Require Import Prelude Machine Atomics.

Definition SPIN_CYCLES_BEFORE_YIELD : Z := 100.
Definition SPIN_CYCLES_BEFORE_YIELD_FAIR : Z := 100.

(** [patience--] on an [uint_fast16_t] of [w] bits. *)
Definition decr (w patience : Z) : Z := wrap_u w (patience - 1).

Module SpinLock.
Local Open Scope Z_scope.

Inductive op := lock | try_lock | unlock.

(** A thread: outside (with the result of its last [try_lock]), at the
    [test_and_set] of [lock], yielding, at that of [try_lock], owning the
    lock, at the [clear] of [unlock]. *)
Inductive pc := Outside (last : option bool) | Spin (patience : Z) | Yield | Trying | Owner | Leaving.

#[export] Instance pc_eq_dec : EqDecision pc.
Proof. solve_decision. Defined.

(** The [std::atomic_flag l]; [clock] gives identities. *)
Record state := mkState {
  l : list (message bool);
  clock : nat;
  accesses : view;
  threads : gmap tid (thread pc);
}.

Inductive event :=
| Call (t : tid) (o : op)
| Act (t : tid) (i : nat)     (** the next access of [t], to the message at [i] *)
| Access (t : tid).           (** the owner accesses the data *)

Section code.
Context (w : Z).

Definition go (m : state) (t : tid) (th : thread pc) (p : pc) : state :=
  mkState (l m) (clock m) (accesses m) (<[t := mkThread p (seen th)]> (threads m)).

(** [l.test_and_set(o)] and what follows its result. *)
Definition test_and_set (o : memory_order) (m : state) (t : tid) (th : thread pc) (i : nat) (next : bool -> pc)
    : option state :=
  '(b, h, V) ← rmw o (fun _ => true) (l m) i (clock m) (seen th);
  Some (mkState h (S (clock m)) (accesses m) (<[t := mkThread (next b) V]> (threads m))).

(** [while (l.test_and_set(acquire)) { patience--; if (!patience) { patience = 100; yield(); } }] *)
Definition spin (patience : Z) (b : bool) : pc :=
  if b then
    let patience := decr w patience in
    if patience =? 0 then Yield else Spin patience
  else Owner.

(** [return !l.test_and_set(acq_rel);] *)
Definition try_result (b : bool) : pc := if b then Outside (Some false) else Owner.

(** [l.clear(release);] *)
Definition clear (m : state) (t : tid) (th : thread pc) (i : nat) : option state :=
  '(h, V) ← store release (l m) i (clock m) false (seen th);
  Some (mkState h (S (clock m)) (accesses m) (<[t := mkThread (Outside None) V]> (threads m))).

Definition call (o : op) (p : pc) : option pc :=
  match o, p with
  | lock, Outside _ => Some (Spin SPIN_CYCLES_BEFORE_YIELD)
  | try_lock, Outside _ => Some Trying
  | unlock, Owner => Some Leaving
  | _, _ => None
  end.

Definition act (m : state) (t : tid) (th : thread pc) (i : nat) : option state :=
  match at_pc th with
  | Spin patience => test_and_set acquire m t th i (spin patience)
  | Yield => Some (go m t th (Spin SPIN_CYCLES_BEFORE_YIELD))
  | Trying => test_and_set acq_rel m t th i try_result
  | Leaving => clear m t th i
  | _ => None
  end.

Definition step (m : state) (e : event) : option state :=
  match e with
  | Call t o => th ← threads m !! t; p ← call o (at_pc th); Some (go m t th p)
  | Act t i => th ← threads m !! t; act m t th i
  | Access t =>
      th ← threads m !! t;
      if decide (at_pc th = Owner) then
        Some (mkState (l m) (S (clock m)) ({[clock m]} ∪ accesses m) (<[t := touch (clock m) th]> (threads m)))
      else None
  end.
End code.

(** [ATOMIC_FLAG_INIT], and [ts] threads outside, who have seen it. *)
Definition start (ts : gset tid) : state :=
  mkState (initial false) 1 ∅ (gset_to_gmap (mkThread (Outside None) {[0%nat]}) ts).
End SpinLock.

Module FairSpinLock.
Local Open Scope Z_scope.

Inductive op := lock | unlock.

(** At the [fetch_add] of [lock], at its [load], yielding, owning, at the
    [fetch_add] of [unlock]. *)
Inductive pc := Outside | Arriving | Spin (ticket patience : Z) | Yield (ticket : Z) | Owner (ticket : Z) | Leaving (ticket : Z).

#[export] Instance pc_eq_dec : EqDecision pc.
Proof. solve_decision. Defined.

(** Two [std::atomic_uint]. *)
Record state := mkState {
  next : list (message Z);
  active : list (message Z);
  clock : nat;
  accesses : view;
  threads : gmap tid (thread pc);
}.

Inductive event := Call (t : tid) (o : op) | Act (t : tid) (i : nat) | Access (t : tid).

Section code.
Context (w : Z).

Definition go (m : state) (t : tid) (p : pc) (V : view) : state :=
  mkState (next m) (active m) (clock m) (accesses m) (<[t := mkThread p V]> (threads m)).

Definition incr (v : Z) : Z := uint_of (v + 1).

(** [unsigned int ticket = next.fetch_add(1, acq_rel);] *)
Definition take_ticket (m : state) (t : tid) (th : thread pc) (i : nat) : option state :=
  '(ticket, h, V) ← rmw acq_rel incr (next m) i (clock m) (seen th);
  Some (mkState h (active m) (S (clock m)) (accesses m)
    (<[t := mkThread (Spin ticket SPIN_CYCLES_BEFORE_YIELD_FAIR) V]> (threads m))).

(** [while (active.load(acquire) != ticket) { ... }] *)
Definition spin (m : state) (t : tid) (th : thread pc) (ticket patience : Z) (i : nat) : option state :=
  '(v, V) ← load acquire (active m) i (seen th);
  Some (go m t
    (if v =? ticket then Owner ticket
     else let patience := decr w patience in if patience =? 0 then Yield ticket else Spin ticket patience) V).

(** [active.fetch_add(1, release);] *)
Definition leave (m : state) (t : tid) (th : thread pc) (i : nat) : option state :=
  '(_, h, V) ← rmw release incr (active m) i (clock m) (seen th);
  Some (mkState (next m) h (S (clock m)) (accesses m) (<[t := mkThread Outside V]> (threads m))).

Definition call (o : op) (p : pc) : option pc :=
  match o, p with
  | lock, Outside => Some Arriving
  | unlock, Owner ticket => Some (Leaving ticket)
  | _, _ => None
  end.

Definition act (m : state) (t : tid) (th : thread pc) (i : nat) : option state :=
  match at_pc th with
  | Arriving => take_ticket m t th i
  | Spin ticket patience => spin m t th ticket patience i
  | Yield ticket => Some (go m t (Spin ticket SPIN_CYCLES_BEFORE_YIELD_FAIR) (seen th))
  | Leaving _ => leave m t th i
  | _ => None
  end.

Definition owning (p : pc) : bool := match p with Owner _ => true | _ => false end.

Definition step (m : state) (e : event) : option state :=
  match e with
  | Call t o => th ← threads m !! t; p ← call o (at_pc th); Some (go m t p (seen th))
  | Act t i => th ← threads m !! t; act m t th i
  | Access t =>
      th ← threads m !! t;
      if owning (at_pc th) then
        Some (mkState (next m) (active m) (S (clock m)) ({[clock m]} ∪ accesses m)
          (<[t := touch (clock m) th]> (threads m)))
      else None
  end.
End code.

(** Both counters are initialised before anybody uses the lock. *)
Definition start (ts : gset tid) : state :=
  mkState (initial 0) (initial 0) 1 ∅ (gset_to_gmap (mkThread Outside {[0%nat]}) ts).

(** ** The abstract lock: a queue of threads, the first of which may enter, and
    then touch the data *)

Inductive label := Arrive (t : tid) | Enter (t : tid) | Touch (t : tid) | Leave (t : tid).

#[export] Instance label_eq_dec : EqDecision label.
Proof. solve_decision. Defined.

(** The line of threads, and whether its first is inside. *)
Record line := mkLine { waiting : list tid; inside : bool }.

Definition line_step (q : line) (l : label) : option line :=
  match l with
  | Arrive t => if decide (t ∈ waiting q) then None else Some (mkLine (waiting q ++ [t]) (inside q))
  | Enter t =>
      if decide (head (waiting q) = Some t /\ inside q = false) then Some (mkLine (waiting q) true) else None
  | Touch t => if decide (head (waiting q) = Some t /\ inside q = true) then Some q else None
  | Leave t =>
      if decide (head (waiting q) = Some t /\ inside q = true) then Some (mkLine (tail (waiting q)) false)
      else None
  end.

(** What an event of the program does to the line: a thread arrives when it
    draws its ticket, enters when its load returns its ticket, and leaves with
    its [fetch_add]. *)
Definition label_of (m : state) (e : event) : option label :=
  match e with
  | Act t i =>
      th ← threads m !! t;
      match at_pc th with
      | Arriving => Some (Arrive t)
      | Spin ticket _ =>
          '(v, _) ← load acquire (active m) i (seen th);
          if v =? ticket then Some (Enter t) else None
      | Leaving _ => Some (Leave t)
      | _ => None
      end
  | Access t => Some (Touch t)
  | _ => None
  end.
End FairSpinLock.
