(* ===== verification/SpinLockProofs.v ===== *)
(** * Spin locks: correctness

    SpinLock: the history of the flag alternates between the [clear] of an
    owner and the [test_and_set]s that read it or each other, so the lock is
    taken exactly while the latest message says so, and the first of those has
    taken over everything the owners before have done.  FairSpinLock: tickets,
    which wrap at 2^32, identify the places of a queue although a thread may
    read an old [active], because nobody's view is 2^32 tickets behind. *)

From Stdlib Require Import Sorted.
From S2P Require Import Prelude Machine Atomics SpinLock.

Local Open Scope Z_scope.

Lemma decr_patience w k : 16 <= w -> 1 <= k <= 100 -> decr w k = k - 1.
Proof.
  intros Hw Hk. apply wrap_u_small. assert (2 ^ 16 <= 2 ^ w) by (apply Z.pow_le_mono_r; lia). lia.
Qed.

(** ** SpinLock *)

Module SpinLockProofs.
Import SpinLock.

Definition owning (p : pc) : bool := match p with Owner | Leaving => true | _ => false end.
Definition point_ok (p : pc) : Prop := match p with Spin k => 1 <= k <= 100 | _ => True end.

(** A message says that the lock is taken exactly if a [test_and_set] wrote
    it, and what follows a [clear] is attached to it. *)
Definition tagged (h : list (message bool)) : Prop := Forall (fun x => attached x = value x) h.
Definition follows (x y : message bool) : Prop := value x = false -> value y = true.

(** Everything that has been done under the lock is in this view. *)
Definition complete (m : state) (V : view) : Prop := accesses m ⊆ V.

(** Who owns the lock, given what follows the last [clear]. *)
Definition holder (m : state) (x : message bool) (rest : list (message bool)) : Prop :=
  match rest with
  | [] => complete m (carries x) /\ forall t th, threads m !! t = Some th -> owning (at_pc th) = false
  | k :: _ => exists t th, threads m !! t = Some th /\ owning (at_pc th) = true /\
      ident k ∈ seen th /\ complete m (seen th) /\
      forall u thu, threads m !! u = Some thu -> owning (at_pc thu) = true -> u = t
  end.

Record inv (m : state) : Prop := {
  inv_tagged : tagged (l m);
  inv_follows : Sorted follows (l m);
  inv_holder : exists l1 x rest, l m = l1 ++ x :: rest /\ value x = false /\
    Forall (fun y => value y = true) rest /\ holder m x rest;
  inv_points : forall t th, threads m !! t = Some th -> point_ok (at_pc th);
}.

Lemma tagged_lookup h i x : tagged h -> h !! i = Some x -> attached x = value x.
Proof. intros Ht Hi. by apply (Forall_lookup_1 _ _ _ _ Ht Hi). Qed.

Lemma sorted_follows h i x y : Sorted follows h -> h !! i = Some x -> h !! S i = Some y -> follows x y.
Proof.
  intros Hs. revert i. induction Hs as [|z h Hs IH Hd]; intros i Hx Hy; [done|].
  destruct i as [|i]; simpl in *; [|by eapply IH]. injection Hx as <-.
  destruct h as [|z' h]; [done|]. injection Hy as <-. by inversion Hd.
Qed.

(** A message of a [test_and_set] fits anywhere. *)
Lemma sorted_insert h1 h2 y : value y = true -> Sorted follows (h1 ++ h2) -> Sorted follows (h1 ++ y :: h2).
Proof.
  intros Hy. induction h1 as [|x h1 IH]; simpl; intros Hs.
  - constructor; [done|]. destruct h2; constructor. intros ?. congruence.
  - inversion Hs as [|? ? Hs' Hd]; subst. constructor; [by apply IH|].
    destruct h1 as [|x' h1]; simpl in *; constructor; [by intros _|by inversion Hd].
Qed.

Lemma sorted_snoc h x y : Sorted follows (h ++ [x]) -> follows x y -> Sorted follows ((h ++ [x]) ++ [y]).
Proof.
  intros Hs Hf. induction h as [|z h IH]; simpl in *; [by repeat constructor|].
  inversion Hs as [|? ? Hs' Hd]; subst. constructor; [by apply IH|].
  destruct h; simpl in *; constructor; by inversion Hd.
Qed.

Lemma holder_true m x k rest y : holder m x (k :: rest) -> holder m x (k :: y :: rest).
Proof. done. Qed.

(** ** The accesses to the flag *)

(** A [test_and_set] that reads [false] reads the latest message. *)
Lemma reads_false m i x :
  inv m -> l m !! i = Some x -> vacant (l m) (S i) = true -> value x = false ->
  S i = length (l m) /\ exists l1, l m = l1 ++ [x] /\ holder m x [].
Proof.
  intros [Htag Hfol (l1 & x0 & rest & Hl & Hx0 & Hrest & Hh) _] Hi Hv Hx.
  assert (Hlen : S i = length (l m)).
  { unfold vacant in Hv. pose proof (lookup_lt_Some _ _ _ Hi) as Hlt.
    destruct (l m !! S i) as [y|] eqn:Hy; [|apply lookup_ge_None in Hy; lia].
    pose proof (sorted_follows _ _ _ _ Hfol Hi Hy Hx) as Hyt.
    rewrite (tagged_lookup _ _ _ Htag Hy), Hyt in Hv. done. }
  split; [done|]. destruct rest as [|k rest]; [exists l1|].
  - rewrite Hl, length_app in Hlen. simpl in Hlen. rewrite Hl in Hi.
    assert (i = length l1) as -> by lia. rewrite list_lookup_middle in Hi by done. by injection Hi as ->.
  - exfalso. rewrite Hl in Hi, Hlen. rewrite length_app in Hlen. simpl in Hlen.
    rewrite lookup_app_r in Hi by lia. replace (i - length l1)%nat with (S (length rest)) in Hi by lia.
    simpl in Hi. pose proof (Forall_lookup_1 _ _ _ _ Hrest Hi) as Hxt. simpl in Hxt. congruence.
Qed.

(** One that reads [true] leaves the owner its place. *)
Lemma insert_true l1 x rest i y z :
  (l1 ++ x :: rest) !! i = Some z -> value z = true -> value x = false -> value y = true ->
  Forall (fun y => value y = true) rest ->
  exists l1' rest', take (S i) (l1 ++ x :: rest) ++ y :: drop (S i) (l1 ++ x :: rest) = l1' ++ x :: rest' /\
    Forall (fun y => value y = true) rest' /\ head rest' = head rest.
Proof.
  intros Hi Hz Hx Hy Hrest. destruct (Nat.lt_ge_cases i (length l1)) as [Hlt|Hge].
  - exists (take (S i) l1 ++ y :: drop (S i) l1), rest.
    rewrite take_app_le, drop_app_le by lia. by rewrite <- app_assoc.
  - rewrite lookup_app_r in Hi by done. destruct (i - length l1)%nat as [|j] eqn:Hj; simpl in Hi; [congruence|].
    exists l1, (take (S j) rest ++ y :: drop (S j) rest).
    rewrite take_app_ge, drop_app_ge by lia. replace (S i - length l1)%nat with (S (S j)) by lia. simpl.
    rewrite <- app_assoc. simpl. split; [done|]. split.
    + apply Forall_app. split; [by apply Forall_take|]. constructor; [done|by apply Forall_drop].
    + by destruct rest.
Qed.

(** A move that neither takes nor gives up the lock. *)
Lemma holder_move m x rest t th p V h k :
  threads m !! t = Some th -> owning p = owning (at_pc th) -> seen th ⊆ V -> holder m x rest ->
  holder (mkState h k (accesses m) (<[t := mkThread p V]> (threads m))) x rest.
Proof.
  intros Ht Hp HV. destruct rest as [|y rest]; simpl.
  - intros [Hc Hno]. split; [done|]. intros u thu [[<- <-]|[_ Hu]]%lookup_insert_Some; [|by eapply Hno].
    simpl. rewrite Hp. by eapply Hno.
  - intros (u & thu & Hu & Ho & Hk & Hc & Hone).
    assert (Huniq : forall v thv, <[t := mkThread p V]> (threads m) !! v = Some thv -> owning (at_pc thv) = true -> v = u).
    { intros v thv [[<- <-]|[_ Hv]]%lookup_insert_Some Hov; [|by eapply Hone].
      simpl in Hov. eapply Hone; [done|congruence]. }
    destruct (decide (t = u)) as [->|Hne].
    + exists u, (mkThread p V). rewrite lookup_insert_eq. simplify_eq. simpl.
      unfold complete in *. split_and!; try done; [congruence|set_solver|simpl; set_solver].
    + exists u, thu. by rewrite lookup_insert_ne.
Qed.

Lemma points_move (ths : gmap tid (thread pc)) t p V :
  (forall u th, ths !! u = Some th -> point_ok (at_pc th)) -> point_ok p ->
  forall u th, <[t := mkThread p V]> ths !! u = Some th -> point_ok (at_pc th).
Proof. intros Hall Hp u th [[_ <-]|[_ Hu]]%lookup_insert_Some; [done|]. by eapply Hall. Qed.

Lemma inv_go m t th p :
  inv m -> threads m !! t = Some th -> owning p = owning (at_pc th) -> point_ok p -> inv (go m t th p).
Proof.
  intros [Htag Hfol (l1 & x & rest & Hl & Hx & Hrest & Hh) Hp] Ht Ho Hok.
  split; [done|done| |by apply points_move]. exists l1, x, rest. split_and!; try done.
  by eapply holder_move.
Qed.

Lemma inv_test_and_set o m t th i next m' :
  inv m -> threads m !! t = Some th -> owning (at_pc th) = false -> acquires o = true ->
  next false = Owner -> owning (next true) = false -> point_ok (next true) ->
  test_and_set o m t th i next = Some m' -> inv m'.
Proof.
  intros Hinv Ht Hno Hacq Hfalse Htrue Hok Hs. unfold test_and_set in Hs.
  destruct (rmw o _ (l m) i (clock m) (seen th)) as [[[b h] V]|] eqn:Hr; simpl in Hs; [|done]. injection Hs as <-.
  apply rmw_spec in Hr as (x & Hi & _ & Hv & -> & HV & Hh). set (y := mkMessage _ _ _ _) in Hh.
  assert (Hsub : seen th ⊆ V) by (rewrite HV; unfold learn; set_solver).
  pose proof Hinv as [Htag Hfol (l1 & x0 & rest & Hl & Hx0 & Hrest & Hhold) Hp].
  assert (tagged h) as Htag'.
  { rewrite Hh. apply Forall_app. split; [by apply Forall_take|]. constructor; [done|by apply Forall_drop]. }
  assert (Sorted follows h) as Hfol'.
  { rewrite Hh. apply sorted_insert; [done|]. by rewrite take_drop. }
  destruct (value x) eqn:Hx.
  - split; simpl; [done|done| |by apply points_move].
    destruct (insert_true l1 x0 rest i y x) as (l1' & rest' & Heq & Hrest' & Hhd); try done; [by rewrite <- Hl|].
    exists l1', x0, rest'. rewrite Hh, Hl. split_and!; try done.
    apply (holder_move m x0 rest' t th); [done|by rewrite Htrue, Hno|done|].
    destruct rest, rest'; simpl in Hhd; simplify_eq; done.
  - destruct (reads_false m i x Hinv Hi Hv Hx) as (Hlen & l2 & Hl2 & Hc & Hnobody).
    split; simpl; [done|done| |by apply points_move; [|rewrite Hfalse]].
    exists l2, x, [y]. rewrite Hh, Hlen, take_ge, drop_ge, Hl2, <- app_assoc by lia. simpl.
    split_and!; try done; [by repeat constructor|]. exists t, (mkThread (next false) V).
    rewrite lookup_insert_eq, Hfalse. split_and!; try done.
    + simpl. rewrite HV. set_solver.
    + unfold complete in *. simpl. rewrite HV. unfold learn. rewrite Hacq. set_solver.
    + intros u thu [[<- _]|[_ Hu]]%lookup_insert_Some Hou; [done|]. by rewrite (Hnobody _ _ Hu) in Hou.
Qed.

Lemma inv_clear m t th i m' :
  inv m -> threads m !! t = Some th -> at_pc th = Leaving -> clear m t th i = Some m' -> inv m'.
Proof.
  intros [Htag Hfol (l1 & x & rest & Hl & Hx & Hrest & Hhold) Hp] Ht Hpc Hs. unfold clear in Hs.
  destruct (store _ _ _ _ _ _) as [[h V]|] eqn:Hst; simpl in Hs; [|done]. injection Hs as <-.
  apply store_spec in Hst as (Hi & Hun & Hv & Hh & HV). simpl in Hh. set (y := mkMessage _ _ _ _) in Hh.
  destruct rest as [|k rest]; simpl in Hhold.
  { destruct Hhold as [_ Hno]. specialize (Hno t th Ht). by rewrite Hpc in Hno. }
  destruct Hhold as (u & thu & Hu & Ho & Hk & Hc & Hone).
  assert (t = u) as <- by (eapply Hone; [done|by rewrite Hpc]). simplify_eq.
  assert (Hend : i = length (l m)).
  { assert (Hki : l m !! S (length l1) = Some k).
    { rewrite Hl, lookup_app_r by lia. by replace (S (length l1) - length l1)%nat with 1%nat by lia. }
    pose proof (unseen_drop _ _ _ _ _ Hun Hki Hk) as Hlt. unfold vacant in Hv.
    destruct (l m !! i) as [z|] eqn:Hz; [|apply lookup_ge_None in Hz; lia].
    pose proof (tagged_lookup _ _ _ Htag Hz) as Ha.
    rewrite Hl, lookup_app_r in Hz by lia. destruct (i - length l1)%nat as [|j] eqn:Hj; [lia|]. simpl in Hz.
    rewrite Ha in Hv. by rewrite (Forall_lookup_1 _ _ _ _ Hrest Hz) in Hv. }
  rewrite Hend, take_ge, drop_ge by lia.
  split; simpl.
  - apply Forall_app. split; [done|by repeat constructor].
  - destruct (exists_last (l := k :: rest)) as (r & z & Hz); [done|]. rewrite Hz in Hl, Hrest.
    rewrite Hl. change (l1 ++ x :: r ++ [z]) with (l1 ++ (x :: r) ++ [z]). rewrite app_assoc.
    apply sorted_snoc; [rewrite <- app_assoc; simpl; by rewrite <- Hl|].
    intros Hzf. apply Forall_app in Hrest as [_ [Hzt _]%Forall_cons]. by rewrite Hzf in Hzt.
  - exists (l m), y, []. split_and!; try done. split.
    + unfold complete in *. simpl. set_solver.
    + intros v thv Hv'. simpl in Hv'. apply lookup_insert_Some in Hv' as [[<- <-]|[Hne Hv']]; [done|].
      destruct (owning (at_pc thv)) eqn:Hov; [|done]. by destruct Hne, (Hone _ _ Hv' Hov).
  - by apply points_move.
Qed.

Lemma inv_access m t th :
  inv m -> threads m !! t = Some th -> at_pc th = Owner ->
  inv (mkState (l m) (S (clock m)) ({[clock m]} ∪ accesses m) (<[t := touch (clock m) th]> (threads m))).
Proof.
  intros [Htag Hfol (l1 & x & rest & Hl & Hx & Hrest & Hhold) Hp] Ht Hpc.
  split; simpl; [done|done| |].
  - exists l1, x, rest. split_and!; try done. destruct rest as [|k rest]; simpl in *.
    { destruct Hhold as [_ Hno]. specialize (Hno t th Ht). by rewrite Hpc in Hno. }
    destruct Hhold as (u & thu & Hu & Ho & Hk & Hc & Hone).
    assert (t = u) as <- by (eapply Hone; [done|by rewrite Hpc]). simplify_eq.
    exists t, (touch (clock m) thu). rewrite lookup_insert_eq. unfold complete in *. simpl.
    split_and!; try done; [set_solver|set_solver|].
    intros v thv [[<- _]|[_ Hv]]%lookup_insert_Some Hov; [done|]. by eapply Hone.
  - intros u thu [[<- <-]|[_ Hu]]%lookup_insert_Some; [by apply (Hp t th)|by eapply Hp].
Qed.

Lemma inv_step w m e m' : 16 <= w -> inv m -> step w m e = Some m' -> inv m'.
Proof.
  intros Hw Hinv Hs. destruct e as [t o|t i|t]; simpl in Hs;
    destruct (threads m !! t) as [th|] eqn:Ht; simpl in Hs; try done.
  - destruct (at_pc th) eqn:Hpc, o; simpl in Hs; try done; injection Hs as <-;
      apply inv_go; rewrite ?Hpc; try done; simpl; unfold SPIN_CYCLES_BEFORE_YIELD; lia.
  - unfold act in Hs. destruct (at_pc th) as [|k| | | |] eqn:Hpc; try done.
    + pose proof (inv_points _ Hinv _ _ Ht) as Hk. rewrite Hpc in Hk. simpl in Hk.
      apply (inv_test_and_set acquire m t th i (spin w k)); [done|done|by rewrite Hpc|done|done| | |exact Hs]; unfold spin;
        rewrite (decr_patience w k Hw Hk); destruct (Z.eqb_spec (k - 1) 0); simpl; try done; lia.
    + injection Hs as <-. apply inv_go; rewrite ?Hpc; try done.
    + apply (inv_test_and_set acq_rel m t th i try_result); [done|done|by rewrite Hpc|done|done|done|done|exact Hs].
    + by eapply inv_clear.
  - case_decide as Hpc; [|done]. injection Hs as <-. by apply inv_access.
Qed.

(** The owner is alone, and has seen what was done under the lock. *)
Lemma holder_seen m t th : inv m -> threads m !! t = Some th -> owning (at_pc th) = true -> accesses m ⊆ seen th.
Proof.
  intros [_ _ (l1 & x & [|k rest] & _ & _ & _ & Hh) _] Ht Ho; simpl in Hh.
  - destruct Hh as [_ Hno]. by rewrite (Hno t th Ht) in Ho.
  - destruct Hh as (u & thu & Hu & _ & _ & Hc & Hone). assert (t = u) as -> by (by eapply Hone). by simplify_eq.
Qed.

Lemma holder_unique m t u th thu :
  inv m -> threads m !! t = Some th -> threads m !! u = Some thu -> owning (at_pc th) = true -> owning (at_pc thu) = true ->
  t = u.
Proof.
  intros [_ _ (l1 & x & [|k rest] & _ & _ & _ & Hh) _] Ht Hu Ho Hou; simpl in Hh.
  - destruct Hh as [_ Hno]. by rewrite (Hno t th Ht) in Ho.
  - destruct Hh as (v & thv & _ & _ & _ & _ & Hone). transitivity v; [by eapply Hone|symmetry; by eapply Hone].
Qed.

Lemma sl_inv_start ts : inv (start ts).
Proof.
  split; simpl.
  - by repeat constructor.
  - by repeat constructor.
  - exists [], (mkMessage 0 false ∅ false), []. split_and!; try done. split; [done|].
    by intros t th [_ <-]%lookup_gset_to_gmap_Some.
  - by intros t th [_ <-]%lookup_gset_to_gmap_Some.
Qed.

Lemma sl_reachable_inv w ts es m : 16 <= w -> run (step w) (start ts) es = Some m -> inv m.
Proof.
  intros Hw. apply run_invariant; [apply sl_inv_start|]. intros; by eapply inv_step.
Qed.
End SpinLockProofs.

(** ** FairSpinLock *)

Module FairSpinLockProofs.
Import FairSpinLock.

Definition ticket_of (p : pc) : option Z :=
  match p with Outside | Arriving => None | Spin k _ | Yield k | Owner k | Leaving k => Some k end.
Definition owns (p : pc) : bool := match p with Owner _ | Leaving _ => true | _ => false end.
Definition patient (p : pc) : Prop := match p with Spin _ k => 1 <= k <= 100 | _ => True end.

(** The history of a counter: its [i]-th message is [i], modulo 2^32. *)
Record counter (h : list (message Z)) : Prop := {
  cn_chained : chained h;
  cn_nonempty : h <> [];
  cn_value : forall i x, h !! i = Some x -> value x = uint_of (Z.of_nat i);
}.

Definition issued (m : state) : nat := pred (length (next m)).
Definition served (m : state) : nat := pred (length (active m)).

(** A view in which the [c]-th message of [active], or a later one, has been
    seen: nothing before it is read any more. *)
Definition knows (h : list (message Z)) (V : view) (c : nat) : Prop :=
  c = 0%nat \/ exists i x, (c <= i)%nat /\ h !! i = Some x /\ ident x ∈ V.

(** The line [q] a state stands for: the [i]-th thread in line drew number
    [served + i].  [drew] is the last number of each thread.  What the last
    ticket carries goes back no further than [c], and since then every thread
    drew at most one number. *)
Record stands (m : state) (q : line) (drew : gmap tid nat) : Prop := {
  st_nodup : NoDup (waiting q);
  st_size : Z.of_nat (size (threads m)) <= 2 ^ 32;
  st_next : counter (next m);
  st_active : counter (active m);
  st_issued : issued m = (served m + length (waiting q))%nat;
  st_place : forall i t, waiting q !! i = Some t -> exists th, threads m !! t = Some th /\
    ticket_of (at_pc th) = Some (uint_of (Z.of_nat (served m + i))) /\
    (owns (at_pc th) = true <-> i = 0%nat /\ inside q = true) /\
    drew !! t = Some (served m + i)%nat /\
    knows (active m) (seen th) (S (served m + i) - size (threads m));
  st_inside : inside q = true -> waiting q <> [];
  st_in_line : forall t th, threads m !! t = Some th -> ticket_of (at_pc th) <> None -> t ∈ waiting q;
  st_patient : forall t th, threads m !! t = Some th -> patient (at_pc th);
  st_drew : forall t j, drew !! t = Some j -> exists th, threads m !! t = Some th /\
    (ticket_of (at_pc th) = None -> knows (active m) (seen th) (S j));
  st_chain : exists c x, list.last (next m) = Some x /\ knows (active m) (carries x) c /\
    forall j, (c <= j < issued m)%nat -> exists t, drew !! t = Some j;
  st_data : if inside q
    then forall t th, head (waiting q) = Some t -> threads m !! t = Some th -> accesses m ⊆ seen th
    else exists x, list.last (active m) = Some x /\ accesses m ⊆ carries x;
}.

(** *** Counters and views *)

Lemma counter_initial : counter (initial 0).
Proof. split; [by intros i x|done|]. intros [|i] x; [by intros [= <-]|done]. Qed.

Lemma counter_length h : counter h -> (0 < length h)%nat.
Proof. intros [_ Hn _]. destruct h; simpl; [done|lia]. Qed.

Lemma counter_rmw o h i new V v h' V' :
  counter h -> rmw o incr h i new V = Some (v, h', V') ->
  exists x, list.last h = Some x /\ v = uint_of (Z.of_nat (pred (length h))) /\
    V' = {[new]} ∪ learn o x V /\ counter h' /\
    h' = h ++ [mkMessage new (incr v) (carries x ∪ (if releases o then V' else ∅)) true].
Proof.
  intros Hc Hr. pose proof (counter_length _ Hc) as Hlen. destruct Hc as [Hch Hne Hval].
  apply chained_rmw in Hr as (x & Hx & _ & Hv & HV & Hh & Hch'); [|done]. exists x.
  assert (Hvx : v = uint_of (Z.of_nat (pred (length h)))).
  { rewrite Hv. apply Hval. by rewrite last_lookup in Hx. }
  split_and!; try done. split; [done| |].
  - rewrite Hh. intros He. by apply app_eq_nil in He as [_ He].
  - rewrite Hh. intros k y [Hk|[Hge [Hk <-]%list_lookup_singleton_Some]]%lookup_app_Some; [by apply Hval|].
    simpl. unfold incr. rewrite Hvx. unfold uint_of, wrap_u. rewrite Zplus_mod_idemp_l. f_equal. lia.
Qed.

Lemma knows_mono h h' V V' c : knows h V c -> V ⊆ V' -> knows (h ++ h') V' c.
Proof.
  intros [->|(i & x & Hc & Hi & Hx)] HV; [by left|right]. exists i, x.
  split_and!; [done|by apply lookup_app_l_Some|set_solver].
Qed.

Lemma knows_view h V V' c : knows h V c -> V ⊆ V' -> knows h V' c.
Proof. rewrite <- (app_nil_r h) at 2. apply knows_mono. Qed.

Lemma knows_le h V c c' : knows h V c -> (c' <= c)%nat -> knows h V c'.
Proof. intros [->|(i & x & Hc & Hi & Hx)] Hle; [left; lia|right]. exists i, x. split_and!; [lia|done|done]. Qed.

Lemma knows_bound h V c i : knows h V c -> unseen V (drop (S i) h) = true -> (c <= i)%nat.
Proof.
  intros [->|(k & x & Hc & Hk & Hx)] Hun; [lia|]. pose proof (unseen_drop _ _ _ _ _ Hun Hk Hx). lia.
Qed.

(** Numbers drawn by different threads are as many as the threads. *)
Lemma drawn_bound (drew : gmap tid nat) c n (ts : gset tid) :
  dom drew ⊆ ts -> (forall j, (c <= j < n)%nat -> exists t, drew !! t = Some j) -> (n <= c + size ts)%nat.
Proof.
  intros Hdom Hall. assert (length (seq c (n - c)) <= length (map_to_list drew).*2)%nat as Hle.
  { apply submseteq_length, NoDup_submseteq; [apply NoDup_seq|].
    intros j [Hge Hlt]%elem_of_seq. destruct (Hall j) as [t Ht]; [lia|].
    apply list_elem_of_fmap. exists (t, j). split; [done|]. by apply elem_of_map_to_list. }
  rewrite length_seq, length_fmap, length_map_to_list, <- size_dom in Hle.
  apply subseteq_size in Hdom. lia.
Qed.

(** Fewer than 2^32 places apart, equal tickets are the same ticket. *)
Lemma uint_inj a i j :
  0 <= i < 2 ^ 32 -> 0 <= j < 2 ^ 32 -> uint_of (a + i) = uint_of (a + j) -> i = j.
Proof.
  unfold uint_of, wrap_u. intros Hi Hj He.
  assert ((i - j) mod 2 ^ 32 = 0) as Hd.
  { replace (i - j) with ((a + i) - (a + j)) by lia. rewrite Zminus_mod, He, Z.sub_diag. done. }
  apply Z.mod_divide in Hd as [k Hk]; [|lia]. nia.
Qed.

Lemma line_length m q drew : stands m q drew -> (length (waiting q) <= size (threads m))%nat.
Proof.
  intros H. rewrite <- size_dom, <- (size_list_to_set (C := gset tid)) by apply H.
  apply subseteq_size. intros t [i Hi]%elem_of_list_to_set%list_elem_of_lookup.
  destruct (st_place _ _ _ H _ _ Hi) as (th & Hth & _). by apply elem_of_dom_2 in Hth.
Qed.

(** *** The steps *)

(** A move that keeps the ticket, does not enter, and forgets nothing. *)
Lemma stands_go m q drew t th p V :
  stands m q drew -> threads m !! t = Some th -> ticket_of p = ticket_of (at_pc th) -> owns p = owns (at_pc th) ->
  patient p -> seen th ⊆ V -> stands (go m t p V) q drew.
Proof.
  intros [Hnd Hs Hn Ha His Hpl Hnil Hin Hpt Hdr Hch Hda] Ht Htk How Hok HV.
  assert (Hsz : size (<[t := mkThread p V]> (threads m)) = size (threads m)).
  { apply map_size_insert_Some. by eexists. }
  split; simpl; rewrite ?Hsz; try done.
  - intros i u (r & Hr & Htr & Hor & Hd & Hk)%Hpl. destruct (decide (t = u)) as [->|Hne].
    + exists (mkThread p V). rewrite lookup_insert_eq. simplify_eq. simpl. rewrite Htk, How.
      split_and!; try done. by eapply knows_view.
    + exists r. by rewrite lookup_insert_ne.
  - intros u r [[-> <-]|[_ Hu]]%lookup_insert_Some; [|by apply Hin]. simpl. rewrite Htk. by apply Hin.
  - intros u r [[_ <-]|[_ Hu]]%lookup_insert_Some; [done|]. by eapply Hpt.
  - intros u j (r & Hr & Hk)%Hdr. destruct (decide (t = u)) as [->|Hne].
    + exists (mkThread p V). rewrite lookup_insert_eq. split; [done|]. simplify_eq. simpl. rewrite Htk.
      intros Hno. eapply knows_view; [by apply Hk|done].
    + exists r. by rewrite lookup_insert_ne.
  - destruct (inside q); [|done]. intros u r Hu [[-> <-]|[_ Hr]]%lookup_insert_Some; [|by eapply Hda].
    simpl. transitivity (seen th); [by eapply Hda|done].
Qed.

Lemma stands_access m q drew t th :
  stands m q drew -> threads m !! t = Some th -> owning (at_pc th) = true ->
  head (waiting q) = Some t /\ inside q = true /\
  stands (mkState (next m) (active m) (S (clock m)) ({[clock m]} ∪ accesses m)
    (<[t := touch (clock m) th]> (threads m))) q drew.
Proof.
  intros H Ht Ho. assert (Htk : ticket_of (at_pc th) <> None) by (by destruct (at_pc th)).
  assert (Hhd : head (waiting q) = Some t /\ inside q = true).
  { pose proof (st_in_line _ _ _ H t th Ht Htk) as Hin. apply list_elem_of_lookup in Hin as [i Hi].
    destruct (st_place _ _ _ H _ _ Hi) as (th' & Ht' & _ & How & _). simplify_eq.
    destruct How as [How _]. destruct How as [-> Hins]; [by destruct (at_pc th)|]. by rewrite head_lookup. }
  destruct Hhd as [Hhd Hins]. split; [done|]. split; [done|].
  assert (Hgo := stands_go m q drew t th (at_pc th) ({[clock m]} ∪ seen th) H Ht eq_refl eq_refl
    (st_patient _ _ _ H _ _ Ht) ltac:(set_solver)).
  destruct Hgo as [Hnd Hs Hn Ha His Hpl Hnil Hin Hpt Hdr Hch Hda].
  split; try done. rewrite Hins in *. simpl in *. intros u r Hu Hr.
  specialize (Hda u r Hu Hr). rewrite Hhd in Hu. injection Hu as <-. rewrite lookup_insert_eq in Hr.
  injection Hr as <-. simpl in *. set_solver.
Qed.

(** What the chain of tickets carries, with what the thread knows of its own
    last turn, reaches back less than one turn of every thread. *)
Lemma chain_arrive m q drew t th x V :
  stands m q drew -> threads m !! t = Some th -> ticket_of (at_pc th) = None ->
  list.last (next m) = Some x -> carries x ⊆ V -> seen th ⊆ V ->
  exists c, knows (active m) V c /\
    (forall j, (c <= j < S (issued m))%nat -> exists u, <[t := issued m]> drew !! u = Some j) /\
    (S (issued m) <= c + size (threads m))%nat.
Proof.
  intros H Ht Htk Hx Hcx HV. destruct (st_chain _ _ _ H) as (c & x' & Hx' & Hk & Hall). simplify_eq.
  assert (exists c', (c <= c')%nat /\ knows (active m) V c' /\ forall j, drew !! t = Some j -> (j < c')%nat)
    as (c' & Hle & Hk' & Hown).
  { destruct (drew !! t) as [j0|] eqn:Hj; [|exists c; split_and!; [done|by eapply knows_view|done]].
    destruct (st_drew _ _ _ H _ _ Hj) as (th' & Ht' & Hk'). simplify_eq. specialize (Hk' Htk).
    exists (Nat.max c (S j0)). split_and!; [lia| |intros j [= <-]; lia].
    destruct (Nat.max_spec c (S j0)) as [[_ ->]|[_ ->]]; by eapply knows_view. }
  exists c'. split; [done|].
  assert (Hall' : forall j, (c' <= j < S (issued m))%nat -> exists u, <[t := issued m]> drew !! u = Some j).
  { intros j Hj. destruct (decide (j = issued m)) as [->|Hne]; [exists t; apply lookup_insert_eq|].
    destruct (Hall j) as [u Hu]; [lia|]. exists u. rewrite lookup_insert_ne; [done|].
    intros <-. specialize (Hown _ Hu). lia. }
  split; [done|]. rewrite <- size_dom. apply (drawn_bound (<[t := issued m]> drew)); [|done].
  intros u. rewrite dom_insert, elem_of_union, elem_of_singleton, !elem_of_dom.
  intros [->|[j Hj]]; [by exists th|]. destruct (st_drew _ _ _ H _ _ Hj) as (thu & Hu & _). by exists thu.
Qed.

Lemma stands_arrive m q drew t th i m' :
  stands m q drew -> threads m !! t = Some th -> at_pc th = Arriving -> take_ticket m t th i = Some m' ->
  t ∉ waiting q /\ stands m' (mkLine (waiting q ++ [t]) (inside q)) (<[t := issued m]> drew).
Proof.
  intros H Ht Hpc Hs. unfold take_ticket in Hs.
  destruct (rmw _ _ _ _ _ _) as [[[tk h] V]|] eqn:Hr; simpl in Hs; [|done]. injection Hs as <-.
  destruct (counter_rmw _ _ _ _ _ _ _ _ (st_next _ _ _ H) Hr) as (x & Hx & Htk & HV & Hcn & Hh).
  assert (Hnot : t ∉ waiting q).
  { intros [k Hk]%list_elem_of_lookup. destruct (st_place _ _ _ H _ _ Hk) as (th' & Ht' & Hp & _).
    simplify_eq. by rewrite Hpc in Hp. }
  split; [done|].
  assert (HsV : seen th ⊆ V) by (rewrite HV; pose proof (learn_sub acq_rel x (seen th)); set_solver).
  assert (HcV : carries x ⊆ V) by (rewrite HV; pose proof (learn_carries acq_rel x (seen th) eq_refl); set_solver).
  destruct (chain_arrive m q drew t th x V H Ht ltac:(by rewrite Hpc) Hx HcV HsV) as (c & Hkc & Hall & Hc).
  pose proof (counter_length _ (st_next _ _ _ H)) as Hlen.
  assert (Hsz : forall r, size (<[t := r]> (threads m)) = size (threads m)).
  { intros r. apply map_size_insert_Some. by eexists. }
  assert (Hiss : pred (length h) = S (issued m)) by (rewrite Hh, length_app; unfold issued; simpl; lia).
  destruct H as [Hnd Hsize Hn Ha His Hpl Hnil Hin Hpt Hdr Hch Hda]. unfold served in *.
  split; simpl; rewrite ?Hsz; unfold served; simpl; try done.
  - apply NoDup_app. split_and!; [done|set_solver|apply NoDup_singleton].
  - unfold issued. simpl. rewrite Hiss, length_app. simpl. lia.
  - intros k u [Hk|[Hge [Hk <-]%list_lookup_singleton_Some]]%lookup_app_Some.
    + destruct (Hpl _ _ Hk) as (r & Hr' & Htr & How & Hd & Hkn). exists r.
      assert (t <> u) by (intros ->; apply Hnot; by eapply list_elem_of_lookup_2).
      by rewrite !lookup_insert_ne.
    + exists (mkThread (Spin tk SPIN_CYCLES_BEFORE_YIELD_FAIR) V). rewrite !lookup_insert_eq. simpl.
      assert ((pred (length (active m)) + k)%nat = issued m) as -> by lia. split_and!; try done.
      * by rewrite Htk.
      * split; [done|]. intros [-> Hins]. exfalso. apply (Hnil Hins), length_zero_iff_nil. lia.
      * eapply knows_le; [done|lia].
  - intros _ Hq. by apply app_eq_nil in Hq as [_ Hq].
  - intros u r [[-> <-]|[_ Hu]]%lookup_insert_Some Hu'; [set_solver|]. apply elem_of_app. left. by eapply Hin.
  - intros u r [[_ <-]|[_ Hu]]%lookup_insert_Some; [|by eapply Hpt].
    simpl. unfold SPIN_CYCLES_BEFORE_YIELD_FAIR. lia.
  - intros u j [[-> <-]|[Hne Hu]]%lookup_insert_Some; [eexists; by rewrite lookup_insert_eq|].
    rewrite lookup_insert_ne by done. by apply Hdr.
  - exists c. eexists. split; [by rewrite Hh, last_snoc|]. simpl. split; [eapply knows_view; [done|set_solver]|].
    intros j Hj. apply Hall. unfold issued in Hj. simpl in Hj. rewrite Hiss in Hj. lia.
  - destruct (inside q) eqn:Hins; [|done]. intros u r Hu Hr'. specialize (Hnil eq_refl).
    assert (head (waiting q) = Some u) as Hu' by (by destruct (waiting q)).
    rewrite lookup_insert_ne in Hr'; [by eapply Hda|]. intros <-. apply Hnot.
    destruct (waiting q); [done|]. injection Hu' as ->. by left.
Qed.

(** Who reads its own ticket reads the latest message, and is the first. *)
Lemma reads_ticket m q drew t th k n i v V :
  stands m q drew -> threads m !! t = Some th -> at_pc th = Spin k n ->
  load acquire (active m) i (seen th) = Some (v, V) -> v = k ->
  head (waiting q) = Some t /\ inside q = false /\
  exists x, list.last (active m) = Some x /\ V = learn acquire x (seen th).
Proof.
  intros H Ht Hpc (x & Hx & Hun & Hv & HV)%load_spec Hk.
  pose proof (st_size _ _ _ H) as Hsize. pose proof (line_length _ _ _ H) as Hlen.
  assert (Hin : t ∈ waiting q) by (eapply (st_in_line _ _ _ H); [done|by rewrite Hpc]).
  apply list_elem_of_lookup in Hin as [j Hj].
  destruct (st_place _ _ _ H _ _ Hj) as (th' & Ht' & Htk & How & _ & Hkn). rewrite Ht in Ht'. injection Ht' as <-.
  rewrite Hpc in Htk, How. simpl in Htk, How. injection Htk as Htk.
  pose proof (knows_bound _ _ _ _ Hkn Hun) as Hlow. pose proof (lookup_lt_Some _ _ _ Hx) as Hhigh.
  pose proof (lookup_lt_Some _ _ _ Hj) as Hjl.
  assert (Hij : (i = served m + j)%nat).
  { rewrite (cn_value _ (st_active _ _ _ H) _ _ Hx) in Hv. unfold served in *.
    set (a := Z.of_nat (pred (length (active m)) + j)) in *.
    assert (Hat : uint_of (Z.of_nat i) = uint_of a) by congruence. clear Hk. rename Hat into Hk.
    replace (Z.of_nat i) with (Z.of_nat i + 0) in Hk by lia.
    replace a with (Z.of_nat i + (a - Z.of_nat i)) in Hk by lia.
    apply uint_inj in Hk; unfold a in *; lia. }
  unfold served in Hij. assert (j = 0%nat) as -> by lia.
  split; [by rewrite head_lookup|]. split.
  - destruct (inside q); [|done]. destruct How as [_ How]. by specialize (How (conj eq_refl eq_refl)).
  - exists x. split; [|done]. rewrite last_lookup, <- Hx. f_equal. lia.
Qed.

Lemma stands_enter m q drew t th k n i v V :
  stands m q drew -> threads m !! t = Some th -> at_pc th = Spin k n ->
  load acquire (active m) i (seen th) = Some (v, V) -> v = k ->
  head (waiting q) = Some t /\ inside q = false /\ stands (go m t (Owner k) V) (mkLine (waiting q) true) drew.
Proof.
  intros H Ht Hpc Hl Hv. destruct (reads_ticket _ _ _ _ _ _ _ _ _ _ H Ht Hpc Hl Hv) as (Hhd & Hins & x & Hx & HV).
  split; [done|]. split; [done|].
  assert (HsV : seen th ⊆ V) by (rewrite HV; apply learn_sub).
  assert (Hsz : size (<[t := mkThread (Owner k) V]> (threads m)) = size (threads m)).
  { apply map_size_insert_Some. by eexists. }
  destruct H as [Hnd Hs Hn Ha His Hpl Hnil Hin Hpt Hdr Hch Hda].
  split; simpl; rewrite ?Hsz; try done.
  - intros j u Hj. destruct (Hpl _ _ Hj) as (r & Hr & Htr & Hor & Hd & Hk). destruct (decide (t = u)) as [->|Hne].
    + assert (j = 0%nat) as ->. { rewrite head_lookup in Hhd. by eapply NoDup_lookup. }
      exists (mkThread (Owner k) V). rewrite lookup_insert_eq. simplify_eq. rewrite Hpc in Htr. simpl in *.
      split_and!; try done. by eapply knows_view.
    + exists r. rewrite lookup_insert_ne by done. split_and!; try done. rewrite Hor, Hins.
      split; [by intros []|]. intros [-> _]. rewrite head_lookup in Hhd. congruence.
  - intros _ Hq. by rewrite Hq in Hhd.
  - intros u r [[-> <-]|[_ Hu]]%lookup_insert_Some Hr; [|by eapply Hin].
    rewrite head_lookup in Hhd. by eapply list_elem_of_lookup_2.
  - intros u r [[_ <-]|[_ Hu]]%lookup_insert_Some; [done|]. by eapply Hpt.
  - intros u j (r & Hr & Hk)%Hdr. destruct (decide (t = u)) as [->|Hne].
    + exists (mkThread (Owner k) V). by rewrite lookup_insert_eq.
    + exists r. by rewrite lookup_insert_ne.
  - intros u r Hu [[_ <-]|[Hne Hr]]%lookup_insert_Some; [|congruence]. simpl.
    rewrite Hins in Hda. destruct Hda as (x' & Hx' & Hac). rewrite Hx in Hx'. injection Hx' as <-.
    rewrite HV. etransitivity; [exact Hac|by apply learn_carries].
Qed.

Lemma stands_leave m q drew t th k i m' :
  stands m q drew -> threads m !! t = Some th -> at_pc th = Leaving k -> leave m t th i = Some m' ->
  head (waiting q) = Some t /\ inside q = true /\ stands m' (mkLine (tail (waiting q)) false) drew.
Proof.
  intros H Ht Hpc Hs. unfold leave in Hs.
  destruct (rmw _ _ _ _ _ _) as [[[v h] V]|] eqn:Hr; simpl in Hs; [|done]. injection Hs as <-.
  destruct (counter_rmw _ _ _ _ _ _ _ _ (st_active _ _ _ H) Hr) as (x & Hx & Htk & HV & Hcn & Hh).
  pose proof (counter_length _ (st_active _ _ _ H)) as Hlen.
  assert (HsV : seen th ⊆ V) by (rewrite HV; pose proof (learn_sub release x (seen th)); set_solver).
  assert (Hsz : forall r, size (<[t := r]> (threads m)) = size (threads m)).
  { intros r. apply map_size_insert_Some. by eexists. }
  destruct H as [Hnd Hsize Hn Ha His Hpl Hnil Hin Hpt Hdr Hch Hda].
  assert (t ∈ waiting q) as [j Hj]%list_elem_of_lookup by (by eapply Hin; [|rewrite Hpc]).
  destruct (Hpl _ _ Hj) as (th' & Ht' & _ & How & Hd & _). rewrite Ht in Ht'. injection Ht' as <-.
  destruct How as [How _]. destruct How as [-> Hins]; [by rewrite Hpc|]. rewrite Nat.add_0_r in Hd.
  destruct (waiting q) as [|t' l] eqn:Hq; [done|]. simpl in Hj. injection Hj as ->.
  apply NoDup_cons in Hnd as [Hnt Hnd]. split; [done|]. split; [done|].
  assert (Hserved : pred (length h) = S (served m)) by (rewrite Hh, length_app; unfold served; simpl; lia).
  rewrite Hins in Hda.
  split; simpl; rewrite ?Hsz; unfold served; simpl; rewrite ?Hserved; try done.
  - unfold issued in *. simpl in *. lia.
  - intros j u Hu. destruct (Hpl (S j) u) as (r & Hr' & Htr & How & Hdu & Hk); [done|].
    assert (t <> u) by (intros ->; apply Hnt; by eapply list_elem_of_lookup_2).
    exists r. rewrite lookup_insert_ne by done.
    replace (S (served m) + j)%nat with (served m + S j)%nat by lia. split_and!; try done.
    + rewrite How. split; intros [? ?]; done.
    + rewrite Hh. by eapply knows_mono.
  - intros u r [[_ <-]|[Hne Hu]]%lookup_insert_Some Hr'; [done|]. specialize (Hin u r Hu Hr'). set_solver.
  - intros u r [[_ <-]|[_ Hu]]%lookup_insert_Some; [done|]. by eapply Hpt.
  - intros u j Hu. destruct (Hdr u j Hu) as (r & Hr' & Hk). destruct (decide (t = u)) as [->|Hne].
    + exists (mkThread Outside V). rewrite lookup_insert_eq. split; [done|]. intros _. simpl.
      rewrite Hd in Hu. injection Hu as <-. right. exists (S (served m)). eexists. split; [done|].
      rewrite Hh. split; [apply list_lookup_middle; unfold served; lia|]. simpl. rewrite HV. set_solver.
    + exists r. rewrite lookup_insert_ne by done. split; [done|]. intros Hno. rewrite Hh.
      by eapply knows_mono; [apply Hk|].
  - destruct Hch as (c & y & Hy & Hk & Hall). exists c, y. split_and!; [done| |done].
    rewrite Hh. by eapply knows_mono.
  - eexists. rewrite Hh, last_snoc. split; [done|]. simpl.
    transitivity (seen th); [by eapply Hda|]. set_solver.
Qed.

(** One event, and what it does to the line. *)
Lemma stands_step w m q drew e m' :
  16 <= w -> stands m q drew -> step w m e = Some m' ->
  match label_of m e with
  | None => stands m' q drew
  | Some lb => exists q' drew', line_step q lb = Some q' /\ stands m' q' drew'
  end.
Proof.
  intros Hw H Hs. destruct e as [t o|t i|t]; simpl in *;
    destruct (threads m !! t) as [th|] eqn:Ht; simpl in *; try done.
  - destruct (at_pc th) eqn:Hpc, o; simpl in Hs; try done; injection Hs as <-;
      (eapply stands_go; [done|done|by rewrite Hpc|by rewrite Hpc|done|done]).
  - unfold act in Hs. destruct (at_pc th) as [| |k n|k|k|k] eqn:Hpc; try done.
    + destruct (stands_arrive _ _ _ _ _ _ _ H Ht Hpc Hs) as [Hnot H'].
      simpl. rewrite decide_False by done. by do 2 eexists.
    + unfold spin in Hs. destruct (load acquire (active m) i (seen th)) as [[v V]|] eqn:Hl; simpl in Hs |- *; [|done].
      injection Hs as <-. destruct (Z.eqb_spec v k) as [Hv|Hv].
      * destruct (stands_enter _ _ _ _ _ _ _ _ _ _ H Ht Hpc Hl Hv) as (Hhd & Hins & H'). simpl.
        rewrite decide_True by done. by do 2 eexists.
      * pose proof (st_patient _ _ _ H _ _ Ht) as Hn. rewrite Hpc in Hn. simpl in Hn.
        apply load_spec in Hl as (x & _ & _ & _ & ->). rewrite (decr_patience w n Hw Hn).
        destruct (Z.eqb_spec (n - 1) 0);
          (eapply stands_go; [done|done|by rewrite Hpc|by rewrite Hpc| |apply learn_sub]); simpl; [done|lia].
    + injection Hs as <-. eapply stands_go; [done|done|by rewrite Hpc|by rewrite Hpc| |done].
      simpl. unfold SPIN_CYCLES_BEFORE_YIELD_FAIR. lia.
    + destruct (stands_leave _ _ _ _ _ _ _ _ H Ht Hpc Hs) as (Hhd & Hins & H').
      simpl. rewrite decide_True by done. by do 2 eexists.
  - destruct (owning (at_pc th)) eqn:Ho; [|done]. injection Hs as <-.
    destruct (stands_access _ _ _ _ _ H Ht Ho) as (Hhd & Hins & H'). rewrite decide_True by done. by do 2 eexists.
Qed.

Lemma stands_start ts : Z.of_nat (size ts) <= 2 ^ 32 -> stands (start ts) (mkLine [] false) ∅.
Proof.
  intros Hs. split; simpl; try done.
  - apply NoDup_nil_2.
  - by rewrite <- size_dom, dom_gset_to_gmap.
  - apply counter_initial.
  - apply counter_initial.
  - by intros t th [_ <-]%lookup_gset_to_gmap_Some.
  - by intros t th [_ <-]%lookup_gset_to_gmap_Some.
  - exists 0%nat. eexists. split; [done|]. split; [by left|]. unfold issued. simpl. lia.
  - eexists. split; [done|]. simpl. set_solver.
Qed.

Lemma reachable_line w ts es m :
  16 <= w -> Z.of_nat (size ts) <= 2 ^ 32 -> run (step w) (start ts) es = Some m ->
  exists q drew, run line_step (mkLine [] false) (labels (step w) label_of (start ts) es) = Some q /\ stands m q drew.
Proof.
  intros Hw Hs Hrun.
  destruct (simulation_run (step w) line_step label_of (fun m q => exists drew, stands m q drew)) with
    (s := start ts) (a := mkLine [] false) (es := es) (s' := m) as (q & Hq & drew & H); [| |done|by exists q, drew].
  - intros s a e s' [drew H] Hstep. pose proof (stands_step w s a drew e s' Hw H Hstep) as Hst.
    destruct (label_of s e); [|by exists drew]. destruct Hst as (q' & drew' & ? & ?). exists q'. by split; [|exists drew'].
  - exists ∅. by apply stands_start.
Qed.
End FairSpinLockProofs.
