(* ===== verification/SpinLockProps.v ===== *)
(** * Spin locks: the properties

    With the memory orders of the source, in every execution of the release
    and acquire memory of [Atomics]. *)

From S2P Require Import Prelude Machine Atomics SpinLock SpinLockProofs.

Local Open Scope Z_scope.

Module SpinLockProps.
Import SpinLock SpinLockProofs.

(** C19: SpinLock is a mutex, and its memory orders suffice. In every
    reachable state at most one thread owns the lock; the owner has seen every
    access to the data made under the lock before, so its own are never a
    race; and the patience of a spinning thread is between 1 and 100: its
    decrement never wraps. *)
Theorem sl_exclusion w ts es m :
  16 <= w -> run (step w) (start ts) es = Some m ->
  (forall t u tht thu, threads m !! t = Some tht -> threads m !! u = Some thu ->
     at_pc tht = Owner -> at_pc thu = Owner -> t = u) /\
  (forall t th, threads m !! t = Some th -> at_pc th = Owner -> race_free (accesses m) th = true) /\
  (forall t th k, threads m !! t = Some th -> at_pc th = Spin k -> 1 <= k <= 100).
Proof.
  intros Hw Hrun.
  destruct (sl_reachable_inv _ _ _ _ Hw Hrun) as [_ _ (l1 & x & rest & _ & _ & _ & Hh) Hp].
  assert (Howner : forall t th, threads m !! t = Some th -> at_pc th = Owner ->
    accesses m ⊆ seen th /\ forall u thu, threads m !! u = Some thu -> owning (at_pc thu) = true -> u = t).
  { intros t th Ht Hpc. destruct rest as [|k rest]; simpl in Hh.
    - destruct Hh as [_ Hno]. specialize (Hno t th Ht). by rewrite Hpc in Hno.
    - destruct Hh as (u & thu & Hu & _ & _ & Hc & Hone).
      assert (t = u) as -> by (eapply Hone; [done|by rewrite Hpc]). by simplify_eq. }
  split_and!.
  - intros t u tht thu Ht Hu Hot Hou. destruct (Howner t tht Ht Hot) as [_ Hone].
    symmetry. eapply Hone; [done|by rewrite Hou].
  - intros t th Ht Hpc. apply bool_decide_eq_true. by apply (Howner t).
  - intros t th k Ht Hpc. specialize (Hp _ _ Ht). by rewrite Hpc in Hp.
Qed.

(** The latest message of the flag says whether the lock is taken. *)
Lemma latest_flag m :
  inv m -> exists x, last (l m) = Some x /\
    (value x = false <-> forall t th, threads m !! t = Some th -> owning (at_pc th) = false).
Proof.
  intros [_ _ (l1 & x & rest & Hl & Hx & Hrest & Hh) _]. destruct rest as [|k rest]; simpl in Hh.
  - exists x. rewrite Hl, last_snoc. split; [done|]. split; [by intros _; apply Hh|done].
  - destruct (last (k :: rest)) as [z|] eqn:Hz; [|by apply last_None in Hz].
    exists z. rewrite Hl, last_app, last_cons, Hz. split; [done|].
    rewrite last_lookup in Hz. pose proof (Forall_lookup_1 _ _ _ _ Hrest Hz) as Hzt. simpl in Hzt.
    split; [congruence|]. intros Hno. destruct Hh as (u & thu & Hu & Ho & _). by rewrite (Hno u thu Hu) in Ho.
Qed.

(** A free SpinLock is taken by whoever tries next and reads the latest
    value: when no thread owns the lock (or is clearing it), that access of a
    spinning thread, or of [try_lock], acquires it; otherwise both leave the
    owner alone. *)
Theorem sl_progress w ts es m t th :
  16 <= w -> run (step w) (start ts) es = Some m -> threads m !! t = Some th ->
  (exists k, at_pc th = Spin k) \/ at_pc th = Trying ->
  exists m' th', step w m (Act t (pred (length (l m)))) = Some m' /\ threads m' !! t = Some th' /\
    (at_pc th' = Owner <-> forall u thu, threads m !! u = Some thu -> owning (at_pc thu) = false).
Proof.
  intros Hw Hrun Ht Hpc. destruct (latest_flag m (sl_reachable_inv _ _ _ _ Hw Hrun)) as (x & Hx & Hfree).
  assert (Htas : forall o nx, (forall b, nx b = Owner <-> b = false) ->
    exists m' th', test_and_set o m t th (pred (length (l m))) nx = Some m' /\ threads m' !! t = Some th' /\
      (at_pc th' = Owner <-> forall u thu, threads m !! u = Some thu -> owning (at_pc thu) = false)).
  { intros o nx Hnx. unfold test_and_set. rewrite (rmw_latest _ _ _ _ _ _ Hx). simpl.
    do 2 eexists. split; [done|]. simpl. rewrite lookup_insert_eq. split; [done|]. simpl. by rewrite Hnx. }
  simpl. rewrite Ht. simpl. unfold act. destruct Hpc as [[k ->]| ->]; apply Htas; intros []; simpl; try done.
  case_match; done.
Qed.

(** Thread 0 owns the lock and touches the data while thread 1 spins; when 0
    has left, the [try_lock] of thread 2 still reads an old message and fails,
    and 1 acquires the lock. *)
Definition handed : list event :=
  [Call 0%nat lock; Act 0%nat 0%nat; Access 0%nat; Call 1%nat lock; Act 1%nat 1%nat;
   Call 0%nat unlock; Act 0%nat 3%nat; Call 2%nat try_lock; Act 2%nat 2%nat; Act 1%nat 4%nat].

Definition three : gset tid := {[ 0%nat; 1%nat; 2%nat ]}.

Lemma sl_exclusion_witness :
  exists m th, run (step 16) (start three) handed = Some m /\
    threads m !! 1%nat = Some th /\ at_pc th = Owner /\ accesses m = {[2%nat]} /\
    at_pc <$> threads m !! 2%nat = Some (Outside (Some false)) /\ race_free (accesses m) th = true.
Proof.
  assert (16 <= 16) as Hw by lia.
  reach (run (step 16) (start three) handed)
    with (fun m : state => at_pc <$> threads m !! 1%nat = Some Owner /\ accesses m = {[2%nat]} /\
      at_pc <$> threads m !! 2%nat = Some (Outside (Some false))) as m Hrun Hm.
  destruct Hm as (Hpc & Hacc & Htry). apply fmap_Some in Hpc as (th & Ht & Hpc).
  destruct (sl_exclusion 16 three handed m Hw Hrun) as (_ & Hrace & _).
  exists m, th. split_and!; [exact Hrun|exact Ht|by symmetry|exact Hacc|exact Htry|].
  apply (Hrace 1%nat th Ht). by symmetry.
Defined.

Lemma sl_progress_witness :
  exists m th m' th', run (step 16) (start three) (take 9 handed) = Some m /\ threads m !! 1%nat = Some th /\
    at_pc th = Spin 99 /\ step 16 m (Act 1%nat (pred (length (l m)))) = Some m' /\ threads m' !! 1%nat = Some th' /\
    (at_pc th' = Owner <-> forall u thu, threads m !! u = Some thu -> owning (at_pc thu) = false).
Proof.
  assert (16 <= 16) as Hw by lia.
  reach (run (step 16) (start three) (take 9 handed))
    with (fun m : state => at_pc <$> threads m !! 1%nat = Some (Spin 99)) as m Hrun Hm.
  apply fmap_Some in Hm as (th & Ht & Hpc). symmetry in Hpc.
  destruct (sl_progress 16 three (take 9 handed) m 1%nat th Hw Hrun Ht (or_introl (ex_intro _ 99 Hpc)))
    as (m' & th' & Hs & Ht' & Ho).
  exists m, th, m', th'. split_and!; [exact Hrun|exact Ht|exact Hpc|exact Hs|exact Ht'|exact Ho].
Defined.
End SpinLockProps.

Module FairSpinLockProps.
Import FairSpinLock FairSpinLockProofs.

(** C18: FairSpinLock refines a FIFO line, and its memory orders suffice. With
    at most 2^32 threads, the arrivals, entries, exits and accesses to the
    protected data of any run are a run
    of the abstract line, in which only the first in line enters, only when
    nobody is inside, and only who is inside touches the data: the lock is granted in the order of arrival although the
    tickets wrap and [active] may be read late; and the owner has seen every
    access to the data made under the lock before. *)
Theorem fsl_refines_line w ts es m :
  16 <= w -> Z.of_nat (size ts) <= 2 ^ 32 -> run (step w) (start ts) es = Some m ->
  exists q, run line_step (mkLine [] false) (labels (step w) label_of (start ts) es) = Some q /\
    (forall t th k, threads m !! t = Some th -> at_pc th = Owner k ->
       head (waiting q) = Some t /\ inside q = true /\ race_free (accesses m) th = true) /\
    (forall t, t ∈ waiting q <-> exists th, threads m !! t = Some th /\ ticket_of (at_pc th) <> None).
Proof.
  intros Hw Hs Hrun. destruct (reachable_line _ _ _ _ Hw Hs Hrun) as (q & drew & Hq & H).
  exists q. split_and!; [done| |].
  - intros t th k Ht Hpc.
    assert (Hin : t ∈ waiting q) by (eapply (st_in_line _ _ _ H); [done|by rewrite Hpc]).
    apply list_elem_of_lookup in Hin as [i Hi]. destruct (st_place _ _ _ H _ _ Hi) as (th' & Ht' & _ & How & _).
    rewrite Ht in Ht'. injection Ht' as <-. destruct How as [How _]. destruct How as [-> Hins]; [by rewrite Hpc|].
    rewrite <- head_lookup in Hi. split_and!; [done|done|]. apply bool_decide_eq_true.
    pose proof (st_data _ _ _ H) as Hd. rewrite Hins in Hd. by apply (Hd t th).
  - intros t. split.
    + intros [i Hi]%list_elem_of_lookup. destruct (st_place _ _ _ H _ _ Hi) as (th & Ht & Htk & _).
      exists th. split; [done|]. by rewrite Htk.
    + intros (th & Ht & Hne). by eapply (st_in_line _ _ _ H).
Qed.

(** FairSpinLock is a mutex: with at most 2^32 threads, in every reachable
    state at most one thread owns the lock. *)
Theorem fsl_exclusion w ts es m t u tht thu k j :
  16 <= w -> Z.of_nat (size ts) <= 2 ^ 32 -> run (step w) (start ts) es = Some m ->
  threads m !! t = Some tht -> threads m !! u = Some thu -> at_pc tht = Owner k -> at_pc thu = Owner j -> t = u.
Proof.
  intros Hw Hs Hrun Ht Hu Hpt Hpu. destruct (reachable_line _ _ _ _ Hw Hs Hrun) as (q & drew & _ & H).
  assert (Hhd : forall v thv n, threads m !! v = Some thv -> at_pc thv = Owner n -> head (waiting q) = Some v).
  { intros v thv n Hv Hpv.
    assert (Hin : v ∈ waiting q) by (eapply (st_in_line _ _ _ H); [done|by rewrite Hpv]).
    apply list_elem_of_lookup in Hin as [i Hi]. destruct (st_place _ _ _ H _ _ Hi) as (th' & Hv' & _ & How & _).
    rewrite Hv in Hv'. injection Hv' as <-. destruct How as [How _]. destruct How as [-> _]; [by rewrite Hpv|].
    by rewrite head_lookup. }
  pose proof (Hhd t tht k Ht Hpt). pose proof (Hhd u thu j Hu Hpu). congruence.
Qed.

(** FairSpinLock serves its line. When nobody is inside, the first in line
    enters as soon as its load returns the latest value of [active]. *)
Theorem fsl_progress w ts es m :
  16 <= w -> Z.of_nat (size ts) <= 2 ^ 32 -> run (step w) (start ts) es = Some m ->
  exists q, run line_step (mkLine [] false) (labels (step w) label_of (start ts) es) = Some q /\
    forall t th k n, head (waiting q) = Some t -> inside q = false -> threads m !! t = Some th -> at_pc th = Spin k n ->
      exists m', step w m (Act t (pred (length (active m)))) = Some m' /\ at_pc <$> threads m' !! t = Some (Owner k).
Proof.
  intros Hw Hs Hrun. destruct (reachable_line _ _ _ _ Hw Hs Hrun) as (q & drew & Hq & H).
  exists q. split; [done|]. intros t th k n Hhd Hins Ht Hpc. rewrite head_lookup in Hhd.
  destruct (st_place _ _ _ H _ _ Hhd) as (th' & Ht' & Htk & _). simplify_eq. rewrite Hpc in Htk. simpl in Htk.
  injection Htk as Hk. pose proof (st_active _ _ _ H) as [_ Hne Hval].
  destruct (list.last (active m)) as [x|] eqn:Hx; [|by apply last_None in Hx].
  assert (value x = k) as Hv by (rewrite Hk, Nat.add_0_r; apply Hval; by rewrite last_lookup in Hx).
  simpl. rewrite Ht. simpl. unfold act. rewrite Hpc. unfold spin. rewrite (load_latest _ _ _ _ Hx). simpl.
  eexists. split; [done|]. rewrite Hv, Z.eqb_refl. simpl. by rewrite lookup_insert_eq.
Qed.

(** Threads 0, 1 and 2 arrive in this order; 1 reads [active] late once, and
    enters when 0 has touched the data and left. *)
Definition in_turn : list event :=
  [Call 0%nat lock; Call 1%nat lock; Call 2%nat lock; Act 0%nat 0%nat; Act 1%nat 1%nat; Act 2%nat 2%nat;
   Act 2%nat 0%nat; Act 0%nat 0%nat; Access 0%nat; Call 0%nat unlock; Act 0%nat 0%nat; Act 1%nat 0%nat; Act 1%nat 1%nat].

Definition everybody : gset tid := {[ 0%nat; 1%nat; 2%nat ]}.

Lemma fsl_refines_line_witness :
  exists m th q, run (step 16) (start everybody) in_turn = Some m /\
    run line_step (mkLine [] false)
      [Arrive 0%nat; Arrive 1%nat; Arrive 2%nat; Enter 0%nat; Touch 0%nat; Leave 0%nat; Enter 1%nat] = Some q /\
    threads m !! 1%nat = Some th /\ at_pc th = Owner 1 /\ accesses m = {[4%nat]} /\
    head (waiting q) = Some 1%nat /\ inside q = true /\ race_free (accesses m) th = true.
Proof.
  assert (16 <= 16) as Hw by lia. assert (Z.of_nat (size everybody) <= 2 ^ 32) as Hs by (by vm_compute).
  assert (labels (step 16) label_of (start everybody) in_turn
    = [Arrive 0%nat; Arrive 1%nat; Arrive 2%nat; Enter 0%nat; Touch 0%nat; Leave 0%nat; Enter 1%nat]) as Hl
    by (vm_compute; reflexivity).
  reach (run (step 16) (start everybody) in_turn)
    with (fun m : state => at_pc <$> threads m !! 1%nat = Some (Owner 1) /\ accesses m = {[4%nat]}) as m Hrun Hm.
  destruct Hm as [Hpc Hacc]. apply fmap_Some in Hpc as (th & Ht & Hpc). symmetry in Hpc.
  destruct (fsl_refines_line 16 everybody in_turn m Hw Hs Hrun) as (q & Hq & Ho & _). rewrite Hl in Hq.
  destruct (Ho 1%nat th 1 Ht Hpc) as (Hhd & Hins & Hrace).
  exists m, th, q. split_and!; [exact Hrun|exact Hq|exact Ht|exact Hpc|exact Hacc|exact Hhd|exact Hins|exact Hrace].
Defined.

Lemma fsl_exclusion_witness :
  exists m th, run (step 16) (start everybody) in_turn = Some m /\ threads m !! 1%nat = Some th /\ at_pc th = Owner 1 /\
    forall u thu j, threads m !! u = Some thu -> at_pc thu = Owner j -> 1%nat = u.
Proof.
  assert (16 <= 16) as Hw by lia. assert (Z.of_nat (size everybody) <= 2 ^ 32) as Hs by (by vm_compute).
  reach (run (step 16) (start everybody) in_turn)
    with (fun m : state => at_pc <$> threads m !! 1%nat = Some (Owner 1)) as m Hrun Hm.
  apply fmap_Some in Hm as (th & Ht & Hpc). symmetry in Hpc. exists m, th.
  split_and!; [exact Hrun|exact Ht|exact Hpc|]. intros u thu j Hu Hpu.
  exact (fsl_exclusion 16 everybody in_turn m 1%nat u th thu 1 j Hw Hs Hrun Ht Hu Hpc Hpu).
Defined.
End FairSpinLockProps.
