(* ===== verification/SpinLockFair.v ===== *)
(** * FairSpinLock is starvation free

    In an infinite execution in which the scheduler, the memory and the owners
    are fair, every thread that calls [lock] gets the lock: the head of the
    line enters, for it reads the latest [active] in the end, and leaves, so
    everybody behind moves up. *)

From S2P Require Import Prelude Machine Atomics SpinLock SpinLockProofs Fairness.

Local Open Scope Z_scope.

Module FairSpinLockFair.
Import FairSpinLock FairSpinLockProofs.

(** A thread in [lock], and in the loop of [lock]. *)
Definition wants (p : pc) : bool := match p with Arriving | Spin _ _ | Yield _ => true | _ => false end.
Definition loops (p : pc) : bool := match p with Spin _ _ | Yield _ => true | _ => false end.
Definition spins (p : pc) : bool := match p with Spin _ _ => true | _ => false end.

(** A thread that is in the middle of a method. *)
Definition busy (p : pc) : bool := match p with Outside | Owner _ => false | _ => true end.

(** [t] is at a point with property [f]. *)
Definition at_point (f : pc -> bool) (t : tid) (m : state) : bool :=
  match threads m !! t with Some th => f (at_pc th) | None => false end.

(** Every thread in the middle of a method goes on; who owns the lock calls
    [unlock]; and a write to [active] becomes visible to every thread in
    finite time. *)
Record fair (σ : nat -> state) (ev : nat -> option event) : Prop := {
  fair_schedule n t : at_point busy t (σ n) = true -> exists m i, (n <= m)%nat /\ ev m = Some (Act t i);
  fair_owner n t : at_point owning t (σ n) = true -> exists m, (n <= m)%nat /\ ev m = Some (Call t unlock);
  fair_memory n t : exists N, forall m i, (N <= m)%nat -> ev m = Some (Act t i) -> at_point spins t (σ m) = true ->
    (length (active (σ n)) <= S i)%nat;
}.

Definition is_act (t : tid) (e : event) : Prop := match e with Act u _ => u = t | _ => False end.

#[export] Instance is_act_dec t e : Decision (is_act t e).
Proof. destruct e; simpl; apply _. Defined.

#[export] Instance op_eq_dec : EqDecision op.
Proof. solve_decision. Defined.

#[export] Instance event_eq_dec : EqDecision event.
Proof. solve_decision. Defined.

(** ** One event *)

Lemma at_point_spec f t m : at_point f t m = true <-> exists th, threads m !! t = Some th /\ f (at_pc th) = true.
Proof. unfold at_point. destruct (threads m !! t); naive_solver. Qed.

(** A thread in the middle of a method moves by its own accesses only. *)
Lemma busy_keeps w t th m e m' :
  threads m !! t = Some th -> busy (at_pc th) = true -> step w m e = Some m' -> ~ is_act t e -> threads m' !! t = Some th.
Proof.
  intros Ht Hb Hs Hno. destruct e as [u o|u i|u]; simpl in Hs, Hno;
    destruct (threads m !! u) as [thu|] eqn:Hu; simpl in Hs; try done.
  - destruct (decide (u = t)) as [->|Hne].
    + assert (thu = th) as -> by congruence. destruct o, (at_pc th); simplify_eq/=.
    + destruct (call o (at_pc thu)); simplify_eq/=. by rewrite lookup_insert_ne.
  - unfold act, take_ticket, spin, leave in Hs. destruct (at_pc thu); try done;
      try (destruct (rmw _ _ _ _ _ _) as [[[]]|]); try (destruct (load _ _ _ _) as [[]|]); simplify_eq/=;
      by rewrite lookup_insert_ne.
  - destruct (owning (at_pc thu)) eqn:Ho; simplify_eq/=.
    rewrite lookup_insert_ne; [done|]. intros ->. assert (thu = th) as -> by congruence. by destruct (at_pc th).
Qed.

(** The owner stays the owner until it calls [unlock]. *)
Lemma owner_keeps w t k m e m' :
  at_pc <$> threads m !! t = Some (Owner k) -> step w m e = Some m' -> e <> Call t unlock ->
  at_pc <$> threads m' !! t = Some (Owner k).
Proof.
  intros (th & Ht & Hpc)%fmap_Some Hs Hno.
  assert (forall u p, u <> t -> at_pc <$> <[u := p]> (threads m) !! t = Some (Owner k)) as Hother.
  { intros u p Hne. rewrite lookup_insert_ne, Ht by done. simpl. by f_equal. }
  destruct e as [u o|u i|u]; simpl in Hs;
    destruct (threads m !! u) as [thu|] eqn:Hu; simpl in Hs; try done.
  - destruct (decide (u = t)) as [->|Hne].
    + assert (thu = th) as -> by congruence. rewrite <- Hpc in Hs. by destruct o.
    + destruct (call o (at_pc thu)); simplify_eq/=. by apply Hother.
  - assert (u <> t) as Hne.
    { intros ->. assert (thu = th) as -> by congruence. unfold act in Hs. by rewrite <- Hpc in Hs. }
    unfold act, take_ticket, spin, leave in Hs. destruct (at_pc thu); try done;
      try (destruct (rmw _ _ _ _ _ _) as [[[]]|]); try (destruct (load _ _ _ _) as [[]|]); simplify_eq/=;
      by apply Hother.
  - destruct (owning (at_pc thu)) eqn:Ho; simplify_eq/=.
    destruct (decide (u = t)) as [->|Hne]; [|by apply Hother]. assert (thu = th) as -> by congruence.
    rewrite lookup_insert_eq. simpl. by f_equal.
Qed.

(** [active] changes when somebody leaves. *)
Lemma active_keeps w m e m' :
  step w m e = Some m' -> active m' = active m \/ exists t, label_of m e = Some (Leave t) /\ is_act t e.
Proof.
  intros Hs. destruct e as [u o|u i|u]; simpl in Hs |- *;
    destruct (threads m !! u) as [thu|] eqn:Hu; simpl in Hs |- *; try done.
  - destruct (call o (at_pc thu)); simplify_eq/=. by left.
  - unfold act, take_ticket, spin in Hs. destruct (at_pc thu) eqn:Hpc; try done;
      try (destruct (rmw _ _ _ _ _ _) as [[[]]|]); try (destruct (load _ _ _ _) as [[]|]); simplify_eq/=; try (by left).
    right. by exists u.
  - destruct (owning (at_pc thu)); simplify_eq/=. by left.
Qed.

Lemma label_act m e lb :
  label_of m e = Some lb -> match lb with Enter t | Leave t => is_act t e | _ => True end.
Proof.
  intros Hl. destruct e as [u o|u i|u]; simpl in Hl; try done; [|by simplify_eq].
  destruct (threads m !! u) as [th|]; simpl in Hl; [|done]. destruct (at_pc th); simplify_eq/=; try done.
  destruct (load _ _ _ _) as [[v V]|]; simpl in Hl; [|done]. case_match; by simplify_eq.
Qed.

(** The line does not lose its head by an event that is not its own. *)
Lemma head_keeps w m q drew h e m' :
  16 <= w -> stands m q drew -> head (waiting q) = Some h -> step w m e = Some m' -> ~ is_act h e ->
  active m' = active m /\
  exists q' drew', stands m' q' drew' /\ waiting q `prefix_of` waiting q' /\ inside q' = inside q.
Proof.
  intros Hw H Hh Hs Hno. pose proof (stands_step w m q drew e m' Hw H Hs) as Hst.
  destruct (label_of m e) as [lb|] eqn:Hlb.
  - destruct Hst as (q' & drew' & Hq & H'). pose proof (label_act _ _ _ Hlb) as Hact.
    assert (forall t, lb = Leave t -> t <> h) as Hleave by (intros t -> ->; done).
    split.
    + destruct (active_keeps w m e m' Hs) as [|(t & Ht & _)]; [done|exfalso].
      rewrite Hlb in Ht. injection Ht as ->. simpl in Hq. case_decide as Hd; [|done].
      apply (Hleave t eq_refl). destruct Hd. congruence.
    + exists q', drew'. split; [done|]. destruct lb as [t|t|t|t]; simpl in Hq; case_decide as Hd; try done.
      * injection Hq as <-. split; [by eexists|done].
      * exfalso. apply Hno. destruct Hd as [Hd _]. rewrite Hd in Hh. by injection Hh as <-.
      * by injection Hq as <-.
      * exfalso. apply (Hleave t eq_refl). destruct Hd. congruence.
  - split; [|by exists q, drew]. destruct (active_keeps w m e m' Hs) as [|(t & Ht & _)]; [done|congruence].
Qed.

(** *** An access of the head in the loop of [lock] *)

Lemma head_place m q drew h th :
  stands m q drew -> head (waiting q) = Some h -> threads m !! h = Some th ->
  ticket_of (at_pc th) = Some (uint_of (Z.of_nat (served m))) /\ (owns (at_pc th) = true <-> inside q = true).
Proof.
  intros H Hh Ht. rewrite head_lookup in Hh. destruct (st_place _ _ _ H _ _ Hh) as (th' & Ht' & Htk & How & _).
  simplify_eq. rewrite Nat.add_0_r in Htk. split; [done|]. naive_solver.
Qed.

Lemma head_act w m q drew h th i m' :
  16 <= w -> stands m q drew -> head (waiting q) = Some h -> inside q = false -> threads m !! h = Some th ->
  step w m (Act h i) = Some m' ->
  exists q' drew', stands m' q' drew' /\ waiting q' = waiting q /\
    (inside q' = true /\ at_point owning h m' = true \/
     inside q' = false /\ active m' = active m /\
       (if spins (at_pc th) then (S i < length (active m))%nat else at_point spins h m' = true)).
Proof.
  intros Hw H Hh Hin Ht Hs. destruct (head_place _ _ _ _ _ H Hh Ht) as [Htk How]. rewrite Hin in How.
  pose proof (stands_step w m q drew _ m' Hw H Hs) as Hst. simpl in Hs, Hst. rewrite Ht in Hs, Hst. simpl in Hs, Hst.
  unfold act in Hs. destruct (at_pc th) as [| |k n|k|k|k] eqn:Hpc; simpl in Htk, How; try done;
    try (by destruct How as [How _]; specialize (How eq_refl)).
  - injection Htk as ->. unfold spin in Hs.
    destruct (load acquire (active m) i (seen th)) as [[v V]|] eqn:Hl; simpl in Hs, Hst; [|done].
    injection Hs as <-. destruct (Z.eqb_spec v (uint_of (Z.of_nat (served m)))) as [Hv|Hv].
    + destruct Hst as (q' & drew' & Hq & H'). simpl in Hq. case_decide; [|done]. injection Hq as <-.
      exists (mkLine (waiting q) true), drew'. split; [done|]. split; [done|]. left. split; [done|].
      unfold at_point. simpl. by rewrite lookup_insert_eq.
    + exists q, drew. split; [done|]. split; [done|]. right. split; [done|]. split; [done|]. simpl.
      apply load_spec in Hl as (x & Hi & _ & -> & _). pose proof (lookup_lt_Some _ _ _ Hi).
      destruct (decide (i = served m)) as [->|Hne]; [|unfold served in Hne; lia].
      exfalso. apply Hv. by apply (cn_value _ (st_active _ _ _ H)).
  - injection Hs as <-. exists q, drew. split; [done|]. split; [done|]. right. split; [done|]. split; [done|].
    simpl. unfold at_point. simpl. by rewrite lookup_insert_eq.
Qed.

(** ** Fair executions *)

Section execution.
Context (w : Z) (ts : gset tid) (σ : nat -> state) (ev : nat -> option event).
Context (Hw : 16 <= w) (Hsize : Z.of_nat (size ts) <= 2 ^ 32).
Context (Hex : execution (step w) (start ts) σ ev) (Hfair : fair σ ev).
Implicit Types (l : list tid) (h : tid) (n m i : nat) (b : bool).

Lemma sound n : exists q drew, stands (σ n) q drew.
Proof.
  eapply (always (step w) _ σ ev (fun s => exists q drew, stands s q drew)); [done| |].
  - exists (mkLine [] false), ∅. by apply stands_start.
  - intros s e s' (q & drew & H) Hs. pose proof (stands_step w s q drew e s' Hw H Hs) as Hst.
    destruct (label_of s e); [|by exists q, drew]. destruct Hst as (q' & drew' & _ & H'). by exists q', drew'.
Qed.

Lemma fsl_happens n e : ev n = Some e -> step w (σ n) e = Some (σ (S n)).
Proof. intros He. pose proof (ex_next _ _ _ _ Hex n) as Hn. unfold next_is in Hn. by rewrite He in Hn. Qed.

(** The threads [l] are the first in line; [b] says whether one is inside. *)
Definition front l b n : Prop :=
  exists q drew, stands (σ n) q drew /\ l `prefix_of` waiting q /\ inside q = b.

Lemma front_app l l' b n : front (l ++ l') b n -> front l b n.
Proof.
  intros (q & drew & H & Hp & Hb). exists q, drew. split_and!; [done| |done].
  etransitivity; [|done]. by apply prefix_app_r.
Qed.

Lemma prefix_head h l (l' : list tid) : h :: l `prefix_of` l' -> head l' = Some h.
Proof. by intros [k ->]. Qed.

Lemma front_until h l b n m :
  (n <= m)%nat -> front (h :: l) b n -> (forall k e, (n <= k < m)%nat -> ev k = Some e -> ~ is_act h e) ->
  front (h :: l) b m /\ active (σ m) = active (σ n).
Proof.
  intros Hle (q & drew & H & Hp & Hb) Hno.
  destruct (as_long_as (step w) (start ts) σ ev
    (fun s => (exists q' drew', stands s q' drew' /\ h :: l `prefix_of` waiting q' /\ inside q' = b) /\
      active s = active (σ n)) (is_act h) n m) as [Hfr Hact]; [done|done| | |done|].
  - split; [by exists q, drew|done].
  - intros s e s' [(q1 & drew1 & H1 & Hp1 & Hb1) Ha] Hs He.
    destruct (head_keeps w s q1 drew1 h e s' Hw H1 (prefix_head _ _ _ Hp1) Hs He) as [Ha' (q2 & drew2 & H2 & Hp2 & Hb2)].
    split; [|congruence]. exists q2, drew2. split_and!; [done|by etransitivity|congruence].
  - done.
Qed.

(** The next access of the head, which is in the middle of a method. *)
Lemma next_turn h l b n th :
  front (h :: l) b n -> threads (σ n) !! h = Some th -> busy (at_pc th) = true ->
  exists m i, (n <= m)%nat /\ ev m = Some (Act h i) /\ front (h :: l) b m /\
    active (σ m) = active (σ n) /\ threads (σ m) !! h = Some th.
Proof.
  intros Hfr Ht Hb.
  destruct (first_event ev (is_act h) n) as (m & e & Hle & Hm & He & Hno).
  { destruct (fair_schedule _ _ Hfair n h) as (m & i & Hle & Hm); [apply at_point_spec; eauto|].
    exists m, (Act h i). by split_and!. }
  destruct e as [u o|u i|u]; simpl in He; try done. subst u.
  destruct (front_until h l b n m Hle Hfr Hno) as [Hfr' Ha]. exists m, i. split_and!; try done.
  eapply (as_long_as (step w) (start ts) σ ev (fun s => threads s !! h = Some th) (is_act h) n m); [done|done|done| |done].
  intros s e s' Hs Hst Hn. by eapply busy_keeps.
Qed.

Lemma front_place h l b n :
  front (h :: l) b n -> exists th, threads (σ n) !! h = Some th /\ owns (at_pc th) = b /\ ticket_of (at_pc th) <> None.
Proof.
  intros (q & drew & H & Hp & Hb). pose proof (prefix_head _ _ _ Hp) as Hh. pose proof Hh as Hh'.
  rewrite head_lookup in Hh'. destruct (st_place _ _ _ H _ _ Hh') as (th & Ht & _).
  destruct (head_place _ _ _ _ _ H Hh Ht) as [Htk How]. exists th. split; [done|]. rewrite Htk. split; [|done].
  subst b. destruct (owns (at_pc th)), (inside q); try done; [symmetry|]; by apply How.
Qed.

(** One turn of the head in the loop: it enters, or it has read an old
    [active], or it comes back from its yield. *)
Lemma loop_turn h l n :
  front (h :: l) false n ->
  exists m i th, (n <= m)%nat /\ ev m = Some (Act h i) /\ threads (σ n) !! h = Some th /\ threads (σ m) !! h = Some th /\
    (front (h :: l) true (S m) /\ at_point owning h (σ (S m)) = true \/
     front (h :: l) false (S m) /\ active (σ (S m)) = active (σ n) /\
       (if spins (at_pc th) then (S i < length (active (σ n)))%nat else at_point spins h (σ (S m)) = true)).
Proof.
  intros Hfr. destruct (front_place _ _ _ _ Hfr) as (th & Ht & How & Htk).
  destruct (next_turn h l false n th Hfr Ht) as (m & i & Hle & Hm & (q & drew & H & Hp & Hb) & Ha & Ht').
  { by destruct (at_pc th). }
  destruct (head_act w _ q drew h th i _ Hw H (prefix_head _ _ _ Hp) Hb Ht' (fsl_happens _ _ Hm))
    as (q' & drew' & H' & Hq' & Hor).
  exists m, i, th. split_and!; try done. rewrite Ha in Hor. rewrite <- Hq' in Hp.
  destruct Hor as [[Hin Hown]|(Hin & Hact & Hsp)]; [left|right]; split_and!; try done; by exists q', drew'.
Qed.

(** The head enters: in the end it can only read the last [active]. *)
Lemma head_enters h l n :
  front (h :: l) false n -> exists m, (n <= m)%nat /\ front (h :: l) true m /\ at_point owning h (σ m) = true.
Proof.
  intros Hfr. destruct (fair_memory _ _ Hfair n h) as [N HN].
  set (entered := exists m, (n <= m)%nat /\ front (h :: l) true m /\ at_point owning h (σ m) = true).
  assert (forall d, entered \/ exists m, (n + d <= m)%nat /\ front (h :: l) false m /\ active (σ m) = active (σ n))
    as Hlate.
  { induction d as [|d [|(m & Hle & Hm & Ha)]]; [right; exists n; split_and!; [lia|done|done]|by left|].
    destruct (loop_turn h l m Hm) as (k & i & th & Hk & _ & _ & _ & [[? ?]|(Hfr' & Ha' & _)]).
    - left. exists (S k). split_and!; [lia|done|done].
    - right. exists (S k). split_and!; [lia|done|congruence]. }
  destruct (Hlate N) as [|(m & Hle & Hm & Ha)]; [done|].
  assert (forall m, (n + N <= m)%nat -> front (h :: l) false m -> active (σ m) = active (σ n) ->
    entered \/ exists k, (m < k)%nat /\ front (h :: l) false k /\ active (σ k) = active (σ n) /\
      at_point spins h (σ k) = true /\ at_point spins h (σ m) = false) as Hturn.
  { clear m Hle Hm Ha. intros m Hle Hm Ha.
    destruct (loop_turn h l m Hm) as (k & i & th & Hk & Hev & Ht & Ht' & [[? ?]|(Hfr' & Ha' & Hsp)]).
    { left. exists (S k). split_and!; [lia|done|done]. }
    right. destruct (spins (at_pc th)) eqn:Hs.
    - exfalso. assert (length (active (σ n)) <= S i)%nat as Hlen; [|rewrite Ha in Hsp; lia].
      apply (HN k); [lia|done|]. apply at_point_spec. by exists th.
    - exists (S k). split_and!; [lia|done|congruence|done|]. unfold at_point. by rewrite Ht. }
  destruct (Hturn m Hle Hm Ha) as [|(k & Hk & Hfr' & Ha' & Hsp & _)]; [done|].
  destruct (Hturn k ltac:(lia) Hfr' Ha') as [|(? & _ & _ & _ & _ & Hno)]; [done|congruence].
Qed.

(** The owner calls [unlock] in the end. *)
Lemma owner_unlocks h l n :
  front (h :: l) true n ->
  exists m th k, (n <= m)%nat /\ front (h :: l) true m /\ threads (σ m) !! h = Some th /\ at_pc th = Leaving k.
Proof.
  intros Hfr. destruct (front_place _ _ _ _ Hfr) as (th & Ht & How & _).
  destruct (at_pc th) as [| | | |k|k] eqn:Hpc; try done; [|exists n, th, k; by split_and!].
  destruct (first_event ev (.= Call h unlock) n) as (m & e & Hle & Hm & -> & Hno).
  { destruct (fair_owner _ _ Hfair n h) as (m & Hle & Hm); [apply at_point_spec; exists th; by rewrite Hpc|].
    by exists m, (Call h unlock). }
  assert (forall j, (n <= j <= m)%nat -> at_pc <$> threads (σ j) !! h = Some (Owner k)) as Howner.
  { intros j Hj. eapply (as_long_as (step w) (start ts) σ ev (fun s => at_pc <$> threads s !! h = Some (Owner k))
      (.= Call h unlock) n j); [done|lia|by rewrite Ht; simpl; rewrite Hpc| |intros i e Hi; apply Hno; lia].
    intros s e s' Hs Hst Hn. by eapply owner_keeps. }
  destruct (front_until h l true n m Hle Hfr) as [(q & drew & H & Hp & Hb) _].
  { intros j e Hj He Hact. destruct e as [u o|u i|u]; simpl in Hact; try done. subst u.
    pose proof (fsl_happens _ _ He) as Hs. specialize (Howner j ltac:(lia)). simpl in Hs.
    apply fmap_Some in Howner as (thj & Htj & Hpj). rewrite Htj in Hs. simpl in Hs. unfold act in Hs.
    by rewrite <- Hpj in Hs. }
  specialize (Howner m ltac:(lia)). apply fmap_Some in Howner as (thm & Htm & Hpm).
  pose proof (fsl_happens _ _ Hm) as Hs. pose proof (stands_step w _ q drew _ _ Hw H Hs) as Hst. simpl in Hst.
  simpl in Hs. rewrite Htm in Hs. simpl in Hs. rewrite <- Hpm in Hs. simpl in Hs. injection Hs as Hs.
  exists (S m). do 2 eexists. split; [lia|]. split; [by exists q, drew|]. rewrite <- Hs. simpl.
  rewrite lookup_insert_eq. split; [done|]. done.
Qed.

(** So the others move up. *)
Lemma head_leaves h l n : front (h :: l) true n -> exists m, (n <= m)%nat /\ front l false m.
Proof.
  intros Hfr. destruct (owner_unlocks h l n Hfr) as (m & th & k & Hle & Hm & Ht & Hpc).
  destruct (next_turn h l true m th Hm Ht) as (j & i & Hlej & Hj & (q & drew & H & Hp & Hb) & _ & Htj).
  { by rewrite Hpc. }
  pose proof (stands_step w _ q drew _ _ Hw H (fsl_happens _ _ Hj)) as Hst. simpl in Hst. rewrite Htj in Hst. simpl in Hst.
  rewrite Hpc in Hst. destruct Hst as (q' & drew' & Hq & H'). simpl in Hq. case_decide; [|done]. injection Hq as <-.
  exists (S j). split; [lia|]. do 2 eexists. split; [done|]. split; [|done]. destruct Hp as [more ->]. simpl.
  by eexists.
Qed.

Lemma everybody_enters t l n :
  front (l ++ [t]) false n -> exists m, (n <= m)%nat /\ at_point owning t (σ m) = true.
Proof.
  revert n. induction l as [|h l IH]; intros n Hfr; simpl in Hfr.
  - destruct (head_enters t [] n Hfr) as (m & ? & _ & ?). by exists m.
  - destruct (head_enters h (l ++ [t]) n Hfr) as (m & Hle & Hm & _).
    destruct (head_leaves h (l ++ [t]) m Hm) as (j & Hj & Hfj). destruct (IH j Hfj) as (k & ? & ?). exists k. split; [lia|done].
Qed.

Lemma loops_enters t n : at_point loops t (σ n) = true -> exists m, (n <= m)%nat /\ at_point owning t (σ m) = true.
Proof.
  intros (th & Ht & Hl)%at_point_spec. destruct (sound n) as (q & drew & H).
  assert (t ∈ waiting q) as Hin by (eapply (st_in_line _ _ _ H); [done|by destruct (at_pc th)]).
  apply list_elem_of_split in Hin as (l & more & Hq). destruct (inside q) eqn:Hb.
  - destruct l as [|h l]; simpl in Hq.
    + exfalso. destruct (head_place _ _ _ t th H ltac:(by rewrite Hq) Ht) as [_ How].
      assert (owns (at_pc th) = true) by (by apply How). by destruct (at_pc th).
    + destruct (head_leaves h (l ++ [t]) n) as (m & Hle & Hm).
      { exists q, drew. split_and!; [done| |done]. exists more. rewrite Hq. simpl. by rewrite <- app_assoc. }
      destruct (everybody_enters t l m Hm) as (k & ? & ?). exists k. split; [lia|done].
  - apply (everybody_enters t l n). exists q, drew. split_and!; [done| |done]. exists more. by rewrite Hq, <- app_assoc.
Qed.

(** A thread about to draw its ticket draws it. *)
Lemma arriving_loops t n th :
  threads (σ n) !! t = Some th -> at_pc th = Arriving -> exists m, (n <= m)%nat /\ at_point loops t (σ m) = true.
Proof.
  intros Ht Hpc. destruct (first_event ev (is_act t) n) as (m & e & Hle & Hm & He & Hno).
  { destruct (fair_schedule _ _ Hfair n t) as (m & i & Hle & Hm); [apply at_point_spec; exists th; by rewrite Hpc|].
    exists m, (Act t i). by split_and!. }
  destruct e as [u o|u i|u]; simpl in He; try done. subst u.
  assert (threads (σ m) !! t = Some th) as Htm.
  { eapply (as_long_as (step w) (start ts) σ ev (fun s => threads s !! t = Some th) (is_act t) n m); [done|done|done| |done].
    intros s e s' Hs Hst Hn. eapply busy_keeps; [done|by rewrite Hpc|done|done]. }
  pose proof (fsl_happens _ _ Hm) as Hs. simpl in Hs. rewrite Htm in Hs. simpl in Hs. unfold act in Hs. rewrite Hpc in Hs.
  unfold take_ticket in Hs. destruct (rmw _ _ _ _ _ _) as [[[tk hist] V]|]; simpl in Hs; [|done]. injection Hs as Hs.
  exists (S m). split; [lia|]. unfold at_point. rewrite <- Hs. simpl. by rewrite lookup_insert_eq.
Qed.
End execution.

(** A finite run, in which everybody who is busy or owns the lock still moves
    before its end, is fair. *)
Definition settles w (s0 : state) (es : list event) : bool :=
  forallb (fun n =>
    let m := visited (step w) s0 es n in
    forallb (fun t =>
      implb (at_point busy t m) (existsb (fun e => bool_decide (is_act t e)) (drop n es)) &&
      implb (at_point owning t m) (existsb (fun e => bool_decide (e = Call t unlock)) (drop n es)))
    (elements (dom (threads m)))) (seq 0 (S (length es))).

Lemma settles_at w s0 es n t f (Q : event -> Prop) `{!forall e, Decision (Q e)} :
  (forall k, (k <= length es)%nat -> at_point f t (visited (step w) s0 es k) = true ->
     existsb (fun e => bool_decide (Q e)) (drop k es) = true) ->
  at_point f t (visited (step w) s0 es n) = true -> exists m e, (n <= m)%nat /\ es !! m = Some e /\ Q e.
Proof.
  intros Hall Hat. destruct (Nat.le_gt_cases n (length es)) as [Hle|Hgt].
  - specialize (Hall n Hle Hat). apply existsb_exists in Hall as (e & He & Hq%bool_decide_eq_true).
    apply list_elem_of_In, list_elem_of_lookup in He as [i Hi]. rewrite lookup_drop in Hi.
    exists (n + i)%nat, e. split_and!; [lia|done|done].
  - exfalso. assert (visited (step w) s0 es n = visited (step w) s0 es (length es)) as He
      by (unfold visited; by rewrite !take_ge by lia).
    rewrite He in Hat. specialize (Hall (length es) ltac:(lia) Hat). by rewrite drop_all in Hall.
Qed.

Lemma fsl_finite_fair w s0 es : settles w s0 es = true -> fair (visited (step w) s0 es) (fun n => es !! n).
Proof.
  intros Hs. assert (forall k t, (k <= length es)%nat -> forall f, at_point f t (visited (step w) s0 es k) = true ->
    implb (at_point busy t (visited (step w) s0 es k)) (existsb (fun e => bool_decide (is_act t e)) (drop k es)) = true /\
    implb (at_point owning t (visited (step w) s0 es k)) (existsb (fun e => bool_decide (e = Call t unlock)) (drop k es)) = true)
    as Hall.
  { intros k t Hk f (th & Ht & _)%at_point_spec. unfold settles in Hs. rewrite forallb_forall in Hs.
    specialize (Hs k). rewrite forallb_forall in Hs. apply andb_true_iff, Hs.
    - apply list_elem_of_In, elem_of_seq. lia.
    - apply list_elem_of_In, elem_of_elements. by apply elem_of_dom_2 in Ht. }
  split.
  - intros n t Hat. destruct (settles_at w s0 es n t busy (is_act t)) as (m & e & Hle & He & Ha); [|done|].
    { intros k Hk Hb. destruct (Hall k t Hk _ Hb) as [Hi _]. by rewrite Hb in Hi. }
    destruct e as [u o|u i|u]; simpl in Ha; try done. subst u. by exists m, i.
  - intros n t Hat. destruct (settles_at w s0 es n t owning (.= Call t unlock)) as (m & e & Hle & He & ->); [|done|by exists m].
    intros k Hk Hb. destruct (Hall k t Hk _ Hb) as [_ Hi]. by rewrite Hb in Hi.
  - intros n t. exists (length es). intros m i Hm He. rewrite lookup_ge_None_2 in He by done. done.
Qed.
End FairSpinLockFair.

Module FairSpinLockLiveness.
Import FairSpinLock FairSpinLockFair.

(** C20: FairSpinLock is starvation free. In every infinite execution of at
    most 2^32 threads in which threads in the middle of a method go on, owners
    call [unlock] in the end, and writes to [active] become visible in finite
    time, every thread in [lock] comes to own the lock, whatever the others do
    and however many of them keep coming back. *)
Theorem fsl_starvation_free w ts (σ : nat -> state) (ev : nat -> option event) t n :
  16 <= w -> Z.of_nat (size ts) <= 2 ^ 32 -> execution (step w) (start ts) σ ev -> fair σ ev ->
  at_point wants t (σ n) = true -> exists m, (n <= m)%nat /\ at_point owning t (σ m) = true.
Proof.
  intros Hw Hs Hex Hfair Hat. apply at_point_spec in Hat as (th & Ht & Hwants).
  destruct (loops (at_pc th)) eqn:Hl.
  - eapply (loops_enters w ts σ ev Hw Hs Hex Hfair t n), at_point_spec. by exists th.
  - assert (at_pc th = Arriving) as Hpc by (by destruct (at_pc th)).
    destruct (arriving_loops w ts σ ev Hex Hfair t n th Ht Hpc) as (m & Hle & Hm).
    destruct (loops_enters w ts σ ev Hw Hs Hex Hfair t m Hm) as (k & ? & ?). exists k. split; [lia|done].
Qed.

(** Thread 1 is behind thread 0, which comes back at once for another turn;
    1 reads an old [active] before it enters. *)
Definition turns : list event :=
  [Call 0%nat lock; Call 1%nat lock; Act 0%nat 0%nat; Act 1%nat 1%nat; Act 1%nat 0%nat; Act 0%nat 0%nat;
   Access 0%nat; Call 0%nat unlock; Act 0%nat 0%nat; Call 0%nat lock; Act 0%nat 2%nat; Act 1%nat 0%nat;
   Act 1%nat 1%nat; Access 1%nat; Call 1%nat unlock; Act 1%nat 1%nat; Act 0%nat 2%nat; Call 0%nat unlock;
   Act 0%nat 2%nat].

Definition pair : gset tid := {[ 0%nat; 1%nat ]}.

Lemma fsl_starvation_free_witness :
  exists σ ev m, execution (step 16) (start pair) σ ev /\ fair σ ev /\ at_point wants 1%nat (σ 2%nat) = true /\
    (2 <= m)%nat /\ at_point owning 1%nat (σ m) = true.
Proof.
  assert (16 <= 16) as Hw by lia. assert (Z.of_nat (size pair) <= 2 ^ 32) as Hs by (by vm_compute).
  destruct (evaluate (fun _ => True) (run (step 16) (start pair) turns)) as (m & Hrun & _); [vm_compute; reflexivity|].
  assert (settles 16 (start pair) turns = true) as Hset by (vm_compute; reflexivity).
  assert (at_point wants 1%nat (visited (step 16) (start pair) turns 2) = true) as Hat by (vm_compute; reflexivity).
  pose proof (finite_execution _ _ _ _ Hrun) as Hex. pose proof (fsl_finite_fair _ _ _ Hset) as Hfair.
  destruct (fsl_starvation_free 16 pair _ _ 1%nat 2%nat Hw Hs Hex Hfair Hat) as (k & Hk & Ho).
  do 3 eexists. split_and!; [exact Hex|exact Hfair|exact Hat|exact Hk|exact Ho].
Defined.
End FairSpinLockLiveness.
