(* ===== verification/Guarded.v ===== *)
(** * Data guarded by a lock

    What [std::lock_guard<Mutex>] is used for: a class keeps its data and a
    lock of a type that is its template parameter, and each method locks,
    works on the data, unlocks.  [Lock] is the interface of the lock types on
    the memory of [Atomics], [LockLaws] what they promise: mutual exclusion,
    and that an [unlock] synchronizes with the [lock] that follows.  The work
    of a method is a sequence of accesses, between which the other threads go
    on; the data are ordinary memory, where an access may read any value that
    is not behind what the thread has seen.  From the laws it follows that the
    methods do not disturb each other, that every access reads the last value,
    and that there is no data race. *)

From S2P Require Import Prelude Machine Atomics.

(** The events of a lock: a thread calls [lock] or [unlock], accesses the
    data, or the lock goes on by itself.  [owning s t]: [lock] has returned to
    [t], which has not called [unlock] since.  [accessed] are the accesses made
    to the data, [next_ident] identifies the next one. *)
Class Lock (S E : Type) := {
  lock_step : S -> E -> option S;
  lock_call : tid -> E;
  unlock_call : tid -> E;
  access : tid -> E;
  internal : E -> bool;
  owning : S -> tid -> bool;
  next_ident : S -> nat;
  accessed : S -> view;
  view_of : S -> tid -> option view;
}.

(** The events that are no access, and those that leave [t] its ownership. *)
Inductive silent {S E} `{!Lock S E} : E -> Prop :=
| silent_internal e : internal e = true -> silent e
| silent_lock u : silent (lock_call u)
| silent_unlock u : silent (unlock_call u).

Inductive spares {S E} `{!Lock S E} (t : tid) : E -> Prop :=
| spares_internal e : internal e = true -> spares t e
| spares_lock u : spares t (lock_call u)
| spares_access u : spares t (access u)
| spares_unlock u : u <> t -> spares t (unlock_call u).

(** [ok s V]: the lock is in order, and [V] is what the last thread that
    called [unlock] had seen. *)
Class LockLaws {S E : Type} (lk : Lock S E) (ok : S -> view -> Prop) : Prop := {
  ok_step s V e s' : ok s V -> (forall t, spares t e) -> lock_step s e = Some s' -> ok s' V;
  ok_unlock s V t U s' : ok s V -> view_of s t = Some U -> lock_step s (unlock_call t) = Some s' -> ok s' U;
  exclusion s V t u : ok s V -> owning s t = true -> owning s u = true -> t = u;
  synchronizes s V t U : ok s V -> owning s t = true -> view_of s t = Some U -> V ∩ accessed s ⊆ U;
  owning_seen s t : owning s t = true -> is_Some (view_of s t);
  owning_keeps s t e s' : spares t e -> lock_step s e = Some s' -> owning s t = true -> owning s' t = true;
  view_grows s e s' t U : lock_step s e = Some s' -> view_of s t = Some U -> exists U', view_of s' t = Some U' /\ U ⊆ U';
  access_adds s t s' : lock_step s (access t) = Some s' -> accessed s' = {[next_ident s]} ∪ accessed s;
  access_seen s t U s' : lock_step s (access t) = Some s' -> view_of s t = Some U -> view_of s' t = Some ({[next_ident s]} ∪ U);
  silent_keeps s e s' : silent e -> lock_step s e = Some s' -> accessed s' = accessed s;
}.

(** ** Work on the data: a sequence of accesses *)

(** Each access reads the data, leaves new ones, and decides how to go on. *)
Inductive work (D R : Type) := Done (r : R) | Next (f : D -> option (D * work D R)).
Arguments Done {D R} r.
Arguments Next {D R} f.

(** Undisturbed. *)
Fixpoint alone {D R} (p : work D R) (d : D) : option (D * R) :=
  match p with
  | Done r => Some (d, r)
  | Next f => match f d with Some (d', p') => alone p' d' | None => None end
  end.

Definition act {D R} (f : D -> option D) (p : work D R) : work D R := Next (fun d => d' ← f d; Some (d', p)).
Definition ask {D R X} (f : D -> option X) (k : X -> work D R) : work D R := Next (fun d => x ← f d; Some (d, k x)).

Lemma alone_act {D R} f (p : work D R) d : alone (act f p) d = d' ← f d; alone p d'.
Proof. simpl. by destruct (f d). Qed.

Lemma alone_ask {D R X} (f : D -> option X) (k : X -> work D R) d : alone (ask f k) d = x ← f d; alone (k x) d.
Proof. simpl. by destruct (f d). Qed.

Module Guarded.
Section guarded.
Context {S E D O R : Type} `{lk : Lock S E} (body : O -> work D R) (offered : O -> bool).

(** Where the method of a thread is: in the constructor of its guard, between
    the accesses of its work, returned. *)
Inductive method := Locking (o : O) | Inside (o : O) (p : work D R) | Outside (last : option R).

Record state := mkState { mtx : S; data : list (message D); methods : gmap tid method }.

Inductive event :=
| Begin (t : tid) (o : O)            (** the method is called, and calls [lock] *)
| Internal (e : E)
| Enter (t : tid)                    (** [lock] has returned *)
| Access (t : tid) (i j : nat)       (** the next access: read at [i], write at [j] *)
| End (t : tid).                     (** the guard calls [unlock], the method returns *)

(** An access to the data as thread [t]. *)
Definition touch_data (g : state) (t : tid) (f : D -> option (D * work D R)) (i j : nat)
    : option (list (message D) * work D R) :=
  V ← view_of (mtx g) t;
  '(d, V) ← load unordered (data g) i V;
  '(d, p) ← f d;
  '(h, _) ← store unordered (data g) j (next_ident (mtx g)) d V;
  Some (h, p).

Definition step (g : state) (e : event) : option state :=
  match e with
  | Begin t o =>
      p ← methods g !! t;
      match p with
      | Outside _ =>
          if offered o then
            s ← lock_step (mtx g) (lock_call t);
            Some (mkState s (data g) (<[t := Locking o]> (methods g)))
          else None
      | _ => None
      end
  | Internal e =>
      if internal e then s ← lock_step (mtx g) e; Some (mkState s (data g) (methods g)) else None
  | Enter t =>
      p ← methods g !! t;
      match p with
      | Locking o =>
          if owning (mtx g) t then Some (mkState (mtx g) (data g) (<[t := Inside o (body o)]> (methods g))) else None
      | _ => None
      end
  | Access t i j =>
      p ← methods g !! t;
      match p with
      | Inside o (Next f) =>
          s ← lock_step (mtx g) (access t);
          '(h, p) ← touch_data g t f i j;
          Some (mkState s h (<[t := Inside o p]> (methods g)))
      | _ => None
      end
  | End t =>
      p ← methods g !! t;
      match p with
      | Inside o (Done r) =>
          s ← lock_step (mtx g) (unlock_call t);
          Some (mkState s (data g) (<[t := Outside (Some r)]> (methods g)))
      | _ => None
      end
  end.

Definition start (s : S) (d : D) (ts : gset tid) : state :=
  mkState s (initial d) (gset_to_gmap (Outside None) ts).

(** The calls in the order in which they end, with their results. *)
Definition effect (g : state) (e : event) : option (tid * O * R) :=
  match e with
  | End t =>
      p ← methods g !! t;
      match p with Inside o (Done r) => Some (t, o, r) | _ => None end
  | _ => None
  end.

Definition history (g : state) (es : list event) : list (tid * O * R) := labels step effect g es.

(** One after the other. *)
Fixpoint replay (d : D) (os : list O) : option (D * list R) :=
  match os with
  | [] => Some (d, [])
  | o :: os => '(d, r) ← alone (body o) d; '(d, rs) ← replay d os; Some (d, r :: rs)
  end.

(** ** The methods one after the other *)

Context (ok : S -> view -> Prop) {laws : LockLaws lk ok}.
Implicit Types (g : state) (d : D) (t u : tid) (p : work D R).

(** [d] is what the methods that have ended left.  Nobody is inside, and they
    are the data; or one thread is, and it makes of the data what its method
    makes of [d].  Whoever is next, or inside, has seen every access. *)
Definition nobody g d (V : view) : Prop :=
  (forall u o p, methods g !! u <> Some (Inside o p)) /\ value <$> list.last (data g) = Some d /\ accessed (mtx g) ⊆ V.

Definition somebody g d : Prop :=
  exists t o p d' U, methods g !! t = Some (Inside o p) /\ view_of (mtx g) t = Some U /\ accessed (mtx g) ⊆ U /\
    value <$> list.last (data g) = Some d' /\ alone p d' = alone (body o) d.

Record holds g d : Prop := {
  ho_lock : exists V, ok (mtx g) V /\ (nobody g d V \/ somebody g d);
  ho_inside : forall u o p, methods g !! u = Some (Inside o p) -> owning (mtx g) u = true;
  ho_known : forall i x, data g !! (1 + i) = Some x -> ident x ∈ accessed (mtx g);
}.

(** Nobody but the thread that is inside. *)
Lemma inside_alone g d t o p :
  holds g d -> methods g !! t = Some (Inside o p) ->
  exists d' U, view_of (mtx g) t = Some U /\ accessed (mtx g) ⊆ U /\ value <$> list.last (data g) = Some d' /\
    alone p d' = alone (body o) d /\ forall u o' p', methods g !! u = Some (Inside o' p') -> u = t.
Proof.
  intros [(V & Hok & [[Hno _]|(u & o' & p' & d' & U & Hu & HU & Hacc & Hl & Ha)]) Hin _] Ht; [by destruct (Hno t o p)|].
  assert (forall w o p, methods g !! w = Some (Inside o p) -> w = u) as Hone.
  { intros w ow pw Hw. eapply (exclusion _ V); eauto. }
  assert (t = u) as -> by (by eapply Hone). simplify_eq. by exists d', U.
Qed.

(** An access reads the last value, and writes behind it. *)
Lemma touch_last g d V t f i j h p :
  view_of (mtx g) t = Some V -> accessed (mtx g) ⊆ V -> value <$> list.last (data g) = Some d ->
  (forall i x, data g !! (1 + i) = Some x -> ident x ∈ accessed (mtx g)) ->
  touch_data g t f i j = Some (h, p) ->
  exists d', f d = Some (d', p) /\ exists x, h = data g ++ [x] /\ value x = d' /\ ident x = next_ident (mtx g).
Proof.
  intros HV Hsub Hlast Hknown Hw. unfold touch_data in Hw. rewrite HV in Hw. simpl in Hw.
  destruct (load unordered (data g) i V) as [[d0 V0]|] eqn:Hl; simpl in Hw; [|done].
  destruct (f d0) as [[d' p']|] eqn:He; simpl in Hw; [|done].
  destruct (store unordered (data g) j _ d' V0) as [[h' V1]|] eqn:Hst; simpl in Hw; [|done]. injection Hw as <- <-.
  apply load_spec in Hl as (x & Hi & Hun & -> & HV0). apply store_spec in Hst as (Hj & Hunj & _ & Hh & _).
  pose proof (lookup_lt_Some _ _ _ Hi) as Hlt.
  assert (i = pred (length (data g))) as Hend.
  { destruct (decide (i = pred (length (data g)))) as [|Hne]; [done|exfalso].
    destruct (data g !! (1 + pred (pred (length (data g))))) as [y|] eqn:Hy; [|apply lookup_ge_None in Hy; lia].
    pose proof (unseen_drop _ _ _ _ _ Hun Hy (Hsub _ (Hknown _ _ Hy))). lia. }
  rewrite last_lookup, <- Hend, Hi in Hlast. injection Hlast as <-.
  assert (j = length (data g)) as Hjend.
  { assert (ident x ∈ V0) as Hx by (rewrite HV0; apply learn_ident).
    pose proof (unseen_drop _ _ _ _ _ Hunj Hi Hx). lia. }
  exists d'. split; [done|]. rewrite Hjend, take_ge, drop_ge in Hh by lia. subst h'. by eexists.
Qed.

(** Events that are no access and leave the owner what it has. *)
Lemma holds_silent g d e s ms :
  holds g d -> silent e -> (forall t, spares t e) -> lock_step (mtx g) e = Some s ->
  (forall u o p, ms !! u = Some (Inside o p) <-> methods g !! u = Some (Inside o p)) ->
  holds (mkState s (data g) ms) d.
Proof.
  intros [(V & Hok & Hcase) Hin Hk] Hsi Hsp Hs Hms. pose proof (silent_keeps _ _ _ Hsi Hs) as Ha. split; simpl.
  - exists V. split; [by eapply ok_step|]. destruct Hcase as [(Hno & Hl & Hacc)|(t & o & p & d' & U & Ht & HU & Hacc & Hl & He)].
    + left. split_and!; simpl; [|done|by rewrite Ha]. intros u o p Hu. by apply (Hno u o p), Hms.
    + right. destruct (view_grows _ _ _ _ _ Hs HU) as (U' & HU' & Hsub).
      exists t, o, p, d', U'. simpl. rewrite Ha. split_and!; [by apply Hms|done|set_solver|done|done].
  - intros u o p Hu%Hms. eapply owning_keeps; [apply Hsp|exact Hs|by eapply Hin].
  - by rewrite Ha.
Qed.

(** [lock] returns to a thread: it has seen what was done before. *)
Lemma holds_enter g d t o :
  holds g d -> methods g !! t = Some (Locking o) -> owning (mtx g) t = true ->
  holds (mkState (mtx g) (data g) (<[t := Inside o (body o)]> (methods g))) d.
Proof.
  intros [(V & Hok & Hcase) Hin Hk] Ht Hown.
  assert (nobody g d V) as (Hno & Hl & Hacc).
  { destruct Hcase as [|(u & o' & p & d' & U & Hu & _)]; [done|].
    assert (u = t) as -> by (eapply (exclusion _ V); eauto). congruence. }
  split; simpl; [|intros u o' p [[<- _]|[_ Hu]]%lookup_insert_Some; [done|by eapply Hin]|done].
  exists V. split; [done|right]. destruct (owning_seen _ _ Hown) as [U HU]. exists t, o, (body o), d, U. simpl.
  rewrite lookup_insert_eq. pose proof (synchronizes _ V _ _ Hok Hown HU). split_and!; try done. set_solver.
Qed.

Lemma holds_access g d t o f i j s h p :
  holds g d -> methods g !! t = Some (Inside o (Next f)) -> lock_step (mtx g) (access t) = Some s ->
  touch_data g t f i j = Some (h, p) -> holds (mkState s h (<[t := Inside o p]> (methods g))) d.
Proof.
  intros H Ht Hs Hw. destruct (inside_alone g d t o _ H Ht) as (d0 & U & HU & Hacc & Hl & Ha & Hone).
  destruct H as [(V & Hok & _) Hin Hk].
  destruct (touch_last g d0 U t f i j h p HU Hacc Hl Hk Hw) as (d1 & Hf & x & -> & Hx & Hid).
  assert (forall u, spares u (access t)) as Hsp by (intros; constructor).
  pose proof (access_adds _ _ _ Hs) as Hadd. split; simpl.
  - exists V. split; [by eapply ok_step|right]. exists t, o, p, d1, ({[next_ident (mtx g)]} ∪ U). simpl.
    rewrite lookup_insert_eq, Hadd, last_snoc. split_and!; [done|by eapply access_seen|set_solver|by simpl; f_equal|].
    rewrite <- Ha. simpl. by rewrite Hf.
  - intros u o' p' [[<- _]|[_ Hu]]%lookup_insert_Some; (eapply owning_keeps; [apply Hsp|exact Hs|by eapply Hin]).
  - rewrite Hadd. intros k y [Hy|[_ Hy]]%lookup_app_Some; [set_solver by eapply Hk|].
    apply list_lookup_singleton_Some in Hy as [_ <-]. rewrite Hid. set_solver.
Qed.

Lemma holds_end g d t o r s :
  holds g d -> methods g !! t = Some (Inside o (Done r)) -> lock_step (mtx g) (unlock_call t) = Some s ->
  exists d', alone (body o) d = Some (d', r) /\ holds (mkState s (data g) (<[t := Outside (Some r)]> (methods g))) d'.
Proof.
  intros H Ht Hs. destruct (inside_alone g d t o _ H Ht) as (d0 & U & HU & Hacc & Hl & Ha & Hone).
  destruct H as [(V & Hok & _) Hin Hk]. pose proof (silent_keeps _ _ _ (silent_unlock t) Hs) as Hsame.
  assert (forall u o p, <[t := Outside (Some r)]> (methods g) !! u <> Some (Inside o p)) as Hno.
  { intros u o' p' [[_ ?]|[Hne Hu]]%lookup_insert_Some; [done|]. by destruct Hne, (Hone u o' p' Hu). }
  exists d0. split; [by rewrite <- Ha|]. split; simpl.
  - exists U. split; [by eapply ok_unlock|left]. split_and!; simpl; [done|done|by rewrite Hsame].
  - intros u o' p' Hu. by destruct (Hno u o' p').
  - by rewrite Hsame.
Qed.

(** An insertion that lets nobody inside, or out. *)
Lemma inside_insert g t q q' :
  methods g !! t = Some q -> (forall o p, q <> Inside o p) -> (forall o p, q' <> Inside o p) ->
  forall u o p, <[t := q']> (methods g) !! u = Some (Inside o p) <-> methods g !! u = Some (Inside o p).
Proof.
  intros Ht Hq Hq' u o p. rewrite lookup_insert_Some. split.
  - intros [[_ ?]|[_ ?]]; [by destruct (Hq' o p)|done].
  - intros Hu. right. split; [|done]. intros ->. rewrite Ht in Hu. injection Hu as ->. by destruct (Hq o p).
Qed.

Lemma step_holds g d e g' :
  holds g d -> step g e = Some g' ->
  match effect g e with
  | None => holds g' d
  | Some (t, o, r) => exists d', alone (body o) d = Some (d', r) /\ holds g' d'
  end.
Proof.
  intros H Hs. destruct e as [t o|e|t|t i j|t]; simpl in *.
  - destruct (methods g !! t) as [[| |]|] eqn:Ht; simpl in Hs; try done. destruct (offered o); [|done].
    destruct (lock_step (mtx g) (lock_call t)) as [s|] eqn:Hl; simpl in Hs; [|done]. injection Hs as <-.
    eapply holds_silent; [done|apply silent_lock|intros; apply spares_lock|exact Hl|]. by eapply inside_insert.
  - destruct (internal e) eqn:Hi; [|done].
    destruct (lock_step (mtx g) e) as [s|] eqn:Hl; simpl in Hs; [|done]. injection Hs as <-.
    eapply holds_silent; [done|by constructor|intros; by constructor|exact Hl|done].
  - destruct (methods g !! t) as [[o| |]|] eqn:Ht; simpl in Hs; try done.
    destruct (owning (mtx g) t) eqn:Ho; [|done]. injection Hs as <-. by apply holds_enter.
  - destruct (methods g !! t) as [[|o [r|f]|]|] eqn:Ht; simpl in Hs; try done.
    destruct (lock_step (mtx g) (access t)) as [s|] eqn:Hl; simpl in Hs; [|done].
    destruct (touch_data g t f i j) as [[h p]|] eqn:Hw; simpl in Hs; [|done]. injection Hs as <-. by eapply holds_access.
  - destruct (methods g !! t) as [[|o [r|f]|]|] eqn:Ht; simpl in Hs |- *; try done.
    destruct (lock_step (mtx g) (unlock_call t)) as [s|] eqn:Hl; simpl in Hs; [|done]. injection Hs as <-. by eapply holds_end.
Qed.

(** Every execution is a sequential one. *)
Lemma run_replays g d es g' :
  holds g d -> run step g es = Some g' ->
  exists d', replay d (history g es).*1.*2 = Some (d', (history g es).*2) /\ holds g' d'.
Proof.
  unfold history. revert g d. induction es as [|e es IH]; intros g d H Hr; simpl in Hr |- *.
  { injection Hr as <-. by exists d. }
  destruct (step g e) as [g1|] eqn:Hs; simpl in Hr; [|done]. pose proof (step_holds g d e g1 H Hs) as Hst.
  destruct (effect g e) as [[[t o] r]|]; simpl.
  - destruct Hst as (d1 & He & H1). rewrite He. simpl. destruct (IH g1 d1 H1 Hr) as (d' & Hrep & H').
    unfold fmap in Hrep. rewrite Hrep. simpl. by exists d'.
  - by apply IH.
Qed.

Lemma start_holds s d ts : ok s ∅ -> accessed s = ∅ -> holds (start s d ts) d.
Proof.
  intros Hok Ha. split; simpl; [|by intros u o p [_ ?]%lookup_gset_to_gmap_Some|done].
  exists ∅. split; [done|left]. split_and!; simpl; [|done|by rewrite Ha]. by intros u o p [_ ?]%lookup_gset_to_gmap_Some.
Qed.
End guarded.
End Guarded.
