(* ===== verification/Locks.v ===== *)
(** * The lock types of the library, and std::mutex, as locks for data

    Instances of the interface of [Guarded] with their laws: [SpinLock] and
    [FairSpinLock] of concurrency/spin_lock.h, by their invariants; and, since
    it is the default of the templates, [std::mutex]: it hands the view of the
    last owner to the next. *)

From S2P Require Import Prelude Machine Atomics SpinLock SpinLockProofs Guarded.

Local Open Scope Z_scope.

(** ** Locks whose state has a thread for each user

    An event is of one thread, which never forgets what it has seen. *)
Section threads.
Context {S E Pc : Type} (step : S -> E -> option S) (lock unlock access : tid -> E) (internal : E -> bool).
Context (owner : Pc -> bool) (clock : S -> nat) (accesses : S -> view) (threads : S -> gmap tid (thread Pc)).

Definition thread_lock : Lock S E := {|
  lock_step := step;
  lock_call := lock;
  unlock_call := unlock;
  Guarded.access := access;
  Guarded.internal := internal;
  owning s t := match threads s !! t with Some th => owner (at_pc th) | None => false end;
  next_ident := clock;
  accessed := accesses;
  view_of s t := seen <$> threads s !! t;
|}.

Context (who : E -> tid) (ok : S -> Prop).

(** What an event does: to the thread [th], which becomes [th'], and to the
    record of the accesses. *)
Record moves (s : S) (e : E) (s' : S) (th th' : thread Pc) : Prop := {
  mv_before : threads s !! who e = Some th;
  mv_after : threads s' = <[who e := th']> (threads s);
  mv_seen : seen th ⊆ seen th';
  mv_owner : owner (at_pc th) = true -> owner (at_pc th') = true \/ e = unlock (who e);
  mv_access : e = access (who e) -> seen th' = {[clock s]} ∪ seen th /\ accesses s' = {[clock s]} ∪ accesses s;
  mv_silent : (forall t, e <> access t) -> accesses s' = accesses s;
}.

Record thread_laws : Prop := {
  tl_moves s e s' : step s e = Some s' -> exists th th', moves s e s' th th';
  tl_who t : who (unlock t) = t /\ who (access t) = t;
  tl_silent e t : @silent _ _ thread_lock e -> e <> access t;
  tl_spares t : ~ @spares _ _ thread_lock t (unlock t);
  tl_ok s e s' : ok s -> step s e = Some s' -> ok s';
  tl_one s t u th thu : ok s -> threads s !! t = Some th -> threads s !! u = Some thu ->
    owner (at_pc th) = true -> owner (at_pc thu) = true -> t = u;
  tl_seen s t th : ok s -> threads s !! t = Some th -> owner (at_pc th) = true -> accesses s ⊆ seen th;
}.

Lemma thread_lock_laws : thread_laws -> LockLaws thread_lock (fun s _ => ok s).
Proof.
  intros [Hmv Hwho Hsi Hsp Hok Hone Hseen].
  assert (Hown : forall s t, @owning _ _ thread_lock s t = true -> exists th, threads s !! t = Some th /\ owner (at_pc th) = true).
  { intros s t. simpl. destruct (threads s !! t) as [th|]; [|done]. by exists th. }
  split; simpl.
  - intros s _ e s' H _. by apply Hok.
  - intros s _ t U s' H _. by apply Hok.
  - intros s _ t u H (th & Ht & Hp)%Hown (thu & Hu & Hpu)%Hown. by eapply Hone.
  - intros s V t U H (th & Ht & Hp)%Hown. rewrite Ht. intros [= <-]. pose proof (Hseen s t th H Ht Hp). set_solver.
  - intros s t (th & Ht & _)%Hown. rewrite Ht. by eexists.
  - intros s t e s' Hspare Hs (th & Ht & Hp)%Hown. destruct (Hmv s e s' Hs) as (thw & th' & [Hb Ha _ Ho _ _]). rewrite Ha.
    destruct (decide (who e = t)) as [<-|Hne]; [|by rewrite lookup_insert_ne, Ht].
    rewrite lookup_insert_eq. simplify_eq. destruct (Ho Hp) as [|He]; [done|]. rewrite He in Hspare at 2. by destruct (Hsp (who e)).
  - intros s e s' t U Hs HU. destruct (Hmv s e s' Hs) as (thw & th' & [Hb Ha Hsub _ _ _]). rewrite Ha.
    destruct (decide (who e = t)) as [<-|Hne]; [|rewrite lookup_insert_ne by done; by exists U].
    rewrite lookup_insert_eq. rewrite Hb in HU. injection HU as <-. by exists (seen th').
  - intros s t s' Hs. destruct (Hmv _ _ _ Hs) as (th & th' & [_ _ _ _ Hacc _]).
    destruct (Hwho t) as [_ Hw]. rewrite Hw in Hacc. by apply Hacc.
  - intros s t U s' Hs HU. destruct (Hmv _ _ _ Hs) as (th & th' & [Hb Ha _ _ Hacc _]).
    destruct (Hwho t) as [_ Hw]. rewrite Hw in Hb, Ha, Hacc. rewrite Ha, lookup_insert_eq. rewrite Hb in HU.
    injection HU as <-. simpl. by destruct (Hacc eq_refl) as [-> _].
  - intros s e s' Hse Hs. destruct (Hmv _ _ _ Hs) as (th & th' & [_ _ _ _ _ Hsame]). apply Hsame. intros t. by apply Hsi.
Qed.
End threads.

(** ** SpinLock *)

Definition spin_owner (p : SpinLock.pc) : bool := match p with SpinLock.Owner => true | _ => false end.
Definition spin_who (e : SpinLock.event) : tid :=
  match e with SpinLock.Call t _ | SpinLock.Act t _ | SpinLock.Access t => t end.

Definition spin_lock (w : Z) : Lock SpinLock.state SpinLock.event :=
  thread_lock (SpinLock.step w) (fun t => SpinLock.Call t SpinLock.lock) (fun t => SpinLock.Call t SpinLock.unlock)
    SpinLock.Access (fun e => match e with SpinLock.Act _ _ => true | _ => false end)
    spin_owner SpinLock.clock SpinLock.accesses SpinLock.threads.

Lemma spin_moves w s e s' :
  SpinLock.step w s e = Some s' -> exists th th',
    moves (fun t => SpinLock.Call t SpinLock.unlock) SpinLock.Access spin_owner SpinLock.clock SpinLock.accesses
      SpinLock.threads spin_who s e s' th th'.
Proof.
  intros Hs. destruct e as [t o|t i|t]; simpl in Hs; destruct (SpinLock.threads s !! t) as [th|] eqn:Ht; simpl in Hs; try done.
  - destruct (SpinLock.call o (at_pc th)) as [p|] eqn:Hc; simpl in Hs; [|done]. injection Hs as <-.
    exists th, (mkThread p (seen th)). split; simpl; try done.
    destruct (at_pc th), o; simpl in Hc; try done. by right.
  - unfold SpinLock.act, SpinLock.test_and_set, SpinLock.clear, SpinLock.go in Hs. exists th.
    destruct (at_pc th) as [|k| | | |] eqn:Hp; try done;
      try (destruct (rmw _ _ _ _ _ _) as [[[b h] V]|] eqn:Hr; simpl in Hs; [|done]);
      try (destruct (store _ _ _ _ _ _) as [[h V]|] eqn:Hr; simpl in Hs; [|done]); injection Hs as <-; eexists;
      (split; [done|done| |by rewrite Hp|done|done]); simpl; try done.
    + by apply rmw_grows in Hr.
    + by apply rmw_grows in Hr.
    + by apply store_grows in Hr.
  - case_decide; [|done]. injection Hs as <-. exists th, (touch (SpinLock.clock s) th).
    split; simpl; try done; [set_solver|by left|intros Hno; by destruct (Hno t)].
Qed.

Lemma spin_lock_laws w : 16 <= w -> LockLaws (spin_lock w) (fun s _ => SpinLockProofs.inv s).
Proof.
  intros Hw. apply (thread_lock_laws _ _ _ _ _ _ _ _ _ spin_who). split.
  - apply spin_moves.
  - done.
  - intros e t Hs ->. by inversion Hs.
  - intros t Hs. inversion Hs; done.
  - intros s e s'. by apply SpinLockProofs.inv_step.
  - intros s t u th thu Hi Ht Hu Hp Hpu. destruct (at_pc th) eqn:Hpc; try done. destruct (at_pc thu) eqn:Hpcu; try done.
    eapply SpinLockProofs.holder_unique; [exact Hi|exact Ht|exact Hu|by rewrite Hpc|by rewrite Hpcu].
  - intros s t th Hi Ht Hp. destruct (at_pc th) eqn:Hpc; try done.
    eapply SpinLockProofs.holder_seen; [exact Hi|exact Ht|by rewrite Hpc].
Qed.

(** ** FairSpinLock *)

Definition fair_who (e : FairSpinLock.event) : tid :=
  match e with FairSpinLock.Call t _ | FairSpinLock.Act t _ | FairSpinLock.Access t => t end.

Definition fair_spin_lock (w : Z) : Lock FairSpinLock.state FairSpinLock.event :=
  thread_lock (FairSpinLock.step w) (fun t => FairSpinLock.Call t FairSpinLock.lock)
    (fun t => FairSpinLock.Call t FairSpinLock.unlock)
    FairSpinLock.Access (fun e => match e with FairSpinLock.Act _ _ => true | _ => false end)
    FairSpinLock.owning FairSpinLock.clock FairSpinLock.accesses FairSpinLock.threads.

Lemma fair_moves w s e s' :
  FairSpinLock.step w s e = Some s' -> exists th th',
    moves (fun t => FairSpinLock.Call t FairSpinLock.unlock) FairSpinLock.Access FairSpinLock.owning FairSpinLock.clock
      FairSpinLock.accesses FairSpinLock.threads fair_who s e s' th th'.
Proof.
  intros Hs. destruct e as [t o|t i|t]; simpl in Hs; destruct (FairSpinLock.threads s !! t) as [th|] eqn:Ht; simpl in Hs;
    try done.
  - destruct (FairSpinLock.call o (at_pc th)) as [p|] eqn:Hc; simpl in Hs; [|done]. injection Hs as <-.
    exists th, (mkThread p (seen th)). split; simpl; try done.
    destruct (at_pc th), o; simpl in Hc; try done. by right.
  - unfold FairSpinLock.act, FairSpinLock.take_ticket, FairSpinLock.spin, FairSpinLock.leave, FairSpinLock.go in Hs. exists th.
    destruct (at_pc th) as [| |k n|k|k|k] eqn:Hp; try done;
      try (destruct (rmw _ _ _ _ _ _) as [[[b h] V]|] eqn:Hr; simpl in Hs; [|done]);
      try (destruct (load _ _ _ _) as [[v V]|] eqn:Hr; simpl in Hs; [|done]); injection Hs as <-; eexists;
      (split; [done|done| |by rewrite Hp|done|done]); simpl; try done.
    + by apply rmw_grows in Hr.
    + by apply load_grows in Hr.
    + by apply rmw_grows in Hr.
  - destruct (FairSpinLock.owning (at_pc th)) eqn:Ho; [|done]. injection Hs as <-. exists th, (touch (FairSpinLock.clock s) th).
    split; simpl; try done; [set_solver|by left|intros Hno; by destruct (Hno t)].
Qed.

Definition in_line (m : FairSpinLock.state) : Prop := exists q drew, FairSpinLockProofs.stands m q drew.

Lemma fair_spin_lock_laws w : 16 <= w -> LockLaws (fair_spin_lock w) (fun s _ => in_line s).
Proof.
  intros Hw. apply (thread_lock_laws _ _ _ _ _ _ _ _ _ fair_who). split.
  - apply fair_moves.
  - done.
  - intros e t Hs ->. by inversion Hs.
  - intros t Hs. inversion Hs; done.
  - intros s e s' (q & drew & H) Hs. pose proof (FairSpinLockProofs.stands_step w s q drew e s' Hw H Hs) as Hst.
    destruct (FairSpinLock.label_of s e); [|by exists q, drew].
    destruct Hst as (q' & drew' & _ & H'). by exists q', drew'.
  - intros s t u th thu (q & drew & H) Ht Hu Ho Hou.
    destruct (FairSpinLockProofs.stands_access _ _ _ _ _ H Ht Ho) as (Hhd & _).
    destruct (FairSpinLockProofs.stands_access _ _ _ _ _ H Hu Hou) as (Hhdu & _). congruence.
  - intros s t th (q & drew & H) Ht Ho. destruct (FairSpinLockProofs.stands_access _ _ _ _ _ H Ht Ho) as (Hhd & Hins & _).
    pose proof (FairSpinLockProofs.st_data _ _ _ H) as Hd. rewrite Hins in Hd. by apply (Hd t th).
Qed.

(** ** std::mutex *)

Module Mutex.

Inductive pc := Away | Wanting | Holding.

#[export] Instance pc_eq_dec : EqDecision pc.
Proof. solve_decision. Defined.

(** [released] is the view of the last owner. *)
Record state := mkState {
  owner : option tid;
  released : view;
  clock : nat;
  accesses : view;
  threads : gmap tid (thread pc);
}.

Inductive event := Lock_ (t : tid) | Acquire (t : tid) | Unlock (t : tid) | Access (t : tid).

Definition move (m : state) (t : tid) (o : option tid) (r : view) (p : pc) (V : view) : state :=
  mkState o r (clock m) (accesses m) (<[t := mkThread p V]> (threads m)).

Definition step (m : state) (e : event) : option state :=
  match e with
  | Lock_ t =>
      th ← threads m !! t;
      if decide (at_pc th = Away) then Some (move m t (owner m) (released m) Wanting (seen th)) else None
  | Acquire t =>
      th ← threads m !! t;
      if decide (at_pc th = Wanting /\ owner m = None)
      then Some (move m t (Some t) (released m) Holding (released m ∪ seen th)) else None
  | Unlock t =>
      th ← threads m !! t;
      if decide (at_pc th = Holding) then Some (move m t None (seen th) Away (seen th)) else None
  | Access t =>
      th ← threads m !! t;
      if decide (at_pc th = Holding) then
        Some (mkState (owner m) (released m) (S (clock m)) ({[clock m]} ∪ accesses m)
          (<[t := touch (clock m) th]> (threads m)))
      else None
  end.

Definition start (ts : gset tid) : state := mkState None ∅ 1 ∅ (gset_to_gmap (mkThread Away ∅) ts).

(** The owner, or else the mutex, has seen every access. *)
Record inv (m : state) : Prop := {
  inv_holding : forall t th, threads m !! t = Some th -> at_pc th = Holding ->
    owner m = Some t /\ accesses m ⊆ seen th;
  inv_free : owner m = None -> accesses m ⊆ released m;
}.

Lemma mutex_inv_start ts : inv (start ts).
Proof. split; simpl; [|done]. by intros t th [_ <-]%lookup_gset_to_gmap_Some. Qed.

Lemma mutex_inv_step m e m' : inv m -> step m e = Some m' -> inv m'.
Proof.
  intros [Hh Hf] Hs. destruct e as [t|t|t|t]; simpl in Hs;
    destruct (threads m !! t) as [th|] eqn:Ht; simpl in Hs; try done; case_decide as Hpc; try done; injection Hs as <-.
  - split; simpl; [|done]. intros u thu [[<- <-]|[_ Hu]]%lookup_insert_Some Hp; [done|by apply Hh].
  - destruct Hpc as [Hpc Ho]. specialize (Hf Ho). split; simpl; [|done].
    intros u thu [[<- <-]|[_ Hu]]%lookup_insert_Some Hp; [split; [done|simpl; set_solver]|].
    destruct (Hh u thu Hu Hp). congruence.
  - destruct (Hh t th Ht Hpc) as [Ho Hsub]. split; simpl; [|done].
    intros u thu [[<- <-]|[Hne Hu]]%lookup_insert_Some Hp; [done|]. destruct (Hh u thu Hu Hp). congruence.
  - destruct (Hh t th Ht Hpc) as [Ho Hsub]. split; simpl; [|congruence].
    intros u thu [[<- <-]|[Hne Hu]]%lookup_insert_Some Hp; [split; [done|simpl; set_solver]|].
    destruct (Hh u thu Hu Hp). congruence.
Qed.
End Mutex.

Definition holding (p : Mutex.pc) : bool := match p with Mutex.Holding => true | _ => false end.
Definition mutex_who (e : Mutex.event) : tid :=
  match e with Mutex.Lock_ t | Mutex.Acquire t | Mutex.Unlock t | Mutex.Access t => t end.

Definition std_mutex : Lock Mutex.state Mutex.event :=
  thread_lock Mutex.step Mutex.Lock_ Mutex.Unlock Mutex.Access (fun e => match e with Mutex.Acquire _ => true | _ => false end)
    holding Mutex.clock Mutex.accesses Mutex.threads.

Lemma mutex_moves s e s' :
  Mutex.step s e = Some s' -> exists th th',
    moves Mutex.Unlock Mutex.Access holding Mutex.clock Mutex.accesses Mutex.threads mutex_who s e s' th th'.
Proof.
  intros Hs. destruct e as [t|t|t|t]; simpl in Hs; destruct (Mutex.threads s !! t) as [th|] eqn:Ht; simpl in Hs; try done;
    case_decide as Hp; try done; injection Hs as <-; exists th; eexists;
    (split; [done|done|simpl; set_solver| | |]); simpl; try done; try (by rewrite Hp); try (by left); try (by right).
  intros Hno. by destruct (Hno t).
Qed.

Lemma std_mutex_laws : LockLaws std_mutex (fun s _ => Mutex.inv s).
Proof.
  apply (thread_lock_laws _ _ _ _ _ _ _ _ _ mutex_who). split.
  - apply mutex_moves.
  - done.
  - intros e t Hs ->. by inversion Hs.
  - intros t Hs. inversion Hs; done.
  - apply Mutex.mutex_inv_step.
  - intros s t u th thu Hi Ht Hu Hp Hpu. destruct (at_pc th) eqn:Hpc; try done. destruct (at_pc thu) eqn:Hpcu; try done.
    destruct (Mutex.inv_holding _ Hi t th Ht Hpc), (Mutex.inv_holding _ Hi u thu Hu Hpcu). congruence.
  - intros s t th Hi Ht Hp. destruct (at_pc th) eqn:Hpc; try done. by destruct (Mutex.inv_holding _ Hi t th Ht Hpc).
Qed.
