(* ===== verification/LRUCacheLocked.v ===== *)
(** * BlockingLRUCache over any lock

    The class has the type of its mutex as a template parameter.  Here it is a
    parameter of the model too, with the interface of [Guarded].  The methods
    of the cache are written as sequences of accesses, one for each condition
    and each assignment of the source, and they prove to be the operations of
    [LRUCache] when nobody interferes; over every lock that keeps the laws
    nobody does, and the cache is linearizable. *)

From S2P Require Import Prelude DList Machine Atomics LRUCache LRUCacheProofs BlockingLRUCache.
From S2P Require Import SpinLock SpinLockProofs Guarded Locks.

Section locked.
Context {K V P S E : Type} `{Countable K} (deref : V -> option P) {lk : Lock S E}.

(** ** The methods, access by access *)

Abbreviation prog := (work (LRUCache K V) (ret K V P)).
Implicit Types (c : LRUCache K V) (k : K) (p : prog).

(** [iter = mem.find(key)], [iter == mem.end()]. *)
Definition if_found k (yes no : prog) : prog := ask (fun c => Some (has_key c k)) (fun b => if b then yes else no).

(** [k->second.field = ...]. *)
Definition assign k (f : Entry K V -> Entry K V) p : prog := act (fun c => upd c k f) p.

Definition insert_head_work k p : prog :=
  ask (fun c => Some (lru_list_head c)) (fun h =>
    match h with
    | None =>
        act (fun c => Some (set_head (Some k) c)) (act (fun c => Some (set_tail (Some k) c))
          (assign k (with_parent None) (assign k (with_child None) p)))
    | Some _ =>
        assign k (with_parent None) (act (fun c => upd c k (with_child (lru_list_head c)))
          (act (fun c => h ← lru_list_head c; upd c h (with_parent (Some k)))
            (act (fun c => Some (set_head (Some k) c)) p)))
    end).

Definition release_work k p : prog :=
  let tail_side :=
    ask (fun c => child <$> mem c !! k) (fun x =>
      match x with
      | None => act (fun c => n ← mem c !! k; Some (set_tail (parent n) c)) p
      | Some x => act (fun c => n ← mem c !! k; upd c x (with_parent (parent n))) p
      end) in
  ask (fun c => parent <$> mem c !! k) (fun x =>
    match x with
    | None => act (fun c => n ← mem c !! k; Some (set_head (child n) c)) tail_side
    | Some x => act (fun c => n ← mem c !! k; upd c x (with_child (child n))) tail_side
    end).

Definition erase_work k p : prog := act (fun c => Some (erase_mem c k)) p.

Definition gc1_work p : prog :=
  ask lru_list_tail (fun k => release_work k (erase_work k p)).

Definition method_work (o : op K V) : prog :=
  match o with
  | Set_ k v =>
      if_found k
        (assign k (with_value v) (release_work k (insert_head_work k (Done RVoid))))
        (act (fun c => Some (set_mem (<[k := mkEntry v None None]> (mem c)) c))
          (insert_head_work k
            (ask (fun c => Some (capacity c <? Z.of_nat (size (mem c)))%Z) (fun full =>
              if full then gc1_work (Done RVoid) else Done RVoid))))
  | Get k => if_found k (release_work k (insert_head_work k (Done (RPtr (Some k))))) (Done (RPtr None))
  | GetCopy k =>
      if_found k
        (release_work k (insert_head_work k (ask (fun c => value <$> mem c !! k) (fun v => Done (RVal (Some v))))))
        (Done (RVal None))
  | GetMove k =>
      if_found k
        (ask (fun c => value <$> mem c !! k) (fun v => release_work k (erase_work k (Done (RVal (Some v))))))
        (Done (RVal None))
  | GetCopyPointee k =>
      if_found k
        (release_work k (insert_head_work k
          (ask (fun c => e ← mem c !! k; deref (value e)) (fun x => Done (RPointee (Some x))))))
        (Done (RPointee None))
  | HasKey k => if_found k (Done (RBool true)) (Done (RBool false))
  | Erase k => if_found k (release_work k (erase_work k (Done (RBool true)))) (Done (RBool false))
  | Clear =>
      act (fun c => Some (set_mem ∅ c))
        (act (fun c => Some (set_head None c)) (act (fun c => Some (set_tail None c)) (Done RVoid)))
  end.

(** Undisturbed, they are the operations of the unsynchronised cache. *)

Lemma alone_found k (yes no : prog) c :
  alone (if_found k yes no) c = match mem c !! k with Some _ => alone yes c | None => alone no c end.
Proof. unfold if_found, has_key. rewrite alone_ask. simpl. by destruct (mem c !! k). Qed.

Lemma upd_head c c' k f : upd c k f = Some c' -> lru_list_head c' = lru_list_head c.
Proof. unfold upd. intros Hu. destruct (mem c !! k); simpl in Hu; by simplify_eq. Qed.

Lemma alone_insert_head k p c : alone (insert_head_work k p) c = c' ← list_insert_head c k; alone p c'.
Proof.
  unfold insert_head_work, list_insert_head, assign. rewrite alone_ask. simpl. destruct (lru_list_head c) as [h|] eqn:Hh; simpl.
  - destruct (upd c k (with_parent None)) as [c1|] eqn:H1; simpl; [|done].
    assert (lru_list_head c1 = Some h) as Hh1 by (by rewrite (upd_head _ _ _ _ H1)). rewrite Hh1.
    destruct (upd c1 k _) as [c2|] eqn:H2; simpl; [|done]. rewrite (upd_head _ _ _ _ H2), Hh1. simpl.
    by destruct (upd c2 h _).
  - change (set_tail (Some k) (set_head (Some k) c)) with (set_head (Some k) (set_tail (Some k) c)).
    destruct (upd (set_head (Some k) (set_tail (Some k) c)) k (with_parent None)) as [c1|]; simpl; [|done].
    by destruct (upd c1 k (with_child None)).
Qed.

Lemma alone_release k p c : alone (release_work k p) c = c' ← list_release c k; alone p c'.
Proof.
  unfold release_work, list_release. rewrite alone_ask. destruct (mem c !! k) as [n|] eqn:Hn; simpl; [|done].
  destruct (parent n) as [x|]; simpl; rewrite Hn; simpl.
  - destruct (upd c x _) as [c1|]; simpl; [|done]. destruct (mem c1 !! k) as [n1|] eqn:Hn1; simpl; [|done].
    destruct (child n1) as [y|]; simpl; rewrite Hn1; simpl; [|done]. by destruct (upd c1 y _).
  - rewrite Hn. simpl. destruct (child n) as [y|]; simpl; rewrite Hn; simpl; [|done]. by destruct (upd _ y _).
Qed.

Lemma alone_move k p c :
  alone (release_work k (insert_head_work k p)) c = c' ← list_move_to_head c k; alone p c'.
Proof.
  rewrite alone_release. unfold list_move_to_head. destruct (list_release c k) as [c1|]; simpl; [|done].
  apply alone_insert_head.
Qed.

#[local] Opaque if_found insert_head_work release_work.

Lemma alone_gc1 p c : alone (gc1_work p) c = c' ← gc1 c; alone p c'.
Proof.
  unfold gc1_work, gc1. rewrite alone_ask. destruct (lru_list_tail c) as [k|]; simpl; [|done].
  rewrite alone_release. by destruct (list_release c k).
Qed.

#[local] Opaque gc1_work.

Lemma method_alone o c : alone (method_work o) c = exec deref c o.
Proof.
  destruct o as [k v|k|k|k|k|k|k|]; simpl; try (rewrite alone_found);
    unfold set, get, get_copy, get_move, get_copy_pointee, has_key, LRUCache.erase;
    try (destruct (mem c !! k) as [e|] eqn:Hk; simpl; [|done]); rewrite ?alone_move; try done.
  - destruct (mem c !! k) as [e|] eqn:Hk; unfold assign; rewrite alone_act.
    + destruct (upd c k _) as [c1|]; simpl; [|done]. rewrite alone_move. by destruct (list_move_to_head c1 k).
    + simpl. rewrite alone_insert_head. destruct (list_insert_head _ k) as [c1|]; simpl; [|done].
      destruct (capacity c1 <? Z.of_nat (size (mem c1)))%Z; [|done].
      rewrite alone_gc1. by destruct (gc1 c1).
  - by destruct (list_move_to_head c k).
  - destruct (list_move_to_head c k) as [c1|]; simpl; [|done]. by destruct (mem c1 !! k).
  - rewrite Hk. simpl. rewrite alone_release. by destruct (list_release c k).
  - destruct (list_move_to_head c k) as [c1|]; simpl; [|done]. destruct (mem c1 !! k) as [e1|]; simpl; [|done].
    by destruct (deref (value e1)).
  - rewrite alone_release. by destruct (list_release c k).
Qed.

(** ** The class *)

Abbreviation lstate := (Guarded.state (S := S) (D := LRUCache K V) (O := op K V) (R := ret K V P)).
Abbreviation levent := (Guarded.event (E := E) (O := op K V)).

(** The methods work on the cache under a [lock_guard]. *)
Definition lstep : lstate -> levent -> option lstate :=
  Guarded.step (lk := lk) method_work BlockingLRUCache.offered.

Definition lstart (s : S) (cap : Z) (ts : gset tid) : lstate := Guarded.start s (construct cap) ts.

Definition lhistory (g : lstate) (es : list levent) : list (tid * op K V * ret K V P) :=
  Guarded.history (lk := lk) method_work BlockingLRUCache.offered g es.

Lemma replay_spec c c' l os rs :
  recent c l -> Guarded.replay method_work c os = Some (c', rs) ->
  exists l', spec_ops deref (capacity c) l os = Some (l', rs) /\ recent c' l' /\ capacity c' = capacity c.
Proof.
  revert c l rs. induction os as [|o os IH]; intros c l rs Hc Hr; simpl in Hr.
  { injection Hr as <- <-. by exists l. }
  rewrite method_alone in Hr. destruct (exec deref c o) as [[c1 r]|] eqn:He; simpl in Hr; [|done].
  destruct (Guarded.replay method_work c1 os) as [[c2 rs2]|] eqn:Hos; simpl in Hr; [|done].
  injection Hr as <- <-. destruct (BlockingLRUCache.exec_spec deref c c1 l o r Hc He) as (l1 & Hs & Hc1 & Hcap).
  destruct (IH c1 l1 rs2 Hc1 Hos) as (l' & Hs' & Hc' & Hcap'). exists l'. simpl. rewrite Hs. simpl.
  rewrite <- Hcap, Hs'. simpl. by rewrite Hcap'.
Qed.
End locked.

(** C17: BlockingLRUCache is linearizable over any lock that excludes and
    synchronizes (the laws of [Guarded]), on a memory where an access to the
    cache may read whatever is not behind the view of its thread, with the
    methods as sequences of accesses between which the other threads go on. In
    every interleaving with the steps of the lock, the calls in the order in
    which they own it, with their results, are a sequential execution of the
    recency-list specification, which leaves a cache within its capacity; when
    nobody is inside a method, that cache is the last state of the memory.
    Whoever is inside is alone, has seen every access before, so that there is
    no data race, and what is left of its method makes of the present state
    what the whole method makes of the cache it found. *)
Theorem blocking_any_lock {K V P S E} `{Countable K} (deref : V -> option P) (lk : Lock S E) ok cap s ts es g :
  LockLaws lk ok -> ok s ∅ -> accessed s = ∅ ->
  run (lstep deref (lk := lk)) (lstart s cap ts) es = Some g ->
  exists c l,
    spec_ops deref (uint_of cap) []
      (lhistory deref (lk := lk) (lstart (K := K) (V := V) s cap ts) es).*1.*2 =
      Some (l, (lhistory deref (lk := lk) (lstart s cap ts) es).*2) /\
    recent c l /\ (Z.of_nat (size (mem c)) <= uint_of cap)%Z /\
    ((forall t o p, Guarded.methods g !! t <> Some (Guarded.Inside o p)) ->
       Atomics.value <$> list.last (Guarded.data g) = Some c) /\
    (forall t o p, Guarded.methods g !! t = Some (Guarded.Inside o p) ->
       (forall u o' p', Guarded.methods g !! u = Some (Guarded.Inside o' p') -> u = t) /\
       exists d U, Atomics.value <$> list.last (Guarded.data g) = Some d /\ alone p d = exec deref c o /\
         view_of (Guarded.mtx g) t = Some U /\ accessed (Guarded.mtx g) ⊆ U).
Proof.
  intros Hlaws Hok Hnone Hrun.
  destruct (Guarded.run_replays (method_work deref) BlockingLRUCache.offered ok _ _ es g
    (Guarded.start_holds (method_work deref) ok s (construct cap) ts Hok Hnone) Hrun) as (c & Hrep & Hholds).
  destruct (replay_spec deref _ _ _ _ _ (construct_recent cap) Hrep) as (l & Hs & Hc & _).
  exists c, l. split; [exact Hs|]. split; [done|]. split_and!.
  - rewrite (recent_size _ _ Hc). assert (0 <= uint_of cap)%Z by (apply wrap_u_range; lia).
    destruct (ops_recent deref (Guarded.history (lk := lk) (method_work deref) BlockingLRUCache.offered _ es).*1.*2
      (construct cap) [] l _ (construct_recent cap) ltac:(done) Hs) as (c' & _ & _ & Hlen). done.
  - intros Hno. destruct Hholds as [(V' & _ & [(_ & Hl & _)|(t & o & p & ? & ? & Ht & _)]) _ _]; [done|by destruct (Hno t o p)].
  - intros t o p Ht. destruct (Guarded.inside_alone _ _ _ _ _ _ _ Hholds Ht) as (d & U & HU & Hacc & Hl & Ha & Hone).
    split; [exact Hone|]. exists d, U. by rewrite <- (method_alone deref o c).
Qed.

(** ** A concrete execution

    A cache whose mutex is a [FairSpinLock]: thread 1 draws the second ticket,
    so it finds what thread 0 has stored. *)

Definition accesses_of (t : tid) (from n : nat) : list (Guarded.event (E := FairSpinLock.event) (O := op nat nat)) :=
  map (fun i => Guarded.Access t i (1 + i)) (seq from n).

Definition stored_then_read : list (Guarded.event (E := FairSpinLock.event) (O := op nat nat)) :=
  [Guarded.Begin 0 (Set_ 1 10); Guarded.Internal (FairSpinLock.Act 0 0);
   Guarded.Begin 1 (GetCopy 1); Guarded.Internal (FairSpinLock.Act 1 1);
   Guarded.Internal (FairSpinLock.Act 0 0); Guarded.Internal (FairSpinLock.Act 1 0); Guarded.Enter 0] ++
  accesses_of 0 0 8 ++ [Guarded.End 0; Guarded.Internal (FairSpinLock.Act 0 0);
   Guarded.Internal (FairSpinLock.Act 1 1); Guarded.Enter 1] ++ accesses_of 1 8 11 ++ [Guarded.End 1].

Definition both : gset tid := {[ 0; 1 ]}.

Definition nobody_inside (m : Guarded.method (D := LRUCache nat nat) (O := op nat nat) (R := ret nat nat nat)) : bool :=
  match m with Guarded.Inside _ _ => false | _ => true end.

Lemma blocking_any_lock_witness : exists g c l,
  run (lstep (fun v : nat => Some v) (lk := fair_spin_lock 16)) (lstart (FairSpinLock.start both) 2 both)
    stored_then_read = Some g /\
  spec_ops (fun v : nat => Some v) (uint_of 2) [] [Set_ 1 10; GetCopy 1] = Some (l, [RVoid; RVal (Some 10)]) /\
  recent c l /\ Atomics.value <$> list.last (Guarded.data g) = Some c.
Proof.
  assert (16 <= 16)%Z as Hw by lia.
  assert (in_line (FairSpinLock.start both)) as Hok.
  { do 2 eexists. apply FairSpinLockProofs.stands_start. by vm_compute. }
  assert (lhistory (fun v : nat => Some v) (lk := fair_spin_lock 16) (lstart (FairSpinLock.start both) 2 both)
      stored_then_read = [(0, Set_ 1 10, RVoid); (1, GetCopy 1, RVal (Some 10))]) as Hh by (vm_compute; reflexivity).
  destruct (evaluate (fun g => forallb nobody_inside (map_to_list (Guarded.methods g)).*2 = true)
    (run (lstep (fun v : nat => Some v) (lk := fair_spin_lock 16))
    (lstart (FairSpinLock.start both) 2 both) stored_then_read)) as (g & Hrun & Hm); [vm_compute; reflexivity|].
  destruct (blocking_any_lock (fun v : nat => Some v) (fair_spin_lock 16) (fun s _ => in_line s) 2 (FairSpinLock.start both)
    both stored_then_read g (fair_spin_lock_laws 16 Hw) Hok eq_refl Hrun) as (c & l & Hs & Hc & _ & Hl & _).
  rewrite Hh in Hs. exists g, c, l. split; [exact Hrun|]. split; [exact Hs|]. split; [exact Hc|].
  apply Hl. intros t o p Ht%elem_of_map_to_list. apply Is_true_eq_left, forallb_True in Hm.
  exact (proj1 (Forall_forall _ _) Hm _ (list_elem_of_fmap_2 snd _ _ Ht)).
Defined.
