(* ===== verification/Executor.v ===== *)
(** * concurrency/executor.h: ThreadPoolExecutor

    The workers, the clients and the threads that await termination share one
    mutex and two condition variables.  Worker [w] runs on thread [w]; the
    model has [L] threads for workers, and creating more is [None] (the
    constructor of [Worker] is [noexcept], so a failure to start a thread
    terminates the program).  Every execution is a run for some [L]. *)

From S2P Require Import Prelude Machine Monitor MonitorTheory.

Module Executor.
Local Open Scope Z_scope.

Abbreviation wid := tid.

(** ** Tasks *)

(** What a callable does when it is called; a task is called at most once. *)
Inductive outcome := Returns (v : Z) | Throws (e : Z).

(** [Task] (from [submit]) wraps a [packaged_task]; [UntrackableTask] (from
    [execute]) calls and swallows. *)
Record task := mkTask { number : nat; tracked : bool; callable : outcome }.

#[export] Instance outcome_eq_dec : EqDecision outcome.
Proof. solve_decision. Defined.
#[export] Instance task_eq_dec : EqDecision task.
Proof. solve_decision. Defined.

(** How a call ends: normally, or with an exception for the caller. *)
Inductive completion := Completes | Escapes (e : Z).

Definition runnable_call (o : outcome) : completion :=
  match o with Returns _ => Completes | Throws e => Escapes e end.

(** [std::packaged_task]: the value or the exception of the callable goes to
    the state it shares with the future, and the call ends normally. *)
Definition packaged_task_call (n : nat) (o : outcome) (futures : gmap nat outcome) : gmap nat outcome * completion :=
  (<[n := o]> futures, Completes).

(** [Task::operator()]. *)
Definition Task_call (tk : task) (futures : gmap nat outcome) : gmap nat outcome * completion :=
  packaged_task_call (number tk) (callable tk) futures.

(** [UntrackableTask::operator()]: [catch (...)]. *)
Definition UntrackableTask_call (tk : task) (futures : gmap nat outcome) : gmap nat outcome * completion :=
  match runnable_call (callable tk) with
  | Completes => (futures, Completes)
  | Escapes _ => (futures, Completes)
  end.

(** The virtual [operator()]. *)
Definition call_task (tk : task) (futures : gmap nat outcome) : gmap nat outcome * completion :=
  if tracked tk then Task_call tk futures else UntrackableTask_call tk futures.

Lemma call_completes tk futures : (call_task tk futures).2 = Completes.
Proof. unfold call_task, UntrackableTask_call. by destruct (tracked tk), (runnable_call (callable tk)). Qed.

Lemma call_futures tk futures :
  (call_task tk futures).1 = if tracked tk then <[number tk := callable tk]> futures else futures.
Proof. unfold call_task, UntrackableTask_call. by destruct (tracked tk), (runnable_call (callable tk)). Qed.

(** ** The shared state *)

(** The fields of a [Worker] object. *)
Record Worker := mkWorker { core : bool; worker_index : nat }.

Record pool := mkPool {
  task_queue : list task;
  workers : list wid;
  dead_workers : list wid;
  objs : gmap wid Worker;      (** the [Worker] objects the pointers point to *)
  shut : bool;
  active_count : Z;
  next_worker : wid;
}.

(** The history, for specification: tasks in the order of insertion, in the
    order of removal, those being executed, those executed, their futures. *)
Record journal := mkJournal {
  submitted : list task;
  taken : list task;
  running : gmap wid task;
  finished : list task;
  futures : gmap nat outcome;
}.

Record shared_state := mkShared { the_pool : pool; the_journal : journal }.

Inductive cv_name := cv | wait_cv.
#[export] Instance cv_eq_dec : EqDecision cv_name.
Proof. solve_decision. Defined.

Inductive op :=
| submit (tk : task) | execute (tk : task) | shutdown
| await_termination | await_termination_until
| get_pool_size | get_active_count | is_shutdown | is_terminated
| destroy                     (** the destructor *)
| run (w : wid).              (** the thread function of worker [w] *)

Inductive ret := Void | PermissionDenied | Bool (b : bool) | Size (n : Z).

(** [at_start]: after the first lock.  Workers: the top of the loop, after a
    wake-up in [fetch_task_locked], after the task, in the exit block.
    Await: the second lock, after a wake-up.  The destructor: its [shutdown],
    its [await_termination]. *)
Inductive point :=
| at_start | at_fetch | at_done | at_exit | at_second | at_woken | at_shutdown | at_await.

#[export] Instance op_eq_dec : EqDecision op.
Proof. solve_decision. Defined.
#[export] Instance ret_eq_dec : EqDecision ret.
Proof. solve_decision. Defined.
#[export] Instance point_eq_dec : EqDecision point.
Proof. solve_decision. Defined.

Section code.
Context (L : nat) (max_pool_size : Z).
Implicit Types (p : pool) (j : journal) (s : shared_state).

Abbreviation segment := (option (shared_state * list (notify cv_name) * exit point cv_name ret)).

Definition return_ s (ns : list (notify cv_name)) (r : ret) : segment := Some (s, ns, Leave [] (Return r)).

Definition set_queue (q : list task) p : pool :=
  mkPool q (workers p) (dead_workers p) (objs p) (shut p) (active_count p) (next_worker p).
Definition set_active (n : Z) p : pool :=
  mkPool (task_queue p) (workers p) (dead_workers p) (objs p) (shut p) n (next_worker p).
Definition set_shut p : pool :=
  mkPool (task_queue p) (workers p) (dead_workers p) (objs p) true (active_count p) (next_worker p).

Definition is_terminated_locked p : bool :=
  shut p && bool_decide (task_queue p = []) && bool_decide (workers p = []).

(** [workers.emplace_back(new Worker(...))]: the object is built, with the
    current size as its index, and its thread may start. *)
Definition add_worker_locked (is_core : bool) p : option pool :=
  let w := next_worker p in
  if decide (w < L)%nat then
    Some (mkPool (task_queue p) (workers p ++ [w]) (dead_workers p)
            (<[w := mkWorker is_core (length (workers p))]> (objs p)) (shut p) (active_count p) (S w))
  else None.

Definition insert_task_locked (tk : task) s : option (shared_state * list (notify cv_name)) :=
  let p := set_queue (task_queue (the_pool s) ++ [tk]) (the_pool s) in
  let j := the_journal s in
  let j := mkJournal (submitted j ++ [tk]) (taken j) (running j) (finished j) (futures j) in
  let idle_workers := wrap_u 64 (Z.of_nat (length (workers p)) - active_count p) in
  p ← if (idle_workers =? 0) && (Z.of_nat (length (workers p)) <? max_pool_size)
      then add_worker_locked false p else Some p;
  Some (mkShared p j, [NotifyOne cv]).

Definition submit_body (tk : task) s : segment :=
  '(s, ns) ← insert_task_locked tk s; return_ s ns Void.

Definition execute_body (tk : task) s : segment :=
  '(s, ns) ← insert_task_locked tk s; return_ s ns Void.

Definition shutdown_body s : segment :=
  let p := set_shut (the_pool s) in
  return_ (mkShared p (the_journal s))
    [NotifyAll (if is_terminated_locked p then wait_cv else cv)] Void.

(** ** Waiting for termination *)

Definition await_body (pt : point) s : segment :=
  if is_terminated_locked (the_pool s) then return_ s [] Void
  else match pt with
       | at_start => Some (s, [], Leave [] (Again at_second))
       | _ => Some (s, [], Wait wait_cv false at_woken)
       end.

(** [await_termination_until] gives [wait_until] the predicate
    [is_terminated()], which locks [main_lock] again. *)
Definition await_until_body (pt : point) s : segment :=
  match pt with
  | at_start =>
      if is_terminated_locked (the_pool s) then return_ s [] (Bool true)
      else Some (s, [], Leave [] (Again at_second))
  | _ =>
      if is_terminated_locked (the_pool s) then return_ s [] (Bool true)
      else Some (s, [], Relock at_woken)
  end.

(** ** Workers *)

Definition break_ s : segment := Some (s, [], Leave [] (Again at_exit)).

(** [front()], [pop()], then [++active_count] and the unlocked call. *)
Definition take_task (w : wid) s : segment :=
  match task_queue (the_pool s) with
  | [] => break_ s
  | tk :: q =>
      let p := set_active (active_count (the_pool s) + 1) (set_queue q (the_pool s)) in
      let j := the_journal s in
      let j := mkJournal (submitted j) (taken j ++ [tk]) (<[w := tk]> (running j)) (finished j) (futures j) in
      Some (mkShared p j, [], Leave [] (Again at_done))
  end.

(** [fetch_task_locked] up to its wait: a core worker waits without a timeout. *)
Definition fetch_start (w : wid) (o : Worker) s : segment :=
  if bool_decide (task_queue (the_pool s) = []) then Some (s, [], Wait cv (negb (core o)) at_fetch)
  else take_task w s.

(** The top of the loop. *)
Definition loop_body (w : wid) s : segment :=
  let p := the_pool s in
  o ← objs p !! w;
  if shut p && bool_decide (task_queue p = []) then break_ s else fetch_start w o s.

(** A wake-up in [fetch_task_locked]: the predicate of the wait. *)
Definition fetch_body (w : wid) (timedout : bool) s : segment :=
  let p := the_pool s in
  o ← objs p !! w;
  if bool_decide (task_queue p = []) && negb (shut p) && negb timedout then
    Some (s, [], Wait cv (negb (core o)) at_fetch)
  else take_task w s.

(** [join] and destroy every dead worker. *)
Definition reap_dead_workers_locked p : pool :=
  mkPool (task_queue p) (workers p) [] (foldr delete (objs p) (dead_workers p)) (shut p)
    (active_count p) (next_worker p).

(** The destructor: the three calls it makes, and the last reaping, when no
    worker is left. *)
Definition destroy_body (pt : point) s : segment :=
  let await pt :=
    '(s, ns, ex) ← await_body pt s;
    match ex with
    | Leave _ (Return _) => return_ (mkShared (reap_dead_workers_locked (the_pool s)) (the_journal s)) ns Void
    | _ => Some (s, ns, ex)
    end in
  match pt with
  | at_start =>
      if is_terminated_locked (the_pool s) then await at_start
      else Some (s, [], Leave [] (Again at_shutdown))
  | at_shutdown => '(s, ns, _) ← shutdown_body s; Some (s, ns, Leave [] (Again at_await))
  | at_await => await at_start
  | _ => await at_second
  end.

Definition done_body (w : wid) s : segment :=
  let p := reap_dead_workers_locked (the_pool s) in
  Some (mkShared (set_active (active_count p - 1) p) (the_journal s), [], Leave [] (Again at_start)).

(** [remove_self_locked]: swap with the last pointer, fix its index, move
    ourselves to the dead. *)
Definition remove_self_locked (w : wid) p : option pool :=
  o ← objs p !! w;
  let i := worker_index o in
  self ← workers p !! i;
  b ← last (workers p);
  let ws := <[pred (length (workers p)) := self]> (<[i := b]> (workers p)) in
  ob ← objs p !! b;
  Some (mkPool (task_queue p) (take (pred (length ws)) ws)
          (dead_workers p ++ option_list (last ws))
          (<[b := mkWorker (core ob) i]> (objs p)) (shut p) (active_count p) (next_worker p)).

Definition exit_body (w : wid) s : segment :=
  p ← remove_self_locked w (the_pool s);
  return_ (mkShared p (the_journal s)) (if is_terminated_locked p then [NotifyAll wait_cv] else []) Void.

Definition run_body (w : wid) (pt : point) (timedout : bool) s : segment :=
  match pt with
  | at_fetch => fetch_body w timedout s
  | at_done => done_body w s
  | at_exit => exit_body w s
  | _ => loop_body w s
  end.

(** ** All operations *)

(** [if (shut.load()) throw ...;], before the lock. *)
Definition submit_entry p : entry point ret := if shut p then Direct PermissionDenied else Blocking at_start.

Definition execute_entry p : entry point ret := if shut p then Direct PermissionDenied else Blocking at_start.

Definition enter_ (o : op) s : option (shared_state * entry point ret) :=
  let p := the_pool s in
  Some (s, match o with
           | submit _ => submit_entry p
           | execute _ => execute_entry p
           | get_active_count => Direct (Size (active_count p))
           | is_shutdown => Direct (Bool (shut p))
           | _ => Blocking at_start
           end).

Definition body_ (o : op) (pt : point) (timedout : bool) s : segment :=
  match o with
  | submit tk => submit_body tk s
  | execute tk => execute_body tk s
  | shutdown => shutdown_body s
  | await_termination => await_body pt s
  | await_termination_until => await_until_body pt s
  | get_pool_size => return_ s [] (Size (Z.of_nat (length (workers (the_pool s)))))
  | is_terminated => return_ s [] (Bool (is_terminated_locked (the_pool s)))
  | run w => run_body w pt timedout s
  | destroy => destroy_body pt s
  | get_active_count | is_shutdown => None
  end.

(** Between two locks: a worker calls its task.  The thread function
    [Worker::operator()] is [noexcept]: an exception that leaves the task
    terminates the program, which is [None]. *)
Definition outside_ (o : op) (pt : point) s : option shared_state :=
  match o, pt with
  | run w, at_done =>
      let j := the_journal s in
      tk ← running j !! w;
      match call_task tk (futures j) with
      | (fs, Completes) =>
          Some (mkShared (the_pool s)
            (mkJournal (submitted j) (taken j) (delete w (running j)) (finished j ++ [tk]) fs))
      | (_, Escapes _) => None
      end
  | _, _ => Some s
  end.

Definition the_code : code shared_state op point cv_name ret := mkCode enter_ body_ outside_.

(** The constructor starts the core workers. *)
Fixpoint add_core (n : nat) p : option pool :=
  match n with
  | O => Some p
  | S n => p ← add_worker_locked true p; add_core n p
  end.

Definition construct (core_pool_size : nat) : option shared_state :=
  p ← add_core core_pool_size (mkPool [] [] [] ∅ false 0 O);
  Some (mkShared p (mkJournal [] [] ∅ [] ∅)).

(** ** Threads *)

(** A worker fetches, executes a task, is leaving, has left; everybody else
    is a client. *)
Inductive phase := Fetching | Busy | Dying | Gone.
Inductive hold := Client | OnWorker (w : wid) (ph : phase).

#[export] Instance phase_eq_dec : EqDecision phase.
Proof. solve_decision. Defined.
#[export] Instance hold_eq_dec : EqDecision hold.
Proof. solve_decision. Defined.

Definition settle (o : op) (pt : point) (ex : exit point cv_name ret) (h : hold) : hold :=
  match o, ex with
  | run w, Wait _ _ _ => OnWorker w Fetching
  | run w, Leave _ (Again at_done) => OnWorker w Busy
  | run w, Leave _ (Again at_exit) => OnWorker w Dying
  | run w, Leave _ (Again _) => OnWorker w Fetching
  | run w, Leave _ (Return _) => OnWorker w Gone
  | _, _ => h
  end.

(** [submit] tracks, [execute] does not. *)
Definition well_called (o : op) : bool :=
  match o with submit tk => tracked tk | execute tk => negb (tracked tk) | _ => true end.

(** A worker thread runs once its object exists; clients call the rest. *)
Definition may_call (t : tid) (h : hold) s (o : op) : bool :=
  match o with
  | run w => bool_decide (t = w /\ h = OnWorker w Fetching) && bool_decide (is_Some (objs (the_pool s) !! w))
  | _ => bool_decide (h = Client) && well_called o
  end.

Definition threads_ : client shared_state op point cv_name ret hold := mkClient may_call settle.

(** Threads [0 .. L-1] are for the workers, the rest are clients. *)
Definition crew (clients : gset tid) : gmap tid hold :=
  set_to_map (fun w => (w, OnWorker w Fetching)) (list_to_set (seq 0 L) : gset tid)
  ∪ gset_to_gmap Client clients.
End code.

(** The factories: core size, maximum size, timeout in nanoseconds. *)
Definition MAX_CACHED_THREADS : Z := 1024.
Definition make_single_thread_executor : Z * Z * Z := (1, 1, 0).
Definition make_fixed_thread_pool (num_threads : Z) : Z * Z * Z := (num_threads, num_threads, 0).
Definition make_cached_thread_pool : Z * Z * Z := (1, MAX_CACHED_THREADS, 10 * 1000000000).
End Executor.
