(* ===== verification/ExecutorProofs.v ===== *)
(** * ThreadPoolExecutor: the invariant

    The array of workers and the indices inside the workers agree; the active
    count is the number of workers executing a task; every accepted task is in
    the queue, being executed, or executed, and leaves the queue in order. *)

From S2P Require Import Prelude Machine Monitor MonitorTheory Executor.

Import Executor.
Local Open Scope Z_scope.

(** ** Removal by swapping with the last *)

Section swap.
Context {A : Type}.
Implicit Types (l : list A) (x y b : A).

Lemma swap_remove_eq l b i self :
  (i <= length l)%nat ->
  let ws := <[pred (length (l ++ [b])) := self]> (<[i := b]> (l ++ [b])) in
  take (pred (length ws)) ws = <[i := b]> l /\ last ws = Some self.
Proof.
  intros Hi ws. assert (ws = <[i := b]> l ++ [self]) as ->.
  { unfold ws. rewrite length_app. simpl. rewrite Nat.add_1_r. simpl.
    destruct (decide (i < length l)%nat) as [Hlt|Hge].
    - rewrite insert_app_l by done. rewrite <- (length_insert l i b) at 1.
      by rewrite <- (Nat.add_0_r (length (<[i:=b]> l))), insert_app_r.
    - assert (i = length l) as -> by lia. rewrite (list_insert_ge l) by lia.
      rewrite <- (Nat.add_0_r (length l)), !insert_app_r. done. }
  split; [|by rewrite last_snoc].
  rewrite length_app. simpl. rewrite Nat.add_1_r. simpl. by rewrite take_app_length.
Qed.

Lemma swap_remove_perm l b i x :
  (l ++ [b]) !! i = Some x -> l ++ [b] ≡ₚ x :: <[i := b]> l.
Proof.
  intros Hi. destruct (decide (i < length l)%nat) as [Hlt|Hge].
  - rewrite lookup_app_l in Hi by done.
    rewrite <- (take_drop_middle l i x Hi) at 1. rewrite (insert_take_drop l i b Hlt).
    solve_Permutation.
  - rewrite list_insert_ge by lia. apply lookup_lt_Some in Hi as Hlt.
    rewrite length_app in Hlt. simpl in Hlt.
    assert (i = length l) as -> by lia. rewrite list_lookup_middle in Hi by done.
    injection Hi as ->. solve_Permutation.
Qed.
End swap.

(** ** The invariant *)

Definition busy (h : hold) : Z := match h with OnWorker _ Busy => 1 | _ => 0 end.

Lemma foldr_delete_lookup (m : gmap wid Worker) (ws : list wid) w :
  foldr delete m ws !! w = if decide (w ∈ ws) then None else m !! w.
Proof.
  induction ws as [|v ws IH]; simpl; [done|]. rewrite lookup_delete, IH.
  repeat case_decide; set_solver.
Qed.

Section invariant.
Context (L : nat) (max_pool_size cap : Z) (Hcap : 0 <= cap < 2 ^ 64) (Hmax : max_pool_size <= cap).
Implicit Types (hs : gmap tid hold) (s : shared_state) (p : pool) (j : journal) (w : wid).

(** The pool, against the phases of the workers. *)
Record pool_ok p hs : Prop := {
  po_thread : forall t w ph, hs !! t = Some (OnWorker w ph) -> t = w;
  po_crew : forall w, (w < L)%nat -> exists ph, hs !! w = Some (OnWorker w ph);
  po_nodup : NoDup (workers p);
  po_members : forall w, w ∈ workers p <->
    (w < next_worker p)%nat /\ exists ph, hs !! w = Some (OnWorker w ph) /\ ph <> Gone;
  po_index : forall i w, workers p !! i = Some w -> exists o, objs p !! w = Some o /\ worker_index o = i;
  po_objs : forall w, is_Some (objs p !! w) -> (w < next_worker p)%nat;
  po_dead : forall w, w ∈ dead_workers p -> hs !! w = Some (OnWorker w Gone);
  po_begun : forall w ph, hs !! w = Some (OnWorker w ph) -> ph <> Fetching -> (w < next_worker p)%nat;
  po_next : (next_worker p <= L)%nat;
  po_active : active_count p = sumz busy hs;
  po_size : Z.of_nat (length (workers p)) <= cap;
}.

Definition einv s hs : Prop := pool_ok (the_pool s) hs.

Definition allowed (h : hold) (o : op) (pt : point) : Prop :=
  match o with
  | run w => match pt with
             | at_start | at_fetch => h = OnWorker w Fetching
             | at_done => h = OnWorker w Busy
             | at_exit => h = OnWorker w Dying
             | _ => False
             end
  | get_active_count | is_shutdown => False
  | _ => h = Client
  end.

Definition asleep (h : hold) (c : cv_name) (o : op) (pt : point) : Prop :=
  match o, c, pt with
  | run w, cv, at_fetch => h = OnWorker w Fetching
  | await_termination, wait_cv, at_woken | destroy, wait_cv, at_woken => h = Client
  | _, _, _ => False
  end.

Definition keeps hs (t : tid) (h : hold) (o : op) (pt : point)
    (r : option (shared_state * list (notify cv_name) * exit point cv_name ret)) : Prop :=
  forall s' ns ex, r = Some (s', ns, ex) ->
    einv s' (<[t := settle o pt ex h]> hs) /\ exit_ok allowed asleep (settle o pt ex h) o ex.

(** The busy workers are among the workers. *)
Lemma active_range p hs : pool_ok p hs -> 0 <= active_count p <= Z.of_nat (length (workers p)).
Proof.
  intros H. rewrite (po_active _ _ H). split.
  { apply sumz_nonneg. by intros t [|w []]. }
  assert (forall (ws : list wid), NoDup ws -> (forall t w, hs !! t = Some (OnWorker w Busy) -> t ∈ ws) ->
    sumz busy hs <= Z.of_nat (length ws)) as Hle.
  { clear. induction hs as [|t h hs Ht IH] using map_ind; intros ws Hnd Hws.
    { rewrite sumz_empty. lia. }
    rewrite sumz_insert_None by done.
    assert (Hrest : forall ws', NoDup ws' ->
      (forall u w, u <> t -> hs !! u = Some (OnWorker w Busy) -> u ∈ ws') ->
      sumz busy hs <= Z.of_nat (length ws')).
    { intros ws' Hnd' Hin. apply IH; [done|]. intros u w Hu. apply (Hin u w); [congruence|done]. }
    destruct (decide (busy h = 0)) as [->|Hb].
    - apply Hrest; [done|]. intros u w Hne Hu. apply (Hws u w). by rewrite lookup_insert_ne by congruence.
    - assert (exists w, h = OnWorker w Busy) as [w ->] by (destruct h as [|w []]; try done; by exists w).
      assert (t ∈ ws) as (l1 & l2 & ->)%list_elem_of_split by (apply (Hws t w), lookup_insert_eq).
      specialize (Hrest (l1 ++ l2)). rewrite !length_app in *. simpl.
      rewrite <- Permutation_middle in Hnd. apply NoDup_cons in Hnd as [_ Hnd].
      assert (sumz busy hs <= Z.of_nat (length l1 + length l2)); [|lia].
      apply Hrest; [done|]. intros u v Hne Hu.
      assert (u ∈ l1 ++ t :: l2); [|set_solver]. apply (Hws u v). by rewrite lookup_insert_ne by congruence. }
  apply Hle; [apply H|]. intros t w Ht. pose proof (po_thread _ _ H _ _ _ Ht) as ->.
  apply (po_members _ _ H). split; [|by exists Busy]. by eapply po_begun.
Qed.

(** [insert_task_locked] counts the idle workers without wrapping. *)
Lemma idle_count p hs : pool_ok p hs ->
  wrap_u 64 (Z.of_nat (length (workers p)) - active_count p) = Z.of_nat (length (workers p)) - active_count p.
Proof.
  intros H. pose proof (active_range _ _ H). pose proof (po_size _ _ H). apply wrap_u_small. lia.
Qed.

(** ** What the steps of the code do to the pool *)

Definition same_staff p p' : Prop :=
  workers p' = workers p /\ dead_workers p' = dead_workers p /\ objs p' = objs p /\
  next_worker p' = next_worker p.

Lemma pool_same p p' hs :
  pool_ok p hs -> same_staff p p' -> active_count p' = active_count p -> pool_ok p' hs.
Proof.
  intros [? ? ? ? ? ? ? ? ? ? ?] (Hw & Hd & Ho & Hn) Ha.
  split; rewrite ?Hw, ?Hd, ?Ho, ?Hn, ?Ha; done.
Qed.

Lemma busy_move hs t h h' : hs !! t = Some h -> sumz busy (<[t := h']> hs) = sumz busy hs - busy h + busy h'.
Proof. apply sumz_insert. Qed.

(** A worker of the pool changes phase. *)
Lemma pool_phase p p' hs w ph ph' :
  pool_ok p hs -> same_staff p p' -> hs !! w = Some (OnWorker w ph) -> w ∈ workers p -> ph' <> Gone ->
  active_count p' = active_count p - busy (OnWorker w ph) + busy (OnWorker w ph') ->
  pool_ok p' (<[w := OnWorker w ph']> hs).
Proof.
  intros [Ht Hc Hnd Hm Hi Ho Hd Hb Hn Ha Hs] (Hw' & Hd' & Ho' & Hn') Hw Hin Hph Ha'.
  apply Hm in Hin as (Hlt & ph0 & Hw0 & Hg). rewrite Hw in Hw0. injection Hw0 as <-.
  split; rewrite ?Hw', ?Hd', ?Ho', ?Hn'; try done.
  - intros t v q [[<- [= <- <-]]|[_ Hv]]%lookup_insert_Some; [done|]. by eapply Ht.
  - intros v Hv. rewrite lookup_insert. case_decide; [subst; by eexists|by apply Hc].
  - intros v. rewrite Hm, lookup_insert. case_decide as Hwv; [subst v|done].
    split; (intros [? _]; split; [done|]); by eexists.
  - intros v Hv. rewrite lookup_insert_ne; [by apply Hd|]. intros ->.
    apply Hd in Hv. rewrite Hw in Hv. by injection Hv as ->.
  - intros v q [[<- [= <-]]|[_ Hv]]%lookup_insert_Some Hq; [done|]. by eapply Hb.
  - by rewrite (busy_move _ _ _ _ Hw), Ha', Ha.
Qed.

(** A worker whose object exists and that has not left is in the array. *)
Lemma on_duty p hs w ph o :
  pool_ok p hs -> hs !! w = Some (OnWorker w ph) -> ph <> Gone -> objs p !! w = Some o -> w ∈ workers p.
Proof.
  intros H Hw Hph Ho. apply (po_members _ _ H). split; [|by exists ph].
  apply (po_objs _ _ H). by eexists.
Qed.

Lemma begun_on_duty p hs w ph :
  pool_ok p hs -> hs !! w = Some (OnWorker w ph) -> ph <> Gone -> ph <> Fetching -> w ∈ workers p.
Proof.
  intros H Hw Hg Hf. apply (po_members _ _ H). split; [by eapply po_begun|by exists ph].
Qed.

Lemma add_worker_ok p p' hs c :
  pool_ok p hs -> Z.of_nat (length (workers p)) < cap -> add_worker_locked L c p = Some p' -> pool_ok p' hs.
Proof.
  intros [Ht Hc Hnd Hm Hi Ho Hd Hb Hn Ha Hs] Hlt Hadd. unfold add_worker_locked in Hadd.
  case_decide as HL; [|done]. injection Hadd as <-.
  assert (Hnew : next_worker p ∉ workers p) by (intros [Hx _]%Hm; lia).
  assert (Hfresh : hs !! next_worker p = Some (OnWorker (next_worker p) Fetching)).
  { destruct (Hc _ HL) as [ph Hph]. destruct (decide (ph = Fetching)) as [->|Hne]; [done|].
    specialize (Hb _ _ Hph Hne). lia. }
  split; simpl; try done.
  - apply NoDup_app. split_and!; [done| |apply NoDup_singleton]. set_solver.
  - intros w. rewrite elem_of_app, list_elem_of_singleton, Hm. split.
    + intros [[Hw Hph]| ->]; (split; [lia|]); [done|by exists Fetching].
    + intros [Hw Hph]. destruct (decide (w = next_worker p)); [by right|left]. split; [lia|done].
  - intros i w [Hw|[Hge [Hw <-]%list_lookup_singleton_Some]]%lookup_app_Some.
    + rewrite lookup_insert_ne; [by apply Hi|]. intros <-. by eapply Hnew, list_elem_of_lookup_2.
    + rewrite lookup_insert_eq. eexists. split; [done|]. simpl. lia.
  - intros w. rewrite lookup_insert_is_Some. intros [->|[_ Hw]]; [lia|]. specialize (Ho w Hw). lia.
  - intros w ph Hw Hph. specialize (Hb w ph Hw Hph). lia.
  - rewrite length_app. simpl. lia.
Qed.

Lemma insert_ok tk s s' ns hs :
  einv s hs -> insert_task_locked L max_pool_size tk s = Some (s', ns) -> einv s' hs.
Proof.
  intros H Hins. unfold insert_task_locked in Hins. set (p := set_queue _ _) in Hins.
  assert (Hp : pool_ok p hs) by (by eapply pool_same).
  destruct (_ && _) eqn:Htest.
  - destruct (add_worker_locked L false p) as [p'|] eqn:Hadd; simpl in Hins; [|done].
    injection Hins as <- _. eapply add_worker_ok; [done| |done].
    apply andb_prop in Htest as [_ Hlt%Z.ltb_lt]. lia.
  - simpl in Hins. by injection Hins as <- _.
Qed.

Lemma take_task_keeps hs w s pt :
  einv s hs -> hs !! w = Some (OnWorker w Fetching) -> w ∈ workers (the_pool s) ->
  keeps hs w (OnWorker w Fetching) (run w) pt (take_task w s).
Proof.
  intros H Hw Hin s' ns ex Hr. unfold take_task, break_ in Hr.
  destruct (task_queue (the_pool s)) as [|tk q]; injection Hr as <- <- <-; (split; [|done]).
  - eapply pool_phase; try done. simpl. lia.
  - eapply pool_phase; try done. simpl. lia.
Qed.

Lemma fetch_wait_keeps hs w s pt c tm :
  einv s hs -> hs !! w = Some (OnWorker w Fetching) -> w ∈ workers (the_pool s) -> c = cv ->
  keeps hs w (OnWorker w Fetching) (run w) pt (Some (s, [], Wait c tm at_fetch)).
Proof.
  intros H Hw Hin -> s' ns ex [= <- <- <-]. simpl. by rewrite insert_id by done.
Qed.

Lemma loop_keeps hs w s pt :
  einv s hs -> hs !! w = Some (OnWorker w Fetching) ->
  keeps hs w (OnWorker w Fetching) (run w) pt (loop_body w s).
Proof.
  intros H Hw s' ns ex Hr. unfold loop_body, fetch_start in Hr.
  destruct (objs (the_pool s) !! w) as [o|] eqn:Ho; simpl in Hr; [|done].
  assert (Hin : w ∈ workers (the_pool s)) by (by eapply on_duty).
  repeat case_match.
  - injection Hr as <- <- <-. split; [|done]. eapply pool_phase; try done. simpl. lia.
  - by eapply fetch_wait_keeps.
  - by eapply take_task_keeps.
Qed.

Lemma fetch_keeps hs w s pt b :
  einv s hs -> hs !! w = Some (OnWorker w Fetching) ->
  keeps hs w (OnWorker w Fetching) (run w) pt (fetch_body w b s).
Proof.
  intros H Hw s' ns ex Hr. unfold fetch_body in Hr.
  destruct (objs (the_pool s) !! w) as [o|] eqn:Ho; simpl in Hr; [|done].
  assert (Hin : w ∈ workers (the_pool s)) by (by eapply on_duty).
  case_match; [by eapply fetch_wait_keeps|by eapply take_task_keeps].
Qed.

Lemma reap_ok p hs : pool_ok p hs -> pool_ok (reap_dead_workers_locked p) hs.
Proof.
  intros [Ht Hc Hnd Hm Hi Ho Hd Hb Hn Ha Hs]. split; simpl; try done.
  - intros i w Hw. rewrite foldr_delete_lookup, decide_False; [by apply Hi|].
    intros Hw'%Hd. apply list_elem_of_lookup_2, Hm in Hw as (_ & ph & Hph & Hg). congruence.
  - intros w. rewrite foldr_delete_lookup. case_decide; [by intros []|apply Ho].
  - by intros w ?%elem_of_nil.
Qed.

Lemma done_keeps hs w s :
  einv s hs -> hs !! w = Some (OnWorker w Busy) ->
  keeps hs w (OnWorker w Busy) (run w) at_done (done_body w s).
Proof.
  intros H Hw s' ns ex [= <- <- <-]. split; [|done]. apply reap_ok in H.
  eapply pool_phase; try done.
  - by eapply begun_on_duty.
  - simpl. lia.
Qed.

(** The last pointer of an array without duplicates is nowhere else after it
    has been swapped into the place of another. *)
Lemma swap_once (l : list wid) b i w k :
  NoDup (<[i := b]> l) -> w ∉ <[i := b]> l -> (l ++ [b]) !! i = Some w -> <[i := b]> l !! k = Some b -> k = i.
Proof.
  intros Hnd Hwl Hwi Hk. pose proof (lookup_lt_Some _ _ _ Hwi) as Hlt. rewrite length_app in Hlt. simpl in Hlt.
  destruct (decide (i < length l)%nat) as [Hil|Hil].
  - apply (NoDup_lookup (<[i:=b]> l) k i b Hnd); [done|]. by rewrite list_lookup_insert_eq.
  - assert (i = length l) as -> by lia. rewrite list_lookup_middle in Hwi by done. injection Hwi as ->.
    destruct Hwl. by eapply list_elem_of_lookup_2.
Qed.

(** Every pointer is at the index its worker has. *)
Lemma swap_indices (o : gmap wid Worker) l b i w ob :
  NoDup (<[i := b]> l) -> w ∉ <[i := b]> l -> (l ++ [b]) !! i = Some w ->
  (forall k v, (l ++ [b]) !! k = Some v -> exists ov, o !! v = Some ov /\ worker_index ov = k) ->
  forall k v, <[i := b]> l !! k = Some v ->
    exists ov, <[b := mkWorker (core ob) i]> o !! v = Some ov /\ worker_index ov = k.
Proof.
  intros Hnd Hwl Hwi Hi k v Hv. destruct (decide (v = b)) as [->|Hvb].
  - rewrite lookup_insert_eq. eexists. split; [done|]. symmetry. by eapply swap_once.
  - rewrite lookup_insert_ne by congruence. apply Hi. apply lookup_app_l_Some.
    apply list_lookup_insert_Some in Hv as [(_ & Hv & _)|[_ Hv]]; [congruence|done].
Qed.

(** The worker that leaves is moved to the dead; the one that takes its place
    learns its new index. *)
Lemma remove_ok p p' hs w :
  pool_ok p hs -> hs !! w = Some (OnWorker w Dying) -> remove_self_locked w p = Some p' ->
  pool_ok p' (<[w := OnWorker w Gone]> hs) /\ workers p ≡ₚ w :: workers p' /\
  dead_workers p' = dead_workers p ++ [w].
Proof.
  intros H Hw Hr. pose proof (begun_on_duty _ _ _ _ H Hw ltac:(done) ltac:(done)) as Hin.
  destruct H as [Ht Hc Hnd Hm Hi Ho Hd Hb Hn Ha Hs].
  apply list_elem_of_lookup in Hin as [i Hwi]. destruct (Hi _ _ Hwi) as (o & Ho1 & Hoi).
  unfold remove_self_locked in Hr. rewrite Ho1 in Hr. simpl in Hr. rewrite Hoi, Hwi in Hr. simpl in Hr.
  destruct (workers p) as [|b l _] eqn:Hws using rev_ind; [done|].
  rewrite last_snoc in Hr. simpl in Hr.
  destruct (objs p !! b) as [ob|] eqn:Hob; simpl in Hr; [|done].
  pose proof (lookup_lt_Some _ _ _ Hwi) as Hlt. rewrite length_app in Hlt. simpl in Hlt.
  destruct (swap_remove_eq l b i w ltac:(lia)) as [Htake Hlast].
  rewrite Htake, Hlast in Hr. injection Hr as <-.
  pose proof (swap_remove_perm l b i w Hwi) as Hperm. rewrite Hperm in Hnd.
  apply NoDup_cons in Hnd as [Hwl Hnd].
  assert (Hmem : forall v, v ∈ <[i := b]> l <-> v <> w /\ v ∈ l ++ [b]).
  { intros v. rewrite Hperm. set_unfold. split; [|tauto]. intros Hv. split; [|tauto]. by intros ->. }
  split; [|split; [done|done]]. split; simpl; try done.
  - intros t v ph [[<- [= <- <-]]|[_ Hv]]%lookup_insert_Some; [done|]. by eapply Ht.
  - intros v Hv. rewrite lookup_insert. case_decide; [subst; by eexists|by apply Hc].
  - intros v. rewrite Hmem, Hm, lookup_insert. case_decide as Hwv.
    + subst v. split; [by intros [? _]|]. by intros (_ & ph & [= <-] & Hg).
    + split; [tauto|]. intros ?. by split; [congruence|].
  - by eapply swap_indices.
  - intros v. rewrite lookup_insert_is_Some. intros [->|[_ Hv]]; apply Ho; [by eexists|done].
  - intros v Hv. rewrite lookup_insert. case_decide as Hwv; [by subst|].
    apply Hd. set_solver.
  - intros v ph [[<- [= <-]]|[_ Hv]]%lookup_insert_Some Hph; [|by eapply Hb]. by eapply Hb.
  - rewrite (busy_move _ _ _ _ Hw), Ha. simpl. lia.
  - apply Permutation_length in Hperm. rewrite Hperm in Hs. simpl in Hs. lia.
Qed.

Lemma exit_keeps hs w s :
  einv s hs -> hs !! w = Some (OnWorker w Dying) ->
  keeps hs w (OnWorker w Dying) (run w) at_exit (exit_body w s).
Proof.
  intros H Hw s' ns ex Hr. unfold exit_body in Hr.
  destruct (remove_self_locked w (the_pool s)) as [p'|] eqn:Hrem; simpl in Hr; [|done].
  injection Hr as <- <- <-. split; [|done]. by eapply remove_ok.
Qed.

Lemma await_keeps hs o pt s s' ns ex :
  o = await_termination \/ o = destroy ->
  einv s hs -> await_body pt s = Some (s', ns, ex) -> s' = s /\ exit_ok allowed asleep Client o ex.
Proof. intros [-> | ->] H Hr; unfold await_body, return_ in Hr; repeat case_match; by simplify_eq. Qed.

Lemma insert_keeps hs tk s s' ns ex :
  einv s hs -> submit_body L max_pool_size tk s = Some (s', ns, ex) ->
  einv s' hs /\ exists ms, ex = Leave ms (Return Void).
Proof.
  intros H Hr. unfold submit_body in Hr.
  destruct (insert_task_locked _ _ _ _) as [[s1 ns1]|] eqn:Hi; simpl in Hr; [|done].
  injection Hr as <- <- <-. split; [by eapply insert_ok|by eexists].
Qed.

Lemma destroy_keeps hs pt s s' ns ex :
  einv s hs -> destroy_body pt s = Some (s', ns, ex) ->
  einv s' hs /\ exit_ok allowed asleep Client destroy ex.
Proof.
  assert (forall q s' ns ex, einv s hs ->
    ('(s, ns, ex) ← await_body q s;
     match ex with
     | Leave _ (Return _) => return_ (mkShared (reap_dead_workers_locked (the_pool s)) (the_journal s)) ns Void
     | _ => Some (s, ns, ex)
     end) = Some (s', ns, ex) -> einv s' hs /\ exit_ok allowed asleep Client destroy ex) as Hawait.
  { clear s' ns ex. intros q s' ns ex H Hr. destruct (await_body q s) as [[[s1 ns1] ex1]|] eqn:Ha; simpl in Hr; [|done].
    apply (await_keeps hs destroy) in Ha as [-> Hex]; [|by right|done].
    repeat case_match; unfold return_ in Hr; simplify_eq; (split; [|done]); try done; by apply reap_ok. }
  intros H Hr. unfold destroy_body in Hr. destruct pt; try by eapply Hawait.
  - case_match; [by eapply Hawait|]. by simplify_eq.
  - simpl in Hr. simplify_eq. split; [by eapply pool_same|done].
Qed.

Lemma client_keeps hs t o pt b s :
  einv s hs -> hs !! t = Some Client -> (forall w, o <> run w) ->
  keeps hs t Client o pt (body_ L max_pool_size o pt b s).
Proof.
  intros H Ht Ho s' ns ex Hr.
  assert (Hset : settle o pt ex Client = Client) by (by destruct o; try done; destruct (Ho w)).
  rewrite Hset, insert_id by done. unfold body_ in Hr.
  destruct o as [tk|tk| | | | | | | | |w]; try done; [..|by destruct (Ho w)].
  - by apply insert_keeps with (hs := hs) in Hr as [? [ms ->]].
  - by apply insert_keeps with (hs := hs) in Hr as [? [ms ->]].
  - injection Hr as <- <- <-. split; [by eapply pool_same|done].
  - apply await_keeps with (hs := hs) (o := await_termination) in Hr as [-> Hex]; try done. by left.
  - unfold await_until_body, return_ in Hr. repeat case_match; by simplify_eq.
  - by injection Hr as <- <- <-.
  - by injection Hr as <- <- <-.
  - by apply destroy_keeps with (hs := hs) in Hr.
Qed.

#[export] Instance executor_safe :
  MonitorSafe (the_code L max_pool_size) threads_ einv allowed asleep.
Proof.
  split.
  - by intros h [] [] [].
  - intros t h s hs o s' en HI Ht Hmay [= <- <-]. split; [done|].
    destruct o; unfold submit_entry, execute_entry in *; simpl in *; try (by apply andb_prop in Hmay as [?%bool_decide_eq_true _]);
      try (case_match; [done|by apply andb_prop in Hmay as [?%bool_decide_eq_true _]]).
    apply andb_prop in Hmay as [Hh _]. by apply bool_decide_eq_true in Hh as [_ Hh].
  - intros t h s hs o pt b s' ns ex HI Ht Hal Hb.
    assert ((exists w, o = run w) \/ forall w, o <> run w) as [[w ->]|Hno] by (destruct o; eauto).
    + assert (exists ph, h = OnWorker w ph) as [ph Hph] by (destruct pt; simpl in Hal; try done; by eexists).
      subst h. pose proof (po_thread _ _ HI _ _ _ Ht) as ->. simpl in Hb.
      destruct pt; simpl in Hal; try done; injection Hal as ->.
      * by eapply loop_keeps.
      * by eapply fetch_keeps.
      * by eapply done_keeps.
      * by eapply exit_keeps.
    + assert (h = Client) as -> by (by destruct o; try done; edestruct Hno).
      eapply client_keeps; [exact HI|done|done|exact Hb].
  - intros t h s hs o pt s' HI Ht Hal Ho. simpl in Ho.
    destruct o as [| | | | | | | | | |w]; simpl in Ho; simplify_eq; try done.
    destruct pt; simpl in Ho; simplify_eq; try done.
    destruct (running (the_journal s) !! w) as [tk|]; simpl in Ho; [|done].
    destruct (call_task tk (futures (the_journal s))) as [fs [|e]]; by simplify_eq.
Qed.
End invariant.

(** ** The start *)

Section start.
Context (L : nat) (clients : gset tid).
Implicit Types (p : pool) (w : wid).

Lemma crew_lookup t h :
  crew L clients !! t = Some h <->
  (t < L)%nat /\ h = OnWorker t Fetching \/ (L <= t)%nat /\ t ∈ clients /\ h = Client.
Proof.
  unfold crew. set (m := set_to_map _ _).
  assert (Hm : forall h, m !! t = Some h <-> (t < L)%nat /\ h = OnWorker t Fetching).
  { intros h'. unfold m. rewrite lookup_set_to_map by done. split.
    - intros (w & Hw & [= -> <-]). apply elem_of_list_to_set, elem_of_seq in Hw. split; [lia|done].
    - intros [Ht ->]. exists t. split; [|done]. apply elem_of_list_to_set, elem_of_seq. lia. }
  rewrite lookup_union_Some_raw, Hm, lookup_gset_to_gmap_Some.
  assert (m !! t = None <-> (L <= t)%nat) as ->; [|naive_solver].
  rewrite eq_None_not_Some. split.
  - intros Hn. destruct (decide (t < L)%nat) as [Hlt|]; [|lia]. destruct Hn. eexists. by apply Hm.
  - intros Hge (h' & [Hlt _]%Hm). lia.
Qed.

Lemma crew_idle : sumz busy (crew L clients) = 0.
Proof. apply sumz_zero. by intros t h [[_ ->]|(_ & _ & ->)]%crew_lookup. Qed.

Context (cap : Z) (Hcap : 0 <= cap < 2 ^ 64).

Lemma empty_ok : pool_ok L cap (mkPool [] [] [] ∅ false 0 O) (crew L clients).
Proof.
  split; simpl; try done.
  - by intros t w ph [[_ [= -> _]]|(_ & _ & ?)]%crew_lookup.
  - intros w Hw. exists Fetching. apply crew_lookup. by left.
  - apply NoDup_nil_2.
  - intros w. split; [by intros ?%elem_of_nil|intros [? _]; lia].
  - intros w. rewrite lookup_empty. by intros [].
  - by intros w ?%elem_of_nil.
  - intros w ph [[_ [= ->]]|(_ & _ & ?)]%crew_lookup Hph; done.
  - lia.
  - by rewrite crew_idle.
  - lia.
Qed.

Lemma add_core_ok n p p' :
  pool_ok L cap p (crew L clients) -> Z.of_nat (length (workers p) + n) <= cap ->
  add_core L n p = Some p' ->
  pool_ok L cap p' (crew L clients) /\ shut p' = shut p /\ task_queue p' = task_queue p /\
  next_worker p' = (next_worker p + n)%nat /\
  (forall w, core <$> objs p' !! w =
    if decide (next_worker p <= w < next_worker p + n)%nat then Some true else core <$> objs p !! w).
Proof.
  revert p. induction n as [|n IH]; intros p Hp Hn Hadd; simpl in Hadd.
  { injection Hadd as <-. split_and!; [done..|lia|]. intros w. by rewrite decide_False by lia. }
  destruct (add_worker_locked L true p) as [p1|] eqn:H1; simpl in Hadd; [|done].
  assert (Hp1 : pool_ok L cap p1 (crew L clients)).
  { exact (add_worker_ok L cap cap Hcap (Z.le_refl _) p p1 _ true Hp ltac:(lia) H1). }
  unfold add_worker_locked in H1. case_decide; [|done]. injection H1 as H1.
  assert (length (workers p1) = S (length (workers p))) as Hlen.
  { rewrite <- H1. simpl. rewrite length_app. simpl. lia. }
  destruct (IH p1 Hp1 ltac:(lia) Hadd) as (Hok & Hs & Hq & Hnw & Hcore).
  split_and!; [done|by rewrite Hs, <- H1|by rewrite Hq, <- H1|rewrite Hnw, <- H1; simpl; lia|].
  intros w. rewrite Hcore, <- H1. simpl. destruct (decide (w = next_worker p)) as [->|Hne].
  - rewrite decide_False, decide_True, lookup_insert_eq by lia. done.
  - rewrite lookup_insert_ne by done. repeat case_decide; try done; lia.
Qed.

Lemma construct_ok n s :
  Z.of_nat n <= cap -> construct L n = Some s ->
  einv L cap s (crew L clients) /\ the_journal s = mkJournal [] [] ∅ [] ∅ /\
  shut (the_pool s) = false /\ task_queue (the_pool s) = [] /\
  (forall w, (w < n)%nat -> core <$> objs (the_pool s) !! w = Some true).
Proof.
  intros Hn Hs. unfold construct in Hs.
  destruct (add_core L n _) as [p|] eqn:Hadd; simpl in Hs; [|done]. injection Hs as <-.
  apply add_core_ok in Hadd as (Hok & Hsh & Hq & _ & Hcore); [|apply empty_ok|done].
  split_and!; try done. intros w Hw. simpl in *. rewrite Hcore. by rewrite decide_True by lia.
Qed.
End start.
