(* ===== verification/ExecutorTasks.v ===== *)
(** * ThreadPoolExecutor: what happens to the tasks

    The effect of each segment on the queue and the history, and two
    invariants of the whole machine: a task is in the queue, being executed by
    one worker, or executed; and while a core worker stands, a queue that is
    not empty has a worker on its way to it. *)

From S2P Require Import Prelude Machine Monitor MonitorTheory Executor ExecutorProofs.

Import Executor.
Local Open Scope Z_scope.

Abbreviation machine := (state shared_state op point cv_name ret hold).
Abbreviation worker_thread := (thread op point cv_name ret hold).

Section tasks.
Context (L : nat) (max_pool_size cap : Z) (Hcap : 0 <= cap < 2 ^ 64) (Hmax : max_pool_size <= cap).
Implicit Types (hs : gmap tid hold) (s : shared_state) (p : pool) (j : journal) (w : wid).
Implicit Types (m : machine).

Abbreviation code := (the_code L max_pool_size).
Abbreviation inv := (monitor_inv (einv L cap) allowed asleep).

(** ** The effect of a segment *)

Definition record_submit (tk : task) j : journal :=
  mkJournal (submitted j ++ [tk]) (taken j) (running j) (finished j) (futures j).
Definition record_take w (tk : task) j : journal :=
  mkJournal (submitted j) (taken j ++ [tk]) (<[w := tk]> (running j)) (finished j) (futures j).

Inductive effect (o : op) (pt : point) s s' (ns : list (notify cv_name)) (ex : exit point cv_name ret) : Prop :=
| ef_insert tk :
  o = submit tk \/ o = execute tk ->
  the_journal s' = record_submit tk (the_journal s) ->
  task_queue (the_pool s') = task_queue (the_pool s) ++ [tk] ->
  ns = [NotifyOne cv] -> effect o pt s s' ns ex
| ef_take w tk :
  o = run w -> the_journal s' = record_take w tk (the_journal s) ->
  task_queue (the_pool s) = tk :: task_queue (the_pool s') ->
  ex = Leave [] (Again at_done) -> effect o pt s s' ns ex
| ef_rest :
  the_journal s' = the_journal s -> task_queue (the_pool s') = task_queue (the_pool s) ->
  (forall w, o = run w ->
     ex = Leave [] (Again at_start) \/ pt = at_exit \/
     task_queue (the_pool s) = [] /\ (ex = Leave [] (Again at_exit) \/ exists tm, ex = Wait cv tm at_fetch)) ->
  effect o pt s s' ns ex.

Lemma take_effect w pt s s' ns ex :
  take_task w s = Some (s', ns, ex) -> effect (run w) pt s s' ns ex.
Proof.
  unfold take_task, break_. destruct (task_queue (the_pool s)) as [|tk q] eqn:Hq; intros [= <- <- <-].
  - apply ef_rest; [done|done|]. intros _ _. auto.
  - by apply (ef_take _ _ _ _ _ _ w tk).
Qed.

Lemma insert_effect o tk pt s s' ns ex :
  o = submit tk \/ o = execute tk -> submit_body L max_pool_size tk s = Some (s', ns, ex) ->
  effect o pt s s' ns ex.
Proof.
  intros Ho Hr. unfold submit_body, insert_task_locked, add_worker_locked, return_ in Hr.
  repeat case_match; simpl in Hr; simplify_eq/=; by apply (ef_insert _ _ _ _ _ _ tk).
Qed.

Lemma await_same pt s s' ns ex : await_body pt s = Some (s', ns, ex) -> s' = s.
Proof. unfold await_body, return_. intros. repeat case_match; by simplify_eq. Qed.

Lemma destroy_effect pt s s' ns ex :
  destroy_body pt s = Some (s', ns, ex) ->
  the_journal s' = the_journal s /\ task_queue (the_pool s') = task_queue (the_pool s).
Proof.
  assert (forall q, ('(s1, ns, ex) ← await_body q s;
     match ex with
     | Leave _ (Return _) => return_ (mkShared (reap_dead_workers_locked (the_pool s1)) (the_journal s1)) ns Void
     | _ => Some (s1, ns, ex)
     end) = Some (s', ns, ex) ->
    the_journal s' = the_journal s /\ task_queue (the_pool s') = task_queue (the_pool s)) as Hawait.
  { intros q Hr. destruct (await_body q s) as [[[s1 ns1] ex1]|] eqn:Ha; simpl in Hr; [|done].
    apply await_same in Ha as ->. unfold return_ in Hr. repeat case_match; by simplify_eq. }
  intros Hr. destruct pt; try by eapply Hawait.
  - simpl in Hr. case_match; [by eapply Hawait|by simplify_eq].
  - simpl in Hr. by simplify_eq.
Qed.

Lemma remove_queue w p p' :
  remove_self_locked w p = Some p' -> task_queue p' = task_queue p /\ shut p' = shut p.
Proof.
  unfold remove_self_locked. intros Hr.
  destruct (objs p !! w) as [o|]; simpl in Hr; [|done].
  destruct (workers p !! _); simpl in Hr; [|done]. destruct (last (workers p)); simpl in Hr; [|done].
  destruct (objs p !! _); simpl in Hr; [|done]. by injection Hr as <-.
Qed.

Lemma body_effect o pt b s s' ns ex :
  body code o pt b s = Some (s', ns, ex) -> effect o pt s s' ns ex.
Proof.
  intros Hb. destruct o as [tk|tk| | | | | | | | |w]; simpl in Hb; try done.
  - eapply insert_effect; [by left|done].
  - eapply insert_effect; [by right|done].
  - injection Hb as <- <- <-. by apply ef_rest.
  - apply await_same in Hb as ->. by apply ef_rest.
  - unfold await_until_body, return_ in Hb. repeat case_match; simplify_eq; by apply ef_rest.
  - injection Hb as <- <- <-. by apply ef_rest.
  - injection Hb as <- <- <-. by apply ef_rest.
  - apply destroy_effect in Hb as [? ?]. by apply ef_rest.
  - assert (Hloop : loop_body w s = Some (s', ns, ex) -> effect (run w) pt s s' ns ex).
    { clear Hb. unfold loop_body, fetch_start, break_. destruct (objs _ !! w) as [o|]; simpl; [|done].
      intros Hr. repeat case_match; try (by apply take_effect);
        (apply ef_rest; [by simplify_eq|by simplify_eq|]; intros ? _; right; right).
      - apply andb_prop in H as [_ H%bool_decide_eq_true]. simplify_eq. auto.
      - apply bool_decide_eq_true in H0. simplify_eq. eauto. }
    destruct pt; simpl in Hb; try by apply Hloop.
    + unfold fetch_body in Hb. destruct (objs _ !! w) as [o|]; simpl in Hb; [|done].
      case_bool_decide; simpl in Hb; [|by apply take_effect].
      case_match; [|by apply take_effect]. simplify_eq. apply ef_rest; [done|done|].
      intros _ _. right; right. split; [done|right]. by eexists.
    + injection Hb as <- <- <-. apply ef_rest; [done|done|]. intros; eauto.
    + unfold exit_body, return_ in Hb. destruct (remove_self_locked _ _) as [p|] eqn:Hp; simpl in Hb; [|done].
      apply remove_queue in Hp as [Hq _]. simplify_eq. apply ef_rest; [done|done|]. intros; eauto.
Qed.

(** Outside the lock only the task of a worker is called. *)
Definition record_call w (tk : task) j : journal :=
  mkJournal (submitted j) (taken j) (delete w (running j)) (finished j ++ [tk]) (call_task tk (futures j)).1.

Lemma outside_effect o pt s s' :
  outside_ o pt s = Some s' ->
  (exists w tk, o = run w /\ pt = at_done /\ running (the_journal s) !! w = Some tk /\
     s' = mkShared (the_pool s) (record_call w tk (the_journal s))) \/
  (forall w, o = run w -> pt <> at_done) /\ s' = s.
Proof.
  intros Hs. destruct o as [| | | | | | | | | |w]; simpl in Hs; try (right; split; congruence).
  destruct pt; simpl in Hs; try (right; split; congruence).
  destruct (running _ !! w) as [tk|] eqn:Hw; simpl in Hs; [|done]. left. exists w, tk. unfold record_call.
  destruct (call_task tk (futures (the_journal s))) as [fs [|e]]; [|done]. injection Hs as <-. done.
Qed.

(** ** Where the tasks are *)

(** Worker [w] is between the two critical sections of its loop. *)
Definition at_task m w : Prop :=
  exists th ns, threads m !! w = Some th /\ at_pc th = Posting ns (run w) (Again at_done).

Definition results (tks : list task) : gmap nat outcome := foldl (fun f tk => (call_task tk f).1) ∅ tks.

Record tasks_ok m : Prop := {
  tk_fifo : submitted (the_journal (shared m)) =
    taken (the_journal (shared m)) ++ task_queue (the_pool (shared m));
  tk_held : taken (the_journal (shared m)) ≡ₚ
    finished (the_journal (shared m)) ++ (map_to_list (running (the_journal (shared m)))).*2;
  tk_running : forall w tk, running (the_journal (shared m)) !! w = Some tk -> at_task m w;
  tk_futures : futures (the_journal (shared m)) = results (finished (the_journal (shared m)));
}.

Lemma worker_self m t th w pt :
  inv m -> threads m !! t = Some th -> allowed (mode th) (run w) pt -> t = w.
Proof.
  intros [HI _] Ht Hal. apply modes_lookup in Ht.
  assert (exists ph, mode th = OnWorker w ph) as [ph Hph] by (destruct pt; simpl in Hal; try done; by eexists).
  rewrite Hph in Ht. by apply (po_thread _ _ _ _ HI _ _ _ Ht).
Qed.

(** A thread between two critical sections is moved by nobody else. *)
Lemma at_task_frame m w ths t th' s o :
  t <> w -> at_task m w ->
  (forall th, threads m !! w = Some th -> (forall c tm o pt, at_pc th <> Waiting c tm o pt) ->
    ths !! w = Some th) ->
  at_task (mkState s o (<[t := th']> ths)) w.
Proof.
  intros Hne (th & ns & Ht & Hpc) Hk. exists th, ns. simpl. rewrite lookup_insert_ne by done.
  split; [|done]. apply Hk; [done|]. by rewrite Hpc.
Qed.

Lemma results_snoc tks tk : results (tks ++ [tk]) = (call_task tk (results tks)).1.
Proof. unfold results. by rewrite foldl_app. Qed.

(** A critical segment: a task goes in, or moves to a worker. *)
Lemma tasks_segment m t th o pt b picks s ns ex ths :
  inv m -> tasks_ok m -> threads m !! t = Some th -> at_pc th = Running o pt b ->
  body code o pt b (shared m) = Some (s, ns, ex) -> deliver_all ns picks (threads m) = Some ths ->
  tasks_ok (mkState s (exit_owner t ex) (<[t := mkThread (Executor.settle o pt ex (mode th)) (exit_pc o ex)]> ths)).
Proof.
  intros Hinv [Hf Hh Hr Hu] Ht Hpc Hb Hd. pose proof Hinv as [HI Hpcs]. pose proof (Hpcs _ _ Ht) as Hok. simpl in *.
  rewrite Hpc in Hok. simpl in Hok. apply body_effect in Hb.
  assert (Hkeep : forall w tk th', running (the_journal (shared m)) !! w = Some tk ->
    at_task (mkState s (exit_owner t ex) (<[t := th']> ths)) w /\ w <> t).
  { intros w tk th' Hw. apply (Hr w tk) in Hw.
    assert (w <> t) as Hne by (intros ->; destruct Hw as (th0 & ns0 & Ht0 & Hp0); congruence).
    split; [|done]. eapply at_task_frame; [done..|]. intros. by eapply deliver_all_awake. }
  destruct Hb as [tk Ho Hj Hq ->|w tk -> Hj Hq ->|Hj Hq _].
  - split; simpl; rewrite ?Hj, ?Hq; simpl; try done.
    + by rewrite Hf, app_assoc.
    + intros w tk' Hw. by eapply Hkeep.
  - pose proof (worker_self _ _ _ _ _ Hinv Ht Hok) as ->.
    assert (running (the_journal (shared m)) !! w = None) as Hnone.
    { destruct (running _ !! w) as [tk'|] eqn:Hw; [|done]. by destruct (Hkeep w tk' th Hw) as [_ ?]. }
    split; simpl; rewrite ?Hj; simpl; try done.
    + by rewrite Hf, Hq, <- app_assoc.
    + rewrite map_to_list_insert by done. simpl. rewrite Hh. solve_Permutation.
    + intros v tk' [[<- _]|[_ Hv]]%lookup_insert_Some; [|by eapply Hkeep].
      do 2 eexists. simpl. by rewrite lookup_insert_eq.
  - split; simpl; rewrite ?Hj, ?Hq; try done. intros w tk Hw. by eapply Hkeep.
Qed.

(** Between two segments a worker calls its task. *)
Lemma tasks_outside m t th o pt s :
  inv m -> tasks_ok m -> threads m !! t = Some th -> at_pc th = Posting [] o (Again pt) ->
  outside code o pt (shared m) = Some s ->
  tasks_ok (mkState s (owner m) (<[t := mkThread (mode th) (Wanting o pt false)]> (threads m))).
Proof.
  intros Hinv [Hf Hh Hr Hu] Ht Hpc Hs. pose proof Hinv as [HI Hpcs]. pose proof (Hpcs _ _ Ht) as Hok. simpl in *.
  rewrite Hpc in Hok. simpl in Hok. simpl in Hs.
  assert (Hframe : forall w tk th' s o, running (the_journal (shared m)) !! w = Some tk -> w <> t ->
    at_task (mkState s o (<[t := th']> (threads m))) w).
  { intros w tk th' s0 o0 Hw Hne. apply (Hr w tk) in Hw. by eapply at_task_frame. }
  apply outside_effect in Hs as [(w & tk & -> & -> & Hw & ->)|[Hno ->]].
  - pose proof (worker_self _ _ _ _ _ Hinv Ht Hok) as ->.
    split; simpl; [done| | |by rewrite results_snoc, Hu].
    + rewrite Hh. rewrite <- (insert_delete_id (running (the_journal (shared m))) w tk) at 1 by done.
      rewrite map_to_list_insert by apply lookup_delete_eq. simpl. solve_Permutation.
    + intros v tk' [Hne Hv]%lookup_delete_Some. by eapply Hframe.
  - split; [done|done| |done]. intros w tk Hw. destruct (decide (w = t)) as [->|Hne]; [|by eapply Hframe].
    apply (Hr t tk) in Hw as (th0 & ns0 & Ht0 & Hp0).
    rewrite Ht in Ht0. injection Ht0 as <-. rewrite Hpc in Hp0. injection Hp0 as _ -> ->. by destruct (Hno t).
Qed.

Lemma tasks_step m e m' :
  inv m -> tasks_ok m -> step code threads_ m e = Some m' -> tasks_ok m'.
Proof.
  intros Hinv Htasks Hstep%step_fires. pose proof Hinv as [HI Hpcs]. pose proof Htasks as [Hf Hh Hr Hu].
  destruct Hstep as [t th last o s en Ht Hpc Hmay Hen|t th o pt b Ht Hpc Ho
    |t th o pt b picks s ns ex ths Ht Hpc Hb Hd|t th n ns o k pick ths Ht Hpc Hd
    |t th o pt s Ht Hpc Hs|e t th q Ht Hmv]; pose proof (Hpcs _ _ Ht) as Hok; simpl in *.
  - simpl in Hen. injection Hen as <- _. split; [done|done| |done]. intros w tk Hw.
    apply (Hr w tk) in Hw. eapply at_task_frame; [|done|done].
    intros ->. destruct Hw as (th0 & ns0 & Ht0 & Hp0). congruence.
  - split; [done|done| |done]. intros w tk Hw.
    apply (Hr w tk) in Hw. eapply at_task_frame; [|done|done].
    intros ->. destruct Hw as (th0 & ns0 & Ht0 & Hp0). destruct Hpc as [|(? & ? & _)]; congruence.
  - by eapply tasks_segment.
  - split; [done|done| |done]. intros w tk Hw. apply (Hr w tk) in Hw as Hat.
    destruct (decide (w = t)) as [->|Hne].
    + destruct Hat as (th0 & ns0 & Ht0 & Hp0). rewrite Ht in Ht0. injection Ht0 as <-.
      rewrite Hpc in Hp0. injection Hp0 as <- -> ->.
      do 2 eexists. simpl. by rewrite lookup_insert_eq.
    + eapply at_task_frame; [done..|]. intros. by eapply deliver_awake.
  - by eapply tasks_outside.
  - split; [done|done| |done]. intros w tk Hw. apply (Hr w tk) in Hw.
    eapply at_task_frame; [|done|done]. intros ->. destruct Hw as (th0 & ns0 & Ht0 & Hp0).
    rewrite Ht in Ht0. injection Ht0 as <-. rewrite Hp0 in Hmv. by inversion Hmv.
Qed.

Lemma reachable_tasks clients n s m :
  Z.of_nat n <= cap -> construct L n = Some s ->
  steps (step code threads_) (start s (crew L clients)) m -> inv m /\ tasks_ok m.
Proof.
  intros Hn Hs Hm. destruct (construct_ok L clients cap Hcap n s Hn Hs) as (Hok & Hj & _ & Hq & _).
  assert (MonitorSafe code threads_ (einv L cap) allowed asleep) as Hsafe by by apply executor_safe.
  split; [by eapply safe_invariant|].
  eapply (steps_invariant _ (fun m => inv m /\ tasks_ok m)); [| |exact Hm].
  - split; [by eapply (safe_invariant _ _ _ _ _ s), steps_refl|].
    split; simpl; by rewrite ?Hj, ?Hq.
  - intros m1 e m2 [Hi Ht] He. split; [by eapply monitor_inv_step|by eapply tasks_step].
Qed.

(** ** The objects of the workers *)

Definition core_of s w : option bool := core <$> objs (the_pool s) !! w.

Lemma shut_body o pt b s s' ns ex :
  body code o pt b s = Some (s', ns, ex) -> shut (the_pool s') = false -> shut (the_pool s) = false.
Proof.
  intros Hb. destruct o as [tk|tk| | | | | | | | |w]; simpl in Hb; try done.
  1,2: unfold submit_body, execute_body, insert_task_locked, add_worker_locked, return_ in Hb; repeat case_match; by simplify_eq/=.
  - by injection Hb as <- _ _.
  - by apply await_same in Hb as ->.
  - unfold await_until_body, return_ in Hb. repeat case_match; by simplify_eq.
  - by injection Hb as <- _ _.
  - by injection Hb as <- _ _.
  - unfold destroy_body, await_body, return_ in Hb. repeat case_match; by simplify_eq/=.
  - destruct pt; simpl in Hb; unfold loop_body, fetch_start, fetch_body, take_task, break_, exit_body, return_ in Hb;
      try (destruct (objs _ !! w); simpl in Hb; [|done]; repeat case_match; by simplify_eq/=).
    + by injection Hb as <- _ _.
    + destruct (remove_self_locked _ _) as [p|] eqn:Hp; simpl in Hb; [|done].
      apply remove_queue in Hp as [_ Hsh]. simplify_eq/=. congruence.
Qed.

Lemma reap_core p hs w ph :
  pool_ok L cap p hs -> hs !! w = Some (OnWorker w ph) -> ph <> Gone ->
  objs (reap_dead_workers_locked p) !! w = objs p !! w.
Proof.
  intros Hp Hw Hph. simpl. rewrite foldr_delete_lookup, decide_False; [done|].
  intros Hd%(po_dead _ _ _ _ Hp). rewrite Hw in Hd. by injection Hd.
Qed.

Lemma remove_core w v p p' : remove_self_locked w p = Some p' -> core <$> objs p' !! v = core <$> objs p !! v.
Proof.
  unfold remove_self_locked. intros Hr.
  destruct (objs p !! w) as [o|]; simpl in Hr; [|done].
  destruct (workers p !! _); simpl in Hr; [|done]. destruct (last (workers p)) as [b|]; simpl in Hr; [|done].
  destruct (objs p !! b) as [ob|] eqn:Hob; simpl in Hr; [|done]. injection Hr as <-. simpl.
  destruct (decide (b = v)) as [->|Hne]; [by rewrite lookup_insert_eq, Hob|by rewrite lookup_insert_ne].
Qed.

(** A worker that has not left keeps being core, or not. *)
Lemma core_kept o pt b s s' ns ex hs w ph :
  einv L cap s hs -> hs !! w = Some (OnWorker w ph) -> ph <> Gone -> core_of s w = Some true ->
  body code o pt b s = Some (s', ns, ex) -> core_of s' w = Some true.
Proof.
  intros HI Hw Hph Hc Hb. unfold core_of in *.
  assert (Hfresh : w <> next_worker (the_pool s)).
  { assert (w < next_worker (the_pool s))%nat; [|lia]. apply (po_objs _ _ _ _ HI).
    destruct (objs (the_pool s) !! w); [by eexists|done]. }
  assert (Hreap := reap_core _ _ _ _ HI Hw Hph). simpl in Hreap.
  destruct o as [tk|tk| | | | | | | | |v]; simpl in Hb; try done.
  1,2: unfold submit_body, execute_body, insert_task_locked, add_worker_locked, return_ in Hb;
    repeat case_match; simplify_eq/=; by rewrite ?lookup_insert_ne.
  - by injection Hb as <- _ _.
  - by apply await_same in Hb as ->.
  - unfold await_until_body, return_ in Hb. repeat case_match; by simplify_eq.
  - by injection Hb as <- _ _.
  - by injection Hb as <- _ _.
  - unfold destroy_body, await_body, return_ in Hb.
    repeat case_match; simplify_eq/=; rewrite ?Hreap; done.
  - destruct pt; simpl in Hb; unfold loop_body, fetch_start, fetch_body, take_task, break_, exit_body, return_ in Hb;
      try (destruct (objs _ !! v); simpl in Hb; [|done]; repeat case_match; by simplify_eq/=).
    + injection Hb as <- _ _. simpl. by rewrite Hreap.
    + destruct (remove_self_locked _ _) as [p|] eqn:Hp; simpl in Hb; [|done].
      injection Hb as <- _ _. simpl. by rewrite (remove_core _ _ _ _ Hp).
Qed.

(** ** A core worker stands until the shutdown *)

(** The wait of a core worker has no deadline. *)
Definition untimed (q : pc op point cv_name ret) : Prop :=
  match q with
  | Waiting _ true _ _ | Wanting _ at_fetch true | Running _ at_fetch true => False
  | _ => True
  end.

Definition on_loop w (h : hold) : Prop := h = OnWorker w Fetching \/ h = OnWorker w Busy.

Definition standing w m : Prop :=
  shut (the_pool (shared m)) = false ->
  core_of (shared m) w = Some true /\
  exists th, threads m !! w = Some th /\ on_loop w (mode th) /\ untimed (at_pc th).

(** Its own segments keep it in the loop. *)
Lemma stays w pt b s s' ns ex h :
  on_loop w h -> allowed h (run w) pt -> untimed (Running (run w) pt b) ->
  core_of s w = Some true -> shut (the_pool s) = false -> body code (run w) pt b s = Some (s', ns, ex) ->
  on_loop w (settle (run w) pt ex h) /\ untimed (exit_pc (run w) ex).
Proof.
  intros Hh Hal Hu Hc Hsh Hb. unfold core_of in Hc.
  destruct (objs (the_pool s) !! w) as [o|] eqn:Ho; simpl in Hc; [|done]. injection Hc as Hc.
  destruct pt; simpl in Hal; try done; simpl in Hb.
  - unfold loop_body, fetch_start in Hb. rewrite Ho, Hsh in Hb. simpl in Hb. unfold take_task in Hb.
    destruct (task_queue (the_pool s)); simplify_eq/=; rewrite ?Hc; unfold on_loop; auto.
  - destruct b; [done|]. unfold fetch_body in Hb. rewrite Ho, Hsh in Hb. simpl in Hb. unfold take_task in Hb.
    destruct (task_queue (the_pool s)); simplify_eq/=; rewrite ?Hc; unfold on_loop; auto.
  - injection Hb as <- <- <-. simpl. unfold on_loop. auto.
  - by destruct Hh as [-> | ->].
Qed.

Lemma untimed_moves q q' : moves q q' -> untimed q -> untimed q'.
Proof. destruct 1; simpl; try done. by destruct p. Qed.

Lemma woken_on_loop w th th' :
  woken th th' -> on_loop w (mode th) -> untimed (at_pc th) -> on_loop w (mode th') /\ untimed (at_pc th').
Proof.
  intros [-> [-> |(c & tm & o & pt & Hq & ->)]] Hl Hu; [done|]. split; [done|]. by destruct pt.
Qed.

Lemma standing_step w m e m' :
  inv m -> standing w m -> step code threads_ m e = Some m' -> standing w m'.
Proof.
  intros Hinv Hst Hstep%step_fires Hsh'. pose proof Hinv as [HI Hpcs].
  assert (Hsame : forall t th q s o, threads m !! t = Some th -> (untimed (at_pc th) -> untimed q) ->
    the_pool s = the_pool (shared m) -> shut (the_pool s) = false ->
    core_of s w = Some true /\
    exists th', threads (mkState s o (<[t := mkThread (mode th) q]> (threads m))) !! w = Some th' /\
      on_loop w (mode th') /\ untimed (at_pc th')).
  { intros t th q s o Ht Hq Hp Hsh. rewrite Hp in Hsh. destruct (Hst Hsh) as (Hc & thw & Hw & Hl & Hu).
    unfold core_of. rewrite Hp. split; [done|]. destruct (decide (t = w)) as [->|Hne].
    - simplify_eq. simpl. rewrite lookup_insert_eq. eexists. split; [done|]. split; [done|by apply Hq].
    - exists thw. simpl. by rewrite lookup_insert_ne. }
  destruct Hstep as [t th last o s en Ht Hpc Hmay Hen|t th o pt b Ht Hpc Ho
    |t th o pt b picks s ns ex ths Ht Hpc Hb Hd|t th n ns o k pick ths Ht Hpc Hd
    |t th o pt s Ht Hpc Hs|e t th q Ht Hmv]; simpl in Hsh'.
  - simpl in Hen. injection Hen as <- <-. apply Hsame; try done. intros _. destruct o; unfold submit_entry, execute_entry; simpl; try done; by case_match.
  - apply Hsame; try done. destruct Hpc as [-> |(r & -> & ->)]; [done|by destruct pt].
  - pose proof (Hpcs _ _ Ht) as Hok. rewrite Hpc in Hok. simpl in Hok. pose proof (shut_body _ _ _ _ _ _ _ Hb Hsh') as Hsh.
    destruct (Hst Hsh) as (Hc & thw & Hw & Hl & Hu).
    assert (exists ph, mode thw = OnWorker w ph /\ ph <> Gone) as (ph & Hph & Hg).
    { destruct Hl as [-> | ->]; by eexists. }
    pose proof (modes_lookup _ _ _ Hw) as Hmw. rewrite Hph in Hmw.
    split; [by eapply core_kept|]. destruct (decide (t = w)) as [->|Hne].
    + simplify_eq. simpl. rewrite lookup_insert_eq. eexists. split; [done|]. simpl.
      rewrite Hpc in Hu.
      assert (o = run w) as ->.
      { destruct o; simpl in Hok; try done; try (rewrite Hph in Hok; discriminate). f_equal. symmetry. by eapply worker_self. }
      by eapply stays.
    + destruct (deliver_all_back _ _ _ _ _ _ Hd Hw) as (thw' & Hw' & Hwk).
      exists thw'. simpl. rewrite lookup_insert_ne by done. split; [done|]. by eapply woken_on_loop.
  - destruct (Hst Hsh') as (Hc & thw & Hw & Hl & Hu). split; [done|]. destruct (decide (t = w)) as [->|Hne].
    + simplify_eq. simpl. rewrite lookup_insert_eq. by eexists.
    + destruct (deliver_back _ _ _ _ _ _ Hd Hw) as (thw' & Hw' & Hwk).
      exists thw'. simpl. rewrite lookup_insert_ne by done. split; [done|]. by eapply woken_on_loop.
  - apply Hsame; try done; [intros _; by destruct pt|]. by apply outside_effect in Hs as [(? & ? & _ & _ & _ & ->)|[_ ->]].
  - apply Hsame; try done. by apply untimed_moves.
Qed.

(** ** A queue that is not empty has a worker on its way *)

Definition blocked_pc (q : pc op point cv_name ret) : bool :=
  match q with Waiting _ _ _ _ => true | _ => false end.

(** A worker of the pool that is neither asleep nor leaving. *)
Definition awake m w : Prop :=
  (w < next_worker (the_pool (shared m)))%nat /\
  exists th, threads m !! w = Some th /\ on_loop w (mode th) /\ blocked_pc (at_pc th) = false.

(** A thread function runs only once its object exists. *)
Definition begun m : Prop :=
  forall w th ph, threads m !! w = Some th -> mode th = OnWorker w ph -> (forall l, at_pc th <> Idle l) ->
  (w < next_worker (the_pool (shared m)))%nat.

Definition attended_queue m : Prop :=
  shut (the_pool (shared m)) = false -> task_queue (the_pool (shared m)) <> [] -> exists w, awake m w.

Lemma next_mono o pt b s s' ns ex :
  body code o pt b s = Some (s', ns, ex) -> (next_worker (the_pool s) <= next_worker (the_pool s'))%nat.
Proof.
  intros Hb. destruct o as [tk|tk| | | | | | | | |w]; simpl in Hb; try done.
  1,2: unfold submit_body, execute_body, insert_task_locked, add_worker_locked, return_ in Hb;
    repeat case_match; simplify_eq/=; lia.
  - by injection Hb as <- _ _.
  - by apply await_same in Hb as ->.
  - unfold await_until_body, return_ in Hb. repeat case_match; by simplify_eq.
  - by injection Hb as <- _ _.
  - by injection Hb as <- _ _.
  - unfold destroy_body, await_body, return_ in Hb. repeat case_match; by simplify_eq/=.
  - destruct pt; simpl in Hb; unfold loop_body, fetch_start, fetch_body, take_task, break_, exit_body, return_ in Hb;
      try (destruct (objs _ !! w); simpl in Hb; [|done]; repeat case_match; by simplify_eq/=).
    + by injection Hb as <- _ _.
    + unfold remove_self_locked in Hb.
      destruct (objs _ !! w) as [o|]; simpl in Hb; [|done].
      destruct (workers _ !! _); simpl in Hb; [|done]. destruct (last _) as [v|]; simpl in Hb; [|done].
      destruct (objs _ !! v); simpl in Hb; [|done]. by injection Hb as <- _ _.
Qed.

Lemma settle_worker o pt ex h v ph :
  allowed h o pt -> settle o pt ex h = OnWorker v ph -> exists ph', h = OnWorker v ph'.
Proof.
  intros Hal Hs. destruct o as [| | | | | | | | | |w]; try by eexists.
  assert (exists ph', h = OnWorker w ph') as [ph' ->] by (destruct pt; simpl in Hal; try done; by eexists).
  simpl in Hs. exists ph'. f_equal. repeat case_match; congruence.
Qed.

Lemma begun_step m e m' :
  inv m -> begun m -> step code threads_ m e = Some m' -> begun m'.
Proof.
  intros [HI Hpcs] Hbg Hstep%step_fires v thv ph Hv Hmode Hidle.
  destruct Hstep as [t th last o s en Ht Hpc Hmay Hen|t th o pt b Ht Hpc Ho
    |t th o pt b picks s ns ex ths Ht Hpc Hb Hd|t th n ns o k pick ths Ht Hpc Hd
    |t th o pt s Ht Hpc Hs|e t th q Ht Hmv]; simpl in Hv |- *.
  - simpl in Hen. injection Hen as <- <-. thread_at t v Hv; [|by eapply Hbg]. simpl in *.
    rewrite Hmode in Hmay. destruct o as [| | | | | | | | | |w]; simpl in Hmay; try done;
      try (by rewrite bool_decide_false in Hmay).
    apply andb_prop in Hmay as [[-> _]%bool_decide_eq_true Ho%bool_decide_eq_true]. by apply (po_objs _ _ _ _ HI).
  - thread_at t v Hv; [|by eapply Hbg]. eapply (Hbg v th); [done..|]. by destruct Hpc as [-> |(r & -> & _)].
  - apply Nat.lt_le_trans with (next_worker (the_pool (shared m))); [|by eapply next_mono].
    thread_at t v Hv.
    + pose proof (Hpcs _ _ Ht) as Hok. rewrite Hpc in Hok. simpl in *.
      assert (exists ph, mode th = OnWorker v ph) as [ph' Hph].
      { by eapply settle_worker. }
      eapply (Hbg v th); [done..|]. by rewrite Hpc.
    + destruct (deliver_all_lookup _ _ _ _ _ _ Hd Hv) as (th0 & Hth0 & Hm & Hw).
      apply (Hbg v th0 ph); [done|congruence|]. intros l Hl. destruct Hw as [Hw|(?&?&?&?&Hw&_)]; [|congruence].
      apply (Hidle l). congruence.
  - thread_at t v Hv; [eapply (Hbg v th); [done..|]; by rewrite Hpc|].
    destruct (deliver_lookup _ _ _ _ _ _ Hd Hv) as (th0 & Hth0 & Hm & Hw).
    apply (Hbg v th0 ph); [done|congruence|]. intros l Hl. destruct Hw as [Hw|(?&?&?&?&Hw&_)]; [|congruence].
    apply (Hidle l). congruence.
  - apply outside_effect in Hs as Hs'.
    assert (the_pool s = the_pool (shared m)) as -> by (by destruct Hs' as [(? & ? & _ & _ & _ & ->)|[_ ->]]).
    thread_at t v Hv; [|by eapply Hbg]. eapply (Hbg v th); [done..|]. by rewrite Hpc.
  - thread_at t v Hv; [|by eapply Hbg]. eapply (Hbg v th); [done..|]. intros l Hl. rewrite Hl in Hmv. by inversion Hmv.
Qed.

(** A step that is not the end of a critical segment leaves the pool alone,
    changes no mode and puts nobody to sleep. *)
Definition calm m m' : Prop :=
  the_pool (shared m') = the_pool (shared m) /\
  forall w th, threads m !! w = Some th -> exists th', threads m' !! w = Some th' /\ mode th' = mode th /\
    (blocked_pc (at_pc th) = false -> blocked_pc (at_pc th') = false).

Lemma woken_calm (th th' : worker_thread) : woken th th' ->
  mode th' = mode th /\ (blocked_pc (at_pc th) = false -> blocked_pc (at_pc th') = false).
Proof. intros [? [-> |(?&?&?&?&->&->)]]; done. Qed.

Lemma calm_at m t th q s o ths :
  threads m !! t = Some th -> the_pool s = the_pool (shared m) -> blocked_pc q = false ->
  (forall w th, threads m !! w = Some th -> exists th', ths !! w = Some th' /\ woken th th') ->
  calm m (mkState s o (<[t := mkThread (mode th) q]> ths)).
Proof.
  intros Ht Hp Hq Hback. split; [done|]. intros w thw Hw. simpl. destruct (decide (t = w)) as [->|Hne].
  - rewrite lookup_insert_eq. simplify_eq. by eexists.
  - rewrite lookup_insert_ne by done. destruct (Hback w thw Hw) as (th' & Hth' & Hwk).
    exists th'. split; [done|]. by apply woken_calm.
Qed.

Lemma awake_calm m m' w : calm m m' -> awake m w -> awake m' w.
Proof.
  intros [Hp Hc] (Hn & th & Hw & Hl & Hb). destruct (Hc w th Hw) as (th' & Hw' & Hm & Hb').
  split; [by rewrite Hp|]. exists th'. rewrite Hm. auto.
Qed.

Lemma step_calm m e m' :
  step code threads_ m e = Some m' ->
  calm m m' \/ exists t th o pt b picks s ns ex ths,
    threads m !! t = Some th /\ at_pc th = Running o pt b /\
    body code o pt b (shared m) = Some (s, ns, ex) /\ deliver_all ns picks (threads m) = Some ths /\
    m' = mkState s (exit_owner t ex) (<[t := mkThread (settle o pt ex (mode th)) (exit_pc o ex)]> ths).
Proof.
  assert (Hrefl : forall w th, threads m !! w = Some th -> exists th', threads m !! w = Some th' /\ woken th th').
  { eauto using woken_refl. }
  intros Hstep%step_fires.
  destruct Hstep as [t th last o s en Ht Hpc Hmay Hen|t th o pt b Ht Hpc Ho
    |t th o pt b picks s ns ex ths Ht Hpc Hb Hd|t th n ns o k pick ths Ht Hpc Hd
    |t th o pt s Ht Hpc Hs|e t th q Ht Hmv]; [left|left|right; naive_solver|left..].
  - simpl in Hen. injection Hen as <- _. apply calm_at; try done. by destruct en.
  - by apply calm_at.
  - apply calm_at; try done. intros. by eapply deliver_back.
  - apply calm_at; try done. by apply outside_effect in Hs as [(? & ? & _ & _ & _ & ->)|[_ ->]].
  - apply calm_at; try done. by destruct Hmv.
Qed.

(** The notification of a new task reaches a sleeping worker, if there is one. *)
Lemma notify_worker m ths picks w th :
  inv m -> begun m -> deliver_all [NotifyOne cv] picks (threads m) = Some ths ->
  threads m !! w = Some th -> on_loop w (mode th) -> blocked_pc (at_pc th) = true ->
  exists v th', ths !! v = Some th' /\ on_loop v (mode th') /\ blocked_pc (at_pc th') = false /\
    (v < next_worker (the_pool (shared m)))%nat.
Proof.
  intros Hinv Hbg Hd Hw Hl Hbl. pose proof Hinv as [_ Hpcs].
  assert (Hsleep : forall u thu, threads m !! u = Some thu -> sleeps_on cv thu = true ->
    mode thu = OnWorker u Fetching /\ (u < next_worker (the_pool (shared m)))%nat).
  { intros u thu Hu Hs. unfold sleeps_on in Hs. pose proof (Hpcs _ _ Hu) as Hok.
    destruct (at_pc thu) as [| | | |c tm o pt|] eqn:Hq; try done. apply bool_decide_eq_true in Hs as <-. simpl in Hok.
    destruct o as [| | | | | | | | | |v]; simpl in Hok; try done. destruct pt; try done.
    pose proof (worker_self m u thu v at_fetch Hinv Hu Hok) as ->. split; [done|].
    eapply Hbg; [done..|]. by rewrite Hq. }
  simpl in Hd. destruct (default None (head picks)) as [u|]; simpl in Hd.
  - destruct (threads m !! u) as [thu|] eqn:Hu; simpl in Hd; [|done].
    destruct (sleeps_on cv thu) eqn:Hs; [|done]. injection Hd as <-.
    destruct (Hsleep u thu Hu Hs) as [Hmu Hlt]. exists u, (wake cv thu). rewrite lookup_insert_eq.
    split_and!; try done; [by left|]. unfold sleeps_on in Hs. unfold wake.
    destruct (at_pc thu) as [| | | |c tm o pt|]; try done. by apply bool_decide_eq_true in Hs as <-.
  - case_decide as Hnone; [|done]. specialize (Hnone w th Hw). simpl in Hnone.
    pose proof (Hpcs _ _ Hw) as Hok. unfold sleeps_on in Hnone.
    destruct (at_pc th) as [| | | |c tm o pt|]; try done. simpl in Hok.
    apply bool_decide_eq_false in Hnone. destruct o, c, pt; simpl in Hok; try done; destruct Hl as [Hl|Hl]; congruence.
Qed.

(** The thread that has just run its segment, and everybody else. *)
Lemma awake_self m t th o pt b s ns ex ths w :
  inv m -> begun m -> threads m !! t = Some th -> at_pc th = Running o pt b ->
  body code o pt b (shared m) = Some (s, ns, ex) ->
  begun (mkState s (exit_owner t ex) (<[t := mkThread (settle o pt ex (mode th)) (exit_pc o ex)]> ths)) ->
  o = run w -> on_loop t (settle o pt ex (mode th)) -> blocked_pc (exit_pc o ex) = false ->
  awake (mkState s (exit_owner t ex) (<[t := mkThread (settle o pt ex (mode th)) (exit_pc o ex)]> ths)) t.
Proof.
  intros Hinv Hbg Ht Hpc Hb Hbg' -> Hl Hbl.
  split; [|eexists; simpl; rewrite lookup_insert_eq; done].
  destruct Hl as [Hl|Hl]; (eapply (Hbg' t); simpl; [by rewrite lookup_insert_eq|exact Hl|by destruct ex]).
Qed.

Lemma awake_other m t th th' o pt b s ns ex ths w :
  body code o pt b (shared m) = Some (s, ns, ex) -> w <> t -> ths !! w = Some th' -> on_loop w (mode th') ->
  blocked_pc (at_pc th') = false -> (w < next_worker (the_pool (shared m)))%nat ->
  awake (mkState s (exit_owner t ex) (<[t := th]> ths)) w.
Proof.
  intros Hb Hne Hw Hl Hbl Hlt.
  split; [simpl; pose proof (next_mono _ _ _ _ _ _ _ Hb); lia|].
  exists th'. simpl. by rewrite lookup_insert_ne.
Qed.

(** A step that inserts no task leaves a queue that is not empty attended. *)
Lemma attended_rest m e m' :
  inv m -> begun m -> step code threads_ m e = Some m' ->
  (forall tk, task_queue (the_pool (shared m')) <> task_queue (the_pool (shared m)) ++ [tk]) ->
  (task_queue (the_pool (shared m)) <> [] -> exists w, awake m w) ->
  task_queue (the_pool (shared m')) <> [] -> exists w, awake m' w.
Proof.
  intros Hinv Hbg Hstep Hno Hatt Hq'. pose proof (begun_step _ _ _ Hinv Hbg Hstep) as Hbg'.
  apply step_calm in Hstep as [Hcalm|(t & th & o & pt & b & picks & s & ns & ex & ths & Ht & Hpc & Hb & Hd & ->)].
  { destruct Hatt as [w Hw]; [by rewrite <- (proj1 Hcalm)|]. exists w. by eapply awake_calm. }
  simpl in Hno, Hq'. pose proof Hinv as [HI Hpcs].
  pose proof (Hpcs _ _ Ht) as Hok. rewrite Hpc in Hok. simpl in Hok.
  pose proof (body_effect _ _ _ _ _ _ _ Hb) as [tk Ho Hj Hq ->|w tk -> Hj Hq ->|Hj Hq Hrest].
  - by destruct (Hno tk).
  - pose proof (worker_self m t th w pt Hinv Ht Hok) as ->. exists w.
    eapply (awake_self m); [done..|by right|done].
  - destruct Hatt as [w (Hlt & thw & Hw & Hl & Hbl)]; [congruence|].
    destruct (deliver_all_back _ _ _ _ _ _ Hd Hw) as (th' & Hw' & [Hm Hb']%woken_calm).
    assert (w <> t \/ exists v, o = run v /\ (ex = Leave [] (Again at_start) \/ pt = at_exit)) as [Hne|(v & -> & Hex)].
    { destruct (decide (w = t)) as [->|]; [right|by left]. simplify_eq.
      destruct o as [| | | | | | | | | |v]; simpl in Hok; try done; try (destruct Hl; congruence).
      exists v. split; [done|]. destruct (Hrest v eq_refl) as [?|[?|[? _]]]; [by left|by right|congruence]. }
    + exists w. eapply (awake_other m); [done..|by rewrite Hm|by apply Hb'|done].
    + pose proof (worker_self m t th v pt Hinv Ht Hok) as ->. destruct Hex as [-> | ->].
      { exists v. eapply (awake_self m); [done..|by left|done]. }
      exists w. eapply (awake_other m); [done| |done|by rewrite Hm|by apply Hb'|done].
      intros ->. simplify_eq. simpl in Hok. destruct Hl; congruence.
Qed.

(** A task is inserted by a client, whose notification finds the core worker
    if nobody else is awake. *)
Lemma attended_insert w0 m t th o pt b picks s ns ex ths tk :
  inv m -> begun m -> standing w0 m -> shut (the_pool (shared m)) = false ->
  threads m !! t = Some th -> at_pc th = Running o pt b ->
  body code o pt b (shared m) = Some (s, ns, ex) -> deliver_all ns picks (threads m) = Some ths ->
  o = submit tk \/ o = execute tk -> ns = [NotifyOne cv] ->
  exists w, awake (mkState s (exit_owner t ex) (<[t := mkThread (settle o pt ex (mode th)) (exit_pc o ex)]> ths)) w.
Proof.
  intros Hinv Hbg Hst Hsh Ht Hpc Hb Hd Ho ->. pose proof Hinv as [HI Hpcs].
  pose proof (Hpcs _ _ Ht) as Hok. rewrite Hpc in Hok. simpl in Hok.
  assert (Hcl : mode th = Client) by (by destruct Ho as [-> | ->]).
  assert (Hne : forall w thw, ths !! w = Some thw -> on_loop w (mode thw) -> w <> t).
  { intros w thw Hw Hl ->. destruct (deliver_all_lookup _ _ _ _ _ _ Hd Hw) as (th0 & Hth0 & Hm & _).
    simplify_eq. destruct Hl; congruence. }
  destruct (Hst Hsh) as (Hc & thw & Hw & Hl & _). destruct (blocked_pc (at_pc thw)) eqn:Hbl.
  - destruct (notify_worker _ _ _ _ _ Hinv Hbg Hd Hw Hl Hbl) as (v & th' & Hv & Hlv & Hbv & Hlt).
    exists v. eapply (awake_other m); eauto.
  - destruct (deliver_all_back _ _ _ _ _ _ Hd Hw) as (th' & Hw' & [Hm Hb']%woken_calm).
    exists w0. rewrite <- Hm in Hl. eapply (awake_other m); [done|by eapply Hne|done|done|by apply Hb'|].
    apply (po_objs _ _ _ _ HI). unfold core_of in Hc. destruct (objs _ !! w0); [by eexists|done].
Qed.

Lemma queue_attended_step w0 m e m' :
  inv m -> begun m -> standing w0 m -> attended_queue m ->
  step code threads_ m e = Some m' -> attended_queue m'.
Proof.
  intros Hinv Hbg Hst Hatt Hstep Hsh' Hq'. pose proof Hstep as Hstep'.
  apply step_calm in Hstep as [Hcalm|(t & th & o & pt & b & picks & s & ns & ex & ths & Ht & Hpc & Hb & Hd & ->)].
  { destruct Hatt as [w Hw]; [by rewrite <- (proj1 Hcalm)..|]. exists w. by eapply awake_calm. }
  pose proof (shut_body _ _ _ _ _ _ _ Hb Hsh') as Hsh. pose proof (body_effect _ _ _ _ _ _ _ Hb) as Hef.
  destruct Hef as [tk Ho Hj Hq Hns|w tk Ho Hj Hq Hex|Hj Hq Hrest]; [by eapply attended_insert| |];
    (eapply attended_rest; [done..| |by apply Hatt|done]); simpl; intros tk' Heq;
    rewrite ?Hq in Heq; apply (f_equal length) in Heq; rewrite ?length_app in Heq; simpl in Heq;
    rewrite ?length_app in Heq; simpl in Heq; lia.
Qed.

(** ** Waiting for termination *)

(** On [wait_cv] one sleeps while the pool is not terminated. *)
Definition blocked (c : cv_name) (o : op) (pt : point) s : Prop :=
  match c with wait_cv => is_terminated_locked (the_pool s) = false | cv => True end.

Definition solo (c : cv_name) : bool := false.

Lemma staffed p : workers p <> [] -> is_terminated_locked p = false.
Proof. intros Hw. unfold is_terminated_locked. by rewrite (bool_decide_false _ Hw), andb_false_r. Qed.

Lemma queued p : task_queue p <> [] -> is_terminated_locked p = false.
Proof. intros Hq. unfold is_terminated_locked. by rewrite (bool_decide_false _ Hq), andb_false_r. Qed.

Lemma submit_queue tk s s' ns ex :
  submit_body L max_pool_size tk s = Some (s', ns, ex) ->
  task_queue (the_pool s') = task_queue (the_pool s) ++ [tk].
Proof.
  unfold submit_body, insert_task_locked, add_worker_locked, return_. intros Hr.
  repeat case_match; by simplify_eq/=.
Qed.

(** A worker inside the loop leaves the array of workers alone. *)
Lemma loop_workers w pt b s s' ns ex :
  pt <> at_exit -> run_body w pt b s = Some (s', ns, ex) -> workers (the_pool s') = workers (the_pool s).
Proof.
  intros Hpt Hb. destruct pt; simpl in Hb; try done; unfold loop_body, fetch_start, fetch_body, take_task, break_ in Hb;
    try (destruct (objs _ !! w); simpl in Hb; [|done]; repeat case_match; by simplify_eq/=).
  by injection Hb as <- _ _.
Qed.

Lemma worker_staffs w pt b s s' ns ex hs h :
  einv L cap s hs -> hs !! w = Some h -> allowed h (run w) pt ->
  run_body w pt b s = Some (s', ns, ex) -> workers (the_pool s) <> [].
Proof.
  intros HI Hw Hal Hb.
  assert (w ∈ workers (the_pool s)) as Hin.
  { destruct pt; simpl in Hal; try done; subst h; try (by eapply begun_on_duty);
      simpl in Hb; unfold loop_body, fetch_start, fetch_body in Hb;
      (destruct (objs (the_pool s) !! w) eqn:Ho; [by eapply on_duty|done]). }
  intros Hn. rewrite Hn in Hin. by apply elem_of_nil in Hin.
Qed.

(** Only [shutdown] and the exit of a worker terminate the pool. *)
Lemma body_terminates t h s hs o pt b s' ns ex :
  einv L cap s hs -> hs !! t = Some h -> allowed h o pt -> body code o pt b s = Some (s', ns, ex) ->
  is_terminated_locked (the_pool s) = false ->
  is_terminated_locked (the_pool s') = false \/ NotifyAll wait_cv ∈ ns.
Proof.
  intros HI Ht Hal Hb Hnt. destruct o as [tk|tk| | | | | | | | |w]; simpl in Hb; try done.
  1,2: left; apply queued; rewrite (submit_queue _ _ _ _ _ Hb); by destruct (task_queue _).
  - unfold shutdown_body, return_ in Hb. injection Hb as <- <- <-. simpl.
    destruct (is_terminated_locked (set_shut (the_pool s))); [right; set_solver|by left].
  - left. by apply await_same in Hb as ->.
  - left. unfold await_until_body, return_ in Hb. repeat case_match; by simplify_eq.
  - left. by injection Hb as <- _ _.
  - left. by injection Hb as <- _ _.
  - unfold destroy_body, await_body, shutdown_body, return_ in Hb. rewrite !Hnt in Hb.
    destruct pt; simpl in Hb; simplify_eq/=; try (by left).
    destruct (is_terminated_locked (set_shut (the_pool s))); [right; set_solver|by left].
  - assert (exists ph, h = OnWorker w ph) as [ph Hph] by (destruct pt; simpl in Hal; try done; by eexists).
    subst h. pose proof (po_thread _ _ _ _ HI _ _ _ Ht) as ->.
    destruct (decide (pt = at_exit)) as [->|Hpt].
    + simpl in Hb. unfold exit_body, return_ in Hb.
      destruct (remove_self_locked _ _) as [p|]; simpl in Hb; [|done]. injection Hb as <- <- <-. simpl.
      destruct (is_terminated_locked p); [right; set_solver|by left].
    + left. apply staffed. rewrite (loop_workers _ _ _ _ _ _ _ Hpt Hb). by eapply worker_staffs.
Qed.

#[export] Instance executor_notify : NotifyOk code threads_ (einv L cap) allowed asleep blocked solo.
Proof.
  split.
  - intros t h s hs o s' en t' h' c o' pt' HI Ht Hmay [= <- <-]. done.
  - intros t h s hs o pt s' t' h' c o' pt' HI Ht Hal Hs _ _ Hbl.
    apply outside_effect in Hs as [(? & ? & _ & _ & _ & ->)|[_ ->]]; by destruct c.
  - intros t h s hs o pt b s' ns ex t' h' c o' pt' HI Ht Hal Hb _ _ _ Hbl. destruct c; [by left|].
    destruct (body_terminates _ _ _ _ _ _ _ _ _ _ HI Ht Hal Hb Hbl) as [|Hin]; [by left|right; left; set_solver].
  - intros t h s hs o pt b s' ns c tm pt' HI Ht Hal Hb. destruct c; [done|]. simpl.
    destruct o as [tk|tk| | | | | | | | |w]; simpl in Hb; try done.
    + unfold submit_body, execute_body, return_ in Hb. by destruct (insert_task_locked _ _ _ _) as [[? ?]|].
    + unfold submit_body, execute_body, return_ in Hb. by destruct (insert_task_locked _ _ _ _) as [[? ?]|].
    + unfold await_body, return_ in Hb. repeat case_match; by simplify_eq.
    + unfold await_until_body, return_ in Hb. repeat case_match; by simplify_eq.
    + unfold destroy_body, await_body, shutdown_body, return_ in Hb. repeat case_match; by simplify_eq/=.
    + destruct pt; simpl in Hb; unfold loop_body, fetch_start, fetch_body, take_task, break_, exit_body, return_ in Hb;
        try (destruct (objs _ !! w); simpl in Hb; [|done]; repeat case_match; by simplify_eq/=); try done.
      by destruct (remove_self_locked _ _).
  - done.
Qed.

(** Every notification is made under the lock. *)
Lemma leaves_nothing o pt b s s' ns ns' k :
  body code o pt b s = Some (s', ns, Leave ns' k) -> ns' = [].
Proof.
  intros Hb. destruct o as [tk|tk| | | | | | | | |w]; simpl in Hb; try done.
  1,2: unfold submit_body, execute_body, return_ in Hb; destruct (insert_task_locked _ _ _ _) as [[? ?]|]; by simplify_eq/=.
  - unfold shutdown_body, return_ in Hb. by simplify_eq.
  - unfold await_body, return_ in Hb. repeat case_match; by simplify_eq.
  - unfold await_until_body, return_ in Hb. repeat case_match; by simplify_eq.
  - unfold return_ in Hb. by simplify_eq.
  - unfold return_ in Hb. by simplify_eq.
  - unfold destroy_body, await_body, shutdown_body, return_ in Hb. repeat case_match; by simplify_eq/=.
  - destruct pt; simpl in Hb; unfold loop_body, fetch_start, fetch_body, take_task, break_, exit_body, return_ in Hb;
      try (destruct (objs _ !! w); simpl in Hb; [|done]; repeat case_match; by simplify_eq/=).
    + unfold done_body in Hb. by simplify_eq.
    + destruct (remove_self_locked _ _); simpl in Hb; by simplify_eq.
Qed.

(** ** Every reachable state *)

(** [reachable_from n clients m]: a run of a pool with [n] core workers. *)
Definition reachable_from (n : nat) (clients : gset tid) m : Prop :=
  exists s es, construct L n = Some s /\ Machine.run (step code threads_) (start s (crew L clients)) es = Some m.

Lemma reachable_await n clients m t th tm o pt :
  Z.of_nat n <= cap -> reachable_from n clients m ->
  threads m !! t = Some th -> at_pc th = Waiting wait_cv tm o pt ->
  is_terminated_locked (the_pool (shared m)) = false.
Proof.
  intros Hn (s & es & Hs & Hm%run_steps).
  destruct (construct_ok L clients cap Hcap n s Hn Hs) as (Hok & _).
  assert (MonitorSafe code threads_ (einv L cap) allowed asleep) as Hsafe by by apply executor_safe.
  intros Ht Hpc. assert (attended blocked solo m) as Hatt.
  { eapply (no_lost_wakeup code threads_ (einv L cap) allowed asleep); [done|by apply executor_notify|done..]. }
  destruct (Hatt t th wait_cv tm o pt Ht Hpc) as [|(u & thu & ns & ou & k & Hu & Hq & Hann)]; [done|].
  assert (all_rest (fun _ => True) (fun _ => False) m) as Hrest.
  { eapply (always_rests code threads_ (einv L cap) allowed asleep); [|exact Hok|done|exact Hm].
    intros. split; [done|]. by erewrite leaves_nothing. }
  specialize (Hrest u thu Hu). unfold rests in Hrest. rewrite Hq in Hrest. destruct Hrest as [_ Hns].
  destruct ns as [|x ns]; [|by apply Forall_cons in Hns as []].
  destruct Hann as [Hin|[_ Hin]]; by apply elem_of_nil in Hin.
Qed.

Lemma reachable_queue n clients m :
  (0 < n)%nat -> Z.of_nat n <= cap -> reachable_from n clients m ->
  inv m /\ begun m /\ standing 0%nat m /\ attended_queue m.
Proof.
  intros Hpos Hn (s & es & Hs & Hm%run_steps).
  destruct (construct_ok L clients cap Hcap n s Hn Hs) as (Hok & Hj & Hsh & Hq & Hcore).
  assert (MonitorSafe code threads_ (einv L cap) allowed asleep) as Hsafe by by apply executor_safe.
  eapply (steps_invariant _ (fun m => inv m /\ begun m /\ standing 0%nat m /\ attended_queue m)); [| |exact Hm].
  - split; [by eapply (safe_invariant _ _ _ _ _ s), steps_refl|]. split_and!.
    + intros w th ph Hw _ Hi. simpl in Hw. rewrite lookup_fmap in Hw.
      apply fmap_Some in Hw as (h & _ & ->). by destruct (Hi None).
    + intros _. split; [by apply Hcore|].
      assert ((0 < L)%nat) as HL.
      { specialize (Hcore 0%nat Hpos). destruct (objs (the_pool s) !! 0%nat) eqn:Ho; [|done].
        apply Nat.lt_le_trans with (next_worker (the_pool s)); [apply (po_objs _ _ _ _ Hok); by eexists|apply Hok]. }
      eexists. simpl. rewrite lookup_fmap, (proj2 (crew_lookup L clients 0%nat (OnWorker 0%nat Fetching))); [|by left]. simpl.
      split; [done|]. split; [by left|done].
    + intros _ Hne. simpl in Hne. by rewrite Hq in Hne.
  - intros m1 e m2 (Hi & Hbg & Hst & Hat) He. split_and!;
      [by eapply monitor_inv_step|by eapply begun_step|by eapply standing_step|by eapply queue_attended_step].
Qed.
End tasks.
