(* ===== verification/ExecutorSettles.v ===== *)
(** * ThreadPoolExecutor: left alone, it works off its queue

    The account of the pool: a queued task is worth the two segments of the
    loop that take and finish it, a worker the way to its exit.  A schedule of
    the threads inside is bounded by it; where nothing can move any more, the
    workers of the array sleep, or have left if the pool is shut down. *)

From S2P Require Import Prelude Machine Monitor MonitorTheory MonitorDrain.
From S2P Require Import Executor ExecutorProofs ExecutorTasks.

Import Executor.
Local Open Scope Z_scope.

(** [await_termination_until] locks the mutex it owns: callers who do not call
    it are patient.  Finishing is to bring no more tasks either. *)
Definition patient (o : op) : bool := match o with await_termination_until => false | _ => true end.
Definition finishing (o : op) : bool :=
  match o with submit _ | execute _ | await_termination_until => false | _ => true end.

Definition segments (o : op) (pt : point) : Z :=
  match o, pt with
  | run _, at_done => 3 | run _, at_exit => 1 | run _, _ => 2
  | (submit _ | execute _), _ => 4
  | await_termination, at_start => 2
  | destroy, at_start => 5 | destroy, at_shutdown => 4 | destroy, at_await => 3 | destroy, _ => 2
  | _, _ => 1
  end.

Definition pool_account (welcome : op -> bool) : account shared_state op point hold :=
  mkAccount 0 (fun s => 3 * Z.of_nat (length (task_queue (the_pool s)))) segments
    (fun h => match h with OnWorker _ Gone | Client => 0 | _ => 3 end)
    (fun o => match o with run _ => true | _ => false end) welcome.

Section settles.
Context (L : nat) (max_pool_size cap : Z) (Hcap : 0 <= cap < 2 ^ 64) (Hmax : max_pool_size <= cap).
Implicit Types (hs : gmap tid hold) (s : shared_state) (p : pool) (w : wid) (m : machine).

Abbreviation code := (the_code L max_pool_size).
Abbreviation inv := (monitor_inv (einv L cap) allowed asleep).
Abbreviation machine_step := (step code threads_).

Section accounted.
Context (welcome : op -> bool) (Hwelcome : welcome await_termination_until = false).
Abbreviation A := (pool_account welcome).

Lemma insert_paid tk s s' ns ex :
  submit_body L max_pool_size tk s = Some (s', ns, ex) ->
  ex = Leave [] (Return Void) /\ pot A s' = pot A s + 3.
Proof.
  intros Hb. pose proof (submit_queue _ _ _ _ _ _ _ Hb) as Hq.
  unfold submit_body, return_ in Hb. destruct (insert_task_locked _ _ _ _) as [[s1 ns1]|]; simpl in Hb; [|done].
  injection Hb as <- <- <-. split; [done|]. simpl. rewrite Hq, length_app. simpl. lia.
Qed.

Lemma take_paid w h pt s s' ns ex :
  take_task w s = Some (s', ns, ex) ->
  pays A (pot A s + 2) (pot A s' + due_after A (settle (run w) pt ex h) (run w) ex) ns ex.
Proof.
  unfold take_task, break_. destruct (task_queue (the_pool s)) as [|tk q] eqn:Hq; intros [= <- <- <-]; simpl;
    rewrite Hq; simpl; lia.
Qed.

Lemma run_paid w h pt b s s' ns ex :
  allowed h (run w) pt -> run_body w pt b s = Some (s', ns, ex) ->
  pays A (pot A s + segments (run w) pt) (pot A s' + due_after A (settle (run w) pt ex h) (run w) ex) ns ex.
Proof.
  intros Hal Hb. destruct pt; simpl in Hal; try done; simpl in Hb.
  - unfold loop_body, fetch_start, break_ in Hb. destruct (objs _ !! w); simpl in Hb; [|done].
    repeat case_match; try (by eapply take_paid); simplify_eq; simpl; try lia. left. split; [done|lia].
  - unfold fetch_body in Hb. destruct (objs _ !! w); simpl in Hb; [|done].
    case_match; [|by eapply take_paid]. simplify_eq. simpl. left. split; [done|lia].
  - unfold done_body in Hb. injection Hb as <- <- <-. simpl. lia.
  - unfold exit_body, return_ in Hb. destruct (remove_self_locked _ _) as [p|] eqn:Hp; simpl in Hb; [|done].
    apply remove_queue in Hp as [Hq _]. injection Hb as <- <- <-. simpl. rewrite Hq. lia.
Qed.

Lemma destroy_paid pt s s' ns ex :
  destroy_body pt s = Some (s', ns, ex) ->
  pays A (pot A s + segments destroy pt) (pot A s' + due_after A Client destroy ex) ns ex.
Proof.
  unfold destroy_body, await_body, shutdown_body, return_. intros Hb.
  destruct pt; repeat (simpl in Hb; case_match); simplify_eq/=; try lia; left; (split; [done|lia]).
Qed.

#[export] Instance pool_settles : Settles code threads_ (einv L cap) allowed A.
Proof.
  split.
  - intros s. simpl. lia.
  - intros o pt. destruct o, pt; simpl; lia.
  - intros h. destruct h as [|w []]; simpl; lia.
  - intros t h s hs o s' en HI Ht Hmay Hs Hen. destruct o as [| | | | | | | | | |w]; try done.
    simpl in Hmay, Hen. apply andb_prop in Hmay as [[_ ->]%bool_decide_eq_true _].
    injection Hen as <- <-. exists at_start. split; [done|]. simpl. lia.
  - intros s hs t h o pt s' _ _ _ Hs.
    apply outside_effect in Hs as [(? & ? & _ & _ & _ & ->)|[_ ->]]; simpl; lia.
  - intros t h s hs o pt b s' ns ex HI Ht Hal Hwel Hb.
    destruct o as [tk|tk| | | | | | | | |w]; simpl in Hb, Hwel; try done; try congruence.
    1,2: simpl in Hal; subst h; apply insert_paid in Hb as [-> Hp]; simpl in *; lia.
    + simpl in Hal. subst h. unfold shutdown_body, return_ in Hb. injection Hb as <- <- <-. simpl. lia.
    + simpl in Hal. subst h. unfold await_body, return_ in Hb.
      destruct pt; repeat case_match; simplify_eq/=; try lia; left; (split; [done|lia]).
    + simpl in Hal. subst h. unfold return_ in Hb. injection Hb as <- <- <-. simpl. lia.
    + simpl in Hal. subst h. unfold return_ in Hb. injection Hb as <- <- <-. simpl. lia.
    + simpl in Hal. subst h. by apply destroy_paid.
    + by eapply run_paid.
Qed.
End accounted.

(** ** Nothing is undefined while a worker thread is to spare *)

(** A worker between its two segments has a task to call. *)
Definition called m : Prop := forall w, at_task m w -> is_Some (running (the_journal (shared m)) !! w).

Lemma at_task_back m t th ths s o w :
  at_task (mkState s o (<[t := th]> ths)) w ->
  (forall u thu, ths !! u = Some thu -> exists thu', threads m !! u = Some thu' /\ woken thu' thu) ->
  w = t /\ (exists ns, at_pc th = Posting ns (run w) (Again at_done)) \/ w <> t /\ at_task m w.
Proof.
  intros (thw & ns & Hw & Hpc) Hback. simpl in Hw. destruct (decide (w = t)) as [->|Hne].
  - left. rewrite lookup_insert_eq in Hw. injection Hw as <-. split; [done|]. by exists ns.
  - right. split; [done|]. rewrite lookup_insert_ne in Hw by done.
    destruct (Hback w thw Hw) as (th0 & Hth0 & _ & Hwk). exists th0, ns. split; [done|].
    destruct Hwk as [Hq|(? & ? & ? & ? & _ & Hq)]; congruence.
Qed.

Lemma called_step m e m' : inv m -> called m -> machine_step m e = Some m' -> called m'.
Proof.
  intros Hinv Hc Hstep%step_fires v Hat. pose proof Hinv as [HI Hpcs].
  assert (Hrefl : forall u thu, threads m !! u = Some thu -> exists thu', threads m !! u = Some thu' /\ woken thu' thu)
    by eauto using woken_refl.
  destruct Hstep as [t th last o s en Ht Hpc Hmay Hen|t th o pt b Ht Hpc Ho
    |t th o pt b picks s ns ex ths Ht Hpc Hb Hd|t th n ns o k pick ths Ht Hpc Hd
    |t th o pt s Ht Hpc Hs|e t th q Ht Hmv]; pose proof (Hpcs _ _ Ht) as Hok; simpl in *.
  - injection Hen as <- <-. apply (at_task_back m) in Hat as [[-> [ns Hp]]|[_ Hat]]; [|by apply Hc|done].
    simpl in Hp. by destruct o; unfold submit_entry, execute_entry in *; simpl in Hp; repeat case_match.
  - apply (at_task_back m) in Hat as [[-> [ns Hp]]|[_ Hat]]; [done|by apply Hc|done].
  - rewrite Hpc in Hok. simpl in Hok.
    apply (at_task_back m) in Hat as [[-> [ns' Hp]]|[Hne Hat]];
      [| |by intros u thu Hu; apply (deliver_all_lookup _ _ _ _ _ _ Hd Hu)].
    + simpl in Hp. assert (o = run t) as -> by (by destruct ex; simplify_eq/=).
      pose proof (body_effect _ _ _ _ _ _ _ _ _ Hb) as [tk [?|?] Hj Hq Hns|w tk [= <-] Hj Hq Hex|Hj Hq Hrest]; try done.
      * rewrite Hj. simpl. rewrite lookup_insert_eq. by eexists.
      * exfalso. destruct (Hrest t eq_refl) as [Hx|[->|[_ [Hx|[tm Hx]]]]]; rewrite ?Hx in Hp; try done.
        simpl in Hb. unfold exit_body, return_ in Hb. destruct (remove_self_locked _ _); simpl in Hb; simplify_eq/=.
    + destruct (Hc v Hat) as [tk' Htk].
      apply body_effect in Hb as [tk _ Hj _ _|w tk _ Hj _ _|Hj _ _]; rewrite Hj; simpl; [by exists tk'| |by exists tk'].
      rewrite lookup_insert_is_Some'. right. by exists tk'.
  - apply (at_task_back m) in Hat as [[-> [ns' Hp]]|[_ Hat]];
      [|by apply Hc|by intros u thu Hu; apply (deliver_lookup _ _ _ _ _ _ Hd Hu)].
    simpl in Hp. injection Hp as _ -> ->. apply Hc. by exists th, (n :: ns).
  - apply (at_task_back m) in Hat as [[-> [ns' Hp]]|[Hne Hat]]; [done| |done].
    destruct (Hc v Hat) as [tk' Htk]. rewrite Hpc in Hok. simpl in Hok.
    apply outside_effect in Hs as [(w & tk & -> & -> & Hw & ->)|[_ ->]]; [|by exists tk'].
    simpl. rewrite lookup_delete_ne; [by exists tk'|]. intros ->. apply Hne.
    symmetry. by eapply worker_self.
  - apply (at_task_back m) in Hat as [[-> [ns Hp]]|[_ Hat]]; [|by apply Hc|done].
    simpl in Hp. by destruct Hmv.
Qed.

(** A worker on its way through the loop has its object and its place. *)
Lemma placed m w th ph :
  inv m -> begun m -> threads m !! w = Some th -> mode th = OnWorker w ph -> ph <> Gone ->
  (forall l, at_pc th <> Idle l) ->
  exists ob, objs (the_pool (shared m)) !! w = Some ob /\ workers (the_pool (shared m)) !! worker_index ob = Some w.
Proof.
  intros [HI _] Hbg Hw Hm Hg Hi. pose proof (Hbg w th ph Hw Hm Hi) as Hlt.
  apply modes_lookup in Hw. rewrite Hm in Hw.
  assert (w ∈ workers (the_pool (shared m))) as [i Hi']%list_elem_of_lookup.
  { apply (po_members _ _ _ _ HI). split; [done|by exists ph]. }
  destruct (po_index _ _ _ _ HI _ _ Hi') as (ob & Hob & <-). by exists ob.
Qed.

Lemma remove_defined p hs w ob :
  pool_ok L cap p hs -> objs p !! w = Some ob -> workers p !! worker_index ob = Some w ->
  is_Some (remove_self_locked w p).
Proof.
  intros Hp Hob Hi. unfold remove_self_locked. rewrite Hob. simpl. rewrite Hi. simpl.
  destruct (last (workers p)) as [v|] eqn:Hl; simpl; [|by apply last_None in Hl; rewrite Hl in Hi].
  rewrite last_lookup in Hl. destruct (po_index _ _ _ _ Hp _ _ Hl) as (obv & -> & _). by eexists.
Qed.

(** Room for one more worker thread, which only a submission can need. *)
Definition spare m : Prop :=
  (next_worker (the_pool (shared m)) < L)%nat \/
  forall t th tk pt b, threads m !! t = Some th ->
    at_pc th <> Running (submit tk) pt b /\ at_pc th <> Running (execute tk) pt b.

Lemma submit_defined tk s : (next_worker (the_pool s) < L)%nat -> is_Some (submit_body L max_pool_size tk s).
Proof.
  intros Hlt. unfold submit_body, insert_task_locked, add_worker_locked, return_. simpl.
  case_match; simpl; [rewrite decide_True by done|]; by eexists.
Qed.

Lemma pool_body_defined m t th o pt b :
  inv m -> begun m -> spare m -> threads m !! t = Some th -> at_pc th = Running o pt b ->
  is_Some (body code o pt b (shared m)).
Proof.
  intros Hinv Hbg Hsp Ht Hpc. pose proof Hinv as [HI Hpcs].
  pose proof (Hpcs _ _ Ht) as Hok. rewrite Hpc in Hok.
  destruct o as [tk|tk| | | | | | | | |w]; simpl in *; try done.
  1,2: apply submit_defined; destruct Hsp as [|Hno]; [done|]; by destruct (Hno t th tk pt b Ht).
  1-3: unfold shutdown_body, await_body, await_until_body, destroy_body, await_body, return_;
    repeat (simpl; case_match); try by eexists.
  pose proof (worker_self _ _ _ _ _ _ _ Hinv Ht Hok) as ->.
  assert (exists ph, mode th = OnWorker w ph /\ ph <> Gone) as (ph & Hph & Hg).
  { destruct pt; try done; by eexists. }
  destruct (placed m w th ph Hinv Hbg Ht Hph Hg) as (ob & Hob & Hi); [congruence|].
  destruct pt; try done; simpl; unfold loop_body, fetch_start, fetch_body, take_task, break_, done_body, exit_body, return_;
    rewrite ?Hob; simpl; try (repeat case_match; by eexists).
  destruct (remove_defined _ _ _ _ HI Hob Hi) as [p ->]. by eexists.
Qed.

Lemma pool_defined m : inv m -> begun m -> called m -> spare m -> defined code m.
Proof.
  intros Hinv Hbg Hc Hsp. split; [intros; by eapply pool_body_defined|].
  intros t th o pt Ht Hpc. pose proof Hinv as [_ Hpcs].
  pose proof (Hpcs _ _ Ht) as Hok. rewrite Hpc in Hok. simpl in *.
  destruct o as [| | | | | | | | | |w]; try by eexists. destruct pt; try by eexists. simpl.
  pose proof (worker_self _ _ _ _ _ _ _ Hinv Ht Hok) as ->.
  destruct (Hc w) as [tk ->]; [by exists th, []|]. simpl.
  pose proof (call_completes tk (futures (the_journal (shared m)))) as Hcompl.
  destruct (call_task tk _) as [fs [|e]]; [by eexists|done].
Qed.

(** ** After the shutdown no worker sleeps *)

Definition dismissed m : Prop :=
  shut (the_pool (shared m)) = true ->
  forall t th tm o pt, threads m !! t = Some th -> at_pc th <> Waiting cv tm o pt.

Lemma waits_open o pt b s s' ns tm q :
  body code o pt b s = Some (s', ns, Wait cv tm q) -> s' = s /\ shut (the_pool s) = false.
Proof.
  intros Hb. destruct o as [tk|tk| | | | | | | | |w]; simpl in Hb; try done.
  1,2: by apply insert_paid with (welcome := patient) in Hb as [? _].
  - unfold await_body, return_ in Hb. by repeat case_match.
  - unfold await_until_body, return_ in Hb. by repeat case_match.
  - unfold destroy_body, await_body, shutdown_body, return_ in Hb. by destruct pt; repeat (simpl in Hb; case_match).
  - destruct pt; simpl in Hb; unfold loop_body, fetch_start, fetch_body, take_task, break_, exit_body, return_ in Hb;
      try (destruct (objs _ !! w); simpl in Hb; [|done]); try (by destruct (remove_self_locked _ _)); try done;
      repeat (case_match; try done); simplify_eq;
      (split; [done|]); repeat match goal with H : _ && _ = _ |- _ => revert H end;
      by destruct (shut _), (bool_decide (task_queue _ = [])).
Qed.

(** Whoever shuts the pool down wakes its workers, if it has any. *)
Lemma shuts o pt b s s' ns ex :
  body code o pt b s = Some (s', ns, ex) -> shut (the_pool s) = false -> shut (the_pool s') = true ->
  ns = [NotifyAll cv] \/ workers (the_pool s) = [].
Proof.
  assert (Hshut : forall ns : list (notify cv_name),
    ns = [NotifyAll (if is_terminated_locked (set_shut (the_pool s)) then wait_cv else cv)] ->
    ns = [NotifyAll cv] \/ workers (the_pool s) = []).
  { intros ns' ->. destruct (is_terminated_locked _) eqn:Ht; [right|by left].
    apply andb_prop in Ht as [_ Ht]. by apply bool_decide_eq_true in Ht. }
  intros Hb Hs Hs'. destruct o as [tk|tk| | | | | | | | |w]; simpl in Hb; try done.
  1,2: unfold submit_body, execute_body, insert_task_locked, add_worker_locked, return_ in Hb; repeat case_match; simplify_eq/=; congruence.
  - unfold shutdown_body, return_ in Hb. simplify_eq. by apply Hshut.
  - apply await_same in Hb as ->. congruence.
  - unfold await_until_body, return_ in Hb. repeat case_match; simplify_eq/=; congruence.
  - unfold return_ in Hb. simplify_eq. congruence.
  - unfold return_ in Hb. simplify_eq. congruence.
  - unfold destroy_body, await_body, shutdown_body, return_ in Hb.
    destruct pt; repeat (simpl in Hb; case_match); simplify_eq/=; try congruence; by apply Hshut.
  - exfalso. enough (shut (the_pool s') = shut (the_pool s)) by congruence.
    destruct pt; simpl in Hb; unfold loop_body, fetch_start, fetch_body, take_task, break_, exit_body, return_ in Hb;
      try (destruct (objs _ !! w); simpl in Hb; [|done]; repeat case_match; by simplify_eq/=).
    + by injection Hb as <- _ _.
    + destruct (remove_self_locked _ _) as [p|] eqn:Hp; simpl in Hb; [|done].
      apply remove_queue in Hp as [_ Hsh]. by simplify_eq/=.
Qed.

Lemma cv_sleeper_placed m t th tm o pt :
  inv m -> begun m -> threads m !! t = Some th -> at_pc th = Waiting cv tm o pt ->
  mode th = OnWorker t Fetching /\ workers (the_pool (shared m)) <> [].
Proof.
  intros Hinv Hbg Ht Hpc. pose proof Hinv as [_ Hpcs]. pose proof (Hpcs _ _ Ht) as Hok. rewrite Hpc in Hok.
  simpl in Hok. destruct o as [| | | | | | | | | |w], pt; simpl in Hok; try done.
  pose proof (worker_self _ _ _ t th w at_fetch Hinv Ht Hok) as ->. split; [done|].
  destruct (placed m w th Fetching Hinv Hbg Ht Hok) as (ob & _ & Hi); [done|congruence|].
  intros Hn. by rewrite Hn in Hi.
Qed.

Lemma dismissed_step m e m' :
  inv m -> begun m -> dismissed m -> machine_step m e = Some m' -> dismissed m'.
Proof.
  intros Hinv Hbg Hdis Hstep%step_fires Hsh t' th' tm' o' pt' Ht' Hpc'.
  destruct Hstep as [t th last o s en Ht Hpc Hmay Hen|t th o pt b Ht Hpc Ho
    |t th o pt b picks s ns ex ths Ht Hpc Hb Hd|t th n ns o k pick ths Ht Hpc Hd
    |t th o pt s Ht Hpc Hs|e t th q Ht Hmv]; simpl in *.
  - injection Hen as <- <-. thread_at t t' Ht'; [by destruct o; unfold submit_entry, execute_entry in *; simpl in Hpc'; repeat case_match|by eapply Hdis].
  - thread_at t t' Ht'; [done|by eapply Hdis].
  - thread_at t t' Ht'.
    + simpl in Hpc'. destruct ex; simplify_eq/=. apply waits_open in Hb as [-> ?]. congruence.
    + destruct (deliver_all_lookup _ _ _ _ _ _ Hd Ht') as (th0 & Hth0 & _ & Hw).
      assert (at_pc th0 = Waiting cv tm' o' pt') as Hpc0 by (destruct Hw as [Hw|(?&?&?&?&_&Hw)]; congruence).
      destruct (shut (the_pool (shared m))) eqn:Hsh0; [by eapply Hdis|].
      destruct (shuts _ _ _ _ _ _ _ Hb Hsh0 Hsh) as [-> |Hnone].
      * simpl in Hd. injection Hd as <-. rewrite lookup_fmap, Hth0 in Ht'. injection Ht' as <-.
        unfold wake in Hpc'. simpl in Hpc'. rewrite Hpc0 in Hpc'. simpl in Hpc'. done.
      * by destruct (cv_sleeper_placed m t' th0 tm' o' pt' Hinv Hbg Hth0 Hpc0).
  - thread_at t t' Ht'; [done|].
    destruct (deliver_lookup _ _ _ _ _ _ Hd Ht') as (th0 & Hth0 & _ & Hw).
    apply (Hdis Hsh t' th0 tm' o' pt' Hth0). destruct Hw as [Hw|(?&?&?&?&_&Hw)]; congruence.
  - assert (the_pool s = the_pool (shared m)) as Hp
      by (by apply outside_effect in Hs as [(? & ? & _ & _ & _ & ->)|[_ ->]]).
    rewrite Hp in Hsh. thread_at t t' Ht'; [done|by eapply Hdis].
  - thread_at t t' Ht'; [by destruct Hmv|by eapply Hdis].
Qed.

(** ** Every reachable state, and those where nothing can move *)

(** A thread outside the class does not count as executing or leaving. *)
Definition outside_loop (h : hold) : Prop :=
  match h with OnWorker _ (Busy | Dying) => False | _ => True end.

Definition returning (q : pc op point cv_name ret) : bool :=
  match q with Idle _ | TryWanting _ _ _ | Posting _ _ (Return _) => true | _ => false end.

Definition off_duty m : Prop :=
  forall t th, threads m !! t = Some th -> returning (at_pc th) = true -> outside_loop (mode th).

Lemma returning_woken (th th' : worker_thread) :
  woken th th' -> returning (at_pc th') = true -> mode th' = mode th /\ returning (at_pc th) = true.
Proof. intros [-> [<- |(? & ? & ? & ? & _ & Hq)]]; [done|]. by rewrite Hq. Qed.

Lemma off_duty_step m e m' : inv m -> off_duty m -> machine_step m e = Some m' -> off_duty m'.
Proof.
  intros [HI Hpcs] Hoff Hstep%step_fires t' th' Ht' Hret.
  destruct Hstep as [t th last o s en Ht Hpc Hmay Hen|t th o pt b Ht Hpc Ho
    |t th o pt b picks s ns ex ths Ht Hpc Hb Hd|t th n ns o k pick ths Ht Hpc Hd
    |t th o pt s Ht Hpc Hs|e t th q Ht Hmv]; simpl in *; thread_at t t' Ht'; try done; try (by eapply Hoff).
  - eapply (Hoff t' th); [done|]. by rewrite Hpc.
  - simpl in Hret |- *. destruct ex as [| |ns' [r|]|]; try done.
    pose proof (Hpcs _ _ Ht) as Hok. rewrite Hpc in Hok. simpl in Hok.
    destruct o; simpl in Hok; try (by rewrite Hok); done.
  - destruct (deliver_all_lookup _ _ _ _ _ _ Hd Ht') as (th0 & Hth0 & Hw).
    destruct (returning_woken _ _ Hw Hret) as [-> Hr0]. by eapply Hoff.
  - eapply (Hoff t' th); [done|]. rewrite Hpc. by destruct k.
  - destruct (deliver_lookup _ _ _ _ _ _ Hd Ht') as (th0 & Hth0 & Hw).
    destruct (returning_woken _ _ Hw Hret) as [-> Hr0]. by eapply Hoff.
  - eapply (Hoff t' th); [done|]. by destruct Hmv.
Qed.

Record sane m : Prop := {
  sane_inv : inv m;
  sane_begun : begun m;
  sane_called : called m;
  sane_dismissed : dismissed m;
  sane_off_duty : off_duty m;
}.

Lemma sane_step m e m' : sane m -> machine_step m e = Some m' -> sane m'.
Proof.
  intros [Hi Hbg Hc Hd Hr] Hs. pose proof (executor_safe L max_pool_size cap Hcap Hmax) as Hsafe.
  split; [by eapply monitor_inv_step|by eapply begun_step|by eapply called_step|by eapply dismissed_step
    |by eapply off_duty_step].
Qed.

Lemma sane_start n clients s :
  Z.of_nat n <= cap -> construct L n = Some s -> sane (start s (crew L clients)).
Proof.
  intros Hn Hs. destruct (construct_ok L clients cap Hcap n s Hn Hs) as (Hok & _ & Hsh & _).
  pose proof (executor_safe L max_pool_size cap Hcap Hmax) as Hsafe.
  assert (Hidle : forall t th, threads (start s (crew L clients) : machine) !! t = Some th ->
    at_pc th = Idle None /\ crew L clients !! t = Some (mode th)).
  { intros t th Ht. simpl in Ht. by apply lookup_fmap_Some in Ht as (h & <- & Hh). }
  split.
  - by apply (safe_invariant code threads_ (einv L cap) allowed asleep s (crew L clients)), steps_refl.
  - intros w th ph Hw _ Hi. destruct (Hidle w th Hw) as [Hp _]. by destruct (Hi None).
  - intros w (th & ns & Hw & Hp). destruct (Hidle w th Hw) as [Hp' _]. congruence.
  - intros Hsh'. simpl in Hsh'. congruence.
  - intros t th Ht. destruct (Hidle t th Ht) as [_ Hh]. intros _.
    by apply crew_lookup in Hh as [[_ ->]|(_ & _ & ->)].
Qed.

Lemma sane_run m es m' : sane m -> Machine.run machine_step m es = Some m' -> sane m'.
Proof.
  intros Hm Hrun%run_steps. eapply (steps_invariant _ sane); [exact Hm| |done].
  intros; by eapply sane_step.
Qed.

(** Threads that are welcome to what they are doing. *)
Definition busy_with (welcome : op -> bool) m : Prop :=
  forall t th o, threads m !! t = Some th -> pc_op (at_pc th) = Some o -> welcome o = true.

(** No thread inside can move, and no worker can start. *)
Definition stuck m : Prop := forall e, internal (pool_account patient) e = true -> machine_step m e = None.

Section stuck.
Context (m : machine) (Hsane : sane m) (Hspare : spare m) (Hstuck : stuck m).
Context (Hown : owned m) (Howner : tidy (pool_account patient) m).

Lemma stuck_quiescent : quiescent m = true.
Proof.
  destruct Hsane as [Hi Hbg Hc _ _].
  destruct (internal_enabled code threads_ (pool_account patient) m Hown Howner) as [|(e & m' & He & Hs)]; [|done|].
  - by apply pool_defined.
  - by rewrite (Hstuck e He) in Hs.
Qed.

(** The workers of the array sleep on [cv]. *)
Lemma stuck_sleeps w :
  w ∈ workers (the_pool (shared m)) ->
  exists th tm o pt, threads m !! w = Some th /\ mode th = OnWorker w Fetching /\ at_pc th = Waiting cv tm o pt.
Proof.
  intros Hin. destruct Hsane as [[HI Hpcs] Hbg _ _ Hr].
  destruct (proj1 (po_members _ _ _ _ HI w) Hin) as (_ & ph & Hmode & Hg).
  apply modes_lookup_inv in Hmode as (th & Hw & Hmode). exists th.
  pose proof (quiescent_still _ _ _ stuck_quiescent Hw) as Hst. pose proof (Hr _ _ Hw) as Hrest.
  pose proof (Hpcs _ _ Hw) as Hok. rewrite Hmode in Hrest, Hok.
  destruct (at_pc th) as [l| | | |c tm o pt|] eqn:Hpc; try done.
  - exfalso. specialize (Hrest eq_refl). destruct ph; try done.
    apply list_elem_of_lookup in Hin as [i Hi]. destruct (po_index _ _ _ _ HI _ _ Hi) as (ob & Hob & _).
    specialize (Hstuck (Invoke w (run w)) eq_refl). simpl in Hstuck. rewrite Hw in Hstuck. simpl in Hstuck.
    unfold step_invoke in Hstuck. rewrite Hpc in Hstuck. simpl in Hstuck.
    rewrite bool_decide_true, bool_decide_true in Hstuck; [done| |done]. by exists ob.
  - exists tm, o, pt. simpl in Hok. destruct o, c, pt; try done. simpl in Hok. injection Hok as <- ->. done.
Qed.

Lemma stuck_shut : shut (the_pool (shared m)) = true -> workers (the_pool (shared m)) = [].
Proof.
  intros Hsh. destruct (workers (the_pool (shared m))) as [|w ws] eqn:Hw; [done|exfalso].
  destruct (stuck_sleeps w) as (th & tm & o & pt & Ht & _ & Hpc); [rewrite Hw; by left|].
  by eapply (sane_dismissed _ Hsane Hsh).
Qed.

(** With somebody awake for every queue that is not empty, the work is done. *)
Lemma stuck_done :
  tasks_ok m -> (task_queue (the_pool (shared m)) <> [] -> exists w, awake m w) ->
  task_queue (the_pool (shared m)) = [] /\
  submitted (the_journal (shared m)) ≡ₚ finished (the_journal (shared m)).
Proof.
  intros [Hf Hh Hr _] Hatt. pose proof Hsane as [[HI _] _ _ _ _].
  destruct (task_queue (the_pool (shared m))) as [|tk q] eqn:Hq.
  - split; [done|]. rewrite Hf, app_nil_r, Hh.
    assert (running (the_journal (shared m)) = ∅) as ->; [|by rewrite map_to_list_empty, app_nil_r].
    apply map_eq. intros w. rewrite lookup_empty. apply eq_None_not_Some. intros [tk Hw].
    destruct (Hr w tk Hw) as (th & ns & Ht & Hpc).
    pose proof (quiescent_still _ _ _ stuck_quiescent Ht) as Hst. by rewrite Hpc in Hst.
  - exfalso. destruct Hatt as (w & Hlt & th & Ht & Hl & Hbl); [done|].
    assert (w ∈ workers (the_pool (shared m))) as Hin.
    { apply (po_members _ _ _ _ HI). split; [done|]. apply modes_lookup in Ht.
      destruct Hl as [Hl|Hl]; rewrite Hl in Ht; by eexists. }
    destruct (stuck_sleeps w Hin) as (th' & tm & o & pt & Ht' & _ & Hpc). simplify_eq.
    by rewrite Hpc in Hbl.
Qed.

(** Clients have returned, or sleep until the pool is terminated. *)
Lemma stuck_client t th :
  threads m !! t = Some th -> mode th = Client ->
  (exists r, at_pc th = Idle r) \/
  exists tm o, at_pc th = Waiting wait_cv tm o at_woken /\ (o = await_termination \/ o = destroy).
Proof.
  intros Ht Hm. pose proof (quiescent_still _ _ _ stuck_quiescent Ht) as Hst.
  destruct Hsane as [[_ Hpcs] _ _ _ _]. pose proof (Hpcs _ _ Ht) as Hok. rewrite Hm in Hok.
  destruct (at_pc th) as [r| | | |c tm o pt|] eqn:Hpc; try done; [left; by exists r|right]. exists tm, o.
  simpl in Hok. destruct o, c, pt; simpl in Hok; try done; (split; [done|]); auto.
Qed.
End stuck.

(** ** Runs of callers who keep to some operations *)

Definition reachable_by (welcome : op -> bool) (n : nat) (clients : gset tid) m : Prop :=
  exists s es, construct L n = Some s /\ Forall (fun e => welcome_event (pool_account welcome) e = true) es /\
    Machine.run machine_step (start s (crew L clients)) es = Some m.

Lemma reachable_by_from welcome n clients m :
  reachable_by welcome n clients m -> reachable_from L max_pool_size n clients m.
Proof. intros (s & es & Hs & _ & Hrun). by exists s, es. Qed.

Lemma reachable_orderly n clients m :
  Z.of_nat n <= cap -> reachable_by patient n clients m ->
  sane m /\ orderly (einv L cap) allowed asleep (pool_account patient) m.
Proof.
  intros Hn (s & es & Hs & Hes & Hrun). split.
  - eapply sane_run; [|exact Hrun]. by apply (sane_start n).
  - destruct (construct_ok L clients cap Hcap n s Hn Hs) as (Hok & _).
    pose proof (executor_safe L max_pool_size cap Hcap Hmax) as Hsafe.
    pose proof (pool_settles patient eq_refl) as Hpays.
    by apply (orderly_reachable code threads_ (einv L cap) allowed asleep (pool_account patient) s (crew L clients) es).
Qed.

(** ** No more tasks *)

Lemma no_insert m e m' :
  busy_with finishing m -> machine_step m e = Some m' ->
  (forall tk, task_queue (the_pool (shared m')) <> task_queue (the_pool (shared m)) ++ [tk]) /\
  submitted (the_journal (shared m')) = submitted (the_journal (shared m)).
Proof.
  intros Hbusy Hstep%step_fires.
  assert (Hsame : forall q : list task, (forall tk, q <> q ++ [tk])).
  { intros q tk Heq%(f_equal length). rewrite length_app in Heq. simpl in Heq. lia. }
  destruct Hstep as [t th last o s en Ht Hpc Hmay Hen|t th o pt b Ht Hpc Ho
    |t th o pt b picks s ns ex ths Ht Hpc Hb Hd|t th n ns o k pick ths Ht Hpc Hd
    |t th o pt s Ht Hpc Hs|e t th q Ht Hmv]; simpl in *; try done.
  - by injection Hen as <- <-.
  - assert (Hfin : finishing o = true) by (apply (Hbusy t th); [done|by rewrite Hpc]).
    apply body_effect in Hb as [tk [-> | ->] _ _ _|w tk _ Hj Hq _|Hj Hq _]; try done; rewrite Hj, Hq; try done.
    split; [|done]. intros tk' Heq%(f_equal length). simpl in Heq. rewrite length_app in Heq. simpl in Heq. lia.
  - by apply outside_effect in Hs as [(? & ? & _ & _ & _ & ->)|[_ ->]].
Qed.

Definition draining m : Prop :=
  sane m /\ orderly (einv L cap) allowed asleep (pool_account finishing) m /\
  (task_queue (the_pool (shared m)) <> [] -> exists w, awake m w).

Lemma draining_run m es m' :
  draining m -> Forall (fun e => welcome_event (pool_account finishing) e = true) es ->
  Machine.run machine_step m es = Some m' ->
  draining m' /\ submitted (the_journal (shared m')) = submitted (the_journal (shared m)).
Proof.
  pose proof (executor_safe L max_pool_size cap Hcap Hmax) as Hsafe.
  pose proof (pool_settles finishing eq_refl) as Hpays.
  intros Hm Hes. revert m Hm. induction Hes as [|e es He Hes IH]; intros m Hm Hrun; simpl in Hrun.
  { by injection Hrun as <-. }
  destruct (machine_step m e) as [m1|] eqn:Hs; simpl in Hrun; [|done].
  destruct Hm as (Hsane & Hord & Hatt).
  assert (busy_with finishing m) as Hbusy.
  { intros t th o Ht. by apply (tidy_ops _ _ (orderly_tidy _ _ _ _ _ Hord) t th). }
  destruct (no_insert m e m1 Hbusy Hs) as [Hno Hsub].
  destruct (IH m1) as [Hd Hsub']; [|done|split; [done|congruence]]. split_and!.
  - by eapply sane_step.
  - by eapply (orderly_step code threads_ (einv L cap)).
  - eapply attended_rest; try done; apply Hsane.
Qed.

(** A test for it: everybody is outside or asleep, and no worker can start. *)
Definition stays_put m (t : tid) (th : worker_thread) : bool :=
  match at_pc th with
  | Idle _ => negb (may_call t (mode th) (shared m) (run t))
  | Waiting _ _ _ _ => true
  | _ => false
  end.

Definition standstill m : bool :=
  bool_decide (map_Forall (fun t th => stays_put m t th = true) (threads m)).

Lemma standstill_stuck m : standstill m = true -> stuck m.
Proof.
  intros Hall%bool_decide_eq_true e He.
  destruct e as [t o|t|t|t picks|t pick|t|t|t]; try done; simpl;
    (destruct (threads m !! t) as [th|] eqn:Ht; simpl; [|done]); specialize (Hall t th Ht); simpl in Hall;
    unfold stays_put in Hall;
    unfold step_invoke, step_acquire, step_exec, step_notify, step_finish;
    destruct (at_pc th); try done; try (by destruct (owner m)).
  destruct o as [| | | | | | | | | |w]; try done.
  destruct (Monitor.may_call threads_ t (mode th) (shared m) (run w)) eqn:Hmay; [|done].
  pose proof Hmay as Hw. simpl in Hw. apply andb_prop in Hw as [[<- _]%bool_decide_eq_true _].
  simpl in Hmay, Hall. by rewrite Hmay in Hall.
Qed.
End settles.
