(* ===== verification/ExecutorFair.v ===== *)
(** * ThreadPoolExecutor: every task is called in the end

    In a fair infinite execution of a pool with a core worker that is not shut
    down, however many tasks the clients keep bringing: a worker that is not
    asleep comes back to the queue within a few events of its own, takes the
    first task if nobody else does, and calls what it has taken. *)

From S2P Require Import Prelude Machine Fairness Monitor MonitorTheory MonitorFair.
From S2P Require Import Executor ExecutorProofs ExecutorTasks ExecutorSettles.

Import Executor.

(** An idle worker thread starts when its object has been built. *)
Definition starts (m : machine) (t : tid) (h : hold) : bool := Monitor.may_call threads_ t h (shared m) (run t).

(** The own events a worker is from taking a task. *)
Definition way (q : pc op point cv_name ret) : nat :=
  match q with
  | Running _ at_done _ => 4
  | Running _ _ _ => 1
  | Wanting _ at_done _ => 5
  | Wanting _ _ _ => 2
  | Idle _ => 3
  | TryWanting _ _ _ => 6
  | Posting ns _ (Again at_done) => 6 + length ns
  | Posting ns _ (Again _) => 3 + length ns
  | Posting ns _ (Return _) => 4 + length ns
  | Waiting _ _ _ _ => 0
  end.

Section fair.
Context (L : nat) (max_pool_size cap : Z) (Hcap : (0 <= cap < 2 ^ 64)%Z) (Hmax : (max_pool_size <= cap)%Z).
Implicit Types (m : machine) (w : wid) (s : shared_state) (tk : task) (e : event op).

Abbreviation code := (the_code L max_pool_size).
Abbreviation inv := (monitor_inv (einv L cap) allowed asleep).
Abbreviation machine_step := (step code threads_).
Abbreviation queue m := (task_queue (the_pool (shared m))).
Abbreviation log m := (the_journal (shared m)).

(** ** One event *)

(** The lists of the journal only grow. *)
Lemma journal_grows m e m' :
  machine_step m e = Some m' ->
  submitted (log m) `prefix_of` submitted (log m') /\ taken (log m) `prefix_of` taken (log m') /\
  (finished (log m) `prefix_of` finished (log m')).
Proof.
  intros Hstep%step_fires.
  destruct Hstep as [t th last o s en Ht Hpc Hmay Hen|t th o pt b Ht Hpc Ho
    |t th o pt b picks s ns ex ths Ht Hpc Hb Hd|t th n ns o k pick ths Ht Hpc Hd
    |t th o pt s Ht Hpc Hs|e t th q Ht Hmv]; simpl in *; try done.
  - by injection Hen as <- <-.
  - apply body_effect in Hb as [tk _ Hj _ _|w tk _ Hj _ _|Hj _ _]; rewrite Hj; simpl; [|split; [done|]|done];
      (split; [|done]); by apply prefix_app_r.
  - apply outside_effect in Hs as [(w & tk & _ & _ & _ & ->)|[_ ->]]; [|done]. simpl.
    split; [done|]. split; [done|]. by apply prefix_app_r.
Qed.

(** A worker calls its task itself. *)
Lemma running_keeps m e m' w tk :
  inv m -> machine_step m e = Some m' -> running (log m) !! w = Some tk -> actor e <> w ->
  running (log m') !! w = Some tk.
Proof.
  intros Hinv Hstep%step_fires Hw Hne. pose proof Hinv as [_ Hpcs].
  destruct Hstep as [t th last o s en Ht Hpc Hmay Hen|t th o pt b Ht Hpc Ho
    |t th o pt b picks s ns ex ths Ht Hpc Hb Hd|t th n ns o k pick ths Ht Hpc Hd
    |t th o pt s Ht Hpc Hs|e t th q Ht Hmv]; simpl in *; try done.
  - by injection Hen as <- <-.
  - apply body_effect in Hb as [tk' _ Hj _ _|v tk' -> Hj _ _|Hj _ _]; rewrite Hj; simpl; try done.
    pose proof (Hpcs _ _ Ht) as Hok. rewrite Hpc in Hok. pose proof (worker_self _ _ _ _ _ _ _ Hinv Ht Hok) as ->.
    by rewrite lookup_insert_ne.
  - pose proof (Hpcs _ _ Ht) as Hok. rewrite Hpc in Hok. simpl in Hok.
    apply outside_effect in Hs as [(v & tk' & -> & -> & _ & ->)|[_ ->]]; [|done]. simpl.
    pose proof (worker_self _ _ _ _ _ _ _ Hinv Ht Hok) as ->. by rewrite lookup_delete_ne.
Qed.

(** The loop takes a task if there is one. *)
Lemma takes w pt b s s' ns ex :
  pt = at_start \/ pt = at_fetch -> shut (the_pool s) = false -> task_queue (the_pool s) <> [] ->
  run_body w pt b s = Some (s', ns, ex) -> length (taken (the_journal s)) < length (taken (the_journal s')).
Proof.
  intros Hpt Hsh Hq Hb. assert (take_task w s = Some (s', ns, ex)) as Ht.
  { destruct Hpt as [-> | ->]; simpl in Hb; unfold loop_body, fetch_start, fetch_body in Hb;
      (destruct (objs _ !! w); simpl in Hb; [|done]); by rewrite ?Hsh, (bool_decide_false _ Hq) in Hb. }
  unfold take_task in Ht. destruct (task_queue (the_pool s)); [done|]. injection Ht as <- _ _. simpl.
  rewrite length_app. simpl. lia.
Qed.

(** An own event of a worker that is awake: it takes a task, or is nearer to
    one. *)
Lemma own_advances m e m' w th :
  inv m -> shut (the_pool (shared m)) = false -> queue m <> [] ->
  threads m !! w = Some th -> on_loop w (mode th) -> blocked_pc (at_pc th) = false ->
  actor e = w -> machine_step m e = Some m' ->
  length (taken (log m)) < length (taken (log m')) \/
  exists th', threads m' !! w = Some th' /\ on_loop w (mode th') /\ blocked_pc (at_pc th') = false /\
    way (at_pc th') < way (at_pc th).
Proof.
  intros Hinv Hsh Hq Hw Hl Hb Ha Hstep%step_fires. pose proof Hinv as [_ Hpcs]. pose proof (Hpcs _ _ Hw) as Hok.
  assert (Hclient : mode th <> Client) by (by destruct Hl as [-> | ->]).
  destruct Hstep as [t tht last o s en Ht Hpc Hmay Hen|t tht o pt b Ht Hpc Ho
    |t tht o pt b picks s ns ex ths Ht Hpc Hbody Hd|t tht n ns o k pick ths Ht Hpc Hd
    |t tht o pt s Ht Hpc Hs|e t tht q Ht Hmv _ Hact]; simpl in *; subst;
    (assert (tht = th) as -> by congruence); try rewrite Hpc in *.
  - right. injection Hen as <- <-. eexists. rewrite lookup_insert_eq. split; [done|]. simpl. split; [done|].
    destruct o as [| | | | | | | | | |v]; simpl in Hmay; try (by apply andb_prop in Hmay as [?%bool_decide_eq_true _]).
    simpl. split; [done|lia].
  - right. eexists. rewrite lookup_insert_eq. split; [done|]. simpl. split; [done|]. split; [done|].
    destruct Hpc as [-> |(r & -> & ->)]; simpl; destruct pt; simpl; lia.
  - simpl in Hok.
    destruct o as [| | | | | | | | | |v]; simpl in Hok; try done; try (by destruct Hclient).
    pose proof (worker_self _ _ _ _ _ _ _ Hinv Ht Hok) as <-.
    destruct pt; simpl in Hok; try done; try (left; eapply takes; [|done|done|exact Hbody]; tauto).
    + right. eexists. rewrite lookup_insert_eq. split; [done|]. simpl in Hbody. injection Hbody as <- <- <-. simpl.
      split; [by left|]. split; [done|lia].
    + by destruct Hl as [Hl|Hl]; rewrite Hl in Hok.
  - right. eexists. rewrite lookup_insert_eq. split; [done|]. simpl. split; [done|]. split; [done|].
    destruct k as [r|[]]; simpl; lia.
  - right. eexists. rewrite lookup_insert_eq. split; [done|]. simpl. split; [done|]. split; [done|].
    destruct pt; simpl; lia.
  - right. eexists. rewrite lookup_insert_eq. split; [done|]. simpl. split; [done|].
    destruct Hmv; simpl in *; try done; split; try done; lia.
Qed.

(** An own event of a worker that has taken a task: it calls the task, or is
    nearer to calling it. *)
Lemma own_calls m e m' w tk th ns :
  inv m -> running (log m) !! w = Some tk -> threads m !! w = Some th -> at_pc th = Posting ns (run w) (Again at_done) ->
  actor e = w -> machine_step m e = Some m' ->
  tk ∈ finished (log m') \/
  running (log m') !! w = Some tk /\ exists th' ns', threads m' !! w = Some th' /\
    at_pc th' = Posting ns' (run w) (Again at_done) /\ length ns' < length ns.
Proof.
  intros Hinv Hr Hw Hq Ha Hstep%step_fires.
  destruct Hstep as [t tht last o s en Ht Hpc Hmay Hen|t tht o pt b Ht Hpc Ho
    |t tht o pt b picks s ns' ex ths Ht Hpc Hbody Hd|t tht n ns' o k pick ths Ht Hpc Hd
    |t tht o pt s Ht Hpc Hs|e t tht q Ht Hmv _ Hact]; simpl in *; subst;
    (assert (tht = th) as -> by congruence); try congruence.
  - destruct Hpc as [Hpc|(? & Hpc & _)]; congruence.
  - rewrite Hpc in Hq. injection Hq as <- -> ->. right. split; [done|]. do 2 eexists. rewrite lookup_insert_eq.
    split; [done|]. simpl. split; [done|lia].
  - rewrite Hpc in Hq. injection Hq as _ -> ->. left. simpl in Hs. rewrite Hr in Hs. simpl in Hs.
    destruct (call_task tk _) as [fs [|e']]; [|done]. injection Hs as <-. simpl. set_solver.
  - rewrite Hq in Hmv. by inversion Hmv.
Qed.

Lemma next_worker_grows m e m' :
  machine_step m e = Some m' -> next_worker (the_pool (shared m)) <= next_worker (the_pool (shared m')).
Proof.
  intros Hstep%step_fires.
  destruct Hstep as [t th last o s en Ht Hpc Hmay Hen|t th o pt b Ht Hpc Ho
    |t th o pt b picks s ns ex ths Ht Hpc Hb Hd|t th n ns o k pick ths Ht Hpc Hd
    |t th o pt s Ht Hpc Hs|e t th q Ht Hmv]; simpl in *; try done.
  - by injection Hen as <- <-.
  - exact (next_mono L max_pool_size _ _ _ _ _ _ _ Hb).
  - by apply outside_effect in Hs as [(? & ? & _ & _ & _ & ->)|[_ ->]].
Qed.

(** A worker that is awake is due. *)
Lemma awake_due m w th :
  sane L cap m -> w < next_worker (the_pool (shared m)) -> threads m !! w = Some th -> on_loop w (mode th) ->
  blocked_pc (at_pc th) = false -> due starts m w = true.
Proof.
  intros [[HI _] _ _ _ Hoff] Hlt Hw Hl Hb. destruct (inside (at_pc th)) eqn:Hin; [by eapply due_inside|].
  destruct (at_pc th) as [last| | | | |] eqn:Hpc; try done.
  assert (mode th = OnWorker w Fetching) as Hm.
  { destruct Hl as [|Hl]; [done|]. pose proof (Hoff _ _ Hw) as Hr. rewrite Hpc, Hl in Hr. by destruct (Hr eq_refl). }
  assert (w ∈ workers (the_pool (shared m))) as [i Hi]%list_elem_of_lookup.
  { apply (po_members _ _ _ _ HI). split; [done|]. apply modes_lookup in Hw. rewrite Hm in Hw. by eexists. }
  destruct (po_index _ _ _ _ HI _ _ Hi) as (ob & Hob & _).
  unfold due. rewrite Hw, Hpc. simpl. unfold starts. simpl. by rewrite Hm, !bool_decide_true by (try by eexists).
Qed.

(** ** Fair executions *)

Section execution.
Context (core_size : nat) (clients : gset tid) (s0 : shared_state) (σ : nat -> machine) (ev : nat -> option (event op)).
Context (Hcore : 0 < core_size) (Hsize : (Z.of_nat core_size <= cap)%Z) (Hs0 : construct L core_size = Some s0).
Context (Hex : execution machine_step (start s0 (crew L clients)) σ ev) (Hfair : fair starts σ ev).
Context (Hopen : forall k, shut (the_pool (shared (σ k))) = false).
Implicit Types (j k : nat).

Lemma reached k : reachable_from L max_pool_size core_size clients (σ k).
Proof. destruct (steps_run _ _ _ (execution_steps _ _ _ _ k Hex)) as [es Hes]. by exists s0, es. Qed.

Lemma sane_at k : sane L cap (σ k).
Proof.
  destruct (reached k) as (s & es & Hs & Hrun). eapply (sane_run L max_pool_size cap Hcap Hmax); [|exact Hrun].
  by eapply (sane_start L max_pool_size cap Hcap Hmax).
Qed.

Lemma tasks_at k : tasks_ok (σ k).
Proof.
  destruct (reached k) as (s & es & Hs & Hrun%run_steps).
  by apply (reachable_tasks L max_pool_size cap Hcap Hmax clients core_size s).
Qed.

Lemma attended_at k : queue (σ k) <> [] -> exists w, awake (σ k) w.
Proof.
  destruct (reachable_queue L max_pool_size cap Hcap Hmax core_size clients (σ k) Hcore Hsize (reached k))
    as (_ & _ & _ & Hatt). by apply Hatt.
Qed.

Lemma grows j k : j <= k ->
  submitted (log (σ j)) `prefix_of` submitted (log (σ k)) /\ taken (log (σ j)) `prefix_of` taken (log (σ k)) /\
  finished (log (σ j)) `prefix_of` finished (log (σ k)) /\
  next_worker (the_pool (shared (σ j))) <= next_worker (the_pool (shared (σ k))).
Proof.
  intros Hle. eapply (as_long_as machine_step _ σ ev (fun m =>
    submitted (log (σ j)) `prefix_of` submitted (log m) /\ taken (log (σ j)) `prefix_of` taken (log m) /\
    finished (log (σ j)) `prefix_of` finished (log m) /\
    next_worker (the_pool (shared (σ j))) <= next_worker (the_pool (shared m))) (fun _ => False) j k Hex Hle);
    [done| |naive_solver].
  intros m e m' (H1 & H2 & H3 & H4) Hstep _. pose proof (next_worker_grows _ _ _ Hstep).
  apply journal_grows in Hstep as (? & ? & ?). split_and!; by etransitivity.
Qed.

Lemma queue_length k : length (submitted (log (σ k))) = length (taken (log (σ k))) + length (queue (σ k)).
Proof. rewrite (tk_fifo _ (tasks_at k)). apply length_app. Qed.

(** Somebody takes the first task. *)
Lemma take_comes b k w th :
  queue (σ k) <> [] -> w < next_worker (the_pool (shared (σ k))) -> threads (σ k) !! w = Some th ->
  on_loop w (mode th) -> blocked_pc (at_pc th) = false -> way (at_pc th) <= b ->
  exists j, k <= j /\ length (taken (log (σ k))) < length (taken (log (σ j))).
Proof.
  revert k th. induction b as [b IH] using lt_wf_ind. intros k th Hq Hlt Hw Hl Hb Hway.
  destruct (next_own code threads_ starts _ σ ev k w th Hex Hfair Hw) as (j & e & Hle & Ha & Hwj & Hstep).
  { by apply (awake_due _ _ th (sane_at k)). }
  destruct (grows k j Hle) as (Hs & Ht & _ & Hn). apply prefix_length in Hs, Ht.
  destruct (decide (length (taken (log (σ k))) < length (taken (log (σ j))))) as [|Hsame]; [by exists j|].
  pose proof (queue_length k). pose proof (queue_length j).
  assert (queue (σ j) <> []) as Hqj.
  { intros Hnil. rewrite Hnil in *. destruct (queue (σ k)); [done|]. simpl in *. lia. }
  destruct (grows j (S j) ltac:(lia)) as (Hs' & Ht' & _ & Hn'). apply prefix_length in Hs', Ht'.
  destruct (own_advances _ _ _ w th (sane_inv _ _ _ (sane_at j)) (Hopen j) Hqj Hwj Hl Hb Ha Hstep)
    as [Htake|(th' & Hw' & Hl' & Hb' & Hway')]; [exists (S j); split; lia|].
  destruct (decide (length (taken (log (σ j))) < length (taken (log (σ (S j)))))) as [|Hsame']; [exists (S j); split; lia|].
  destruct (IH (way (at_pc th')) ltac:(lia) (S j) th') as (i & Hi & Hlen); try done; [|lia|exists i; split; lia].
  intros Hnil. pose proof (queue_length (S j)) as Hl1. rewrite Hnil in Hl1. destruct (queue (σ j)); [done|]. simpl in *. lia.
Qed.

(** So every task is taken, in its turn, *)
Lemma all_taken k i : i < length (submitted (log (σ k))) -> exists j, k <= j /\ i < length (taken (log (σ j))).
Proof.
  intros Hi. remember (S i - length (taken (log (σ k)))) as d eqn:Hd. revert k Hi Hd.
  induction d as [d IH] using lt_wf_ind. intros k Hi Hd.
  destruct (decide (i < length (taken (log (σ k))))) as [|Hno]; [by exists k|].
  assert (queue (σ k) <> []) as Hq.
  { intros Hnil. pose proof (queue_length k) as Hl. rewrite Hnil in Hl. simpl in Hl. lia. }
  destruct (attended_at k Hq) as (w & Hlt & th & Hw & Hl & Hb).
  destruct (take_comes _ k w th Hq Hlt Hw Hl Hb (Nat.le_refl _)) as (j & Hle & Hlen).
  destruct (grows k j Hle) as (Hs & _). apply prefix_length in Hs.
  destruct (IH (S i - length (taken (log (σ j)))) ltac:(lia) j ltac:(lia) eq_refl) as (j' & Hle' & Hj').
  exists j'. split; [lia|done].
Qed.

(** and called by the worker that took it. *)
Lemma posting_called b k w tk th ns :
  running (log (σ k)) !! w = Some tk -> threads (σ k) !! w = Some th -> at_pc th = Posting ns (run w) (Again at_done) ->
  length ns <= b -> exists j, k <= j /\ tk ∈ finished (log (σ j)).
Proof.
  revert k th ns. induction b as [b IH] using lt_wf_ind. intros k th ns Hr Hw Hpc Hlen.
  destruct (next_keeping code threads_ starts (fun m => inv m /\ running (log m) !! w = Some tk) _ σ ev k w th Hex Hfair Hw)
    as (j & e & Hle & Ha & Hwj & [_ Hrj] & Hnext).
  { eapply due_inside; [exact Hw|]. by rewrite Hpc. }
  { split; [apply sane_at|done]. }
  { intros m e m' [Hi Hrm] Hstep Hne. split; [|by eapply running_keeps].
    pose proof (executor_safe L max_pool_size cap Hcap Hmax) as Hsafe. by eapply monitor_inv_step. }
  assert (sane L cap (σ j)) as Hsane by apply sane_at.
  destruct (own_calls _ _ _ w tk th ns (sane_inv _ _ _ Hsane) Hrj Hwj Hpc Ha Hnext)
    as [Hfin|(Hr' & th' & ns' & Hw' & Hpc' & Hlt)]; [exists (S j); split; [lia|done]|].
  destruct (IH (length ns') ltac:(lia) (S j) th' ns' Hr' Hw' Hpc' (Nat.le_refl _)) as (i & Hi & Hf).
  exists i. split; [lia|done].
Qed.

Lemma all_called k tk : tk ∈ submitted (log (σ k)) -> exists j, k <= j /\ tk ∈ finished (log (σ j)).
Proof.
  intros [i Hi]%list_elem_of_lookup. destruct (all_taken k i (lookup_lt_Some _ _ _ Hi)) as (j & Hle & Hlen).
  destruct (grows k j Hle) as (Hs & _). pose proof (prefix_lookup_Some _ _ _ _ Hi Hs) as Hij.
  rewrite (tk_fifo _ (tasks_at j)), lookup_app_l in Hij by done.
  apply list_elem_of_lookup_2 in Hij. rewrite (tk_held _ (tasks_at j)) in Hij.
  apply elem_of_app in Hij as [Hf|Hr]; [by exists j|].
  apply list_elem_of_fmap in Hr as ([w tk'] & -> & Hr%elem_of_map_to_list).
  destruct (tk_running _ (tasks_at j) w _ Hr) as (th & ns & Hw & Hpc).
  destruct (posting_called _ j w tk' th ns Hr Hw Hpc (Nat.le_refl _)) as (i' & Hi' & Hf). exists i'. split; [lia|done].
Qed.
End execution.
End fair.
