(* ===== verification/ExecutorProps.v ===== *)
(** * ThreadPoolExecutor: the properties *)

From S2P Require Import Prelude Machine Fairness Monitor MonitorTheory MonitorDrain MonitorFair.
From S2P Require Import Executor ExecutorProofs ExecutorTasks ExecutorSettles ExecutorFair.

Import Executor.
Local Open Scope Z_scope.

(** ** Helpers *)

(** How many workers execute a task. *)
Definition executing (m : machine) : Z := sumz busy (modes m).

(** Some bound on the size that the counters can hold. *)
Definition sizable (max_pool_size : Z) (n : nat) : Prop := Z.max (Z.of_nat n) max_pool_size < 2 ^ 64.

Lemma sizable_cap max_pool_size n :
  sizable max_pool_size n -> 0 <= Z.max (Z.of_nat n) max_pool_size < 2 ^ 64.
Proof. unfold sizable. lia. Qed.

Lemma results_lookup (tks : list task) k :
  NoDup (number <$> tks) ->
  forall o, results tks !! k = Some o <-> exists tk, tk ∈ tks /\ number tk = k /\ tracked tk = true /\ callable tk = o.
Proof.
  induction tks as [|tk tks IH] using rev_ind; intros Hnd o.
  { split; [done|]. by intros (tk & ?%elem_of_nil & _). }
  rewrite fmap_app in Hnd. apply NoDup_app in Hnd as (Hnd & Hout & _). specialize (IH Hnd o).
  assert (Hfresh : forall u, u ∈ tks -> number u <> number tk).
  { intros u Hu Heq. apply (Hout (number u)); [by apply list_elem_of_fmap_2|]. rewrite Heq. simpl. set_solver. }
  rewrite results_snoc, call_futures. destruct (tracked tk) eqn:Htr.
  - destruct (decide (number tk = k)) as [<-|Hne].
    + rewrite lookup_insert_eq. split.
      * intros [= <-]. exists tk. split; [set_solver|done].
      * intros (u & [Hu| ->%list_elem_of_singleton]%elem_of_app & Hk & _ & <-); [|done].
        by destruct (Hfresh u Hu).
    + rewrite lookup_insert_ne by done. rewrite IH. split.
      * intros (u & Hu & ?). exists u. split; [set_solver|done].
      * intros (u & [Hu| ->%list_elem_of_singleton]%elem_of_app & Hk & ?); [by exists u|done].
  - rewrite IH. split.
    + intros (u & Hu & ?). exists u. split; [set_solver|done].
    + intros (u & [Hu| ->%list_elem_of_singleton]%elem_of_app & Hk & Hu' & ?); [by exists u|congruence].
Qed.

(** ** The properties *)

Section properties.
Context (L : nat) (max_pool_size : Z).
Implicit Types (m : machine).

(** C11: the pool is well formed in every interleaving. The array of workers
    has no duplicates and each worker knows its own index, through every
    swap of [remove_self_locked]; [active_count] is the number of workers
    executing a task; the array never exceeds the larger of the two sizes. *)
Theorem ex_pool n clients m :
  sizable max_pool_size n -> reachable_from L max_pool_size n clients m ->
  let p := the_pool (shared m) in
  NoDup (workers p) /\
  (forall i w, workers p !! i = Some w -> exists o, objs p !! w = Some o /\ worker_index o = i) /\
  active_count p = executing m /\
  0 <= active_count p <= Z.of_nat (length (workers p)) /\
  Z.of_nat (length (workers p)) <= Z.max (Z.of_nat n) max_pool_size.
Proof.
  intros Hsz%sizable_cap (s & es & Hs & Hrun%run_steps).
  destruct (reachable_tasks L max_pool_size (Z.max (Z.of_nat n) max_pool_size) Hsz ltac:(lia)
    clients n s m ltac:(lia) Hs Hrun) as [[HI _] _].
  pose proof (active_range _ _ _ _ HI) as [? ?]. destruct HI. by split_and!.
Qed.

(** C5: no task is lost, duplicated or reordered. What was accepted is, in
    order, what workers took from the queue and what is still in it; what was
    taken is what has been called and what is being called, by one worker
    each, between its two critical sections. *)
Theorem ex_tasks n clients m :
  sizable max_pool_size n -> reachable_from L max_pool_size n clients m ->
  let j := the_journal (shared m) in
  submitted j = taken j ++ task_queue (the_pool (shared m)) /\
  taken j ≡ₚ finished j ++ (map_to_list (running j)).*2 /\
  (forall w tk, running j !! w = Some tk -> at_task m w).
Proof.
  intros Hsz%sizable_cap (s & es & Hs & Hrun%run_steps).
  destruct (reachable_tasks L max_pool_size (Z.max (Z.of_nat n) max_pool_size) Hsz ltac:(lia)
    clients n s m ltac:(lia) Hs Hrun) as [_ [? ? ? ?]]. done.
Qed.

(** The future of a task has what its callable returned or threw once the task
    has been called. *)
Lemma futures_hold n clients m tk :
  sizable max_pool_size n -> reachable_from L max_pool_size n clients m ->
  let j := the_journal (shared m) in
  NoDup (number <$> submitted j) -> tk ∈ submitted j ->
  futures j !! number tk = if bool_decide (tk ∈ finished j) && tracked tk then Some (callable tk) else None.
Proof.
  intros Hsz%sizable_cap (s & es & Hs & Hrun%run_steps) j Hnd Htk.
  destruct (reachable_tasks L max_pool_size (Z.max (Z.of_nat n) max_pool_size) Hsz ltac:(lia)
    clients n s m ltac:(lia) Hs Hrun) as [_ [Hf Hh _ Hu]]. fold j in Hf, Hh, Hu.
  assert (Hall : submitted j ≡ₚ finished j ++ ((map_to_list (running j)).*2 ++ task_queue (the_pool (shared m)))).
  { by rewrite Hf, Hh, <- app_assoc. }
  assert (Hinj : forall u v, u ∈ submitted j -> v ∈ submitted j -> number u = number v -> u = v).
  { intros u v [i Hi]%list_elem_of_lookup [k Hk]%list_elem_of_lookup Heq.
    assert (i = k) as ->; [|congruence]. eapply NoDup_lookup; [exact Hnd| |].
    - rewrite list_lookup_fmap, Hi. done.
    - rewrite list_lookup_fmap, Hk. simpl. by rewrite Heq. }
  assert (Hfin : forall u, u ∈ finished j -> u ∈ submitted j) by (intros u; rewrite Hall; set_solver).
  rewrite Hall, fmap_app in Hnd. apply NoDup_app in Hnd as [Hnd _]. rewrite Hu.
  pose proof (results_lookup (finished j) (number tk) Hnd) as Hres.
  destruct (results (finished j) !! number tk) as [o|] eqn:Ho.
  - destruct (proj1 (Hres o) eq_refl) as (u & Hin & Hn & Htr & <-).
    assert (u = tk) as -> by (apply Hinj; [by apply Hfin|done|done]). by rewrite bool_decide_true, Htr.
  - case_bool_decide as Hin; [|done]. destruct (tracked tk) eqn:Htr; [|done]. simpl.
    apply (Hres (callable tk)). by exists tk.
Qed.

(** With a core worker no task is forgotten. While the pool is not shut
    down and the queue is not empty, some worker of the array is in its loop
    and not asleep: it was notified, or it will look at the queue again when
    its task ends. *)
Lemma ex_queue_attended n clients m :
  sizable max_pool_size n -> (0 < n)%nat -> reachable_from L max_pool_size n clients m ->
  shut (the_pool (shared m)) = false -> task_queue (the_pool (shared m)) <> [] ->
  exists w th, w ∈ workers (the_pool (shared m)) /\ threads m !! w = Some th /\
    on_loop w (mode th) /\ blocked_pc (at_pc th) = false.
Proof.
  intros Hsz%sizable_cap Hn Hr Hsh Hq.
  destruct (reachable_queue L max_pool_size (Z.max (Z.of_nat n) max_pool_size) Hsz ltac:(lia)
    n clients m Hn ltac:(lia) Hr) as ([HI _] & _ & _ & Hatt).
  destruct (Hatt Hsh Hq) as (w & Hlt & th & Hw & Hl & Hb). exists w, th. split_and!; try done.
  apply modes_lookup in Hw. apply (po_members _ _ _ _ HI). split; [done|].
  destruct Hl as [Hl|Hl]; rewrite Hl in Hw; by eexists.
Qed.

(** No lost termination. A thread asleep in [await_termination] (or in
    the destructor) sleeps only while the pool is not terminated: whoever
    terminates it wakes all of them in the same critical section. *)
Lemma ex_await_no_lost_wakeup n clients m t th timed o pt :
  sizable max_pool_size n -> reachable_from L max_pool_size n clients m ->
  threads m !! t = Some th -> at_pc th = Waiting wait_cv timed o pt ->
  is_terminated_locked (the_pool (shared m)) = false.
Proof.
  intros Hsz%sizable_cap Hr Ht Hpc.
  by eapply (reachable_await L max_pool_size (Z.max (Z.of_nat n) max_pool_size) Hsz ltac:(lia) n); [lia|..].
Qed.

(** C10: left alone, the pool works off its queue. After any run of callers
    who do not call [await_termination_until], the threads inside take at most
    [work] steps. Where they can go no further, and a worker thread is to
    spare: a pool with a core worker that is not shut down has an empty queue
    and has called every task it accepted; a pool that is shut down has no
    worker left; and every client has returned, or sleeps waiting for the
    termination of a pool that is not terminated. *)
Theorem ex_settles n clients m es' m' :
  sizable max_pool_size n -> reachable_by L max_pool_size patient n clients m ->
  Forall (fun e => internal (pool_account patient) e = true) es' ->
  Machine.run (step (the_code L max_pool_size) threads_) m es' = Some m' ->
  Z.of_nat (length es') <= work (pool_account patient) m /\
  (stuck L max_pool_size m' -> (next_worker (the_pool (shared m')) < L)%nat ->
   ((0 < n)%nat -> shut (the_pool (shared m')) = false ->
      task_queue (the_pool (shared m')) = [] /\
      submitted (the_journal (shared m')) ≡ₚ finished (the_journal (shared m'))) /\
   (shut (the_pool (shared m')) = true -> workers (the_pool (shared m')) = []) /\
   forall t th, threads m' !! t = Some th -> mode th = Client ->
     (exists r, at_pc th = Idle r) \/
     (exists tm o, at_pc th = Waiting wait_cv tm o at_woken) /\ is_terminated_locked (the_pool (shared m')) = false).
Proof.
  intros Hsz Hr Hint Hrun. pose proof (sizable_cap _ _ Hsz) as Hcap.
  set (cap := Z.max (Z.of_nat n) max_pool_size) in *. assert (Hmax : max_pool_size <= cap) by (unfold cap; lia).
  destruct (reachable_orderly L max_pool_size cap Hcap Hmax n clients m) as [Hsane Hord]; [unfold cap; lia|done|].
  pose proof (executor_safe L max_pool_size cap Hcap Hmax) as Hsafe.
  pose proof (pool_settles L max_pool_size cap patient eq_refl) as Hpays.
  assert (Forall (fun e => internal (pool_account patient) e = true /\ welcome_event (pool_account patient) e = true) es') as Hboth.
  { eapply Forall_impl; [exact Hint|]. intros e He. split; [done|]. destruct e as [t o| | | | | | |]; try done. by destruct o. }
  destruct (monitor_settles _ _ _ _ _ _ m es' m' Hord Hboth Hrun) as [Hl Hord']. split; [done|]. intros Hstuck Hspare.
  pose proof (sane_run L max_pool_size cap Hcap Hmax m es' m' Hsane Hrun) as Hsane'.
  assert (Hreach : reachable_from L max_pool_size n clients m').
  { destruct Hr as (s & es & Hs & _ & Hes). exists s, (es ++ es'). split; [done|]. by rewrite run_app, Hes. }
  destruct Hord' as [_ Hown Htidy]. split_and!.
  - intros Hn Hsh. destruct Hreach as (s & es & Hs & Hes).
    eapply (stuck_done L max_pool_size cap); try done; [by left| |].
    + by eapply (reachable_tasks L max_pool_size cap Hcap Hmax clients n s); [unfold cap; lia| |eapply run_steps].
    + intros Hq. destruct (reachable_queue L max_pool_size cap Hcap Hmax n clients m' Hn) as (_ & _ & _ & Hatt);
        [unfold cap; lia|by exists s, es|]. by apply Hatt.
  - eapply (stuck_shut L max_pool_size cap); try done. by left.
  - intros t th Ht Hm.
    destruct (stuck_client L max_pool_size cap m' Hsane' (or_introl Hspare) Hstuck Hown Htidy t th Ht Hm)
      as [?|(tm & o & Hpc & _)]; [by left|right]. split; [by exists tm, o|].
    by eapply ex_await_no_lost_wakeup.
Qed.

(** C15: a graceful shutdown. Let the pool have a core worker and not be shut
    down, and let no client be inside [submit] or [execute], nor call them (or
    [await_termination_until]) any more. However the threads go on, with
    [shutdown], [await_termination], the destructor, timeouts and spurious
    wake-ups at any moment, where the threads inside can go no further every
    task that was accepted has been called; and if the pool has been shut down
    by then it is terminated and every client has returned. *)
Theorem ex_drains n clients m es' m' :
  sizable max_pool_size n -> (0 < n)%nat -> reachable_by L max_pool_size patient n clients m ->
  shut (the_pool (shared m)) = false -> busy_with finishing m ->
  Forall (fun e => welcome_event (pool_account finishing) e = true) es' ->
  Machine.run (step (the_code L max_pool_size) threads_) m es' = Some m' -> stuck L max_pool_size m' ->
  submitted (the_journal (shared m')) = submitted (the_journal (shared m)) /\
  finished (the_journal (shared m')) ≡ₚ submitted (the_journal (shared m)) /\
  (shut (the_pool (shared m')) = true ->
   is_terminated_locked (the_pool (shared m')) = true /\
   forall t th, threads m' !! t = Some th -> mode th = Client -> exists r, at_pc th = Idle r).
Proof.
  intros Hsz Hn Hr Hsh Hbusy Hes Hrun Hstuck. pose proof (sizable_cap _ _ Hsz) as Hcap.
  set (cap := Z.max (Z.of_nat n) max_pool_size) in *. assert (Hmax : max_pool_size <= cap) by (unfold cap; lia).
  assert (Hle : Z.of_nat n <= cap) by (unfold cap; lia).
  destruct (reachable_orderly L max_pool_size cap Hcap Hmax n clients m Hle Hr) as [Hsane [Hi Hown [Howner _]]].
  destruct (draining_run L max_pool_size cap Hcap Hmax m es' m') as [(Hsane' & [_ Hown' Htidy'] & Hatt) Hsub]; [|done..|].
  { split; [done|]. split; [split; [done|done|]; split; [done|]; intros t th Ht o; by apply (Hbusy t th)|]. intros Hq.
    destruct (reachable_queue L max_pool_size cap Hcap Hmax n clients m Hn Hle) as (_ & _ & _ & Hatt);
      [by eapply reachable_by_from|]. by apply Hatt. }
  assert (Hspare : spare L m').
  { right. intros t th tk pt b Ht. split; intros Hpc; pose proof (tidy_ops _ _ Htidy' t th Ht) as He;
      rewrite Hpc in He; by specialize (He _ eq_refl). }
  assert (Htidy : tidy (pool_account patient) m').
  { split; [apply Htidy'|]. intros t th Ht o Ho. pose proof (tidy_ops _ _ Htidy' t th Ht o Ho) as He. by destruct o. }
  assert (Hreach : reachable_from L max_pool_size n clients m').
  { destruct Hr as (s & es & Hs & _ & Hes0). exists s, (es ++ es'). split; [done|]. by rewrite run_app, Hes0. }
  destruct (stuck_done L max_pool_size cap m' Hsane' Hspare Hstuck Hown' Htidy) as [Hq Hperm]; [|done|].
  { destruct Hreach as (s & es & Hs & Hes0).
    by eapply (reachable_tasks L max_pool_size cap Hcap Hmax clients n s); [| |eapply run_steps]. }
  rewrite <- Hsub. split; [done|]. split; [by symmetry|]. intros Hsh'.
  assert (Hterm : is_terminated_locked (the_pool (shared m')) = true).
  { unfold is_terminated_locked.
    by rewrite Hsh', Hq, (stuck_shut L max_pool_size cap m' Hsane' Hspare Hstuck Hown' Htidy Hsh'). }
  split; [done|]. intros t th Ht Hm.
  destruct (stuck_client L max_pool_size cap m' Hsane' Hspare Hstuck Hown' Htidy t th Ht Hm)
    as [?|(tm & o & Hpc & _)]; [done|].
  assert (is_terminated_locked (the_pool (shared m')) = false); [|congruence].
  by eapply ex_await_no_lost_wakeup.
Qed.

(** C16: every task is called in the end. In a fair infinite execution of a pool
    with a core worker that is not shut down, each accepted task is called, no
    matter how many tasks the clients keep bringing, and its future then has
    what its callable returned or threw. Fair: every thread that is inside a
    method and not in a wait moves in the end, the mutex included, and the
    threads of new workers start; no timeout and no spurious wake-up is
    needed. *)
Theorem ex_every_task_called n clients s0 (σ : nat -> machine) (ev : nat -> option (event op)) k tk :
  sizable max_pool_size n -> (0 < n)%nat -> construct L n = Some s0 ->
  execution (step (the_code L max_pool_size) threads_) (start s0 (crew L clients)) σ ev -> fair starts σ ev ->
  (forall i, shut (the_pool (shared (σ i))) = false) ->
  tk ∈ submitted (the_journal (shared (σ k))) ->
  exists i, (k <= i)%nat /\ tk ∈ finished (the_journal (shared (σ i))) /\
    (NoDup (number <$> submitted (the_journal (shared (σ i)))) -> tracked tk = true ->
     futures (the_journal (shared (σ i))) !! number tk = Some (callable tk)).
Proof.
  intros Hsz Hn Hs Hex Hfair Hopen Hin. pose proof (sizable_cap _ _ Hsz) as Hcap.
  assert (max_pool_size <= Z.max (Z.of_nat n) max_pool_size) as Hmax by lia.
  assert (Z.of_nat n <= Z.max (Z.of_nat n) max_pool_size) as Hle by lia.
  destruct (all_called L max_pool_size _ Hcap Hmax n clients s0 σ ev Hn Hle Hs Hex Hfair Hopen k tk Hin) as (i & Hi & Hf).
  exists i. split; [done|]. split; [done|]. intros Hnd Htr.
  assert (tk ∈ submitted (the_journal (shared (σ i)))) as Hsub.
  { destruct (grows L max_pool_size clients s0 σ ev Hex k i Hi) as (Hp & _).
    destruct Hp as [more ->]. set_solver. }
  pose proof (reached L max_pool_size n clients s0 σ ev Hs Hex i) as Hr.
  pose proof (futures_hold n clients (σ i) tk Hsz Hr Hnd Hsub) as Hv. simpl in Hv.
  by rewrite bool_decide_true, Htr in Hv.
Qed.

(** C39: [await_termination_until] on a pool that has not terminated locks
    [main_lock], then calls [is_terminated] in the predicate of its wait and
    locks it again: it never returns, and no other thread ever gets the lock. *)
Theorem ex_await_until_deadlocks n clients m t th :
  reachable_from L max_pool_size n clients m ->
  threads m !! t = Some th -> at_pc th = Running await_termination_until at_second false ->
  is_terminated_locked (the_pool (shared m)) = false ->
  exists m1, step (the_code L max_pool_size) threads_ m (Exec t []) = Some m1 /\
    forall m2, steps (step (the_code L max_pool_size) threads_) m1 m2 -> wedged m2 t.
Proof.
  intros (s & es & Hs & Hrun%run_steps) Ht Hpc Hnt.
  assert (exists m1, step (the_code L max_pool_size) threads_ m (Exec t []) = Some m1 /\
    m1 = mkState (shared m) (Some t) (<[t := mkThread (mode th) (Wanting await_termination_until at_woken false)]> (threads m)))
    as (m1 & Hs1 & Hm1).
  { simpl. rewrite Ht. simpl. unfold step_exec. rewrite Hpc. simpl. rewrite Hnt. simpl. by eexists. }
  exists m1. split; [done|]. intros m2 Hm2. eapply wedged_forever; [|exact Hm2].
  split; [eapply owned_step; [|exact Hs1]; by eapply owned_reachable|].
  rewrite Hm1. split; [done|]. do 4 eexists. simpl. by rewrite lookup_insert_eq.
Qed.
End properties.

(** ** Concrete runs *)

(** A pool with [n] core workers, and a schedule. *)
Definition launch (L : nat) (max_pool_size : Z) (n : nat) (clients : gset tid) (es : list (event op)) : option machine :=
  s ← construct L n; Machine.run (step (the_code L max_pool_size) threads_) (start s (crew L clients)) es.

Lemma launch_reachable L max_pool_size n clients es m :
  launch L max_pool_size n clients es = Some m -> reachable_from L max_pool_size n clients m.
Proof.
  unfold launch. destruct (construct L n) as [s|] eqn:Hs; [|done]. intros Hr. by exists s, es.
Qed.

Lemma launch_patient L max_pool_size n clients es m :
  launch L max_pool_size n clients es = Some m ->
  Forall (fun e => welcome_event (pool_account patient) e = true) es -> reachable_by L max_pool_size patient n clients m.
Proof.
  unfold launch. destruct (construct L n) as [s|] eqn:Hs; [|done]. intros Hr Hes. by exists s, es.
Qed.

Abbreviation stage m := (workers (the_pool (shared m)), task_queue (the_pool (shared m)), shut (the_pool (shared m))).

(** Without core workers a task can be lost: the only worker has timed out
    and is leaving when the second task comes, so it counts as idle and no
    worker is added; after it has left, nobody takes the task, and who awaits
    termination sleeps for ever. *)
Definition first_task : task := mkTask 1 true (Returns 5).
Definition second_task : task := mkTask 2 true (Returns 6).

Definition stranding : list (event op) :=
  [Invoke 10%nat (submit first_task); Acquire 10%nat; Exec 10%nat [None]; Finish 10%nat;
   Invoke 0%nat (run 0%nat); Acquire 0%nat; Exec 0%nat []; Finish 0%nat;
   Acquire 0%nat; Exec 0%nat []; Finish 0%nat;
   Acquire 0%nat; Exec 0%nat []; Timeout 0%nat; Acquire 0%nat; Exec 0%nat []; Finish 0%nat;
   Invoke 10%nat (submit second_task); Acquire 10%nat; Exec 10%nat [None]; Finish 10%nat;
   Acquire 0%nat; Exec 0%nat []; Finish 0%nat;
   Invoke 10%nat shutdown; Acquire 10%nat; Exec 10%nat []; Finish 10%nat;
   Invoke 11%nat await_termination; Acquire 11%nat; Exec 11%nat []; Finish 11%nat;
   Acquire 11%nat; Exec 11%nat []].

Definition at_rest (q : pc op point cv_name ret) : bool :=
  match q with Idle _ | Waiting wait_cv false _ _ => true | _ => false end.

(** A pool without core workers can strand an accepted task: no worker is
    left, one task is queued, every thread is idle or asleep, and
    [await_termination] has no one to wake it. *)
Theorem ex_strands_without_core :
  exists m, launch 3 1 0 {[ 10%nat; 11%nat ]} stranding = Some m /\
    stage m = ([], [second_task], true) /\
    at_pc <$> threads m !! 11%nat = Some (Waiting wait_cv false await_termination at_woken) /\
    map_Forall (fun _ th => at_rest (at_pc th) = true) (threads m).
Proof. evaluates. Qed.

(** Termination is not final. [submit] tests [shut] before it locks: a
    pool that has reported [is_terminated] accepts the task and is not
    terminated any more. *)
Theorem ex_termination_unstable :
  exists m, launch 3 1 1 {[ 10%nat; 11%nat ]}
      [Invoke 10%nat (submit first_task);
       Invoke 11%nat shutdown; Acquire 11%nat; Exec 11%nat []; Finish 11%nat;
       Invoke 0%nat (run 0%nat); Acquire 0%nat; Exec 0%nat []; Finish 0%nat; Acquire 0%nat; Exec 0%nat []; Finish 0%nat;
       Invoke 11%nat is_terminated; Acquire 11%nat; Exec 11%nat []; Finish 11%nat;
       Acquire 10%nat; Exec 10%nat [None]; Finish 10%nat] = Some m /\
    at_pc <$> threads m !! 11%nat = Some (Idle (Some (Bool true))) /\
    at_pc <$> threads m !! 10%nat = Some (Idle (Some Void)) /\
    is_terminated_locked (the_pool (shared m)) = false /\ stage m = ([1%nat], [first_task], true).
Proof. evaluates. Qed.

(** A core worker sleeps; a task wakes it; it takes the task; another client
    brings a task and a second worker. *)
Definition woken_core : list (event op) :=
  [Invoke 0%nat (run 0%nat); Acquire 0%nat; Exec 0%nat [];
   Invoke 10%nat (submit first_task); Acquire 10%nat; Exec 10%nat [Some 0%nat]; Finish 10%nat].
Definition busy_core : list (event op) :=
  woken_core ++ [Acquire 0%nat; Exec 0%nat []; Invoke 11%nat (submit second_task); Acquire 11%nat; Exec 11%nat [None]; Finish 11%nat].

Lemma sizable_small : sizable 2 1.
Proof. reflexivity. Qed.

Lemma ex_pool_witness :
  exists m, launch 3 2 1 {[ 10%nat; 11%nat ]} busy_core = Some m /\ stage m = ([0%nat; 1%nat], [second_task], false) /\
    active_count (the_pool (shared m)) = executing m.
Proof.
  reach (launch 3 2 1 {[ 10%nat; 11%nat ]} busy_core)
    with (fun m : machine => stage m = ([0%nat; 1%nat], [second_task], false)) as m Hrun Hm.
  exists m. split; [exact Hrun|]. split; [exact Hm|].
  apply (ex_pool 3 2 1 _ m sizable_small (launch_reachable _ _ _ _ _ _ Hrun)).
Defined.

Lemma ex_tasks_witness :
  exists m, launch 3 2 1 {[ 10%nat; 11%nat ]} busy_core = Some m /\ stage m = ([0%nat; 1%nat], [second_task], false) /\
    submitted (the_journal (shared m)) = taken (the_journal (shared m)) ++ task_queue (the_pool (shared m)).
Proof.
  reach (launch 3 2 1 {[ 10%nat; 11%nat ]} busy_core)
    with (fun m : machine => stage m = ([0%nat; 1%nat], [second_task], false)) as m Hrun Hm.
  exists m. split; [exact Hrun|]. split; [exact Hm|].
  apply (ex_tasks 3 2 1 _ m sizable_small (launch_reachable _ _ _ _ _ _ Hrun)).
Defined.

(** Worker 0 takes the task, calls it and goes back to sleep. *)
Definition round : list (event op) :=
  [Acquire 0%nat; Exec 0%nat []; Finish 0%nat; Acquire 0%nat; Exec 0%nat []; Finish 0%nat].
Definition work_off : list (event op) := round ++ [Acquire 0%nat; Exec 0%nat []].

Definition outcome_of (m : machine) : bool * list task * list task :=
  (standstill m && bool_decide (next_worker (the_pool (shared m)) < 3)%nat,
   submitted (the_journal (shared m)), finished (the_journal (shared m))).

Lemma ex_settles_witness :
  exists m m', launch 3 2 1 {[ 10%nat; 11%nat ]} woken_core = Some m /\
    Machine.run (step (the_code 3 2) threads_) m work_off = Some m' /\
    (work (pool_account patient) m, stage m', outcome_of m') =
      (156, ([0%nat], [], false), (true, [first_task], [first_task])) /\
    Z.of_nat (length work_off) <= work (pool_account patient) m /\
    task_queue (the_pool (shared m')) = [] /\
    submitted (the_journal (shared m')) ≡ₚ finished (the_journal (shared m')).
Proof.
  reach (launch 3 2 1 {[ 10%nat; 11%nat ]} woken_core)
    with (fun m : machine => (fun m' : machine => (work (pool_account patient) m, stage m', outcome_of m')) <$>
      Machine.run (step (the_code 3 2) threads_) m work_off =
      Some (156, ([0%nat], [], false), (true, [first_task], [first_task]))) as m Hrun Hm.
  apply fmap_Some in Hm as (m' & Hrun' & Hm'). exists m, m'. symmetry in Hm'.
  split_and!; [exact Hrun|exact Hrun'|exact Hm'|..]; injection Hm' as _ _ _ Hsh Hend _ _;
    apply andb_prop in Hend as [Hst%(standstill_stuck 3 2) Hspare%bool_decide_eq_true];
    assert (Hint : Forall (fun e => internal (pool_account patient) e = true) work_off) by (repeat constructor);
    assert (Hr : reachable_by 3 2 patient 1 {[ 10%nat; 11%nat ]} m)
      by (apply (launch_patient _ _ _ _ _ _ Hrun); repeat constructor);
    destruct (ex_settles 3 2 1 _ m work_off m' sizable_small Hr Hint Hrun') as [Hl Hrest].
  - exact Hl.
  - apply (Hrest Hst Hspare); [lia|exact Hsh].
  - apply (Hrest Hst Hspare); [lia|exact Hsh].
Defined.

(** Client 11 shuts the pool down and waits; worker 0 calls the queued task,
    leaves and wakes it. *)
Definition graceful : list (event op) :=
  [Invoke 11%nat shutdown; Acquire 11%nat; Exec 11%nat []; Finish 11%nat;
   Invoke 11%nat await_termination; Acquire 11%nat; Exec 11%nat []; Finish 11%nat; Acquire 11%nat; Exec 11%nat []] ++
  round ++ [Acquire 0%nat; Exec 0%nat []; Finish 0%nat; Acquire 0%nat; Exec 0%nat []; Finish 0%nat;
   Acquire 11%nat; Exec 11%nat []; Finish 11%nat].

Definition nobody_submits (m : machine) : bool :=
  bool_decide (map_Forall (fun _ th => default true (finishing <$> pc_op (at_pc th)) = true) (threads m)).

Lemma nobody_submits_busy m : nobody_submits m = true -> busy_with finishing m.
Proof.
  intros Hall%bool_decide_eq_true t th o Ht Ho. specialize (Hall t th Ht). simpl in Hall. by rewrite Ho in Hall.
Qed.

Lemma ex_drains_witness :
  exists m m', launch 3 2 1 {[ 10%nat; 11%nat ]} woken_core = Some m /\
    Machine.run (step (the_code 3 2) threads_) m graceful = Some m' /\
    (nobody_submits m, stage m', outcome_of m') = (true, ([], [], true), (true, [first_task], [first_task])) /\
    submitted (the_journal (shared m')) = submitted (the_journal (shared m)) /\
    is_terminated_locked (the_pool (shared m')) = true.
Proof.
  reach (launch 3 2 1 {[ 10%nat; 11%nat ]} woken_core)
    with (fun m : machine => shut (the_pool (shared m)) = false /\
      (fun m' : machine => (nobody_submits m, stage m', outcome_of m')) <$>
      Machine.run (step (the_code 3 2) threads_) m graceful =
      Some (true, ([], [], true), (true, [first_task], [first_task]))) as m Hrun Hm.
  destruct Hm as [Hopen Hm]. apply fmap_Some in Hm as (m' & Hrun' & Hm'). exists m, m'. symmetry in Hm'.
  split_and!; [exact Hrun|exact Hrun'|exact Hm'|..]; injection Hm' as Hbusy _ _ Hsh Hend _ _;
    apply andb_prop in Hend as [Hst%(standstill_stuck 3 2) _]; apply nobody_submits_busy in Hbusy;
    assert (Hes : Forall (fun e => welcome_event (pool_account finishing) e = true) graceful) by (repeat constructor);
    assert (Hr : reachable_by 3 2 patient 1 {[ 10%nat; 11%nat ]} m)
      by (apply (launch_patient _ _ _ _ _ _ Hrun); repeat constructor);
    destruct (ex_drains 3 2 1 _ m graceful m' sizable_small Nat.lt_0_1 Hr Hopen Hbusy Hes Hrun' Hst) as (Hs & _ & Hend).
  - exact Hs.
  - apply (Hend Hsh).
Defined.

(** A client waits for the termination, with a deadline. *)
Definition awaiting_until : list (event op) :=
  [Invoke 11%nat await_termination_until; Acquire 11%nat; Exec 11%nat []; Finish 11%nat; Acquire 11%nat].

Lemma ex_await_until_deadlocks_witness :
  exists m, launch 3 2 1 {[ 10%nat; 11%nat ]} awaiting_until = Some m /\
    (threads m !! 11%nat = Some (mkThread Client (Running await_termination_until at_second false)) /\
     is_terminated_locked (the_pool (shared m)) = false) /\
    exists m1, step (the_code 3 2) threads_ m (Exec 11%nat []) = Some m1 /\
      forall m2, steps (step (the_code 3 2) threads_) m1 m2 -> wedged m2 11%nat.
Proof.
  reach (launch 3 2 1 {[ 10%nat; 11%nat ]} awaiting_until)
    with (fun m : machine => threads m !! 11%nat = Some (mkThread Client (Running await_termination_until at_second false)) /\
      is_terminated_locked (the_pool (shared m)) = false) as m Hrun Hm.
  exists m. split; [exact Hrun|]. split; [exact Hm|].
  apply (ex_await_until_deadlocks 3 2 1 _ m _ _ (launch_reachable _ _ _ _ _ _ Hrun) (proj1 Hm) eq_refl (proj2 Hm)).
Defined.

(** Worker 0 calls both tasks and goes to sleep; worker 1 finds nothing. *)
Definition both_called : list (event op) :=
  busy_core ++ [Finish 0%nat; Acquire 0%nat; Exec 0%nat []; Finish 0%nat] ++ round ++
  [Acquire 0%nat; Exec 0%nat []; Invoke 1%nat (run 1%nat); Acquire 1%nat; Exec 1%nat []].

Definition always_open (s0 : machine) (es : list (event op)) : bool :=
  forallb (fun n => negb (shut (the_pool (shared (visited (step (the_code 3 2) threads_) s0 es n))))) (seq 0 (1 + length es)).

Lemma always_open_at s0 es k :
  always_open s0 es = true -> shut (the_pool (shared (visited (step (the_code 3 2) threads_) s0 es k))) = false.
Proof.
  intros Hall. unfold always_open in Hall. rewrite forallb_forall in Hall. apply negb_true_iff.
  destruct (Nat.le_gt_cases k (length es)).
  - apply Hall, list_elem_of_In, elem_of_seq. lia.
  - assert (visited (step (the_code 3 2) threads_) s0 es k = visited (step (the_code 3 2) threads_) s0 es (length es)) as ->
      by (unfold visited; by rewrite !take_ge by lia).
    apply Hall, list_elem_of_In, elem_of_seq. lia.
Qed.

Lemma ex_every_task_called_witness :
  exists s0 σ ev i, construct 3 1 = Some s0 /\
    execution (step (the_code 3 2) threads_) (start s0 (crew 3 {[ 10%nat; 11%nat ]})) σ ev /\ fair starts σ ev /\
    (forall i, shut (the_pool (shared (σ i))) = false) /\
    second_task ∈ submitted (the_journal (shared (σ 14%nat))) /\
    (14 <= i)%nat /\ second_task ∈ finished (the_journal (shared (σ i))).
Proof.
  destruct (construct 3 1) as [s0|] eqn:Hs; [|done].
  set (st := start s0 (crew 3 {[ 10%nat; 11%nat ]}) : machine).
  vm_compute in Hs. injection Hs as Hs.
  assert (exists m, Machine.run (step (the_code 3 2) threads_) st both_called = Some m) as [m Hrun].
  { subst s0. eexists. vm_compute. reflexivity. }
  assert (settled (the_code 3 2) threads_ starts st both_called = true) as Hset by (subst s0; vm_compute; reflexivity).
  assert (always_open st both_called = true) as Hopen by (subst s0; vm_compute; reflexivity).
  assert (second_task ∈ submitted (the_journal (shared (visited (step (the_code 3 2) threads_) st both_called 14)))) as Hin
    by (subst s0; apply (bool_decide_unpack _); vm_compute; reflexivity).
  pose proof (finite_execution _ _ _ _ Hrun) as Hex. pose proof (finite_fair _ _ _ _ _ Hset) as Hfair.
  pose proof (fun k => always_open_at st both_called k Hopen) as Hsh.
  assert (construct 3 1 = Some s0) as Hs0 by (subst s0; reflexivity).
  destruct (ex_every_task_called 3 2 1 _ s0 _ _ 14 second_task sizable_small Nat.lt_0_1 Hs0 Hex Hfair Hsh Hin)
    as (i & Hi & Hf & _).
  exists s0. do 2 eexists. exists i. split_and!; [reflexivity|exact Hex|exact Hfair|exact Hsh|exact Hin|exact Hi|exact Hf].
Defined.
