(* ===== verification/SharedLock.v ===== *)
(** * concurrency/shared_mutex.h: SharedLock

    The lock objects of one thread and the calls they make on the mutexes they
    point to.  The mutex is a template parameter of the class: of each call the
    model keeps the operation of the SharedTimedMutex concept and the reply. *)

From S2P Require Import Prelude Machine RWLock.

Module SharedLock.
Local Open Scope Z_scope.

Abbreviation lid := nat.
Abbreviation mid := nat.

Record SharedLock := mkLock { mtx : option mid; owns : bool }.

#[export] Instance lock_eq_dec : EqDecision SharedLock.
Proof. solve_decision. Defined.

(** A call on a mutex and what it returned. *)
Record call := mkCall { on : mid; called : RW.op; reply : RW.ret }.

(** The live objects, the calls made so far, and, for specification, the
    shared ownerships the thread holds outside any object: taken by a call of
    its own or given up by [release()], not adopted yet. *)
Record world := mkWorld { locks : gmap lid SharedLock; calls : list call; loose : gmap mid Z }.

Definition put (l : lid) (k : SharedLock) (w : world) : world :=
  mkWorld (<[l := k]> (locks w)) (calls w) (loose w).
Definition drop (l : lid) (w : world) : world := mkWorld (delete l (locks w)) (calls w) (loose w).
Definition make_call (m : mid) (o : RW.op) (r : RW.ret) (w : world) : world :=
  mkWorld (locks w) (calls w ++ [mkCall m o r]) (loose w).

Definition loose_on (w : world) (m : mid) : Z := default 0 (loose w !! m).
Definition add_loose (m : mid) (n : Z) (w : world) : world :=
  mkWorld (locks w) (calls w) (<[m := loose_on w m + n]> (loose w)).

(** ** The class *)

(** Which constructor; [b] is the reply of the mutex. *)
Inductive ctor :=
| Default | Locking (m : mid) | Defer (m : mid) | Try (m : mid) (b : bool) | Adopt (m : mid)
| For (m : mid) (b : bool) | Until (m : mid) (b : bool) | Move (rhs : lid).

Inductive op :=
| New (l : lid) (c : ctor)
| Destroy (l : lid)
| MoveAssign (l rhs : lid)
| Lock (l : lid) | Unlock (l : lid)
| TryLock (l : lid) (b : bool) | TryLockFor (l : lid) (b : bool) | TryLockUntil (l : lid) (b : bool)
| Swap (l rhs : lid)
| Release (l : lid)
| Own (m : mid) (o : RW.op) (r : RW.ret).   (** the thread calls the mutex itself *)

Definition swap (l rhs : lid) (w : world) : option world :=
  a ← locks w !! l; b ← locks w !! rhs; Some (put l b (put rhs a w)).

Definition construct (c : ctor) (w : world) : option (SharedLock * world) :=
  match c with
  | Default => Some (mkLock None false, w)
  | Locking m => Some (mkLock (Some m) true, make_call m RW.lock_shared RW.Void w)
  | Defer m => Some (mkLock (Some m) false, w)
  | Try m b => Some (mkLock (Some m) b, make_call m RW.try_lock_shared (RW.Bool b) w)
  | Adopt m => Some (mkLock (Some m) true, add_loose m (-1) w)
  | For m b | Until m b => Some (mkLock (Some m) b, make_call m RW.try_lock_shared_until (RW.Bool b) w)
  | Move rhs =>
      (* default-constructed, then swapped *)
      k ← locks w !! rhs; Some (k, put rhs (mkLock None false) w)
  end.

(** [if (owns) mtx->unlock_shared();] *)
Definition destruct_ (k : SharedLock) (w : world) : option world :=
  if owns k then m ← mtx k; Some (make_call m RW.unlock_shared RW.Void w) else Some w.

(** [SharedLock tmp(std::move(rhs)); tmp.swap( *this);] and the end of [tmp]. *)
Definition move_assign (l rhs : lid) (w : world) : option world :=
  '(tmp, w) ← construct (Move rhs) w;
  this ← locks w !! l;
  destruct_ this (put l tmp w).

Definition lock (l : lid) (w : world) : option world :=
  k ← locks w !! l; m ← mtx k;
  Some (put l (mkLock (Some m) true) (make_call m RW.lock_shared RW.Void w)).

Definition unlock (l : lid) (w : world) : option world :=
  k ← locks w !! l; m ← mtx k;
  Some (put l (mkLock (Some m) false) (make_call m RW.unlock_shared RW.Void w)).

(** [owns = mtx->o(...); return owns;] *)
Definition try_lock_by (o : RW.op) (l : lid) (b : bool) (w : world) : option world :=
  k ← locks w !! l; m ← mtx k;
  Some (put l (mkLock (Some m) b) (make_call m o (RW.Bool b) w)).

Definition try_lock := try_lock_by RW.try_lock_shared.
Definition try_lock_for := try_lock_by RW.try_lock_shared_until.
Definition try_lock_until := try_lock_by RW.try_lock_shared_until.

(** [release()] gives the pointer, and the ownership, to the caller. *)
Definition release (l : lid) (w : world) : option (world * option mid) :=
  k ← locks w !! l;
  let w := match mtx k with Some m => if owns k then add_loose m 1 w else w | None => w end in
  Some (put l (mkLock None false) w, mtx k).

Definition owns_lock (l : lid) (w : world) : option bool := owns <$> locks w !! l.
Definition mutex (l : lid) (w : world) : option (option mid) := mtx <$> locks w !! l.

(** Ownership gained by a call. *)
Definition gain (o : RW.op) (r : RW.ret) : Z :=
  match o, r with
  | RW.lock_shared, _ | (RW.try_lock_shared | RW.try_lock_shared_until), RW.Bool true => 1
  | RW.unlock_shared, _ => -1
  | _, _ => 0
  end.

Definition exec (w : world) (o : op) : option world :=
  match o with
  | New l c =>
      match locks w !! l with
      | Some _ => None
      | None => '(k, w) ← construct c w; Some (put l k w)
      end
  | Destroy l => k ← locks w !! l; w ← destruct_ k w; Some (drop l w)
  | MoveAssign l rhs => move_assign l rhs w
  | Lock l => lock l w
  | Unlock l => unlock l w
  | TryLock l b => try_lock l b w
  | TryLockFor l b => try_lock_for l b w
  | TryLockUntil l b => try_lock_until l b w
  | Swap l rhs => swap l rhs w
  | Release l => '(w, _) ← release l w; Some w
  | Own m o r => Some (add_loose m (gain o r) (make_call m o r w))
  end.

Definition empty_world : world := mkWorld ∅ [] ∅.

(** ** What it promises *)

(** Shared ownerships of [m] the thread has, by its calls. *)
Definition balance (m : mid) (cs : list call) : Z :=
  foldr (fun c n => (if decide (on c = m) then gain (called c) (reply c) else 0) + n) 0 cs.
Definition held (w : world) (m : mid) : Z := balance m (calls w).

(** Ownerships the objects claim. *)
Definition claim (m : mid) (k : SharedLock) : Z := if decide (owns k = true /\ mtx k = Some m) then 1 else 0.
Definition claimed (w : world) (m : mid) : Z := sumz (claim m) (locks w).

(** The mode of the thread on [m], and calls within the contract of the
    concept: each finds the mode it requires. *)
Definition step_mode (m : mid) (h : RW.hold) (c : call) : RW.hold :=
  if decide (on c = m) then RW.after (called c) (reply c) else h.
Definition mode_on (m : mid) (cs : list call) : RW.hold := foldl (step_mode m) RW.Free cs.

Inductive in_contract : list call -> Prop :=
| no_call : in_contract []
| one_more cs c : in_contract cs -> mode_on (on c) cs = RW.required (called c) -> in_contract (cs ++ [c]).

(** How the objects are to be used: a lock is taken only on a mutex the
    thread does not own and through an object that does not own; [unlock] of
    what is owned; [adopt_lock] of an ownership the thread holds itself. *)
Definition free_on (w : world) (m : mid) : bool := bool_decide (held w m = 0).

Definition may_lock (w : world) (l : lid) : bool :=
  match locks w !! l with
  | Some (mkLock (Some m) false) => free_on w m
  | _ => false
  end.

Definition alive (w : world) (l : lid) : bool := bool_decide (is_Some (locks w !! l)).

Definition lawful (w : world) (o : op) : bool :=
  match o with
  | New l c => negb (alive w l) &&
      match c with
      | Default | Defer _ => true
      | Locking m | Try m _ | For m _ | Until m _ => free_on w m
      | Adopt m => bool_decide (0 < loose_on w m)
      | Move rhs => alive w rhs
      end
  | Destroy l | Release l => alive w l
  | MoveAssign l rhs | Swap l rhs => alive w l && alive w rhs
  | Lock l | TryLock l _ | TryLockFor l _ | TryLockUntil l _ => may_lock w l
  | Unlock l => match locks w !! l with Some (mkLock (Some _) b) => b | _ => false end
  | Own m RW.lock_shared RW.Void => free_on w m
  | Own m (RW.try_lock_shared | RW.try_lock_shared_until) (RW.Bool _) => free_on w m
  | Own m RW.unlock_shared RW.Void => bool_decide (0 < loose_on w m)
  | Own _ _ _ => false
  end.

Fixpoint lawful_run (w : world) (os : list op) : option world :=
  match os with
  | [] => Some w
  | o :: os => if lawful w o then w ← exec w o; lawful_run w os else None
  end.
End SharedLock.
