(* ===== verification/SharedLockProofs.v ===== *)
(** * SharedLock: the books balance

    Every shared ownership the thread has on a mutex is claimed by exactly one
    object or held by the thread itself, and the calls of the objects stay
    within the contract of the mutex. *)

From S2P Require Import Prelude Machine RWLock SharedLock.

Import SharedLock.
Local Open Scope Z_scope.

Implicit Types (w : world) (l : lid) (m : mid) (k : SharedLock) (c : call).

Lemma balance_snoc m cs c :
  balance m (cs ++ [c]) = balance m cs + (if decide (on c = m) then gain (called c) (reply c) else 0).
Proof. induction cs as [|d cs IH]; simpl; [lia|]. rewrite IH. lia. Qed.

Lemma mode_snoc m cs c : mode_on m (cs ++ [c]) = step_mode m (mode_on m cs) c.
Proof. unfold mode_on. by rewrite foldl_app. Qed.

(** ** The calls *)

(** The mode of the thread on each mutex is what the balance says. *)
Definition shows (n : Z) (h : RW.hold) : Prop := n = 0 /\ h = RW.Free \/ n = 1 /\ h = RW.Shared.

Record calls_ok (cs : list call) : Prop := {
  co_contract : in_contract cs;
  co_shows m : shows (balance m cs) (mode_on m cs);
}.

Lemma calls_snoc cs c :
  calls_ok cs -> mode_on (on c) cs = RW.required (called c) ->
  shows (balance (on c) cs + gain (called c) (reply c)) (RW.after (called c) (reply c)) ->
  calls_ok (cs ++ [c]).
Proof.
  intros [Hc Hs] Hreq Hsh. split; [by constructor|]. intros m.
  rewrite balance_snoc, mode_snoc. unfold step_mode. case_decide; [by subst m|].
  rewrite Z.add_0_r. apply Hs.
Qed.

(** A call that takes an ownership, or fails to, on a mutex not owned. *)
Lemma calls_take cs m o r :
  calls_ok cs -> balance m cs = 0 ->
  (o, r) ∈ [(RW.lock_shared, RW.Void);
            (RW.try_lock_shared, RW.Bool true); (RW.try_lock_shared, RW.Bool false);
            (RW.try_lock_shared_until, RW.Bool true); (RW.try_lock_shared_until, RW.Bool false)] ->
  calls_ok (cs ++ [mkCall m o r]).
Proof.
  intros Hok Hb Hin. pose proof (co_shows _ Hok m) as Hsh. rewrite Hb in Hsh.
  assert (mode_on m cs = RW.Free) as Hm by (by destruct Hsh as [[_ ?]|[? _]]).
  repeat (apply elem_of_cons in Hin as [[= -> ->]|Hin]; [
    apply calls_snoc; simpl; rewrite ?Hm, ?Hb; [done|done|unfold shows; auto]|]).
  by apply elem_of_nil in Hin.
Qed.

Lemma calls_give cs m :
  calls_ok cs -> balance m cs <> 0 -> calls_ok (cs ++ [mkCall m RW.unlock_shared RW.Void]).
Proof.
  intros Hok Hb. destruct (co_shows _ Hok m) as [[Hb0 _]|[Hb1 Hm]]; [done|].
  apply calls_snoc; simpl; rewrite ?Hm, ?Hb1; [done|done|]. by left.
Qed.

(** ** The books *)

Record ok w : Prop := {
  ok_calls : calls_ok (calls w);
  ok_books m : held w m = loose_on w m + claimed w m;
  ok_loose m : 0 <= loose_on w m;
  ok_ptr l k : locks w !! l = Some k -> owns k = true -> is_Some (mtx k);
}.

Definition old_claim m w l : Z := match locks w !! l with Some k => claim m k | None => 0 end.

Lemma claimed_put m l k w : claimed (put l k w) m = claimed w m - old_claim m w l + claim m k.
Proof.
  unfold claimed, old_claim. simpl. destruct (locks w !! l) as [k0|] eqn:Hl.
  - by rewrite (sumz_insert _ _ l k0).
  - rewrite sumz_insert_None by done. lia.
Qed.

Lemma claimed_drop m l w : claimed (drop l w) m = claimed w m - old_claim m w l.
Proof.
  unfold claimed, old_claim. simpl. destruct (locks w !! l) as [k0|] eqn:Hl.
  - rewrite (sumz_delete _ (locks w) l k0) by done. lia.
  - rewrite delete_id by done. lia.
Qed.

Lemma claim_range m k : 0 <= claim m k <= 1.
Proof. unfold claim. case_decide; lia. Qed.

Lemma claimed_ge m w l k : locks w !! l = Some k -> claim m k <= claimed w m.
Proof. apply sumz_ge_one. intros. apply claim_range. Qed.

Lemma claim_owner m b : claim m (mkLock (Some m) b) = if b then 1 else 0.
Proof. unfold claim. destruct b; case_decide; naive_solver. Qed.

Lemma claim_none m b : claim m (mkLock None b) = 0.
Proof. unfold claim. case_decide; naive_solver. Qed.

Lemma claim_other m m' b : m <> m' -> claim m (mkLock (Some m') b) = 0.
Proof. intros Hne. unfold claim. case_decide; naive_solver. Qed.

Lemma claim_not_owner m k : owns k = false -> claim m k = 0.
Proof. intros Hk. unfold claim. case_decide; [|done]. destruct k; naive_solver. Qed.

Lemma held_call m m' o r w :
  held (make_call m' o r w) m = held w m + (if decide (m' = m) then gain o r else 0).
Proof. apply balance_snoc. Qed.

Lemma loose_add m m' n w : loose_on (add_loose m' n w) m = loose_on w m + (if decide (m' = m) then n else 0).
Proof.
  unfold loose_on at 1. simpl. destruct (decide (m' = m)) as [->|Hne].
  - by rewrite lookup_insert_eq.
  - rewrite lookup_insert_ne by done. unfold loose_on. lia.
Qed.

(** The parts of the books an update leaves alone. *)
Lemma held_put m l k w : held (put l k w) m = held w m.
Proof. done. Qed.
Lemma held_drop m l w : held (drop l w) m = held w m.
Proof. done. Qed.
Lemma held_loose m m' n w : held (add_loose m' n w) m = held w m.
Proof. done. Qed.
Lemma loose_put m l k w : loose_on (put l k w) m = loose_on w m.
Proof. done. Qed.
Lemma loose_drop m l w : loose_on (drop l w) m = loose_on w m.
Proof. done. Qed.
Lemma loose_call m m' o r w : loose_on (make_call m' o r w) m = loose_on w m.
Proof. done. Qed.
Lemma claimed_call m m' o r w : claimed (make_call m' o r w) m = claimed w m.
Proof. done. Qed.
Lemma claimed_loose m m' n w : claimed (add_loose m' n w) m = claimed w m.
Proof. done. Qed.

Create HintDb books.
#[export] Hint Rewrite held_put held_drop held_loose held_call loose_put loose_drop loose_call loose_add
  claimed_put claimed_drop claimed_call claimed_loose claim_none : books.

(** Adds up the books of an updated world, mutex by mutex. *)
Ltac books H :=
  let m := fresh "m" in
  intros m; pose proof (ok_books _ H m); pose proof (ok_loose _ H m);
  autorewrite with books; unfold old_claim, claim in *; simpl;
  repeat match goal with E : locks _ !! _ = _ |- _ => rewrite E end; simpl;
  repeat case_decide; first [lia|naive_solver congruence|naive_solver lia].

(** Pointers: every owning object still has its mutex. *)
Ltac pointers H :=
  let l := fresh "l" in let k := fresh "k" in let Hk := fresh "Hk" in let Ho := fresh "Ho" in
  intros l k; simpl; rewrite ?lookup_insert_Some, ?lookup_delete_Some;
  intros Hk Ho; destruct_or?; destruct_and?; destruct_or?; destruct_and?;
  subst; simplify_eq/=; eauto using ok_ptr.

Definition replies (b : bool) (o : RW.op) (r : RW.ret) : Prop :=
  (o = RW.lock_shared /\ r = RW.Void /\ b = true) \/
  ((o = RW.try_lock_shared \/ o = RW.try_lock_shared_until) /\ r = RW.Bool b).

Lemma replies_gain b o r : replies b o r -> gain o r = if b then 1 else 0.
Proof. intros [(-> & -> & ->)|([-> | ->] & ->)]; [done|by destruct b..]. Qed.

Lemma replies_take b o r cs m :
  replies b o r -> calls_ok cs -> balance m cs = 0 -> calls_ok (cs ++ [mkCall m o r]).
Proof.
  intros Hr Hok Hb. apply calls_take; [done..|].
  destruct Hr as [(-> & -> & ->)|([-> | ->] & ->)]; [|destruct b..]; set_solver.
Qed.

(** An object that does not own takes what the mutex gives. *)
Lemma take_ok w l m b o r :
  ok w -> held w m = 0 -> replies b o r ->
  (locks w !! l = None \/ exists p, locks w !! l = Some (mkLock p false)) ->
  ok (put l (mkLock (Some m) b) (make_call m o r w)).
Proof.
  intros H Hh Hr Hl. split.
  - by apply (replies_take b); [|apply H|].
  - pose proof (replies_gain _ _ _ Hr) as Hg.
    assert (forall m, old_claim m w l = 0) as Hold.
    { intros m'. unfold old_claim. destruct Hl as [-> |[p ->]]; [done|]. by apply claim_not_owner. }
    intros m'. pose proof (ok_books _ H m'). autorewrite with books.
    change (old_claim m' (make_call m o r w) l) with (old_claim m' w l). rewrite Hold, Hg.
    destruct (decide (m = m')) as [->|Hne]; [rewrite claim_owner|rewrite claim_other by done]; lia.
  - apply H.
  - pointers H.
Qed.

(** Where an object owns, the thread does. *)
Lemma owner_held w l m b :
  ok w -> locks w !! l = Some (mkLock (Some m) b) -> b = true -> held w m <> 0.
Proof.
  intros H Hl ->. pose proof (ok_books _ H m). pose proof (ok_loose _ H m).
  pose proof (claimed_ge m _ _ _ Hl) as Hge. rewrite claim_owner in Hge. lia.
Qed.

(** The end of an object: what it owned is given back. *)
Lemma destruct_ok w l k :
  ok w -> locks w !! l = Some k ->
  exists w', destruct_ k w = Some w' /\ locks w' = locks w /\ ok (drop l w') /\
    calls_ok (calls w') /\ (forall m, loose_on w' m = loose_on w m /\ held w' m = held w m - claim m k).
Proof.
  intros H Hl. unfold destruct_. destruct (owns k) eqn:Ho.
  - destruct (ok_ptr _ H l k Hl Ho) as [m Hm]. rewrite Hm. simpl.
    assert (k = mkLock (Some m) true) as -> by (destruct k; naive_solver).
    assert (Hc : calls_ok (calls w ++ [mkCall m RW.unlock_shared RW.Void])).
    { apply calls_give; [apply H|]. by eapply owner_held. }
    eexists. split; [done|]. split; [done|]. split.
    + split; [done|books H|apply H|pointers H].
    + split; [done|]. intros m'. split; [done|]. autorewrite with books.
      simpl. unfold claim. simpl. repeat case_decide; naive_solver lia.
  - exists w. split; [done|]. split; [done|]. split; [split; [apply H|books H|apply H|pointers H]|].
    split; [apply H|]. intros m. rewrite claim_not_owner by done. split; [done|lia].
Qed.

(** ** Every lawful operation *)

Definition loose_ok w m : Prop := 0 < loose_on w m.

(** An object is replaced by one with the same claims. *)
Lemma put_ok w l k :
  ok w -> (forall m, old_claim m w l = claim m k) -> (owns k = true -> is_Some (mtx k)) -> ok (put l k w).
Proof.
  intros H Hc Hk. split; [apply H| |apply H|pointers H].
  intros m. pose proof (ok_books _ H m). autorewrite with books. rewrite Hc. lia.
Qed.

Lemma move_ok w l rhs k :
  ok w -> locks w !! rhs = Some k -> l <> rhs -> locks w !! l = None ->
  ok (put l k (put rhs (mkLock None false) w)).
Proof.
  intros H Hr Hne Hl. split; [apply H| |apply H|pointers H].
  intros m. pose proof (ok_books _ H m). autorewrite with books. unfold old_claim. simpl.
  rewrite lookup_insert_ne, Hl, Hr by done. lia.
Qed.

Lemma swap_ok w l rhs a b :
  ok w -> locks w !! l = Some a -> locks w !! rhs = Some b -> ok (put l b (put rhs a w)).
Proof.
  intros H Hl Hr. split; [apply H| |apply H|pointers H].
  intros m. pose proof (ok_books _ H m). autorewrite with books. unfold old_claim. simpl.
  destruct (decide (l = rhs)) as [->|Hne].
  - rewrite lookup_insert_eq, Hr. simplify_eq. lia.
  - rewrite lookup_insert_ne, Hl, Hr by done. lia.
Qed.

Lemma move_assign_ok w l rhs this k :
  ok w -> locks w !! l = Some this -> locks w !! rhs = Some k ->
  exists w', move_assign l rhs w = Some w' /\ ok w'.
Proof.
  intros H Hl Hr. unfold move_assign, construct. rewrite Hr. simpl.
  destruct (decide (rhs = l)) as [->|Hne].
  - rewrite lookup_insert_eq. simpl. eexists. split; [done|]. simplify_eq.
    split; [apply H| |apply H|pointers H]. intros m. pose proof (ok_books _ H m). autorewrite with books.
    unfold old_claim. simpl. rewrite lookup_insert_eq, Hl, claim_none. lia.
  - rewrite lookup_insert_ne, Hl by done. simpl.
    destruct (destruct_ok w l this H Hl) as (w1 & Hd & Hlk & _ & Hc & Hb).
    assert (destruct_ this (put l k (put rhs (mkLock None false) w)) =
      Some (mkWorld (<[l := k]> (<[rhs := mkLock None false]> (locks w1))) (calls w1) (loose w1))) as ->.
    { unfold destruct_ in *. destruct (owns this); [|by injection Hd as <-].
      destruct (mtx this); simpl in *; [|done]. by injection Hd as <-. }
    eexists. split; [done|].
    change (mkWorld _ (calls w1) (loose w1)) with (put l k (put rhs (mkLock None false) w1)).
    split; [done| | |].
    + intros m. destruct (Hb m) as [Hlo Hhe]. pose proof (ok_books _ H m). autorewrite with books.
      unfold old_claim. simpl. rewrite lookup_insert_ne, Hlk, Hl, Hr, Hlo, Hhe by done.
      unfold claimed. rewrite Hlk. fold (claimed w m). lia.
    + intros m. destruct (Hb m) as [Hlo _]. autorewrite with books. rewrite Hlo. apply H.
    + intros l' k'. simpl. rewrite Hlk. rewrite !lookup_insert_Some.
      pose proof (ok_ptr _ H rhs k Hr). pose proof (ok_ptr _ H l' k'). naive_solver.
Qed.

Lemma alive_some w l : alive w l = true -> exists k, locks w !! l = Some k.
Proof. by intros [k Hk]%bool_decide_eq_true; exists k. Qed.

Lemma dead_none w l : negb (alive w l) = true -> locks w !! l = None.
Proof. intros Ha%negb_true_iff%bool_decide_eq_false. by destruct (locks w !! l); [destruct Ha; eexists|]. Qed.

Lemma may_lock_some w l : may_lock w l = true -> exists m, locks w !! l = Some (mkLock (Some m) false) /\ held w m = 0.
Proof.
  unfold may_lock. destruct (locks w !! l) as [[[m|] []]|]; try done.
  intros Hf%bool_decide_eq_true. by exists m.
Qed.

Lemma try_lock_ok w l b o :
  ok w -> may_lock w l = true -> (o = RW.try_lock_shared \/ o = RW.try_lock_shared_until) ->
  exists w', try_lock_by o l b w = Some w' /\ ok w'.
Proof.
  intros H (m & Hl & Hh)%may_lock_some Ho. unfold try_lock_by. rewrite Hl. simpl.
  eexists. split; [done|]. apply take_ok; [done|done|by right|right; by eexists].
Qed.

(** The thread's own calls, with or without an ownership gained. *)
Lemma own_ok w m o r : ok w -> lawful w (Own m o r) = true -> ok (add_loose m (gain o r) (make_call m o r w)).
Proof.
  intros H Hlaw. simpl in Hlaw.
  assert ((exists b, replies b o r /\ held w m = 0) \/ o = RW.unlock_shared /\ r = RW.Void /\ loose_ok w m)
    as [(b & Hr & Hh)|(-> & -> & Hlo)].
  { destruct o, r as [|b]; try done; apply bool_decide_eq_true in Hlaw;
      first [by right|left; exists b; split; [right; auto|done]|left; exists true; split; [by left|done]]. }
  - pose proof (replies_gain _ _ _ Hr) as Hg. split; [by apply (replies_take b); [|apply H|]|books H| |pointers H].
    intros m'. pose proof (ok_loose _ H m'). autorewrite with books. rewrite Hg. clear Hlaw. destruct b; case_decide; lia.
  - unfold loose_ok in Hlo. pose proof (ok_books _ H m) as Hb. unfold held in Hb.
    assert (0 <= claimed w m) by (apply sumz_nonneg; intros; apply claim_range).
    split; [apply calls_give; [apply H|lia]|books H| |pointers H].
    intros m'. pose proof (ok_loose _ H m'). autorewrite with books. simpl. clear Hlaw. case_decide as Hm; [rewrite Hm in *|]; lia.
Qed.

Lemma exec_new_ok w l (c : ctor) : ok w -> lawful w (New l c) = true -> exists w', exec w (New l c) = Some w' /\ ok w'.
Proof.
  intros H [Hd%dead_none Hc]%andb_prop. simpl. rewrite Hd.
  destruct c as [|m|m|m b|m|m b|m b|rhs]; simpl; try (apply bool_decide_eq_true in Hc);
    try (eexists; split; [done|]).
  - apply put_ok; [done| |done]. intros m. unfold old_claim. by rewrite Hd, claim_none.
  - apply take_ok; [done|done|by left|by left].
  - apply put_ok; [done| |done]. intros m'. unfold old_claim. by rewrite Hd, claim_not_owner.
  - apply take_ok; [done|done|right; auto|by left].
  - split; [apply H|books H| |pointers H]. intros m'. pose proof (ok_loose _ H m'). autorewrite with books.
    case_decide; [subst m'|]; lia.
  - apply take_ok; [done|done|right; auto|by left].
  - apply take_ok; [done|done|right; auto|by left].
  - destruct Hc as [k Hr]. rewrite Hr. simpl. eexists. split; [done|].
    apply move_ok; [done|done| |done]. congruence.
Qed.

Lemma exec_ok w o : ok w -> lawful w o = true -> exists w', exec w o = Some w' /\ ok w'.
Proof.
  intros H Hlaw. destruct o as [l c|l|l rhs|l|l|l b|l b|l b|l rhs|l|m o r]; [by apply exec_new_ok|..]; simpl in *.
  - apply alive_some in Hlaw as [k Hl]. rewrite Hl. simpl.
    destruct (destruct_ok w l k H Hl) as (w' & -> & _ & Hok & _). simpl. by eexists.
  - apply andb_prop in Hlaw as [[k Hl]%alive_some [k' Hr]%alive_some]. by eapply move_assign_ok.
  - apply may_lock_some in Hlaw as (m & Hl & Hh). unfold lock. rewrite Hl. simpl.
    eexists. split; [done|]. apply take_ok; [done|done|by left|right; by eexists].
  - destruct (locks w !! l) as [[[m|] []]|] eqn:Hl; try done. unfold unlock. rewrite Hl. simpl.
    destruct (destruct_ok w l _ H Hl) as (w' & Hd & Hlk & _ & Hc & Hb).
    unfold destruct_ in Hd. simpl in Hd. injection Hd as <-.
    eexists. split; [done|]. split; [done|books H|apply H|pointers H].
  - by apply try_lock_ok; [..|left].
  - by apply try_lock_ok; [..|right].
  - by apply try_lock_ok; [..|right].
  - apply andb_prop in Hlaw as [[a Hl]%alive_some [b Hr]%alive_some]. unfold swap. rewrite Hl, Hr. simpl.
    eexists. split; [done|]. by apply swap_ok.
  - apply alive_some in Hlaw as [[[m|] b] Hl]; unfold release; rewrite Hl; simpl.
    + eexists. split; [done|]. destruct b.
      * split; [apply H|books H| |pointers H]. intros m'. pose proof (ok_loose _ H m'). autorewrite with books.
        case_decide; lia.
      * apply put_ok; [done| |done]. intros m'. unfold old_claim. by rewrite Hl, claim_none, claim_not_owner.
    + eexists. split; [done|]. apply put_ok; [done| |done]. intros m'. unfold old_claim. by rewrite Hl, !claim_none.
  - eexists. split; [done|]. by apply own_ok.
Qed.

Lemma run_ok w os w' : ok w -> lawful_run w os = Some w' -> ok w'.
Proof.
  revert w. induction os as [|o os IH]; intros w H Hr; simpl in Hr; [by injection Hr as <-|].
  destruct (lawful w o) eqn:Hl; [|done]. destruct (exec_ok w o H Hl) as (w1 & He & H1).
  rewrite He in Hr. simpl in Hr. by eapply IH.
Qed.

Lemma empty_world_ok : ok empty_world.
Proof.
  split; [split; [constructor|by left]| | |by intros l k].
  - intros m. unfold held, claimed. simpl. by rewrite sumz_empty.
  - intros m. unfold loose_on. simpl. by rewrite lookup_empty.
Qed.
