(* ===== verification/SharedLockProps.v ===== *)
(** * SharedLock: the properties *)

From S2P Require Import Prelude Machine RWLock SharedLock SharedLockProofs.

Import SharedLock.
Local Open Scope Z_scope.

(** C25: SharedLock objects own what they say, and are lawful clients of the
    mutex. Through every lawful sequence of constructions, moves, swaps,
    assignments, locks and destructions, each ownership the thread has by its
    calls is claimed by exactly one object or held by the thread itself, so
    when all objects are gone and nothing is left of its own it owns no mutex;
    every call the objects make finds the thread in the mode the
    SharedTimedMutex concept requires (it locks what the thread does not own,
    unlocks what it owns); and no lawful operation dereferences null. *)
Theorem slk_sound os w :
  lawful_run empty_world os = Some w ->
  (forall m, held w m = loose_on w m + claimed w m /\ 0 <= loose_on w m /\ 0 <= claimed w m <= 1 /\
    (locks w = ∅ -> loose_on w m = 0 -> held w m = 0)) /\
  in_contract (calls w) /\
  (forall o, lawful w o = true -> is_Some (exec w o)).
Proof.
  intros Hr. pose proof (run_ok _ _ _ empty_world_ok Hr) as H. split; [|split; [apply H|]].
  - intros m. pose proof (ok_books _ H m) as Hb. pose proof (ok_loose _ H m) as Hl.
    assert (0 <= claimed w m) by (apply sumz_nonneg; intros; apply claim_range).
    assert (held w m <= 1) by (destruct (co_shows _ (ok_calls _ H) m) as [[Hh _]|[Hh _]]; unfold held; lia).
    split_and!; [done|done|done|lia|]. intros He Hz. rewrite Hb, Hz. unfold claimed. by rewrite He, sumz_empty.
  - intros o Hl. destruct (exec_ok w o H Hl) as (w' & He & _). by eexists.
Qed.

(** Nothing guards against a second lock: [try_lock] on an object that
    owns its mutex, when it fails, forgets the ownership, and the destructor
    does not give it back ([std::shared_lock] throws instead). *)
Theorem slk_relock_leaks :
  exists w, foldl (fun ow o => w ← ow; exec w o) (Some empty_world)
      [New 0%nat (Locking 7%nat); TryLock 0%nat false; Destroy 0%nat] = Some w /\
    locks w = ∅ /\ loose_on w 7 = 0 /\ held w 7 = 1.
Proof. evaluates. Qed.

(** One mutex, three objects: a lock moves, is assigned over, released,
    adopted and destroyed. *)
Definition tour : list op :=
  [New 0%nat (Locking 7%nat); New 1%nat (Move 0%nat); New 2%nat (Defer 8%nat); TryLock 2%nat true;
   MoveAssign 2%nat 1%nat; Release 2%nat; New 3%nat (Adopt 7%nat); Unlock 3%nat; Lock 3%nat].

Lemma slk_sound_witness :
  exists w, lawful_run empty_world tour = Some w /\
    (held w 7 = 1 /\ held w 8 = 0 /\ length (calls w) = 5%nat /\ lawful w (Unlock 3%nat) = true) /\
    held w 7 = loose_on w 7 + claimed w 7 /\ in_contract (calls w) /\ is_Some (exec w (Unlock 3%nat)).
Proof.
  reach (lawful_run empty_world tour)
    with (fun w : world => held w 7 = 1 /\ held w 8 = 0 /\ length (calls w) = 5%nat /\ lawful w (Unlock 3%nat) = true)
    as w Hrun Hw.
  exists w. split; [exact Hrun|]. split; [exact Hw|]. destruct (slk_sound tour w Hrun) as (Hb & Hc & Hl).
  split; [apply (Hb 7%nat)|]. split; [exact Hc|]. apply Hl, Hw.
Defined.
