(* ===== verification/ScopeGuard.v ===== *)
(** * util/bits/scope_guard.h: scope guards

    The guard objects of one thread, the callbacks they run, and the
    callbacks' names in the order in which they run.  A callback is a name; a
    [pre] that throws is an input of the operation, and a [post] that throws
    (a parameter) ends the program, for it runs in a destructor. *)

From S2P Require Import Prelude Machine.

Module ScopeGuard.

Abbreviation gid := nat.

(** [ScopeGuardImpl]: the flag of its base class and the stored callback. *)
Record ScopeGuardImpl := mkGuard { released : bool; post : nat }.

#[export] Instance guard_eq_dec : EqDecision ScopeGuardImpl.
Proof. solve_decision. Defined.

Inductive ran_call := Pre (n : nat) | Post (n : nat).

#[export] Instance ran_call_eq_dec : EqDecision ran_call.
Proof. solve_decision. Defined.

(** The live objects, the callbacks run, and, for specification, the [post]s
    guards were made with and those given up: by [release], or by assigning
    over a guard. *)
Record world := mkWorld {
  guards : gmap gid ScopeGuardImpl;
  log : list ran_call;
  made : list nat;
  given_up : list nat;
}.

Section code.
Context (post_throws : nat -> bool) (ndebug : bool).
Implicit Types (w : world) (g : gid).

Definition put g (k : ScopeGuardImpl) w : world := mkWorld (<[g := k]> (guards w)) (log w) (made w) (given_up w).
Definition note (c : ran_call) w : world := mkWorld (guards w) (log w ++ [c]) (made w) (given_up w).
Definition commit (p : nat) w : world := mkWorld (guards w) (log w) (made w ++ [p]) (given_up w).
Definition forgo (k : ScopeGuardImpl) w : world :=
  if released k then w else mkWorld (guards w) (log w) (made w) (given_up w ++ [post k]).

Inductive op :=
| Make (g : gid) (p : nat)                       (** [make_scope_guard(post)] *)
| MakePre (g : gid) (pre : nat) (throws : bool) (p : nat)
| MoveConstruct (g rhs : gid)
| MoveAssign (g rhs : gid)
| Release (g : gid)
| Destroy (g : gid).

(** The constructor with [pre]: if [pre] throws there is no object, and the
    destructor of the class does not run. *)
Definition make_pre g (pre : nat) (throws : bool) (p : nat) w : world :=
  let w := note (Pre pre) w in
  if throws then w else put g (mkGuard false p) (commit p w).

(** The base class takes the flag and releases [rhs]; the callback follows. *)
Definition move_construct g (rhs : gid) w : option world :=
  r ← guards w !! rhs;
  Some (put g (mkGuard (released r) (post r)) (put rhs (mkGuard true (post r)) w)).

(** The same, over an existing guard, after [assert(this != &rhs)]. *)
Definition move_assign g (rhs : gid) w : option world :=
  this ← guards w !! g;
  r ← guards w !! rhs;
  if decide (g = rhs) then
    if ndebug then Some (put g (mkGuard true (post r)) (forgo this w)) else None
  else
    Some (put rhs (mkGuard true (post r)) (put g (mkGuard (released r) (post r)) (forgo this w))).

Definition release g w : option world :=
  k ← guards w !! g; Some (put g (mkGuard true (post k)) (forgo k w)).

(** [if (!is_released()) post();] *)
Definition destroy g w : option world :=
  k ← guards w !! g;
  let w := mkWorld (delete g (guards w)) (log w) (made w) (given_up w) in
  if released k then Some w
  else if post_throws (post k) then None (* std::terminate *)
  else Some (note (Post (post k)) w).

Definition exec w (o : op) : option world :=
  match o with
  | Make g p => if guards w !! g then None else Some (put g (mkGuard false p) (commit p w))
  | MakePre g pre throws p => if guards w !! g then None else Some (make_pre g pre throws p w)
  | MoveConstruct g rhs => if guards w !! g then None else move_construct g rhs w
  | MoveAssign g rhs => move_assign g rhs w
  | Release g => release g w
  | Destroy g => destroy g w
  end.

Fixpoint exec_ops w (os : list op) : option world :=
  match os with
  | [] => Some w
  | o :: os => w ← exec w o; exec_ops w os
  end.

(** The end of a scope destroys its guards, the last declared first. *)
Definition exit_scope (gs : list gid) w : option world := exec_ops w (Destroy <$> reverse gs).
End code.

Definition empty_world : world := mkWorld ∅ [] [] [].

(** ** What the guards promise *)

(** The callbacks still to run. *)
Definition live (k : ScopeGuardImpl) : option nat := if released k then None else Some (post k).
Definition pending (w : world) : list nat := omap live (map_to_list (guards w)).*2.

(** The [post]s that ran. *)
Definition posted (c : ran_call) : option nat := match c with Post n => Some n | Pre _ => None end.
Definition ran (w : world) : list nat := omap posted (log w).

Definition settled (w : world) : Prop := made w ≡ₚ ran w ++ given_up w ++ pending w.
End ScopeGuard.
