(* ===== verification/ScopeGuardProps.v ===== *)
(** * Scope guards: every callback runs once *)

From S2P Require Import Prelude Machine ScopeGuard.

Import ScopeGuard.
Implicit Types (w : world) (g : gid).

(** ** Helpers *)

Definition pend (m : gmap gid ScopeGuardImpl) : list nat := omap live (map_to_list m).*2.

Lemma pend_insert_None (m : gmap gid ScopeGuardImpl) g k :
  m !! g = None -> pend (<[g := k]> m) ≡ₚ option_list (live k) ++ pend m.
Proof.
  intros Hg. unfold pend. rewrite map_to_list_insert by done. simpl. by destruct (live k).
Qed.

Lemma pend_delete (m : gmap gid ScopeGuardImpl) g k :
  m !! g = Some k -> pend m ≡ₚ option_list (live k) ++ pend (delete g m).
Proof.
  intros Hg. rewrite <- (insert_delete_id m g k) at 1 by done. apply pend_insert_None, lookup_delete_eq.
Qed.

Lemma pend_insert (m : gmap gid ScopeGuardImpl) g k k' :
  m !! g = Some k -> pend (<[g := k']> m) ≡ₚ option_list (live k') ++ pend (delete g m).
Proof. intros Hg. rewrite <- insert_delete_eq. apply pend_insert_None, lookup_delete_eq. Qed.

Lemma ran_snoc l c : omap posted (l ++ [c]) = omap posted l ++ option_list (posted c).
Proof. rewrite omap_app. simpl. by destruct (posted c). Qed.

(** A guard is released where it is. *)
Lemma give_up_settled w g k :
  settled w -> guards w !! g = Some k -> settled (put g (mkGuard true (post k)) (forgo k w)).
Proof.
  unfold settled, ran, pending. intros Hw Hg. unfold forgo.
  fold (pend (guards w)) in Hw. rewrite (pend_delete _ _ _ Hg) in Hw.
  destruct k as [[] p]; simpl in *; fold (pend (<[g := mkGuard true p]> (guards w)));
    rewrite (pend_insert _ _ _ (mkGuard true p) Hg), Hw; simpl; solve_Permutation.
Qed.

Lemma make_settled w g p :
  settled w -> guards w !! g = None -> settled (put g (mkGuard false p) (commit p w)).
Proof.
  unfold settled, ran, pending. simpl. intros Hw Hg.
  fold (pend (guards w)) in Hw. fold (pend (<[g := mkGuard false p]> (guards w))).
  rewrite (pend_insert_None _ _ _ Hg), Hw. simpl. solve_Permutation.
Qed.

Lemma destroy_settled pt w g w' : settled w -> destroy pt g w = Some w' -> settled w'.
Proof.
  unfold destroy. intros Hw Hd. destruct (guards w !! g) as [k|] eqn:Hg; simpl in Hd; [|done].
  unfold settled, ran, pending in *. fold (pend (guards w)) in Hw. rewrite (pend_delete _ _ _ Hg) in Hw.
  unfold live in Hw. destruct (released k); [by injection Hd as <-|].
  destruct (pt (post k)); [done|]. injection Hd as <-. simpl in *. fold (pend (delete g (guards w))).
  rewrite ran_snoc, Hw. simpl. solve_Permutation.
Qed.

(** Moving a guard leaves the callbacks as they are. *)
Lemma move_settled w g rhs r :
  settled w -> guards w !! rhs = Some r -> g <> rhs -> guards w !! g = None \/ (exists p, guards w !! g = Some (mkGuard true p)) ->
  settled (put g (mkGuard (released r) (post r)) (put rhs (mkGuard true (post r)) w)).
Proof.
  unfold settled, ran, pending. simpl. intros Hw Hr Hne Hg. fold (pend (guards w)) in Hw.
  set (m1 := <[rhs := mkGuard true (post r)]> (guards w)).
  fold (pend (<[g := mkGuard (released r) (post r)]> m1)).
  assert (pend (guards w) ≡ₚ option_list (live r) ++ pend m1) as H1.
  { unfold m1. rewrite (pend_insert _ _ _ _ Hr). by apply pend_delete. }
  rewrite Hw, H1. destruct r as [b q]; simpl in *.
  destruct Hg as [Hg|[p Hg]]; rewrite <- (lookup_insert_ne _ rhs g (mkGuard true q)) in Hg by done; fold m1 in Hg.
  - by rewrite (pend_insert_None _ _ _ Hg).
  - rewrite (pend_insert _ _ _ _ Hg), (pend_delete _ _ _ Hg). done.
Qed.

Lemma exec_settled pt nd w o w' : settled w -> exec pt nd w o = Some w' -> settled w'.
Proof.
  intros Hw He. destruct o as [g p|g pre th p|g rhs|g rhs|g|g]; simpl in He.
  - destruct (guards w !! g) eqn:Hg; [done|]. injection He as <-. by apply make_settled.
  - destruct (guards w !! g) eqn:Hg; [done|]. unfold make_pre in He.
    assert (settled (note (Pre pre) w)) as Hn.
    { unfold settled, ran in *. simpl. by rewrite ran_snoc, app_nil_r. }
    destruct th; injection He as <-; [done|by apply make_settled].
  - destruct (guards w !! g) eqn:Hg; [done|]. unfold move_construct in He.
    destruct (guards w !! rhs) as [r|] eqn:Hr; simpl in He; [|done]. injection He as <-.
    apply move_settled; [done|done|congruence|by left].
  - unfold move_assign in He. destruct (guards w !! g) as [this|] eqn:Hg; simpl in He; [|done].
    destruct (guards w !! rhs) as [r|] eqn:Hr; simpl in He; [|done].
    pose proof (give_up_settled _ _ _ Hw Hg) as Hw1. case_decide as Heq.
    + destruct nd; [|done]. injection He as <-. subst rhs. by simplify_eq.
    + injection He as <-.
      assert (Hgw : guards (forgo this w) = guards w) by (unfold forgo; by case_match).
      assert (settled (put g (mkGuard (released r) (post r)) (put rhs (mkGuard true (post r))
        (put g (mkGuard true (post this)) (forgo this w))))) as Hmv.
      { apply move_settled; [done| |done|right; eexists; apply lookup_insert_eq].
        simpl. by rewrite lookup_insert_ne, Hgw. }
      unfold put in Hmv |- *. simpl in Hmv |- *. rewrite Hgw in *.
      by rewrite (insert_insert_ne _ g rhs), insert_insert_eq in Hmv by done.
  - unfold release in He. destruct (guards w !! g) as [k|] eqn:Hg; simpl in He; [|done].
    injection He as <-. by apply give_up_settled.
  - by eapply destroy_settled.
Qed.

Lemma ops_settled pt nd os w w' : settled w -> exec_ops pt nd w os = Some w' -> settled w'.
Proof.
  revert w. induction os as [|o os IH]; intros w Hw Hr; simpl in Hr; [by injection Hr as <-|].
  destruct (exec pt nd w o) as [w1|] eqn:He; simpl in Hr; [|done].
  eapply IH; [|done]. by eapply exec_settled.
Qed.

(** The end of a scope does not touch the guards outside it. *)
Lemma scope_keeps pt nd gs w w' g k :
  g ∉ gs -> guards w !! g = Some k -> exec_ops pt nd w (Destroy <$> gs) = Some w' -> guards w' !! g = Some k.
Proof.
  revert w. induction gs as [|h gs IH]; intros w Hg Hk Hr; simpl in Hr; [by injection Hr as <-|].
  apply not_elem_of_cons in Hg as [Hne Hg].
  unfold destroy in Hr. destruct (guards w !! h) as [kh|]; simpl in Hr; [|done].
  destruct (released kh); [|destruct (pt (post kh))]; simpl in Hr; try done;
    (eapply IH; [exact Hg| |exact Hr]); simpl; by rewrite lookup_delete_ne.
Qed.

Lemma exec_ops_app pt nd os1 os2 w :
  exec_ops pt nd w (os1 ++ os2) = w' ← exec_ops pt nd w os1; exec_ops pt nd w' os2.
Proof.
  revert w. induction os1 as [|o os1 IH]; intros w; simpl; [done|].
  destruct (exec pt nd w o); simpl; [apply IH|done].
Qed.

Lemma no_guard_settled : settled empty_world.
Proof. unfold settled, pending. simpl. by rewrite map_to_list_empty. Qed.

(** ** The properties *)

(** A scope runs its callbacks in the reverse order of its guards,
    skipping the released ones, whatever happened to the guards inside. *)
Lemma sg_scope_order post_throws ndebug gs ks w :
  NoDup gs -> Forall2 (fun g k => guards w !! g = Some k) gs ks ->
  Forall (fun p => post_throws p = false) (omap live ks) ->
  exists w', exit_scope post_throws ndebug gs w = Some w' /\
    log w' = log w ++ (Post <$> reverse (omap live ks)) /\ (forall g, g ∈ gs -> guards w' !! g = None).
Proof.
  revert ks w. induction gs as [|g gs IH]; intros ks w Hnd Hks Hpt.
  { apply Forall2_nil_inv_l in Hks as ->. exists w. split; [done|]. simpl. rewrite app_nil_r. split; [done|].
    intros g Hg. by apply elem_of_nil in Hg. }
  apply Forall2_cons_inv_l in Hks as (k & ks' & Hk & Hks & ->). apply NoDup_cons in Hnd as [Hg Hnd].
  assert (omap live (k :: ks') = option_list (live k) ++ omap live ks') as Ho by (simpl; by destruct (live k)).
  rewrite Ho in Hpt |- *. apply Forall_app in Hpt as [Hpk Hpt].
  destruct (IH ks' w Hnd Hks Hpt) as (w1 & He & Hlog & Hgone).
  assert (guards w1 !! g = Some k) as Hk1.
  { eapply scope_keeps; [|exact Hk|exact He]. by rewrite elem_of_reverse. }
  unfold exit_scope. rewrite reverse_cons, fmap_app, exec_ops_app. fold (exit_scope post_throws ndebug gs w).
  rewrite He. simpl. unfold destroy. rewrite Hk1. simpl. unfold live in *.
  destruct (released k); simpl in *.
  - eexists. split; [done|]. simpl. rewrite Hlog. split; [done|].
    intros h [->|Hh]%elem_of_cons; [apply lookup_delete_eq|]. apply lookup_delete_None. right. by apply Hgone.
  - apply Forall_cons in Hpk as [-> _]. simpl. eexists. split; [done|]. simpl.
    rewrite Hlog, reverse_cons, fmap_app, <- app_assoc. split; [done|].
    intros h [->|Hh]%elem_of_cons; [apply lookup_delete_eq|]. apply lookup_delete_None. right. by apply Hgone.
Qed.

(** C32: scope guards do what they promise. Through constructions, moves,
    assignments, releases and destructions, the [post]s the guards were made
    with are, as a multiset, those that ran, those given up by [release] or by
    assigning over the guard, and those of the guards still armed: none runs
    twice, and when no guard is left and none was given up, each has run. From
    there the end of any scope runs the callbacks of its armed guards in the
    reverse order of the guards, skips the released ones, and leaves none
    behind. *)
Theorem sg_sound post_throws ndebug os w :
  exec_ops post_throws ndebug empty_world os = Some w ->
  made w ≡ₚ ran w ++ given_up w ++ pending w /\
  (guards w = ∅ -> given_up w = [] -> made w ≡ₚ ran w) /\
  (forall gs ks, NoDup gs -> Forall2 (fun g k => guards w !! g = Some k) gs ks ->
     Forall (fun p => post_throws p = false) (omap live ks) ->
     exists w', exit_scope post_throws ndebug gs w = Some w' /\
       log w' = log w ++ (Post <$> reverse (omap live ks)) /\ (forall g, g ∈ gs -> guards w' !! g = None)).
Proof.
  intros Hr. assert (settled w) as Hw by (eapply ops_settled; [apply no_guard_settled|exact Hr]).
  split; [exact Hw|]. split; [|intros gs ks; apply sg_scope_order]. intros Hg Hn. unfold settled, pending in Hw.
  rewrite Hg, Hn, map_to_list_empty in Hw. simpl in Hw. by rewrite app_nil_r in Hw.
Qed.

(** Returning a guard by value. [make_scope_guard] gives the same guard
    whether the compiler elides the move out of it or not. *)
Theorem sg_elision post_throws ndebug g tmp p w :
  guards w !! g = None -> guards w !! tmp = None -> g <> tmp ->
  exec_ops post_throws ndebug w [Make tmp p; MoveConstruct g tmp; Destroy tmp] =
  exec_ops post_throws ndebug w [Make g p].
Proof.
  intros Hg Ht Hne. simpl. rewrite Ht, Hg. simpl. rewrite lookup_insert_ne, Hg by done. simpl.
  unfold move_construct. simpl. rewrite lookup_insert_eq. simpl. unfold destroy. simpl.
  rewrite lookup_insert_ne, lookup_insert_eq by done. simpl. do 2 f_equal.
  rewrite insert_insert_eq, delete_insert_ne by done. rewrite delete_insert_id; done.
Qed.

(** ** A concrete run: three guards, one moved, one released *)

Definition quiet (_ : nat) : bool := false.

Definition setup : list op :=
  [Make 0 10; MakePre 1 21 false 11; Make 2 12; Release 2; MoveConstruct 3 0; Destroy 0].

Lemma sg_sound_witness :
  exists w, exec_ops quiet false empty_world setup = Some w /\ log w = [Pre 21] /\
    made w ≡ₚ ran w ++ given_up w ++ pending w /\
    exists w', exit_scope quiet false [1; 2; 3] w = Some w' /\
      log w' = log w ++ [Post 10; Post 11] /\ (forall g, g ∈ [1; 2; 3] -> guards w' !! g = None).
Proof.
  reach (exec_ops quiet false empty_world setup)
    with (fun w : world => log w = [Pre 21] /\ guards w !! 1 = Some (mkGuard false 11) /\
            guards w !! 2 = Some (mkGuard true 12) /\ guards w !! 3 = Some (mkGuard false 10)) as w Hrun Hw.
  destruct Hw as (Hl & H1 & H2 & H3). destruct (sg_sound quiet false setup w Hrun) as (Hb & _ & Hscope).
  exists w. split; [exact Hrun|]. split; [exact Hl|]. split; [exact Hb|].
  apply (Hscope [1; 2; 3] [mkGuard false 11; mkGuard true 12; mkGuard false 10]).
  - apply (bool_decide_unpack _). reflexivity.
  - constructor; [exact H1|]. constructor; [exact H2|]. constructor; [exact H3|]. constructor.
  - constructor; [reflexivity|]. constructor; [reflexivity|]. constructor.
Defined.

Lemma sg_elision_witness :
  (guards empty_world !! 4 = None /\ guards empty_world !! 5 = None) /\
  exec_ops quiet false empty_world [Make 5 9; MoveConstruct 4 5; Destroy 5] =
  exec_ops quiet false empty_world [Make 4 9].
Proof.
  split; [split; reflexivity|]. apply (sg_elision quiet false 4 5 9 empty_world); [reflexivity|reflexivity|discriminate].
Defined.
