(* ===== verification/Invoke.v ===== *)
(** * util/bits/invoke.h: invoke and timed_invoke

    [_invoke] is an overload set that the compiler resolves from the types of
    the callable and of its first argument.  The model keeps of a type what the
    conditions look at, and resolves the set the way the language does: an
    overload takes part when its [enable_if] holds and its expression is well
    formed, and the call compiles when exactly one takes part.  [timed_invoke]
    composes it with a scope guard of [ScopeGuard]. *)

From S2P Require Import Prelude Machine ScopeGuard.

Module Invoke.

Abbreviation cls := nat.

(** The callable: a pointer to a member function or to a data member of class
    [base], or anything else. *)
Inductive callable := MemFun (base : cls) | MemData (base : cls) | Functor.

(** The first argument, decayed: the class it is of, if it is of a class; the
    [U] of a [reference_wrapper<U>]; the class [*arg] is of, if [*arg] is well
    formed.  [wrapper] is true of [reference_wrapper]s only. *)
Record argument := mkArg { obj : option cls; wrapped : option cls; pointee : option cls }.

(** How the callable is applied: [ref.*p], [ref.get().*p], [( *ptr).*p], [f(args...)]. *)
Inductive access := Direct | ViaGet | ViaDeref | Call.

#[export] Instance callable_eq_dec : EqDecision callable.
Proof. solve_decision. Defined.
#[export] Instance access_eq_dec : EqDecision access.
Proof. solve_decision. Defined.

(** How a call ends; [Terminated] is [std::terminate]. *)
Inductive outcome (A : Type) := Returned (a : A) | Thrown (e : nat) | Terminated.
Arguments Returned {A} a.
Arguments Thrown {A} e.
Arguments Terminated {A}.

(** An exception that leaves a function declared [noexcept(spec)]. *)
Definition leave_function {A} (spec : bool) (r : outcome A) : outcome A :=
  match r with Thrown _ => if spec then Terminated else r | _ => r end.

Section dispatch.
(** [is_base_of<base, derived>], and whether the remaining arguments fit: for a
    member function and a functor, the parameters; for a data member there
    must be none. *)
Context (is_base_of : cls -> cls -> bool) (args_fit : callable -> bool).

Definition is_reference_wrapper (a : argument) : bool := bool_decide (is_Some (wrapped a)).

(** [is_base_of] of a type that is not a class is false. *)
Definition derived_from (base : cls) (o : option cls) : bool :=
  match o with Some c => is_base_of base c | None => false end.

(** The three overloads for a pointer to a member of [base], in the order of
    the file: the [enable_if] condition, then whether the expression is well
    formed, which for the first is the same. *)
Definition member_overloads (base : cls) (a : argument) : list (access * bool) :=
  [(Direct, derived_from base (obj a));
   (ViaGet, is_reference_wrapper a && derived_from base (wrapped a));
   (ViaDeref, negb (is_reference_wrapper a) && negb (derived_from base (obj a))
              && derived_from base (pointee a))].

Definition overloads (c : callable) (a : argument) : list (access * bool) :=
  match c with
  | MemFun base | MemData base => member_overloads base a
  | Functor => [(Call, true)]
  end.

Definition viable (c : callable) (a : argument) : list access :=
  (filter (fun o => o.2 = true) (overloads c a)).*1.

(** One viable overload is called; none, or several, is a compile error. *)
Definition resolve (c : callable) (a : argument) : option access :=
  match viable c a with
  | [acc] => if args_fit c then Some acc else None
  | _ => None
  end.

(** ** What the C++17 standard says of [INVOKE]

    The first bullet whose condition holds is the meaning of the call. *)
Definition std_invoke (c : callable) (a : argument) : option access :=
  match c with
  | MemFun base | MemData base =>
      let '(acc, well_formed) :=
        if derived_from base (obj a) then (Direct, true)
        else if is_reference_wrapper a then (ViaGet, derived_from base (wrapped a))
        else (ViaDeref, derived_from base (pointee a)) in
      if well_formed && args_fit c then Some acc else None
  | Functor => if args_fit c then Some Call else None
  end.

(** A class is not derived from a [reference_wrapper] of itself (before C++20
    it cannot be): an argument is not at once an object of the member's class
    and a wrapper of one. *)
Definition sensible (a : argument) : Prop :=
  forall base, derived_from base (obj a) = true -> derived_from base (wrapped a) = false.

(** ** timed_invoke *)

(** [TimerEndFunctor]: the time at which it was made. *)
Record TimerEndFunctor := mkTimer { begin : Z }.

(** [duration_cast] from nanoseconds to an integral duration of [period]
    nanoseconds truncates towards zero. *)
Definition duration_cast (period ns : Z) : Z := Z.quot ns period.

(** [operator()]: what it stores in [*dur] at time [now]. *)
Definition timer_end (period : Z) (f : TimerEndFunctor) (now : Z) : Z :=
  duration_cast period (now - begin f).

(** The guard and its callback; the callback does not throw. *)
Definition time_guard : ScopeGuard.gid := 0.
Definition timer : nat := 0.
Definition exec_guard := ScopeGuard.exec (fun _ => false) false.

(** The stores of the callbacks that ran, in order. *)
Definition run_posts (period : Z) (f : TimerEndFunctor) (now : Z) (log : list ScopeGuard.ran_call)
    (dur : list Z) : list Z :=
  dur ++ ((fun _ => timer_end period f now) <$> omap ScopeGuard.posted log).

(** ** Calls

    The callable is an object with a state.  [body acc st t] applies it, in
    state [st] at time [t]: the outcome, its state after that, and the time;
    [nothrow acc] is [noexcept] of that expression.  [left] is the state of an
    object that has been moved from. *)
Section calls.
Context {A St : Type} (left : St -> St) (nothrow : access -> bool) (body : access -> St -> Z -> outcome A * St * Z).

(** The chosen [_invoke], and [invoke]: both have the [noexcept] of the
    expression.  The callable is forwarded: it is the caller's object. *)
Definition call_overload (acc : access) (st : St) (now : Z) : outcome A * St * Z :=
  let '(r, st, now) := body acc st now in (leave_function (nothrow acc) r, st, now).

Definition invoke (c : callable) (a : argument) (st : St) (now : Z) : option (outcome A * St * Z) :=
  acc ← resolve c a;
  let '(r, st, now) := call_overload acc st now in
  Some (leave_function (nothrow acc) r, st, now).

(** [timed_invoke] at time [now]: the outcome, the caller's object after the
    call, and the stores to [*time_elapsed].  The parameter [Callable c] is
    passed by value: it is copied from an lvalue, moved from an rvalue.  The
    guard is destroyed at the end of the scope, returning or unwinding. *)
Definition timed_invoke (period : Z) (c : callable) (a : argument) (lvalue : bool) (st : St) (now : Z)
    : option (outcome A * St * list Z) :=
  let caller := if lvalue then st else left st in
  acc ← resolve c a;
  w ← exec_guard ScopeGuard.empty_world (ScopeGuard.Make time_guard timer);
  let f := mkTimer now in
  '(r, _, now') ← invoke c a st now;
  match r with
  | Terminated => Some (Terminated, caller, [])
  | _ =>
      w ← exec_guard w (ScopeGuard.Destroy time_guard);
      Some (leave_function (nothrow acc) r, caller, run_posts period f now' (ScopeGuard.log w) [])
  end.
End calls.
End dispatch.
End Invoke.
