(* ===== verification/InvokeProps.v ===== *)
(** * invoke and timed_invoke: the properties *)

From S2P Require Import Prelude Machine ScopeGuard Invoke.

Import Invoke.

Section props.
Context (is_base_of : cls -> cls -> bool) (args_fit : callable -> bool).

(** At most one overload for a member pointer takes part, the one the first
    applicable bullet of the standard names. *)
Lemma member_viable base a :
  sensible is_base_of a ->
  (filter (fun o => o.2 = true) (member_overloads is_base_of base a)).*1 =
  let '(acc, well_formed) :=
    if derived_from is_base_of base (obj a) then (Direct, true)
    else if is_reference_wrapper a then (ViaGet, derived_from is_base_of base (wrapped a))
    else (ViaDeref, derived_from is_base_of base (pointee a)) in
  if well_formed then [acc] else [].
Proof.
  intros Hs. specialize (Hs base). unfold member_overloads. rewrite !filter_cons, filter_nil. simpl.
  destruct (derived_from is_base_of base (obj a)); simpl.
  - rewrite (Hs eq_refl), !andb_false_r. simpl. done.
  - destruct (is_reference_wrapper a); simpl.
    + by destruct (derived_from is_base_of base (wrapped a)).
    + by destruct (derived_from is_base_of base (pointee a)).
Qed.

Lemma resolve_std c a :
  sensible is_base_of a -> resolve is_base_of args_fit c a = std_invoke is_base_of args_fit c a.
Proof.
  intros Hs. unfold resolve, std_invoke, viable.
  destruct c as [base|base|]; simpl; [rewrite (member_viable base a Hs)..|done];
    (destruct (derived_from is_base_of base (obj a)); [done|]);
    (destruct (is_reference_wrapper a));
    match goal with |- context [if ?b then _ else _] => by destruct b end.
Qed.
End props.

(** The [noexcept] specifications are exact: an expression that is [noexcept]
    does not throw. *)
Definition exact_noexcept {A St} (nothrow : access -> bool) (body : access -> St -> Z -> outcome A * St * Z) : Prop :=
  forall acc st t e, nothrow acc = true -> (body acc st t).1.1 <> Thrown e.

Lemma leave_exact {A St} nothrow (body : access -> St -> Z -> outcome A * St * Z) acc st t :
  exact_noexcept nothrow body -> leave_function (nothrow acc) (body acc st t).1.1 = (body acc st t).1.1.
Proof.
  intros Hex. pose proof (Hex acc st t) as Hn. destruct (body acc st t).1.1 as [|e|]; try done. simpl.
  destruct (nothrow acc); [|done]. by destruct (Hn e eq_refl).
Qed.

(** [invoke] applies the callable, the caller's object, as the standard says. *)
Lemma invoke_std {A St} is_base_of args_fit nothrow (body : access -> St -> Z -> outcome A * St * Z) c a st now :
  sensible is_base_of a -> exact_noexcept nothrow body ->
  invoke is_base_of args_fit nothrow body c a st now =
    (fun acc => body acc st now) <$> std_invoke is_base_of args_fit c a.
Proof.
  intros Hs Hex. unfold invoke. rewrite resolve_std by done.
  destruct (std_invoke is_base_of args_fit c a) as [acc|]; [|done]. simpl. unfold call_overload.
  pose proof (leave_exact nothrow body acc st now Hex) as Hl.
  destruct (body acc st now) as [[r st'] now']. simpl in *. by rewrite !Hl.
Qed.

(** C35: [invoke] behaves like C++17's [std::invoke], and [timed_invoke] times it.
    The call compiles exactly when [INVOKE] is well formed for the types, and
    applies the callable the way its bullets say; the outcome, a value or an
    exception, is passed on, and no [noexcept] specification turns an exception
    into [std::terminate]; [*time_elapsed] is stored once, after the callable
    has ended, with the elapsed nanoseconds rounded down to the period. The
    callable that is called is a copy: a caller's object passed as an lvalue
    keeps its state, whatever the call does. *)
Theorem timed_invoke_spec {A St} is_base_of args_fit (left : St -> St) nothrow period
    (body : access -> St -> Z -> outcome A * St * Z) c a lvalue st now :
  sensible is_base_of a -> (0 < period)%Z -> exact_noexcept nothrow body ->
  (forall acc, (body acc st now).1.1 <> Terminated /\ now <= (body acc st now).2)%Z ->
  match std_invoke is_base_of args_fit c a with
  | None => timed_invoke is_base_of args_fit left nothrow body period c a lvalue st now = None
  | Some acc => exists elapsed,
      timed_invoke is_base_of args_fit left nothrow body period c a lvalue st now =
        Some ((body acc st now).1.1, if lvalue then st else left st, [elapsed]) /\
      (period * elapsed <= (body acc st now).2 - now < period * (elapsed + 1))%Z
  end.
Proof.
  intros Hs Hp Hex Hbody. unfold timed_invoke. rewrite resolve_std, (invoke_std _ _ _ _ _ _ _ _ Hs Hex) by done.
  destruct (std_invoke is_base_of args_fit c a) as [acc|]; [|done]. simpl.
  destruct (Hbody acc) as [Hend Hclock]. pose proof (leave_exact nothrow body acc st now Hex) as Hl.
  destruct (body acc st now) as [[r st'] now']. simpl in *.
  exists (timer_end period (mkTimer now) now'). split; [destruct r; simpl in *; by rewrite ?Hl|].
  unfold timer_end, duration_cast. simpl. rewrite Z.quot_div_nonneg by lia.
  pose proof (Z.div_mod (now' - now) period). pose proof (Z.mod_pos_bound (now' - now) period). lia.
Qed.

(** A call through a pointer to a derived class that throws after 2500 ns,
    timed in microseconds; the callable, a counter of its calls, is an lvalue. *)
Definition base_or_same (b d : cls) : bool := bool_decide (b <= d).

Definition derived_pointer : argument := mkArg None None (Some 4).

Definition failing (acc : access) (calls : nat) (t : Z) : outcome nat * nat * Z := (Thrown 7, S calls, (t + 2500)%Z).

Lemma timed_invoke_spec_witness :
  std_invoke base_or_same (fun _ => true) (MemFun 3) derived_pointer = Some ViaDeref /\
  exists elapsed,
    timed_invoke base_or_same (fun _ => true) id (fun _ => false) failing 1000 (MemFun 3) derived_pointer true 5 40 =
      Some (Thrown 7, 5, [elapsed]) /\ elapsed = 2%Z /\
    (1000 * elapsed <= 2500 < 1000 * (elapsed + 1))%Z.
Proof.
  split; [reflexivity|].
  destruct (timed_invoke_spec base_or_same (fun _ => true) id (fun _ => false) 1000 failing (MemFun 3) derived_pointer true 5 40)
    as (elapsed & Hrun & Hb).
  - intros base Hobj. discriminate Hobj.
  - reflexivity.
  - intros acc st t e H. discriminate H.
  - intros acc. simpl. split; [discriminate|lia].
  - exists elapsed. split; [exact Hrun|]. split; [|exact Hb]. vm_compute in Hrun. by injection Hrun as <-.
Defined.

(** [std::invoke] would have counted the call. *)
Example invoke_counts :
  invoke base_or_same (fun _ => true) (fun _ => false) failing (MemFun 3) derived_pointer 5 40 = Some (Thrown 7, 6, 2540%Z).
Proof. reflexivity. Qed.
