(* ===== verification/RValueWrapper.v ===== *)
(** * util/bits/rvalue_wrapper.h: RValueWrapper and rval

    [rval] wraps its argument so that [std::bind] can hold it and pass it as an
    rvalue when the bound functor is called.  The static half models the types
    that the two overloads of [rval] deduce, and which is chosen; the dynamic
    half the objects: a memory of values of one class, in which a move leaves
    [left v] behind.  The moved-from value and whether the class has a copy
    constructor are parameters: they belong to the class.  A program that does
    not compile is [None]. *)

From S2P Require Import Prelude Machine.

Module RValueWrapper.

(** ** Types *)

Inductive reference := NoReference | LvalueReference | RvalueReference.

#[export] Instance reference_eq_dec : EqDecision reference.
Proof. solve_decision. Defined.

(** A possibly [const] class, or a reference to it. *)
Record type := mkType { ref : reference; const : bool; class : nat }.

(** An argument: an lvalue or an rvalue, of such a class. *)
Record expression := mkExpression { lvalue : bool; of_const : bool; of_class : nat }.

(** [T &&], where references collapse, and [T &]. *)
Definition add_rvalue_reference (T : type) : type :=
  match ref T with LvalueReference => T | _ => mkType RvalueReference (const T) (class T) end.
Definition add_lvalue_reference (T : type) : type := mkType LvalueReference (const T) (class T).

Definition is_rvalue_reference (T : type) : bool := bool_decide (ref T = RvalueReference).

(** What [T] is deduced to be for a parameter [T &&], and [T &]. *)
Definition deduce_forwarding (e : expression) : type :=
  mkType (if lvalue e then LvalueReference else NoReference) (of_const e) (of_class e).
Definition deduce_lvalue (e : expression) : type := mkType NoReference (of_const e) (of_class e).

(** Whether a parameter of type [P] binds to the argument it was deduced from:
    only a reference to [const] among the lvalue references binds to an rvalue. *)
Definition binds (P : type) (e : expression) : bool :=
  match ref P with
  | LvalueReference => lvalue e || const P
  | RvalueReference => negb (lvalue e)
  | NoReference => true
  end.

(** The overloads, in the order of the file: [rval(T &&)] and [rval(T &)],
    with the [T] deduced and whether they take part. *)
Inductive overload := Forwarding | Copying.

#[export] Instance overload_eq_dec : EqDecision overload.
Proof. solve_decision. Defined.

(** The condition of [enable_if], of [rval] and of the constructor. *)
Definition enabled (T : type) : bool := is_rvalue_reference (add_rvalue_reference T).

Definition rval_overloads (e : expression) : list (overload * type * bool) :=
  [(Forwarding, deduce_forwarding e, enabled (deduce_forwarding e) && binds (add_rvalue_reference (deduce_forwarding e)) e);
   (Copying, deduce_lvalue e, binds (add_lvalue_reference (deduce_lvalue e)) e)].

(** For an rvalue, binding an rvalue reference is better than binding an
    lvalue reference: the first that takes part is chosen. *)
Definition resolve_rval (e : expression) : option (overload * type) :=
  match filter (fun o => o.2 = true) (rval_overloads e) with
  | [] => None
  | (o, _) :: _ => Some o
  end.

(** [T &&operator()(Args ...)]. *)
Definition call_type (T : type) : type := add_rvalue_reference T.

(** ** Objects *)

Abbreviation loc := nat.

Section code.
Context {V : Type} (left : V -> V) (copyable : bool).
Implicit Types (m : list V).

(** [RValueWrapper<T>]: whether [T] is [const], and where its member is. *)
Record RValueWrapper := mkWrapper { is_const : bool; t : loc }.

(** A value initialised from an rvalue of type [T] at [src]: the move
    constructor takes it, but from a [const] object only the copy constructor
    can. *)
Definition from_rvalue (c : bool) (src : loc) m : option (list V * V) :=
  v ← m !! src;
  if c then if copyable then Some (m, v) else None
  else Some (<[src := left v]> m, v).

Definition from_lvalue (src : loc) m : option (list V * V) :=
  v ← m !! src; if copyable then Some (m, v) else None.

(** A new object. *)
Definition alloc m (v : V) : list V * loc := (m ++ [v], length m).

(** The constructor: [t(std::move(t))]. *)
Definition wrap (c : bool) (src : loc) m : option (list V * RValueWrapper) :=
  '(m, v) ← from_rvalue c src m;
  let '(m, l) := alloc m v in Some (m, mkWrapper c l).

(** [RValueWrapper<T>(std::move(t))], or [RValueWrapper<T>(T(t))] with a
    temporary. *)
Definition rval (e : expression) (src : loc) m : option (list V * RValueWrapper) :=
  '(o, T) ← resolve_rval e;
  match o with
  | Forwarding => wrap (const T) src m
  | Copying =>
      '(m, v) ← from_lvalue src m;
      let '(m, temporary) := alloc m v in wrap (const T) temporary m
  end.

(** The defaulted constructors and assignments, member by member; a [const]
    member cannot be assigned.  What an assignment of an object to itself does
    is up to the class. *)
Definition copy_construct (rhs : RValueWrapper) m : option (list V * RValueWrapper) :=
  '(m, v) ← from_lvalue (t rhs) m;
  let '(m, l) := alloc m v in Some (m, mkWrapper (is_const rhs) l).

Definition move_construct (rhs : RValueWrapper) m : option (list V * RValueWrapper) :=
  wrap (is_const rhs) (t rhs) m.

Definition copy_assign (w rhs : RValueWrapper) m : option (list V) :=
  if is_const w || bool_decide (t w = t rhs) then None
  else '(m, v) ← from_lvalue (t rhs) m; Some (<[t w := v]> m).

Definition move_assign (w rhs : RValueWrapper) m : option (list V) :=
  if is_const w || bool_decide (t w = t rhs) then None
  else '(m, v) ← from_rvalue (is_const rhs) (t rhs) m; Some (<[t w := v]> m).

(** [return std::move(t);]: no object is touched.  [std::bind], which sees
    [is_bind_expression], passes what it returns to the callable. *)
Definition call (w : RValueWrapper) : bool * loc := (is_const w, t w).

(** The call of a functor that [bind] made from wrappers, with a callable that
    takes its parameters by value: what it receives. *)
Fixpoint call_bound (ws : list RValueWrapper) m : option (list V * list V) :=
  match ws with
  | [] => Some (m, [])
  | w :: ws =>
      let '(c, l) := call w in
      '(m, v) ← from_rvalue c l m;
      '(m, vs) ← call_bound ws m;
      Some (m, v :: vs)
  end.

(** ** The wrappers of a program *)

Record world := mkWorld { memory : list V; wrappers : list RValueWrapper; received : list V }.

Inductive op :=
| Copy (i : nat) | Move (i : nat)
| CopyAssign (i j : nat) | MoveAssign (i j : nat)
| Invoke (args : list nat).        (** call a functor bound to these wrappers *)

Definition exec (w : world) (o : op) : option world :=
  match o with
  | Copy i =>
      x ← wrappers w !! i; '(m, y) ← copy_construct x (memory w);
      Some (mkWorld m (wrappers w ++ [y]) (received w))
  | Move i =>
      x ← wrappers w !! i; '(m, y) ← move_construct x (memory w);
      Some (mkWorld m (wrappers w ++ [y]) (received w))
  | CopyAssign i j =>
      x ← wrappers w !! i; y ← wrappers w !! j; m ← copy_assign x y (memory w);
      Some (mkWorld m (wrappers w) (received w))
  | MoveAssign i j =>
      x ← wrappers w !! i; y ← wrappers w !! j; m ← move_assign x y (memory w);
      Some (mkWorld m (wrappers w) (received w))
  | Invoke args =>
      xs ← mapM (fun i => wrappers w !! i) args; '(m, vs) ← call_bound xs (memory w);
      Some (mkWorld m (wrappers w) (received w ++ vs))
  end.

(** The program wraps the object at [src]. *)
Definition begin_with (e : expression) (src : loc) m : option world :=
  '(m, x) ← rval e src m; Some (mkWorld m [x] []).
End code.
End RValueWrapper.
