(* ===== verification/RValueWrapperProps.v ===== *)
(** * RValueWrapper: what goes in comes out once *)

From S2P Require Import Prelude Machine RValueWrapper.

Import RValueWrapper.

(** ** Helpers: counting a value *)

Section props.
Context {V : Type} `{!EqDecision V}.
Implicit Types (m : list V) (w : world (V := V)).

Definition count (v : V) (l : list V) : nat := length (filter (fun x => x = v) l).

Definition same (v x : V) : nat := if decide (x = v) then 1 else 0.

Lemma count_app v l1 l2 : count v (l1 ++ l2) = count v l1 + count v l2.
Proof. unfold count. by rewrite filter_app, length_app. Qed.

Lemma count_one v x : count v [x] = same v x.
Proof. unfold count, same. rewrite filter_cons, filter_nil. by case_decide. Qed.

Lemma count_insert v l i x y : l !! i = Some x -> count v (<[i := y]> l) + same v x = count v l + same v y.
Proof.
  intros Hi. pose proof (lookup_lt_Some _ _ _ Hi) as Hlt. rewrite insert_take_drop by done.
  rewrite <- (take_drop_middle l i x Hi) at 3. rewrite !count_app.
  change (y :: drop (S i) l) with ([y] ++ drop (S i) l). change (x :: drop (S i) l) with ([x] ++ drop (S i) l).
  rewrite !count_app, !count_one. lia.
Qed.

Lemma count_zero v l : count v l = 0 <-> v ∉ l.
Proof.
  induction l as [|x l IH]; [by split; [intros _ ?%elem_of_nil|]|].
  change (x :: l) with ([x] ++ l) at 1. rewrite count_app, count_one, not_elem_of_cons. unfold same.
  case_decide; [split; [lia|naive_solver]|]. rewrite IH. naive_solver.
Qed.

(** ** Helpers: a class that can only be moved, and whose moved-from objects
    are not [v] *)

Context (left : V -> V) (v : V) (left_not_v : forall x, left x <> v).

Definition total w : nat := count v (memory w) + count v (received w).

(** Who holds [v] is a wrapper. *)
Record linear w : Prop := {
  li_held : forall l, memory w !! l = Some v -> exists i x, wrappers w !! i = Some x /\ t x = l;
  li_moves : Forall (fun x => is_const x = false) (wrappers w);
}.

Lemma same_left x : same v (left x) = 0.
Proof. unfold same. by rewrite decide_False. Qed.

Lemma lookup_left m src x l : <[src := left x]> m !! l = Some v -> m !! l = Some v.
Proof. intros [(_ & Hx & _)|[_ Hl]]%list_lookup_insert_Some; [by destruct (left_not_v x)|done]. Qed.

Lemma from_rvalue_counts c src m m' x :
  from_rvalue left false c src m = Some (m', x) ->
  c = false /\ m !! src = Some x /\ m' = <[src := left x]> m /\ count v m' + same v x = count v m.
Proof.
  unfold from_rvalue. destruct (m !! src) as [y|] eqn:Hy; simpl; [|done]. destruct c; [done|].
  intros [= <- <-]. split_and!; try done. pose proof (count_insert v m src y (left y) Hy). rewrite same_left in *. lia.
Qed.

Lemma wrap_counts c src m m' y :
  wrap left false c src m = Some (m', y) ->
  c = false /\ is_const y = false /\ count v m' = count v m /\ t y < length m' /\
  (forall l, m' !! l = Some v -> m !! l = Some v \/ t y = l) /\
  (m !! src = Some v -> m' !! t y = Some v).
Proof.
  unfold wrap. destruct (from_rvalue left false c src m) as [[m1 x]|] eqn:Hf; simpl; [|done].
  intros [= <- <-]. apply from_rvalue_counts in Hf as (-> & Hx & -> & Hc). simpl.
  rewrite count_app, count_one. split_and!; try done; [rewrite length_app; simpl; lia| |].
  - intros l [Hl|[Hl Hv]]%lookup_app_Some; [left; by eapply lookup_left|right].
    apply list_lookup_singleton_Some in Hv as [Hv _]. lia.
  - intros Hs. rewrite Hx in Hs. injection Hs as <-. by rewrite lookup_app_r, Nat.sub_diag by lia.
Qed.

Lemma call_bound_counts xs m m' vs :
  call_bound left false xs m = Some (m', vs) ->
  count v m' + count v vs = count v m /\ forall l, m' !! l = Some v -> m !! l = Some v.
Proof.
  revert m m' vs. induction xs as [|x xs IH]; intros m m' vs; simpl.
  { intros [= <- <-]. split; [by rewrite Nat.add_0_r|done]. }
  destruct (from_rvalue left false (is_const x) (t x) m) as [[m1 y]|] eqn:Hf; simpl; [|done].
  destruct (call_bound left false xs m1) as [[m2 ys]|] eqn:Hb; simpl; [|done]. intros [= <- <-].
  apply from_rvalue_counts in Hf as (_ & _ & -> & Hc). destruct (IH _ _ _ Hb) as [Hc' Hl].
  change (y :: ys) with ([y] ++ ys). rewrite count_app, count_one. split; [lia|].
  intros l Hv. eapply lookup_left. by apply Hl.
Qed.

(** Assigning over a wrapper destroys what it holds. *)
Definition assigns (o : op) : bool := match o with CopyAssign _ _ | MoveAssign _ _ => true | _ => false end.

Lemma exec_linear w o w' :
  linear w -> exec left false w o = Some w' ->
  linear w' /\ total w' <= total w /\ (assigns o = false -> total w' = total w).
Proof.
  intros [Hheld Hmov] He. destruct o as [i|i|i j|i j|args]; simpl in He.
  - destruct (wrappers w !! i) as [x|]; simpl in He; [|done].
    unfold copy_construct, from_lvalue in He. by destruct (memory w !! t x).
  - destruct (wrappers w !! i) as [x|] eqn:Hx; simpl in He; [|done].
    destruct (move_construct left false x (memory w)) as [[m y]|] eqn:Hm; simpl in He; [|done]. injection He as <-.
    apply wrap_counts in Hm as (_ & Hy & Hc & Hlt & Hl & _). unfold total. simpl. rewrite Hc. split; [|done].
    split; simpl; [|apply Forall_app; by split; [|constructor]].
    intros l [Hv|Hv]%Hl; [|exists (length (wrappers w)), y; by rewrite lookup_app_r, Nat.sub_diag by lia].
    destruct (Hheld l Hv) as (k & z & Hk & Hz). exists k, z. split; [by apply lookup_app_l_Some|done].
  - destruct (wrappers w !! i) as [x|]; simpl in He; [|done]. destruct (wrappers w !! j) as [y|]; simpl in He; [|done].
    unfold copy_assign, from_lvalue in He. destruct (_ || _); [done|]. simpl in He. by destruct (memory w !! t y).
  - destruct (wrappers w !! i) as [x|] eqn:Hx; simpl in He; [|done].
    destruct (wrappers w !! j) as [y|] eqn:Hy; simpl in He; [|done].
    unfold move_assign in He. destruct (_ || _); [done|]. simpl in He.
    destruct (from_rvalue left false (is_const y) (t y) (memory w)) as [[m z]|] eqn:Hf; simpl in He; [|done].
    injection He as <-. apply from_rvalue_counts in Hf as (_ & Hz & -> & Hc). unfold total. simpl.
    split; [split; simpl; [|done]|split; [|done]].
    + intros l [(<- & -> & _)|[_ Hl%lookup_left]]%list_lookup_insert_Some; [by exists i, x|by apply Hheld].
    + destruct (<[t y := left z]> (memory w) !! t x) as [u|] eqn:Hu.
      * pose proof (count_insert v _ (t x) u z Hu). lia.
      * apply lookup_ge_None in Hu. rewrite (list_insert_ge _ (t x)) by done. lia.
  - destruct (mapM _ args) as [xs|]; simpl in He; [|done].
    destruct (call_bound left false xs (memory w)) as [[m vs]|] eqn:Hb; simpl in He; [|done]. injection He as <-.
    apply call_bound_counts in Hb as [Hc Hl]. unfold total. simpl. rewrite count_app.
    split; [split; [|done]|split; [lia|intros _; lia]]. intros l Hv. by apply Hheld, Hl.
Qed.

Lemma run_linear w os w' :
  linear w -> run (exec left false) w os = Some w' ->
  linear w' /\ total w' <= total w /\ (forallb (fun o => negb (assigns o)) os = true -> total w' = total w).
Proof.
  revert w. induction os as [|o os IH]; intros w Hw Hr; simpl in Hr; [by injection Hr as <-|].
  destruct (exec left false w o) as [w1|] eqn:He; simpl in Hr; [|done].
  destruct (exec_linear w o w1 Hw He) as (Hw1 & Hle & Heq). destruct (IH w1 Hw1 Hr) as (Hw' & Hle' & Heq').
  split; [done|]. split; [lia|]. simpl. intros [Ha%negb_true_iff Hos]%andb_prop. rewrite Heq', Heq; done.
Qed.

(** Only a non-[const] rvalue of such a class can be wrapped. *)
Lemma begin_linear e src m w :
  count v m = 1 -> m !! src = Some v -> begin_with left false e src m = Some w -> linear w /\ total w = 1.
Proof.
  intros Hone Hs Hb. unfold begin_with in Hb. destruct (rval left false e src m) as [[m' x]|] eqn:Hr; simpl in Hb; [|done].
  injection Hb as <-. unfold rval in Hr. destruct (resolve_rval e) as [[o T]|]; simpl in Hr; [|done].
  destruct o; [|unfold from_lvalue in Hr; by destruct (m !! src)].
  pose proof (wrap_counts _ _ _ _ _ Hr) as (_ & Hx & Hc & _). unfold total. simpl. rewrite Hc, Hone. split; [|done].
  split; simpl; [|by constructor]. unfold wrap in Hr.
  destruct (from_rvalue left false (const T) src m) as [[m1 y]|] eqn:Hf; simpl in Hr; [|done]. injection Hr as <- <-.
  apply from_rvalue_counts in Hf as (_ & Hy & -> & Hc'). rewrite Hs in Hy. injection Hy as <-.
  intros l [Hl|[Hl Hv]]%lookup_app_Some.
  - exfalso. assert (count v (<[src := left v]> m) = 0) as Hz by (unfold same in Hc'; rewrite decide_True in Hc'; [lia|done]).
    apply count_zero in Hz. apply Hz. by eapply list_elem_of_lookup_2.
  - apply list_lookup_singleton_Some in Hv as [Hv _]. eexists 0, _. split; [done|]. simpl. lia.
Qed.
End props.

(** ** The properties *)

(** C36: whatever [rval] is given becomes an rvalue of its own. For every value
    category and constness of the argument, overload resolution finds one
    overload, the wrapper holds an object, not a reference, of the argument's
    class and constness, its constructor is enabled, and its call operator
    returns an rvalue reference. The new object has the value of the argument;
    an lvalue, or anything [const], is left as it was, and does not compile if
    the class has no copy constructor; any other argument is moved from. *)
Theorem rval_types {V} (left : V -> V) copyable e src (m : list V) v :
  m !! src = Some v ->
  exists T, resolve_rval e = Some (if lvalue e then Copying else Forwarding, T) /\
    ref T = NoReference /\ enabled T = true /\
    call_type T = mkType RvalueReference (of_const e) (of_class e) /\
    match rval left copyable e src m with
    | None => copyable = false /\ lvalue e || of_const e = true
    | Some (m', x) =>
        is_const x = of_const e /\ length m <= t x /\ m' !! t x = Some v /\
        take (length m) m' = (if lvalue e || of_const e then m else <[src := left v]> m)
    end.
Proof.
  intros Hs. exists (mkType NoReference (of_const e) (of_class e)).
  assert (Hres : resolve_rval e = Some (if lvalue e then Copying else Forwarding, mkType NoReference (of_const e) (of_class e)))
    by (destruct e as [[] [] c]; reflexivity).
  split_and!; [done..|]. unfold rval. rewrite Hres. simpl. pose proof (lookup_lt_Some _ _ _ Hs) as Hlt.
  destruct e as [[] c k]; simpl; unfold wrap, from_rvalue, from_lvalue, alloc; rewrite Hs; simpl.
  - destruct copyable; simpl; [|done]. rewrite lookup_app_r, Nat.sub_diag by lia. simpl.
    destruct c; simpl; (split; [done|]); rewrite ?length_app, ?length_insert, ?length_app; simpl; (split; [lia|]).
    + rewrite lookup_app_r, length_app by (rewrite length_app; simpl; lia). simpl.
      rewrite Nat.sub_diag. split; [done|]. by rewrite <- app_assoc, take_app_length.
    + rewrite lookup_app_r, length_insert, length_app by (rewrite length_insert, length_app; simpl; lia). simpl.
      rewrite Nat.sub_diag. split; [done|].
      rewrite insert_app_r_alt, Nat.sub_diag by lia. simpl. by rewrite <- app_assoc, take_app_length.
  - destruct c; [destruct copyable; [|done]|]; simpl; (split; [done|]); rewrite ?length_insert.
    + split; [lia|]. rewrite lookup_app_r, Nat.sub_diag by lia. split; [done|]. by rewrite take_app_length.
    + split; [lia|]. rewrite lookup_app_r by (rewrite length_insert; lia). rewrite length_insert, Nat.sub_diag.
      split; [done|]. rewrite take_app_le by (rewrite length_insert; lia).
      by rewrite take_ge by (rewrite length_insert; lia).
Qed.

(** C37: the value is delivered once. Let a class have no copy constructor, and
    its moved-from objects differ from [v], of which there is one. After
    [rval], whatever the program does with the wrapper (moving it, moving from
    it, assigning it, calling functors bound to it any number of times), [v]
    has been received at most once; and unless a wrapper has been assigned
    over, either it has been received, or one of the wrappers has it and the
    next functor called with that wrapper receives it. *)
Theorem rval_delivered_once {V} `{!EqDecision V} (left : V -> V) (v : V) e src (m : list V) os w0 w :
  (forall x, left x <> v) -> count v m = 1 -> m !! src = Some v ->
  begin_with left false e src m = Some w0 -> run (exec left false) w0 os = Some w ->
  count v (received w) <= 1 /\
  (forallb (fun o => negb (assigns o)) os = true ->
   count v (received w) = 1 \/
   exists i x w', wrappers w !! i = Some x /\ memory w !! t x = Some v /\
     exec left false w (Invoke [i]) = Some w' /\ received w' = received w ++ [v]).
Proof.
  intros Hleft Hone Hs Hb Hr. destruct (begin_linear left v Hleft e src m w0 Hone Hs Hb) as [Hl Ht].
  destruct (run_linear left v Hleft w0 os w Hl Hr) as ([Hheld Hmov] & Hle & Heq). unfold total in *.
  split; [lia|]. intros Hos. specialize (Heq Hos). destruct (decide (count v (received w) = 1)) as [|Hne]; [by left|right].
  assert (v ∈ memory w) as [l Hv]%list_elem_of_lookup.
  { destruct (decide (v ∈ memory w)) as [|Hz]; [done|]. rewrite <- count_zero in Hz. lia. }
  destruct (Hheld l Hv) as (i & x & Hx & Hxl). subst l. exists i, x.
  pose proof (Forall_lookup_1 _ _ _ _ Hmov Hx) as Hxc. simpl in Hxc.
  eexists. split; [done|]. split; [done|]. simpl. rewrite Hx. simpl. unfold from_rvalue. rewrite Hv, Hxc. simpl. done.
Qed.

(** ** A concrete program

    A [unique_ptr], null after a move: the wrapper is moved into a functor,
    which is moved and called twice. *)

Definition release (_ : option nat) : option nat := None.

Definition temporary : expression := mkExpression false false 0.

Lemma rval_types_witness :
  exists m' x, [Some 3; Some 7] !! 1 = Some (Some 7) /\
    rval release false temporary 1 [Some 3; Some 7] = Some (m', x) /\
    m' !! t x = Some (Some 7) /\ take 2 m' = [Some 3; None].
Proof.
  destruct (rval_types release false temporary 1 [Some 3; Some 7] (Some 7) eq_refl) as (T & _ & _ & _ & _ & Hrun).
  do 2 eexists. split; [reflexivity|]. split; [reflexivity|]. destruct Hrun as (_ & _ & Hv & Ht).
  split; [exact Hv|exact Ht].
Defined.

Definition bound_twice : list op := [Move 0; Move 1; Invoke [2]; Invoke [2]].

Lemma rval_delivered_once_witness :
  exists w0 w, begin_with release false temporary 1 [Some 3; Some 7] = Some w0 /\
    run (exec release false) w0 bound_twice = Some w /\ received w = [Some 7; None] /\
    count (Some 7) (received w) <= 1 /\
    (count (Some 7) (received w) = 1 \/
     exists i x w', wrappers w !! i = Some x /\ memory w !! t x = Some (Some 7) /\
       exec release false w (Invoke [i]) = Some w' /\ received w' = received w ++ [Some 7]).
Proof.
  do 2 eexists. split; [vm_compute; reflexivity|]. split; [vm_compute; reflexivity|]. split; [reflexivity|].
  destruct (rval_delivered_once release (Some 7) temporary 1 [Some 3; Some 7] bound_twice
    (mkWorld [Some 3; None; Some 7] [mkWrapper false 2] [])
    (mkWorld [Some 3; None; None; None; None] [mkWrapper false 2; mkWrapper false 3; mkWrapper false 4] [Some 7; None]))
    as [Hone Hor]; [done|vm_compute; reflexivity|reflexivity|vm_compute; reflexivity|vm_compute; reflexivity|].
  split; [exact Hone|]. apply Hor. reflexivity.
Defined.
