(* ===== verification/MakeUnique.v ===== *)
(** * util/bits/make_unique.h: make_unique

    Three overloads, told apart by the type to be made.  The model resolves
    them and says how the objects are initialised; the C++14 function that the
    file stands in for is the reference. *)

From S2P Require Import Prelude.

Module MakeUnique.

(** The type [T]: an object type, [U[]], or [U[n]]. *)
Inductive type := Object | UnknownBound | KnownBound (n : nat).

Definition is_array (T : type) : bool := match T with Object => false | _ => true end.

(** The primary template and its specialisation for [T[Size]]. *)
Definition is_array_known_bound (T : type) : bool := match T with KnownBound _ => true | _ => false end.

(** An argument: its value as a [size_t], if it converts to one. *)
Definition argument := option Z.

(** How an object is initialised: from the arguments (no arguments mean value
    initialisation), by default, or by value. *)
Inductive initialiser := Direct (args : list argument) | Default | Value.

#[export] Instance initialiser_eq_dec : EqDecision initialiser.
Proof. solve_decision. Defined.

Inductive overload := MakeObject | MakeArray | Deleted.

#[export] Instance overload_eq_dec : EqDecision overload.
Proof. solve_decision. Defined.

(** Who takes part: [enable_if], and whether the arguments fit. *)
Definition unique_overloads (T : type) (args : list argument) : list (overload * bool) :=
  [(MakeObject, negb (is_array T));
   (MakeArray, is_array T && negb (is_array_known_bound T) && match args with [Some _] => true | _ => false end);
   (Deleted, is_array_known_bound T)].

(** What the pointer owns; [None] when the call does not compile. *)
Definition make_unique (T : type) (args : list argument) : option (list initialiser) :=
  match (filter (fun o => o.2 = true) (unique_overloads T args)).*1 with
  | [MakeObject] => Some [Direct args]
  | [MakeArray] => size ← mjoin (head args); Some (replicate (Z.to_nat (wrap_u 64 size)) Default)
  | _ => None
  end.

(** C++14: [new T(std::forward<Args>(args)...)], [new U[size]()], deleted. *)
Definition std_make_unique (T : type) (args : list argument) : option (list initialiser) :=
  match T, args with
  | Object, _ => Some [Direct args]
  | UnknownBound, [Some size] => Some (replicate (Z.to_nat (wrap_u 64 size)) Value)
  | _, _ => None
  end.

(** What an element starts as: a class with a default constructor of its own
    is initialised either way; for any other type default initialisation
    leaves an indeterminate value. *)
Inductive content := Determinate | Indeterminate.

Definition starts_as (own_constructor : bool) (i : initialiser) : content :=
  match i with Default => if own_constructor then Determinate else Indeterminate | _ => Determinate end.

(** ** Properties *)

(** [make_unique] accepts the calls that C++14's accepts and makes as many
    objects; they start as C++14's do exactly if the type is no array, or the
    array is empty, or the elements have a default constructor of their own:
    an array of integers, which C++14 zeroes, is left indeterminate. *)
Theorem make_unique_std own_constructor T args :
  match std_make_unique T args with
  | None => make_unique T args = None
  | Some std => exists own, make_unique T args = Some own /\ length own = length std /\
      (starts_as own_constructor <$> own = starts_as own_constructor <$> std <->
       is_array T = false \/ own = [] \/ own_constructor = true)
  end.
Proof.
  destruct T as [| |n]; simpl; [..|by destruct args as [|[] []]].
  - eexists. split; [done|]. split; [done|]. split; [by left|done].
  - destruct args as [|[z|] [|? ?]]; try done. unfold make_unique. simpl. eexists. split; [done|].
    rewrite !length_replicate, !fmap_replicate. split; [done|].
    destruct (Z.to_nat (wrap_u 64 z)) as [|k], own_constructor; simpl; split; try done; auto.
    intros [|[|]]; done.
Qed.

Example zeroed : std_make_unique UnknownBound [Some 2%Z] = Some [Value; Value].
Proof. reflexivity. Qed.

Example not_zeroed : starts_as false <$> default [] (make_unique UnknownBound [Some 2%Z]) = [Indeterminate; Indeterminate].
Proof. reflexivity. Qed.
End MakeUnique.
