(* ===== verification/PThread.v ===== *)
(** * pthread_wrapper: PThreadSharedMutex and PThreadSpinLockWrapper

    Both classes call a pthread object and turn its return codes into values
    and exceptions.  The pthread functions are parameters: the class [PThread]
    lists those the wrappers call, [RwLockLaws] and [SpinLaws] what POSIX says
    of them, seen by the calling thread. *)

From S2P Require Import Prelude RWLock.

(** Return codes: zero, the errors the wrappers know, any other. *)
Inductive code := SUCCESS | EAGAIN | EBUSY | EDEADLK | EINVAL | ENOMEM | EPERM | EOTHER (n : Z).

#[export] Instance code_eq_dec : EqDecision code.
Proof. solve_decision. Defined.

(** How a call of a wrapper ends: a value, [std::bad_alloc], a
    [std::system_error], a failed [assert]. *)
Inductive errc := resource_unavailable_try_again | operation_not_permitted | resource_deadlock_would_occur.
Inductive outcome (A : Type) := Ok (a : A) | BadAlloc | SystemError (e : errc) | AssertFailed.
Arguments Ok {A} a.
Arguments BadAlloc {A}.
Arguments SystemError {A} e.
Arguments AssertFailed {A}.

(** [assert(ret == 0); return v;], with and without [NDEBUG]. *)
Definition assert_zero {A} (ndebug : bool) (ret : code) (v : A) : outcome A :=
  if ndebug || bool_decide (ret = SUCCESS) then Ok v else AssertFailed.

(** The functions of one kind of object, on a state [S] that stands for the
    object and everything that acts on it; a call may block, and returns a
    code. *)
Class PThread (S : Type) := {
  excl : S -> code * S;        (** [wrlock] / [spin_lock] *)
  try_excl : S -> code * S;
  shared : S -> code * S;      (** [rdlock] *)
  try_shared : S -> code * S;
  unlock_ : S -> code * S;
}.

Module PThreadSharedMutex.
Section code.
Context {S : Type} `{!PThread S} (ndebug : bool).

(** The constructor and the destructor, from the codes of [init] and
    [destroy]. *)
Definition construct (ret : code) : outcome unit :=
  match ret with
  | ENOMEM => BadAlloc
  | EAGAIN => SystemError resource_unavailable_try_again
  | EPERM => SystemError operation_not_permitted
  | _ => assert_zero ndebug ret tt
  end.

Definition destroy (ret : code) : outcome unit := assert_zero ndebug ret tt.

Definition check_lock (ret : code) : outcome unit :=
  match ret with
  | EDEADLK => SystemError resource_deadlock_would_occur
  | _ => assert_zero ndebug ret tt
  end.

Definition lock (s : S) : outcome unit * S :=
  let '(ret, s) := excl s in (check_lock ret, s).

Definition unlock (s : S) : outcome unit * S :=
  let '(ret, s) := unlock_ s in (assert_zero ndebug ret tt, s).

Definition try_lock (s : S) : outcome bool * S :=
  let '(ret, s) := try_excl s in
  (match ret with EBUSY => Ok false | _ => assert_zero ndebug ret true end, s).

(** The loop of [lock_shared], with fuel for the number of calls. *)
Fixpoint rdlock_loop (fuel : nat) (s : S) : option (code * S) :=
  match fuel with
  | O => None
  | Datatypes.S fuel =>
      let '(ret, s) := shared s in
      match ret with EAGAIN => rdlock_loop fuel s | _ => Some (ret, s) end
  end.

Definition lock_shared (fuel : nat) (s : S) : option (outcome unit * S) :=
  '(ret, s) ← rdlock_loop fuel s; Some (check_lock ret, s).

Definition try_lock_shared (s : S) : outcome bool * S :=
  let '(ret, s) := try_shared s in
  (match ret with EBUSY | EAGAIN => Ok false | _ => assert_zero ndebug ret true end, s).

Definition unlock_shared (s : S) : outcome unit * S := unlock s.
End code.
End PThreadSharedMutex.

Module PThreadSpinLock.
Section code.
Context {S : Type} `{!PThread S} (ndebug : bool).

Definition construct (ret : code) : outcome unit :=
  match ret with
  | ENOMEM => BadAlloc
  | EAGAIN => SystemError resource_unavailable_try_again
  | _ => assert_zero ndebug ret tt
  end.

Definition destroy (ret : code) : outcome unit := assert_zero ndebug ret tt.

Definition lock (s : S) : outcome unit * S :=
  let '(ret, s) := excl s in
  (match ret with
   | EDEADLK => SystemError resource_deadlock_would_occur
   | _ => assert_zero ndebug ret tt
   end, s).

Definition unlock (s : S) : outcome unit * S :=
  let '(ret, s) := unlock_ s in (assert_zero ndebug ret tt, s).

Definition try_lock (s : S) : outcome bool * S :=
  let '(ret, s) := try_excl s in
  (match ret with EDEADLK | EBUSY => Ok false | _ => assert_zero ndebug ret true end, s).
End code.
End PThreadSpinLock.

(** ** What POSIX says *)

(** [mode s]: what the calling thread owns of the object.  A call that
    returns zero did what it is for; any other code changed nothing; the codes
    are those listed for an initialised object. *)
Record does {S : Type} (mode : S -> RW.hold) (f : S -> code * S) (s : S) (goal : RW.hold) (errors : list code) : Prop := {
  does_success s' : f s = (SUCCESS, s') -> mode s' = goal;
  does_failure c s' : f s = (c, s') -> c <> SUCCESS -> mode s' = mode s;
  does_errors : (f s).1 ∈ SUCCESS :: errors;
}.

Class RwLockLaws (S : Type) `{!PThread S} (mode : S -> RW.hold) : Prop := {
  rw_excl s : mode s = RW.Free -> does mode excl s RW.Exclusive [EDEADLK];
  rw_try_excl s : mode s = RW.Free -> does mode try_excl s RW.Exclusive [EBUSY];
  rw_shared s : mode s = RW.Free -> does mode shared s RW.Shared [EAGAIN; EDEADLK];
  rw_try_shared s : mode s = RW.Free -> does mode try_shared s RW.Shared [EBUSY; EAGAIN];
  rw_unlock s : mode s = RW.Shared \/ mode s = RW.Exclusive -> does mode unlock_ s RW.Free [];
}.

Class SpinLaws (S : Type) `{!PThread S} (mode : S -> RW.hold) : Prop := {
  spin_excl s : mode s = RW.Free -> does mode excl s RW.Exclusive [EDEADLK];
  spin_try_excl s : mode s = RW.Free -> does mode try_excl s RW.Exclusive [EBUSY; EDEADLK];
  spin_unlock s : mode s = RW.Exclusive -> does mode unlock_ s RW.Free [];
}.
