(* ===== verification/PThreadProps.v ===== *)
(** * The pthread wrappers: the properties *)

From S2P Require Import Prelude RWLock PThread.

(** ** The wrappers as implementations of the concept *)

Definition as_void (r : outcome unit) : outcome RW.ret :=
  match r with
  | Ok _ => Ok RW.Void
  | BadAlloc => BadAlloc
  | SystemError e => SystemError e
  | AssertFailed => AssertFailed
  end.
Definition as_bool (r : outcome bool) : outcome RW.ret :=
  match r with
  | Ok b => Ok (RW.Bool b)
  | BadAlloc => BadAlloc
  | SystemError e => SystemError e
  | AssertFailed => AssertFailed
  end.

(** A member function by its name in the concept; the timed ones are missing. *)
Definition shared_mutex_call {S} `{!PThread S} (ndebug : bool) (fuel : nat) (o : RW.op) (s : S)
    : option (outcome RW.ret * S) :=
  let void '(r, s) := (as_void r, s) in
  let bool '(r, s) := (as_bool r, s) in
  match o with
  | RW.lock => Some (void (PThreadSharedMutex.lock ndebug s))
  | RW.unlock => Some (void (PThreadSharedMutex.unlock ndebug s))
  | RW.try_lock => Some (bool (PThreadSharedMutex.try_lock ndebug s))
  | RW.lock_shared => void <$> PThreadSharedMutex.lock_shared ndebug fuel s
  | RW.try_lock_shared => Some (bool (PThreadSharedMutex.try_lock_shared ndebug s))
  | RW.unlock_shared => Some (void (PThreadSharedMutex.unlock_shared ndebug s))
  | RW.try_lock_until | RW.try_lock_shared_until => None
  end.

Definition spin_lock_call {S} `{!PThread S} (ndebug : bool) (o : RW.op) (s : S) : option (outcome RW.ret * S) :=
  match o with
  | RW.lock => let '(r, s) := PThreadSpinLock.lock ndebug s in Some (as_void r, s)
  | RW.unlock => let '(r, s) := PThreadSpinLock.unlock ndebug s in Some (as_void r, s)
  | RW.try_lock => let '(r, s) := PThreadSpinLock.try_lock ndebug s in Some (as_bool r, s)
  | _ => None
  end.

(** The first pthread call of a member. *)
Definition asks {S} `{!PThread S} (o : RW.op) : S -> code * S :=
  match o with
  | RW.lock => excl
  | RW.unlock | RW.unlock_shared => unlock_
  | RW.try_lock => try_excl
  | RW.lock_shared => shared
  | _ => try_shared
  end.

(** What a member makes of the answer of its pthread call: zero is success,
    [EDEADLK] becomes an exception of the members that block, and the others
    report that the lock was not to be had. *)
Definition reports (o : RW.op) (c : code) : outcome RW.ret :=
  match o with
  | RW.lock | RW.lock_shared => if decide (c = SUCCESS) then Ok RW.Void else SystemError resource_deadlock_would_occur
  | RW.unlock | RW.unlock_shared => Ok RW.Void
  | _ => Ok (RW.Bool (bool_decide (c = SUCCESS)))
  end.

(** The members [PThreadSharedMutex] has. *)
Definition untimed (o : RW.op) : bool :=
  match o with RW.try_lock_until | RW.try_lock_shared_until => false | _ => true end.

(** What a call may do: return with the ownership its value announces, or
    report a deadlock and leave the ownership as it was.  In particular no
    assertion fails. *)
Definition honest {S} (mode : S -> RW.hold) (o : RW.op) (s : S) (r : outcome RW.ret) (s' : S) : Prop :=
  match r with
  | Ok v => mode s' = RW.after o v
  | SystemError resource_deadlock_would_occur => mode s' = mode s
  | _ => False
  end.

Section meets.
Context {S : Type} `{!PThread S} (mode : S -> RW.hold).
Implicit Types (s : S).

(** Case analysis on what a documented function returned. *)
Lemma does_cases f s goal errors c s' :
  does mode f s goal errors -> f s = (c, s') ->
  c = SUCCESS /\ mode s' = goal \/ c ∈ errors /\ c <> SUCCESS /\ mode s' = mode s.
Proof.
  intros H Hf. pose proof (does_errors _ _ _ _ _ H) as He. rewrite Hf in He. simpl in He.
  destruct (decide (c = SUCCESS)) as [->|Hc].
  - left. split; [done|]. by eapply does_success.
  - right. split_and!; [set_solver|done|]. by eapply does_failure.
Qed.

(** The state, and the code, of the [k]-th call of [pthread_rwlock_rdlock] in
    a row. *)
Definition after_calls (k : nat) (s : S) : S := Nat.iter k (fun s => (shared s).2) s.
Definition nth_code (s : S) (k : nat) : code := (shared (after_calls k s)).1.

Lemma after_calls_succ k s : after_calls (Datatypes.S k) s = after_calls k (shared s).2.
Proof. unfold after_calls. by rewrite Nat.iter_succ_r. Qed.

(** The retry loop of [lock_shared] returns exactly when [rdlock] first
    answers something else than [EAGAIN], with that answer; while it answers
    [EAGAIN] the loop goes on, however long. *)
Lemma lock_shared_loop s k fuel :
  (forall i, i < k -> nth_code s i = EAGAIN) ->
  (fuel <= k -> PThreadSharedMutex.rdlock_loop fuel s = None) /\
  (k < fuel -> nth_code s k <> EAGAIN ->
   PThreadSharedMutex.rdlock_loop fuel s = Some (shared (after_calls k s))).
Proof.
  revert s fuel. induction k as [|k IH]; intros s fuel Hag.
  - split; [by intros ?; assert (fuel = 0) as -> by lia|]. intros Hf Hk. destruct fuel as [|fuel]; [lia|].
    unfold nth_code, after_calls in *. simpl in *. destruct (shared s) as [c s1]. by destruct c.
  - assert (Hfirst : (shared s).1 = EAGAIN) by (apply (Hag 0); lia).
    destruct fuel as [|fuel]; [split; [done|lia]|].
    destruct (IH (shared s).2 fuel) as [IH1 IH2].
    { intros i Hi. unfold nth_code. rewrite <- after_calls_succ. apply (Hag (Datatypes.S i)). lia. }
    unfold nth_code in *. rewrite after_calls_succ. simpl. destruct (shared s) as [c s1]. simpl in *. subst c.
    split; [intros ?; apply IH1; lia|]. intros ? Hk. apply IH2; [lia|done].
Qed.

(** Refusals leave the thread without ownership. *)
Lemma refused_free `{!RwLockLaws S mode} s k :
  mode s = RW.Free -> (forall i, i < k -> nth_code s i = EAGAIN) -> mode (after_calls k s) = RW.Free.
Proof.
  revert s. induction k as [|k IH]; intros s Hs Hag; [done|]. rewrite after_calls_succ.
  assert (Hfirst : (shared s).1 = EAGAIN) by (apply (Hag 0); lia). apply IH.
  - destruct (shared s) as [c s1] eqn:Hc. simpl in *. subst c.
    destruct (does_cases _ _ _ _ _ _ (rw_shared s Hs) Hc) as [[? _]|(_ & _ & Hm)]; [done|congruence].
  - intros i Hi. unfold nth_code. rewrite <- after_calls_succ. apply (Hag (Datatypes.S i)). lia.
Qed.
End meets.

(** The pthread call [f s] of a member: it succeeded, or answered one of
    the documented errors; in each case what the member returns is evaluated. *)
Ltac answers mode f s H E :=
  let Hin := fresh "Hin" in
  destruct (does_cases mode _ _ _ _ _ _ H E) as [[-> ?]|(Hin & _ & ?)];
  [|repeat (apply elem_of_cons in Hin as [->|Hin]); try (by apply elem_of_nil in Hin)].

Ltac answered mode f s H :=
  let E := fresh "E" in
  destruct (f s) as [? ?] eqn:E; do 2 eexists; (split; [exact E|]);
  answers mode f s H E;
  (split; [|split; [done|simpl in *; congruence]]);
  intros fuel _; simpl; 
  unfold PThreadSharedMutex.lock, PThreadSharedMutex.unlock_shared, PThreadSharedMutex.unlock,
    PThreadSharedMutex.try_lock, PThreadSharedMutex.try_lock_shared; rewrite E;
  unfold PThreadSharedMutex.check_lock, assert_zero; simpl; by rewrite ?orb_true_r.

(** ** The properties *)

(** [rdlock] is refused [k] times in a row before it answers something else. *)
Definition refused {S} `{!PThread S} (s : S) (k : nat) : Prop :=
  (forall i, i < k -> nth_code s i = EAGAIN) /\ nth_code s k <> EAGAIN.

(** C33: [PThreadSharedMutex] is a shared mutex without timeouts. If the
    pthread calls do what POSIX says, each member called in the mode its
    contract requires returns; what it reports follows from the answer of its
    pthread call; and it returns with the ownership its result announces, or
    reports a deadlock and changes nothing; no assertion fails. [lock_shared]
    asks again as long as the answer is [EAGAIN]: refused [k] times, it
    returns with the next answer, after [k + 1] calls and in no fewer. *)
Theorem psm_meets_concept {S} `{!PThread S} (mode : S -> RW.hold) `{!RwLockLaws S mode} ndebug o s k :
  mode s = RW.required o -> untimed o = true ->
  match o with RW.lock_shared => refused s k | _ => k = 0 end ->
  exists c s', asks o (after_calls k s) = (c, s') /\
    (forall fuel, (o = RW.lock_shared -> k < fuel) -> shared_mutex_call ndebug fuel o s = Some (reports o c, s')) /\
    (forall fuel, o = RW.lock_shared -> fuel <= k -> shared_mutex_call ndebug fuel o s = None) /\
    honest mode o s (reports o c) s'.
Proof.
  intros Hm Hun Hk. assert (o = RW.lock_shared \/ o <> RW.lock_shared /\ k = 0) as [->|[Hne ->]] by (destruct o; auto).
  - destruct Hk as [Hag Hc]. pose proof (refused_free mode s k Hm Hag) as Hfree.
    assert (Hloop := fun fuel => lock_shared_loop s k fuel Hag).
    destruct (shared (after_calls k s)) as [c s'] eqn:E. exists c, s'. split; [done|].
    unfold nth_code in Hc. rewrite E in Hc. simpl in Hc, Hm.
    assert (c = SUCCESS /\ mode s' = RW.Shared \/ c = EDEADLK /\ mode s' = RW.Free) as Hcase.
    { destruct (does_cases mode _ _ _ _ _ _ (rw_shared _ Hfree) E) as [|(Hin & _ & Hs')]; [by left|right].
      split; [set_solver|congruence]. }
    split_and!.
    + intros fuel Hf. destruct (Hloop fuel) as [_ Hret]. simpl. unfold PThreadSharedMutex.lock_shared.
      unfold nth_code in Hret. rewrite E in Hret. rewrite (Hret (Hf eq_refl) Hc). simpl.
      unfold PThreadSharedMutex.check_lock, assert_zero. destruct Hcase as [[-> _]|[-> _]]; simpl; by rewrite ?orb_true_r.
    + intros fuel _ Hf. simpl. unfold PThreadSharedMutex.lock_shared. by rewrite (proj1 (Hloop fuel) Hf).
    + destruct Hcase as [[-> Hs']|[-> Hs']]; simpl; congruence.
  - clear Hk. destruct o; simpl in Hm; try done.
    + answered mode excl s (rw_excl s Hm).
    + answered mode unlock_ s (rw_unlock s (or_intror Hm)).
    + answered mode try_excl s (rw_try_excl s Hm).
    + answered mode unlock_ s (rw_unlock s (or_introl Hm)).
    + answered mode try_shared s (rw_try_shared s Hm).
Qed.

Ltac evaluated mode f s H Hr :=
  let E := fresh "E" in
  destruct (f s) as [? ?] eqn:E; answers mode f s H E;
  injection Hr as <- <-; unfold assert_zero; rewrite ?orb_true_r; simpl in *; congruence.

(** [PThreadSpinLockWrapper] is Lockable, under the same assumption. *)
Theorem pspin_meets_lockable {S} `{!PThread S} (mode : S -> RW.hold) `{!SpinLaws S mode} ndebug o s r s' :
  mode s = RW.required o -> spin_lock_call ndebug o s = Some (r, s') -> honest mode o s r s'.
Proof.
  intros Hm Hr. destruct o; simpl in Hm, Hr; try done.
  - unfold PThreadSpinLock.lock in Hr. evaluated mode excl s (spin_excl s Hm) Hr.
  - unfold PThreadSpinLock.unlock in Hr. evaluated mode unlock_ s (spin_unlock s Hm) Hr.
  - unfold PThreadSpinLock.try_lock in Hr. evaluated mode try_excl s (spin_try_excl s Hm) Hr.
Qed.

(** ** A concrete object

    One thread's view of a read-write lock with a bound on its readers: other
    readers leave one by one, one each time the thread asks in vain. *)

Record toy := mkToy { me : RW.hold; others : nat }.
Definition MAX_READERS : nat := 2.

Definition toy_owned (s : toy) : bool := match me s with RW.Free => false | _ => true end.

#[export] Instance toy_rwlock : PThread toy := {
  excl s := if toy_owned s then (EDEADLK, s) else (SUCCESS, mkToy RW.Exclusive 0);
  try_excl s := if toy_owned s || negb (others s =? 0)%nat then (EBUSY, s) else (SUCCESS, mkToy RW.Exclusive 0);
  shared s := if toy_owned s then (EDEADLK, s)
              else if (MAX_READERS <=? others s)%nat then (EAGAIN, mkToy (me s) (pred (others s)))
              else (SUCCESS, mkToy RW.Shared (others s));
  try_shared s := if toy_owned s then (EBUSY, s)
              else if (MAX_READERS <=? others s)%nat then (EAGAIN, s)
              else (SUCCESS, mkToy RW.Shared (others s));
  unlock_ s := if toy_owned s then (SUCCESS, mkToy RW.Free (others s)) else (EPERM, s);
}.

Ltac toy_law :=
  let H := fresh "H" in
  intros [h n] H; simpl in H;
  first [subst h|destruct H; subst h];
  (split; [intros s'|intros c s'|]; simpl; unfold toy_owned; simpl; repeat case_match;
   try (intros [= <- <-]); try (intros [= <-]); try (intros [= <- <-] ?); set_solver).

#[export] Instance toy_rwlock_laws : RwLockLaws toy me.
Proof. split; toy_law. Qed.

#[export] Instance toy_spin_laws : SpinLaws toy me.
Proof. split; toy_law. Qed.

(** Three other readers: [rdlock] is refused twice. *)
Lemma psm_meets_concept_witness :
  refused (mkToy RW.Free 3) 2 /\
  exists s', shared_mutex_call true 3 RW.lock_shared (mkToy RW.Free 3) = Some (Ok RW.Void, s') /\ me s' = RW.Shared /\
    shared_mutex_call true 2 RW.lock_shared (mkToy RW.Free 3) = None.
Proof.
  assert (refused (mkToy RW.Free 3) 2) as H.
  { split; [|discriminate]. intros [|[|i]] Hi; [reflexivity|reflexivity|lia]. }
  split; [exact H|].
  destruct (psm_meets_concept me true RW.lock_shared (mkToy RW.Free 3) 2 eq_refl eq_refl H) as (c & s' & Hc & Hret & Hno & Hh).
  exists s'. assert (c = SUCCESS) as -> by (vm_compute in Hc; congruence).
  split; [exact (Hret 3 ltac:(lia))|]. split; [exact Hh|exact (Hno 2 eq_refl ltac:(lia))].
Defined.

Lemma pspin_meets_lockable_witness :
  exists s', spin_lock_call false RW.try_lock (mkToy RW.Free 1) = Some (Ok (RW.Bool false), s') /\ me s' = RW.Free.
Proof.
  eexists. split; [vm_compute; reflexivity|].
  apply (pspin_meets_lockable me false RW.try_lock (mkToy RW.Free 1) (Ok (RW.Bool false)) _ eq_refl). reflexivity.
Defined.
