(* ===== verification/PThreadLocalPtr.v ===== *)
(** * pthread_wrapper/pthread_local_ptr.h: PThreadLocalPtr

    One object of type [T] per thread, made on the first [get] of the thread
    and deleted when the thread ends.  The pthread key is a parameter: the
    class [ThreadSpecific] lists the functions the wrapper calls, and
    [ThreadSpecificLaws] what POSIX says of them. *)

From S2P Require Import Prelude Machine.

Abbreviation addr := nat.

(** A key, seen as the values threads have stored under it; [D] is the type of
    the destructors it can be given. *)
Class ThreadSpecific (S D : Type) := {
  key_create : option D -> option S;             (** null or a destructor; [None]: an error code *)
  destructor : S -> option D;
  getspecific : S -> tid -> option addr;
  setspecific : S -> tid -> addr -> bool * S;    (** [true]: returned zero *)
  at_exit : S -> tid -> S * option (D * addr);   (** the end of a thread, and the call it makes *)
}.

(** When a thread ends, its value becomes null, and the destructor of the key,
    if it has one, is called with the value, if there was one. *)
Class ThreadSpecificLaws (S D : Type) `{!ThreadSpecific S D} : Prop := {
  fresh_key d s t : key_create d = Some s -> getspecific s t = None;
  fresh_destructor d s : key_create d = Some s -> destructor s = d;
  get_set s t p s' u : setspecific s t p = (true, s') ->
    getspecific s' u = if decide (u = t) then Some p else getspecific s u;
  get_set_failed s t p s' u : setspecific s t p = (false, s') -> getspecific s' u = getspecific s u;
  destructor_set s t p : destructor (setspecific s t p).2 = destructor s;
  get_exit s t u : getspecific (at_exit s t).1 u = if decide (u = t) then None else getspecific s u;
  destructor_exit s t : destructor (at_exit s t).1 = destructor s;
  exit_calls s t : (at_exit s t).2 = (d ← destructor s; p ← getspecific s t; Some (d, p));
}.

Module PThreadLocalPtr.
(** A function to which a key can hand an object of the heap. *)
Abbreviation dtor T := (addr -> gmap addr T -> gmap addr T).

Section code.
Context {S T : Type} `{!ThreadSpecific S (dtor T)}.

(** The wrapper, and the heap of the objects it makes.  [initial] is what
    [initializer_func] constructs: a [T] with the bound arguments. *)
Record world := mkWorld {
  key : S;
  initial : T;
  heap : gmap addr T;
  brk : addr;
}.

(** [delete static_cast<T*>(t);] *)
Definition deleter : dtor T := fun p heap => delete p heap.

(** The constructor: the wrapper is valid when the key was created. *)
Definition construct (init : T) : option world :=
  s ← key_create (Some deleter); Some (mkWorld s init ∅ 0).
Definition is_valid (w : option world) : bool := bool_decide (is_Some w).

(** [initializer_func()]: [new T(args...)]. *)
Definition initializer (w : world) : addr * world :=
  (brk w, mkWorld (key w) (initial w) (<[brk w := initial w]> (heap w)) (Datatypes.S (brk w))).

(** The code [pthread_setspecific] returns is ignored. *)
Definition get (t : tid) (w : world) : addr * world :=
  match getspecific (key w) t with
  | Some p => (p, w)
  | None =>
      let '(p, w) := initializer w in
      (p, mkWorld (setspecific (key w) t p).2 (initial w) (heap w) (brk w))
  end.

(** [operator*] and [operator->] go through [get]. *)
Definition deref (t : tid) (w : world) : option T * world :=
  let '(p, w) := get t w in (heap w !! p, w).

Definition store (t : tid) (v : T) (w : world) : world :=
  let '(p, w) := get t w in mkWorld (key w) (initial w) (<[p := v]> (heap w)) (brk w).

(** The end of a thread: the key calls what it was given. *)
Definition thread_exit (t : tid) (w : world) : world :=
  let '(s, calls) := at_exit (key w) t in
  mkWorld s (initial w) (match calls with Some (d, p) => d p (heap w) | None => heap w end) (brk w).

(** The destructor: [pthread_key_delete(key)] calls no [deleter], so what is
    on the heap stays there.  On a wrapper that is not valid the key is not
    initialised: undefined. *)
Definition destruct (w : option world) : option (gmap addr T) := heap <$> w.

(** What threads do with the wrapper. *)
Inductive op := Get (t : tid) | Deref (t : tid) | Store (t : tid) (v : T) | ThreadExit (t : tid).

Definition exec (w : world) (o : op) : world :=
  match o with
  | Get t => (get t w).2
  | Deref t => (deref t w).2
  | Store t v => store t v w
  | ThreadExit t => thread_exit t w
  end.

Definition acts (o : op) : tid := match o with Get t | Deref t | Store t _ | ThreadExit t => t end.

(** [pthread_setspecific] never fails. *)
Definition roomy : Prop := forall (s : S) t p, (setspecific s t p).1 = true.

(** The object of a thread, if it has one. *)
Definition object (w : world) (t : tid) : option T := p ← getspecific (key w) t; heap w !! p.

(** ** The promise: an independent variable per thread, made on demand *)

Definition spec_exec (init : T) (m : gmap tid T) (o : op) : gmap tid T :=
  match o with
  | Get t | Deref t => <[t := default init (m !! t)]> m
  | Store t v => <[t := v]> m
  | ThreadExit t => delete t m
  end.

(** Every thread has the object the specification says, no two threads share
    one, and the heap holds nothing else. *)
Record represents (w : world) (m : gmap tid T) : Prop := {
  rep_object t : object w t = m !! t;
  rep_slot t p : getspecific (key w) t = Some p -> is_Some (heap w !! p);
  rep_inj t u p : getspecific (key w) t = Some p -> getspecific (key w) u = Some p -> t = u;
  rep_heap p : is_Some (heap w !! p) -> exists t, getspecific (key w) t = Some p;
  rep_brk p : is_Some (heap w !! p) -> p < brk w;
  rep_deleter : destructor (key w) = Some deleter;
}.
End code.

Arguments world : clear implicits.
Arguments op : clear implicits.
End PThreadLocalPtr.
