(* ===== verification/PThreadLocalPtrProps.v ===== *)
(** * PThreadLocalPtr: a variable per thread *)

From S2P Require Import Prelude Machine PThreadLocalPtr.

Import PThreadLocalPtr.

Section proofs.
Context {S T : Type} `{!ThreadSpecific S (dtor T), !ThreadSpecificLaws S (dtor T)}.
Context (Hroomy : roomy (S := S) (T := T)).
Implicit Types (w : world S T) (m : gmap tid T) (t u : tid) (p : addr).

Lemma setspecific_get s t p u :
  getspecific (setspecific s t p).2 u = if decide (u = t) then Some p else getspecific s u.
Proof.
  pose proof (Hroomy s t p) as Hr. destruct (setspecific s t p) as [b s'] eqn:Hs. simpl in *. subst b.
  by eapply get_set.
Qed.

(** [get] gives the thread its object, which is new or the one it had. *)
Lemma get_represents w m t p w' :
  represents w m -> get t w = (p, w') ->
  represents w' (<[t := default (initial w) (m !! t)]> m) /\
  getspecific (key w') t = Some p /\ initial w' = initial w.
Proof.
  intros [Ho Hs Hi Hh Hb Hd] Hg. unfold get in Hg. destruct (getspecific (key w) t) as [q|] eqn:Hq.
  - injection Hg as <- <-. split; [|done].
    assert (default (initial w) (m !! t) = default (initial w) (object w t)) as -> by (by rewrite Ho).
    destruct (Hs t q Hq) as [v Hv]. unfold object. rewrite Hq. simpl. rewrite Hv. simpl.
    rewrite insert_id; [done|]. rewrite <- Ho. unfold object. by rewrite Hq.
  - unfold initializer in Hg. simpl in Hg. injection Hg as <- <-.
    assert (Hfresh : heap w !! brk w = None).
    { destruct (heap w !! brk w) eqn:Hx; [|done]. specialize (Hb (brk w) ltac:(by eexists)). lia. }
    assert (Hold : forall u q, getspecific (key w) u = Some q -> q <> brk w).
    { intros u q Hu ->. destruct (Hs u _ Hu) as [v Hv]. congruence. }
    assert (m !! t = None) as Hm by (by rewrite <- Ho; unfold object; rewrite Hq). rewrite Hm. simpl.
    split; [|by rewrite setspecific_get, decide_True]. split; simpl.
    + intros u. unfold object. simpl. rewrite setspecific_get. destruct (decide (u = t)) as [->|Hne].
      * simpl. by rewrite !lookup_insert_eq.
      * rewrite (lookup_insert_ne m) by done. rewrite <- Ho. unfold object.
        destruct (getspecific (key w) u) as [q|] eqn:Hu; [|done]. simpl.
        rewrite lookup_insert_ne; [done|]. intros Hx. by apply (Hold u q).
    + intros u q. rewrite setspecific_get, lookup_insert_is_Some. case_decide; [intros [= <-]; by left|].
      intros Hu. right. split; [intros Hx; by apply (Hold u q)|by eapply Hs].
    + intros u v q. rewrite !setspecific_get. intros Hu Hv.
      repeat case_decide; subst; try done; [|..|by eapply Hi]; exfalso; simplify_eq; by eapply Hold.
    + intros q. rewrite lookup_insert_is_Some. intros [<-|[Hne Hx]].
      * exists t. by rewrite setspecific_get, decide_True.
      * destruct (Hh q Hx) as [u Hu]. exists u. rewrite setspecific_get, decide_False; [done|congruence].
    + intros q. rewrite lookup_insert_is_Some. intros [<-|[_ Hx]]; [lia|]. specialize (Hb q Hx). lia.
    + by rewrite destructor_set.
Qed.

Lemma store_represents w m t p v :
  represents w m -> getspecific (key w) t = Some p ->
  represents (mkWorld (key w) (initial w) (<[p := v]> (heap w)) (brk w)) (<[t := v]> m).
Proof.
  intros [Ho Hs Hi Hh Hb Hd] Ht. split; simpl.
  - intros u. unfold object. simpl. destruct (decide (u = t)) as [->|Hne].
    + rewrite Ht. simpl. by rewrite !lookup_insert_eq.
    + rewrite (lookup_insert_ne m) by done. rewrite <- Ho. unfold object.
      destruct (getspecific (key w) u) as [q|] eqn:Hu; [|done]. simpl.
      rewrite lookup_insert_ne; [done|]. intros ->. by rewrite (Hi t u q Ht Hu) in Hne.
  - intros u q Hu. apply lookup_insert_is_Some'. right. by eapply Hs.
  - done.
  - intros q [<-|Hq]%lookup_insert_is_Some'; [by exists t|by apply Hh].
  - intros q [<-|Hq]%lookup_insert_is_Some'; [by eapply Hb, Hs|by apply Hb].
  - done.
Qed.

(** The runtime calls [deleter] with the object of the thread. *)
Lemma thread_exit_spec w m t :
  represents w m ->
  thread_exit t w = mkWorld (at_exit (key w) t).1 (initial w)
    (match getspecific (key w) t with Some p => delete p (heap w) | None => heap w end) (brk w).
Proof.
  intros H. unfold thread_exit. pose proof (exit_calls (key w) t) as Hc. rewrite (rep_deleter _ _ H) in Hc. simpl in Hc.
  destruct (at_exit (key w) t) as [s calls]. simpl in *. subst calls. by destruct (getspecific (key w) t).
Qed.

Lemma exit_represents w m t : represents w m -> represents (thread_exit t w) (delete t m).
Proof.
  intros H. rewrite (thread_exit_spec w m t H). destruct H as [Ho Hs Hi Hh Hb Hd].
  destruct (getspecific (key w) t) as [p|] eqn:Ht.
  - split; simpl; [..|by rewrite destructor_exit].
    + intros u. unfold object. simpl. rewrite get_exit. case_decide as Hu; simpl.
      * subst u. by rewrite lookup_delete_eq.
      * rewrite (lookup_delete_ne m) by done. rewrite <- Ho. unfold object.
        destruct (getspecific (key w) u) as [q|] eqn:Hq; [|done]. simpl.
        rewrite lookup_delete_ne; [done|]. intros ->. by rewrite (Hi t u q Ht Hq) in Hu.
    + intros u q. rewrite get_exit. case_decide as Hu; [done|]. intros Hq.
      rewrite lookup_delete_ne; [by eapply Hs|]. intros ->. by rewrite (Hi t u q Ht Hq) in Hu.
    + intros u v q. rewrite !get_exit. repeat case_decide; try done. apply Hi.
    + intros q [v [Hne Hq]%lookup_delete_Some]. destruct (Hh q ltac:(by eexists)) as [u Hu].
      exists u. rewrite get_exit, decide_False; [done|]. intros ->. congruence.
    + intros q [v [_ Hq]%lookup_delete_Some]. apply Hb. by eexists.
  - assert (m !! t = None) as Hm by (by rewrite <- Ho; unfold object; rewrite Ht).
    rewrite delete_id by done.
    assert (Hsame : forall u, getspecific (at_exit (key w) t).1 u = getspecific (key w) u).
    { intros u. rewrite get_exit. case_decide; [by subst|done]. }
    split; simpl; try done; [..|by rewrite destructor_exit].
    + intros u. unfold object. simpl. rewrite Hsame. apply Ho.
    + intros u q. rewrite Hsame. apply Hs.
    + intros u v q. rewrite !Hsame. apply Hi.
    + intros q Hq. destruct (Hh q Hq) as [u Hu]. exists u. by rewrite Hsame.
Qed.

Lemma exec_represents w m o :
  represents w m -> represents (exec w o) (spec_exec (initial w) m o) /\ initial (exec w o) = initial w.
Proof.
  intros H. destruct o as [t|t|t v|t]; simpl.
  - destruct (get t w) as [p w'] eqn:Hg. by destruct (get_represents _ _ _ _ _ H Hg) as (? & _ & ?).
  - unfold deref. destruct (get t w) as [p w'] eqn:Hg. by destruct (get_represents _ _ _ _ _ H Hg) as (? & _ & ?).
  - unfold store. destruct (get t w) as [p w'] eqn:Hg. destruct (get_represents _ _ _ _ _ H Hg) as (H' & Hp & Hi).
    split; [|done]. apply (store_represents _ _ t p v) in H'; [|done]. by rewrite insert_insert_eq in H'.
  - split; [by apply exit_represents|]. unfold thread_exit. by destruct (at_exit (key w) t).
Qed.

Lemma construct_represents (init : T) w : construct init = Some w -> represents w ∅ /\ initial w = init.
Proof.
  unfold construct. destruct (key_create (Some deleter)) as [s|] eqn:Hs; simpl; [|done]. intros [= <-]. split; [|done].
  assert (Hn : forall t, getspecific s t = None) by (intros t; by eapply fresh_key).
  split; simpl; [..|by apply fresh_destructor].
  - intros t. unfold object. simpl. by rewrite Hn.
  - intros t p. by rewrite Hn.
  - intros t u p. by rewrite Hn.
  - by intros p [? ?].
  - by intros p [? ?].
Qed.

Lemma run_represents (init : T) os w m :
  represents w m -> initial w = init ->
  represents (foldl exec w os) (foldl (spec_exec init) m os).
Proof.
  revert w m. induction os as [|o os IH]; intros w m H Hi; [done|]. simpl.
  destruct (exec_represents w m o H) as [H' Hi']. rewrite Hi in H'. apply IH; [done|congruence].
Qed.
End proofs.

(** ** The properties *)

(** C34: [PThreadLocalPtr] is an independent variable per thread. If the key
    functions do what POSIX says and never run out of memory, after any
    sequence of calls and thread ends each thread's object is what the thread
    last stored, or the initial value once it has looked; no two threads share
    an object, and every object on the heap belongs to a living thread. The
    destructor of the wrapper frees none of the objects of the threads that are
    still alive. *)
Theorem tlp_refines {S T} `{!ThreadSpecific S (dtor T), !ThreadSpecificLaws S (dtor T)} (init : T) w (os : list (op T)) :
  roomy (S := S) (T := T) -> construct init = Some w ->
  represents (foldl exec w os) (foldl (spec_exec init) ∅ os) /\
  exists left_over, destruct (Some (foldl exec w os)) = Some left_over /\
    forall t v, foldl (spec_exec init) ∅ os !! t = Some v -> exists p, left_over !! p = Some v.
Proof.
  intros Hr Hw. destruct (construct_represents init w Hw) as [H0 Hi].
  pose proof (run_represents Hr init os w ∅ H0 Hi) as H. split; [done|].
  exists (heap (foldl exec w os)). split; [done|]. intros t v Hv.
  rewrite <- (rep_object _ _ H t) in Hv. apply bind_Some in Hv as (p & _ & Hp). by exists p.
Qed.

(** ** A concrete key *)

Definition table D : Type := option D * gmap tid addr.

#[export] Instance table_key D : ThreadSpecific (table D) D := {
  key_create d := Some (d, ∅);
  destructor s := s.1;
  getspecific s t := s.2 !! t;
  setspecific s t p := (true, (s.1, <[t := p]> s.2));
  at_exit s t := ((s.1, delete t s.2), d ← s.1; p ← s.2 !! t; Some (d, p));
}.

#[export] Instance table_key_laws D : ThreadSpecificLaws (table D) D.
Proof.
  split; simpl.
  - by intros d s t [= <-].
  - by intros d s [= <-].
  - intros s t p s' u [= <-]. simpl. rewrite lookup_insert. repeat case_decide; congruence.
  - done.
  - done.
  - intros s t u. rewrite lookup_delete. repeat case_decide; congruence.
  - done.
  - done.
Qed.

(** Two threads count; one ends, and starts afresh. *)
Definition counting : list (op nat) :=
  [Get 1; Store 1 5; Deref 2; Store 2 7; ThreadExit 1; Deref 1].

Lemma tlp_refines_witness :
  exists w : world (table (dtor nat)) nat, construct 3 = Some w /\
    foldl (spec_exec 3) ∅ counting !! 2 = Some 7 /\
    represents (foldl exec w counting) (foldl (spec_exec 3) ∅ counting) /\
    exists left_over, destruct (Some (foldl exec w counting)) = Some left_over /\
      exists p, left_over !! p = Some 7.
Proof.
  exists (mkWorld (Some deleter, ∅) 3 ∅ 0). split; [reflexivity|]. split; [vm_compute; reflexivity|].
  destruct (tlp_refines 3 (mkWorld (Some deleter, ∅) 3 ∅ 0) counting) as [Hrep (h & Hh & Hleft)];
    [intros s t p; reflexivity|reflexivity|].
  split; [exact Hrep|]. exists h. split; [exact Hh|]. apply (Hleft 2). vm_compute. reflexivity.
Defined.

(** Without the hypothesis of memory: a [setspecific] that fails goes
    unnoticed, the object of the first call is lost on the heap and the next
    call makes another one. *)
Lemma tlp_unnoticed_failure {S T} `{!ThreadSpecific S (dtor T), !ThreadSpecificLaws S (dtor T)} (w : world S T) t s' :
  getspecific (key w) t = None -> setspecific (key w) t (brk w) = (false, s') ->
  let '(p, w1) := get t w in let '(q, w2) := get t w1 in p <> q /\ heap w2 !! p = Some (initial w).
Proof.
  intros Hn Hf. unfold get at 1. rewrite Hn. simpl. rewrite Hf. simpl.
  unfold get. simpl. rewrite (get_set_failed _ _ _ _ t Hf), Hn. simpl. split; [lia|].
  rewrite lookup_insert_ne by lia. apply lookup_insert_eq.
Qed.
